(* ===== verification/_CoqProject ===== *)
-Q . S2P
Prelude.v
BubbleSort.v
PgList.v
PgListFacts.v
ProvStack.v
ProvStackFacts.v
ListMachine.v
StackProps.v
CString.v
LdvState.v
LdvPackets.v
LdvCapture.v
LdvQuery.v
LdvInvariant.v
LdvProps.v
LdvTables.v
LdvReplay.v
VarBit.v
VarBitFacts.v
VarBitProps.v
AttrName.v
AttrNameProps.v
QueryTree.v
SqlSemantics.v
SqlFacts.v
Queries.v
ExtendSim.v
ProvWitness.v
Sublevels.v
RewriteSPJ.v
JoinBuild.v
RewriteLimit.v
RewriteAggr.v
RewriteSet.v
RewriteNode.v
Driver.v
RewriteFacts.v
RewriteJoins.v
RewriteEval.v
RewriteMain.v
JoinChain.v
Conditions.v
AggrFacts.v
SetTrees.v
SetJoins.v
SetFacts.v
LimitFacts.v
NodeFacts.v
ProvReplay.v
RewriteProps.v
OperatorProps.v
DriverProps.v
UnionFacts.v
ExceptFacts.v
UnionProps.v
CopyMap.v
CopyGraph.v
CopyFacts.v
CopySound.v
CopyQuery.v
CopyExact.v
CopyTerm.v
CopyCase.v
CopyProps.v
TransInfo.v
TransRewrite.v
CopyRewrite.v
CopyShape.v
TransTree.v
TransSemantics.v
TransShape.v
TransEnv.v
TransBuild.v
TransFacts.v
TransMain.v
TransProps.v
CopyEval.v
CopyRun.v
CopyTop.v
CopyAnswers.v
