(* ===== verification/Prelude.v ===== *)
(** * Verification of LDV and of the Perm provenance rewriter

    LDV ("light-weight database virtualisation") packages an application together with the part of its database it uses.
    The repository is PostgreSQL 8.3 with two additions, and these are what is verified here:

    - the Perm provenance rewriter in the server ([src/src/backend/provrewrite]), which turns a query into one that also
      returns, for each result row, the tuples of the base relations the row was computed from;
    - the LDV layer in the client library ([src/src/interfaces/libpq], functions [prv_...]), which intercepts the statements of
      an application.  When it captures (PTU_DB_MODE 21) it asks the server for the provenance of each statement and logs
      the tuples; when it replays (22) it rebuilds a database from the log.  In the modes 31 and 32 it records and
      replays the packets of the server instead.

    The chain the development establishes: the rewritten query returns exactly the provenance (RewriteProps); a database
    that consists of that provenance answers the query as the full database does (RewriteProps); the client asks
    for it with statements that have the same parts as the application's, and hands the application's
    own statement on unchanged (LdvProps, LdvTables); for tables of schema public that the query reads once, the row identifiers it
    looks for are called what the rewriter calls them (AttrNameProps); what it logs is what is restored (LdvReplay, LdvPackets).

    ** Files

    Foundations
    - Prelude: failures of C code ([error], [outcome]), the state-and-error monad [M] with its notations and laws,
      fixed-width integers, the hint database [perm] and the tactics [hrun] and [destr_all].
    - CString: the functions of <string.h> and <stdio.h> that fe-exec.c calls, with buffer sizes.

    Lists ([src/src/backend/nodes/list.c], [.../provrewrite/util/prov_stack.c])
    - PgList: list headers and cells on a heap; one definition per operation of list.c.  The three variants of
      an operation (pointers, integers, OIDs) are one definition with the type as argument ([..._gen]).
    - BubbleSort: the sort of prov_stack.c, on sequences.
    - PgListFacts: the specification of each operation against the sequence a list represents.
    - ProvStack, ProvStackFacts: the same for the stacks, sorts and removals of prov_stack.c.
    - ListMachine: the classes [Refines] and [Answers], the interface through which clients see lists, and their instances;
      programs of list operations are simulated by programs on sequences.
    - StackProps: the stack discipline, and the functions that do not do what they are described to do.

    Client library ([src/src/interfaces/libpq/fe-exec.c], [fe-connect.c], [fe-secure.c])
    - LdvState: the globals of the layer as the record [world], the server as an interface (the class
      [Server]), log primitives, the table of altered tables.
    - LdvPackets: recording and replaying packets.
    - LdvCapture: preparing tables, storing tuples, row identifiers, views ([prv_modifyTable],
      [prv_storeTupleFromResult], [prv_getRowIds], ...).
    - LdvQuery: splitting and assembling statements, [PQexec].
    - LdvInvariant: the class [Steps], the contract every function of the layer keeps.
    - LdvProps, LdvTables: properties of [PQexec], of the rewriting of statements, of the table list and of
      the buffers.
    - LdvReplay: [prv_restoredb] and the connection hooks, with their properties.

    Bit sets ([.../provrewrite/adt/prov_trans_bitset.c])
    - VarBit, VarBitFacts, VarBitProps: the bit sets of transformation provenance, byte by byte, as sets.

    Attribute names ([.../provrewrite/util/prov_attrname.c])
    - AttrName, AttrNameProps: the names of provenance attributes, with reference counters and buffers.

    The rewriter ([.../provrewrite/main/prov_spj.c], [prov_aggr.c], [prov_set.c], [provrewrite.c], [.../util/prov_util.c],
    [parse_relation.c])
    - QueryTree: range tables, join trees, target lists, expressions, trees of set operations, the catalog.
    - SqlSemantics: the specification, that is, the evaluation of queries without ([evalQuery]) and with ([evalProv]) witnesses.
    - SqlFacts: the simulation lemma for FROM and WHERE over the class [Relator].
    - Queries: the executable fragment [query_ok] of the queries the theorems are about.
    - ExtendSim: FROM and WHERE over entries whose rows have further columns.
    - ProvWitness: forgetting the witnesses gives the plain result.
    - Sublevels: references to outer queries ([increaseSublevelsUpMutator]).
    - RewriteSPJ: the rewriter for select-project-join queries, function by function, with its global stacks as the
      record [rewriter].
    - JoinBuild: the helpers that build joins; RewriteAggr: aggregation; RewriteSet: set operations;
      RewriteLimit: LIMIT over rows with several witnesses ([handleLimit]);
      RewriteNode: the dispatch [rewriteQueryNode], which ties them together.
    - Driver: the walk of provrewrite.c to the parts of a query that are marked with PROVENANCE.
    - RewriteFacts, RewriteJoins, RewriteEval, RewriteMain: range table, join entries and evaluation of a rewritten
      select-project-join query.  [rewrites] (RewriteFacts) is the contract between the rewriters: each is proved correct for any
      function that keeps it on the queries below.
    - JoinChain, Conditions: the joins and join conditions that aggregation and set operations put on top of the original query.
    - AggrFacts: aggregation.  SetTrees, SetJoins, SetFacts: taking trees of set operations apart, their joins, and the
      whole rewriter for set operations.  LimitFacts: the join that restores LIMIT.
    - NodeFacts: the induction over the query tree.
    - ProvReplay: witnesses are sufficient.
    - UnionFacts, ExceptFacts: unions and differences with the setting [prov_use_wl_union_semantics].
    - RewriteProps, OperatorProps, UnionProps: the theorems about [rewriteQueryNode].
    - DriverProps: the theorems about [provenanceRewriteQueryList].

    Copy contribution semantics ([.../provrewrite/copysem/prov_copy_map.c], [prov_copy_util.c], [prov_copy_spj.c], [prov_copy_agg.c],
    [prov_copy_inclattr.c])
    - CopyMap: the copy maps, which record the attributes of base relations that are copied to the columns of a query, the graph of
      equal columns, and the static analysis that decides which relations are rewritten.
    - CopyGraph: the edges and connections of the graph stand for equalities of every row, and its searches end.
    - CopyFacts: columns of joins, rows of a FROM clause, equalities of inner joins.
    - CopySound, CopyQuery: what a map promises ([certain]), and that it keeps it, by induction over the query.
    - CopyExact: maps without transitive copies and their analysis.  CopyTerm: generation and analysis end.
    - CopyCase: the conditions recorded for CASE expressions.
    - CopyProps: the theorems about [generateCopyMaps].
    - CopyRewrite: the rewriter that follows the maps, for select-project-join queries and aggregation, with the bit sets of conditional copies.
      [NodeInfo] says whose map and contribution type a rewritten node has.
    - CopyShape: the analysed maps of nested queries, level by level.  CopyEval: what a query evaluates to over entries that show copied
      tuples.  CopyRun: the rewriter on a query node and the induction over nested subqueries.  CopyTop: the last step.
    - CopyAnswers: the theorems about [rewriteQueryCopy].

    Transformation provenance ([.../provrewrite/transformationp/prov_trans_staticana.c], [prov_trans_main.c], [prov_trans_aggr.c],
    [prov_trans_set.c], [prov_trans_util.c], [.../util/prov_algmap.c])
    - TransInfo: the static analysis, which numbers the parts of a query (selections, projections, joins, accesses, set operations),
      marks those that only take part in a row together with all parts below them, and computes their bit sets.
    - TransRewrite: the rewriter, which adds the bit set of the parts that took part in a row as a column.  The layout of the two structs for
      the parts is part of the model, since the code writes to them through pointers of the wrong type.
    - TransTree: the numbers of the parts ([numbers]), the sets that bit strings stand for ([represents]), and the flags and sets as
      [checkStatic] and [computeSets] leave them.
    - TransSemantics: the specification: the evaluation [evalTrans] annotates every row with the set of parts.
    - TransShape: the tree of a select-project-join query.  TransEnv: which sides of an outer join a row shows.  TransBuild: the value of
      the computed column.  TransFacts, TransMain: rewritten and annotated rows correspond, a whole query node, and the
      induction over nested subqueries.
    - TransProps: the theorems about [analyseStaticTransProv] and [rewriteQueryTransProv].

    ** What the theorems show

    - Rewriter: on well-formed queries (nested subqueries, inner and outer joins, DISTINCT, aggregation with GROUP BY and
      HAVING, trees of set operations, LIMIT and OFFSET) rewriting succeeds; the rewritten query is well-formed and returns the original rows
      followed by their witnesses; the original columns keep their values.  What the witnesses of a group and of the rows
      of a union, an intersection and a difference are is spelled out, and taking trees of set operations apart is shown
      to be an equivalence.  For inner joins each witness reproduces its row on any database that contains it, and a database
      made of the witnesses alone gives the same answers.  Inputs outside the fragment (a dropped column, a
      function in FROM, LIMIT over a union, LIMIT with a hidden ORDER BY column) on which the code goes wrong are evaluated.
      LIMIT leaves the rows it leaves in the original query, whatever the number of their witnesses.
      With the alternative semantics of set operations, a union returns the rows of its inputs, each with the witnesses in its
      own input and NULL for the others, and a difference the witnesses of its left argument; two unions on
      which this goes wrong (a LIMIT, a union below a union) are evaluated.
    - Driver: in every list of queries the parts marked with PROVENANCE, at the top or in nested subqueries, return their
      rows with the provenance, and what is around them, of whatever form, is evaluated as before.
    - Copy maps: a column that a map declares a copy of an attribute has that attribute's value in every row; without transitivity
      the analysis decides exactly which relations are copied in part or completely; generation and analysis end for all
      queries.  Two queries on which the analysis goes wrong with transitivity are evaluated.  The conditions recorded for a CASE cover the
      copies it makes; a CASE whose ELSE gets the wrong condition is evaluated.
    - Copy rewriter: without transitivity, select-project-join queries with nested subqueries and joins of base relations are rewritten, and
      return their rows with the tuples of the relations that contribute and NULLs for the others.  Queries with a LIMIT over rows with
      several witnesses crash; a subquery under a join, a join with USING, a DISTINCT over several relations and the first bit of
      the sets are evaluated.
    - Transformation provenance: the analysis numbers every part of a query once; its static parts are those without an outer join at or below
      them, take part in a row with everything below them or not at all, and have the set of everything below them; for
      select-project-join queries with nested subqueries and joins of all kinds the rewritten query returns the rows of the original
      one, each with the bit set of exactly the parts that took part in it, if the optional sides of outer joins show their presence
      in their first column.  What happens otherwise is evaluated, as are an aggregation and a static set operation that lose
      information, and a set operation at the top level.  That mixed set operations, and operations below a difference, cannot be rewritten
      unless they are static is a theorem.
    - Lists: the operations of [ListMachine.listop], within their argument ranges, return on well-formed lists, compute the functions on
      sequences they stand for, keep [check_list_invariants] and touch no other list; the sorts sort; what is pushed on a stack is popped again.
      [insert], [removeElems], [removeNodeElem], [removeNodeForPred], [reverseList] and [popNth] at position 0 do not do what they should; [deQueue]
      returns the last element but removes nothing.
    - Capture: a statement that is not an INSERT is executed unchanged and last, and its answer returned (of a BYPASS statement what
      follows the keyword); INSERT, SELECT and UPDATE statements
      are rewritten as intended for every choice of their parts; tables are altered once; the table list is split correctly.
    - Replay: packets (in buffers of less than [2^30 - 50] bytes) and rows come back as they were recorded, failed reads do not; the requested database is built
      from the logged definitions and rows if the stored name starts with its name.
    - Bounds and errors: which buffers always suffice, and inputs that exceed the others.
    - Bit sets and names: the operations are union, inclusion, singleton, block test; names are
      injective per relation and collide across relations.

    ** Modelling decisions

    - A bad memory access is the value [Segv], a write outside a buffer [Overflow], [elog(ERROR)] is [Elog], a loop that
      runs out of fuel [Hang].  Theorems that say a function returns exclude all of them.
    - Fuel: loops over list cells take one more than the number of allocated cells, which no acyclic chain exceeds; the
      loops over a log or a table list take one more than its length, each iteration consumes at least one character;
      the resolution of a join column takes at most one step per range table entry, and the searches in the graph of equal columns nest at
      most once per node; the rewriter needs three units per level of nested subqueries, one of them for a LIMIT, and one per set operation ([need]);
      the rewriters for transformation provenance and for select-project-join queries under copy semantics need one unit per level of nested
      subqueries ([nesting]), and taking a set operation apart one per level of its tree ([tree_height]).  That the
      fuel is enough is part of each theorem.
    - Machine integers are [Z]; wrap-around is written out where it can occur (bytes of packets and bit sets, the
      hash of table names, the packet counter, the size passed to [fgets]).
    - The server, the file system, [recv] and the system catalogs are arguments, universally quantified in the theorems.
    - Query trees are values: the rewriter updates nodes in place but shares only the target entries that are on the
      provenance stack, which [rewriteDistinctClause] and the alternative semantics of a union treat.
    - The rewriters of sublinks are classes the rewriter is
      parametrised over ([AggSublinks], [SpjHelpers]); the only law the theorems use is that a query that is not marked as having
      sublinks has none.
    - IS NOT DISTINCT FROM, which the joins of the rewriter use, is equality of values with NULL equal to itself;
      GROUP BY, DISTINCT and set operations compare the same way.
    - In the fragment the theorems are about, LIMIT and OFFSET are constants and no ORDER BY stands next to them.  Where rows can have
      several witnesses, the columns can be compared and no set operation is below the LIMIT, which the code overlooks.
    - The relations a view reads ([getViewRelations]) are data of the catalog.
    - The driver is modelled for influence contribution, without INTO, utility statements and THIS expressions, and without the push-down of
      selections that a setting can switch on.
    - A copy map contains the maps of its inputs where the code has pointers from entry to entry.  That operators with the function of an
      equality operator hold for equal values only is a hypothesis ([equality_sound]).  The queries of the theorems about whole
      maps have no CASE, function calls or casts.
    - The copy rewriter keeps the provenance attributes of a relation in the entry of its map; in the model a rewritten query comes with a
      list of them.  Target entries that the map and the target list share are referred to by their number.  The rewriter of set operations
      ([CopySetOps]) and the operators for columns of different types ([Comparisons]) are operations of classes, without laws.
    - The constant folding of the optimizer ([ConstFolding]) and the registration of queries for the display of bit sets
      ([TransDisplay]) are operations of classes, without laws.
    - The infos of transformation provenance are the nodes of one tree; the code hangs one on every query node and links them.  A bit
      string is a datum through an injective encoding; that the function [bitor_with_null] of the catalog is the one of
      prov_trans_bitset.c is a hypothesis ([bitor_ops]).
    - The settings of the set operation rewriter are arguments of the model: [prov_use_set_optimization] is true in the theorems
      (its default), [prov_use_wl_union_semantics] false (its default) everywhere but in UnionFacts, ExceptFacts and UnionProps, whose
      theorems are about one set operation over queries without any.

    ** Not modelled

    Open: the set operations of the copy rewriter (prov_copy_set.c), which change the indexes of shared entries of the maps in place; sublinks, which need an evaluation of correlated subqueries; the
    query representations of prov_trans_bitset.c.  The push-down of selections with its inequality reasoning ([.../restr]) is
    unfinished and switched off: set operations get no scope, inner joins use an uninitialised pointer and conditions are written through
    the address of a local variable that no longer exists, so that there is no behaviour to state theorems about.  In [prov_trans_set.c] the extraction of
    a subtree of set operations is translated completely, but a write beyond an allocated node ends the run with [Overflow].
    Left out: the printers of query trees, meta querying through libxslt, and the unmodified PostgreSQL server
    and client programs. *)

From Stdlib Require Import ZArith Lia.
From stdpp Require Import base gmap strings numbers list.

(** ** Failure modes of C code *)

(** What can go wrong while a modelled C function runs. [Segv]: a read or write
    through a null pointer or through a pointer to memory that is not (or no
    longer) allocated.  [Elog msg]: PostgreSQL's [elog(ERROR, msg)] or
    [ereport(ERROR, ...)], which abandon the current statement.  [Hang]: a loop that does not
    terminate (a cyclic chain of list cells).  [Overflow]: a read or write outside
    the bounds of an array or [malloc]ed block. *)
Inductive error : Type :=
| Segv
| Overflow
| Elog (msg : string)
| Hang.

(** Result of a computation that may fail. *)
Inductive outcome (A : Type) : Type :=
| Ok (a : A)
| Err (e : error).
Arguments Ok {A} a.
Arguments Err {A} e.

#[global] Instance error_eq_dec : EqDecision error.
Proof. solve_decision. Defined.

#[global] Instance outcome_eq_dec `{EqDecision A} : EqDecision (outcome A).
Proof. solve_decision. Defined.

(** ** The state-and-error monad *)

(** Computations over a state [S] that may fail; the state is lost on failure,
    as it is when [elog] unwinds the statement or the process dies. *)
Definition M (S A : Type) : Type := S → outcome (A * S).

Definition ret {S A} (a : A) : M S A := λ s, Ok (a, s).
Definition bind {S A B} (m : M S A) (k : A → M S B) : M S B := λ s,
  match m s with Ok (a, s') => k a s' | Err e => Err e end.

Declare Scope perm_scope.
Delimit Scope perm_scope with perm.
Notation "x ← m ; k" := (bind m (λ x, k))
  (at level 20, m at level 100, k at level 200, only parsing) : perm_scope.
Notation "' x ← m ; k" := (bind m (λ x, k))
  (at level 20, x pattern, m at level 100, k at level 200, only parsing) : perm_scope.
Notation "m ;; k" := (bind m (λ _, k))
  (at level 100, k at level 200, right associativity, only parsing) : perm_scope.
Open Scope perm_scope.

Definition throw {S A} (e : error) : M S A := λ _, Err e.
Definition gets {S A} (f : S → A) : M S A := λ s, Ok (f s, s).
Definition modify {S} (f : S → S) : M S unit := λ s, Ok (tt, f s).

(** A value that must be there: the [None] case is a bad memory access. *)
Definition deref {S A} (o : option A) : M S A :=
  match o with Some a => ret a | None => throw Segv end.

Section monad.
Context {S A B C : Type}.
Implicit Types (m : M S A) (k : A → M S B) (s : S).

Lemma bind_ok m k s a s' : m s = Ok (a, s') → bind m k s = k a s'.
Proof. intros H. unfold bind. by rewrite H. Qed.

Lemma bind_err m k s e : m s = Err e → bind m k s = Err e.
Proof. intros H. unfold bind. by rewrite H. Qed.

Lemma bind_inv m k s b s' :
  bind m k s = Ok (b, s') → ∃ a s1, m s = Ok (a, s1) ∧ k a s1 = Ok (b, s').
Proof. unfold bind. destruct (m s) as [[a s1]|]; [eauto|done]. Qed.

Lemma bind_gets (f : S → A) k s : bind (gets f) k s = k (f s) s.
Proof. done. Qed.

Lemma bind_ret (a : A) k s : bind (ret a) k s = k a s.
Proof. done. Qed.

Lemma bind_modify (f : S → S) (k : unit → M S B) s : bind (modify f) k s = k tt (f s).
Proof. done. Qed.

Lemma bind_deref (a : A) k s : bind (deref (Some a)) k s = k a s.
Proof. done. Qed.

Lemma bind_assoc m k (g : B → M S C) s :
  bind (bind m k) g s = bind m (λ a, bind (k a) g) s.
Proof. unfold bind. by destruct (m s) as [[??]|]. Qed.

End monad.

(** ** Fixed-width machine integers

    A C integer is a [Z] kept in the range of its type; each operation that can
    leave the range wraps explicitly. *)

Definition wrap_u (w : Z) (z : Z) : Z := z mod 2 ^ w.
Definition wrap_s (w : Z) (z : Z) : Z := (z + 2 ^ (w - 1)) mod 2 ^ w - 2 ^ (w - 1).

Definition in_s (w z : Z) : Prop := (- 2 ^ (w - 1) ≤ z < 2 ^ (w - 1))%Z.
Definition in_u (w z : Z) : Prop := (0 ≤ z < 2 ^ w)%Z.

Lemma wrap_u_range w z : (0 ≤ w)%Z → in_u w (wrap_u w z).
Proof. intros. apply Z.mod_pos_bound, Z.pow_pos_nonneg; lia. Qed.

Lemma wrap_u_id w z : in_u w z → wrap_u w z = z.
Proof. apply Z.mod_small. Qed.

Lemma wrap_s_range w z : (0 < w)%Z → in_s w (wrap_s w z).
Proof.
  intros Hw. unfold in_s, wrap_s.
  assert (2 ^ w = 2 * 2 ^ (w - 1))%Z as E.
  { rewrite <- Z.pow_succ_r by lia. f_equal. lia. }
  pose proof (Z.mod_pos_bound (z + 2 ^ (w - 1)) (2 ^ w)) as B.
  assert (0 < 2 ^ (w - 1))%Z by (apply Z.pow_pos_nonneg; lia). lia.
Qed.

Lemma wrap_s_id w z : (0 < w)%Z → in_s w z → wrap_s w z = z.
Proof.
  unfold in_s, wrap_s. intros Hw H.
  assert (2 ^ w = 2 * 2 ^ (w - 1))%Z as E.
  { rewrite <- Z.pow_succ_r by lia. f_equal. lia. }
  rewrite Z.mod_small by lia. lia.
Qed.

(** ** Automation *)

(** Lemmas that discharge the side conditions of heap and list reasoning. *)
Create HintDb perm discriminated.
#[export] Hint Resolve wrap_u_range wrap_s_range : perm.

(** Split conjunctions and existentials of the context. *)
Ltac destr_all :=
  repeat match goal with
  | H : _ ∧ _ |- _ => destruct H
  | H : ∃ _, _ |- _ => destruct H
  | H : Some _ = Some _ |- _ => injection H as H
  | H : Ok _ = Ok _ |- _ => injection H as H
  | H : (_, _) = (_, _) |- _ => injection H as H
  end; simplify_eq.

(** Run the first statement of a sequence with an equation for its outcome. *)
Tactic Notation "hrun" uconstr(E) := rewrite (bind_ok _ _ _ _ _ E).
