(* ===== verification/BubbleSort.v ===== *)
(** * Bubble sort

    What the sorting loops of prov_stack.c compute: as many passes over the sequence as it has elements, each of which
    carries the largest element it meets to the end. *)

From Stdlib Require Import ZArith Lia.
From stdpp Require Import base numbers list sets sorting.
From S2P Require Import Prelude.

Module BubbleSort.

(** One pass carries the larger of two neighbours along. *)
Fixpoint carry {A} (swap : A → A → bool) (x : A) (r : list A) : list A :=
  match r with
  | [] => [x]
  | y :: r => if swap x y then y :: carry swap x r else x :: carry swap y r
  end.

Definition bubble_pass {A} (swap : A → A → bool) (xs : list A) : list A :=
  match xs with [] => [] | x :: r => carry swap x r end.

(** The sorts of prov_stack.c. *)
Definition bubble_sort {A} (swap : A → A → bool) (xs : list A) : list A :=
  Nat.iter (length xs) (bubble_pass swap) xs.

Section bubble.
Context {A : Type} (swap : A → A → bool).

Lemma carry_perm x r : carry swap x r ≡ₚ x :: r.
Proof.
  revert x. induction r as [|y r IH]; intros x; simpl; [done|].
  destruct (swap x y); rewrite IH; [apply Permutation_swap|done].
Qed.

Lemma bubble_pass_perm xs : bubble_pass swap xs ≡ₚ xs.
Proof. destruct xs; [done|apply carry_perm]. Qed.

Lemma carry_ne x r : carry swap x r ≠ [].
Proof. destruct r as [|y r]; simpl; [done|]. by destruct (swap x y). Qed.

Lemma carry_app x r vs :
  ∃ us m, carry swap x r = us ++ [m] ∧ carry swap x (r ++ vs) = us ++ carry swap m vs.
Proof.
  revert x. induction r as [|y r IH]; intros x; simpl; [by exists [], x|].
  destruct (swap x y); [destruct (IH x) as (us & m & -> & ->)|destruct (IH y) as (us & m & -> & ->)].
  - by exists (y :: us), m.
  - by exists (x :: us), m.
Qed.

(** [x] and [y] are in order when the sort would not swap them; the test must
    be a strict order on ranks (asymmetric, its complement transitive). *)
Definition in_order (x y : A) : Prop := swap x y = false.
Context (swap_asym : ∀ x y, swap x y = true → in_order y x).
Context (order_trans : ∀ x y z, in_order x y → in_order y z → in_order x z).

Lemma carry_max x r us m :
  carry swap x r = us ++ [m] → (∀ u, u ∈ us → in_order u m) ∧ in_order x m ∨ us = [] ∧ x = m.
Proof using swap_asym order_trans.
  revert x us. induction r as [|y r IH]; intros x us; simpl.
  - destruct us as [|? [|]]; intros; simplify_eq/=; auto.
  - destruct (swap x y) eqn:E; destruct us as [|u us]; intros [= <- E'];
      try (by apply carry_ne in E'); left.
    + destruct (IH _ _ E') as [[Hu Hx]|[-> ->]].
      * split; [|done]. intros v [->|Hv]%elem_of_cons; [|auto].
        eapply order_trans; [by apply swap_asym|done].
      * split; [|]. { intros v ->%list_elem_of_singleton. by apply swap_asym. }
        unfold in_order. destruct (swap m m) eqn:Em; [|done]. by apply swap_asym in Em as Em'; unfold in_order in Em'; congruence.
    + destruct (IH _ _ E') as [[Hu Hx]|[-> ->]].
      * split; [|by eapply order_trans]. intros v [->|Hv]%elem_of_cons; [|auto]. by eapply order_trans.
      * split; [|done]. intros v ->%list_elem_of_singleton. done.
Qed.

Lemma carry_sorted m vs :
  (∀ v, v ∈ vs → in_order m v) → StronglySorted in_order vs → carry swap m vs = m :: vs.
Proof.
  revert m. induction vs as [|v vs IH]; intros m Hm Hs; [done|]. simpl.
  inversion Hs as [|? ? Hs' Hv]; subst. rewrite (Hm v) by left. f_equal.
  apply IH; [|done]. intros. by eapply Forall_forall in Hv.
Qed.

(** The last [length vs] elements are in their final place. *)
Definition settled (us vs : list A) : Prop :=
  StronglySorted in_order vs ∧ ∀ u v, u ∈ us → v ∈ vs → in_order u v.

Lemma bubble_pass_settles us vs :
  settled us vs → us ≠ [] →
  ∃ us' m, bubble_pass swap (us ++ vs) = us' ++ m :: vs ∧ length us = S (length us') ∧
    settled us' (m :: vs).
Proof using swap_asym order_trans.
  intros [Hs Huv] Hne. destruct us as [|x r]; [done|]. cbn [bubble_pass app].
  destruct (carry_app x r vs) as (us' & m & E & ->).
  pose proof (carry_perm x r) as Hp. rewrite E in Hp.
  assert (∀ u, u ∈ us' ++ [m] ↔ u ∈ x :: r) as Hin by (intros u; by rewrite Hp).
  rewrite carry_sorted; [|intros v ?; apply Huv; [apply Hin; set_solver|done]|done].
  exists us', m. split; [done|]. split.
  { apply Permutation_length in Hp. rewrite length_app in Hp. simpl in *. lia. }
  split.
  - constructor; [done|]. apply Forall_forall. intros v ?. apply Huv; [apply Hin; set_solver|done].
  - intros u v Hu [->|Hv]%elem_of_cons.
    + destruct (carry_max _ _ _ _ E) as [[Hm _]|[-> _]]; [auto|set_solver].
    + apply Huv; [apply Hin; set_solver|done].
Qed.

Lemma bubble_pass_sorted vs : StronglySorted in_order vs → bubble_pass swap vs = vs.
Proof.
  intros Hs. destruct vs as [|v vs]; [done|]. inversion Hs as [|? ? Hs' Hv]; subst.
  apply carry_sorted; [|done]. intros. by eapply Forall_forall in Hv.
Qed.

(** As many passes as there are unsettled elements sort the sequence. *)
Lemma bubble_passes_sort n us vs :
  settled us vs → length us ≤ n → StronglySorted in_order (Nat.iter n (bubble_pass swap) (us ++ vs)).
Proof using swap_asym order_trans.
  revert us vs. induction n as [|n IH]; intros us vs Hs Hn.
  - destruct us; [|simpl in Hn; lia]. apply Hs.
  - rewrite Nat.iter_succ_r. destruct (decide (us = [])) as [->|Hne].
    + cbn [app]. rewrite bubble_pass_sorted by apply Hs. apply (IH [] vs); [done|simpl; lia].
    + destruct (bubble_pass_settles _ _ Hs Hne) as (us' & m & -> & ? & Hs').
      apply IH; [done|lia].
Qed.

Lemma bubble_sort_sorted xs : StronglySorted in_order (bubble_sort swap xs).
Proof using swap_asym order_trans.
  unfold bubble_sort. rewrite <- (app_nil_r xs) at 2. apply bubble_passes_sort; [|done]. split; [constructor|set_solver].
Qed.

Lemma bubble_passes_perm n xs : Nat.iter n (bubble_pass swap) xs ≡ₚ xs.
Proof. induction n as [|n IH]; simpl; [done|]. by rewrite bubble_pass_perm. Qed.

Lemma bubble_sort_perm xs : bubble_sort swap xs ≡ₚ xs.
Proof. apply bubble_passes_perm. Qed.

End bubble.

End BubbleSort.
