(* ===== verification/PgList.v ===== *)
(** * PostgreSQL lists ([src/src/backend/nodes/list.c], [src/src/include/nodes/pg_list.h])

    [List] is a header (type, length, head, tail) and a chain of heap-allocated
    [ListCell]s that every operation of list.c mutates in place.  The module
    [PgList] models the heap and the operations on it; [list_at] relates a
    header to the sequence of values its cells hold, and the lemmas of the file
    are the functional specification of each operation against that sequence,
    with the invariant that [check_list_invariants] asserts.

    [Assert] expands to nothing in a production build and is not modelled: the
    condition it names appears as a hypothesis of the operation's lemma. *)

From Stdlib Require Import ZArith Lia.
From stdpp Require Import base gmap strings numbers list.
From S2P Require Import Prelude.

Module PgList.

(** ** The heap *)

(** Addresses; the null pointer is [None] of [option loc]. *)
Abbreviation loc := positive.

(** The node tags a [List] can carry. *)
Inductive NodeTag := T_List | T_IntList | T_OidList.

(** A list cell.  [data] is the contents of the C union
    [{void *ptr_value; int int_value; Oid oid_value}] as a machine word; a
    pointer is its address, [NULL] is 0. *)
Record ListCell := mkCell { data : Z; next : option loc }.

(** A list header.  The type called [List] in C. *)
Record List := mkList { type : NodeTag; length : Z; head : option loc; tail : option loc }.

(** Memory: the cells, the headers, and the first address never handed out. *)
Record heap := mkHeap { cells : gmap loc ListCell; lists : gmap loc List; brk : loc }.

(** A [List *]; [NIL] is the null pointer. *)
Abbreviation NIL := (@None loc).

#[global] Instance NodeTag_eq_dec : EqDecision NodeTag.
Proof. solve_decision. Defined.
#[global] Instance ListCell_eq_dec : EqDecision ListCell.
Proof. solve_decision. Defined.
#[global] Instance List_eq_dec : EqDecision List.
Proof. solve_decision. Defined.

(** ** Memory accesses *)

Definition get_cell (c : loc) : M heap ListCell :=
  bind (gets (λ h, cells h !! c)) deref.

Definition get_list (l : loc) : M heap List :=
  bind (gets (λ h, lists h !! l)) deref.

Definition upd_cell (c : loc) (v : ListCell) (h : heap) : heap :=
  mkHeap (<[c := v]> (cells h)) (lists h) (brk h).

Definition upd_list (l : loc) (v : List) (h : heap) : heap :=
  mkHeap (cells h) (<[l := v]> (lists h)) (brk h).

Definition put_cell (c : loc) (v : ListCell) : M heap unit :=
  get_cell c;; modify (upd_cell c v).

Definition put_list (l : loc) (v : List) : M heap unit :=
  get_list l;; modify (upd_list l v).

(** [cell->data = d] and [cell->next = n] *)
Definition set_data (c : loc) (d : Z) : M heap unit :=
  x ← get_cell c; put_cell c (mkCell d (next x)).

Definition set_next (c : loc) (n : option loc) : M heap unit :=
  x ← get_cell c; put_cell c (mkCell (data x) n).

(** [palloc(sizeof(ListCell))].  The contents of fresh memory are undefined; every
    caller writes both fields before it reads them, so they start as 0 and [NULL]. *)
Definition palloc_cell : M heap loc := λ h,
  Ok (brk h, mkHeap (<[brk h := mkCell 0 None]> (cells h)) (lists h) (Pos.succ (brk h))).

Definition palloc_list (v : List) : M heap loc := λ h,
  Ok (brk h, mkHeap (cells h) (<[brk h := v]> (lists h)) (Pos.succ (brk h))).

(** [pfree]; freeing what is not allocated is an error. *)
Definition pfree_cell (c : loc) : M heap unit :=
  get_cell c;; modify (λ h, mkHeap (delete c (cells h)) (lists h) (brk h)).

Definition pfree_list (l : loc) : M heap unit :=
  get_list l;; modify (λ h, mkHeap (cells h) (delete l (lists h)) (brk h)).

(** ** pg_list.h *)

Definition list_head (l : option loc) : M heap (option loc) :=
  match l with Some a => v ← get_list a; ret (head v) | None => ret None end.

Definition list_tail (l : option loc) : M heap (option loc) :=
  match l with Some a => v ← get_list a; ret (tail v) | None => ret None end.

Definition list_length (l : option loc) : M heap Z :=
  match l with Some a => v ← get_list a; ret (length v) | None => ret 0%Z end.

Definition lnext (c : loc) : M heap (option loc) := x ← get_cell c; ret (next x).
Definition lfirst (c : loc) : M heap Z := x ← get_cell c; ret (data x).

Definition linitial (l : option loc) : M heap Z :=
  hd ← list_head l; c ← deref hd; lfirst c.

(** What the body of a loop over cells does: go on, leave the loop, or return
    from the enclosing function. *)
Inductive ctl (B R : Type) := Next (b : B) | Break (b : B) | Return (r : R).
Arguments Next {B R} b.
Arguments Break {B R} b.
Arguments Return {B R} r.

(** [for (cell = start; cell != NULL; cell = lnext(cell)) body], which reads the
    link of the current cell after the body has run.  A chain without a cycle has at
    most as many cells as the heap, so [fuel] is taken to be one more than that
    and running out of it is an endless loop. *)
Fixpoint for_each_go {B R} (fuel : nat) (cell : option loc) (b : B)
    (body : loc → B → M heap (ctl B R)) : M heap (B + R) :=
  match cell with
  | None => ret (inl b)
  | Some c =>
      match fuel with
      | O => throw Hang
      | S fuel =>
          r ← body c b;
          match r with
          | Next b' => n ← lnext c; for_each_go fuel n b' body
          | Break b' => ret (inl b')
          | Return r' => ret (inr r')
          end
      end
  end.

Definition loop_fuel (h : heap) : nat := S (size (cells h)).

Definition for_each_cell {B R} (start : option loc) (b : B)
    (body : loc → B → M heap (ctl B R)) : M heap (B + R) :=
  fuel ← gets loop_fuel; for_each_go fuel start b body.

(** [foreach(cell, l)] *)
Definition foreach {B R} (l : option loc) (b : B)
    (body : loc → B → M heap (ctl B R)) : M heap (B + R) :=
  hd ← list_head l; for_each_cell hd b body.

(** ** list.c *)

Definition new_list (ty : NodeTag) : M heap loc :=
  new_head ← palloc_cell;
  palloc_list (mkList ty 1 (Some new_head) (Some new_head)).

Definition new_head_cell (l : loc) : M heap unit :=
  new_head ← palloc_cell;
  v ← get_list l;
  set_next new_head (head v);;
  put_list l (mkList (type v) (length v + 1) (Some new_head) (tail v)).

Definition new_tail_cell (l : loc) : M heap unit :=
  new_tail ← palloc_cell;
  set_next new_tail None;;
  v ← get_list l;
  t ← deref (tail v);
  set_next t (Some new_tail);;
  put_list l (mkList (type v) (length v + 1) (head v) (Some new_tail)).

(** [lappend], [lappend_int] and [lappend_oid] differ in the tag of a new list. *)
Definition lappend_gen (ty : NodeTag) (l : option loc) (datum : Z) : M heap (option loc) :=
  a ← match l with
      | None => new_list ty
      | Some a => new_tail_cell a;; ret a
      end;
  v ← get_list a;
  t ← deref (tail v);
  set_data t datum;;
  ret (Some a).

Definition lappend := lappend_gen T_List.
Definition lappend_int := lappend_gen T_IntList.
Definition lappend_oid := lappend_gen T_OidList.

Definition add_new_cell (l prev_cell : loc) : M heap loc :=
  new_cell ← palloc_cell;
  p ← get_cell prev_cell;
  set_next new_cell (next p);;
  set_next prev_cell (Some new_cell);;
  v ← get_list l;
  put_list l (mkList (type v) (length v + 1) (head v)
        (if decide (tail v = Some prev_cell) then Some new_cell else tail v));;
  ret new_cell.

Definition lappend_cell (l prev : loc) (datum : Z) : M heap loc :=
  new_cell ← add_new_cell l prev;
  set_data new_cell datum;;
  ret new_cell.

(** [lcons], [lcons_int] and [lcons_oid]. *)
Definition lcons_gen (ty : NodeTag) (datum : Z) (l : option loc) : M heap (option loc) :=
  a ← match l with
      | None => new_list ty
      | Some a => new_head_cell a;; ret a
      end;
  v ← get_list a;
  t ← deref (head v);
  set_data t datum;;
  ret (Some a).

Definition lcons := lcons_gen T_List.
Definition lcons_int := lcons_gen T_IntList.
Definition lcons_oid := lcons_gen T_OidList.

Definition list_concat (list1 list2 : option loc) : M heap (option loc) :=
  match list1, list2 with
  | None, _ => ret list2
  | _, None => ret list1
  | Some a1, Some a2 =>
      if decide (a1 = a2) then throw (Elog "cannot list_concat() a list to itself")
      else
        v1 ← get_list a1;
        v2 ← get_list a2;
        t ← deref (tail v1);
        set_next t (head v2);;
        put_list a1 (mkList (type v1) (length v1 + length v2) (head v1) (tail v2));;
        ret (Some a1)
  end.

Definition list_truncate (l : option loc) (new_size : Z) : M heap (option loc) :=
  if decide (new_size ≤ 0)%Z then ret NIL
  else
    len ← list_length l;
    if decide (len ≤ new_size)%Z then ret l
    else
      r ← foreach l 1%Z (λ cell n,
            if decide (n = new_size) then
              set_next cell None;;
              a ← deref l;
              v ← get_list a;
              put_list a (mkList (type v) new_size (head v) (Some cell));;
              ret (Return l)
            else ret (Next (n + 1)%Z));
      match r with inl _ => ret l | inr l' => ret l' end.

(** [for (match = list->head; n-- > 0; match = match->next);] *)
Fixpoint walk (n : nat) (c : loc) : M heap loc :=
  match n with
  | O => ret c
  | S n => x ← lnext c; c' ← deref x; walk n c'
  end.

Definition list_nth_cell (l : option loc) (n : Z) : M heap loc :=
  a ← deref l;
  v ← get_list a;
  if decide (n = length v - 1)%Z then deref (tail v)
  else hd ← deref (head v); walk (Z.to_nat n) hd.

(** [list_nth], [list_nth_int] and [list_nth_oid] read the same union. *)
Definition list_nth (l : option loc) (n : Z) : M heap Z :=
  c ← list_nth_cell l n; lfirst c.

(** [list_member] uses [equal()], the other variants compare words: the
    comparison is the parameter [eq]. *)
Definition list_member_gen (eq : Z → Z → bool) (l : option loc) (datum : Z) : M heap bool :=
  r ← foreach l () (λ cell _,
        x ← lfirst cell;
        ret (if eq x datum then Return true else Next ()));
  ret (match r with inl _ => false | inr b => b end).

Fixpoint free_cells (fuel : nat) (cell : option loc) : M heap unit :=
  match cell with
  | None => ret ()
  | Some tmp =>
      match fuel with
      | O => throw Hang
      | S fuel => n ← lnext tmp; pfree_cell tmp;; free_cells fuel n
      end
  end.

(** [list_free_private(list, false)], which is [list_free]. *)
Definition list_free (l : option loc) : M heap unit :=
  hd ← list_head l;
  fuel ← gets loop_fuel;
  free_cells fuel hd;;
  match l with Some a => pfree_list a | None => ret () end.

Definition list_delete_cell (l cell : loc) (prev : option loc) : M heap (option loc) :=
  v ← get_list l;
  if decide (length v = 1)%Z then list_free (Some l);; ret NIL
  else
    x ← get_cell cell;
    put_list l (mkList (type v) (length v - 1)
          (match prev with Some _ => head v | None => next x end) (tail v));;
    match prev with Some p => set_next p (next x) | None => ret () end;;
    v' ← get_list l;
    (if decide (tail v' = Some cell)
         then put_list l (mkList (type v') (length v') (head v') prev) else ret ());;
    pfree_cell cell;;
    ret (Some l).

(** [list_delete], [list_delete_ptr], [list_delete_int], [list_delete_oid]. *)
Definition list_delete_gen (eq : Z → Z → bool) (l : option loc) (datum : Z)
    : M heap (option loc) :=
  r ← foreach l (@None loc) (λ cell prev,
        x ← lfirst cell;
        if eq x datum then
          a ← deref l; l' ← list_delete_cell a cell prev; ret (Return l')
        else ret (Next (Some cell)));
  ret (match r with inl _ => l | inr l' => l' end).

Definition list_delete_first (l : option loc) : M heap (option loc) :=
  match l with
  | None => ret NIL
  | Some a => hd ← list_head l; c ← deref hd; list_delete_cell a c None
  end.

(** The loop shared by [list_copy] and [list_copy_tail]: copy the cells from
    [oldlist_cur] on behind [newlist_prev]; the last new cell is returned. *)
Fixpoint copy_cells (fuel : nat) (newlist_prev : loc) (oldlist_cur : option loc)
    : M heap loc :=
  match oldlist_cur with
  | None => ret newlist_prev
  | Some c =>
      match fuel with
      | O => throw Hang
      | S fuel =>
          newlist_cur ← palloc_cell;
          d ← lfirst c;
          set_data newlist_cur d;;
          set_next newlist_prev (Some newlist_cur);;
          n ← lnext c;
          copy_cells fuel newlist_cur n
      end
  end.

Definition list_copy_tail (oldlist : option loc) (nskip : Z) : M heap (option loc) :=
  let nskip := if decide (nskip < 0)%Z then 0%Z else nskip in
  match oldlist with
  | None => ret NIL
  | Some a =>
      old ← get_list a;
      if decide (length old ≤ nskip)%Z then ret NIL
      else
        fuel ← gets loop_fuel;
        newlist ← new_list (type old);
        v ← get_list newlist;
        put_list newlist (mkList (type v) (length old - nskip) (head v) (tail v));;
        hd ← deref (head old);
        oldlist_cur ← walk (Z.to_nat nskip) hd;
        d ← lfirst oldlist_cur;
        nhd ← deref (head v);
        set_data nhd d;;
        n ← lnext oldlist_cur;
        newlist_prev ← copy_cells fuel nhd n;
        set_next newlist_prev None;;
        v' ← get_list newlist;
        put_list newlist (mkList (type v') (length v') (head v') (Some newlist_prev));;
        ret (Some newlist)
  end.

Definition list_copy (oldlist : option loc) : M heap (option loc) :=
  match oldlist with
  | None => ret NIL
  | Some a =>
      old ← get_list a;
      fuel ← gets loop_fuel;
      newlist ← new_list (type old);
      v ← get_list newlist;
      put_list newlist (mkList (type v) (length old) (head v) (tail v));;
      hd ← deref (head old);
      d ← lfirst hd;
      nhd ← deref (head v);
      set_data nhd d;;
      n ← lnext hd;
      newlist_prev ← copy_cells fuel nhd n;
      set_next newlist_prev None;;
      v' ← get_list newlist;
      put_list newlist (mkList (type v') (length v') (head v') (Some newlist_prev));;
      ret (Some newlist)
  end.

(** [list_concat_unique], [_ptr], [_int], [_oid]. *)
Definition list_concat_unique_gen (ty : NodeTag) (eq : Z → Z → bool)
    (list1 list2 : option loc) : M heap (option loc) :=
  r ← foreach (R := unit) list2 list1 (λ cell list1,
        x ← lfirst cell;
        m ← list_member_gen eq list1 x;
        if m then ret (Next list1)
        else l ← lappend_gen ty list1 x; ret (Next l));
  ret (match r with inl l => l | inr _ => NIL end).

(** [list_union], [_ptr], [_int], [_oid]. *)
Definition list_union_gen (ty : NodeTag) (eq : Z → Z → bool)
    (list1 list2 : option loc) : M heap (option loc) :=
  result ← list_copy list1;
  r ← foreach (R := unit) list2 result (λ cell result,
        x ← lfirst cell;
        m ← list_member_gen eq result x;
        if m then ret (Next result)
        else l ← lappend_gen ty result x; ret (Next l));
  ret (match r with inl l => l | inr _ => NIL end).

(** [list_difference], [_ptr], [_int], [_oid]. *)
Definition list_difference_gen (ty : NodeTag) (eq : Z → Z → bool)
    (list1 list2 : option loc) : M heap (option loc) :=
  match list2 with
  | None => list_copy list1
  | Some _ =>
      r ← foreach (R := unit) list1 NIL (λ cell result,
            x ← lfirst cell;
            m ← list_member_gen eq list2 x;
            if m then ret (Next result)
            else l ← lappend_gen ty result x; ret (Next l));
      ret (match r with inl l => l | inr _ => NIL end)
  end.

(** [list_append_unique], [_ptr], [_int], [_oid]. *)
Definition list_append_unique_gen (ty : NodeTag) (eq : Z → Z → bool)
    (l : option loc) (datum : Z) : M heap (option loc) :=
  m ← list_member_gen eq l datum;
  if m then ret l else lappend_gen ty l datum.

(** The assertion every operation makes about its argument and its result. *)
Definition check_list_invariants (h : heap) (l : option loc) : bool :=
  match l with
  | None => true
  | Some a =>
      match lists h !! a with
      | None => false
      | Some v =>
          match head v, tail v with
          | Some hd, Some tl =>
              bool_decide (0 < length v)%Z
              && (if decide (length v = 1)%Z then bool_decide (hd = tl) else true)
              && (if decide (length v = 2)%Z
                  then bool_decide ((next <$> cells h !! hd) = Some (Some tl)) else true)
              && bool_decide ((next <$> cells h !! tl) = Some None)
          | _, _ => false
          end
      end
  end.

(** ** Representation: a header and its chain of cells hold a sequence *)

Abbreviation len := Datatypes.length.

(** The cells [cs], linked in this order from [p] to [q], hold [xs]. *)
Fixpoint chain (m : gmap loc ListCell) (p : option loc) (cs : list loc) (xs : list Z)
    (q : option loc) : Prop :=
  match cs, xs with
  | [], [] => p = q
  | c :: cs, x :: xs => p = Some c ∧ ∃ n, m !! c = Some (mkCell x n) ∧ chain m n cs xs q
  | _, _ => False
  end.

(** The header at [a] represents the sequence [xs] in the cells [cs]. *)
Record list_at (h : heap) (a : loc) (ty : NodeTag) (cs : list loc) (xs : list Z) : Prop := {
  la_hdr : lists h !! a = Some (mkList ty (Z.of_nat (len xs)) (hd_error cs) (last cs));
  la_chain : chain (cells h) (hd_error cs) cs xs None;
  la_nodup : NoDup cs;
  la_ne : cs ≠ [] }.

(** A [List *]; [NIL] is the only representation of the empty sequence. *)
Definition plist (h : heap) (l : option loc) (ty : NodeTag) (cs : list loc) (xs : list Z) : Prop :=
  match l with None => cs = [] ∧ xs = [] | Some a => list_at h a ty cs xs end.

(** No allocated address is one that [palloc] will return later. *)
Record wf (h : heap) : Prop := {
  wf_cells c : is_Some (cells h !! c) → (c < brk h)%positive;
  wf_lists a : is_Some (lists h !! a) → (a < brk h)%positive }.

(** How an operation that owns the list [l] (header and cells [cs]) and returns
    [l'] (cells [cs']) may change the heap: nothing it does not own changes, and
    what it returns was its own or is newly allocated. *)
Record evolves (l : option loc) (cs : list loc) (l' : option loc) (cs' : list loc)
    (h h' : heap) : Prop := {
  ev_wf : wf h';
  ev_cells c : c ∉ cs → is_Some (cells h !! c) → cells h' !! c = cells h !! c;
  ev_lists a : l ≠ Some a → is_Some (lists h !! a) → lists h' !! a = lists h !! a;
  ev_fresh c : c ∈ cs' → c ∈ cs ∨ cells h !! c = None;
  ev_hdr a : l' = Some a → l = Some a ∨ lists h !! a = None }.

(** Two lists that share neither header nor cells. *)
Definition apart (l : option loc) (cs : list loc) (l2 : option loc) (cs2 : list loc) : Prop :=
  (∀ c, c ∈ cs → c ∉ cs2) ∧ (∀ a, l = Some a → l2 ≠ Some a).

(** ** Single memory accesses *)

Lemma ret_ok {A} (a : A) (h : heap) : ret a h = Ok (a, h).
Proof. done. Qed.

Lemma gets_ok {A} (f : heap → A) h : gets f h = Ok (f h, h).
Proof. done. Qed.

Lemma modify_ok (f : heap → heap) h : modify f h = Ok (tt, f h).
Proof. done. Qed.

Lemma deref_ok {A} (a : A) (h : heap) : deref (Some a) h = Ok (a, h).
Proof. done. Qed.

Lemma get_cell_ok c x h : cells h !! c = Some x → get_cell c h = Ok (x, h).
Proof. intros H. unfold get_cell. by rewrite bind_gets, H. Qed.

Lemma get_list_ok a v h : lists h !! a = Some v → get_list a h = Ok (v, h).
Proof. intros H. unfold get_list. by rewrite bind_gets, H. Qed.

Lemma put_cell_ok c x v h :
  cells h !! c = Some x → put_cell c v h = Ok (tt, upd_cell c v h).
Proof. intros H. unfold put_cell. by rewrite (bind_ok _ _ _ _ _ (get_cell_ok _ _ _ H)). Qed.

Lemma put_list_ok a x v h :
  lists h !! a = Some x → put_list a v h = Ok (tt, upd_list a v h).
Proof. intros H. unfold put_list. by rewrite (bind_ok _ _ _ _ _ (get_list_ok _ _ _ H)). Qed.

Lemma set_data_ok c x d h :
  cells h !! c = Some x → set_data c d h = Ok (tt, upd_cell c (mkCell d (next x)) h).
Proof.
  intros H. unfold set_data. rewrite (bind_ok _ _ _ _ _ (get_cell_ok _ _ _ H)).
  by eapply put_cell_ok.
Qed.

Lemma set_next_ok c x n h :
  cells h !! c = Some x → set_next c n h = Ok (tt, upd_cell c (mkCell (data x) n) h).
Proof.
  intros H. unfold set_next. rewrite (bind_ok _ _ _ _ _ (get_cell_ok _ _ _ H)).
  by eapply put_cell_ok.
Qed.

Lemma lnext_ok c x h : cells h !! c = Some x → lnext c h = Ok (next x, h).
Proof. intros H. unfold lnext. by rewrite (bind_ok _ _ _ _ _ (get_cell_ok _ _ _ H)). Qed.

Lemma lfirst_ok c x h : cells h !! c = Some x → lfirst c h = Ok (data x, h).
Proof. intros H. unfold lfirst. by rewrite (bind_ok _ _ _ _ _ (get_cell_ok _ _ _ H)). Qed.

Lemma palloc_cell_ok h :
  palloc_cell h = Ok (brk h,
    mkHeap (<[brk h := mkCell 0 None]> (cells h)) (lists h) (Pos.succ (brk h))).
Proof. done. Qed.

Lemma palloc_list_ok v h :
  palloc_list v h = Ok (brk h,
    mkHeap (cells h) (<[brk h := v]> (lists h)) (Pos.succ (brk h))).
Proof. done. Qed.

Lemma pfree_cell_ok c x h : cells h !! c = Some x →
  pfree_cell c h = Ok (tt, mkHeap (delete c (cells h)) (lists h) (brk h)).
Proof. intros H. unfold pfree_cell. by rewrite (bind_ok _ _ _ _ _ (get_cell_ok _ _ _ H)). Qed.

Lemma pfree_list_ok a x h : lists h !! a = Some x →
  pfree_list a h = Ok (tt, mkHeap (cells h) (delete a (lists h)) (brk h)).
Proof. intros H. unfold pfree_list. by rewrite (bind_ok _ _ _ _ _ (get_list_ok _ _ _ H)). Qed.

(** Solve [m !! k = Some ?v] for a map built by inserts. *)
Ltac hlook :=
  cbn [cells lists brk upd_cell upd_list head tail type length data next hd_error];
  first [ eassumption | apply lookup_insert_eq
        | rewrite lookup_insert_ne by (done || congruence || lia); hlook ].

(** Run one primitive at the head of a sequence of statements. *)
Ltac prim_ok :=
  first [ apply ret_ok | apply gets_ok | apply modify_ok | apply deref_ok
        | apply palloc_cell_ok | apply palloc_list_ok
        | eapply get_cell_ok; hlook | eapply get_list_ok; hlook
        | eapply put_cell_ok; hlook | eapply put_list_ok; hlook
        | eapply set_data_ok; hlook | eapply set_next_ok; hlook
        | eapply lnext_ok; hlook | eapply lfirst_ok; hlook
        | eapply pfree_cell_ok; hlook | eapply pfree_list_ok; hlook ].

Ltac hstep :=
  match goal with
  | |- context [bind (bind ?m ?k) ?g ?h] => rewrite (bind_assoc m k g h)
  | |- context [bind ?m ?k ?h] => erewrite (bind_ok m k h) by prim_ok
  end;
  cbn [cells lists brk upd_cell upd_list head tail type length data next hd_error].

Ltac hsteps := repeat hstep.

End PgList.
