(* ===== verification/PgListFacts.v ===== *)
(** * Functional specification of the list operations

    For every operation of [PgList]: it returns (no bad access, no endless
    loop) on a heap in which its argument represents a sequence, the result
    represents the expected sequence, and nothing but the list itself and newly
    allocated memory changes ([evolves]). *)

From Stdlib Require Import ZArith Lia.
From stdpp Require Import base gmap strings numbers list.
From S2P Require Import Prelude PgList.
Import PgList.

Module PgListFacts.

(** ** Chains of cells *)

Section chains.
Implicit Types (m : gmap loc ListCell) (cs : list loc) (xs : list Z) (p q : option loc).

Lemma chain_len m p cs xs q : chain m p cs xs q → len cs = len xs.
Proof. revert p xs. induction cs as [|c cs IH]; intros p [|x xs]; naive_solver. Qed.

Lemma chain_app_inv m p cs1 cs2 xs q :
  chain m p (cs1 ++ cs2) xs q →
  ∃ xs1 xs2 r, xs = xs1 ++ xs2 ∧ len xs1 = len cs1 ∧
    chain m p cs1 xs1 r ∧ chain m r cs2 xs2 q.
Proof.
  revert p xs. induction cs1 as [|c cs1 IH]; intros p xs H; simpl in *.
  - by exists [], xs, p.
  - destruct xs as [|x xs]; [done|]. destruct H as [-> (n & Hc & H)].
    destruct (IH _ _ H) as (xs1 & xs2 & r & -> & ? & ? & ?).
    exists (x :: xs1), xs2, r. naive_solver.
Qed.

Lemma chain_join m p cs1 cs2 xs1 xs2 q r :
  chain m p cs1 xs1 r → chain m r cs2 xs2 q → chain m p (cs1 ++ cs2) (xs1 ++ xs2) q.
Proof.
  revert p xs1. induction cs1 as [|c cs1 IH]; intros p [|x xs1] H1 H2; simpl in *; try done.
  - by subst.
  - destruct H1 as [-> (n & ? & ?)]. eauto.
Qed.

Lemma chain_head m p cs xs q : chain m p cs xs q → cs ≠ [] → p = hd_error cs.
Proof. destruct cs, xs; naive_solver. Qed.

Lemma chain_alloc m p cs xs q c : chain m p cs xs q → c ∈ cs → is_Some (m !! c).
Proof.
  revert p xs. induction cs as [|c' cs IH]; intros p [|x xs] H Hc; simpl in *; try done.
  - by apply elem_of_nil in Hc.
  - destruct H as [_ (n & ? & ?)]. apply elem_of_cons in Hc as [->|Hc]; eauto.
Qed.

(** A chain only depends on its own cells. *)
Lemma chain_ext m m' p cs xs q :
  (∀ c, c ∈ cs → m' !! c = m !! c) → chain m p cs xs q → chain m' p cs xs q.
Proof.
  revert p xs. induction cs as [|c cs IH]; intros p [|x xs] Hm H; simpl in *; try done.
  destruct H as [-> (n & ? & ?)]. split; [done|]. exists n. split.
  - rewrite Hm by set_solver. done.
  - apply IH; [|done]. set_solver.
Qed.

Lemma chain_insert m p cs xs q c v :
  c ∉ cs → chain m p cs xs q → chain (<[c:=v]> m) p cs xs q.
Proof. intros Hc. apply chain_ext. intros c' ?. rewrite lookup_insert_ne; set_solver. Qed.

Lemma chain_delete m p cs xs q c :
  c ∉ cs → chain m p cs xs q → chain (delete c m) p cs xs q.
Proof. intros Hc. apply chain_ext. intros c' ?. rewrite lookup_delete_ne; set_solver. Qed.

(** The cell at position [i]: its contents and its link. *)
Lemma chain_lookup m p cs xs q i c :
  chain m p cs xs q → cs !! i = Some c →
  ∃ x, xs !! i = Some x ∧
    m !! c = Some (mkCell x (match cs !! S i with Some c' => Some c' | None => q end)).
Proof.
  revert p xs i. induction cs as [|c' cs IH]; intros p [|x xs] [|i] H Hi; simpl in *; try done.
  - destruct H as [-> (n & Hn & H)]. simplify_eq. exists x. split; [done|].
    destruct cs as [|c2 cs], xs as [|x2 xs]; naive_solver.
  - destruct H as [_ (n & Hn & H)]. eauto.
Qed.

(** Redirecting the last link of a segment. *)
Lemma chain_relink m p cs xs q t :
  chain m p cs xs q → NoDup cs → last cs = Some t →
  ∃ y, m !! t = Some (mkCell y q) ∧ ∀ q', chain (<[t := mkCell y q']> m) p cs xs q'.
Proof.
  intros Hc Hnd Ht. apply last_Some in Ht as [cs0 ->].
  apply NoDup_app in Hnd as (_ & Hd & _).
  apply chain_app_inv in Hc as (xs0 & xs1 & r & -> & Hl & Hc1 & Hc2).
  destruct xs1 as [|y [|]]; [naive_solver| |naive_solver].
  destruct Hc2 as [-> (n & Hn & ->)]. exists y. split; [done|]. intros q'.
  eapply chain_join.
  - apply chain_insert; [|done]. intros ?. eapply Hd; [done|left].
  - cbn. split; [done|]. eexists. by rewrite lookup_insert_eq.
Qed.

Lemma chain_size m p cs xs q : chain m p cs xs q → NoDup cs → len cs ≤ size m.
Proof.
  intros H Hnd. rewrite <- size_dom, <- (size_list_to_set (C := gset loc)) by done.
  apply subseteq_size. intros c. rewrite elem_of_list_to_set, elem_of_dom.
  by eapply chain_alloc.
Qed.

End chains.

(** ** Lists *)

Section lists.
Implicit Types (h : heap) (a : loc) (l : option loc) (ty : NodeTag) (cs : list loc) (xs : list Z).

Lemma list_at_len h a ty cs xs : list_at h a ty cs xs → len cs = len xs.
Proof. intros [_ H _ _]. by eapply chain_len. Qed.

Lemma list_at_pos h a ty cs xs : list_at h a ty cs xs → 0 < len xs.
Proof. intros H. rewrite <- (list_at_len _ _ _ _ _ H). destruct H, cs; simpl; [done|lia]. Qed.

Lemma list_at_fuel h a ty cs xs : list_at h a ty cs xs → len cs < loop_fuel h.
Proof. intros [_ H Hnd _]. unfold loop_fuel. pose proof (chain_size _ _ _ _ _ H Hnd). lia. Qed.

Lemma plist_len h l ty cs xs : plist h l ty cs xs → len cs = len xs.
Proof. destruct l; simpl; [apply list_at_len|naive_solver]. Qed.

Lemma plist_nodup h l ty cs xs : plist h l ty cs xs → NoDup cs.
Proof. destruct l; simpl; [by intros []|intros [-> _]; constructor]. Qed.

Lemma plist_nil h l ty cs : plist h l ty cs [] → l = None ∧ cs = [].
Proof.
  destruct l as [a|]; simpl; [|naive_solver]. intros H.
  pose proof (list_at_pos _ _ _ _ _ H). simpl in *. lia.
Qed.

Lemma plist_cons h l ty cs x xs :
  plist h l ty cs (x :: xs) → ∃ a, l = Some a ∧ list_at h a ty cs (x :: xs).
Proof. destruct l; simpl; naive_solver. Qed.

Lemma plist_alloc h l ty cs xs c : plist h l ty cs xs → c ∈ cs → is_Some (cells h !! c).
Proof.
  destruct l as [a|]; simpl; [|intros [-> _]; set_solver].
  intros [_ H _ _]. by eapply chain_alloc.
Qed.

Lemma plist_chain h l ty cs xs : plist h l ty cs xs → chain (cells h) (hd_error cs) cs xs None.
Proof. destruct l as [a|]; simpl; [by intros []|by intros [-> ->]]. Qed.

Lemma plist_fuel h l ty cs xs : plist h l ty cs xs → len cs < loop_fuel h.
Proof.
  destruct l as [a|]; simpl; [apply list_at_fuel|]. intros [-> _]. unfold loop_fuel. simpl. lia.
Qed.

Lemma list_head_ok h l ty cs xs : plist h l ty cs xs → list_head l h = Ok (hd_error cs, h).
Proof.
  destruct l as [a|]; simpl.
  - intros [H _ _ _]. by hrun (get_list_ok _ _ _ H).
  - by intros [-> _].
Qed.

Lemma list_tail_ok h l ty cs xs : plist h l ty cs xs → list_tail l h = Ok (last cs, h).
Proof.
  destruct l as [a|]; simpl.
  - intros [H _ _ _]. by hrun (get_list_ok _ _ _ H).
  - by intros [-> _].
Qed.

Lemma list_length_ok h l ty cs xs :
  plist h l ty cs xs → list_length l h = Ok (Z.of_nat (len xs), h).
Proof.
  destruct l as [a|]; simpl.
  - intros [H _ _ _]. by hrun (get_list_ok _ _ _ H).
  - by intros [_ ->].
Qed.

(** The representation satisfies what the C code asserts of its lists. *)
Lemma plist_invariants h l ty cs xs :
  plist h l ty cs xs → check_list_invariants h l = true.
Proof.
  destruct l as [a|]; simpl; [|done]. intros H.
  pose proof (list_at_len _ _ _ _ _ H) as Hl. destruct H as [-> Hc Hnd Hne].
  destruct cs as [|c cs']; [done|]. cbn [hd_error head tail length].
  destruct (last (c :: cs')) as [t|] eqn:Ht; [|by apply last_None in Ht].
  apply last_Some in Ht as [cs0 Ht]. rewrite Ht in Hc, Hl.
  destruct (chain_lookup _ _ _ _ _ (len cs0) t Hc) as (x & Hx & Hm).
  { by rewrite lookup_app_r, Nat.sub_diag by lia. }
  rewrite lookup_ge_None_2 in Hm by (rewrite length_app; simpl; lia).
  rewrite length_app in Hl. simpl in Hl.
  apply andb_true_iff; split; [|rewrite Hm; by apply bool_decide_eq_true].
  apply andb_true_iff; split; [apply andb_true_iff; split|].
  - apply bool_decide_eq_true. lia.
  - case_decide; [|done]. apply bool_decide_eq_true.
    destruct cs0; simpl in *; [congruence|lia].
  - case_decide; [|done]. apply bool_decide_eq_true.
    destruct cs0 as [|c0 [|c1 cs0]]; simpl in Hl; try lia. simplify_eq/=.
    destruct xs as [|? [|? ?]]; [done|naive_solver|].
    destruct Hc as [_ (n & -> & Hc)]. by destruct Hc as [-> _].
Qed.

(** ** Framing *)

Lemma evolves_refl l cs h : wf h → evolves l cs l cs h h.
Proof. intros. split; auto. Qed.

Lemma evolves_trans l cs l1 cs1 l2 cs2 h h1 h2 :
  evolves l cs l1 cs1 h h1 → evolves l1 cs1 l2 cs2 h1 h2 → evolves l cs l2 cs2 h h2.
Proof.
  intros [W1 C1 L1 F1 H1] [W2 C2 L2 F2 H2]. split; [done|..].
  - intros c Hc Hs. rewrite C2, C1; try done.
    + intros [?|E]%F1; [done|]. by rewrite E in Hs; destruct Hs.
    + by rewrite C1.
  - intros a Ha Hs. rewrite L2, L1; try done.
    + intros [?|E]%H1; [done|]. by rewrite E in Hs; destruct Hs.
    + by rewrite L1.
  - intros c [?|E]%F2; [auto|]. destruct (decide (c ∈ cs)); [by left|right].
    destruct (cells h !! c) eqn:Ec; [|done]. rewrite C1 in E by (done || by eexists). congruence.
  - intros a [?|E]%H2; [auto|]. destruct (decide (l = Some a)); [by left|right].
    destruct (lists h !! a) eqn:Ea; [|done]. rewrite L1 in E by (done || by eexists). congruence.
Qed.

(** A list apart from the one an operation works on keeps its contents and
    stays apart. *)
Lemma evolves_frame l cs l' cs' h h' l2 ty2 cs2 xs2 :
  evolves l cs l' cs' h h' → plist h l2 ty2 cs2 xs2 → apart l cs l2 cs2 →
  plist h' l2 ty2 cs2 xs2 ∧ apart l' cs' l2 cs2.
Proof.
  intros [W C L F H] P2 [Ac Al]. split.
  - destruct l2 as [a2|]; simpl in *; [|done]. destruct P2 as [Hh Hc Hnd Hne]. split; try done.
    + rewrite L; [done| |by eexists]. intros ->. by eapply Al.
    + eapply chain_ext; [|done]. intros c Hc2. apply C; [set_solver|]. by eapply chain_alloc.
  - split.
    + intros c Hc Hc2. destruct (F _ Hc) as [?|E]; [by eapply Ac|].
      destruct (plist_alloc _ _ _ _ _ _ P2 Hc2). congruence.
    + intros a -> ->. destruct (H _ eq_refl) as [?|E]; [by eapply Al|].
      simpl in P2. destruct P2. congruence.
Qed.

Lemma apart_nil l cs : apart None [] l cs.
Proof. split; [set_solver|done]. Qed.

Lemma apart_sym l cs l2 cs2 : apart l cs l2 cs2 → apart l2 cs2 l cs.
Proof. intros [H1 H2]. split; [set_solver|]. intros a -> ->. by eapply H2. Qed.

Lemma wf_fresh_cell h : wf h → cells h !! brk h = None.
Proof.
  intros [W _]. destruct (cells h !! brk h) eqn:E; [|done].
  pose proof (W (brk h) ltac:(by eexists)). lia.
Qed.

Lemma wf_fresh_list h : wf h → lists h !! brk h = None.
Proof.
  intros [_ W]. destruct (lists h !! brk h) eqn:E; [|done].
  pose proof (W (brk h) ltac:(by eexists)). lia.
Qed.

(** A heap whose addresses are those of [h] or lie between the two breaks. *)
Lemma wf_grow h h' : wf h → (brk h ≤ brk h')%positive →
  (∀ c, is_Some (cells h' !! c) → is_Some (cells h !! c) ∨ (c < brk h')%positive) →
  (∀ a, is_Some (lists h' !! a) → is_Some (lists h !! a) ∨ (a < brk h')%positive) → wf h'.
Proof.
  intros [W1 W2] Hb Hc Hl. split.
  - intros c [H|H]%Hc; [apply W1 in H; lia|done].
  - intros a [H|H]%Hl; [apply W2 in H; lia|done].
Qed.

Lemma evolves_intro l cs l' cs' h h' :
  wf h → wf h' →
  (∀ c, c ∉ cs → (c < brk h)%positive → cells h' !! c = cells h !! c) →
  (∀ a, l ≠ Some a → (a < brk h)%positive → lists h' !! a = lists h !! a) →
  (∀ c, c ∈ cs' → c ∈ cs ∨ (brk h ≤ c)%positive) →
  (∀ a, l' = Some a → l = Some a ∨ (brk h ≤ a)%positive) →
  evolves l cs l' cs' h h'.
Proof.
  intros [W1 W2] W' C L F H. split; auto.
  - intros c [?|?]%F; [by left|right]. destruct (cells h !! c) eqn:E; [|done].
    pose proof (W1 c ltac:(by eexists)). lia.
  - intros a [?|?]%H; [by left|right]. destruct (lists h !! a) eqn:E; [|done].
    pose proof (W2 a ltac:(by eexists)). lia.
Qed.

End lists.

(** Discharge the allocation side conditions of a heap given by updates. *)
Ltac solve_wf :=
  match goal with W : wf ?h |- wf _ =>
    apply (wf_grow h); [exact W|cbn; lia|..]; cbn; intros ?;
    repeat (rewrite lookup_insert_is_Some' || rewrite lookup_delete_is_Some);
    intuition (subst; eauto; right; lia)
  end.

(** ** Traversals *)

(** The pure counterpart of a loop whose body only reads. *)
Fixpoint fold_ctl {B R} (f : Z → B → ctl B R) (xs : list Z) (b : B) : B + R :=
  match xs with
  | [] => inl b
  | x :: xs =>
      match f x b with Next b' => fold_ctl f xs b' | Break b' => inl b' | Return r => inr r end
  end.

Section traversals.
Implicit Types (h : heap) (a : loc) (l : option loc) (ty : NodeTag) (cs : list loc) (xs : list Z).

(** Invariant rule for a loop over the cells [cs]: the traversed chain must be
    intact whenever the loop reads a link. *)
Lemma for_each_ind {B R} (I : nat → B → heap → Prop) (Q : B + R → heap → Prop)
    cs xs (body : loc → B → M heap (ctl B R)) fuel b h :
  (∀ i b h, I i b h → chain (cells h) (hd_error cs) cs xs None) →
  (∀ i c x b h, I i b h → cs !! i = Some c → xs !! i = Some x →
     ∃ r h', body c b h = Ok (r, h') ∧
       match r with
       | Next b' => I (S i) b' h'
       | Break b' => Q (inl b') h'
       | Return r => Q (inr r) h'
       end) →
  (∀ b h, I (len cs) b h → Q (inl b) h) →
  I 0 b h → len cs ≤ fuel →
  ∃ r h', for_each_go fuel (hd_error cs) b body h = Ok (r, h') ∧ Q r h'.
Proof.
  intros Hch Hbody Hend HI0 Hf.
  enough (∀ k i b h fuel, I i b h → i + k = len cs → k ≤ fuel →
    ∃ r h', for_each_go fuel (cs !! i) b body h = Ok (r, h') ∧ Q r h') as G.
  { replace (hd_error cs) with (cs !! 0) by by destruct cs. by apply (G (len cs)). }
  clear b h fuel HI0 Hf. induction k as [|k IH]; intros i b h fuel HI Hi Hf.
  - rewrite lookup_ge_None_2 by lia. rewrite Nat.add_0_r in Hi. subst i.
    destruct fuel; simpl; eauto.
  - destruct (lookup_lt_is_Some_2 cs i ltac:(lia)) as [c Hc]. rewrite Hc.
    destruct fuel as [|fuel]; [lia|]. cbn [for_each_go].
    destruct (chain_lookup _ _ _ _ _ _ _ (Hch _ _ _ HI) Hc) as (x & Hx & _).
    destruct (Hbody _ _ _ _ _ HI Hc Hx) as (r & h' & E & Hr). hrun E.
    destruct r as [b'|b'|r]; [|eauto..].
    destruct (chain_lookup _ _ _ _ _ _ _ (Hch _ _ _ Hr) Hc) as (x' & _ & Hm).
    hrun (lnext_ok _ _ _ Hm). cbn [next].
    replace (match cs !! S i with Some c' => Some c' | None => None end) with (cs !! S i)
      by by destruct (cs !! S i).
    apply IH; [done|lia|lia].
Qed.

(** One iteration. *)
Lemma for_each_next {B R} fuel c (b : B) (body : loc → B → M heap (ctl B R)) b' x n h h1 :
  body c b h = Ok (Next b', h1) → cells h1 !! c = Some (mkCell x n) →
  for_each_go (S fuel) (Some c) b body h = for_each_go fuel n b' body h1.
Proof. intros E Hc. cbn [for_each_go]. hrun E. by hrun (lnext_ok _ _ _ Hc). Qed.

Lemma for_each_return {B R} fuel c (b : B) (body : loc → B → M heap (ctl B R)) r h h1 :
  body c b h = Ok (Return r, h1) →
  for_each_go (S fuel) (Some c) b body h = Ok (inr r, h1).
Proof. intros E. cbn [for_each_go]. by hrun E. Qed.

(** A loop whose body reads the current cell and does not change the heap. *)
Lemma for_each_pure {B R} (f : Z → B → ctl B R) (body : loc → B → M heap (ctl B R))
    p cs xs fuel b h :
  chain (cells h) p cs xs None → len cs ≤ fuel →
  (∀ c x n b, c ∈ cs → cells h !! c = Some (mkCell x n) → body c b h = Ok (f x b, h)) →
  for_each_go fuel p b body h = Ok (fold_ctl f xs b, h).
Proof.
  revert p xs fuel b. induction cs as [|c cs IH]; intros p [|x xs] fuel b Hc Hf Hb; try done.
  - simpl in Hc. subst p. by destruct fuel.
  - destruct Hc as [-> (n & Hn & Hc)]. destruct fuel as [|fuel]; simpl in Hf; [lia|].
    cbn [for_each_go fold_ctl]. hrun (Hb c x n b ltac:(left) Hn).
    destruct (f x b); [|done..]. hrun (lnext_ok _ _ _ Hn).
    apply IH; [done|lia|]. intros. eapply Hb; [by right|done].
Qed.

Lemma foreach_pure {B R} (f : Z → B → ctl B R) (body : loc → B → M heap (ctl B R)) l ty cs xs b h :
  plist h l ty cs xs →
  (∀ c x n b, c ∈ cs → cells h !! c = Some (mkCell x n) → body c b h = Ok (f x b, h)) →
  foreach l b body h = Ok (fold_ctl f xs b, h).
Proof.
  intros P Hb. unfold foreach, for_each_cell.
  hrun (list_head_ok _ _ _ _ _ P). rewrite bind_gets.
  eapply for_each_pure; [by eapply plist_chain| |done].
  pose proof (plist_fuel _ _ _ _ _ P). lia.
Qed.

Lemma foreach_ind {B R} (I : nat → B → heap → Prop) (Q : B + R → heap → Prop)
    l ty cs xs (body : loc → B → M heap (ctl B R)) b h :
  plist h l ty cs xs →
  (∀ i b h, I i b h → chain (cells h) (hd_error cs) cs xs None) →
  (∀ i c x b h, I i b h → cs !! i = Some c → xs !! i = Some x →
     ∃ r h', body c b h = Ok (r, h') ∧
       match r with
       | Next b' => I (S i) b' h'
       | Break b' => Q (inl b') h'
       | Return r => Q (inr r) h'
       end) →
  (∀ b h, I (len cs) b h → Q (inl b) h) →
  I 0 b h →
  ∃ r h', foreach l b body h = Ok (r, h') ∧ Q r h'.
Proof.
  intros P Hch Hbody Hend HI. unfold foreach, for_each_cell.
  hrun (list_head_ok _ _ _ _ _ P). rewrite bind_gets.
  pose proof (plist_fuel _ _ _ _ _ P).
  eapply for_each_ind; [done..|lia].
Qed.

Lemma walk_ok h p cs xs q n i c c' :
  chain (cells h) p cs xs q → cs !! i = Some c → cs !! (n + i) = Some c' →
  walk n c h = Ok (c', h).
Proof.
  revert i c. induction n as [|n IH]; intros i c Hc Hi Hn; simpl in *; [naive_solver|].
  destruct (chain_lookup _ _ _ _ _ _ _ Hc Hi) as (x & _ & Hm).
  hrun (lnext_ok _ _ _ Hm). cbn [next].
  destruct (cs !! S i) as [c2|] eqn:E.
  - rewrite bind_deref. eapply (IH (S i)); [done|done|]. by rewrite Nat.add_succ_r.
  - apply lookup_ge_None in E. apply lookup_lt_Some in Hn. lia.
Qed.

Lemma list_nth_cell_ok h a ty cs xs n c :
  list_at h a ty cs xs → cs !! n = Some c →
  list_nth_cell (Some a) (Z.of_nat n) h = Ok (c, h).
Proof.
  intros P Hn. pose proof (list_at_len _ _ _ _ _ P) as Hl. pose proof P as [Hh Hc Hnd Hne].
  unfold list_nth_cell. rewrite bind_deref, (bind_ok _ _ _ _ _ (get_list_ok _ _ _ Hh)). cbn.
  pose proof (lookup_lt_Some _ _ _ Hn). case_decide.
  - rewrite last_lookup. replace (pred (len cs)) with n by lia. by rewrite Hn.
  - destruct cs as [|c0 cs]; [done|]. cbn [hd_error]. rewrite bind_deref, Nat2Z.id.
    eapply (walk_ok _ _ _ _ _ _ 0); [done|done|]. by rewrite Nat.add_0_r.
Qed.

Lemma list_nth_ok h l ty cs xs n x :
  plist h l ty cs xs → xs !! n = Some x → list_nth l (Z.of_nat n) h = Ok (x, h).
Proof.
  intros P Hx. destruct l as [a|]; simpl in P; [|destruct P; by subst].
  destruct (lookup_lt_is_Some_2 cs n) as [c Hc].
  { rewrite (list_at_len _ _ _ _ _ P). by eapply lookup_lt_Some. }
  unfold list_nth. hrun (list_nth_cell_ok _ _ _ _ _ _ _ P Hc).
  destruct P as [_ Hch _ _].
  destruct (chain_lookup _ _ _ _ _ _ _ Hch Hc) as (y & Hy & Hm). simplify_eq.
  by rewrite (lfirst_ok _ _ _ Hm).
Qed.

Lemma linitial_ok h l ty cs x xs :
  plist h l ty cs (x :: xs) → linitial l h = Ok (x, h).
Proof.
  intros P. unfold linitial. hrun (list_head_ok _ _ _ _ _ P).
  apply plist_chain in P. destruct cs as [|c cs]; [done|].
  destruct P as [_ (n & Hn & _)]. cbn [hd_error]. rewrite bind_deref. by rewrite (lfirst_ok _ _ _ Hn).
Qed.

Lemma fold_member (eq : Z → Z → bool) d xs :
  fold_ctl (λ x (_ : unit), if eq x d then Return true else Next ()) xs () =
  if existsb (λ x, eq x d) xs then inr true else inl ().
Proof. induction xs as [|x xs IH]; simpl; [done|]. destruct (eq x d); simpl; auto. Qed.

Lemma list_member_ok eq h l ty cs xs d :
  plist h l ty cs xs → list_member_gen eq l d h = Ok (existsb (λ x, eq x d) xs, h).
Proof.
  intros P. unfold list_member_gen. erewrite bind_ok.
  2:{ eapply (foreach_pure (λ x (_ : unit), if eq x d then Return true else Next ())); [done|].
      intros c x n b _ Hm. by hrun (lfirst_ok _ _ _ Hm). }
  rewrite fold_member. by destruct (existsb _ xs).
Qed.

End traversals.

(** ** Growing a list *)

Section growing.
Implicit Types (h : heap) (a : loc) (l : option loc) (ty : NodeTag) (cs : list loc) (xs : list Z).

(** A list of one new cell. *)
Lemma new_list_spec ty x h :
  wf h → ∃ a c h', (a' ← new_list ty; v ← get_list a'; t ← deref (tail v);
      set_data t x;; ret (Some a')) h = Ok (Some a, h') ∧
    list_at h' a ty [c] [x] ∧ evolves None [] (Some a) [c] h h'.
Proof.
  intros W. pose proof (wf_fresh_cell _ W). pose proof (wf_fresh_list _ W).
  do 3 eexists. unfold new_list. split; [|split].
  - hsteps. apply ret_ok.
  - split; cbn; try done.
    + by rewrite lookup_insert_eq.
    + split; [done|]. eexists. rewrite lookup_insert_eq. done.
    + apply NoDup_singleton.
  - apply evolves_intro; cbn; [done|solve_wf|..].
    + intros c _ Hc. by rewrite !lookup_insert_ne by lia.
    + intros a _ Ha. by rewrite lookup_insert_ne by lia.
    + intros c ->%list_elem_of_singleton. by right.
    + intros a [= <-]. right. lia.
Qed.

(** [cs ++ [t]]: the tail cell of a list, and the chain up to it. *)
Lemma list_at_snoc h a ty cs xs : list_at h a ty cs xs →
  ∃ cs0 t xs0 x, cs = cs0 ++ [t] ∧ xs = xs0 ++ [x] ∧ (t ∉ cs0) ∧ NoDup cs0 ∧
    chain (cells h) (hd_error cs) cs0 xs0 (Some t) ∧ cells h !! t = Some (mkCell x None).
Proof.
  intros [Hh Hc Hnd Hne]. destruct (exists_last Hne) as (cs0 & t & ->).
  apply chain_app_inv in Hc as (xs0 & xs1 & r & -> & Hl & Hc1 & Hc2).
  destruct xs1 as [|x [|]]; [naive_solver| |naive_solver].
  destruct Hc2 as [-> (n & Hn & ->)]. apply NoDup_app in Hnd as (? & Hd & _).
  exists cs0, t, xs0, x. repeat split; try done. intros Ht. by eapply Hd; [|left].
Qed.

Lemma lappend_gen_spec ty l cs xs x h :
  wf h → plist h l ty cs xs →
  ∃ a cs' h', lappend_gen ty l x h = Ok (Some a, h') ∧
    list_at h' a ty cs' (xs ++ [x]) ∧ evolves l cs (Some a) cs' h h'.
Proof.
  intros W P. destruct l as [a|]; simpl in P.
  2:{ destruct P as [-> ->]. destruct (new_list_spec ty x h W) as (a & c & h' & ? & ? & ?).
      by exists a, [c], h'. }
  destruct (list_at_snoc _ _ _ _ _ P) as (cs0 & t & xs0 & y & -> & -> & Ht & Hnd & Hc & Hm).
  assert (t < brk h)%positive by (apply W; by eexists).
  assert (∀ c, c ∈ cs0 → (c < brk h)%positive) as Hlt.
  { intros c ?. apply W. by eapply chain_alloc. }
  destruct P as [Hh _ _ _]. rewrite last_snoc in Hh.
  unfold lappend_gen, new_tail_cell.
  exists a, ((cs0 ++ [t]) ++ [brk h]). eexists. split; [|split].
  - hsteps. apply ret_ok.
  - split; cbn.
    + rewrite lookup_insert_eq, !last_snoc. f_equal. f_equal.
      * rewrite !length_app. simpl. lia.
      * by destruct cs0.
    + rewrite <- !(assoc_L (++)).
      eapply (chain_join _ _ cs0 [t; brk h] xs0 [y; x] None (Some t)).
      * assert (brk h ∉ cs0) by (intros Hin%Hlt; lia).
        repeat apply chain_insert; try done. destruct cs0; done.
      * cbn. split; [done|]. eexists. split.
        { rewrite lookup_insert_ne by lia. by rewrite lookup_insert_eq. }
        split; [done|]. eexists. by rewrite lookup_insert_eq.
    + rewrite !NoDup_app. repeat split; try done; try apply NoDup_singleton.
      * intros c Hin ->%list_elem_of_singleton. done.
      * intros c Hin ->%list_elem_of_singleton. apply elem_of_app in Hin as [Hin%Hlt|Hin].
        { lia. } apply list_elem_of_singleton in Hin. lia.
    + by destruct cs0.
  - apply evolves_intro; cbn; [done|solve_wf|..].
    + intros c Hc' Hlt'. by rewrite !lookup_insert_ne by (lia || (intros <-; set_solver)).
    + intros a' Ha' _. rewrite lookup_insert_ne; [done|]. congruence.
    + intros c. rewrite elem_of_app, list_elem_of_singleton. intros [?| ->]; [by left|by right].
    + intros a' [= ->]. by left.
Qed.

Lemma lcons_gen_spec ty l cs xs x h :
  wf h → plist h l ty cs xs →
  ∃ a cs' h', lcons_gen ty x l h = Ok (Some a, h') ∧
    list_at h' a ty cs' (x :: xs) ∧ evolves l cs (Some a) cs' h h'.
Proof.
  intros W P. destruct l as [a|]; simpl in P.
  2:{ destruct P as [-> ->]. destruct (new_list_spec ty x h W) as (a & c & h' & E & ? & ?).
      exists a, [c], h'. split; [|done]. rewrite <- E. unfold lcons_gen, new_list. by hsteps. }
  pose proof P as [Hh Hc Hnd Hne].
  assert (∀ c, c ∈ cs → (c < brk h)%positive) as Hlt.
  { intros c ?. apply W. by eapply chain_alloc. }
  unfold lcons_gen, new_head_cell. exists a, (brk h :: cs). eexists. split; [|split].
  - hsteps. apply ret_ok.
  - split; cbn.
    + rewrite lookup_insert_eq. f_equal. f_equal; [lia|]. by destruct cs.
    + split; [done|]. eexists. rewrite lookup_insert_eq. split; [done|].
      repeat apply chain_insert; try done; intros ?%Hlt; lia.
    + constructor; [|done]. intros ?%Hlt. lia.
    + done.
  - apply evolves_intro; cbn; [done|solve_wf|..].
    + intros c _ ?. by rewrite !lookup_insert_ne by lia.
    + intros a' Ha' _. rewrite lookup_insert_ne; [done|]. congruence.
    + intros c [->|?]%elem_of_cons; [by right|by left].
    + intros a' [= ->]. by left.
Qed.

End growing.

(** ** Joining, cutting and deleting *)

Section cutting.
Implicit Types (h : heap) (a : loc) (l : option loc) (ty : NodeTag) (cs : list loc) (xs : list Z).

Lemma list_concat_spec ty l1 l2 cs1 cs2 xs1 xs2 h :
  wf h → plist h l1 ty cs1 xs1 → plist h l2 ty cs2 xs2 → apart l1 cs1 l2 cs2 →
  ∃ l' h', list_concat l1 l2 h = Ok (l', h') ∧ l' = (match l1 with None => l2 | _ => l1 end) ∧
    plist h' l' ty (cs1 ++ cs2) (xs1 ++ xs2) ∧
    evolves l' (cs1 ++ cs2) l' (cs1 ++ cs2) h h'.
Proof.
  intros W P1 P2 [Ac Al]. destruct l1 as [a1|]; simpl in P1.
  2:{ destruct P1 as [-> ->]. exists l2, h. repeat split; auto using evolves_refl. by apply W. by apply W. }
  destruct l2 as [a2|]; simpl in P2.
  2:{ destruct P2 as [-> ->]. rewrite !app_nil_r. exists (Some a1), h.
      repeat split; auto; try apply P1; apply W. }
  cbn [list_concat]. case_decide as Ha; [by specialize (Al a1 eq_refl); subst|].
  destruct (list_at_snoc _ _ _ _ _ P1) as (cs0 & t & xs0 & y & -> & -> & Ht & Hnd & Hc & Hm).
  pose proof P1 as [Hh1 _ Hnd1 _]. pose proof P2 as [Hh2 Hc2 Hnd2 Hne2]. rewrite last_snoc in Hh1.
  do 2 eexists. split; [hsteps; apply ret_ok|]. split; [done|]. split.
  - split; cbn.
    + rewrite lookup_insert_eq. f_equal. f_equal.
      * rewrite !length_app. simpl. lia.
      * by destruct cs0.
      * rewrite last_app. destruct (last cs2) eqn:E; [done|]. by apply last_None in E.
    + rewrite <- !(assoc_L (++)).
      eapply (chain_join _ _ cs0 ([t] ++ cs2) xs0 ([y] ++ xs2) None (Some t)).
      * apply chain_insert; [done|]. by destruct cs0.
      * cbn. split; [done|]. eexists. rewrite lookup_insert_eq. split; [done|].
        apply chain_insert; [|done]. apply Ac. set_solver.
    + apply NoDup_app. repeat split; [done| |done]. intros c ? ?. by eapply Ac.
    + by destruct cs0.
  - apply evolves_intro; cbn; [done|solve_wf|..].
    + intros c Hc' ?. rewrite lookup_insert_ne; [done|]. intros <-. set_solver.
    + intros a Ha' ?. rewrite lookup_insert_ne; [done|]. congruence.
    + auto.
    + auto.
Qed.

(** A chain split around the cell at position [i]. *)
Lemma list_at_split h a ty cs xs i c :
  list_at h a ty cs xs → cs !! i = Some c →
  ∃ x, xs !! i = Some x ∧
    cs = take i cs ++ c :: drop (S i) cs ∧ xs = take i xs ++ x :: drop (S i) xs ∧
    chain (cells h) (hd_error cs) (take i cs) (take i xs) (Some c) ∧
    cells h !! c = Some (mkCell x (cs !! S i)) ∧
    chain (cells h) (cs !! S i) (drop (S i) cs) (drop (S i) xs) None ∧
    NoDup (take i cs) ∧ (c ∉ take i cs) ∧ NoDup (drop (S i) cs) ∧ (c ∉ drop (S i) cs) ∧
    (∀ c', c' ∈ take i cs → c' ∉ drop (S i) cs).
Proof.
  intros P Hci. pose proof (list_at_len _ _ _ _ _ P) as Hl. destruct P as [Hh Hc Hnd Hne].
  destruct (chain_lookup _ _ _ _ _ _ _ Hc Hci) as (x & Hx & Hm). exists x. split; [done|].
  apply take_drop_middle in Hci as Hcs. apply take_drop_middle in Hx as Hxs.
  assert (match cs !! S i with Some c' => Some c' | None => None end = cs !! S i) as Hn
    by by destruct (cs !! S i).
  rewrite Hn in Hm. do 2 (split; [done|]).
  rewrite <- Hcs in Hc at 2. apply chain_app_inv in Hc as (xs1 & xs2 & r & Hxs' & Hl1 & Hc1 & Hc2).
  rewrite <- Hxs in Hxs'. apply app_inj_1 in Hxs' as [<- <-]; [|rewrite Hl1, !length_take; lia].
  destruct Hc2 as [-> (n & Hn' & Hc2)]. simplify_eq.
  rewrite <- Hcs in Hnd. apply NoDup_app in Hnd as (? & Hd & Hnd2). apply NoDup_cons in Hnd2 as [? ?].
  repeat split; try done.
  - intros ?. by eapply Hd; [|left].
  - intros c' ? ?. by eapply Hd; [|right].
Qed.

Lemma hd_error_take {A} i (ls : list A) : i ≠ 0 → hd_error (take i ls) = hd_error ls.
Proof. by destruct i, ls. Qed.

(** Cutting a list behind the cell at position [i]. *)
Lemma list_cut_spec ty a cs xs i c x h :
  wf h → list_at h a ty cs xs → cs !! i = Some c → xs !! i = Some x →
  let h' := upd_list a (mkList ty (Z.of_nat (S i)) (hd_error cs) (Some c))
              (upd_cell c (mkCell x None) h) in
  list_at h' a ty (take (S i) cs) (take (S i) xs) ∧
  evolves (Some a) cs (Some a) (take (S i) cs) h h'.
Proof.
  intros W P Hci Hxi h'. pose proof (lookup_lt_Some _ _ _ Hci).
  pose proof (list_at_len _ _ _ _ _ P) as Hl. pose proof P as [Hh _ _ _].
  destruct (list_at_split _ _ _ _ _ _ _ P Hci)
    as (y & Hy & Hcs & Hxs & Hc1 & Hm & Hc2 & Hnd1 & Hnc & _). simplify_eq.
  rewrite (take_S_r _ _ _ Hci), (take_S_r _ _ _ Hxi). split.
  - split; cbn.
    + rewrite lookup_insert_eq, last_snoc. f_equal. f_equal.
      * rewrite length_app, length_take. simpl. lia.
      * rewrite <- (take_S_r _ _ _ Hci). by rewrite hd_error_take.
    + rewrite <- (take_S_r _ _ _ Hci) at 1. rewrite hd_error_take by done.
      eapply (chain_join _ _ (take i cs) [c] (take i xs) [x] None (Some c)).
      * by apply chain_insert.
      * cbn. split; [done|]. eexists. by rewrite lookup_insert_eq.
    + apply NoDup_app. repeat split; [done| |apply NoDup_singleton].
      intros c' ? ->%list_elem_of_singleton. done.
    + by destruct (take i cs).
  - apply evolves_intro; cbn; [done|solve_wf|..].
    + intros c' Hc' ?. rewrite lookup_insert_ne; [done|]. intros ->. apply Hc'. rewrite Hcs. set_solver.
    + intros a' Ha' ?. rewrite lookup_insert_ne; [done|]. congruence.
    + intros c' Hin. left. rewrite Hcs. set_solver.
    + auto.
Qed.

Lemma list_truncate_spec ty a cs xs n h :
  wf h → list_at h a ty cs xs →
  ∃ l' h', list_truncate (Some a) n h = Ok (l', h') ∧
    plist h' l' ty (take (Z.to_nat n) cs) (take (Z.to_nat n) xs) ∧
    evolves (Some a) cs l' (take (Z.to_nat n) cs) h h'.
Proof.
  intros W P. pose proof (list_at_len _ _ _ _ _ P) as Hl. pose proof P as [Hh Hc Hnd Hne].
  unfold list_truncate. case_decide as Hn.
  { replace (Z.to_nat n) with 0 by lia. exists None, h. repeat split; auto; try apply W; set_solver. }
  hrun (list_length_ok h (Some a) _ _ _ P). case_decide as Hn'.
  { rewrite !take_ge by lia. exists (Some a), h. repeat split; auto; try apply P; apply W. }
  assert (∃ k, n = Z.of_nat (S k)) as [k ->] by (exists (pred (Z.to_nat n)); lia).
  rewrite Nat2Z.id. match goal with |- context [foreach _ _ ?f] => set (body := f) end.
  destruct (foreach_ind (λ i b h', h' = h ∧ b = Z.of_nat (S i) ∧ i ≤ k)
    (λ r h', r = inr (Some a) ∧ list_at h' a ty (take (S k) cs) (take (S k) xs) ∧
       evolves (Some a) cs (Some a) (take (S k) cs) h h')
    (Some a) ty cs xs body 1%Z h P) as (r & h' & E & -> & Hp & He); subst body; cbn beta.
  - intros i b h' (-> & _). done.
  - intros i c x b h' (-> & -> & Hi) Hci Hxi. case_decide as Hd.
    + assert (i = k) as -> by lia.
      destruct (list_at_split _ _ _ _ _ _ _ P Hci) as (y & ? & _ & _ & _ & Hm & _). simplify_eq.
      do 2 eexists. split; [hsteps; apply ret_ok|]. split; [done|]. by apply list_cut_spec.
    + do 2 eexists. split; [apply ret_ok|]. cbn. repeat split; try done; lia.
  - intros b h' (-> & -> & ?). lia.
  - repeat split; auto; lia.
  - hrun E. by exists (Some a), h'.
Qed.

(** [list_free] returns every cell and the header. *)
Lemma free_cells_ok h p cs xs fuel :
  wf h → chain (cells h) p cs xs None → NoDup cs → len cs ≤ fuel →
  ∃ h', free_cells fuel p h = Ok (tt, h') ∧ wf h' ∧ lists h' = lists h ∧
    (∀ c, c ∈ cs → cells h' !! c = None) ∧
    (∀ c, c ∉ cs → cells h' !! c = cells h !! c).
Proof.
  revert h p xs fuel. induction cs as [|c cs IH]; intros h p [|x xs] fuel W Hc Hnd Hf; try done.
  - simpl in Hc. subst p. exists h. destruct fuel; simpl; repeat split; auto; try apply W; set_solver.
  - destruct Hc as [-> (n & Hn & Hc)]. destruct fuel as [|fuel]; simpl in Hf; [lia|].
    apply NoDup_cons in Hnd as [Hnc Hnd]. cbn [free_cells]. do 2 hstep.
    edestruct (IH (mkHeap (delete c (cells h)) (lists h) (brk h)) n xs fuel) as (h' & E & W' & HL & Hi & Ho).
    + solve_wf.
    + cbn. by apply chain_delete.
    + done.
    + lia.
    + exists h'. split; [done|]. split; [done|]. split; [done|]. split.
      * intros c' [->|Hc']%elem_of_cons; [|auto]. rewrite Ho by done. apply lookup_delete_eq.
      * intros c' [? ?]%not_elem_of_cons. rewrite Ho by done. cbn. by rewrite lookup_delete_ne.
Qed.

Lemma list_free_spec ty l cs xs h :
  wf h → plist h l ty cs xs →
  ∃ h', list_free l h = Ok (tt, h') ∧ evolves l cs None [] h h' ∧
    (∀ c, c ∈ cs → cells h' !! c = None) ∧ (∀ a, l = Some a → lists h' !! a = None).
Proof.
  intros W P. unfold list_free. hrun (list_head_ok _ _ _ _ _ P). rewrite bind_gets.
  destruct (free_cells_ok h (hd_error cs) cs xs (loop_fuel h)) as (h1 & E & W1 & HL & Hi & Ho);
    [done|by eapply plist_chain|by eapply plist_nodup|
     pose proof (plist_fuel _ _ _ _ _ P); lia|].
  hrun E. destruct l as [a|]; simpl in P.
  - destruct P as [Hh _ _ _]. rewrite <- HL in Hh. erewrite pfree_list_ok by done.
    eexists. split; [done|]. cbn. split; [|split; [done|intros a' [= ->]; apply lookup_delete_eq]].
    split; cbn; [solve_wf|auto| |set_solver|done].
    intros a' Ha' ?. rewrite lookup_delete_ne by congruence. by rewrite HL.
  - eexists. split; [done|]. split; [|done]. split; [done|auto|by rewrite HL|set_solver|done].
Qed.

(** The predecessor of position [i], [NULL] for the first cell. *)
Definition prev_cell (cs : list loc) (i : nat) : option loc :=
  match i with O => None | S j => cs !! j end.

Lemma last_take_prev {A} (ls : list A) i x :
  ls !! i = Some x → last (take i ls) = match i with O => None | S j => ls !! j end.
Proof.
  destruct i as [|j]; [by intros _; rewrite take_0|]. intros H.
  destruct (lookup_lt_is_Some_2 ls j) as [y Hy]; [apply lookup_lt_Some in H; lia|].
  by rewrite (take_S_r _ _ _ Hy), last_snoc, Hy.
Qed.

(** The links and the header after the cell at [i] has been unlinked, and before
    it is freed. *)
Lemma list_unlink_spec ty a cs xs i c h hd m :
  wf h → list_at h a ty cs xs → cs !! i = Some c → 1 < len cs →
  hd = (match i with O => cs !! 1 | _ => hd_error cs end) →
  m = (match prev_cell cs i with
       | Some p => match cells h !! p with
                   | Some x => <[p := mkCell (data x) (cs !! S i)]> (cells h)
                   | None => cells h end
       | None => cells h end) →
  let h' := mkHeap (delete c m)
              (<[a := mkList ty (Z.of_nat (len xs) - 1) hd
                    (if decide (last cs = Some c) then prev_cell cs i else last cs)]> (lists h))
              (brk h) in
  list_at h' a ty (delete i cs) (delete i xs) ∧
  evolves (Some a) cs (Some a) (delete i cs) h h'.
Proof.
  intros W P Hci Hlen -> -> h'. pose proof (list_at_len _ _ _ _ _ P) as Hl.
  pose proof (lookup_lt_Some _ _ _ Hci).
  destruct (list_at_split _ _ _ _ _ _ _ P Hci)
    as (x & Hx & Hcs & Hxs & Hc1 & Hm & Hc2 & Hnd1 & Hnc & Hnd2 & Hnc2 & Hdis).
  assert (last (delete i cs) = if decide (last cs = Some c) then prev_cell cs i else last cs) as Hlast.
  { rewrite delete_take_drop. rewrite last_app.
    assert (last cs = last (c :: drop (S i) cs)) as Hlc.
    { rewrite Hcs at 1. by rewrite last_app_cons. }
    rewrite Hlc. destruct (drop (S i) cs) as [|d ds] eqn:Ed.
    - cbn. rewrite decide_True by done. rewrite (last_take_prev _ _ _ Hci). by destruct i.
    - rewrite last_cons_cons. destruct (last (d :: ds)) eqn:E; [|by apply last_None in E].
      case_decide as Hd; [|done]. simplify_eq. apply last_Some in E as [? E].
      destruct Hnc2. rewrite E. apply elem_of_app. right. left. }
  assert (∃ p0, hd_error (delete i cs) = p0 ∧
    p0 = match i with O => cs !! 1 | _ => hd_error cs end) as (p0 & Hp0 & Hp0').
  { eexists. split; [done|]. rewrite delete_take_drop. destruct i; cbn.
    - destruct cs as [|? [|]]; done.
    - destruct cs; [done|]. done. }
  assert (NoDup (delete i cs)) as Hnd'.
  { rewrite delete_take_drop. apply NoDup_app. auto. }
  split.
  - split; cbn.
    + rewrite lookup_insert_eq, <- Hlast, Hp0, Hp0'. f_equal. f_equal.
      rewrite length_delete by by eexists. lia.
    + apply chain_delete; [rewrite delete_take_drop; set_solver|].
      rewrite Hp0, Hp0', !delete_take_drop.
      destruct i as [|j]; cbn [prev_cell].
      * rewrite !take_0. done.
      * pose proof (last_take_prev _ _ _ Hci) as Hlt.
        destruct (lookup_lt_is_Some_2 cs j ltac:(lia)) as [p Hp].
        cbn in Hlt. rewrite Hp in Hlt |- *.
        destruct (chain_relink _ _ _ _ _ _ Hc1 Hnd1 Hlt) as (y & Hy & Hc1').
        rewrite Hy. cbn [data]. eapply chain_join; [apply Hc1'|].
        apply chain_insert; [|done]. apply Hdis. apply last_Some in Hlt as [? ->]. set_solver.
    + done.
    + intros E%(f_equal len). rewrite length_delete in E by by eexists. simpl in E. lia.
  - apply evolves_intro; cbn; [done|..].
    + subst h'. pose proof P as [Hh _ _ _].
      destruct (prev_cell cs i) as [p|] eqn:Ep; [|solve_wf].
      destruct (cells h !! p) eqn:Em; solve_wf.
    + intros c' Hc' ?. rewrite lookup_delete_ne.
      2:{ intros ->. apply Hc'. by eapply list_elem_of_lookup_2. }
      destruct (prev_cell cs i) as [p|] eqn:Ep; [|done].
      destruct (cells h !! p) eqn:Em; [|done]. rewrite lookup_insert_ne; [done|].
      intros ->. apply Hc'. destruct i; [done|]. by eapply list_elem_of_lookup_2.
    + intros a' Ha' ?. rewrite lookup_insert_ne; [done|]. congruence.
    + intros c'. rewrite delete_take_drop, elem_of_app. rewrite Hcs at 3. set_solver.
    + auto.
Qed.

Lemma list_delete_cell_spec ty a cs xs i c h :
  wf h → list_at h a ty cs xs → cs !! i = Some c →
  ∃ l' h', list_delete_cell a c (prev_cell cs i) h = Ok (l', h') ∧
    plist h' l' ty (delete i cs) (delete i xs) ∧
    evolves (Some a) cs l' (delete i cs) h h'.
Proof.
  intros W P Hci. pose proof (list_at_len _ _ _ _ _ P) as Hl. pose proof P as [Hh Hc Hnd _].
  pose proof (lookup_lt_Some _ _ _ Hci).
  unfold list_delete_cell. hstep. case_decide as H1.
  { destruct (list_free_spec ty (Some a) cs xs h W P) as (h' & E & He & _). hrun E.
    exists None, h'. split; [done|]. assert (i = 0) as -> by lia.
    destruct cs as [|? [|]], xs as [|? [|]]; simpl in *; try lia. done. }
  destruct (list_at_split _ _ _ _ _ _ _ P Hci) as (x & Hx & _ & _ & _ & Hm & _).
  assert (∃ h', (match prev_cell cs i with
      | Some p => set_next p (cs !! S i) | None => ret () end)
      (upd_list a (mkList ty (Z.of_nat (len xs) - 1)
        (match prev_cell cs i with Some _ => hd_error cs | None => cs !! S i end) (last cs)) h) =
      Ok (tt, h') ∧ h' = mkHeap (match prev_cell cs i with
       | Some p => match cells h !! p with
                   | Some x => <[p := mkCell (data x) (cs !! S i)]> (cells h)
                   | None => cells h end
       | None => cells h end) (<[a := mkList ty (Z.of_nat (len xs) - 1)
        (match prev_cell cs i with Some _ => hd_error cs | None => cs !! S i end) (last cs)]>
         (lists h)) (brk h) ∧ (cells h' !! c) = cells h !! c) as (h1 & E & -> & Hc1).
  { destruct (prev_cell cs i) as [p|] eqn:Ep; [|by eexists].
    destruct i as [|j]; [done|]. cbn in Ep.
    destruct (chain_lookup _ _ _ _ _ _ _ Hc Ep) as (y & _ & Hp).
    erewrite set_next_ok by exact Hp. eexists. split; [done|]. rewrite Hp. split; [done|].
    cbn. rewrite lookup_insert_ne; [done|]. intros ->.
    pose proof (NoDup_lookup _ _ _ _ Hnd Ep Hci). lia. }
  do 2 hstep. hrun E. rewrite Hm in Hc1. cbn in Hc1. hstep.
  assert (match prev_cell cs i with Some _ => hd_error cs | None => cs !! S i end =
          match i with O => cs !! 1 | _ => hd_error cs end) as Hhd.
  { destruct i as [|j]; [done|]. cbn.
    destruct (lookup_lt_is_Some_2 cs j ltac:(lia)) as [p ->]. done. }
  rewrite Hhd. destruct (list_unlink_spec ty a cs xs i c h _ _ W P Hci ltac:(lia) eq_refl eq_refl)
    as [Hp He].
  destruct (decide (last cs = Some c)) as [Ht|Ht].
  - do 2 hstep. rewrite insert_insert_eq. by exists (Some a); eexists.
  - do 2 hstep. by exists (Some a); eexists.
Qed.

Lemma list_delete_first_spec ty l cs xs h :
  wf h → plist h l ty cs xs →
  ∃ l' h', list_delete_first l h = Ok (l', h') ∧
    plist h' l' ty (drop 1 cs) (drop 1 xs) ∧ evolves l cs l' (drop 1 cs) h h'.
Proof.
  intros W P. destruct l as [a|]; simpl in P.
  2:{ destruct P as [-> ->]. exists None, h. repeat split; auto; apply W. }
  unfold list_delete_first. hrun (list_head_ok h (Some a) _ _ _ P).
  destruct cs as [|c cs]; [by destruct P|]. cbn [hd_error]. rewrite bind_deref.
  destruct (list_delete_cell_spec ty a (c :: cs) xs 0 c h W P eq_refl) as (l' & h' & E & Hp & He).
  exists l', h'. destruct xs; done.
Qed.

(** Deleting the first element equal to [d]. *)
Definition delete_first_eq (eq : Z → Z → bool) (d : Z) (xs : list Z) : list Z :=
  match list_find (λ x, eq x d = true) xs with Some (i, _) => delete i xs | None => xs end.

Lemma list_delete_spec ty eq d l cs xs h :
  wf h → plist h l ty cs xs →
  ∃ l' cs' h', list_delete_gen eq l d h = Ok (l', h') ∧
    plist h' l' ty cs' (delete_first_eq eq d xs) ∧ evolves l cs l' cs' h h'.
Proof.
  intros W P. unfold list_delete_gen.
  match goal with |- context [foreach _ _ ?f] => set (body := f) end.
  destruct (foreach_ind (R := option loc)
    (λ i b h', h' = h ∧ b = prev_cell cs i ∧ (∀ j x, j < i → xs !! j = Some x → eq x d ≠ true))
    (λ r h', ∃ cs', plist h' (match r with inl _ => l | inr l' => l' end) ty cs'
        (delete_first_eq eq d xs) ∧
       evolves l cs (match r with inl _ => l | inr l' => l' end) cs' h h')
    l ty cs xs body None h P) as (r & h' & E & cs' & Hp & He).
  - intros i b h' (-> & _). by eapply plist_chain.
  - intros i c x b h' (-> & -> & Hno) Hci Hxi. subst body. cbn beta.
    destruct l as [a|]; [|destruct P; by subst]. simpl in P.
    destruct (list_at_split _ _ _ _ _ _ _ P Hci) as (y & ? & _ & _ & _ & Hm & _). simplify_eq.
    hrun (lfirst_ok _ _ _ Hm). cbn [data]. destruct (eq x d) eqn:Eq.
    + rewrite bind_deref.
      destruct (list_delete_cell_spec ty a cs xs i c h W P Hci) as (l' & h' & E & Hp & He).
      hrun E. do 2 eexists. split; [done|]. exists (delete i cs).
      assert (list_find (λ x, eq x d = true) xs = Some (i, x)) as Hf.
      { apply list_find_Some. repeat split; [done|done|]. intros j y ? ?. by eapply Hno. }
      unfold delete_first_eq. by rewrite Hf.
    + do 2 eexists. split; [done|]. cbn. split; [done|]. split; [by rewrite Hci|].
      intros j z Hj Hz. destruct (decide (j = i)) as [->|]; [congruence|].
      apply (Hno j z); [lia|done].
  - intros b h' (-> & -> & Hno). exists cs. split; [|by apply evolves_refl].
    unfold delete_first_eq. destruct (list_find _ xs) as [[i x]|] eqn:Hf; [|done].
    apply list_find_Some in Hf as (Hx & Heq & _). exfalso. eapply Hno; [|done|done].
    rewrite (plist_len _ _ _ _ _ P). by eapply lookup_lt_Some.
  - repeat split; try done. intros; lia.
  - hrun E. by eexists _, cs', h'.
Qed.

(** Inserting a cell behind [prev]. *)
Lemma lappend_cell_spec ty a cs xs i prev x h :
  wf h → list_at h a ty cs xs → cs !! i = Some prev →
  ∃ c h', lappend_cell a prev x h = Ok (c, h') ∧
    list_at h' a ty (take (S i) cs ++ c :: drop (S i) cs) (take (S i) xs ++ x :: drop (S i) xs) ∧
    evolves (Some a) cs (Some a) (take (S i) cs ++ c :: drop (S i) cs) h h'.
Proof.
  intros W P Hci. pose proof (list_at_len _ _ _ _ _ P) as Hl. pose proof P as [Hh Hc Hnd Hne].
  destruct (list_at_split _ _ _ _ _ _ _ P Hci)
    as (y & Hy & Hcs & Hxs & Hc1 & Hm & Hc2 & Hnd1 & Hnc & Hnd2 & Hnc2 & Hdis).
  assert (∀ c, c ∈ cs → (c < brk h)%positive) as Hlt.
  { intros c ?. apply W. by apply (chain_alloc _ _ _ _ _ _ Hc). }
  assert (prev < brk h)%positive by (apply W; by eexists).
  assert ((brk h ∉ take (S i) cs) ∧ (brk h ∉ drop (S i) cs)) as [Hb1 Hb2].
  { split; intros Hin; assert (brk h ∈ cs) as ?%Hlt by
      (rewrite <- (take_drop (S i) cs); apply elem_of_app; auto); lia. }
  rewrite (take_S_r _ _ _ Hci), (take_S_r _ _ _ Hy) in *.
  unfold lappend_cell, add_new_cell. exists (brk h). eexists. split; [|split].
  - hsteps. apply ret_ok.
  - split; cbn.
    + rewrite lookup_insert_eq. f_equal. f_equal.
      * rewrite !length_app, !length_take. cbn. rewrite length_drop. apply lookup_lt_Some in Hci. lia.
      * destruct cs; [done|]. by destruct i.
      * rewrite <- (take_S_r _ _ _ Hci), last_app_cons.
        assert (last cs = last (prev :: drop (S i) cs)) as Hlc by by rewrite Hcs at 1; rewrite last_app_cons.
        rewrite Hlc. destruct (drop (S i) cs) as [|d ds] eqn:Ed; [by rewrite decide_True|].
        rewrite !last_cons_cons. rewrite decide_False; [done|]. intros Ht.
        apply last_Some in Ht as [? Ht]. destruct Hnc2. rewrite Ht. apply elem_of_app. right. left.
    + replace (hd_error _) with (hd_error cs) by (destruct cs; [done|]; by destruct i).
      eapply chain_join; [eapply chain_join|].
      * repeat apply chain_insert; done || set_solver.
      * cbn. split; [done|]. eexists. rewrite lookup_insert_ne by lia.
        by rewrite lookup_insert_eq.
      * cbn. split; [done|]. eexists. rewrite lookup_insert_eq. split; [done|].
        repeat apply chain_insert; done.
    + rewrite <- (take_S_r _ _ _ Hci) in *. rewrite <- (take_drop (S i) cs) in Hnd.
      apply NoDup_app in Hnd as (? & ? & ?). apply NoDup_app. split; [done|]. split.
      * intros c Hin [->|?]%elem_of_cons; [done|]. set_solver.
      * by constructor.
    + by destruct (take i cs).
  - apply evolves_intro; cbn; [done|solve_wf|..].
    + intros c Hc' ?. by rewrite !lookup_insert_ne by (lia || (intros <-; apply Hc'; by eapply list_elem_of_lookup_2)).
    + intros a' Ha' ?. rewrite lookup_insert_ne; [done|]. congruence.
    + intros c. rewrite <- (take_S_r _ _ _ Hci). rewrite <- (take_drop (S i) cs) at 3.
      rewrite !elem_of_app, elem_of_cons. naive_solver.
    + auto.
Qed.

End cutting.

(** ** Copies and set operations *)

Section copying.
Implicit Types (h : heap) (a : loc) (l : option loc) (ty : NodeTag) (cs : list loc) (xs : list Z).

Lemma copy_cells_ok h prev d q cur cs xs fuel :
  wf h → cells h !! prev = Some (mkCell d q) → chain (cells h) cur cs xs None → prev ∉ cs →
  len cs ≤ fuel →
  ∃ ncs t q' h', copy_cells fuel prev cur h = Ok (t, h') ∧ wf h' ∧ lists h' = lists h ∧
    last (prev :: ncs) = Some t ∧ chain (cells h') (Some prev) (prev :: ncs) (d :: xs) q' ∧
    NoDup (prev :: ncs) ∧ (∀ c, c ∈ ncs → (brk h ≤ c)%positive) ∧ (brk h ≤ brk h')%positive ∧
    (∀ c, (c < brk h)%positive → c ≠ prev → cells h' !! c = cells h !! c).
Proof.
  revert h prev d q cur xs fuel.
  induction cs as [|c cs IH]; intros h prev d q cur [|x xs] fuel W Hp Hc Hnp Hf; try done.
  - simpl in Hc. subst cur. exists [], prev, q, h.
    split; [by destruct fuel|]. do 3 (split; [done|]). split; [cbn; eauto|].
    split; [apply NoDup_singleton|]. split; [set_solver|]. done.
  - destruct Hc as [-> (n & Hn & Hc)]. destruct fuel as [|fuel]; simpl in Hf; [lia|].
    apply not_elem_of_cons in Hnp as [Hpc Hnp].
    assert (c < brk h)%positive by (apply W; by eexists).
    assert (prev < brk h)%positive by (apply W; by eexists).
    assert (∀ c', c' ∈ cs → (c' < brk h)%positive) as Hlt.
    { intros c' ?. apply W. by eapply chain_alloc. }
    cbn [copy_cells]. do 5 hstep.
    match goal with |- context [copy_cells _ _ _ ?hh] => set (h1 := hh) end.
    destruct (IH h1 (brk h) x None n xs fuel) as
      (ncs & t & q' & h' & E & W' & HL & Ht & Hch & Hnd & Hge & Hb & Hsame).
    + subst h1. solve_wf.
    + cbn. rewrite lookup_insert_ne by lia. by rewrite lookup_insert_eq.
    + cbn. repeat (apply chain_insert; [first [done | intros ?%Hlt; lia]|]). done.
    + intros ?%Hlt. lia.
    + lia.
    + exists (brk h :: ncs), t, q', h'. cbn in Hb, Hge, Hsame.
      split; [done|]. split; [done|]. split; [done|]. split; [done|]. split; [|split; [|split; [|split]]].
      * split; [done|]. exists (Some (brk h)). split; [|done]. rewrite Hsame by lia.
        cbn. by rewrite lookup_insert_eq.
      * constructor; [|done]. intros [?|Hin%Hge]%elem_of_cons; lia.
      * intros c' [->|Hin%Hge]%elem_of_cons; lia.
      * lia.
      * intros c' ? ?. rewrite Hsame by lia. cbn. by rewrite !lookup_insert_ne by lia.
Qed.

(** The end of a copy: the chain of new cells is closed and the header completed. *)
Lemma finish_copy ty h h3 xs ncs t q' :
  wf h → wf h3 → (Pos.succ (Pos.succ (brk h)) ≤ brk h3)%positive →
  lists h3 = <[Pos.succ (brk h) := mkList ty (Z.of_nat (len xs)) (Some (brk h)) (Some (brk h))]> (lists h) →
  chain (cells h3) (Some (brk h)) (brk h :: ncs) xs q' → NoDup (brk h :: ncs) → last (brk h :: ncs) = Some t →
  (∀ c, c ∈ ncs → (Pos.succ (Pos.succ (brk h)) ≤ c)%positive) →
  (∀ c, (c < brk h)%positive → cells h3 !! c = cells h !! c) →
  ∃ h', (set_next t None;;
         v' ← get_list (Pos.succ (brk h));
         put_list (Pos.succ (brk h)) (mkList (type v') (length v') (head v') (Some t));;
         ret (Some (Pos.succ (brk h)))) h3 = Ok (Some (Pos.succ (brk h)), h') ∧
    list_at h' (Pos.succ (brk h)) ty (brk h :: ncs) xs ∧
    evolves None [] (Some (Pos.succ (brk h))) (brk h :: ncs) h h'.
Proof.
  intros W W3 Hb HL Hch Hnd Ht Hge Hsame. destruct (chain_relink _ _ _ _ _ _ Hch Hnd Ht) as (y & Hy & Hre).
  erewrite bind_ok by (eapply set_next_ok; exact Hy). cbn [data].
  erewrite bind_ok by (eapply get_list_ok; cbn; rewrite HL; apply lookup_insert_eq).
  erewrite bind_ok by (eapply put_list_ok; cbn; rewrite HL; apply lookup_insert_eq).
  cbn [type length head]. eexists. split; [done|].
  assert (t = brk h ∨ (Pos.succ (Pos.succ (brk h)) ≤ t)%positive) as Htge.
  { destruct ncs as [|n0 ncs]; [left; naive_solver|right]. apply Hge.
    rewrite last_cons_cons in Ht. apply last_Some in Ht as [? ->]. apply elem_of_app. right. left. }
  split.
  - split; cbn; [by rewrite lookup_insert_eq, <- Ht|apply Hre|done|done].
  - apply evolves_intro; cbn; [done|..].
    + split; cbn.
      * intros c'. rewrite lookup_insert_is_Some'. intros [<-|?]; [|by apply W3]. apply W3. by eexists.
      * intros c'. rewrite lookup_insert_is_Some'. intros [<-|?]; [|by apply (wf_lists _ W3)].
        apply (wf_lists _ W3). rewrite HL, lookup_insert_eq. by eexists.
    + intros c' _ ?. rewrite lookup_insert_ne by lia. by apply Hsame.
    + intros a' _ ?. rewrite lookup_insert_ne by lia. rewrite HL. by rewrite !lookup_insert_ne by lia.
    + intros c' [->|Hin%Hge]%elem_of_cons; right; lia.
    + intros a' [= <-]. right. lia.
Qed.

(** The copy is a new list; nothing of the old heap changes. *)
Lemma list_copy_tail_spec ty a cs xs n h :
  wf h → list_at h a ty cs xs → n < len xs →
  ∃ a' cs' h', list_copy_tail (Some a) (Z.of_nat n) h = Ok (Some a', h') ∧
    list_at h' a' ty cs' (drop n xs) ∧ evolves None [] (Some a') cs' h h'.
Proof.
  intros W P Hn. pose proof (list_at_len _ _ _ _ _ P) as Hl. pose proof P as [Hh Hc Hnd Hne].
  pose proof (wf_fresh_cell _ W). pose proof (wf_fresh_list _ W).
  destruct (lookup_lt_is_Some_2 cs n ltac:(lia)) as [c Hcn].
  destruct (list_at_split _ _ _ _ _ _ _ P Hcn)
    as (x & Hx & Hcs & Hxs & Hc1 & Hm & Hc2 & Hnd1 & Hnc & Hnd2 & Hnc2 & Hdis).
  assert (a < brk h)%positive by (apply (wf_lists _ W); by eexists).
  assert (∀ c', c' ∈ cs → (c' < brk h)%positive) as Hlt.
  { intros c' ?. apply W. by apply (chain_alloc _ _ _ _ _ _ Hc). }
  assert (c < brk h)%positive by (apply Hlt; by eapply list_elem_of_lookup_2).
  unfold list_copy_tail, new_list. rewrite decide_False by lia. hstep.
  rewrite decide_False by lia. hsteps.
  destruct cs as [|c0 cs']; [done|]. cbn [hd_error]. hstep. rewrite Nat2Z.id.
  match goal with |- context [bind _ _ ?hh] => set (h1 := hh) end.
  assert (∀ c', c' ∈ c0 :: cs' → cells h1 !! c' = cells h !! c') as Hold.
  { intros c' ?%Hlt. subst h1. cbn. by rewrite lookup_insert_ne by lia. }
  assert (walk n c0 h1 = Ok (c, h1)) as Hw.
  { apply (walk_ok h1 (Some c0) (c0 :: cs') xs None n 0); [|done|by rewrite Nat.add_0_r].
    eapply chain_ext; [|exact Hc]. done. }
  hrun Hw. assert (cells h1 !! c = Some (mkCell x ((c0 :: cs') !! S n))) as Hm1.
  { rewrite Hold; [done|]. by eapply list_elem_of_lookup_2. }
  hrun (lfirst_ok _ _ _ Hm1). rewrite bind_deref. cbn [data].
  erewrite bind_ok by (eapply set_data_ok; subst h1; cbn; apply lookup_insert_eq).
  erewrite bind_ok by (eapply lnext_ok; cbn; rewrite lookup_insert_ne by lia; exact Hm1).
  cbn [next]. match goal with |- context [bind _ _ ?hh] => set (h2 := hh) end.
  destruct (copy_cells_ok h2 (brk h) x None ((c0 :: cs') !! S n) (drop (S n) (c0 :: cs'))
    (drop (S n) xs) (loop_fuel h)) as
    (ncs & t & q' & h3 & E & W3 & HL & Ht & Hch & Hnd3 & Hge & Hb & Hsame).
  { subst h2 h1. solve_wf. }
  { cbn. apply lookup_insert_eq. }
  { eapply chain_ext; [|exact Hc2]. intros c' Hin. assert (c' ∈ c0 :: cs') by by eapply (subseteq_drop (S n)).
    assert (c' < brk h)%positive by auto. cbn. rewrite lookup_insert_ne by lia. by apply Hold. }
  { intros Hin. assert (brk h ∈ c0 :: cs') as ?%Hlt by by eapply (subseteq_drop (S n)). lia. }
  { pose proof (list_at_fuel _ _ _ _ _ P). rewrite length_drop. lia. }
  hrun E. assert (drop n xs = x :: drop (S n) xs) as Hdrop by by apply drop_S. cbn in Hb, Hge, Hsame.
  destruct (finish_copy ty h h3 (drop n xs) ncs t q') as (h' & E' & Hl' & He'); try done.
  { rewrite HL. subst h2 h1. cbn. rewrite insert_insert_eq, length_drop.
    by replace (Z.of_nat (len xs - n)) with (Z.of_nat (len xs) - Z.of_nat n)%Z by lia. }
  { by rewrite Hdrop. }
  { intros c' ?. rewrite Hsame by lia. subst h1. cbn. by rewrite !lookup_insert_ne by lia. }
  by exists (Pos.succ (brk h)), (brk h :: ncs), h'.
Qed.

Lemma list_copy_spec ty l cs xs h :
  wf h → plist h l ty cs xs →
  ∃ l' cs' h', list_copy l h = Ok (l', h') ∧ plist h' l' ty cs' xs ∧ evolves None [] l' cs' h h'.
Proof.
  intros W P. destruct l as [a|]; simpl in P.
  2:{ destruct P as [-> ->]. exists None, [], h. repeat split; auto; apply W. }
  pose proof (list_at_pos _ _ _ _ _ P).
  destruct (list_copy_tail_spec ty a cs xs 0 h W P ltac:(lia)) as (a' & cs' & h' & E & Hp & He).
  exists (Some a'), cs', h'. split; [|by rewrite drop_0 in Hp]. rewrite <- E.
  unfold list_copy, list_copy_tail. change (Z.of_nat 0) with 0%Z.
  rewrite (decide_False (P := (0 < 0)%Z)) by lia. destruct P as [Hh _ _ _]. hstep. symmetry. hstep.
  rewrite decide_False by lia. by rewrite Z.sub_0_r.
Qed.

(** Appending what is not there yet. *)
Definition add_unique (eq : Z → Z → bool) (xs : list Z) (x : Z) : list Z :=
  if existsb (λ y, eq y x) xs then xs else xs ++ [x].

Lemma list_append_unique_spec ty eq l cs xs x h :
  wf h → plist h l ty cs xs →
  ∃ l' cs' h', list_append_unique_gen ty eq l x h = Ok (l', h') ∧
    plist h' l' ty cs' (add_unique eq xs x) ∧ evolves l cs l' cs' h h'.
Proof.
  intros W P. unfold list_append_unique_gen, add_unique. hrun (list_member_ok eq _ _ _ _ _ _ P).
  destruct (existsb _ xs).
  - exists l, cs, h. auto using evolves_refl.
  - destruct (lappend_gen_spec ty l cs xs x h W P) as (a & cs' & h' & ? & ? & ?).
    by exists (Some a), cs', h'.
Qed.

(** The loop of [list_union] and [list_concat_unique]. *)
Lemma unique_loop_spec ty ty2 eq l1 cs1 xs1 l2 cs2 xs2 h :
  wf h → plist h l1 ty cs1 xs1 → plist h l2 ty2 cs2 xs2 → apart l1 cs1 l2 cs2 →
  ∃ l' cs' h',
    foreach (R := unit) l2 l1 (λ cell l,
        x ← lfirst cell; m ← list_member_gen eq l x;
        if m then ret (Next l) else l' ← lappend_gen ty l x; ret (Next l')) h
      = Ok (inl l', h') ∧
    plist h' l' ty cs' (foldl (add_unique eq) xs1 xs2) ∧ evolves l1 cs1 l' cs' h h'.
Proof.
  intros W P1 P2 A. match goal with |- context [foreach _ _ ?f] => set (body := f) end.
  destruct (foreach_ind (λ i b h', ∃ cs', plist h' b ty cs' (foldl (add_unique eq) xs1 (take i xs2)) ∧
      plist h' l2 ty2 cs2 xs2 ∧ apart b cs' l2 cs2 ∧ evolves l1 cs1 b cs' h h')
    (λ r h', ∃ l' cs', r = inl l' ∧ plist h' l' ty cs' (foldl (add_unique eq) xs1 xs2) ∧
      evolves l1 cs1 l' cs' h h')
    l2 ty2 cs2 xs2 body l1 h P2) as (r & h' & E & l' & cs' & -> & Hp & He).
  - intros i b h' (cs' & _ & Hp2 & _). by eapply plist_chain.
  - intros i c x b h' (cs' & Hp & Hp2 & Ha & He) Hci Hxi. subst body. cbn beta.
    destruct (chain_lookup _ _ _ _ _ _ _ (plist_chain _ _ _ _ _ Hp2) Hci) as (y & ? & Hm). simplify_eq.
    hrun (lfirst_ok _ _ _ Hm). cbn [data].
    rewrite (take_S_r _ _ _ Hxi), foldl_snoc.
    destruct (list_append_unique_spec ty eq b cs' _ x h' (ev_wf _ _ _ _ _ _ He) Hp)
      as (l' & cs'' & h'' & E & Hp' & He').
    unfold list_append_unique_gen in E. exists (Next l'), h''.
    destruct (evolves_frame _ _ _ _ _ _ _ _ _ _ He' Hp2 Ha) as [? ?].
    split; [|exists cs''; eauto using evolves_trans].
    apply bind_inv in E as (m & h1 & Em & E). hrun Em. destruct m.
    + unfold ret in *. by simplify_eq.
    + by hrun E.
  - intros b h' (cs' & Hp & _ & _ & He). exists b, cs'.
    rewrite take_ge in Hp by (rewrite (plist_len _ _ _ _ _ P2); lia). done.
  - exists cs1. rewrite take_0. auto using evolves_refl.
  - by exists l', cs', h'.
Qed.

Lemma list_concat_unique_spec ty ty2 eq l1 cs1 xs1 l2 cs2 xs2 h :
  wf h → plist h l1 ty cs1 xs1 → plist h l2 ty2 cs2 xs2 → apart l1 cs1 l2 cs2 →
  ∃ l' cs' h', list_concat_unique_gen ty eq l1 l2 h = Ok (l', h') ∧
    plist h' l' ty cs' (foldl (add_unique eq) xs1 xs2) ∧ evolves l1 cs1 l' cs' h h'.
Proof.
  intros W P1 P2 A.
  destruct (unique_loop_spec ty ty2 eq _ _ _ _ _ _ _ W P1 P2 A) as (l' & cs' & h' & E & ? & ?).
  exists l', cs', h'. unfold list_concat_unique_gen. by hrun E.
Qed.

Lemma list_union_spec ty ty2 eq l1 cs1 xs1 l2 cs2 xs2 h :
  wf h → plist h l1 ty cs1 xs1 → plist h l2 ty2 cs2 xs2 →
  ∃ l' cs' h', list_union_gen ty eq l1 l2 h = Ok (l', h') ∧
    plist h' l' ty cs' (foldl (add_unique eq) xs1 xs2) ∧ evolves None [] l' cs' h h'.
Proof.
  intros W P1 P2. unfold list_union_gen.
  destruct (list_copy_spec ty l1 cs1 xs1 h W P1) as (l' & cs' & h' & E & Hp & He). hrun E.
  destruct (evolves_frame _ _ _ _ _ _ _ _ _ _ He P2 (apart_nil _ _)) as [P2' A].
  destruct (unique_loop_spec ty ty2 eq _ _ _ _ _ _ _ (ev_wf _ _ _ _ _ _ He) Hp P2' A)
    as (l'' & cs'' & h'' & E' & ? & ?). hrun E'.
  exists l'', cs'', h''. eauto using evolves_trans.
Qed.

Lemma list_difference_spec ty ty2 eq l1 cs1 xs1 l2 cs2 xs2 h :
  wf h → plist h l1 ty cs1 xs1 → plist h l2 ty2 cs2 xs2 →
  ∃ l' cs' h', list_difference_gen ty eq l1 l2 h = Ok (l', h') ∧
    plist h' l' ty cs' (List.filter (λ x, negb (existsb (λ y, eq y x) xs2)) xs1) ∧
    evolves None [] l' cs' h h'.
Proof.
  intros W P1 P2. unfold list_difference_gen. destruct l2 as [a2|].
  2:{ destruct P2 as [-> ->]. cbn. replace (List.filter _ xs1) with xs1; [by eapply list_copy_spec|].
      clear. induction xs1; cbn; congruence. }
  set (f := List.filter _). match goal with |- context [foreach _ _ ?g] => set (body := g) end.
  destruct (foreach_ind (R := unit) (λ i b h', ∃ cs', plist h' b ty cs' (f (take i xs1)) ∧ evolves None [] b cs' h h')
    (λ r h', ∃ l' cs', r = inl l' ∧ plist h' l' ty cs' (f xs1) ∧ evolves None [] l' cs' h h')
    l1 ty cs1 xs1 body NIL h P1) as (r & h' & E & l' & cs' & -> & Hp & He).
  - intros i b h' (cs' & _ & He).
    destruct (evolves_frame _ _ _ _ _ _ _ _ _ _ He P1 (apart_nil _ _)). by eapply plist_chain.
  - intros i c x b h' (cs' & Hp & He) Hci Hxi. subst body. cbn beta.
    destruct (evolves_frame _ _ _ _ _ _ _ _ _ _ He P1 (apart_nil _ _)) as [P1' _].
    destruct (evolves_frame _ _ _ _ _ _ _ _ _ _ He P2 (apart_nil _ _)) as [P2' _].
    destruct (chain_lookup _ _ _ _ _ _ _ (plist_chain _ _ _ _ _ P1') Hci) as (y & ? & Hm). simplify_eq.
    hrun (lfirst_ok _ _ _ Hm). cbn [data]. hrun (list_member_ok eq _ _ _ _ _ x P2').
    rewrite (take_S_r _ _ _ Hxi). subst f. cbn beta. rewrite List.filter_app. cbn [List.filter].
    destruct (existsb _ xs2); cbn [negb].
    + do 2 eexists. split; [done|]. exists cs'. by rewrite app_nil_r.
    + destruct (lappend_gen_spec ty b cs' _ x h' (ev_wf _ _ _ _ _ _ He) Hp)
        as (l' & cs'' & h'' & E & ? & ?). hrun E.
      do 2 eexists. split; [done|]. exists cs''. eauto using evolves_trans.
  - intros b h' (cs' & Hp & He). exists b, cs'.
    rewrite take_ge in Hp by (rewrite (plist_len _ _ _ _ _ P1); lia). done.
  - exists []. rewrite take_0. split; [done|]. by apply evolves_refl.
  - hrun E. by exists l', cs', h'.
Qed.

End copying.

(** ** Sample heaps *)

(** A heap with the list [x; y; z] at address 10 and the list [u; v] at address 11. *)
Definition sample (ty : NodeTag) (x y z u v : Z) : heap :=
  (mkHeap (list_to_map [(1, mkCell x (Some 2)); (2, mkCell y (Some 3)); (3, mkCell z None);
                        (4, mkCell u (Some 5)); (5, mkCell v None)])
          (list_to_map [(10, mkList ty 3 (Some 1) (Some 3)); (11, mkList ty 2 (Some 4) (Some 5))])
          20)%positive.

Section samples.
Context (ty : NodeTag) (x y z u v : Z).

Lemma sample_wf : wf (sample ty x y z u v).
Proof.
  split; intros c [w Hw]; cbn in Hw |- *;
    repeat (apply lookup_insert_Some in Hw as [[<- _]|[_ Hw]]; [lia|]);
    by rewrite lookup_empty in Hw.
Qed.

Lemma sample_list1 : list_at (sample ty x y z u v) 10 ty [1; 2; 3]%positive [x; y; z].
Proof.
  split; [done| |by apply (bool_decide_unpack _)|done].
  cbn. do 3 (split; [done|eexists; split; [done|]]). done.
Qed.

Lemma sample_list2 : list_at (sample ty x y z u v) 11 ty [4; 5]%positive [u; v].
Proof.
  split; [done| |by apply (bool_decide_unpack _)|done].
  cbn. do 2 (split; [done|eexists; split; [done|]]). done.
Qed.

Lemma sample_apart : apart (Some 10%positive) [1; 2; 3]%positive (Some 11%positive) [4; 5]%positive.
Proof. split; [set_solver|naive_solver]. Qed.

End samples.

End PgListFacts.
