(* ===== verification/ProvStack.v ===== *)
(** * List and stack helpers of the provenance rewriter
      ([src/src/backend/provrewrite/util/prov_stack.c])

    The rewriter keeps its bookkeeping (the provenance attribute stack
    [pStack], position lists, rewrite-method names) in PostgreSQL lists that
    prov_stack.c edits cell by cell.  The operations are modelled on the heap of
    [PgList]; a C function that takes [List **list] returns the new list
    pointer beside its result. *)

From Stdlib Require Import ZArith Lia.
From stdpp Require Import base gmap strings pretty numbers list.
From S2P Require Import Prelude PgList.
Import PgList.

Module ProvStack.

(** ** Unique names *)

(** [curUniqueAttrNum], [curUniqueRelNum] *)
Record name_gens := mkGens { curUniqueAttrNum : Z; curUniqueRelNum : Z }.

Definition resetUniqueNameGens : name_gens := mkGens 1 1.

(** Append the decimal digits of [*id] and increment it. *)
Definition appendIdToString (s : string) (id : Z) : string * Z :=
  (s +:+ pretty id, wrap_s 32 (id + 1)).

(** ** Searching *)

(** The position of the first element satisfying a test, -1 if there is none:
    the loop of [listPositionInt] and [listPositionExprTargetList]. *)
Definition position_loop (test : Z → bool) (l : option loc) : M heap Z :=
  r ← foreach l 0%Z (λ cell count,
        x ← lfirst cell;
        ret (if test x then Return count else Next (count + 1)%Z));
  ret (match r with inl _ => (-1)%Z | inr count => count end).

Definition listPositionInt (l : option loc) (datum : Z) : M heap Z :=
  position_loop (λ x, Z.eqb x datum) l.

(** [equal_expr te node] is [equal(te->expr, node)]. *)
Definition listPositionExprTargetList (equal_expr : Z → Z → bool) (l : option loc) (node : Z)
    : M heap Z :=
  position_loop (λ te, equal_expr te node) l.

(** Starts at [list->head], so the list must not be [NIL]. *)
Definition nodePositionInList (equal : Z → Z → bool) (l : option loc) (node : Z) : M heap Z :=
  a ← deref l;
  v ← get_list a;
  r ← for_each_cell (head v) 0%Z (λ cell position,
        check ← lfirst cell;
        ret (if equal node check then Return position else Next (position + 1)%Z));
  ret (match r with inl _ => (-1)%Z | inr position => position end).

Definition nodeInList (equal : Z → Z → bool) (l : option loc) (node : Z) : M heap bool :=
  p ← nodePositionInList equal l node; ret (negb (Z.eqb p (-1))).

Definition list_overlap (equal : Z → Z → bool) (left right : option loc) : M heap bool :=
  r ← foreach left () (λ lc _,
        leftElem ← lfirst lc;
        r' ← foreach right () (λ innerLc _,
               rightElem ← lfirst innerLc;
               ret (if equal leftElem rightElem then Return true else Next ()));
        ret (match r' with inl _ => Next () | inr b => Return b end));
  ret (match r with inl _ => false | inr b => b end).

(** The first element satisfying [predicate], [NULL] (0) if there is none. *)
Definition getFirstNodeForPred (predicate : Z → bool) (l : option loc) : M heap Z :=
  r ← foreach l () (λ lc _,
        elem ← lfirst lc;
        ret (if predicate elem then Return elem else Next ()));
  ret (match r with inl _ => 0%Z | inr elem => elem end).

(** ** Stack operations *)

Definition push (l : option loc) (newElem : Z) : M heap (option loc) := lcons newElem l.

Definition pop (l : option loc) : M heap (Z * option loc) :=
  firstElem ← linitial l;
  l' ← list_delete_first l;
  ret (firstElem, l').

(** [for (i = 0; i < numElem; i++) result = lcons(list_nth(stack, i), result);] *)
Fixpoint getList_loop (stack : option loc) (n : nat) (i : Z) (result : option loc)
    : M heap (option loc) :=
  match n with
  | O => ret result
  | S n =>
      x ← list_nth stack i;
      result' ← lcons x result;
      getList_loop stack n (i + 1) result'
  end.

Definition getListAndReverse (stack : option loc) (numElem : Z) : M heap (option loc) :=
  getList_loop stack (Z.to_nat numElem) 0 NIL.

Definition getAllUntil (stack : option loc) (stopElem : Z) : M heap (option loc) :=
  n ← list_length stack; getListAndReverse stack (n - stopElem).

(** [for (i = 0; i < numElem; i++) result = lcons(pop(stack), result);] *)
Fixpoint popList_loop (n : nat) (stack result : option loc) : M heap (option loc * option loc) :=
  match n with
  | O => ret (result, stack)
  | S n =>
      '(x, stack') ← pop stack;
      result' ← lcons x result;
      popList_loop n stack' result'
  end.

Definition popListAndReverse (stack : option loc) (numElem : Z)
    : M heap (option loc * option loc) :=
  popList_loop (Z.to_nat numElem) stack NIL.

Definition popAllUntil (stack : option loc) (stopElem : Z) : M heap (option loc * option loc) :=
  n ← list_length stack; popListAndReverse stack (n - stopElem).

(** [for (lc = head; lc->next != NULL; lc = lc->next);] *)
Fixpoint last_cell (fuel : nat) (lc : loc) : M heap loc :=
  n ← lnext lc;
  match n with
  | None => ret lc
  | Some c => match fuel with O => throw Hang | S fuel => last_cell fuel c end
  end.

Definition deQueue (l : option loc) : M heap Z :=
  a ← deref l;
  v ← get_list a;
  t ← deref (tail v);
  lastElem ← lfirst t;
  hd ← deref (head v);
  fuel ← gets loop_fuel;
  lc ← last_cell fuel hd;
  put_list a (mkList (type v) (length v) (head v) (Some lc));;
  set_next lc None;;
  ret lastElem.

(** A word read as a pointer. *)
Definition ptr_of_word (w : Z) : option loc :=
  match w with Zpos p => Some p | _ => None end.

(** The cell returned for [n = 0] is the head's [data.ptr_value]. *)
Definition popNthCell (l : option loc) (n : Z) : M heap (option loc * option loc) :=
  a ← deref l;
  v ← get_list a;
  put_list a (mkList (type v) (length v - 1) (head v) (tail v));;
  lc ← deref (head v);
  if decide (n = 0)%Z then
    x ← get_cell lc;
    put_list a (mkList (type v) (length v - 1) (next x) (tail v));;
    ret (ptr_of_word (data x), if decide (length v - 1 = 0)%Z then NIL else Some a)
  else
    lc ← walk (Z.to_nat (n - 1)) lc;
    nx ← lnext lc;
    nth ← deref nx;
    y ← get_cell nth;
    set_next lc (next y);;
    (if decide (tail v = Some nth)
     then put_list a (mkList (type v) (length v - 1) (head v) (Some lc)) else ret ());;
    ret (Some nth, Some a).

(** [popNth] and [popNthInt] read the same union of the returned cell. *)
Definition popNth (l : option loc) (n : Z) : M heap (Z * option loc) :=
  '(lc, l') ← popNthCell l n;
  c ← deref lc;
  x ← lfirst c;
  ret (x, l').

(** ** Editing *)

Definition insert (l : option loc) (newElem : Z) (afterPos : Z) : M heap (option loc) :=
  a ← deref l;
  v ← get_list a;
  hd ← deref (head v);
  lc ← walk (Z.to_nat afterPos) hd;
  newCell ← palloc_cell;
  set_data newCell newElem;;
  n ← lnext lc;
  set_next newCell n;;
  set_next lc (Some newCell);;
  ret l.

Definition replaceNth (l : option loc) (newElem : Z) (pos : Z) : M heap unit :=
  a ← deref l;
  v ← get_list a;
  hd ← deref (head v);
  lc ← walk (Z.to_nat pos) hd;
  set_data lc newElem.

(** The inner loop of the bubble sorts: [n] comparisons of neighbours from [lc] on. *)
Fixpoint bubble_inner (swap : Z → Z → bool) (n : nat) (lc : option loc) : M heap unit :=
  match n with
  | O => ret ()
  | S n =>
      c ← deref lc;
      nx ← lnext c;
      d ← deref nx;
      x ← lfirst c;
      y ← lfirst d;
      (if swap x y then set_data c y;; set_data d x else ret ());;
      nx' ← lnext c;
      bubble_inner swap n nx'
  end.

Fixpoint sort_outer (swap : Z → Z → bool) (n : nat) (l : option loc) : M heap unit :=
  match n with
  | O => ret ()
  | S n =>
      a ← deref l;
      v ← get_list a;
      k ← list_length l;
      bubble_inner swap (Z.to_nat (k - 1)) (head v);;
      sort_outer swap n l
  end.

Definition sort_gen (swap : Z → Z → bool) (l : option loc) : M heap (option loc) :=
  k ← list_length l;
  sort_outer swap (Z.to_nat k) l;;
  ret l.

Definition sortIntList (l : option loc) (increasing : bool) : M heap (option loc) :=
  sort_gen (λ x y, if increasing then (x >? y)%Z else (x <? y)%Z) l.

Definition sortList (l : option loc) (compare : Z → Z → Z) (increasing : bool)
    : M heap (option loc) :=
  let factor := if increasing then 1%Z else (-1)%Z in
  sort_gen (λ x y, (compare x y * factor =? 1)%Z) l.

(** [compareVars], [compareTeOnRessortgroupref] and
    [compareCopyMapRelEntryOnRtindex]: three-way comparison of one field. *)
Definition compare_on (field : Z → Z) (l r : Z) : Z :=
  if (field l <? field r)%Z then (-1)%Z else if (field l >? field r)%Z then 1%Z else 0%Z.

(** The loop runs over [result], which is [NIL] at this point. *)
Definition reverseList (l : option loc) : M heap (option loc) :=
  r ← foreach (R := unit) NIL NIL (λ lc result,
        x ← lfirst lc; result' ← lcons x result; ret (Next result'));
  ret (match r with inl result => result | inr _ => NIL end).

(** [while (lc != NULL) { new = lc; lc = lc->next; new->next = last; last = new; }] *)
Fixpoint reverse_loop (fuel : nat) (lc : option loc) (last : loc) : M heap unit :=
  match lc with
  | None => ret ()
  | Some new =>
      match fuel with
      | O => throw Hang
      | S fuel => lc' ← lnext new; set_next new (Some last);; reverse_loop fuel lc' new
      end
  end.

Definition reverseCellsInPlace (l : option loc) : M heap unit :=
  a ← deref l;
  v ← get_list a;
  put_list a (mkList (type v) (length v) (tail v) (head v));;
  if decide (length v = 2)%Z then
    hd ← deref (tail v);
    tl ← deref (head v);
    set_next hd (Some tl);;
    set_next tl None
  else
    lc ← deref (head v);
    n ← lnext lc;
    fuel ← gets loop_fuel;
    reverse_loop fuel n lc;;
    set_next lc None.

Fixpoint dup_loop (n : nat) (elem : Z) (result : option loc) : M heap (option loc) :=
  match n with
  | O => ret result
  | S n => result' ← lappend result elem; dup_loop n elem result'
  end.

Definition generateDuplicatesList (elem : Z) (count : Z) : M heap (option loc) :=
  dup_loop (Z.to_nat count) elem NIL.

(** [while (numElems-- > 0) result = lcons_int(numElems + offset, result);] *)
Fixpoint firstInts_loop (numElems : nat) (offset : Z) (result : option loc) : M heap (option loc) :=
  match numElems with
  | O => ret result
  | S n => result' ← lcons_int (Z.of_nat n + offset) result; firstInts_loop n offset result'
  end.

Definition listNthFirstInts (numElems offset : Z) : M heap (option loc) :=
  firstInts_loop (Z.to_nat numElems) offset NIL.

(** ** Removing *)

(** Unlink the cell [lc] whose predecessor is [before]; neither the length nor the
    tail of the header changes. *)
Definition unlink (a : loc) (before : option loc) (lc : loc) : M heap unit :=
  n ← lnext lc;
  match before with
  | Some b => set_next b n
  | None => v ← get_list a; put_list a (mkList (type v) (length v) n (tail v))
  end.

(** Loop state of [removeElems]: [before], [i], [posLc]. *)
Definition removeElems (l pos : option loc) : M heap (option loc) :=
  k ← list_length pos;
  if decide (k = 0)%Z then ret l
  else
    pos' ← sortIntList pos false;
    pa ← deref pos';
    pv ← get_list pa;
    r ← foreach (R := unit) l (@None loc, 0%Z, head pv) (λ lc '(before, i, posLc),
          pc ← deref posLc;
          p ← lfirst pc;
          if decide (i = p)%Z then
            a ← deref l;
            unlink a before lc;;
            posLc' ← lnext pc;
            match posLc' with
            | Some _ => ret (Break (before, i, posLc'))
            | None => ret (Next (Some lc, (i + 1)%Z, posLc'))
            end
          else ret (Next (Some lc, (i + 1)%Z, posLc)));
    ret l.

(** [removeNodeElem] ([test] is [equal(node, _)]) and [removeNodeForPred] ([test]
    is [predicate(_, context)]). *)
Definition remove_first (test : Z → bool) (l : option loc) : M heap unit :=
  r ← foreach l (@None loc) (λ lc before,
        curNode ← lfirst lc;
        if test curNode then
          a ← deref l; unlink a before lc;; ret (Return ())
        else ret (Next (Some lc)));
  ret ().

Definition removeNodeElem (equal : Z → Z → bool) (l : option loc) (node : Z) : M heap unit :=
  remove_first (λ curNode, equal node curNode) l.

Definition removeNodeForPred (predicate : Z → bool) (l : option loc) : M heap unit :=
  remove_first predicate l.

Definition removeAfterPos (l : option loc) (pos : Z) : M heap unit :=
  r ← foreach l 0%Z (λ lc i,
        if decide (i = pos - 1)%Z then
          set_next lc None;;
          a ← deref l;
          v ← get_list a;
          put_list a (mkList (type v) pos (head v) (Some lc));;
          ret (Return ())
        else ret (Next (i + 1)%Z));
  ret ().

(** ** Position lists *)

Definition getAllInList (l elements : option loc) : M heap (option loc) :=
  r ← foreach (R := unit) elements NIL (λ lc result,
        element ← lfirst lc;
        x ← list_nth l element;
        result' ← lappend result x;
        ret (Next result'));
  ret (match r with inl result => result | inr _ => NIL end).

(** [copyObject] of an integer list is [list_copy]. *)
Definition popAllInList (stack elements : option loc) : M heap (option loc * option loc) :=
  result ← getAllInList stack elements;
  remove ← list_copy elements;
  remove ← sortIntList remove false;
  r ← foreach (R := unit) remove stack (λ lc stack,
        curElem ← lfirst lc;
        '(_, stack') ← popNth stack curElem;
        ret (Next stack'));
  ret (result, match r with inl stack' => stack' | inr _ => NIL end).

Definition popAllInListAndReverse (stack elements : option loc)
    : M heap (option loc * option loc) :=
  '(result, stack') ← popAllInList stack elements;
  r ← foreach (R := unit) result NIL (λ lc reversed,
        curElem ← lfirst lc;
        reversed' ← lcons curElem reversed;
        ret (Next reversed'));
  ret (match r with inl reversed => reversed | inr _ => NIL end, stack').

End ProvStack.
