(* ===== verification/ProvStackFacts.v ===== *)
(** * Specification of the list and stack helpers of the rewriter

    Functional behaviour of the operations of [ProvStack] against the sequence
    a list represents: the stack discipline of [push], [pop] and the bulk pops,
    the in-place sorts, reversal and truncation, searching; and the operations
    whose header bookkeeping does not match their documentation. *)

From Stdlib Require Import ZArith Lia Sorted.
From stdpp Require Import base gmap strings pretty numbers list.
From S2P Require Import Prelude BubbleSort PgList PgListFacts ProvStack.
Import BubbleSort PgList PgListFacts ProvStack.

Module ProvStackFacts.

(** ** Rewriting the contents of cells in place *)

Section in_place.
Implicit Types (h : heap) (a : loc) (l : option loc) (ty : NodeTag) (cs : list loc) (xs : list Z).

(** The heap [h'] differs from [h] only in the data of the cells [cs]: links,
    headers and the set of allocated cells are the same. *)
Record same_links cs h h' : Prop := {
  sl_lists : lists h' = lists h;
  sl_brk : brk h' = brk h;
  sl_next c : next <$> cells h' !! c = next <$> cells h !! c;
  sl_out c : c ∉ cs → cells h' !! c = cells h !! c }.

Lemma same_links_refl cs h : same_links cs h h.
Proof. by split. Qed.

Lemma same_links_trans cs h h1 h2 :
  same_links cs h h1 → same_links cs h1 h2 → same_links cs h h2.
Proof.
  intros [L1 B1 N1 O1] [L2 B2 N2 O2]. split; try congruence.
  intros c Hc. by rewrite O2, O1.
Qed.

Lemma same_links_mono cs cs' h h' :
  (∀ c, c ∈ cs → c ∈ cs') → same_links cs h h' → same_links cs' h h'.
Proof. intros Hs [L B N O]. split; auto. Qed.

Lemma same_links_upd cs h c x n d :
  c ∈ cs → cells h !! c = Some (mkCell x n) → same_links cs h (upd_cell c (mkCell d n) h).
Proof.
  intros Hin Hc. split; try done; cbn.
  - intros c'. destruct (decide (c' = c)) as [->|].
    + by rewrite lookup_insert_eq, Hc.
    + by rewrite lookup_insert_ne.
  - intros c' ?. rewrite lookup_insert_ne; [done|]. by intros ->.
Qed.

Lemma same_links_wf cs h h' : same_links cs h h' → wf h → wf h'.
Proof.
  intros [L B N O] [W1 W2]. split.
  - intros c Hc. rewrite B. apply W1. specialize (N c). destruct Hc as [? E]. rewrite E in N.
    destruct (cells h !! c); [by eexists|done].
  - rewrite L, B. apply W2.
Qed.

Lemma same_links_evolves l cs h h' : wf h → same_links cs h h' → evolves l cs l cs h h'.
Proof.
  intros W S. pose proof (same_links_wf _ _ _ S W). destruct S as [L B N O].
  split; auto. by rewrite L.
Qed.

(** A chain whose cells keep their links and hold new data. *)
Lemma chain_new_data h h' p cs xs ys q :
  chain (cells h) p cs xs q → same_links cs h h' → len ys = len cs →
  (∀ i c, cs !! i = Some c → data <$> cells h' !! c = ys !! i) →
  chain (cells h') p cs ys q.
Proof.
  intros Hc [_ _ Hn _]. revert p xs ys Hc.
  induction cs as [|c cs IH]; intros p [|x xs] [|y ys] Hc Hlen Hd; try done.
  destruct Hc as [-> (n & Hm & Hc)]. split; [done|]. exists n. split.
  - specialize (Hn c). specialize (Hd 0 c eq_refl). rewrite Hm in Hn. cbn in Hd.
    destruct (cells h' !! c) as [[]|]; cbn in *; [congruence|done].
  - eapply IH; [done|simpl in Hlen; lia|]. intros i c' Hi. by apply (Hd (S i)).
Qed.

Lemma list_at_same_links h h' a ty cs xs ys :
  list_at h a ty cs xs → same_links cs h h' →
  chain (cells h') (hd_error cs) cs ys None → list_at h' a ty cs ys.
Proof.
  intros [Hh Hc Hnd Hne] S Hc'. split; try done.
  rewrite (sl_lists _ _ _ S), Hh. do 3 f_equal.
  by rewrite <- (chain_len _ _ _ _ _ Hc), <- (chain_len _ _ _ _ _ Hc').
Qed.

(** Writing one element. *)
Lemma list_at_set_data h a ty cs xs i c d :
  list_at h a ty cs xs → cs !! i = Some c →
  ∃ h', set_data c d h = Ok (tt, h') ∧ list_at h' a ty cs (<[i := d]> xs) ∧ same_links cs h h'.
Proof.
  intros P Hi. pose proof (list_at_len _ _ _ _ _ P) as Hl. pose proof P as [_ Hc Hnd _].
  destruct (chain_lookup _ _ _ _ _ _ _ Hc Hi) as (x & Hx & Hm).
  erewrite set_data_ok by exact Hm. eexists. split; [done|]. cbn [next].
  assert (same_links cs h (upd_cell c (mkCell d (match cs !! S i with Some c' => Some c' | None => None end)) h)) as S.
  { eapply same_links_upd; [by eapply list_elem_of_lookup_2|exact Hm]. }
  split; [|done]. eapply list_at_same_links; [done|done|].
  eapply chain_new_data; [done|done|by rewrite length_insert|].
  intros j c' Hj. cbn. destruct (decide (i = j)) as [<-|Hne].
  - simplify_eq. rewrite lookup_insert_eq, list_lookup_insert_eq; [done|].
    rewrite <- Hl. by eapply lookup_lt_Some.
  - rewrite lookup_insert_ne; [|intros ->; by apply Hne, (NoDup_lookup _ _ _ _ Hnd Hi Hj)].
    rewrite list_lookup_insert_ne by done.
    destruct (chain_lookup _ _ _ _ _ _ _ Hc Hj) as (y & Hy & ->). by rewrite Hy.
Qed.

Lemma walk_list_at h a ty cs xs n :
  list_at h a ty cs xs → n < len xs →
  ∃ c0 c, hd_error cs = Some c0 ∧ cs !! n = Some c ∧ walk n c0 h = Ok (c, h).
Proof.
  intros P Hn. pose proof (list_at_len _ _ _ _ _ P) as Hl. destruct P as [_ Hc _ Hne].
  destruct cs as [|c0 cs]; [done|].
  destruct (lookup_lt_is_Some_2 (c0 :: cs) n ltac:(lia)) as [c Hcn]. exists c0, c.
  split; [done|]. split; [done|]. eapply (walk_ok _ _ _ _ _ _ 0); [done|done|by rewrite Nat.add_0_r].
Qed.

Lemma replaceNth_ok ty a cs xs i d h :
  list_at h a ty cs xs → i < len xs →
  ∃ h', replaceNth (Some a) d (Z.of_nat i) h = Ok (tt, h') ∧
    list_at h' a ty cs (<[i := d]> xs) ∧ same_links cs h h'.
Proof.
  intros P Hi. destruct (walk_list_at _ _ _ _ _ _ P Hi) as (c0 & c & H0 & Hci & Hw).
  destruct (list_at_set_data _ _ _ _ _ _ _ d P Hci) as (h' & E & Hp & S).
  exists h'. split; [|done]. unfold replaceNth. destruct P as [Hh _ _ _].
  rewrite bind_deref. hrun (get_list_ok _ _ _ Hh). cbn [head]. rewrite H0, bind_deref, Nat2Z.id.
  by hrun Hw.
Qed.

End in_place.

(** ** The bubble sorts *)

Section sorting.
Implicit Types (h : heap) (a : loc) (l : option loc) (ty : NodeTag) (cs : list loc) (xs : list Z).
Context (swap : Z → Z → bool).

(** One inner loop over a segment is one pass over its data. *)
Lemma bubble_inner_ok h c cs x r :
  chain (cells h) (Some c) (c :: cs) (x :: r) None → NoDup (c :: cs) →
  ∃ h', bubble_inner swap (len r) (Some c) h = Ok (tt, h') ∧
    chain (cells h') (Some c) (c :: cs) (carry swap x r) None ∧ same_links (c :: cs) h h'.
Proof.
  revert h c cs x. induction r as [|y r IH]; intros h c cs x Hc Hnd.
  - exists h. split; [done|]. split; [done|]. apply same_links_refl.
  - destruct Hc as [_ (n & Hm & Hc)]. destruct cs as [|d cs]; [done|].
    destruct Hc as [-> (n2 & Hmd & Hc)]. apply NoDup_cons in Hnd as [Hcn Hnd].
    assert (c ≠ d) by set_solver.
    cbn [bubble_inner len]. hsteps. cbn [carry].
    destruct (swap x y); hsteps.
    + match goal with |- context [bubble_inner _ _ _ ?hh] => set (h1 := hh) end.
      assert (same_links (c :: d :: cs) h h1) as S1.
      { eapply same_links_trans.
        - by eapply (same_links_upd _ h c x (Some d) y); [left|].
        - eapply same_links_upd; [right; left|]. cbn. by rewrite lookup_insert_ne. }
      destruct (IH h1 d cs x) as (h' & E & Hch & S2).
      { split; [done|]. exists n2. split; [cbn; apply lookup_insert_eq|].
        apply NoDup_cons in Hnd as [Hdn _]. cbn. repeat apply chain_insert; set_solver. }
      { done. }
      exists h'. split; [done|]. split.
      * split; [done|]. exists (Some d). split; [|done].
        rewrite (sl_out _ _ _ S2) by done. cbn. rewrite lookup_insert_ne by done. by rewrite lookup_insert_eq.
      * eapply same_links_trans; [done|]. eapply same_links_mono; [|done]. set_solver.
    + destruct (IH h d cs y) as (h' & E & Hch & S2).
      { split; [done|]. eauto. }
      { done. }
      exists h'. split; [done|]. split.
      * split; [done|]. exists (Some d). by rewrite (sl_out _ _ _ S2).
      * eapply same_links_mono; [|done]. set_solver.
Qed.

Lemma sort_outer_ok ty a cs xs n h :
  list_at h a ty cs xs →
  ∃ h', sort_outer swap n (Some a) h = Ok (tt, h') ∧
    list_at h' a ty cs (Nat.iter n (bubble_pass swap) xs) ∧ same_links cs h h'.
Proof.
  revert h xs. induction n as [|n IH]; intros h xs P.
  - exists h. split; [done|]. split; [done|]. apply same_links_refl.
  - pose proof P as [Hh Hc Hnd Hne]. destruct cs as [|c cs], xs as [|x r]; try done.
    destruct (bubble_inner_ok h c cs x r Hc Hnd) as (h1 & E1 & Hc1 & S1).
    destruct (IH h1 _ (list_at_same_links _ _ _ _ _ _ _ P S1 Hc1)) as (h' & E & P' & S').
    exists h'. split; [|split; [|by eapply same_links_trans]].
    + cbn [sort_outer]. rewrite bind_deref. hrun (get_list_ok _ _ _ Hh).
      hrun (list_length_ok h (Some a) _ _ _ P). cbn [head hd_error].
      replace (Z.to_nat _) with (len r) by (simpl; lia). by hrun E1.
    + rewrite Nat.iter_succ_r. done.
Qed.

Lemma sort_gen_ok ty l cs xs h :
  plist h l ty cs xs →
  ∃ h', sort_gen swap l h = Ok (l, h') ∧
    plist h' l ty cs (bubble_sort swap xs) ∧ same_links cs h h'.
Proof.
  intros P. unfold sort_gen. hrun (list_length_ok _ _ _ _ _ P). rewrite Nat2Z.id.
  destruct l as [a|]; cbn [plist] in *.
  - destruct (sort_outer_ok ty a cs xs (len xs) h P) as (h' & E & ? & ?). hrun E. by exists h'.
  - destruct P as [-> ->]. exists h. split; [done|]. split; [done|]. apply same_links_refl.
Qed.

End sorting.

(** ** Reversal in place *)

Section reversing.
Implicit Types (h : heap) (a : loc) (l : option loc) (ty : NodeTag) (cs : list loc) (xs : list Z).

(** Two heaps with the same headers and break that agree outside the cells [cs],
    which stay allocated. *)
Record same_outside cs h h' : Prop := {
  so_lists : lists h' = lists h;
  so_brk : brk h' = brk h;
  so_in c : c ∈ cs → is_Some (cells h' !! c);
  so_out c : c ∉ cs → cells h' !! c = cells h !! c }.

(** [rcs] are the cells already turned around, [cs] those still to do. *)
Lemma reverse_loop_ok h q lc last rcs rxs cs xs fuel :
  chain (cells h) (Some last) rcs rxs q → chain (cells h) lc cs xs None →
  NoDup (rcs ++ cs) → len cs ≤ fuel →
  ∃ h' p, reverse_loop fuel lc last h = Ok (tt, h') ∧
    chain (cells h') p (reverse cs ++ rcs) (reverse xs ++ rxs) q ∧ same_outside (rcs ++ cs) h h'.
Proof.
  revert h lc last rcs rxs xs fuel.
  induction cs as [|c cs IH]; intros h lc last rcs rxs [|x xs] fuel Hr Hc Hnd Hf; try done.
  - simpl in Hc. subst lc. exists h, (Some last). split; [by destruct fuel|]. split; [done|].
    split; try done. intros c. rewrite app_nil_r. by eapply chain_alloc.
  - destruct Hc as [-> (n & Hm & Hc)]. destruct fuel as [|fuel]; simpl in Hf; [lia|].
    apply NoDup_app in Hnd as (Hnd1 & Hdis & [Hcn Hnd2]%NoDup_cons).
    assert (c ∉ rcs) by (intros ?; by eapply Hdis; [|left]).
    cbn [reverse_loop]. hsteps. rewrite !reverse_cons, <- !(assoc_L (++)).
    destruct (IH (upd_cell c (mkCell x (Some last)) h) n c (c :: rcs) (x :: rxs) xs fuel)
      as (h' & p & E & Hc' & [L B A O]).
    + cbn. split; [done|]. eexists. rewrite lookup_insert_eq. split; [done|]. by apply chain_insert.
    + by apply chain_insert.
    + cbn. constructor; [set_solver|]. apply NoDup_app. repeat split; try done.
      intros c' ? ?. by eapply Hdis; [|right].
    + lia.
    + exists h', p. split; [done|]. split; [done|]. split; [done|done|..].
      * intros c' Hc2. apply A. set_solver.
      * intros c' Hc2. rewrite O by set_solver. cbn. rewrite lookup_insert_ne; set_solver.
Qed.

(** The header after the swap of head and tail, once the links are reversed. *)
Lemma reversed_list_at h h' a ty cs xs p :
  wf h → list_at h a ty cs xs →
  lists h' = <[a := mkList ty (Z.of_nat (len xs)) (last cs) (hd_error cs)]> (lists h) →
  brk h' = brk h → (∀ c, c ∈ cs → is_Some (cells h' !! c)) →
  (∀ c, c ∉ cs → cells h' !! c = cells h !! c) →
  chain (cells h') p (reverse cs) (reverse xs) None →
  list_at h' a ty (reverse cs) (reverse xs) ∧ evolves (Some a) cs (Some a) (reverse cs) h h'.
Proof.
  intros W P L B A O Hc. pose proof P as [Hh Hc0 Hnd Hne].
  assert (reverse cs ≠ []) as Hrn by (intros E%(f_equal len); rewrite length_reverse in E; by destruct cs).
  assert (hd_error (reverse cs) = last cs) as Hhd.
  { destruct (last cs) as [t|] eqn:E; [|by apply last_None in E].
    apply last_Some in E as [? ->]. by rewrite reverse_snoc. }
  assert (last (reverse cs) = hd_error cs) as Hlast by by rewrite last_reverse; destruct cs.
  split.
  - split; [|by rewrite <- (chain_head _ _ _ _ _ Hc Hrn)|by rewrite reverse_Permutation|done].
    rewrite L, lookup_insert_eq, Hhd, Hlast, length_reverse. done.
  - assert (wf h') as W'.
    { split.
      - intros c Hs. rewrite B. destruct (decide (c ∈ cs)) as [Hin|Hin].
        + apply W. by eapply chain_alloc.
        + rewrite O in Hs by done. by apply W.
      - intros c. rewrite L, B, lookup_insert_is_Some'.
        intros [<-|?]; apply (wf_lists _ W); [by eexists|done]. }
    split; try done.
    + intros c ? _. by apply O.
    + intros a' ? _. rewrite L, lookup_insert_ne; [done|]. congruence.
    + intros c. rewrite elem_of_reverse. by left.
    + intros a' ?. by left.
Qed.

(** The branch for lists of two elements. *)
Lemma reverse_two_ok ty a c1 c2 x1 x2 h :
  wf h → list_at h a ty [c1; c2] [x1; x2] →
  ∃ h', reverseCellsInPlace (Some a) h = Ok (tt, h') ∧
    list_at h' a ty [c2; c1] [x2; x1] ∧ evolves (Some a) [c1; c2] (Some a) [c2; c1] h h'.
Proof.
  intros W P. pose proof P as [Hh Hc Hnd _]. destruct Hc as [_ (n1 & H1 & -> & n2 & H2 & ->)].
  assert (c1 ≠ c2) by (apply NoDup_cons in Hnd as [? _]; set_solver).
  unfold reverseCellsInPlace. do 3 hstep. rewrite decide_True by done. cbn [last hd_error]. do 3 hstep.
  erewrite set_next_ok by hlook. eexists. split; [done|]. cbn [data].
  apply (reversed_list_at _ _ _ _ [c1; c2] [x1; x2] (Some c2)); try done; cbn.
  - intros c Hc. rewrite !lookup_insert_is_Some'. set_solver.
  - intros c Hc. by rewrite !lookup_insert_ne by set_solver.
  - split; [done|]. exists (Some c1). split.
    { rewrite lookup_insert_ne by done. by rewrite lookup_insert_eq. }
    split; [done|]. exists None. by rewrite lookup_insert_eq.
Qed.

Lemma reverseCellsInPlace_ok ty a cs xs h :
  wf h → list_at h a ty cs xs →
  ∃ h', reverseCellsInPlace (Some a) h = Ok (tt, h') ∧
    list_at h' a ty (reverse cs) (reverse xs) ∧ evolves (Some a) cs (Some a) (reverse cs) h h'.
Proof.
  intros W P. pose proof (list_at_len _ _ _ _ _ P) as Hl. pose proof (list_at_fuel _ _ _ _ _ P) as Hf.
  destruct (decide (len xs = 2)) as [H2|H2].
  { destruct cs as [|c1 [|c2 [|]]], xs as [|x1 [|x2 [|]]]; try done. by apply reverse_two_ok. }
  pose proof P as [Hh Hc Hnd Hne]. destruct cs as [|c cs], xs as [|x xs]; try done.
  destruct Hc as [_ (n & Hm & Hc)].
  unfold reverseCellsInPlace. do 3 hstep. rewrite decide_False by (simpl; simpl in H2; lia).
  do 3 hstep. match goal with |- context [bind (reverse_loop _ _ _) _ ?hh] => set (h1 := hh) end.
  destruct (reverse_loop_ok h1 n n c [c] [x] cs xs (loop_fuel h1))
    as (h2 & p & E & Hc2 & [L B A O]).
  { cbn. split; [done|]. by exists n. }
  { done. }
  { done. }
  { change (loop_fuel h1) with (loop_fuel h). simpl in Hf. lia. }
  hrun E. rewrite <- !reverse_cons in Hc2.
  destruct (chain_relink _ _ _ _ _ c Hc2) as (y & Hy & Hre).
  { by rewrite reverse_Permutation. }
  { by rewrite last_reverse. }
  erewrite set_next_ok by exact Hy. eexists. split; [done|]. cbn [data].
  apply (reversed_list_at _ _ _ _ (c :: cs) (x :: xs) p); try done; cbn.
  - intros c' Hc'. rewrite lookup_insert_is_Some'. right. by apply A.
  - intros c' Hc'. rewrite lookup_insert_ne by set_solver. by rewrite O.
  - apply Hre.
Qed.

End reversing.

(** ** Stack discipline *)

Section stacks.
Implicit Types (h : heap) (a : loc) (l : option loc) (ty : NodeTag) (cs : list loc) (xs : list Z).

Lemma pop_ok ty l cs x xs h :
  wf h → plist h l ty cs (x :: xs) →
  ∃ l' h', pop l h = Ok ((x, l'), h') ∧ plist h' l' ty (drop 1 cs) xs ∧
    evolves l cs l' (drop 1 cs) h h'.
Proof.
  intros W P. unfold pop. hrun (linitial_ok _ _ _ _ _ _ P).
  destruct (list_delete_first_spec ty l cs (x :: xs) h W P) as (l' & h' & E & ? & ?).
  hrun E. by exists l', h'.
Qed.

(** An operation that owns two lists: both results are disjoint, and every third
    list apart from the arguments is kept and stays apart from the results. *)
Record moves l1 cs1 l2 cs2 l1' cs1' l2' cs2' h h' : Prop := {
  mv_wf : wf h';
  mv_apart : apart l1' cs1' l2' cs2';
  mv_frame l3 ty3 cs3 xs3 : plist h l3 ty3 cs3 xs3 →
    apart l1 cs1 l3 cs3 → apart l2 cs2 l3 cs3 →
    plist h' l3 ty3 cs3 xs3 ∧ apart l1' cs1' l3 cs3 ∧ apart l2' cs2' l3 cs3 }.

Lemma moves_refl l1 cs1 l2 cs2 h : wf h → apart l1 cs1 l2 cs2 → moves l1 cs1 l2 cs2 l1 cs1 l2 cs2 h h.
Proof. by split. Qed.

Lemma moves_trans l1 cs1 l2 cs2 l1' cs1' l2' cs2' l1'' cs1'' l2'' cs2'' h h1 h2 :
  moves l1 cs1 l2 cs2 l1' cs1' l2' cs2' h h1 → moves l1' cs1' l2' cs2' l1'' cs1'' l2'' cs2'' h1 h2 →
  moves l1 cs1 l2 cs2 l1'' cs1'' l2'' cs2'' h h2.
Proof.
  intros [W1 A1 F1] [W2 A2 F2]. split; try done. intros l3 ty3 cs3 xs3 P3 H1 H2.
  destruct (F1 _ _ _ _ P3 H1 H2) as (? & ? & ?). by apply F2.
Qed.

(** Working on the first list, then on the second. *)
Lemma evolves_moves l1 cs1 l2 ty2 cs2 xs2 l1' ty1 cs1' xs1 l2' cs2' h h1 h2 :
  apart l1 cs1 l2 cs2 → plist h l2 ty2 cs2 xs2 →
  evolves l1 cs1 l1' cs1' h h1 → plist h1 l1' ty1 cs1' xs1 →
  evolves l2 cs2 l2' cs2' h1 h2 →
  moves l1 cs1 l2 cs2 l1' cs1' l2' cs2' h h2 ∧ plist h2 l1' ty1 cs1' xs1.
Proof.
  intros A P2 E1 P1 E2. destruct (evolves_frame _ _ _ _ _ _ _ _ _ _ E1 P2 A) as [P2' A1].
  destruct (evolves_frame _ _ _ _ _ _ _ _ _ _ E2 P1 (apart_sym _ _ _ _ A1)) as [P1' A2].
  split; [|done]. split; [apply E2|by apply apart_sym|].
  intros l3 ty3 cs3 xs3 P3 H1 H2.
  destruct (evolves_frame _ _ _ _ _ _ _ _ _ _ E1 P3 H1) as [P3' H1'].
  by destruct (evolves_frame _ _ _ _ _ _ _ _ _ _ E2 P3' H2) as [P3'' H2'].
Qed.

Lemma popList_loop_ok ty n stack cs xs result rcs rxs h :
  wf h → plist h stack ty cs xs → plist h result T_List rcs rxs → apart stack cs result rcs →
  n ≤ len xs →
  ∃ result' rcs' stack' cs' h', popList_loop n stack result h = Ok ((result', stack'), h') ∧
    plist h' stack' ty cs' (drop n xs) ∧
    plist h' result' T_List rcs' (reverse (take n xs) ++ rxs) ∧
    moves stack cs result rcs stack' cs' result' rcs' h h'.
Proof.
  revert stack cs xs result rcs rxs h.
  induction n as [|n IH]; intros stack cs xs result rcs rxs h W P R A Hn.
  - exists result, rcs, stack, cs, h. rewrite take_0, drop_0. auto using moves_refl.
  - destruct xs as [|x xs]; simpl in Hn; [lia|]. cbn [popList_loop drop take].
    destruct (pop_ok ty stack cs x xs h W P) as (s1 & h1 & E1 & P1 & V1). hrun E1.
    destruct (evolves_frame _ _ _ _ _ _ _ _ _ _ V1 R A) as [R1 A1].
    destruct (lcons_gen_spec T_List result rcs rxs x h1 (ev_wf _ _ _ _ _ _ V1) R1)
      as (r2 & rcs2 & h2 & E2 & R2 & V2). unfold lcons. hrun E2.
    destruct (evolves_moves _ _ _ _ _ _ _ _ _ _ _ _ _ _ _ A R V1 P1 V2) as [M P2].
    destruct (IH s1 (drop 1 cs) xs (Some r2) rcs2 (x :: rxs) h2) as
      (result' & rcs' & stack' & cs' & h' & E & Ps & Pr & M'); [apply M|done|done|apply M|lia|].
    exists result', rcs', stack', cs', h'. split; [done|]. split; [done|]. split.
    + by rewrite reverse_cons, <- (assoc_L (++)).
    + by eapply moves_trans.
Qed.

Lemma getList_loop_ok ty n i stack cs xs result rcs rxs h :
  wf h → plist h stack ty cs xs → plist h result T_List rcs rxs → apart result rcs stack cs →
  i + n ≤ len xs →
  ∃ result' rcs' h', getList_loop stack n (Z.of_nat i) result h = Ok (result', h') ∧
    plist h' result' T_List rcs' (reverse (take n (drop i xs)) ++ rxs) ∧
    plist h' stack ty cs xs ∧ evolves result rcs result' rcs' h h'.
Proof.
  revert i result rcs rxs h. induction n as [|n IH]; intros i result rcs rxs h W P R A Hn.
  - exists result, rcs, h. rewrite take_0. auto using evolves_refl.
  - destruct (lookup_lt_is_Some_2 xs i ltac:(lia)) as [x Hx].
    cbn [getList_loop]. hrun (list_nth_ok _ _ _ _ _ _ _ P Hx).
    destruct (lcons_gen_spec T_List result rcs rxs x h W R) as (r1 & rcs1 & h1 & E1 & R1 & V1).
    unfold lcons. hrun E1.
    destruct (evolves_frame _ _ _ _ _ _ _ _ _ _ V1 P A) as [P1 A1].
    replace (Z.of_nat i + 1)%Z with (Z.of_nat (S i)) by lia.
    destruct (IH (S i) (Some r1) rcs1 (x :: rxs) h1 (ev_wf _ _ _ _ _ _ V1) P1 R1 A1 ltac:(lia))
      as (r' & rcs' & h' & E & R' & P' & V').
    exists r', rcs', h'. split; [done|]. rewrite (drop_S _ _ _ Hx). cbn [take].
    rewrite reverse_cons, <- (assoc_L (++)). eauto using evolves_trans.
Qed.

(** Keeping a cell that does not belong to a list allocated. *)
Lemma list_at_keep a ty cs xs c m L b :
  list_at (mkHeap (delete c m) L b) a ty cs xs → c ∉ cs → list_at (mkHeap m L b) a ty cs xs.
Proof.
  intros [Hh Hc Hnd Hne] Hin. split; try done.
  eapply chain_ext; [|exact Hc]. intros c' ?. cbn. rewrite lookup_delete_ne; [done|]. by intros ->.
Qed.

Lemma evolves_keep l cs l' cs' h c m L b :
  evolves l cs l' cs' h (mkHeap (delete c m) L b) → c ∈ cs → (c < b)%positive →
  evolves l cs l' cs' h (mkHeap m L b).
Proof.
  intros [[W1 W2] C HL F H] Hin Hlt. cbn in *. split; try done.
  - split; [|done]. cbn. intros c' Hc'. destruct (decide (c' = c)) as [->|]; [done|].
    apply W1. by rewrite lookup_delete_ne.
  - intros c' Hc' Hs. specialize (C _ Hc' Hs). cbn in *. rewrite lookup_delete_ne in C; [done|].
    by intros ->.
Qed.

(** [popNthCell] with [0 < n]: the cell is unlinked but not freed. *)
Lemma popNth_ok ty a cs xs n x h :
  wf h → list_at h a ty cs xs → xs !! n = Some x → 0 < n →
  ∃ h', popNth (Some a) (Z.of_nat n) h = Ok ((x, Some a), h') ∧
    list_at h' a ty (delete n cs) (delete n xs) ∧
    evolves (Some a) cs (Some a) (delete n cs) h h'.
Proof.
  intros W P Hx Hn. destruct n as [|j]; [lia|]. pose proof (list_at_len _ _ _ _ _ P) as Hl.
  pose proof (lookup_lt_Some _ _ _ Hx).
  destruct (walk_list_at _ _ _ _ _ j P ltac:(lia)) as (c0 & p & H0 & Hp & Hw).
  destruct (lookup_lt_is_Some_2 cs (S j) ltac:(lia)) as [c Hc].
  pose proof P as [Hh Hch Hnd Hne].
  destruct (chain_lookup _ _ _ _ _ _ _ Hch Hp) as (y & Hy & Hmp). rewrite Hc in Hmp.
  destruct (list_at_split _ _ _ _ _ _ _ P Hc) as (x' & Hx' & _ & _ & _ & Hmc & _).
  simplify_eq.
  assert (p ≠ c) by (intros ->; pose proof (NoDup_lookup _ _ _ _ Hnd Hp Hc); lia).
  assert (c < brk h)%positive by (apply W; by eexists).
  assert (c ∉ delete (S j) cs) as Hcd.
  { intros (i & Hi)%list_elem_of_lookup. rewrite list_lookup_delete in Hi. case_decide.
    - pose proof (NoDup_lookup _ _ _ _ Hnd Hi Hc). lia.
    - pose proof (NoDup_lookup _ _ _ _ Hnd Hi Hc). lia. }
  destruct (list_unlink_spec ty a cs xs (S j) c h _ _ W P Hc ltac:(lia) eq_refl eq_refl) as [Pn En].
  cbn [prev_cell] in Pn, En. rewrite Hp, Hmp in Pn, En. cbn [data] in Pn, En.
  apply list_at_keep in Pn; [|done].
  apply evolves_keep in En; [|by eapply list_elem_of_lookup_2|done].
  unfold popNth, popNthCell. hsteps. rewrite H0. hstep. rewrite decide_False by lia.
  replace (Z.to_nat (Z.of_nat (S j) - 1)) with j by lia.
  rewrite !bind_assoc. erewrite bind_ok.
  2:{ eapply (walk_ok _ _ cs xs None j 0); [exact Hch|by destruct cs|by rewrite Nat.add_0_r]. }
  hsteps. destruct (decide (last cs = Some c)).
  - hsteps. eexists. split; [by hsteps|]. unfold upd_list, upd_cell; cbn [cells lists brk]; rewrite insert_insert_eq. by rewrite <- H0.
  - hsteps. eexists. split; [by hsteps|]. unfold upd_list, upd_cell; cbn [cells lists brk]; by rewrite <- H0.
Qed.

End stacks.

(** ** Searching, cutting and generating *)

Section searching.
Implicit Types (h : heap) (a : loc) (l : option loc) (ty : NodeTag) (cs : list loc) (xs : list Z).

(** The index of the first element that passes the test, -1 if none does. *)
Definition first_position (test : Z → bool) (xs : list Z) : Z :=
  match list_find (λ x, test x = true) xs with Some (i, _) => Z.of_nat i | None => (-1)%Z end.

Lemma fold_position test xs n :
  fold_ctl (λ x count, if test x : bool then Return count else Next (count + 1)%Z) xs (Z.of_nat n) =
  match list_find (λ x, test x = true) xs with
  | Some (i, _) => inr (Z.of_nat (n + i))
  | None => inl (Z.of_nat (n + len xs))
  end.
Proof.
  revert n. induction xs as [|x xs IH]; intros n; simpl; [by rewrite Nat.add_0_r|].
  destruct (test x) eqn:E.
  - rewrite decide_True by done. by rewrite Nat.add_0_r.
  - rewrite decide_False by done. replace (Z.of_nat n + 1)%Z with (Z.of_nat (S n)) by lia.
    rewrite IH. destruct (list_find _ xs) as [[i y]|]; simpl; do 2 f_equal; lia.
Qed.

Lemma position_loop_ok test l ty cs xs h :
  plist h l ty cs xs → position_loop test l h = Ok (first_position test xs, h).
Proof.
  intros P. unfold position_loop, first_position. erewrite bind_ok.
  2:{ eapply (foreach_pure (λ x count, if test x then Return count else Next (count + 1)%Z)); [done|].
      intros c x n b _ Hm. by hrun (lfirst_ok _ _ _ Hm). }
  change 0%Z with (Z.of_nat 0). rewrite (fold_position test xs 0). by destruct (list_find _ xs) as [[]|].
Qed.

Lemma removeAfterPos_ok ty l cs xs n h :
  wf h → plist h l ty cs xs → 0 < n →
  ∃ h', removeAfterPos l (Z.of_nat n) h = Ok (tt, h') ∧
    plist h' l ty (take n cs) (take n xs) ∧ evolves l cs l (take n cs) h h'.
Proof.
  intros W P Hn. destruct n as [|k]; [lia|]. pose proof (plist_len _ _ _ _ _ P) as Hl.
  unfold removeAfterPos. match goal with |- context [foreach _ _ ?f] => set (body := f) end.
  destruct (foreach_ind (λ i b h', h' = h ∧ b = Z.of_nat i ∧ i ≤ k)
    (λ _ h', plist h' l ty (take (S k) cs) (take (S k) xs) ∧ evolves l cs l (take (S k) cs) h h')
    l ty cs xs body 0%Z h P) as (r & h' & E & Hp & He); subst body; cbn beta.
  - intros i b h' (-> & _). by eapply plist_chain.
  - intros i c x b h' (-> & -> & Hi) Hci Hxi. destruct l as [a|]; [|destruct P; by subst].
    simpl in P. pose proof P as [Hh _ _ _]. case_decide as Hd.
    + assert (i = k) as -> by lia.
      destruct (list_at_split _ _ _ _ _ _ _ P Hci) as (y & ? & _ & _ & _ & Hm & _). simplify_eq.
      do 2 eexists. split; [hsteps; apply ret_ok|]. by apply list_cut_spec.
    + do 2 eexists. split; [apply ret_ok|]. cbn. repeat split; try done; lia.
  - intros b h' (-> & -> & ?). rewrite !take_ge by lia. auto using evolves_refl.
  - repeat split; auto; lia.
  - hrun E. by exists h'.
Qed.

Lemma firstInts_loop_ok n offset l cs xs h :
  wf h → plist h l T_IntList cs xs →
  ∃ l' cs' h', firstInts_loop n offset l h = Ok (l', h') ∧
    plist h' l' T_IntList cs' (((λ k, Z.of_nat k + offset)%Z <$> seq 0 n) ++ xs) ∧
    evolves l cs l' cs' h h'.
Proof.
  revert l cs xs h. induction n as [|n IH]; intros l cs xs h W P.
  - exists l, cs, h. auto using evolves_refl.
  - cbn [firstInts_loop]. unfold lcons_int.
    destruct (lcons_gen_spec T_IntList l cs xs (Z.of_nat n + offset) h W P)
      as (a1 & cs1 & h1 & E1 & P1 & V1). hrun E1.
    destruct (IH (Some a1) cs1 _ h1 (ev_wf _ _ _ _ _ _ V1) P1) as (l' & cs' & h' & E & P' & V').
    exists l', cs', h'. split; [done|]. split; [|by eapply evolves_trans].
    rewrite seq_S, fmap_app, <- (assoc_L (++)). done.
Qed.

Lemma last_cell_ok h p cs xs c t fuel :
  chain (cells h) p (c :: cs) xs None → last (c :: cs) = Some t → len cs ≤ fuel →
  last_cell fuel c h = Ok (t, h).
Proof.
  revert p xs c fuel. induction cs as [|d cs IH]; intros p [|x xs] c fuel Hc Ht Hf; try done.
  - destruct Hc as [_ (n & Hm & Hc)]. destruct xs; [|done]. cbn in Hc. subst n.
    simpl in Ht. simplify_eq. destruct fuel; cbn; by hrun (lnext_ok _ _ _ Hm).
  - destruct Hc as [_ (n & Hm & Hc)]. destruct xs as [|y xs]; [done|]. pose proof Hc as [-> _].
    destruct fuel as [|fuel]; simpl in Hf; [lia|]. cbn [last_cell]. hrun (lnext_ok _ _ _ Hm).
    cbn [next]. eapply IH; [exact Hc|done|lia].
Qed.

(** [deQueue] returns the last element and changes nothing: its loop stops at the last
    cell, not at the one before. *)
Lemma deQueue_ok ty a cs xs x h :
  list_at h a ty cs xs → last xs = Some x → deQueue (Some a) h = Ok (x, h).
Proof.
  intros P Hx. pose proof (list_at_fuel _ _ _ _ _ P) as Hf.
  destruct (list_at_snoc _ _ _ _ _ P) as (cs0 & t & xs0 & y & -> & -> & _ & _ & _ & Hm).
  rewrite last_snoc in Hx. simplify_eq. pose proof P as [Hh Hc _ _]. rewrite last_snoc in Hh.
  unfold deQueue. do 4 hstep. destruct (cs0 ++ [t]) as [|c cs] eqn:E; [by destruct cs0|].
  cbn [hd_error]. do 2 hstep.
  erewrite bind_ok by (eapply last_cell_ok; [exact Hc|by rewrite <- E, last_snoc|simpl in Hf; lia]).
  hsteps. unfold ret. do 2 f_equal. destruct h as [C L b]; cbn in *. unfold upd_cell, upd_list; cbn.
  f_equal; by apply insert_id.
Qed.

End searching.

End ProvStackFacts.
