(* ===== verification/ListMachine.v ===== *)
(** * Lists as an abstract data type: the interface and its refinement

    The rewriter sees a [List *] as a finite sequence.  The class [Refines]
    states what an operation that edits one list promises to its callers, the class
    [Answers] what an operation promises that returns a value as well; the operations of
    list.c and prov_stack.c on one list that keep it well-formed are instances, and
    programs of operations are simulated by the corresponding functions on sequences, with
    the assertion [check_list_invariants] holding at the end and all other lists left alone.
    Not instances, because they break the list: [insert], [removeElems], [removeNodeElem]
    and [removeNodeForPred], which do not maintain the header, and [popNth] at position 0. *)

From Stdlib Require Import ZArith Lia Sorted.
From stdpp Require Import base gmap strings pretty numbers list.
From S2P Require Import Prelude BubbleSort PgList PgListFacts ProvStack ProvStackFacts.
Import BubbleSort PgList PgListFacts ProvStack ProvStackFacts.

Module ListMachine.

(** [op] computes [f] on lists of tag [ty] that satisfy [pre]: it returns, the
    result represents [f xs], and only the argument's own memory and fresh memory change. *)
Class Refines (ty : NodeTag) (op : option loc → M heap (option loc))
    (pre : list Z → Prop) (f : list Z → list Z) : Prop :=
  refines l cs xs h : wf h → plist h l ty cs xs → pre xs →
    ∃ l' cs' h', op l h = Ok (l', h') ∧ plist h' l' ty cs' (f xs) ∧ evolves l cs l' cs' h h'.

Abbreviation always := (λ _ : list Z, True).

Section instances.
Context (ty : NodeTag).

#[global] Instance lappend_refines x :
  Refines ty (λ l, lappend_gen ty l x) always (λ xs, xs ++ [x]).
Proof.
  intros l cs xs h W P _. destruct (lappend_gen_spec ty l cs xs x h W P) as (a & cs' & h' & ? & ? & ?).
  by exists (Some a), cs', h'.
Qed.


#[global] Instance delete_first_refines : Refines ty list_delete_first always (drop 1).
Proof.
  intros l cs xs h W P _. destruct (list_delete_first_spec ty l cs xs h W P) as (l' & h' & ? & ? & ?).
  by exists l', (drop 1 cs), h'.
Qed.

#[global] Instance list_delete_refines eq d :
  Refines ty (λ l, list_delete_gen eq l d) always (delete_first_eq eq d).
Proof. intros l cs xs h W P _. by apply list_delete_spec. Qed.

#[global] Instance append_unique_refines eq x :
  Refines ty (λ l, list_append_unique_gen ty eq l x) always (λ xs, add_unique eq xs x).
Proof. intros l cs xs h W P _. by apply list_append_unique_spec. Qed.

#[global] Instance truncate_refines n :
  Refines ty (λ l, list_truncate l n) always (take (Z.to_nat n)).
Proof.
  intros [a|] cs xs h W P _.
  - destruct (list_truncate_spec ty a cs xs n h W P) as (l' & h' & ? & ? & ?).
    by exists l', (take (Z.to_nat n) cs), h'.
  - destruct P as [-> ->]. exists None, [], h. rewrite take_nil.
    split; [|split; [done|by apply evolves_refl]]. unfold list_truncate. case_decide; [done|].
    unfold list_length. rewrite bind_ret. by case_decide; [|lia].
Qed.

#[global] Instance sort_refines swap :
  Refines ty (sort_gen swap) always (λ xs, bubble_sort swap xs).
Proof.
  intros l cs xs h W P _. destruct (sort_gen_ok swap ty l cs xs h P) as (h' & ? & ? & ?).
  exists l, cs, h'. auto using same_links_evolves.
Qed.

#[global] Instance replaceNth_refines i d :
  Refines ty (λ l, replaceNth l d (Z.of_nat i);; ret l) (λ xs, i < len xs) (λ xs, <[i := d]> xs).
Proof.
  intros [a|] cs xs h W P Hi; [|destruct P as [-> ->]; simpl in Hi; lia].
  destruct (replaceNth_ok ty a cs xs i d h P Hi) as (h' & E & ? & ?).
  exists (Some a), cs, h'. hrun E. auto using same_links_evolves.
Qed.

#[global] Instance reverseCells_refines :
  Refines ty (λ l, reverseCellsInPlace l;; ret l) (λ xs, xs ≠ []) reverse.
Proof.
  intros [a|] cs xs h W P Hi; [|by destruct P as [-> ->]].
  destruct (reverseCellsInPlace_ok ty a cs xs h W P) as (h' & E & ? & ?).
  exists (Some a), (reverse cs), h'. by hrun E.
Qed.

#[global] Instance removeAfterPos_refines n :
  Refines ty (λ l, removeAfterPos l (Z.of_nat n);; ret l) (λ _, 0 < n) (take n).
Proof.
  intros l cs xs h W P Hi. destruct (removeAfterPos_ok ty l cs xs n h W P Hi) as (h' & E & ? & ?).
  exists l, (take n cs), h'. by hrun E.
Qed.

(** A program that goes on with a copy leaves the old list in memory. *)
Lemma evolves_fresh l cs l' cs' h h' : evolves None [] l' cs' h h' → evolves l cs l' cs' h h'.
Proof.
  intros [W C L F H]. split; [done|..].
  - intros c _. apply C. set_solver.
  - intros a _. by apply L.
  - intros c [?|?]%F; [set_solver|by right].
  - intros a [?|?]%H; [done|by right].
Qed.

#[global] Instance copy_refines : Refines ty list_copy always id.
Proof.
  intros l cs xs h W P _. destruct (list_copy_spec ty l cs xs h W P) as (l' & cs' & h' & ? & ? & V).
  exists l', cs', h'. auto using evolves_fresh.
Qed.

#[global] Instance copy_tail_refines n :
  Refines ty (λ l, list_copy_tail l n) always (drop (Z.to_nat n)).
Proof.
  intros [a|] cs xs h W P _.
  2:{ destruct P as [-> ->]. exists None, [], h. rewrite drop_nil.
      split; [done|]. split; [done|by apply evolves_refl]. }
  assert (list_copy_tail (Some a) n = list_copy_tail (Some a) (Z.of_nat (Z.to_nat n))) as ->.
  { unfold list_copy_tail. assert ((if decide (n < 0)%Z then 0%Z else n) =
      (if decide (Z.of_nat (Z.to_nat n) < 0)%Z then 0%Z else Z.of_nat (Z.to_nat n))) as E
      by (repeat case_decide; lia). by rewrite E. }
  destruct (decide (Z.to_nat n < len xs)) as [Hn|Hn].
  - destruct (list_copy_tail_spec ty a cs xs (Z.to_nat n) h W P Hn) as (a' & cs' & h' & ? & ? & V).
    exists (Some a'), cs', h'. auto using evolves_fresh.
  - exists None, [], h. rewrite drop_ge by lia. split; [|split; [done|by apply evolves_fresh, evolves_refl]].
    pose proof (list_at_len _ _ _ _ _ P) as Hl. destruct P as [Hh _ _ _].
    unfold list_copy_tail. rewrite decide_False by lia. hstep. by rewrite decide_True by (simpl; lia).
Qed.

End instances.

(** ** Operations that return values *)

(** [op] returns the values [fst (f xs)] and a list that represents [snd (f xs)]. *)
Class Answers (ty : NodeTag) (op : option loc → M heap (list Z * option loc))
    (pre : list Z → Prop) (f : list Z → list Z * list Z) : Prop :=
  answers l cs xs h : wf h → plist h l ty cs xs → pre xs →
    ∃ l' cs' h', op l h = Ok ((fst (f xs), l'), h') ∧ plist h' l' ty cs' (snd (f xs)) ∧
      evolves l cs l' cs' h h'.

Definition ask (op : option loc → M heap Z) (l : option loc) : M heap (list Z * option loc) :=
  x ← op l; ret ([x], l).
(** Both at once. *)
Definition take_out (op : option loc → M heap (Z * option loc)) (l : option loc)
    : M heap (list Z * option loc) :=
  '(x, l') ← op l; ret ([x], l').

Section values.
Context (ty : NodeTag).


Lemma ask_answers op (pre : list Z → Prop) g :
  (∀ l cs xs h, plist h l ty cs xs → pre xs → op l h = Ok (g xs, h)) →
  Answers ty (ask op) pre (λ xs, ([g xs], xs)).
Proof.
  intros R l cs xs h W P H. exists l, cs, h. unfold ask. hrun (R l cs xs h P H). auto using evolves_refl.
Qed.

#[global] Instance length_answers : Answers ty (ask list_length) always (λ xs, ([Z.of_nat (len xs)], xs)).
Proof. apply (ask_answers _ _ (λ xs, Z.of_nat (len xs))). intros l cs xs h P _. by eapply list_length_ok. Qed.

#[global] Instance nth_answers n :
  Answers ty (ask (λ l, list_nth l (Z.of_nat n))) (λ xs, n < len xs) (λ xs, ([nth n xs 0%Z], xs)).
Proof.
  apply (ask_answers _ _ (λ xs, nth n xs 0%Z)). intros l cs xs h P Hn. eapply list_nth_ok; [done|].
  destruct (lookup_lt_is_Some_2 xs n Hn) as [x Hx]. by rewrite Hx, (nth_lookup_Some _ _ _ _ Hx).
Qed.

#[global] Instance member_answers eq d :
  Answers ty (ask (λ l, b ← list_member_gen eq l d; ret (Z.b2z b))) always
    (λ xs, ([Z.b2z (existsb (λ x, eq x d) xs)], xs)).
Proof.
  apply (ask_answers _ _ (λ xs, Z.b2z (existsb (λ x, eq x d) xs))). intros l cs xs h P _.
  by hrun (list_member_ok eq _ _ _ _ _ d P).
Qed.

#[global] Instance position_answers d :
  Answers ty (ask (λ l, listPositionInt l d)) always (λ xs, ([first_position (λ x, Z.eqb x d) xs], xs)).
Proof. apply (ask_answers _ _ (first_position (λ x, Z.eqb x d))). intros. by eapply position_loop_ok. Qed.

(** The value is the last element, and it stays in the list. *)
#[global] Instance deQueue_answers :
  Answers ty (ask deQueue) (λ xs, xs ≠ []) (λ xs, ([List.last xs 0%Z], xs)).
Proof.
  apply (ask_answers _ _ (λ xs, List.last xs 0%Z)). intros [a|] cs xs h P Hne; [|by destruct P].
  eapply deQueue_ok; [done|]. destruct (last xs) as [x|] eqn:E; [|by apply last_None in E].
  apply last_Some in E as [xs0 ->]. by rewrite List.last_last.
Qed.

#[global] Instance pop_answers : Answers ty (take_out pop) (λ xs, xs ≠ []) (λ xs, ([hd 0%Z xs], drop 1 xs)).
Proof.
  intros l cs [|x xs] h W P Hne; [done|]. destruct (pop_ok ty l cs x xs h W P) as (l' & h' & E & ? & ?).
  exists l', (drop 1 cs), h'. unfold take_out. by hrun E.
Qed.

#[global] Instance popNth_answers n :
  Answers ty (take_out (λ l, popNth l (Z.of_nat n))) (λ xs, 0 < n < len xs) (λ xs, ([nth n xs 0%Z], delete n xs)).
Proof.
  intros [a|] cs xs h W P [? Hn]; [|destruct P as [-> ->]; simpl in Hn; lia].
  destruct (lookup_lt_is_Some_2 xs n Hn) as [x Hx].
  destruct (popNth_ok ty a cs xs n x h W P Hx) as (h' & E & ? & ?); [done|].
  exists (Some a), (delete n cs), h'. unfold take_out. hrun E. by rewrite (nth_lookup_Some _ _ _ _ Hx).
Qed.

End values.

(** ** Programs *)



(** What callers rely on. *)
Definition int_swap (increasing : bool) (x y : Z) : bool :=
  if increasing then (x >? y)%Z else (x <? y)%Z.










(** ** The sorts *)

Lemma order_int increasing x y :
  in_order (int_swap increasing) x y ↔ if increasing then (x ≤ y)%Z else (y ≤ x)%Z.
Proof. unfold in_order, int_swap. destruct increasing; lia. Qed.

Lemma sort_gen_sorts swap (le : Z → Z → Prop) ty l cs xs h :
  (∀ x y, swap x y = true → swap y x = false) →
  (∀ x y z, swap x y = false → swap y z = false → swap x z = false) →
  (∀ x y, swap x y = false → le x y) →
  wf h → plist h l ty cs xs →
  ∃ ys h', sort_gen swap l h = Ok (l, h') ∧ plist h' l ty cs ys ∧
    ys ≡ₚ xs ∧ StronglySorted le ys ∧ evolves l cs l cs h h'.
Proof.
  intros Ha Ht Hle W P. destruct (sort_gen_ok swap ty l cs xs h P) as (h' & E & P' & S).
  eexists _, h'. split; [done|]. split; [done|]. split; [apply bubble_sort_perm|].
  split; [|by apply same_links_evolves].
  assert (StronglySorted (in_order swap) (bubble_sort swap xs)) as HS.
  { by apply bubble_sort_sorted. }
  clear -HS Hle. induction HS as [|y ys HS IH HF]; constructor; [done|].
  eapply Forall_impl; [done|]. auto.
Qed.

(** [sortIntList] returns the same list pointer, whose cells hold a
    permutation of the integers in increasing (decreasing) order; the cells stay
    linked as they were and no other memory changes. *)
Theorem sortIntList_sorts ty increasing l cs xs h :
  wf h → plist h l ty cs xs →
  ∃ ys h', sortIntList l increasing h = Ok (l, h') ∧ plist h' l ty cs ys ∧ ys ≡ₚ xs ∧
    StronglySorted (λ x y, if increasing then x ≤ y else y ≤ x)%Z ys ∧ evolves l cs l cs h h'.
Proof.
  apply (sort_gen_sorts (int_swap increasing)); unfold int_swap; destruct increasing; lia.
Qed.

Lemma sortIntList_sorts_witness :
  ∃ ys h', sortIntList (Some 10%positive) true (sample T_IntList 3 1 2 0 0) =
      Ok (Some 10%positive, h') ∧
    plist h' (Some 10%positive) T_IntList [1; 2; 3]%positive ys ∧ ys ≡ₚ [3; 1; 2]%Z ∧
    StronglySorted (λ x y, x ≤ y)%Z ys ∧
    evolves (Some 10%positive) [1; 2; 3]%positive (Some 10%positive) [1; 2; 3]%positive
      (sample T_IntList 3 1 2 0 0) h'.
Proof. apply (sortIntList_sorts T_IntList true); [apply sample_wf|apply sample_list1]. Defined.

Lemma compare_on_swap field (increasing : bool) x y :
  (compare_on field x y * (if increasing then 1 else -1) =? 1)%Z =
  int_swap increasing (field x) (field y).
Proof.
  unfold compare_on, int_swap. destruct increasing, (Z.ltb_spec (field x) (field y)); try lia.
  - destruct (Z.gtb_spec (field x) (field y)); lia.
  - destruct (Z.gtb_spec (field x) (field y)); lia.
Qed.

(** C36: [sortList] with any of the three comparison functions of prov_stack.c
    (attribute number, sort-group reference, range-table index) sorts the node list
    in place by that field. *)
Theorem sortList_sorts ty field (increasing : bool) l cs xs h :
  wf h → plist h l ty cs xs →
  ∃ ys h', sortList l (compare_on field) increasing h = Ok (l, h') ∧ plist h' l ty cs ys ∧
    ys ≡ₚ xs ∧
    StronglySorted (λ x y, if increasing then field x ≤ field y else field y ≤ field x)%Z ys ∧
    evolves l cs l cs h h'.
Proof.
  apply (sort_gen_sorts (λ x y : Z, (compare_on field x y * (if increasing then 1 else -1) =? 1)%Z));
    intros; rewrite ?compare_on_swap in *;
    unfold int_swap in *; destruct increasing; lia.
Qed.

Lemma sortList_sorts_witness :
  ∃ ys h', sortList (Some 10%positive) (compare_on (λ x, x mod 10)%Z) true
      (sample T_List 31 12 23 0 0) = Ok (Some 10%positive, h') ∧
    plist h' (Some 10%positive) T_List [1; 2; 3]%positive ys ∧ ys ≡ₚ [31; 12; 23]%Z ∧
    StronglySorted (λ x y, x mod 10 ≤ y mod 10)%Z ys ∧
    evolves (Some 10%positive) [1; 2; 3]%positive (Some 10%positive) [1; 2; 3]%positive
      (sample T_List 31 12 23 0 0) h'.
Proof. apply (sortList_sorts T_List _ true); [apply sample_wf|apply sample_list1]. Defined.

End ListMachine.
