(* ===== verification/StackProps.v ===== *)
(** * Properties of the provenance stack and of the list editing helpers

    The stack discipline that the rewrite rules rely on when they collect the
    provenance attributes their children pushed, positional pops, and the helpers of
    prov_stack.c whose effect differs from their description. *)

From Stdlib Require Import ZArith Lia Sorted.
From stdpp Require Import base gmap strings pretty numbers list.
From S2P Require Import Prelude PgList PgListFacts ProvStack ProvStackFacts.
Import PgList PgListFacts ProvStack ProvStackFacts.

Module StackProps.
Implicit Types (h : heap) (a : loc) (l : option loc) (ty : NodeTag) (cs : list loc) (xs : list Z).

(** ** Pushing and popping *)

Fixpoint push_all l (ys : list Z) : M heap (option loc) :=
  match ys with [] => ret l | y :: ys => l' ← push l y; push_all l' ys end.

Lemma push_all_ok l cs xs ys h :
  wf h → plist h l T_List cs xs →
  ∃ l' cs' h', push_all l ys h = Ok (l', h') ∧ plist h' l' T_List cs' (reverse ys ++ xs) ∧
    evolves l cs l' cs' h h'.
Proof.
  revert l cs xs h. induction ys as [|y ys IH]; intros l cs xs h W P.
  - exists l, cs, h. auto using evolves_refl.
  - cbn [push_all]. unfold push, lcons.
    destruct (lcons_gen_spec T_List l cs xs y h W P) as (a1 & cs1 & h1 & E1 & P1 & V1). hrun E1.
    destruct (IH (Some a1) cs1 (y :: xs) h1 (ev_wf _ _ _ _ _ _ V1) P1) as (l' & cs' & h' & E & P' & V').
    exists l', cs', h'. split; [done|]. rewrite reverse_cons, <- (assoc_L (++)).
    eauto using evolves_trans.
Qed.

Lemma popListAndReverse_ok ty n stack cs xs h :
  wf h → plist h stack ty cs xs → n ≤ len xs →
  ∃ result rcs stack' cs' h',
    popListAndReverse stack (Z.of_nat n) h = Ok ((result, stack'), h') ∧
    plist h' stack' ty cs' (drop n xs) ∧ plist h' result T_List rcs (reverse (take n xs)) ∧
    moves stack cs None [] stack' cs' result rcs h h'.
Proof.
  intros W P Hn. unfold popListAndReverse. rewrite Nat2Z.id.
  destruct (popList_loop_ok ty n stack cs xs None [] [] h W P) as
    (r & rcs & s & cs' & h' & E & Ps & Pr & M); [done|by apply apart_sym, apart_nil|done|].
  rewrite app_nil_r in Pr. by exists r, rcs, s, cs', h'.
Qed.

(** C35: The rewrite rules' use of [pStack]: after pushing [ys], popping that
    many elements with [popListAndReverse] returns them as a new list in the order
    they were pushed, and the stack represents what it did before. *)
Theorem push_then_popList l cs xs ys h :
  wf h → plist h l T_List cs xs →
  ∃ result rcs l' cs' h',
    (l1 ← push_all l ys; popListAndReverse l1 (Z.of_nat (len ys))) h = Ok ((result, l'), h') ∧
    plist h' result T_List rcs ys ∧ plist h' l' T_List cs' xs ∧ apart l' cs' result rcs.
Proof.
  intros W P. destruct (push_all_ok l cs xs ys h W P) as (l1 & cs1 & h1 & E1 & P1 & V1). hrun E1.
  destruct (popListAndReverse_ok T_List (len ys) l1 cs1 _ h1 (ev_wf _ _ _ _ _ _ V1) P1)
    as (r & rcs & l' & cs' & h' & E & Ps & Pr & M).
  { rewrite length_app, length_reverse. lia. }
  exists r, rcs, l', cs', h'. split; [done|].
  rewrite drop_app_length' in Ps by by rewrite length_reverse.
  rewrite take_app_length' in Pr by by rewrite length_reverse.
  rewrite reverse_involutive in Pr. split; [done|]. split; [done|]. apply M.
Qed.

Lemma push_then_popList_witness :
  ∃ result rcs l' cs' h',
    (l1 ← push_all (Some 10%positive) [7; 8]%Z; popListAndReverse l1 2)
      (sample T_List 1 2 3 0 0) = Ok ((result, l'), h') ∧
    plist h' result T_List rcs [7; 8]%Z ∧ plist h' l' T_List cs' [1; 2; 3]%Z ∧
    apart l' cs' result rcs.
Proof.
  apply (push_then_popList (Some 10%positive) [1; 2; 3]%positive [1; 2; 3]%Z [7; 8]%Z);
    [apply sample_wf|apply sample_list1].
Defined.

(** [popAllUntil stack k] leaves exactly the [k] oldest elements on the
    stack and returns the younger ones in the order they were pushed;
    [getAllUntil] returns the same elements and leaves the stack as it is. *)
Theorem popAllUntil_getAllUntil ty stack cs xs k h :
  wf h → plist h stack ty cs xs → k ≤ len xs →
  let n := len xs - k in
  (∃ r rcs stack' cs' h', popAllUntil stack (Z.of_nat k) h = Ok ((r, stack'), h') ∧
     plist h' stack' ty cs' (drop n xs) ∧ len (drop n xs) = k ∧
     plist h' r T_List rcs (reverse (take n xs)) ∧ apart stack' cs' r rcs) ∧
  (∃ r rcs h', getAllUntil stack (Z.of_nat k) h = Ok (r, h') ∧
     plist h' stack ty cs xs ∧ plist h' r T_List rcs (reverse (take n xs)) ∧
     evolves None [] r rcs h h').
Proof.
  intros W P Hk n. unfold popAllUntil, getAllUntil. rewrite !(bind_ok _ _ _ _ _ (list_length_ok _ _ _ _ _ P)).
  replace (Z.of_nat (len xs) - Z.of_nat k)%Z with (Z.of_nat n) by lia. split.
  - destruct (popListAndReverse_ok ty n stack cs xs h W P ltac:(lia))
      as (r & rcs & s & cs' & h' & E & Ps & Pr & M).
    exists r, rcs, s, cs', h'. rewrite length_drop. repeat split; try done; [lia|apply M..].
  - unfold getListAndReverse. rewrite Nat2Z.id.
    destruct (getList_loop_ok ty n 0 stack cs xs None [] [] h W P) as (r & rcs & h' & E & Pr & Ps & V);
      [done|apply apart_nil|lia|].
    rewrite drop_0, app_nil_r in Pr. by exists r, rcs, h'.
Qed.

Lemma popAllUntil_getAllUntil_witness :
  let h := sample T_List 1 2 3 0 0 in
  (∃ r rcs stack' cs' h', popAllUntil (Some 10%positive) 1 h = Ok ((r, stack'), h') ∧
     plist h' stack' T_List cs' [3]%Z ∧ len [3]%Z = 1 ∧
     plist h' r T_List rcs [2; 1]%Z ∧ apart stack' cs' r rcs) ∧
  (∃ r rcs h', getAllUntil (Some 10%positive) 1 h = Ok (r, h') ∧
     plist h' (Some 10%positive) T_List [1; 2; 3]%positive [1; 2; 3]%Z ∧
     plist h' r T_List rcs [2; 1]%Z ∧ evolves None [] r rcs h h').
Proof.
  apply (popAllUntil_getAllUntil T_List (Some 10%positive) [1; 2; 3]%positive [1; 2; 3]%Z 1);
    [apply sample_wf|apply sample_list1|simpl; lia].
Defined.

(** ** Searching *)

(** [listPositionInt] returns the position of the first occurrence, and -1
    exactly when the integer does not occur. *)
Theorem listPositionInt_first ty l cs xs d h :
  plist h l ty cs xs →
  ∃ p, listPositionInt l d h = Ok (p, h) ∧
    (p = (-1)%Z ∧ d ∉ xs ∨
     ∃ i, p = Z.of_nat i ∧ xs !! i = Some d ∧ ∀ j, j < i → xs !! j ≠ Some d).
Proof.
  intros P. unfold listPositionInt. rewrite (position_loop_ok _ _ _ _ _ _ P).
  eexists. split; [done|]. unfold first_position.
  destruct (list_find _ xs) as [[i y]|] eqn:E.
  - apply list_find_Some in E as (Hi & ->%Z.eqb_eq & Hno). right. exists i. repeat split; [done|].
    intros j Hj Hx. by apply (Hno j d Hx Hj), Z.eqb_eq.
  - left. split; [done|]. apply list_find_None in E. intros Hin.
    eapply Forall_forall in E; [|done]. by rewrite Z.eqb_refl in E.
Qed.

Lemma listPositionInt_first_witness :
  ∃ p, listPositionInt (Some 10%positive) 2 (sample T_IntList 1 2 2 0 0)
      = Ok (p, sample T_IntList 1 2 2 0 0) ∧
    (p = (-1)%Z ∧ (2 ∉ [1; 2; 2])%Z ∨
     ∃ i, p = Z.of_nat i ∧ [1; 2; 2]%Z !! i = Some 2%Z ∧ ∀ j, j < i → [1; 2; 2]%Z !! j ≠ Some 2%Z).
Proof. apply (listPositionInt_first T_IntList _ [1; 2; 3]%positive), sample_list1. Defined.

(** [listNthFirstInts n offset] builds [offset, ..., offset+n-1]. *)
Theorem listNthFirstInts_range n offset h :
  wf h → ∃ l cs h', listNthFirstInts (Z.of_nat n) offset h = Ok (l, h') ∧
    plist h' l T_IntList cs ((λ k, Z.of_nat k + offset)%Z <$> seq 0 n) ∧ evolves None [] l cs h h'.
Proof.
  intros W. unfold listNthFirstInts. rewrite Nat2Z.id.
  destruct (firstInts_loop_ok n offset None [] [] h W) as (l & cs & h' & E & P & V); [done|].
  rewrite app_nil_r in P. by exists l, cs, h'.
Qed.

Lemma listNthFirstInts_range_witness :
  ∃ l cs h', listNthFirstInts 3 5 (sample T_List 0 0 0 0 0) = Ok (l, h') ∧
    plist h' l T_IntList cs [5; 6; 7]%Z ∧ evolves None [] l cs (sample T_List 0 0 0 0 0) h'.
Proof. apply (listNthFirstInts_range 3 5), sample_wf. Defined.

(** ** Helpers that do not do what their description says *)

(** [deQueue] ("returns and removes the last element") returns the last
    element and changes nothing: its loop stops at the last cell, not at the one before. *)
Theorem deQueue_removes_nothing ty a cs xs x h :
  list_at h a ty cs xs → last xs = Some x → deQueue (Some a) h = Ok (x, h).
Proof. apply deQueue_ok. Qed.

Lemma deQueue_removes_nothing_witness :
  deQueue (Some 10%positive) (sample T_List 1 2 3 0 0) = Ok (3%Z, sample T_List 1 2 3 0 0).
Proof. apply (deQueue_removes_nothing T_List _ [1; 2; 3]%positive [1; 2; 3]%Z); [apply sample_list1|done]. Defined.

(** removing the first element with [popNth list 0] dereferences the
    element itself as if it were a list cell: unless the element happens to be the
    address of a cell, the access is invalid. *)
Theorem popNth_zero_segv ty a cs x xs h :
  list_at h a ty cs (x :: xs) →
  (∀ p, ptr_of_word x = Some p → cells h !! p = None) → popNth (Some a) 0 h = Err Segv.
Proof.
  intros P Hx. pose proof P as [Hh Hc _ _]. destruct cs as [|c cs]; [done|].
  destruct Hc as [_ (n & Hm & _)]. unfold popNth, popNthCell. hsteps. rewrite decide_True by done. hsteps.
  destruct (ptr_of_word x) as [p|] eqn:E; [|done]. hstep.
  apply bind_err. unfold lfirst. apply bind_err. unfold get_cell. rewrite bind_gets.
  cbn. by rewrite Hx.
Qed.

Lemma popNth_zero_segv_witness : popNth (Some 10%positive) 0 (sample T_IntList 77 2 3 0 0) = Err Segv.
Proof.
  apply (popNth_zero_segv T_IntList _ [1; 2; 3]%positive 77 [2; 3]%Z); [apply sample_list1|].
  intros p [= <-]. reflexivity.
Defined.

(** Whatever its argument, [reverseList] returns [NIL]: it loops over its result. *)
Lemma reverseList_nil l h : reverseList l h = Ok (NIL, h).
Proof. done. Qed.

(** [removeElems] with one position that is not the last: the loop goes on
    with [posLc == NULL] and dereferences it. *)
Theorem removeElems_one_position_segv x y z :
  (pos ← lappend_int NIL 1; removeElems (Some 10%positive) pos) (sample T_List x y z 0 0) = Err Segv.
Proof. vm_compute. reflexivity. Qed.

(** with several positions [removeElems] removes only the largest one and
    leaves the header's length as it was. *)
Lemma removeElems_several_positions x y z :
  ∃ h', removeElems (Some 10%positive) (Some 11%positive) (sample T_List x y z 0 2) = Ok (Some 10%positive, h') ∧
    chain (cells h') (Some 1%positive) [1; 2]%positive [x; y] None ∧
    lists h' !! 10%positive = Some (mkList T_List 3 (Some 1%positive) (Some 3%positive)).
Proof. eexists. split; [vm_compute; reflexivity|]. split; [|reflexivity]. vm_compute. eauto 10. Qed.

(** [removeNodeForPred] (and [removeNodeElem]) on the last element leaves
    the header's tail on the removed cell, so an element appended next is lost to
    every traversal. *)
Theorem removeNodeForPred_then_lappend_lost test x y z w :
  test x = false → test y = false → test z = true →
  ∃ h', (removeNodeForPred test (Some 10%positive);; lappend (Some 10%positive) w)
      (sample T_List x y z 0 0) = Ok (Some 10%positive, h') ∧
    chain (cells h') (Some 1%positive) [1; 2]%positive [x; y] None ∧
    (length <$> lists h' !! 10%positive) = Some 4%Z.
Proof.
  intros Hx Hy Hz. pose (h1 := upd_cell 2 (mkCell y None) (sample T_List x y z 0 0)).
  assert (removeNodeForPred test (Some 10%positive) (sample T_List x y z 0 0) = Ok (tt, h1)) as E.
  { unfold removeNodeForPred, remove_first. erewrite bind_ok; [done|].
    unfold foreach, for_each_cell, list_head. hsteps.
    change (loop_fuel _) with 6. change (head _) with (Some 1%positive).
    erewrite for_each_next; [|erewrite bind_ok by (by apply (lfirst_ok _ (mkCell x (Some 2%positive))));
      cbn [data]; by rewrite Hx|reflexivity].
    erewrite for_each_next; [|erewrite bind_ok by (by apply (lfirst_ok _ (mkCell y (Some 3%positive))));
      cbn [data]; by rewrite Hy|reflexivity].
    erewrite for_each_return; [done|]. erewrite bind_ok by (by apply (lfirst_ok _ (mkCell z None))).
    cbn [data]. by rewrite Hz. }
  hrun E. eexists. split; [vm_compute; reflexivity|]. split; [|reflexivity]. vm_compute. eauto 10.
Qed.

Lemma removeNodeForPred_then_lappend_lost_witness :
  ∃ h', (removeNodeForPred (Z.eqb 3) (Some 10%positive);; lappend (Some 10%positive) 9)
      (sample T_List 1 2 3 0 0) = Ok (Some 10%positive, h') ∧
    chain (cells h') (Some 1%positive) [1; 2]%positive [1; 2]%Z None ∧
    (length <$> lists h' !! 10%positive) = Some 4%Z.
Proof. apply (removeNodeForPred_then_lappend_lost (Z.eqb 3) 1 2 3 9); reflexivity. Defined.

End StackProps.
