(* ===== verification/CString.v ===== *)
(** * C strings and stdio as the libpq client uses them

    A NUL-terminated string is a [string] (it contains no NUL); a pointer into a
    string is the suffix it points at.  The functions are those of <string.h>
    and <stdio.h> that [src/src/interfaces/libpq/fe-exec.c] calls; [buf] is a write of a whole
    string into a buffer of known size. *)

From Stdlib Require Import ZArith Lia Ascii.
From stdpp Require Import base strings pretty numbers list.
From S2P Require Import Prelude.

Module CString.

Abbreviation slen := String.length.
Local Open Scope string_scope.
#[local] Arguments String.append : simpl nomatch.

(** ** Prefixes and suffixes *)

Fixpoint stake (n : nat) (s : string) {struct n} : string :=
  match n, s with S n, String c s => String c (stake n s) | _, _ => "" end.

Fixpoint sdrop (n : nat) (s : string) {struct n} : string :=
  match n, s with O, _ => s | S n, String _ s => sdrop n s | S _, EmptyString => "" end.

(** [s + n]: a pointer [n] bytes further; only positions up to the terminator are valid. *)
Definition advance {S} (s : string) (n : nat) : M S string :=
  if decide (n ≤ slen s)%nat then ret (sdrop n s) else throw Overflow.

(** Write [s] and its terminator into [cap] bytes. *)
Definition fits (cap : Z) (s : string) : Prop := (Z.of_nat (slen s) < cap)%Z.
Definition buf {S} (cap : Z) (s : string) : M S string :=
  if decide (Z.of_nat (slen s) < cap)%Z then ret s else throw Overflow.

(** [printf("%s", p)] with glibc. *)
Definition percent_s (p : option string) : string := match p with Some s => s | None => "(null)" end.

(** [printf("%d")] and its wider variants. *)
Definition percent_d (z : Z) : string := pretty z.

(** ** <string.h> *)

Definition tolower (c : ascii) : ascii :=
  let n := nat_of_ascii c in
  if decide (65 ≤ n ≤ 90)%nat then ascii_of_nat (n + 32)%nat else c.

(** [strncasecmp(s, t, n) == 0] *)
Fixpoint strncaseeq (s t : string) (n : nat) {struct n} : bool :=
  match n with
  | O => true
  | S n =>
      match s, t with
      | String c s, String d t => bool_decide (tolower c = tolower d) && strncaseeq s t n
      | EmptyString, EmptyString => true
      | _, _ => false
      end
  end.

(** [strncmp(s, t, n) == 0] *)
Fixpoint strneq (s t : string) (n : nat) {struct n} : bool :=
  match n with
  | O => true
  | S n =>
      match s, t with
      | String c s, String d t => bool_decide (c = d) && strneq s t n
      | EmptyString, EmptyString => true
      | _, _ => false
      end
  end.

(** [strchr(s, c)] *)
Fixpoint strchr (s : string) (c : ascii) : option string :=
  match s with
  | EmptyString => None
  | String d s' => if decide (d = c) then Some s else strchr s' c
  end.

(** [strcasestr(s, m)] for a nonempty [m]: the text before the first match and the
    suffix that starts with it. *)
Fixpoint strcasestr (s m : string) : option (string * string) :=
  if strncaseeq s m (slen m) then Some ("", s)
  else match s with
       | EmptyString => None
       | String c s' =>
           match strcasestr s' m with Some (p, q) => Some (String c p, q) | None => None end
       end.

(** [strstr(s, m)], in the same form. *)
Fixpoint strstr (s m : string) : option (string * string) :=
  if strneq s m (slen m) then Some ("", s)
  else match s with
       | EmptyString => None
       | String c s' =>
           match strstr s' m with Some (p, q) => Some (String c p, q) | None => None end
       end.

(** The last byte of a string. *)
Fixpoint slast (s : string) : option ascii :=
  match s with
  | EmptyString => None
  | String c EmptyString => Some c
  | String _ s => slast s
  end.

(** [s[strlen(s) - n] = 0] *)
Definition chop {S} (n : nat) (s : string) : M S string :=
  if decide (n ≤ slen s)%nat then ret (stake (slen s - n)%nat s) else throw Overflow.

(** [atoi] of a string without leading blanks. *)
Fixpoint digits (acc : Z) (s : string) : Z :=
  match s with
  | String c s =>
      let n := Z.of_nat (nat_of_ascii c) in
      if decide (48 ≤ n ≤ 57)%Z then digits (acc * 10 + (n - 48)) s else acc
  | EmptyString => acc
  end.

Definition atoi (s : string) : Z :=
  wrap_s 32 (match s with
  | String "-"%char s => - digits 0 s
  | String "+"%char s => digits 0 s
  | _ => digits 0 s
  end).

(** ** <stdio.h> *)

Definition newline : ascii := ascii_of_nat 10.
Definition tab : ascii := ascii_of_nat 9.
Definition nl : string := String newline "".
Definition tb : string := String tab "".

(** [fgets(line, size, f)]: at most [size - 1] bytes, up to and including a
    newline; the line and the rest of the file.  The parameter is an [int]: the caller
    converts.  Without room for a byte nothing is read and the result is a null pointer. *)
Fixpoint fgets_go (n : nat) (f : string) {struct n} : string * string :=
  match n, f with
  | S n, String c f =>
      if decide (c = newline) then (nl, f)
      else let '(l, r) := fgets_go n f in (String c l, r)
  | _, _ => ("", f)
  end.

Definition fgets (size : Z) (f : string) : option (string * string) :=
  if decide (size ≤ 0)%Z then None
  else match f with EmptyString => None | _ => Some (fgets_go (Z.to_nat (size - 1)) f) end.

(** ** Characters of a string *)

Fixpoint sin (c : ascii) (s : string) : Prop :=
  match s with EmptyString => False | String d s => d = c ∨ sin c s end.

#[global] Instance sin_dec c s : Decision (sin c s).
Proof. induction s; simpl; apply _. Defined.

(** ** Lemmas *)

Lemma app_nil_r_s s : s +:+ "" = s.
Proof. induction s; simpl; congruence. Qed.

Lemma app_assoc_s s t u : s +:+ (t +:+ u) = (s +:+ t) +:+ u.
Proof. induction s; simpl; congruence. Qed.

Lemma slen_app s t : slen (s +:+ t) = (slen s + slen t)%nat.
Proof. induction s; simpl; congruence. Qed.

Lemma stake_app s t : stake (slen s) (s +:+ t) = s.
Proof. induction s; simpl; [by destruct t|congruence]. Qed.

Lemma sdrop_app s t : sdrop (slen s) (s +:+ t) = t.
Proof. induction s; done. Qed.

Lemma sdrop_app_ge s t n : (slen s ≤ n)%nat → sdrop n (s +:+ t) = sdrop (n - slen s)%nat t.
Proof. revert n. induction s as [|c s IH]; intros [|n] H; simpl in *; try lia; auto. apply IH. lia. Qed.

Lemma stake_all s : stake (slen s) s = s.
Proof. induction s; simpl; congruence. Qed.

Lemma sin_app c s t : sin c (s +:+ t) ↔ sin c s ∨ sin c t.
Proof. induction s; simpl; tauto. Qed.

Lemma advance_app {S} s t (w : S) : advance (s +:+ t) (slen s) w = Ok (t, w).
Proof. unfold advance. rewrite decide_True by (rewrite slen_app; lia). by rewrite sdrop_app. Qed.

Lemma buf_ok {S} cap s (w : S) : fits cap s → buf cap s w = Ok (s, w).
Proof. unfold fits, buf. intros. by rewrite decide_True. Qed.

Lemma buf_overflow {S} cap s (w : S) : ¬ fits cap s → buf cap s w = Err Overflow.
Proof. unfold fits, buf. intros. by rewrite decide_False. Qed.

Lemma chop_app {S} s t (w : S) : chop (slen t) (s +:+ t) w = Ok (s, w).
Proof.
  unfold chop. rewrite slen_app, decide_True by lia.
  replace (slen s + slen t - slen t)%nat with (slen s) by lia. by rewrite stake_app.
Qed.

Lemma slast_app s c : slast (s +:+ String c "") = Some c.
Proof. induction s as [|d s IH]; [done|]. destruct s; [done|exact IH]. Qed.

Lemma strneq_app s t : strneq (s +:+ t) s (slen s) = true.
Proof. induction s; simpl; [done|]. by rewrite bool_decide_eq_true_2. Qed.

Lemma strncaseeq_app s t : strncaseeq (s +:+ t) s (slen s) = true.
Proof. induction s; simpl; [done|]. by rewrite bool_decide_eq_true_2. Qed.

Lemma strchr_app s c t : ¬ sin c s → strchr (s +:+ String c t) c = Some (String c t).
Proof.
  induction s as [|d s IH]; simpl; intros H.
  - by rewrite decide_True.
  - rewrite decide_False by tauto. apply IH. tauto.
Qed.

Lemma strchr_none s c : ¬ sin c s → strchr s c = None.
Proof. induction s as [|d s IH]; simpl; intros H; [done|]. rewrite decide_False by tauto. apply IH. tauto. Qed.

(** A search pattern without blanks cannot match across a blank. *)
Lemma strncaseeq_blank s r m :
  ¬ sin " " m → strncaseeq (s +:+ String " " r) m (slen m) = strncaseeq s m (slen m).
Proof.
  revert s. induction m as [|d m IH]; intros s H; [by destruct s|]. destruct s as [|c s]; simpl.
  - rewrite bool_decide_eq_false_2; [done|]. intros E. apply H. left.
    unfold tolower in E. destruct d as [[] [] [] [] [] [] [] []]; vm_compute in E; congruence.
  - f_equal. apply IH. simpl in H. tauto.
Qed.

Lemma strcasestr_blank s r m :
  m ≠ "" → ¬ sin " " m → strcasestr s m = None →
  strcasestr (s +:+ String " " r) m =
    match strcasestr r m with Some (p, q) => Some (s +:+ String " " p, q) | None => None end.
Proof.
  intros Hne Hb. induction s as [|c s IH]; intros H.
  - cbn [String.app strcasestr].
    assert (strncaseeq (String " " r) m (slen m) = false) as ->.
    { pose proof (strncaseeq_blank "" r m Hb) as E. cbn [String.app] in E. rewrite E. by destruct m. }
    by destruct (strcasestr r m) as [[]|].
  - assert (strncaseeq (String c s) m (slen m) = false ∧ strcasestr s m = None) as [H1 H2].
    { cbn [strcasestr] in H. destruct (strncaseeq _ _ _); [done|].
      by destruct (strcasestr s m) as [[]|]. }
    cbn [String.app strcasestr].
    pose proof (strncaseeq_blank (String c s) r m Hb) as E. cbn [String.app] in E. rewrite E, H1, IH by done.
    by destruct (strcasestr r m) as [[]|].
Qed.

Lemma strcasestr_here m t : strcasestr (m +:+ t) m = Some ("", m +:+ t).
Proof.
  pose proof (strncaseeq_app m t) as E. destruct (m +:+ t); cbn [strcasestr]; by rewrite E.
Qed.

(** [kw] is [m] in some mixture of upper and lower case. *)
Definition ci (kw m : string) : Prop := slen kw = slen m ∧ strncaseeq kw m (slen m) = true.

Lemma strncaseeq_prefix kw m t n :
  (n ≤ slen kw)%nat → strncaseeq kw m n = true → strncaseeq (kw +:+ t) m n = true.
Proof.
  revert kw m. induction n as [|n IH]; intros kw m Hn H; [done|].
  destruct kw as [|c kw], m as [|d m]; simpl in *; try done; [lia..|].
  apply andb_true_iff in H as [-> H]. apply IH; [lia|done].
Qed.

(** Comparing a variant of [m] is comparing [m]. *)
Lemma strncaseeq_ci kw m t s n :
  ci kw m → (n ≤ slen m)%nat → strncaseeq (kw +:+ t) s n = strncaseeq m s n.
Proof.
  intros [Hl He]. revert kw m s Hl He. induction n as [|n IH]; intros kw m s Hl He Hn; [done|].
  destruct kw as [|c kw], m as [|d m]; simpl in *; try lia.
  apply andb_true_iff in He as [Hc%bool_decide_eq_true He]. destruct s as [|e s]; [done|].
  rewrite Hc. f_equal. apply IH; [lia|done|lia].
Qed.

(** The first occurrence behind a blank, when the text before has none. *)
Lemma strcasestr_keyword s kw m t :
  m ≠ "" → ¬ sin " " m → strcasestr s m = None → ci kw m →
  strcasestr (s +:+ String " " (kw +:+ t)) m = Some (s +:+ " ", kw +:+ t).
Proof.
  intros Hne Hb Hs [Hl He]. rewrite strcasestr_blank by done.
  assert (strncaseeq (kw +:+ t) m (slen m) = true) as E by (apply strncaseeq_prefix; [lia|done]).
  destruct (kw +:+ t); cbn [strcasestr]; by rewrite E.
Qed.

(** Reading back a line that fits the buffer. *)
Lemma fgets_go_line n l r :
  ¬ sin newline l → (slen l < n)%nat → fgets_go n (l +:+ String newline r) = (l +:+ nl, r).
Proof.
  revert n. induction l as [|c l IH]; intros [|n] H Hn; simpl in *; try lia.
  - done.
  - rewrite decide_False by tauto. rewrite IH; [done|tauto|lia].
Qed.

Lemma fgets_line size l r :
  ¬ sin newline l → (Z.of_nat (slen l) + 1 < size)%Z →
  fgets size (l +:+ String newline r) = Some (l +:+ nl, r).
Proof.
  intros H Hs. unfold fgets. rewrite decide_False by lia.
  destruct (l +:+ String newline r) eqn:E; [by destruct l|].
  rewrite <- E, fgets_go_line; [done|done|lia].
Qed.

(** ** Decimal numbers *)

Lemma pretty_go_len k x s : (x < 10 ^ N.of_nat k)%N → (slen (pretty_N_go x s) ≤ k + slen s)%nat.
Proof.
  revert x s. induction k as [|k IH]; intros x s H.
  - assert (x = 0)%N as -> by (simpl in H; lia). by rewrite pretty_N_go_0.
  - destruct (decide (x = 0)%N) as [->|]; [rewrite pretty_N_go_0; lia|].
    rewrite pretty_N_go_step by lia. etrans; [apply IH|simpl; lia].
    apply N.Div0.div_lt_upper_bound. rewrite Nat2N.inj_succ, N.pow_succ_r' in H. lia.
Qed.

Lemma pretty_N_len k x : (0 < k)%nat → (x < 10 ^ N.of_nat k)%N → (slen (pretty x) ≤ k)%nat.
Proof.
  intros Hk Hx. unfold pretty, pretty_N. case_decide; [simpl; lia|].
  etrans; [by apply (pretty_go_len k)|simpl; lia].
Qed.

(** "%lld" takes at most 20 characters. *)
Lemma percent_d_len z : in_s 64 z → (slen (percent_d z) ≤ 20)%nat.
Proof.
  unfold in_s, percent_d. change (2 ^ (64 - 1))%Z with 9223372036854775808%Z. intros H.
  destruct z as [|p|p]; unfold pretty; simpl.
  - lia.
  - apply (pretty_N_len 20); [lia|]. change (10 ^ N.of_nat 20)%N with 100000000000000000000%N. lia.
  - apply le_n_S. apply (pretty_N_len 19); [lia|].
    change (10 ^ N.of_nat 19)%N with 10000000000000000000%N. lia.
Qed.

Definition is_digit (c : ascii) : Prop := (48 ≤ nat_of_ascii c ≤ 57)%nat.

Lemma pretty_go_digits c x s : sin c (pretty_N_go x s) → is_digit c ∨ sin c s.
Proof.
  revert s. induction (N.lt_wf_0 x) as [x _ IH]; intros s.
  destruct (decide (x = 0)%N) as [->|]; [rewrite pretty_N_go_0; auto|].
  rewrite pretty_N_go_step by lia. intros [?|[<-|?]]%IH; [by left| |by right|by apply N.div_lt; lia].
  left. unfold is_digit, pretty_N_char. repeat case_match; vm_compute; lia.
Qed.

Lemma pretty_N_digits c (x : N) : sin c (pretty x) → is_digit c.
Proof.
  unfold pretty, pretty_N. case_decide.
  - intros [<-|[]]. vm_compute. lia.
  - by intros [?|[]]%pretty_go_digits.
Qed.

Lemma percent_d_chars c z : sin c (percent_d z) → is_digit c ∨ c = "-"%char.
Proof.
  unfold percent_d. destruct z as [|p|p].
  - intros [<-|[]]. left. vm_compute. lia.
  - intros H. left. by apply (pretty_N_digits c (N.pos p)).
  - intros [<-|H]; [by right|]. left. by apply (pretty_N_digits c (N.pos p)).
Qed.

Lemma percent_d_no_tab z : ¬ sin tab (percent_d z).
Proof. intros [H|H]%percent_d_chars; [vm_compute in H; lia|done]. Qed.

Lemma percent_d_no_newline z : ¬ sin newline (percent_d z).
Proof. intros [H|H]%percent_d_chars; [vm_compute in H; lia|done]. Qed.

End CString.
