(* ===== verification/LdvState.v ===== *)
(** * LDV client state ([src/src/interfaces/libpq/fe-exec.c], [fe-connect.c])

    The light-weight database virtualisation layer lives in libpq: depending on
    the mode in the environment variable PTU_DB_MODE it records what a client
    does with the database in a log (21: server included, 31: server excluded),
    or answers the client from such a log (22, 32).  This file holds its global variables, the table
    of hashed table names, the interface to the server, and the log primitives. *)

From Stdlib Require Import ZArith Lia Ascii.
From stdpp Require Import base strings pretty numbers list.
From S2P Require Import Prelude CString.
Import CString.

Module LdvState.

(** ** Constants *)

Definition STR_LEN : Z := 50.
Definition STR_LONG_LEN : Z := 1024000.
Definition STR_MAX_LEN : Z := 1000.
Definition HASH_LEN : nat := 10.

(** ** The hash of table names *)

Record hashtbl_t := mkTbl { size : nat; hash : list Z }.

(** A [char] promoted to [int]. *)
Definition char_int (c : ascii) : Z := wrap_s 8 (Z.of_nat (nat_of_ascii c)).

Fixpoint prv_hash_go (h : Z) (str : string) : Z :=
  match str with
  | EmptyString => h
  | String c str =>
      prv_hash_go (Z.lxor (wrap_s 64 (wrap_s 64 (Z.shiftl h 5) + h)) (char_int c)) str
  end.

Definition prv_hash (str : string) : Z :=
  let h := prv_hash_go 5381 str in
  if decide (h < 0)%Z then wrap_s 64 (- h) else h.

Definition prv_hashInit : hashtbl_t := mkTbl 0 (replicate HASH_LEN 0%Z).

Definition prv_hashPut (dict : hashtbl_t) (str : string) : hashtbl_t :=
  if decide (size dict < HASH_LEN)%nat
  then mkTbl (S (size dict)) (<[size dict := prv_hash str]> (hash dict))
  else dict.

Definition prv_hashContains (dict : hashtbl_t) (str : string) : bool :=
  existsb (Z.eqb (prv_hash str)) (take (size dict) (hash dict)).

(** ** Query results *)

Inductive ExecStatusType :=
| PGRES_EMPTY_QUERY | PGRES_COMMAND_OK | PGRES_TUPLES_OK | PGRES_COPY_OUT | PGRES_COPY_IN
| PGRES_BAD_RESPONSE | PGRES_NONFATAL_ERROR | PGRES_FATAL_ERROR.

#[global] Instance ExecStatusType_eq_dec : EqDecision ExecStatusType.
Proof. solve_decision. Defined.

(** A result: status, the column names, the rows as text (SQL NULL is the empty
    string for [PQgetvalue]). *)
Record PGresult := mkRes {
  resultStatus : ExecStatusType; attDescs : list string; tuples : list (list string) }.

Definition PQresultStatus (r : option PGresult) : ExecStatusType :=
  match r with None => PGRES_FATAL_ERROR | Some r => resultStatus r end.

Definition PQntuples (r : option PGresult) : nat :=
  match r with None => 0%nat | Some r => List.length (tuples r) end.

Definition PQnfields (r : option PGresult) : nat :=
  match r with None => 0%nat | Some r => List.length (attDescs r) end.

Definition check_field_number (r : option PGresult) (n : nat) : bool :=
  bool_decide (n < PQnfields r)%nat.

Definition check_tuple_field_number (r : option PGresult) (t n : nat) : bool :=
  bool_decide (t < PQntuples r)%nat && bool_decide (n < PQnfields r)%nat.

Definition PQfname (r : option PGresult) (n : nat) : option string :=
  if check_field_number r n then match r with Some r => attDescs r !! n | None => None end else None.

Definition PQgetvalue (r : option PGresult) (t n : nat) : option string :=
  if check_tuple_field_number r t n
  then match r with
       | Some r => match tuples r !! t with Some row => row !! n | None => None end
       | None => None
       end
  else None.

(** Every row has one value per column. *)
Definition res_wf (r : option PGresult) : Prop :=
  match r with
  | None => True
  | Some r => Forall (λ row, List.length row = List.length (attDescs r)) (tuples r)
  end.

(** ** The server and the client's global state *)

(** The fields of a connection that the layer reads. *)
Record PGconn := mkConn { dbName : string; pguser : string }.

(** The rest of libpq and the server behind it: connecting, executing one
    statement, closing.  [exec] returns [NULL] when the statement could not be sent. *)
Class Server (Srv : Type) := {
  srv_connect : string → Srv → PGconn * Srv;
  srv_exec : string → Srv → option PGresult * Srv;
  srv_finish : Srv → Srv;
  srv_exec_wf sql s : res_wf (fst (srv_exec sql s)) }.

(** What is sent to the server. *)
Inductive event := Connect (conninfo : string) | Exec (sql : string) | Finish.

#[global] Instance event_eq_dec : EqDecision event.
Proof. solve_decision. Defined.

(** The static variables of fe-exec.c.  A [FILE *] for writing is the text
    written so far, one for reading the text not yet read; both are [None] before
    [fopen] and after [fclose].  [os_pid] is [getpid()]. *)
Record world (Srv : Type) := mkWorld {
  is_init : bool;
  sessionid : Z;
  dict_tblmod : hashtbl_t;
  dict_tblstore : hashtbl_t;
  f_out_dblog : option string;
  f_in_dblog : option string;
  DB_MODE : Z;
  pkg_counter : Z;
  os_pid : Z;
  trace : list event;
  srv : Srv }.
Arguments mkWorld {Srv}.
Arguments is_init {Srv}.
Arguments sessionid {Srv}.
Arguments dict_tblmod {Srv}.
Arguments dict_tblstore {Srv}.
Arguments f_out_dblog {Srv}.
Arguments f_in_dblog {Srv}.
Arguments DB_MODE {Srv}.
Arguments pkg_counter {Srv}.
Arguments os_pid {Srv}.
Arguments trace {Srv}.
Arguments srv {Srv}.

Section state.
Context {Srv : Type}.
Implicit Types (w : world Srv).

Definition set_init b w :=
  mkWorld b (sessionid w) (dict_tblmod w) (dict_tblstore w) (f_out_dblog w) (f_in_dblog w)
    (DB_MODE w) (pkg_counter w) (os_pid w) (trace w) (srv w).
Definition set_session z w :=
  mkWorld (is_init w) z (dict_tblmod w) (dict_tblstore w) (f_out_dblog w) (f_in_dblog w)
    (DB_MODE w) (pkg_counter w) (os_pid w) (trace w) (srv w).
Definition set_tblmod d w :=
  mkWorld (is_init w) (sessionid w) d (dict_tblstore w) (f_out_dblog w) (f_in_dblog w)
    (DB_MODE w) (pkg_counter w) (os_pid w) (trace w) (srv w).
Definition set_tblstore d w :=
  mkWorld (is_init w) (sessionid w) (dict_tblmod w) d (f_out_dblog w) (f_in_dblog w)
    (DB_MODE w) (pkg_counter w) (os_pid w) (trace w) (srv w).
Definition set_out f w :=
  mkWorld (is_init w) (sessionid w) (dict_tblmod w) (dict_tblstore w) f (f_in_dblog w)
    (DB_MODE w) (pkg_counter w) (os_pid w) (trace w) (srv w).
Definition set_in f w :=
  mkWorld (is_init w) (sessionid w) (dict_tblmod w) (dict_tblstore w) (f_out_dblog w) f
    (DB_MODE w) (pkg_counter w) (os_pid w) (trace w) (srv w).
Definition set_mode z w :=
  mkWorld (is_init w) (sessionid w) (dict_tblmod w) (dict_tblstore w) (f_out_dblog w)
    (f_in_dblog w) z (pkg_counter w) (os_pid w) (trace w) (srv w).
Definition set_counter z w :=
  mkWorld (is_init w) (sessionid w) (dict_tblmod w) (dict_tblstore w) (f_out_dblog w)
    (f_in_dblog w) (DB_MODE w) z (os_pid w) (trace w) (srv w).
Definition set_srv (e : event) (s : Srv) w :=
  mkWorld (is_init w) (sessionid w) (dict_tblmod w) (dict_tblstore w) (f_out_dblog w)
    (f_in_dblog w) (DB_MODE w) (pkg_counter w) (os_pid w) (trace w ++ [e]) s.

(** [fprintf(f_out_dblog, ...)]; writing to a file that is not open is invalid. *)
Definition log (text : string) : M (world Srv) unit := λ w,
  match f_out_dblog w with
  | None => Err Segv
  | Some f => Ok (tt, set_out (Some (f +:+ text)) w)
  end.

Context `{Server Srv}.

Definition PQexecSingle (query : string) : M (world Srv) (option PGresult) := λ w,
  let '(r, s) := srv_exec query (srv w) in Ok (r, set_srv (Exec query) s w).

Definition PQconnectdbSingle (conninfo : string) : M (world Srv) PGconn := λ w,
  let '(c, s) := srv_connect conninfo (srv w) in Ok (c, set_srv (Connect conninfo) s w).

Definition PQfinishSingle : M (world Srv) unit := λ w,
  Ok (tt, set_srv Finish (srv_finish (srv w)) w).

End state.

(** ** Facts about the hash table *)

(** The array has its declared size and the counter stays within it. *)
Definition tbl_wf (d : hashtbl_t) : Prop :=
  List.length (hash d) = HASH_LEN ∧ (size d ≤ HASH_LEN)%nat.

Lemma tbl_wf_init : tbl_wf prv_hashInit.
Proof. split; [done|unfold HASH_LEN; simpl; lia]. Qed.

Lemma tbl_wf_put d s : tbl_wf d → tbl_wf (prv_hashPut d s).
Proof.
  intros [H1 H2]. unfold prv_hashPut. case_decide; [|done].
  split; simpl; [by rewrite length_insert|lia].
Qed.

Lemma contains_put d s t :
  tbl_wf d → (size d < HASH_LEN)%nat →
  prv_hashContains (prv_hashPut d s) t = Z.eqb (prv_hash t) (prv_hash s) || prv_hashContains d t.
Proof.
  intros [H1 H2] Hs. unfold prv_hashContains, prv_hashPut. rewrite decide_True by done. simpl.
  rewrite (take_S_r _ _ (prv_hash s)) by (rewrite list_lookup_insert_eq; [done|lia]).
  rewrite existsb_app, take_insert_ge by lia. simpl. rewrite orb_false_r. apply orb_comm.
Qed.

Lemma contains_put_full d s t :
  (HASH_LEN ≤ size d)%nat → prv_hashContains (prv_hashPut d s) t = prv_hashContains d t.
Proof. intros Hs. unfold prv_hashPut. by rewrite decide_False by lia. Qed.

Lemma in_s_shiftr z : in_s 64 z ↔ Z.shiftr z 63 = 0%Z ∨ Z.shiftr z 63 = (-1)%Z.
Proof.
  unfold in_s. rewrite Z.shiftr_div_pow2 by lia. change (2 ^ (64 - 1))%Z with (2 ^ 63)%Z.
  pose proof (Z.div_mod z (2 ^ 63)) as E. pose proof (Z.mod_pos_bound z (2 ^ 63)) as B.
  split; intros; [|lia]. assert (-1 ≤ z / 2 ^ 63 < 1)%Z; [|lia].
  split; [apply Z.div_le_lower_bound|apply Z.div_lt_upper_bound]; lia.
Qed.

Lemma lxor_in_s a b : in_s 64 a → in_s 64 b → in_s 64 (Z.lxor a b).
Proof.
  rewrite !in_s_shiftr, Z.shiftr_lxor. intros [-> | ->] [-> | ->]; auto.
Qed.

Lemma char_int_in_s c : in_s 64 (char_int c).
Proof.
  unfold char_int. pose proof (wrap_s_range 8 (Z.of_nat (nat_of_ascii c)) ltac:(lia)) as H.
  unfold in_s in *. change (2 ^ (8 - 1))%Z with 128%Z in H.
  change (2 ^ (64 - 1))%Z with 9223372036854775808%Z. lia.
Qed.

Lemma prv_hash_go_in_s h s : in_s 64 h → in_s 64 (prv_hash_go h s).
Proof.
  revert h. induction s as [|c s IH]; intros h Hh; simpl; [done|]. apply IH.
  apply lxor_in_s; [apply wrap_s_range; lia|apply char_int_in_s].
Qed.

Lemma prv_hash_in_s s : in_s 64 (prv_hash s).
Proof.
  unfold prv_hash. case_decide; [apply wrap_s_range; lia|]. apply prv_hash_go_in_s.
  unfold in_s. vm_compute. split; congruence.
Qed.

#[export] Hint Resolve tbl_wf_init tbl_wf_put prv_hash_in_s : perm.

End LdvState.
