(* ===== verification/LdvPackets.v ===== *)
(** * Recording and replaying server packets
      ([prv_store_read], [prv_restore_read] of fe-exec.c, [pqsecure_read],
      [pqsecure_write] of fe-secure.c)

    In mode 31 every chunk that [recv] returns is logged in hexadecimal; in mode 32
    the client runs without a server and reads the chunks back from the log. *)

From Stdlib Require Import ZArith Lia Ascii.
From stdpp Require Import base strings pretty numbers list.
From S2P Require Import Prelude CString LdvState.
Import CString LdvState.

Module LdvPackets.
#[local] Arguments String.append : simpl nomatch.

(** ** Hexadecimal digits *)

(** Both functions return [unsigned char]. *)
Definition getHex (ch : Z) : Z := wrap_u 8 (if decide (ch > 9)%Z then ch + 97 - 10 else ch + 48).
Definition getChar (ch : Z) : Z := wrap_u 8 (if decide (ch > 57)%Z then ch - 97 + 10 else ch - 48).

Definition chr (z : Z) : ascii := ascii_of_N (Z.to_N z).
Definition ord (c : ascii) : Z := Z.of_N (N_of_ascii c).

Section packets.
Context {Srv : Type}.
Implicit Types (w : world Srv).

(** ** Recording *)

(** [for (i = 0; i < n; i++) fprintf("%c%c", getHex(ch / 16), getHex(ch % 16))], for an
    [n] the counter can reach. *)
Fixpoint hex_loop (n : nat) (ptr : list Z) : M (world Srv) unit :=
  match n with
  | O => ret tt
  | S n =>
      match ptr with
      | [] => throw Overflow
      | ch :: ptr =>
          log (String (chr (getHex (ch / 16))) (String (chr (getHex (ch mod 16))) ""));;
          hex_loop n ptr
      end
  end.

(** The counter [i] is an [int] and [n] a [ssize_t]: the counter overflows on more than
    [2^31 - 1] bytes. *)
Definition prv_store_read (ptr : list Z) (n : Z) : M (world Srv) unit :=
  c ← gets pkg_counter;
  modify (set_counter (wrap_s 64 (c + 1)));;
  log ("prv_store_read" +:+ tb +:+ percent_d c +:+ tb +:+ percent_d n +:+ tb);;
  (if decide (2 ^ 31 ≤ n)%Z then throw Overflow else hex_loop (Z.to_nat n) ptr);;
  log nl.

(** ** Replaying *)

(** [strchr(start, '\t') + 1]; without a tab the pointer is invalid. *)
Definition after_tab (s : string) : M (world Srv) string :=
  match strchr s tab with Some (String _ t) => ret t | _ => throw Segv end.

(** [while ( *start != '\n') {...}]: decode up to the newline into [ptr] of [room]
    bytes.  A line without a newline, an odd digit or a full buffer leads out of bounds. *)
Fixpoint decode_loop (room : nat) (start : string) : M (world Srv) (list Z) :=
  match start with
  | EmptyString => throw Overflow
  | String c start =>
      if decide (c = newline) then ret []
      else
        match start, room with
        | String d start, S room =>
            rest ← decode_loop room start;
            ret (wrap_u 8 (Z.lor (Z.shiftl (getChar (char_int c)) 4) (getChar (char_int d))) :: rest)
        | _, _ => throw Overflow
        end
  end.

(** The size given to [fgets]: [2*len + 100] is a [size_t], the parameter an [int]. *)
Definition line_size (len : Z) : Z := wrap_s 32 (2 * len + 100).

(** The loop over the lines of the log; [line_size] is even, so that every iteration
    that reads at all consumes at least one byte. *)
Fixpoint restore_loop (fuel : nat) (len : Z) : M (world Srv) (option (list Z)) :=
  match fuel with
  | O => throw Hang
  | S fuel =>
      f ← gets f_in_dblog;
      text ← deref f;
      match fgets (line_size len) text with
      | None => ret None
      | Some (line, rest) =>
          modify (set_in (Some rest));;
          if strneq line "prv_store_read" 14
          then
            start ← after_tab line;
            start ← after_tab start;
            start ← after_tab start;
            bytes ← decode_loop (Z.to_nat len) start;
            ret (Some bytes)
          else restore_loop fuel len
      end
  end.

(** The bytes put into [ptr] ( *n is their number); [None] when the log has no
    further packet, in which case *n is not written. *)
Definition prv_restore_read (len : Z) : M (world Srv) (option (list Z)) :=
  f ← gets f_in_dblog;
  text ← deref f;
  restore_loop (S (slen text)) len.

(** ** fe-secure.c: the socket calls *)

(** The plain-socket branch of [pqsecure_read]: [recv] has produced [r] bytes in
    [ptr] (or -1 and nothing).  The result is [ptr] and [n]; [n] is [None] when it is never
    assigned. *)
Definition pqsecure_read (recv : list Z * Z) (len : Z) : M (world Srv) (list Z * option Z) :=
  mode ← gets DB_MODE;
  if decide (mode = 31)%Z then
    prv_store_read (fst recv) (snd recv);; ret (fst recv, Some (snd recv))
  else if decide (mode = 32)%Z then
    r ← prv_restore_read len;
    ret (match r with Some bytes => (bytes, Some (Z.of_nat (List.length bytes))) | None => ([], None) end)
  else ret (fst recv, Some (snd recv)).

(** The plain-socket branch of [pqsecure_write]: in mode 32 nothing is sent. *)
Definition pqsecure_write (send : Z → Z) (len : Z) : M (world Srv) Z :=
  mode ← gets DB_MODE; ret (if decide (mode = 32)%Z then len else send len).

End packets.

(** ** Lemmas *)

Definition byte (z : Z) : Prop := (0 ≤ z < 256)%Z.

(** The two digits of a byte. *)
Definition hex_of (z : Z) : string :=
  String (chr (getHex (z / 16))) (String (chr (getHex (z mod 16))) "").

Fixpoint hex_text (bs : list Z) : string :=
  match bs with [] => "" | b :: bs => hex_of b +:+ hex_text bs end.

Definition hex_ok (z : Z) : bool :=
  let c := chr (getHex (z / 16)) in
  let d := chr (getHex (z mod 16)) in
  (wrap_u 8 (Z.lor (Z.shiftl (getChar (char_int c)) 4) (getChar (char_int d))) =? z)%Z
  && negb (bool_decide (c = newline)) && negb (bool_decide (d = newline)).

Lemma hex_ok_all : forallb (λ n, hex_ok (Z.of_nat n)) (seq 0 256) = true.
Proof. vm_compute. reflexivity. Qed.

Lemma hex_ok_byte z : byte z → hex_ok z = true.
Proof.
  intros Hz. replace z with (Z.of_nat (Z.to_nat z)) by (unfold byte in Hz; lia).
  pose proof hex_ok_all as H. rewrite forallb_forall in H. apply H, in_seq. unfold byte in Hz. lia.
Qed.

Lemma hex_digits z : byte z →
  let c := chr (getHex (z / 16)) in
  let d := chr (getHex (z mod 16)) in
  wrap_u 8 (Z.lor (Z.shiftl (getChar (char_int c)) 4) (getChar (char_int d))) = z ∧
  c ≠ newline ∧ d ≠ newline.
Proof.
  intros Hok%hex_ok_byte c d.
  unfold hex_ok in Hok. apply andb_true_iff in Hok as [[Hv%Z.eqb_eq Hc]%andb_true_iff Hd].
  split; [done|]. split; intros E; [rewrite bool_decide_true in Hc|rewrite bool_decide_true in Hd]; done.
Qed.

(** Split the disjunctions of the context. *)
Ltac destr_or := repeat match goal with H : _ ∨ _ |- _ => destruct H as [H|H] end.

Section roundtrip.
Context {Srv : Type}.
Implicit Types (w : world Srv).

Lemma log_ok f text w :
  f_out_dblog w = Some f → log text w = Ok (tt, set_out (Some (f +:+ text)) w).
Proof. unfold log. by intros ->. Qed.

Lemma hex_loop_ok bs w f :
  f_out_dblog w = Some f →
  hex_loop (List.length bs) bs w = Ok (tt, set_out (Some (f +:+ hex_text bs)) w).
Proof.
  revert w f. induction bs as [|b bs IH]; intros w f Hf; cbn [hex_loop hex_text List.length].
  - rewrite app_nil_r_s, <- Hf. by destruct w.
  - hrun (log_ok _ _ _ Hf). rewrite (IH _ (f +:+ hex_of b)) by done. by rewrite <- app_assoc_s.
Qed.

(** One line of the log. *)
Definition packet_line (c n : Z) (bs : list Z) : string :=
  "prv_store_read" +:+ tb +:+ percent_d c +:+ tb +:+ percent_d n +:+ tb +:+ hex_text bs.

Lemma prv_store_read_ok bs n w f :
  f_out_dblog w = Some f → Z.to_nat n = List.length bs → (n < 2 ^ 31)%Z →
  prv_store_read bs n w =
    Ok (tt, set_out (Some (f +:+ packet_line (pkg_counter w) n bs +:+ nl))
              (set_counter (wrap_s 64 (pkg_counter w + 1)) w)).
Proof.
  intros Hf Hn Hi. unfold prv_store_read. rewrite bind_gets, bind_modify.
  erewrite bind_ok by (apply log_ok; exact Hf). rewrite Hn, decide_False by lia.
  erewrite bind_ok by (by apply hex_loop_ok). erewrite log_ok by done.
  unfold packet_line. rewrite !app_assoc_s. done.
Qed.

Lemma hex_text_len bs : slen (hex_text bs) = (2 * List.length bs)%nat.
Proof. induction bs as [|b bs IH]; [done|]. cbn [hex_text]. rewrite slen_app, IH. simpl. lia. Qed.

Lemma hex_text_no_newline bs : Forall byte bs → ¬ sin newline (hex_text bs).
Proof.
  induction 1 as [|b bs Hb _ IH]; [intros []|]. cbn [hex_text]. rewrite sin_app.
  destruct (hex_digits b Hb) as (_ & Hc & Hd). intros [[E|[E|[]]]|E]; [by apply Hc|by apply Hd|by apply IH].
Qed.

Lemma decode_ok room bs w :
  Forall byte bs → (List.length bs ≤ room)%nat →
  decode_loop room (hex_text bs +:+ nl) w = Ok (bs, w).
Proof.
  intros Hb. revert room. induction Hb as [|b bs Hb _ IH]; intros room Hr; [by destruct room|].
  destruct (hex_digits b Hb) as (Hv & Hc & Hd).
  destruct room as [|room]; simpl in Hr; [lia|]. cbn [hex_text].
  unfold hex_of. cbn [String.append decode_loop]. rewrite decide_False by done.
  hrun (IH room ltac:(lia)). by rewrite Hv.
Qed.

Lemma after_tab_ok s t w : ¬ sin tab s → after_tab (s +:+ tb +:+ t) w = Ok (t, w).
Proof. intros Hs. unfold after_tab, tb. cbn [String.append]. by rewrite strchr_app. Qed.

Lemma packet_line_no_newline c n bs : Forall byte bs → ¬ sin newline (packet_line c n bs).
Proof.
  intros Hb. unfold packet_line. rewrite !sin_app.
  pose proof (percent_d_no_newline c). pose proof (percent_d_no_newline n).
  pose proof (hex_text_no_newline bs Hb).
  intros H'. destr_or. all: try done. all: vm_compute in H'; naive_solver.
Qed.

(** The buffers [prv_restore_read] can serve: the [int] size of the line is
    [2*len + 100] itself. *)
Definition max_len : Z := 2 ^ 30 - 50.

(** A chunk fits such a buffer. *)
Definition chunk_fits (bs : list Z) (len : Z) : Prop := (Z.of_nat (List.length bs) ≤ len < max_len)%Z.

Lemma line_size_ok len : (0 ≤ len < max_len)%Z → line_size len = (2 * len + 100)%Z.
Proof. unfold max_len, line_size. intros H. apply wrap_s_id; [lia|]. unfold in_s. simpl. lia. Qed.

Lemma packet_line_len c n bs len :
  in_s 64 c → in_s 64 n → chunk_fits bs len →
  (Z.of_nat (slen (packet_line c n bs)) + 1 < line_size len)%Z.
Proof.
  intros Hc Hn Hl. rewrite line_size_ok by (unfold chunk_fits in Hl; lia).
  unfold chunk_fits in Hl. unfold packet_line. rewrite !slen_app, hex_text_len.
  pose proof (percent_d_len c Hc). pose proof (percent_d_len n Hn). simpl. lia.
Qed.

Lemma length_in_s bs len : chunk_fits bs len → in_s 64 (Z.of_nat (List.length bs)).
Proof. unfold chunk_fits, max_len, in_s. simpl. lia. Qed.

(** The loop skips a line that is not a packet. *)
Lemma restore_loop_skip fuel len l rest w :
  f_in_dblog w = Some (l +:+ String newline rest) → ¬ sin newline l →
  (Z.of_nat (slen l) + 1 < line_size len)%Z → strneq (l +:+ nl) "prv_store_read" 14 = false →
  restore_loop (S fuel) len w = restore_loop fuel len (set_in (Some rest) w).
Proof.
  intros Hf Hn Hl Hp. cbn [restore_loop]. rewrite bind_gets, Hf, bind_deref, fgets_line by done.
  rewrite bind_modify. by rewrite Hp.
Qed.

(** The replayed packet is the recorded one, and the rest of the log is left. *)
Lemma restore_loop_packet fuel c n bs rest len w :
  f_in_dblog w = Some (packet_line c n bs +:+ String newline rest) →
  in_s 64 c → in_s 64 n → Forall byte bs → chunk_fits bs len →
  restore_loop (S fuel) len w = Ok (Some bs, set_in (Some rest) w).
Proof.
  intros Hf Hc Hn Hb Hl. cbn [restore_loop]. rewrite bind_gets, Hf, bind_deref.
  rewrite fgets_line by (by apply packet_line_no_newline || by apply packet_line_len).
  rewrite bind_modify. unfold packet_line at 1. rewrite <- !app_assoc_s, strneq_app.
  unfold packet_line. rewrite <- !app_assoc_s.
  erewrite bind_ok by (apply after_tab_ok; vm_compute; naive_solver).
  erewrite bind_ok by (apply after_tab_ok, percent_d_no_tab).
  erewrite bind_ok by (apply after_tab_ok, percent_d_no_tab).
  erewrite bind_ok by (apply decode_ok; [done|unfold chunk_fits in Hl; lia]). done.
Qed.

Lemma prv_restore_read_ok c n bs rest len w :
  f_in_dblog w = Some (packet_line c n bs +:+ String newline rest) →
  in_s 64 c → in_s 64 n → Forall byte bs → chunk_fits bs len →
  prv_restore_read len w = Ok (Some bs, set_in (Some rest) w).
Proof.
  intros Hf Hc Hn Hb Hl. unfold prv_restore_read. rewrite bind_gets, Hf, bind_deref.
  by eapply restore_loop_packet.
Qed.

(** With a buffer of [max_len] bytes or more the size of the line becomes a negative
    [int]: nothing is read, the packet is lost and [n] is left unassigned. *)
Lemma large_buffer_reads_nothing len text w :
  (max_len ≤ len < 2 ^ 31 - 50)%Z → DB_MODE w = 32%Z → f_in_dblog w = Some text →
  pqsecure_read ([], -1)%Z len w = Ok (([], None), w).
Proof.
  intros Hl Hm Hf. unfold pqsecure_read. rewrite bind_gets, Hm, decide_False, decide_True by done.
  assert (prv_restore_read len w = Ok (None, w)) as E; [|by erewrite bind_ok by exact E].
  unfold prv_restore_read. rewrite bind_gets, Hf, bind_deref. cbn [restore_loop]. rewrite bind_gets, Hf, bind_deref. unfold fgets. rewrite decide_True; [done|].
  unfold line_size, wrap_s, max_len in *.
  replace (2 * len + 100 + 2 ^ (32 - 1))%Z with ((2 * len + 100 - 2 ^ 31) + 1 * 2 ^ 32)%Z by lia.
  rewrite Z.mod_add, Z.mod_small by lia. lia.
Qed.

(** ** Sessions *)

(** Record the chunks a sequence of [recv] calls returned. *)
Fixpoint record_all (chunks : list (list Z)) : M (world Srv) unit :=
  match chunks with
  | [] => ret tt
  | bs :: chunks =>
      pqsecure_read (bs, Z.of_nat (List.length bs)) (Z.of_nat (List.length bs));;
      record_all chunks
  end.

(** Read with buffers of the given sizes. *)
Fixpoint replay_all (lens : list Z) : M (world Srv) (list (list Z * option Z)) :=
  match lens with
  | [] => ret []
  | len :: lens =>
      r ← pqsecure_read ([], -1)%Z len;
      rs ← replay_all lens;
      ret (r :: rs)
  end.

(** The log of a list of chunks, the first one numbered [c]. *)
Fixpoint session_log (c : Z) (chunks : list (list Z)) : string :=
  match chunks with
  | [] => ""
  | bs :: chunks =>
      packet_line c (Z.of_nat (List.length bs)) bs +:+ String newline (session_log (wrap_s 64 (c + 1)) chunks)
  end.

Lemma record_all_ok chunks w f :
  DB_MODE w = 31%Z → f_out_dblog w = Some f →
  Forall (λ bs, Z.of_nat (List.length bs) < 2 ^ 31)%Z chunks →
  ∃ w', record_all chunks w = Ok (tt, w') ∧
    f_out_dblog w' = Some (f +:+ session_log (pkg_counter w) chunks).
Proof.
  intros Hm Hf Hl. revert w f Hm Hf. induction Hl as [|bs chunks Hl _ IH]; intros w f Hm Hf.
  - exists w. by rewrite app_nil_r_s.
  - cbn [record_all]. unfold pqsecure_read at 1. rewrite !bind_assoc, bind_gets, Hm.
    rewrite decide_True by done. rewrite bind_assoc. cbn [fst snd].
    hrun (prv_store_read_ok bs (Z.of_nat (List.length bs)) w f Hf (Nat2Z.id _) Hl). rewrite bind_ret.
    destruct (IH (set_out (Some (f +:+ packet_line (pkg_counter w) (Z.of_nat (List.length bs)) bs +:+ nl))
              (set_counter (wrap_s 64 (pkg_counter w + 1)) w)) _ Hm eq_refl) as (w' & E & Hw').
    exists w'. split; [done|]. rewrite Hw'. cbn [session_log].
    unfold nl. rewrite <- !app_assoc_s. done.
Qed.

Lemma fits_all_int chunks lens :
  Forall2 (λ bs len, Forall byte bs ∧ chunk_fits bs len) chunks lens →
  Forall (λ bs, Z.of_nat (List.length bs) < 2 ^ 31)%Z chunks.
Proof.
  induction 1 as [|bs len chunks lens [_ Hl] _ IH]; constructor; [|done].
  unfold chunk_fits, max_len in Hl. lia.
Qed.

Lemma replay_all_ok chunks lens c w :
  DB_MODE w = 32%Z → f_in_dblog w = Some (session_log c chunks) → in_s 64 c →
  Forall2 (λ bs len, Forall byte bs ∧ chunk_fits bs len) chunks lens →
  replay_all lens w =
    Ok ((λ bs, (bs, Some (Z.of_nat (List.length bs)))) <$> chunks, set_in (Some "") w).
Proof.
  intros Hm Hf Hc HF. revert c w Hm Hf Hc.
  induction HF as [|bs len chunks lens [Hb Hl] _ IH]; intros c w Hm Hf Hc.
  - simpl in *. rewrite <- Hf. by destruct w.
  - cbn [replay_all]. unfold pqsecure_read at 1. rewrite !bind_assoc, bind_gets, Hm.
    rewrite decide_False, decide_True by done. rewrite bind_assoc.
    hrun (prv_restore_read_ok c _ bs _ len w Hf Hc (length_in_s _ _ Hl) Hb Hl).
    rewrite bind_ret.
    by hrun (IH (wrap_s 64 (c + 1)) (set_in (Some (session_log (wrap_s 64 (c + 1)) chunks)) w)
               Hm eq_refl (wrap_s_range 64 (c + 1) eq_refl)).
Qed.

(** The line [prv_init_pkg_capture] writes when it opens the log. *)
Definition init_line (session : string) : string := "prv_init" +:+ tb +:+ session.

(** A reader that starts at that line gets the first packet behind it. *)
Lemma read_behind_init session c n bs rest len w :
  f_in_dblog w = Some (init_line session +:+ String newline (packet_line c n bs +:+ String newline rest)) →
  ¬ sin newline session → (slen session < 80)%nat →
  in_s 64 c → in_s 64 n → Forall byte bs → chunk_fits bs len →
  prv_restore_read len w = Ok (Some bs, set_in (Some rest) w).
Proof.
  intros Hf Hs Hsl Hc Hn Hb Hl. unfold prv_restore_read. rewrite bind_gets, Hf, bind_deref.
  unfold init_line at 1. cbn [String.append slen].
  rewrite (restore_loop_skip _ len (init_line session) _ w Hf).
  - by erewrite restore_loop_packet by done.
  - unfold init_line. rewrite !sin_app. intros H. destr_or; [vm_compute in H; naive_solver..|done].
  - unfold chunk_fits in Hl. rewrite line_size_ok by lia. unfold init_line. rewrite !slen_app. simpl. lia.
  - reflexivity.
Qed.

End roundtrip.

(** C2: record and replay of server packets.  Whatever chunks the server
    sent while the client ran in mode 31, a client in mode 32 that reads the log
    with buffers at least as large gets the same chunks with the same lengths, in the same
    order, without a server, and consumes the log completely.  The buffers must be smaller
    than [max_len], [2^30 - 50] bytes: see [large_buffer_reads_nothing]. *)
Theorem packets_replayed {Srv} session chunks lens (w w2 : world Srv) :
  DB_MODE w = 31%Z → f_out_dblog w = Some (init_line session +:+ nl) →
  ¬ sin newline session → (slen session < 80)%nat →
  in_s 64 (pkg_counter w) → DB_MODE w2 = 32%Z → chunks ≠ [] →
  Forall2 (λ bs len, Forall byte bs ∧ chunk_fits bs len) chunks lens →
  ∃ w1 text, record_all chunks w = Ok (tt, w1) ∧ f_out_dblog w1 = Some text ∧
    replay_all lens (set_in (Some text) w2) =
      Ok ((λ bs, (bs, Some (Z.of_nat (List.length bs)))) <$> chunks, set_in (Some "") w2).
Proof.
  intros Hm Hf Hs Hsl Hc Hm2 Hne HF.
  destruct (record_all_ok chunks w _ Hm Hf (fits_all_int _ _ HF)) as (w1 & E & Hw1).
  exists w1. eexists. split; [done|]. split; [exact Hw1|].
  destruct HF as [|bs len chunks lens [Hb Hl] HF]; [done|].
  cbn [replay_all session_log]. unfold pqsecure_read at 1.
  rewrite !bind_assoc, bind_gets. cbn [DB_MODE set_in]. rewrite Hm2, decide_False, decide_True by done.
  rewrite bind_assoc. erewrite bind_ok.
  2:{ eapply read_behind_init; [|done..|by eapply length_in_s|done|exact Hl].
      cbn [f_in_dblog set_in]. by rewrite <- app_assoc_s. }
  rewrite bind_ret. erewrite bind_ok; [|by apply (replay_all_ok chunks lens (wrap_s 64 (pkg_counter w + 1)));
    [done|done|apply wrap_s_range; lia|done]]. done.
Qed.

(** A client state without a server behind it. *)
Definition bare (mode : Z) (out inp : option string) : world unit :=
  mkWorld true 7 prv_hashInit prv_hashInit out inp mode 0 4711 [] tt.

Lemma packets_replayed_witness :
  ∃ w1 text,
    record_all [[0; 255; 16]; []; [171]]%Z (bare 31 (Some (init_line "7" +:+ nl)) None) = Ok (tt, w1) ∧
    f_out_dblog w1 = Some text ∧
    replay_all [3; 5; 8]%Z (set_in (Some text) (bare 32 None None)) =
      Ok ([([0; 255; 16], Some 3); ([], Some 0); ([171], Some 1)]%Z,
          set_in (Some "") (bare 32 None None)).
Proof.
  apply (packets_replayed "7" [[0; 255; 16]; []; [171]]%Z [3; 5; 8]%Z
           (bare 31 (Some (init_line "7" +:+ nl)) None) (bare 32 None None)); try reflexivity.
  - vm_compute. intros [?|[]]. congruence.
  - vm_compute. lia.
  - unfold in_s. simpl. lia.
  - discriminate.
  - repeat constructor; unfold chunk_fits, max_len; simpl; unfold byte; lia.
Defined.



End LdvPackets.
