(* ===== verification/LdvCapture.v ===== *)
(** * Capturing a client session ([src/src/interfaces/libpq/fe-exec.c])

    In mode 21 [PQexec] turns each statement of the client into a series of
    statements: it adds provenance columns to the tables, asks the server for
    the provenance of what the statement reads, logs the tuples found, and finally
    executes the client's statement.  Definitions follow the C functions of the
    same names; character buffers are written with their sizes ([buf]). *)

From Stdlib Require Import ZArith Lia Ascii.
From stdpp Require Import base strings pretty numbers list.
From S2P Require Import Prelude CString LdvState.
Import CString LdvState.

Module LdvCapture.

(** ** Initialisation *)

Section capture.
Context {Srv : Type} `{Server Srv}.
Implicit Types (w : world Srv).
Abbreviation L := (M (world Srv)).

(** [getenv] results are arguments; opening the log for writing succeeds. *)
Definition prv_init_pkg_capture (PTU_DB_MODE PTU_DBSESSION_ID : option string) : L unit :=
  i ← gets is_init;
  if i : bool then ret tt
  else
    modify (set_init true);;
    match PTU_DB_MODE with Some m => modify (set_mode (wrap_s 8 (atoi m))) | None => ret tt end;;
    mode ← gets DB_MODE;
    if decide (mode = 0)%Z then ret tt
    else
      modify (set_tblmod prv_hashInit);;
      modify (set_tblstore prv_hashInit);;
      if decide (mode = 21 ∨ mode = 31)%Z then
        match PTU_DBSESSION_ID with Some s => modify (set_session (atoi s)) | None => ret tt end;;
        sid ← gets sessionid;
        pid ← gets os_pid;
        buf 20 (percent_d sid +:+ "." +:+ percent_d pid +:+ ".dblog");;
        modify (set_out (Some ""));;
        log ("prv_init" +:+ tb +:+ percent_s PTU_DBSESSION_ID +:+ nl)
      else ret tt.

Definition prv_finish : L unit :=
  mode ← gets DB_MODE;
  if decide (mode = 21 ∨ mode = 31)%Z then
    f ← gets f_out_dblog; deref f;; modify (set_out None)
  else ret tt.

Definition prv_storeConnection (conn : PGconn) : L unit :=
  mode ← gets DB_MODE;
  if decide (mode = 21)%Z then
    log ("prv_store_dbname" +:+ tb +:+ dbName conn +:+ nl);;
    log ("prv_store_user" +:+ tb +:+ pguser conn +:+ nl)
  else ret tt.

(** ** Log records *)

Definition prv_storeTuple (queryid tupleid tuple : string) : L unit :=
  pid ← gets os_pid;
  log ("prv_store_tuple" +:+ tb +:+ percent_d pid +:+ tb +:+ queryid +:+ tb +:+ tupleid +:+ tb +:+
       tuple +:+ nl).

Definition prv_storeInsert (insertid : string) (version timeus : Z) (sql : string) : L unit :=
  pid ← gets os_pid;
  log ("prv_store_insert" +:+ tb +:+ percent_d pid +:+ tb +:+ insertid +:+ tb +:+
       percent_d version +:+ tb +:+ percent_d timeus +:+ tb +:+ sql +:+ nl).

Definition prv_storeUpdate (insertid : string) (version timeus : Z) (sql : string) : L unit :=
  pid ← gets os_pid;
  log ("prv_store_update" +:+ tb +:+ percent_d pid +:+ tb +:+ insertid +:+ tb +:+
       percent_d version +:+ tb +:+ percent_d timeus +:+ tb +:+ sql +:+ nl).

Definition prv_storeSelect (selectid insertids : string) (timeus : Z) (sql : string) : L unit :=
  pid ← gets os_pid;
  log ("prv_store_select" +:+ tb +:+ percent_d pid +:+ tb +:+ selectid +:+ tb +:+ insertids +:+ tb +:+
       percent_d timeus +:+ tb +:+ sql +:+ nl).

(** ** Tables *)

(** One column of [prv_storeTable]'s CREATE TABLE: [PQgetvalue] of the columns name,
    type, length, default. *)
Definition column_text (result : option PGresult) (r : nat) : L string :=
  name ← deref (PQgetvalue result r 0);
  data_type ← deref (PQgetvalue result r 1);
  len ← deref (PQgetvalue result r 2);
  dflt ← deref (PQgetvalue result r 3);
  ret (name +:+ " " +:+ data_type
       +:+ (if decide (0 < slen len)%nat then "(" +:+ len +:+ ")" else "")
       +:+ (if decide (0 < slen dflt)%nat then " DEFAULT " +:+ dflt else "")).

(** [for (r = 0; r < nrows; r++)], [k] rows left. *)
Fixpoint columns_loop (result : option PGresult) (k r : nat) (sqltable : string) : L string :=
  match k with
  | O => ret sqltable
  | S k =>
      c ← column_text result r;
      sqltable' ← buf STR_LONG_LEN
        (sqltable +:+ c +:+ (if decide (k = 0)%nat then ");" else ", "));
      columns_loop result k (S r) sqltable'
  end.

Definition columns_query (tablename : string) : string :=
  "select column_name, data_type, character_maximum_length, column_default "
  +:+ "from INFORMATION_SCHEMA.COLUMNS where table_name = '" +:+ tablename +:+ "' "
  +:+ " and table_schema = 'public'".

Definition prv_storeTable (tablename : string) : L unit :=
  dict ← gets dict_tblstore;
  if prv_hashContains dict tablename then ret tt
  else
    modify (set_tblstore (prv_hashPut dict tablename));;
    sql ← buf STR_LONG_LEN (columns_query tablename);
    result ← PQexecSingle sql;
    start ← buf STR_LONG_LEN ("CREATE TABLE " +:+ tablename +:+ " (");
    sqltable ← columns_loop result (PQntuples result) 0 start;
    log ("prv_store_table" +:+ tb +:+ sqltable +:+ nl).

(** ** Tuples *)

(** [for (n = 0; n < nfields; n++)] over the values of row [r], [k] fields left. *)
Fixpoint values_loop (result : option PGresult) (queryid : string) (nfields r k n : nat)
    (values : string) (rowid : option string) : L (string * option string) :=
  match k with
  | O => ret (values, rowid)
  | S k =>
      v ← deref (PQgetvalue result r n);
      values ← buf STR_LONG_LEN (values +:+ v);
      rowid ← (if decide (n + 5 = nfields)%nat then
                 tuple ← buf STR_LONG_LEN (values +:+ "')");
                 let rowid := percent_s (PQgetvalue result r (nfields - 1)) in
                 prv_storeTuple queryid rowid tuple;;
                 ret (Some rowid)
               else ret rowid);
      values ← buf STR_LONG_LEN (values +:+ (if decide (n + 1 < nfields)%nat then "', '" else "')"));
      values_loop result queryid nfields r k (S n) values rowid
  end.

(** [for (r = 0; r < nrows; r++)], [k] rows left; [rowid] keeps its value from
    one row to the next. *)
Fixpoint rows_loop (tablename : string) (result : option PGresult) (queryid : string)
    (storeRow : bool) (k r : nat) (rowid : option string) : L unit :=
  match k with
  | O => ret tt
  | S k =>
      let nfields := PQnfields result in
      '(values, rowid) ← values_loop result queryid nfields r nfields 0 "('" rowid;
      (if storeRow then
         id ← deref rowid;
         log ("prv_store_row" +:+ tb +:+ id +:+ tb +:+ tablename +:+ tb);;
         log ("INSERT INTO " +:+ tablename +:+ " VALUES " +:+ values +:+ ";" +:+ nl)
       else ret tt);;
      rows_loop tablename result queryid storeRow k (S r) rowid
  end.

Definition prv_storeTupleFromResult (tablename : string) (result : option PGresult)
    (queryid : string) (storeRow : bool) : L unit :=
  rows_loop tablename result queryid storeRow (PQntuples result) 0 None.

(** ** Row identifiers (no longer called) *)

(** A node of the list: table name, the comma-separated ids, the column. *)
Record ids4table_t := mkIds { ids_tablename : string; idlist : string; col : nat }.

Definition prv_addId4table (head : list ids4table_t) (tablename idlist : string) (col : nat)
    : list ids4table_t := mkIds tablename idlist col :: head.

(** The columns named [prov_<schema>_<table>___prov__rowid], last one first. *)
Fixpoint ids_init (fields : list string) (c : nat) (head : list ids4table_t) : L (list ids4table_t) :=
  match fields with
  | [] => ret head
  | field :: fields =>
      if decide (slen field < 14)%nat then throw Overflow
      else
        if decide (sdrop (slen field - 14) field = "___prov__rowid") then
          p ← deref (strchr field "_");
          q ← deref (strchr (sdrop 1 p) "_");
          let start := sdrop 1 q in
          let tablename := if decide (slen start < 14)%nat then start
                           else stake (slen start - 14) start in
          ids_init fields (S c) (prv_addId4table head tablename "" c)
        else ids_init fields (S c) head
  end.

(** Append the ids of row [r] to every list; [cap] is the size of the lists. *)
Fixpoint ids_row (result : option PGresult) (cap : Z) (r : nat) (head : list ids4table_t)
    : L (list ids4table_t) :=
  match head with
  | [] => ret []
  | it :: rest =>
      v ← deref (PQgetvalue result r (col it));
      l ← (if decide (0 < slen v)%nat then buf cap (idlist it +:+ v +:+ ",") else ret (idlist it));
      rest' ← ids_row result cap r rest;
      ret (mkIds (ids_tablename it) l (col it) :: rest')
  end.

Fixpoint ids_rows (result : option PGresult) (cap : Z) (k r : nat) (head : list ids4table_t)
    : L (list ids4table_t) :=
  match k with
  | O => ret head
  | S k => head' ← ids_row result cap r head; ids_rows result cap k (S r) head'
  end.

(** [it->idlist[strlen(idlist) - 1] = 0] for every non-empty list, where the C variable
    [idlist] is the list allocated last, which is the head's. *)
Fixpoint ids_trim (len : nat) (head : list ids4table_t) : L (list ids4table_t) :=
  match head with
  | [] => ret []
  | it :: rest =>
      it' ← (if decide (idlist it = "") then ret it
             else if decide (len = 0)%nat then throw Overflow
             else ret (mkIds (ids_tablename it) (stake (len - 1) (idlist it)) (col it)));
      rest' ← ids_trim len rest;
      ret (it' :: rest')
  end.

Definition prv_getRowIds (result : option PGresult) : L (list ids4table_t) :=
  let nrows := PQntuples result in
  if decide (nrows = 0)%nat then ret []
  else
    head ← ids_init (match result with Some r => attDescs r | None => [] end) 0 [];
    head ← ids_rows result (Z.of_nat nrows * 33 + 32) nrows 0 head;
    match head with
    | [] => ret []
    | it :: rest =>
        (* the head is trimmed first, and its new length applies to the others *)
        it' ← ids_trim (slen (idlist it)) [it];
        match it' with
        | [it'] => rest' ← ids_trim (slen (idlist it')) rest; ret (it' :: rest')
        | _ => ret []
        end
    end.

(** ** Provenance of a query *)

(** The provenance attribute of the row identifier of a table. *)
Definition rowid_column (tablename : string) : string :=
  "prov_public_" +:+ tablename +:+ "___prov__rowid".

Definition prv_extractTuple (queryid tablename : string) (view : option string) : L unit :=
  sid ← gets sessionid;
  sql ← buf STR_LONG_LEN
    ("UPDATE " +:+ tablename +:+ " SET _prov_insertedby = " +:+ percent_d sid +:+ " FROM "
     +:+ percent_s view +:+ " "
     +:+ "WHERE " +:+ tablename +:+ "._prov_rowid = " +:+ percent_s view +:+ "."
     +:+ rowid_column tablename +:+ " "
     +:+ "AND " +:+ tablename +:+ "._prov_insertedby = 0 RETURNING " +:+ tablename +:+ ".*;");
  result ← PQexecSingle sql;
  if decide (PQresultStatus result = PGRES_TUPLES_OK)
  then prv_storeTupleFromResult tablename result queryid true
  else ret tt.

Definition alter_sql (tablename : string) : string :=
  "ALTER TABLE " +:+ tablename +:+ " "
  +:+ "ADD COLUMN _prov_p varchar(40) DEFAULT '0000', "
  +:+ "ADD COLUMN _prov_insertedby integer DEFAULT 0, "
  +:+ "ADD COLUMN _prov_v timestamp DEFAULT now(), "
  +:+ "ADD COLUMN _prov_rowid varchar(32);".

Definition rowid_sql (tablename : string) : string :=
  "UPDATE " +:+ tablename +:+ " SET _prov_rowid=OID;".

Definition prv_modifyTable (tablename : string) : L unit :=
  dict ← gets dict_tblmod;
  if prv_hashContains dict tablename then ret tt
  else
    modify (set_tblmod (prv_hashPut dict tablename));;
    sql ← buf STR_LONG_LEN (alter_sql tablename);
    result ← PQexecSingle sql;
    if decide (PQresultStatus result = PGRES_COMMAND_OK ∨ PQresultStatus result = PGRES_TUPLES_OK)
    then sql ← buf STR_LONG_LEN (rowid_sql tablename); PQexecSingle sql;; ret tt
    else ret tt.

Definition view_name (prov_query : string) : string :=
  "_prov_view_" +:+ percent_d (prv_hash prov_query).

Definition prv_createView (prov_query : string) : L (option string) :=
  view ← buf STR_LEN (view_name prov_query);
  sql ← buf STR_LONG_LEN ("CREATE OR REPLACE TEMP VIEW " +:+ view +:+ " AS " +:+ prov_query);
  result ← PQexecSingle sql;
  ret (if decide (PQresultStatus result = PGRES_COMMAND_OK) then Some view else None).

Definition prv_dropView (view : option string) : L unit :=
  sql ← buf STR_LONG_LEN ("DROP VIEW IF EXISTS " +:+ percent_s view);
  PQexecSingle sql;; ret tt.

(** ** Table lists *)

Fixpoint skip_blanks (s : string) : string :=
  match s with String " "%char s => skip_blanks s | _ => s end.

(** One round of the tokenising loop: the table name, and the rest behind the comma. *)
Definition next_token (tablelist : string) : string * option string :=
  let tablelist := skip_blanks tablelist in
  let comma := strchr tablelist "," in
  let space := strchr tablelist " " in
  let stop := match comma, space with
              | None, None => ""
              | None, Some s => s
              | Some c, None => c
              | Some c, Some s => if decide (slen s < slen c)%nat then c else s
              end in
  (stake (slen tablelist - slen stop) tablelist,
   match comma with Some c => Some (sdrop 1 c) | None => None end).

(** [do { ... } while (true)] over the names; every round consumes at least one byte. *)
Fixpoint tables_loop (fuel : nat) (tablelist : string) (act : string → L unit) : L unit :=
  match fuel with
  | O => throw Hang
  | S fuel =>
      let '(token, rest) := next_token tablelist in
      tablename ← buf STR_LEN token;
      act tablename;;
      match rest with None => ret tt | Some rest => tables_loop fuel rest act end
  end.

Definition prv_modifyTableList (tablelist : string) : L unit :=
  tables_loop (S (slen tablelist)) tablelist prv_modifyTable.

(** The loop over the rows: [insertIds] and [useDB] are updated. *)
Fixpoint insertIds_loop (result : option PGresult) (k r : nat) (insertIds : string) (useDB : bool)
    : L (string * bool) :=
  match k with
  | O => ret (insertIds, useDB)
  | S k =>
      v ← deref (PQgetvalue result r 0);
      let sep := if decide (insertIds = "") then "" else "." in
      if decide (slen v < 32)%nat then
        ids ← buf STR_LONG_LEN (insertIds +:+ sep +:+ v);
        insertIds_loop result k (S r) ids useDB
      else if useDB : bool then insertIds_loop result k (S r) insertIds useDB
      else
        ids ← buf STR_LONG_LEN (insertIds +:+ sep +:+ "originalDB");
        insertIds_loop result k (S r) ids true
  end.

Definition prv_extractInsertIds (tablename : string) (view : option string) (insertIds : string)
    (useDB : bool) : L (string * bool) :=
  sql ← buf STR_LONG_LEN
    ("SELECT DISTINCT " +:+ rowid_column tablename +:+ " FROM " +:+ percent_s view);
  result ← PQexecSingle sql;
  if decide (PQresultStatus result = PGRES_TUPLES_OK)
  then insertIds_loop result (PQntuples result) 0 insertIds useDB
  else ret (insertIds, useDB).

Fixpoint extract_loop (fuel : nat) (tablelist : string) (view : option string) (insertids : string)
    (useDB : bool) : L string :=
  match fuel with
  | O => throw Hang
  | S fuel =>
      let '(token, rest) := next_token tablelist in
      tablename ← buf STR_LEN token;
      prv_storeTable tablename;;
      prv_extractTuple "originalDB" tablename view;;
      '(insertids, useDB) ← prv_extractInsertIds tablename view insertids useDB;
      match rest with
      | None => ret insertids
      | Some rest => extract_loop fuel rest view insertids useDB
      end
  end.

Definition prv_extractTuplesFromTable (tablelist provquery : string) : L string :=
  view ← prv_createView provquery;
  insertids ← extract_loop (S (slen tablelist)) tablelist view "" false;
  prv_dropView view;;
  ret insertids.

End capture.

End LdvCapture.
