(* ===== verification/LdvQuery.v ===== *)
(** * Rewriting and executing client statements
      ([prv_getStart] ... [PQexec] of fe-exec.c; [PQconnectdb], [PQfinish] of fe-connect.c) *)

From Stdlib Require Import ZArith Lia Ascii.
From stdpp Require Import base strings pretty numbers list.
From S2P Require Import Prelude CString LdvState LdvCapture.
Import CString LdvState LdvCapture.

Module LdvQuery.

(** ** Statement types *)

Definition SELECT_STMT : Z := 0.
Definition INSERT_STMT : Z := 1.
Definition UPDATE_STMT : Z := 2.
Definition DELETE_STMT : Z := 3.
Definition BYPASS_STMT : Z := 4.

Definition smt : list string := ["select"; "insert into"; "update"; "delete from"; "bypass"].
Definition select_markers : list string := ["from"; "where"].
Definition insert_markers : list string := ["values"; "returning"].
Definition update_markers : list string := ["set"; "from"; "where"].
Definition delete_markers : list string := ["using"; "where"; "returning"].

Section query.
Context {Srv : Type} `{Server Srv}.
Abbreviation L := (M (world Srv)).

(** The type of the statement and how far [start] lies behind its beginning; the
    comparison looks at six characters only. *)
Fixpoint prv_getStart (str : string) (smts : list string) (i : Z) : option (Z * nat) :=
  match smts with
  | [] => None
  | s :: smts =>
      if strncaseeq str s 6 then Some (i, slen s + 1)%nat else prv_getStart str smts (i + 1)
  end.

(** [prv_parseRest(str, markers, size, s, args...)]: [s] is the buffer filled next,
    [args] those still in the argument list; a buffer is its size, or [None] for [NULL].
    The result is what [s] and then each of [args] contains. *)
Fixpoint prv_parseRest (str : string) (markers : list string) (s : option Z) (args : list (option Z))
    : L (string * list string) :=
  match markers, args with
  | m :: markers, a :: args =>
      match strcasestr str m with
      | Some (before, next) =>
          cur ← match s with
                | None => ret ""
                | Some cap =>
                    if decide (slen before = 0)%nat then throw Overflow
                    else buf cap (stake (slen before - 1) before)
                end;
          '(v, vs) ← prv_parseRest (sdrop (slen m) next) markers a args;
          ret (cur, v :: vs)
      | None =>
          '(v, vs) ← prv_parseRest str markers s args;
          ret (v, "" :: vs)
      end
  | _, _ =>
      match s with
      | None => ret ("", [])
      | Some cap =>
          v ← buf cap str;
          c ← match slast v with None => throw Overflow | Some c => ret c end;
          v ← (if decide (c = ";"%char) then chop 1 v else ret v);
          ret (v, [])
      end
  end.

(** [strcat(result, " WHERE "); strcat(result, where)] when there is such a clause. *)
Definition add_clause (result kw clause : string) : L string :=
  if decide (clause = "") then ret result else buf STR_MAX_LEN (result +:+ kw +:+ clause).

(** The provenance query (or [NULL]), the type and the table list. *)
Definition prv_assembleQuery (query queryid : string) (version timeus type : Z)
    : L (option string * Z * string) :=
  match prv_getStart query smt 0 with
  | None => ret (None, type, "")
  | Some (type, skip) =>
      if decide (type = SELECT_STMT) then
        start ← advance query skip;
        '(field, vs) ← prv_parseRest start select_markers (Some STR_MAX_LEN)
                         [Some 256%Z; Some STR_MAX_LEN];
        let table := default "" (vs !! 0%nat) in
        let wher := default "" (vs !! 1%nat) in
        result ← buf STR_MAX_LEN ("SELECT PROVENANCE " +:+ field +:+ " FROM " +:+ table);
        result ← add_clause result " WHERE " wher;
        ret (Some result, type, table)
      else if decide (type = INSERT_STMT) then
        start ← advance query skip;
        '(table, vs) ← prv_parseRest start insert_markers (Some 256%Z)
                         [Some STR_MAX_LEN; Some STR_MAX_LEN];
        value ← chop 1 (default "" (vs !! 0%nat));
        let returning := default "" (vs !! 1%nat) in
        sid ← gets sessionid;
        result ← buf STR_MAX_LEN ("INSERT INTO " +:+ table +:+ " VALUES " +:+ value +:+ ", " +:+ queryid
                                  +:+ ", " +:+ percent_d sid +:+ ", now())");
        result ← add_clause result " RETURNING " returning;
        prv_storeInsert queryid version timeus query;;
        ret (Some result, type, table)
      else if decide (type = UPDATE_STMT) then
        start ← advance query skip;
        '(table, vs) ← prv_parseRest start update_markers (Some 256%Z) [None; None; Some STR_MAX_LEN];
        result ← buf STR_MAX_LEN ("SELECT PROVENANCE * FROM " +:+ table);
        result ← add_clause result " WHERE " (default "" (vs !! 2%nat));
        prv_storeUpdate queryid version timeus query;;
        ret (Some result, type, table)
      else if decide (type = DELETE_STMT) then
        start ← advance query skip;
        '(table, vs) ← prv_parseRest start delete_markers (Some 256%Z) [None; Some STR_MAX_LEN; None];
        result ← buf STR_MAX_LEN ("SELECT PROVENANCE * FROM " +:+ table);
        result ← add_clause result " WHERE " (default "" (vs !! 1%nat));
        ret (Some result, type, table)
      else ret (None, type, "")
  end.

(** The text whose hash identifies the statement. *)
Definition id_text (pid timeus : Z) (query : string) : string :=
  percent_d pid +:+ "." +:+ query +:+ "." +:+ percent_d timeus.

(** [timeus] is the result of [gettimeofday]. *)
Definition prv_createQuery (query : string) (timeus type : Z)
    : L (option string * Z * string * string) :=
  pid ← gets os_pid;
  astr ← buf 1000 (id_text pid timeus query);
  queryid ← buf 40 (percent_d (prv_hash astr));
  '(res, type, table) ← prv_assembleQuery query queryid 1 timeus type;
  ret (res, type, table, queryid).

(** Blanks and tabs behind a comma, or at the beginning, are removed. *)
Fixpoint fix_tablelist (lastchar : ascii) (s : string) : string :=
  match s with
  | EmptyString => ""
  | String c s =>
      if decide ((c = tab ∨ c = " "%char) ∧ lastchar = ","%char) then fix_tablelist lastchar s
      else String c (fix_tablelist c s)
  end.

Definition passthrough (mode : Z) : Prop :=
  (mode = 0 ∨ mode = 11 ∨ mode = 22 ∨ mode = 31 ∨ mode = 32)%Z.
#[global] Instance passthrough_dec mode : Decision (passthrough mode).
Proof. unfold passthrough. apply _. Defined.

Definition PQexec (timeus : Z) (query : string) : L (option PGresult) :=
  mode ← gets DB_MODE;
  if decide (passthrough mode) then PQexecSingle query
  else
    '(prov, type, table, queryid) ← prv_createQuery query timeus (-1);
    match prov with
    | Some prov_query =>
        let tablename := fix_tablelist "," table in
        if decide (type = INSERT_STMT) then
          prv_modifyTable tablename;;
          result ← PQexecSingle prov_query;
          sql ← buf STR_MAX_LEN ("UPDATE " +:+ tablename +:+ " SET _prov_rowid = OID WHERE _prov_p = '"
                                 +:+ queryid +:+ "' returning *;");
          result_getid ← PQexecSingle sql;
          prv_storeTupleFromResult tablename result_getid queryid false;;
          ret result
        else if decide (type = UPDATE_STMT ∨ type = DELETE_STMT) then
          prv_modifyTableList tablename;;
          PQexecSingle prov_query;;
          PQexecSingle query
        else
          prv_modifyTableList tablename;;
          insertids ← prv_extractTuplesFromTable tablename prov_query;
          prv_storeSelect queryid insertids timeus query;;
          PQexecSingle query
    | None =>
        if decide (type = BYPASS_STMT) then q ← advance query 7; PQexecSingle q
        else PQexecSingle query
    end.

End query.

End LdvQuery.
