(* ===== verification/LdvInvariant.v ===== *)
(** * What a capture step may change

    [steps w w'] is the contract of every function of the capture layer: it only
    appends to the trace of statements and to the log, leaves the mode, the session,
    the process and the replay file alone, and keeps the two tables of hashed names
    well-formed.  The class [Steps] is that contract for a computation; its
    instances follow the structure of the code. *)

From Stdlib Require Import ZArith Lia Ascii.
From stdpp Require Import base strings pretty numbers list.
From S2P Require Import Prelude CString LdvState LdvCapture LdvQuery.
Import CString LdvState LdvCapture LdvQuery.

Module LdvInvariant.

Section steps.
Context {Srv : Type}.
Implicit Types (w : world Srv).

Definition grows (f f' : option string) : Prop :=
  match f, f' with
  | None, None => True
  | Some s, Some s' => ∃ t, s' = s +:+ t
  | _, _ => False
  end.

Record steps w w' : Prop := {
  st_trace : ∃ es, trace w' = trace w ++ es;
  st_log : grows (f_out_dblog w) (f_out_dblog w');
  st_in : f_in_dblog w' = f_in_dblog w;
  st_mode : DB_MODE w' = DB_MODE w;
  st_init : is_init w' = is_init w;
  st_session : sessionid w' = sessionid w;
  st_pid : os_pid w' = os_pid w;
  st_mod : tbl_wf (dict_tblmod w) → tbl_wf (dict_tblmod w');
  st_store : tbl_wf (dict_tblstore w) → tbl_wf (dict_tblstore w') }.

Lemma grows_refl f : grows f f.
Proof. destruct f; simpl; [|done]. exists "". by rewrite app_nil_r_s. Qed.

Lemma grows_trans f g h : grows f g → grows g h → grows f h.
Proof.
  destruct f, g, h; simpl; try done. intros [a ->] [b ->]. exists (a +:+ b). by rewrite app_assoc_s.
Qed.

#[global] Instance steps_preorder : PreOrder steps.
Proof.
  split.
  - intros w. split; auto using grows_refl. exists []. by rewrite app_nil_r.
  - intros w1 w2 w3 [[e1 T1] L1 I1 M1 N1 S1 P1 A1 B1] [[e2 T2] L2 I2 M2 N2 S2 P2 A2 B2].
    split; try congruence; auto.
    + exists (e1 ++ e2). by rewrite T2, T1, (assoc_L (++)).
    + by eapply grows_trans.
Qed.

(** A computation keeps the contract whenever it returns. *)
Class Steps {A} (m : M (world Srv) A) : Prop := steps_of w a w' : m w = Ok (a, w') → steps w w'.

#[global] Instance ret_steps {A} (a : A) : Steps (ret a).
Proof. intros w b w' [= _ <-]. reflexivity. Qed.

#[global] Instance gets_steps {A} (f : world Srv → A) : Steps (gets f).
Proof. intros w b w' [= _ <-]. reflexivity. Qed.

#[global] Instance throw_steps {A} e : Steps (throw (A := A) e).
Proof. intros w b w'. discriminate. Qed.

#[global] Instance deref_steps {A} (o : option A) : Steps (deref o).
Proof. destruct o; apply _. Qed.

#[global] Instance buf_steps cap s : Steps (buf cap s).
Proof. unfold buf. case_decide; apply _. Qed.

#[global] Instance advance_steps s n : Steps (advance s n).
Proof. unfold advance. case_decide; apply _. Qed.

#[global] Instance chop_steps n s : Steps (chop n s).
Proof. unfold chop. case_decide; apply _. Qed.

#[global] Instance bind_steps {A B} (m : M (world Srv) A) (k : A → M (world Srv) B) :
  Steps m → (∀ a, Steps (k a)) → Steps (bind m k).
Proof. intros Hm Hk w b w' (a & w1 & E1 & E2)%bind_inv. etrans; [by eapply Hm|by eapply Hk]. Qed.

#[global] Instance if_steps {A} (b : bool) (m1 m2 : M (world Srv) A) :
  Steps m1 → Steps m2 → Steps (if b then m1 else m2).
Proof. by destruct b. Qed.

#[global] Instance if_dec_steps {A P} (d : Decision P) (m1 m2 : M (world Srv) A) :
  Steps m1 → Steps m2 → Steps (if @decide P d then m1 else m2).
Proof. intros. by case_decide. Qed.

#[global] Instance match_option_steps {A B} (o : option A) (m1 : A → M (world Srv) B) m2 :
  (∀ a, Steps (m1 a)) → Steps m2 → Steps (match o with Some a => m1 a | None => m2 end).
Proof. by destruct o. Qed.

#[global] Instance match_pair_steps {A B C} (p : A * B) (m : A → B → M (world Srv) C) :
  (∀ a b, Steps (m a b)) → Steps (let '(a, b) := p in m a b).
Proof. destruct p; auto. Qed.

#[global] Instance log_steps s : Steps (log s).
Proof.
  intros w a w'. unfold log. destruct (f_out_dblog w) as [f|] eqn:E; [|done]. intros [= _ <-].
  split; cbn; auto.
  - exists []. by rewrite app_nil_r.
  - rewrite E. by exists s.
Qed.

#[global] Instance put_tblmod_steps s :
  Steps (d ← gets dict_tblmod; modify (set_tblmod (prv_hashPut d s))).
Proof.
  intros w a w' [= _ <-]. split; cbn; auto using grows_refl with perm.
  exists []. by rewrite app_nil_r.
Qed.

Context `{Server Srv}.

#[global] Instance PQexecSingle_steps q : Steps (PQexecSingle q).
Proof.
  intros w a w'. unfold PQexecSingle. destruct (srv_exec q (srv w)) as [r s].
  intros [= _ <-]. split; cbn; auto using grows_refl. by eexists.
Qed.

End steps.

Section capture_steps.
Context {Srv : Type} `{Server Srv}.

#[global] Instance prv_storeTuple_steps a b c : Steps (Srv := Srv) (prv_storeTuple a b c).
Proof. apply _. Qed.

#[global] Instance values_loop_steps result q nf r k n v i :
  Steps (Srv := Srv) (values_loop result q nf r k n v i).
Proof. revert n v i. induction k as [|k IH]; intros n v i; cbn [values_loop]; apply _. Qed.

#[global] Instance rows_loop_steps t result q b k r i : Steps (Srv := Srv) (rows_loop t result q b k r i).
Proof. revert r i. induction k as [|k IH]; intros r i; cbn [rows_loop]; apply _. Qed.

#[global] Instance prv_storeTupleFromResult_steps t result q b :
  Steps (Srv := Srv) (prv_storeTupleFromResult t result q b).
Proof. unfold prv_storeTupleFromResult. apply _. Qed.

#[global] Instance columns_loop_steps result k r s : Steps (Srv := Srv) (columns_loop result k r s).
Proof.
  revert r s. induction k as [|k IH]; intros r s; cbn [columns_loop]; unfold column_text; apply _.
Qed.

#[global] Instance prv_modifyTable_steps t : Steps (Srv := Srv) (prv_modifyTable t).
Proof.
  intros w a w'. unfold prv_modifyTable. rewrite bind_gets. case_match; [intros [= _ <-]; reflexivity|].
  rewrite bind_modify. intros E. transitivity (set_tblmod (prv_hashPut (dict_tblmod w) t) w).
  - split; cbn; auto using grows_refl with perm. exists []. by rewrite app_nil_r.
  - revert E. apply steps_of.
Qed.

#[global] Instance prv_storeTable_steps t : Steps (Srv := Srv) (prv_storeTable t).
Proof.
  intros w a w'. unfold prv_storeTable. rewrite bind_gets. case_match; [intros [= _ <-]; reflexivity|].
  rewrite bind_modify. intros E. transitivity (set_tblstore (prv_hashPut (dict_tblstore w) t) w).
  - split; cbn; auto using grows_refl with perm. exists []. by rewrite app_nil_r.
  - revert E. apply steps_of.
Qed.

#[global] Instance prv_extractTuple_steps q t v : Steps (Srv := Srv) (prv_extractTuple q t v).
Proof. unfold prv_extractTuple. apply _. Qed.

#[global] Instance tables_loop_steps fuel l act :
  (∀ t, Steps (Srv := Srv) (act t)) → Steps (Srv := Srv) (tables_loop fuel l act).
Proof.
  intros Ha. revert l. induction fuel as [|fuel IH]; intros l; cbn [tables_loop]; [apply _|].
  destruct (next_token l) as [tok [rest|]]; apply _.
Qed.

#[global] Instance prv_modifyTableList_steps l : Steps (Srv := Srv) (prv_modifyTableList l).
Proof. unfold prv_modifyTableList. apply _. Qed.

#[global] Instance insertIds_loop_steps result k r i u : Steps (Srv := Srv) (insertIds_loop result k r i u).
Proof. revert r i u. induction k as [|k IH]; intros r i u; cbn [insertIds_loop]; apply _. Qed.

#[global] Instance extract_loop_steps fuel l v i u : Steps (Srv := Srv) (extract_loop fuel l v i u).
Proof.
  revert l i u. induction fuel as [|fuel IH]; intros l i u; cbn [extract_loop]; [apply _|].
  destruct (next_token l) as [tok [rest|]]; unfold prv_extractInsertIds; apply _.
Qed.

#[global] Instance prv_extractTuplesFromTable_steps l p : Steps (Srv := Srv) (prv_extractTuplesFromTable l p).
Proof. unfold prv_extractTuplesFromTable, prv_createView, prv_dropView. apply _. Qed.

#[global] Instance prv_parseRest_steps str ms s args : Steps (Srv := Srv) (prv_parseRest str ms s args).
Proof.
  revert str s args. induction ms as [|m ms IH]; intros str s args; cbn [prv_parseRest].
  - destruct s; [|apply _]. apply bind_steps; [apply _|]. intros v. destruct (slast v); apply _.
  - destruct args as [|a args].
    + destruct s; [|apply _]. apply bind_steps; [apply _|]. intros v. destruct (slast v); apply _.
    + destruct (strcasestr str m) as [[before next]|]; apply _.
Qed.

#[global] Instance prv_assembleQuery_steps q i v t ty : Steps (Srv := Srv) (prv_assembleQuery q i v t ty).
Proof.
  unfold prv_assembleQuery, add_clause, prv_storeInsert, prv_storeUpdate.
  destruct (prv_getStart q smt 0) as [[ty' skip]|]; apply _.
Qed.

#[global] Instance prv_createQuery_steps q t ty : Steps (Srv := Srv) (prv_createQuery q t ty).
Proof. unfold prv_createQuery. apply _. Qed.

Lemma PQexec_steps timeus query : Steps (Srv := Srv) (PQexec timeus query).
Proof. unfold PQexec, prv_storeSelect. apply _. Qed.

End capture_steps.

End LdvInvariant.
