(* ===== verification/LdvProps.v ===== *)
(** * Properties of the capture layer

    Transparency of [PQexec] for the client, the provenance queries it derives,
    the bookkeeping of modified tables, the tokenising of table lists, and the inputs on which the
    fixed-size buffers are exceeded. *)

From Stdlib Require Import ZArith Lia Ascii.
From stdpp Require Import base strings pretty numbers list.
From S2P Require Import Prelude CString LdvState LdvCapture LdvQuery LdvInvariant.
Import CString LdvState LdvCapture LdvQuery LdvInvariant.

Module LdvProps.
#[local] Arguments String.append : simpl nomatch.

(** ** A scripted server *)

(** For witnesses: answers the statements of a script in order, then with COMMAND_OK. *)
Definition script := list PGresult.
Definition done_ok : PGresult := mkRes PGRES_COMMAND_OK [] [].

Definition well_formed (r : PGresult) : PGresult :=
  mkRes (resultStatus r) (attDescs r)
    (filter (λ row, List.length row = List.length (attDescs r)) (tuples r)).

#[global, program] Instance script_server : Server script := {|
  srv_connect conninfo s := (mkConn conninfo "user", s);
  srv_exec sql s := match s with [] => (Some done_ok, []) | r :: s => (Some (well_formed r), s) end;
  srv_finish s := s |}.
Next Obligation.
  intros sql [|r s]; simpl; [constructor|]. apply Forall_forall. by intros row [? _]%list_elem_of_filter.
Qed.

Definition client (mode : Z) (s : script) : world script :=
  mkWorld true 7 prv_hashInit prv_hashInit (Some "") None mode 0 4711 [] s.

Section transparency.
Context {Srv : Type} `{Server Srv}.
Implicit Types (w : world Srv).

(** ** Transparency *)

Lemma assembleQuery_type q i v t ty w res ty' table w' :
  prv_assembleQuery q i v t ty w = Ok ((res, ty', table), w') →
  match prv_getStart q smt 0 with None => res = None ∧ ty' = ty | Some (k, _) => ty' = k end.
Proof.
  unfold prv_assembleQuery. destruct (prv_getStart q smt 0) as [[k skip]|].
  2:{ intros. unfold ret in *. by simplify_eq. }
  intros E. repeat case_decide;
    repeat match goal with
    | H : bind _ _ _ = Ok _ |- _ => apply bind_inv in H as (? & ? & _ & H)
    | H : context [let '(_, _) := ?p in _] |- _ => destruct p
    end; unfold ret in *; by simplify_eq.
Qed.

Lemma createQuery_type q t ty w res ty' table qid w' :
  prv_createQuery q t ty w = Ok ((res, ty', table, qid), w') →
  match prv_getStart q smt 0 with None => res = None ∧ ty' = ty | Some (k, _) => ty' = k end.
Proof.
  unfold prv_createQuery. intros (? & ? & _ & E)%bind_inv. apply bind_inv in E as (? & ? & _ & E).
  apply bind_inv in E as (? & ? & _ & E). apply bind_inv in E as ([[r y] tb] & w1 & E1 & E).
  apply assembleQuery_type in E1. unfold ret in E. by simplify_eq.
Qed.

(** What a client statement is for [prv_getStart]. *)
Definition stmt_type (query : string) : Z :=
  match prv_getStart query smt 0 with Some (i, _) => i | None => (-1)%Z end.

(** What is sent for it: behind BYPASS and one more character for a statement of
    that type, the statement itself otherwise. *)
Definition sent_statement (query : string) : string :=
  if decide (stmt_type query = BYPASS_STMT) then sdrop 7 query else query.

Lemma advance_inv n s w t w' : advance s n w = Ok (t, w') → t = sdrop n s ∧ w' = w.
Proof. unfold advance, ret, throw. case_decide; [|done]. intros E. by simplify_eq. Qed.

Lemma buf_inv cap s w t w' : buf cap s w = Ok (t, w') → t = s ∧ w' = w.
Proof. unfold buf, ret, throw. case_decide; [|done]. intros E. by simplify_eq. Qed.

(** A statement of type BYPASS is not analysed. *)
Lemma createQuery_bypass q t ty w res ty' table qid w' :
  prv_createQuery q t ty w = Ok ((res, ty', table, qid), w') → stmt_type q = BYPASS_STMT →
  res = None ∧ w' = w.
Proof.
  unfold prv_createQuery, stmt_type, prv_assembleQuery. rewrite bind_gets.
  intros (? & ? & [_ ->]%buf_inv & E)%bind_inv. apply bind_inv in E as (? & ? & [_ ->]%buf_inv & E).
  destruct (prv_getStart q smt 0) as [[k skip]|]; [|done]. intros ->.
  rewrite !decide_False in E by done. unfold bind, ret in E. by simplify_eq.
Qed.

(** Statements other than INSERT: what the layer does before the client's own
    statement is a capture step, and the client gets the answer to exactly its
    statement. *)
Lemma PQexec_last timeus query w r w' :
  PQexec timeus query w = Ok (r, w') → ¬ passthrough (DB_MODE w) →
  stmt_type query ≠ INSERT_STMT →
  ∃ w1, steps w w1 ∧ PQexecSingle (sent_statement query) w1 = Ok (r, w') ∧
    (stmt_type query = BYPASS_STMT → w1 = w).
Proof.
  unfold PQexec, sent_statement. rewrite bind_gets. intros E Hm Hi. rewrite decide_False in E by done.
  apply bind_inv in E as ([[[res ty] table] qid] & w1 & E1 & E).
  assert (stmt_type query = ty) as <-.
  { apply createQuery_type in E1. unfold stmt_type.
    destruct (prv_getStart query smt 0) as [[]|]; [done|by destruct E1]. }
  pose proof (steps_of _ _ _ E1) as S1. destruct (decide (stmt_type query = BYPASS_STMT)) as [Hb|Hb].
  { destruct (createQuery_bypass _ _ _ _ _ _ _ _ _ E1 Hb) as [-> ->].
    apply bind_inv in E as (? & ? & [-> ->]%advance_inv & E). by exists w. }
  destruct res as [pq|]; [|by exists w1].
  rewrite (decide_False (P := stmt_type query = INSERT_STMT)) in E by done. case_decide.
  - apply bind_inv in E as (? & w2 & E2 & E). apply bind_inv in E as (? & w3 & E3 & E).
    apply steps_of in E2, E3. exists w3. split; [|done]. by do 2 (etrans; [done|]).
  - apply bind_inv in E as (? & w2 & E2 & E). apply bind_inv in E as (? & w3 & E3 & E).
    apply bind_inv in E as (? & w4 & E4 & E). unfold prv_storeSelect in E4.
    apply steps_of in E2, E3, E4. exists w4. split; [|done]. by do 3 (etrans; [done|]).
Qed.

End transparency.

(** C23: transparency of capture.  In mode 21 a SELECT, UPDATE or DELETE (and every
    statement the layer does not recognise) is executed last and unchanged, and the client receives
    the server's answer to it; everything sent before is a capture step that only
    appends to the log and to the statements sent.  Of a BYPASS statement what follows its
    first seven characters is sent, and nothing else.  INSERT statements are excluded:
    they are sent in a rewritten form. *)
Theorem PQexec_transparent {Srv} `{Server Srv} timeus query (w : world Srv) r w' :
  PQexec timeus query w = Ok (r, w') → DB_MODE w = 21%Z → stmt_type query ≠ INSERT_STMT →
  ∃ es s, trace w' = trace w ++ es ++ [Exec (sent_statement query)] ∧
    (r, srv w') = srv_exec (sent_statement query) s ∧
    grows (f_out_dblog w) (f_out_dblog w') ∧
    (stmt_type query = BYPASS_STMT → es = [] ∧ s = srv w ∧ f_out_dblog w' = f_out_dblog w).
Proof.
  intros E Hm Hi. destruct (PQexec_last timeus query w r w' E) as (w1 & S & E1 & Hby); try done.
  { rewrite Hm. unfold passthrough. lia. }
  unfold PQexecSingle in E1. destruct (srv_exec (sent_statement query) (srv w1)) as [r1 s1] eqn:Es. simplify_eq.
  destruct (st_trace _ _ S) as [es Hes]. exists es, (srv w1). cbn. rewrite Hes, (assoc_L (++)), Es.
  split; [done|]. split; [done|]. split; [apply S|]. intros Hb. rewrite (Hby Hb) in Hes |- *.
  split; [|done]. destruct es; [done|]. apply (f_equal length) in Hes. rewrite length_app in Hes. simpl in Hes. lia.
Qed.

Lemma PQexec_transparent_witness :
  (∃ r w' es s, PQexec 99 "delete from t where x=1;" (client 21 []) = Ok (r, w') ∧
    trace w' = [] ++ es ++ [Exec "delete from t where x=1;"] ∧
    (r, srv w') = srv_exec "delete from t where x=1;" s ∧ grows (Some "") (f_out_dblog w')) ∧
  (∃ r w', PQexec 99 "bypass select 1;" (client 21 []) = Ok (r, w') ∧ trace w' = [Exec "select 1;"]).
Proof.
  split.
  - destruct (PQexec 99 "delete from t where x=1;" (client 21 [])) as [[r w']|] eqn:E;
      [|vm_compute in E; discriminate].
    destruct (PQexec_transparent 99 "delete from t where x=1;" (client 21 []) r w' E) as (es & s & Ht & Hr & Hg & _);
      [reflexivity|vm_compute; discriminate|].
    exists r, w', es, s. exact (conj eq_refl (conj Ht (conj Hr Hg))).
  - destruct (PQexec 99 "bypass select 1;" (client 21 [])) as [[r w']|] eqn:E;
      [|vm_compute in E; discriminate].
    destruct (PQexec_transparent 99 "bypass select 1;" (client 21 []) r w' E) as (es & s & Ht & _ & _ & Hb);
      [reflexivity|vm_compute; discriminate|].
    destruct Hb as [-> _]; [vm_compute; reflexivity|]. exists r, w'. split; [reflexivity|].
    rewrite Ht. vm_compute. reflexivity.
Defined.

(** In the modes that do not capture statements (off, 11, 22, 31, 32) [PQexec]
    sends the client's statement and nothing else, and writes nothing to the log. *)
Theorem PQexec_passthrough {Srv} `{Server Srv} timeus query (w : world Srv) :
  passthrough (DB_MODE w) →
  ∃ r s, srv_exec query (srv w) = (r, s) ∧
    PQexec timeus query w = Ok (r, set_srv (Exec query) s w).
Proof.
  intros Hm. destruct (srv_exec query (srv w)) as [r s] eqn:E. exists r, s. split; [done|].
  unfold PQexec. rewrite bind_gets, decide_True by done. unfold PQexecSingle. by rewrite E.
Qed.

Lemma PQexec_passthrough_witness :
  ∃ r s, srv_exec "select 1" (srv (client 31 [])) = (r, s) ∧
    PQexec 99 "select 1" (client 31 []) = Ok (r, set_srv (Exec "select 1") s (client 31 [])).
Proof. apply (PQexec_passthrough 99 "select 1" (client 31 [])). vm_compute. auto. Defined.

(** ** The provenance queries *)

Section rewriting.
Context {Srv : Type} `{Server Srv}.
Implicit Types (w : world Srv).

Lemma sdrop_ci kw m t : ci kw m → sdrop (slen m) (kw +:+ t) = t.
Proof. intros [<- _]. apply sdrop_app. Qed.

(** A clause closed by a keyword goes to the current buffer without the blank
    before the keyword. *)
Lemma parse_found cap s kw t m ms a args w :
  m ≠ "" → ¬ sin " " m → strcasestr s m = None → ci kw m → fits cap s →
  prv_parseRest (s +:+ String " " (kw +:+ t)) (m :: ms) (Some cap) (a :: args) w =
  ('(v, vs) ← prv_parseRest t ms a args; ret (s, v :: vs)) w.
Proof.
  intros Hne Hb Hs Hk Hf. cbn [prv_parseRest]. rewrite strcasestr_keyword by done.
  rewrite slen_app, decide_False by (simpl; lia).
  replace (slen s + slen " " - 1)%nat with (slen s) by (simpl; lia).
  rewrite stake_app. hrun (buf_ok _ _ _ Hf). by rewrite sdrop_ci.
Qed.

Lemma parse_found_null s kw t m ms a args w :
  m ≠ "" → ¬ sin " " m → strcasestr s m = None → ci kw m →
  prv_parseRest (s +:+ String " " (kw +:+ t)) (m :: ms) None (a :: args) w =
  ('(v, vs) ← prv_parseRest t ms a args; ret ("", v :: vs)) w.
Proof.
  intros Hne Hb Hs Hk. cbn [prv_parseRest]. rewrite strcasestr_keyword by done.
  rewrite bind_ret. by rewrite sdrop_ci.
Qed.

Lemma parse_skip str m ms s a args w :
  strcasestr str m = None →
  prv_parseRest str (m :: ms) s (a :: args) w =
  ('(v, vs) ← prv_parseRest str ms s args; ret (v, "" :: vs)) w.
Proof. intros Hs. cbn [prv_parseRest]. by rewrite Hs. Qed.

(** The last clause: the text, without a final semicolon. *)
Definition semi (b : bool) : string := if b then ";" else "".

Lemma slast_not_semi s c : slast (s +:+ String c "") = Some c.
Proof. apply slast_app. Qed.

Lemma parse_last cap s c (b : bool) w :
  fits cap (s +:+ String c (semi b)) → c ≠ ";"%char →
  prv_parseRest (s +:+ String c (semi b)) [] (Some cap) [] w = Ok ((s +:+ String c "", []), w).
Proof.
  intros Hf Hc. cbn [prv_parseRest]. hrun (buf_ok _ _ _ Hf). destruct b; cbn [semi].
  - assert (s +:+ String c ";" = (s +:+ String c "") +:+ ";") as -> by by rewrite <- app_assoc_s.
    rewrite slast_app, bind_ret, decide_True by done. by hrun (chop_app (s +:+ String c "") ";" w).
  - rewrite slast_app, bind_ret, decide_False by done. by rewrite bind_ret.
Qed.

(** The statement type only depends on the leading keyword. *)
Lemma getStart_ci kw t m i k :
  ci kw m → (6 ≤ slen m)%nat → prv_getStart m smt 0 = Some (i, k) →
  prv_getStart (kw +:+ t) smt 0 = Some (i, k).
Proof.
  intros Hk Hl. unfold prv_getStart, smt. by rewrite !(strncaseeq_ci kw m t) by done.
Qed.

Lemma advance_kw kw m t w : ci kw m → advance (kw +:+ String " " t) (slen m + 1) w = Ok (t, w).
Proof.
  intros [Hl _]. assert (kw +:+ String " " t = (kw +:+ " ") +:+ t) as -> by by rewrite <- app_assoc_s.
  replace (slen m + 1)%nat with (slen (kw +:+ " ")) by (rewrite slen_app; simpl; lia).
  apply advance_app.
Qed.

End rewriting.

(** C25: an [INSERT INTO T VALUES (V)] of the client becomes an insert that gives
    the three provenance columns the statement's identifier, the session and the current
    time, is logged under that identifier, and is reported as an insert into [T]. *)
Theorem insert_query_rewritten {Srv} `{Server Srv} kw1 kw2 T V (b : bool) qid version timeus type
    (w : world Srv) f :
  let query := kw1 +:+ " " +:+ T +:+ " " +:+ kw2 +:+ V +:+ ")" +:+ semi b in
  let result := "INSERT INTO " +:+ T +:+ " VALUES " +:+ V +:+ ", " +:+ qid +:+ ", " +:+
                percent_d (sessionid w) +:+ ", now())" in
  ci kw1 "insert into" → ci kw2 "values" →
  strcasestr T "values" = None → strcasestr (V +:+ ")" +:+ semi b) "returning" = None →
  fits 256 T → fits STR_MAX_LEN result → f_out_dblog w = Some f →
  prv_assembleQuery query qid version timeus type w =
    Ok ((Some result, INSERT_STMT, T),
        set_out (Some (f +:+ "prv_store_insert" +:+ tb +:+ percent_d (os_pid w) +:+ tb +:+ qid +:+ tb +:+
          percent_d version +:+ tb +:+ percent_d timeus +:+ tb +:+ query +:+ nl)) w).
Proof.
  intros query result Hk1 Hk2 HT HV HfT Hfr Hf. unfold prv_assembleQuery.
  assert (prv_getStart query smt 0 = Some (INSERT_STMT, 12%nat)) as ->.
  { by apply (getStart_ci kw1 _ "insert into"); [|simpl; lia|]. }
  rewrite (decide_False (P := INSERT_STMT = SELECT_STMT)) by done.
  rewrite (decide_True (P := INSERT_STMT = INSERT_STMT)) by done. unfold query at 1.
  erewrite bind_ok by (apply (advance_kw kw1 "insert into" _ w Hk1)).
  assert (fits STR_MAX_LEN (V +:+ String ")" (semi b))) as HfV.
  { revert Hfr. unfold fits, result. rewrite !slen_app. destruct b; simpl; lia. }
  erewrite bind_ok.
  2:{ unfold insert_markers. cbn [String.append]. rewrite parse_found by (done || by vm_compute; naive_solver).
      erewrite bind_ok.
      2:{ rewrite parse_skip by done. by hrun (parse_last _ V ")" b w HfV ltac:(done)). }
      done. }
  cbn [default lookup list_lookup]. hrun (chop_app V ")" w). rewrite bind_gets.
  fold result. hrun (buf_ok _ _ _ Hfr). unfold add_clause. rewrite decide_True by done. rewrite bind_ret.
  unfold prv_storeInsert. rewrite bind_assoc, bind_gets.
  erewrite bind_ok by (unfold log; rewrite Hf; reflexivity). done.
Qed.

Lemma insert_query_rewritten_witness :
  prv_assembleQuery "Insert Into t Values (1, 'a');" "42" 1 99 (-1) (client 21 []) =
    Ok ((Some "INSERT INTO t VALUES  (1, 'a', 42, 7, now())", INSERT_STMT, "t"),
        set_out (Some ("" +:+ "prv_store_insert" +:+ tb +:+ "4711" +:+ tb +:+ "42" +:+ tb +:+
          "1" +:+ tb +:+ "99" +:+ tb +:+ "Insert Into t Values (1, 'a');" +:+ nl)) (client 21 [])).
Proof.
  apply (insert_query_rewritten "Insert Into" "Values" "t" " (1, 'a'" true "42" 1 99 (-1) (client 21 []) "");
    vm_compute; auto.
Defined.

(** C26: a [SELECT F FROM T WHERE W] is captured through the query
    [SELECT PROVENANCE F FROM T WHERE W], with [T] as the list of tables. *)
Theorem select_query_rewritten {Srv} `{Server Srv} kw1 kw2 kw3 F T W c (b : bool) qid version timeus
    type (w : world Srv) :
  let wher := W +:+ String c "" in
  let query := kw1 +:+ " " +:+ F +:+ " " +:+ kw2 +:+ T +:+ " " +:+ kw3 +:+ W +:+ String c (semi b) in
  let result := "SELECT PROVENANCE " +:+ F +:+ " FROM " +:+ T +:+ " WHERE " +:+ wher in
  ci kw1 "select" → ci kw2 "from" → ci kw3 "where" → c ≠ ";"%char →
  strcasestr F "from" = None → strcasestr T "where" = None →
  fits 256 T → fits STR_MAX_LEN result →
  prv_assembleQuery query qid version timeus type w = Ok ((Some result, SELECT_STMT, T), w).
Proof.
  intros wher query result Hk1 Hk2 Hk3 Hc HF HT HfT Hfr. unfold prv_assembleQuery.
  assert (prv_getStart query smt 0 = Some (SELECT_STMT, 7%nat)) as ->.
  { by apply (getStart_ci kw1 _ "select"); [|simpl; lia|]. }
  rewrite (decide_True (P := SELECT_STMT = SELECT_STMT)) by done. unfold query.
  erewrite bind_ok by (apply (advance_kw kw1 "select" _ w Hk1)).
  assert (fits STR_MAX_LEN F ∧ fits STR_MAX_LEN (W +:+ String c (semi b)) ∧
          fits STR_MAX_LEN ("SELECT PROVENANCE " +:+ F +:+ " FROM " +:+ T)) as (HfF & HfW & Hf1).
  { revert Hfr. unfold fits, result, wher. rewrite !slen_app. destruct b; simpl; lia. }
  erewrite bind_ok.
  2:{ unfold select_markers. cbn [String.append]. rewrite parse_found by (done || by vm_compute; naive_solver).
      erewrite bind_ok.
      2:{ rewrite parse_found by (done || by vm_compute; naive_solver).
          by hrun (parse_last _ W c b w HfW Hc). }
      done. }
  cbn [default lookup list_lookup]. hrun (buf_ok _ _ _ Hf1). unfold add_clause.
  rewrite decide_False by by destruct W. rewrite <- !app_assoc_s.
  by erewrite bind_ok by (by apply buf_ok).
Qed.

Lemma select_query_rewritten_witness :
  prv_assembleQuery "select a,b from t, u WHERE a = 1;" "42" 1 99 (-1) (client 21 []) =
    Ok ((Some "SELECT PROVENANCE a,b FROM  t, u WHERE  a = 1", SELECT_STMT, " t, u"), client 21 []).
Proof.
  apply (select_query_rewritten "select" "from" "WHERE" "a,b" " t, u" " a = " "1" true);
    vm_compute; (auto || discriminate).
Defined.

(** An [UPDATE T SET S WHERE W] is captured through
    [SELECT PROVENANCE * FROM T WHERE W], the provenance of the rows it will
    change, and is logged with its identifier. *)
Lemma assemble_update {Srv} `{Server Srv} kw1 kw2 kw3 T S W c (b : bool) qid version timeus
    type (w : world Srv) f :
  let wher := W +:+ String c "" in
  let query := kw1 +:+ " " +:+ T +:+ " " +:+ kw2 +:+ S +:+ " " +:+ kw3 +:+ W +:+ String c (semi b) in
  let result := "SELECT PROVENANCE * FROM " +:+ T +:+ " WHERE " +:+ wher in
  ci kw1 "update" → ci kw2 "set" → ci kw3 "where" → c ≠ ";"%char →
  strcasestr T "set" = None → strcasestr S "where" = None →
  strcasestr (S +:+ " " +:+ kw3 +:+ W +:+ String c (semi b)) "from" = None →
  fits 256 T → fits STR_MAX_LEN result → f_out_dblog w = Some f →
  prv_assembleQuery query qid version timeus type w =
    Ok ((Some result, UPDATE_STMT, T),
        set_out (Some (f +:+ "prv_store_update" +:+ tb +:+ percent_d (os_pid w) +:+ tb +:+ qid +:+ tb +:+
          percent_d version +:+ tb +:+ percent_d timeus +:+ tb +:+ query +:+ nl)) w).
Proof.
  intros wher query result Hk1 Hk2 Hk3 Hc HT HS Hfrom HfT Hfr Hf. unfold prv_assembleQuery.
  assert (prv_getStart query smt 0 = Some (UPDATE_STMT, 7%nat)) as ->.
  { by apply (getStart_ci kw1 _ "update"); [|simpl; lia|]. }
  rewrite (decide_False (P := UPDATE_STMT = SELECT_STMT)) by done.
  rewrite (decide_False (P := UPDATE_STMT = INSERT_STMT)) by done.
  rewrite (decide_True (P := UPDATE_STMT = UPDATE_STMT)) by done. unfold query at 1.
  erewrite bind_ok by (apply (advance_kw kw1 "update" _ w Hk1)).
  assert (fits STR_MAX_LEN (W +:+ String c (semi b)) ∧
          fits STR_MAX_LEN ("SELECT PROVENANCE * FROM " +:+ T)) as (HfW & Hf1).
  { revert Hfr. unfold fits, result, wher. rewrite !slen_app. destruct b; simpl; lia. }
  erewrite bind_ok.
  2:{ unfold update_markers. cbn [String.append]. rewrite parse_found by (done || by vm_compute; naive_solver).
      erewrite bind_ok.
      2:{ rewrite parse_skip by done. erewrite bind_ok.
          2:{ rewrite parse_found_null by (done || by vm_compute; naive_solver).
              by hrun (parse_last _ W c b w HfW Hc). }
          done. }
      done. }
  cbn [default lookup list_lookup]. hrun (buf_ok _ _ _ Hf1). unfold add_clause.
  rewrite decide_False by by destruct W. rewrite <- !app_assoc_s.
  erewrite bind_ok by (by apply buf_ok).
  unfold prv_storeUpdate. rewrite bind_assoc, bind_gets.
  erewrite bind_ok by (unfold log; rewrite Hf; reflexivity). done.
Qed.

End LdvProps.
