(* ===== verification/LdvTables.v ===== *)
(** * Table lists, modified tables and buffer bounds of the capture layer *)

From Stdlib Require Import ZArith Lia Ascii.
From stdpp Require Import base strings pretty numbers list.
From S2P Require Import Prelude CString LdvState LdvCapture LdvQuery LdvInvariant LdvProps.
Import CString LdvState LdvCapture LdvQuery LdvInvariant LdvProps.

Module LdvTables.
#[local] Arguments String.append : simpl nomatch.

(** ** Tokenising a table list *)




Section tokens.
Context {Srv : Type}.


End tokens.













(** ** Tables are modified once *)

(** once [prv_modifyTable] has recorded a table, modifying it again sends
    nothing and changes nothing. *)
Theorem modifyTable_once {Srv} `{Server Srv} t (w : world Srv) w1 :
  tbl_wf (dict_tblmod w) → (size (dict_tblmod w) < HASH_LEN)%nat →
  prv_modifyTable t w = Ok (tt, w1) → prv_modifyTable t w1 = Ok (tt, w1).
Proof.
  intros Hwf Hs E. assert (prv_hashContains (dict_tblmod w1) t = true) as Hc.
  { revert E. unfold prv_modifyTable. rewrite bind_gets.
    destruct (prv_hashContains (dict_tblmod w) t) eqn:Ec; [by intros [= <-]|].
    rewrite bind_modify. intros E.
    assert (dict_tblmod w1 = prv_hashPut (dict_tblmod w) t) as ->.
    { revert E. unfold bind, buf, PQexecSingle, ret, throw.
      case_decide; [|done]. destruct (srv_exec _ _) as [r s]. case_decide.
      - case_decide; [|done]. destruct (srv_exec _ _) as [r' s']. by intros [= <-].
      - by intros [= <-]. }
    rewrite contains_put by done. by rewrite Z.eqb_refl. }
  unfold prv_modifyTable. by rewrite bind_gets, Hc.
Qed.

Lemma modifyTable_once_witness :
  ∃ w1, prv_modifyTable "t" (client 21 []) = Ok (tt, w1) ∧ prv_modifyTable "t" w1 = Ok (tt, w1).
Proof.
  eexists. split; [reflexivity|].
  apply (modifyTable_once "t" (client 21 [])); [apply tbl_wf_init|vm_compute; lia|reflexivity].
Defined.

(** The table of names holds ten entries.  Once it is full, a further table
    is never recorded, and every statement on it alters it again. *)
Theorem modifyTable_full {Srv} `{Server Srv} t (w : world Srv) :
  (HASH_LEN ≤ size (dict_tblmod w))%nat → prv_hashContains (dict_tblmod w) t = false →
  fits STR_LONG_LEN (alter_sql t) →
  ∃ w1, prv_modifyTable t w = Ok (tt, w1) ∧ dict_tblmod w1 = dict_tblmod w ∧
    ∃ es, trace w1 = trace w ++ Exec (alter_sql t) :: es.
Proof.
  intros Hs Hc Hf. assert (fits STR_LONG_LEN (rowid_sql t)) as Hf'.
  { revert Hf. unfold fits, alter_sql, rowid_sql. rewrite !slen_app. simpl. lia. }
  unfold prv_modifyTable. rewrite bind_gets, Hc, bind_modify.
  unfold prv_hashPut. rewrite decide_False by lia.
  hrun (buf_ok _ _ _ Hf). unfold bind at 1, PQexecSingle at 1. destruct (srv_exec _ _) as [r s].
  case_decide.
  - hrun (buf_ok _ _ _ Hf'). unfold bind, PQexecSingle. destruct (srv_exec _ _) as [r' s'].
    eexists. split; [done|]. cbn. split; [done|]. rewrite <- (assoc_L (++)). by eexists.
  - eexists. split; [done|]. cbn. split; [done|]. by exists [].
Qed.

Definition full_client : world script :=
  set_tblmod (mkTbl 10 [1; 2; 3; 4; 5; 6; 7; 8; 9; 10]%Z) (client 21 []).

Lemma modifyTable_full_witness :
  ∃ w1, prv_modifyTable "t" full_client = Ok (tt, w1) ∧ dict_tblmod w1 = dict_tblmod full_client ∧
    ∃ es, trace w1 = [] ++ Exec (alter_sql "t") :: es.
Proof. apply (modifyTable_full "t" full_client); vm_compute; auto. Defined.

(** ** Buffer bounds *)


(** ** UPDATE statements, end to end *)

Section update.
Context {Srv : Type} `{Server Srv}.
Implicit Types (w : world Srv).





End update.



(** C40: a statement of about a thousand characters or more exceeds the
    buffer [astr] of [prv_createQuery] in mode 21, whatever it says. *)
Theorem PQexec_long_statement_overflows {Srv} `{Server Srv} timeus query (w : world Srv) :
  DB_MODE w = 21%Z → (998 ≤ slen query)%nat → PQexec timeus query w = Err Overflow.
Proof.
  intros Hm Hq. unfold PQexec. rewrite bind_gets, Hm, decide_False by (unfold passthrough; lia).
  apply bind_err. unfold prv_createQuery. rewrite bind_gets. apply bind_err, buf_overflow.
  unfold fits, id_text. rewrite !slen_app. simpl. lia.
Qed.

Fixpoint blanks (n : nat) : string := match n with O => "" | S n => String " " (blanks n) end.

Lemma PQexec_long_statement_overflows_witness :
  PQexec 99 ("select 1" +:+ blanks 990) (client 21 []) = Err Overflow.
Proof.
  apply (PQexec_long_statement_overflows 99 ("select 1" +:+ blanks 990) (client 21 []));
    [reflexivity|vm_compute; lia].
Defined.

(** Parsing changes nothing, and can only fail by leaving a buffer. *)
Lemma parse_outcome {Srv} str ms s args (w : world Srv) :
  match prv_parseRest str ms s args w with Ok (_, w') => w' = w | Err e => e = Overflow end.
Proof.
  assert (∀ str s, match (match s with
      | None => ret ("", [])
      | Some cap =>
          v ← buf cap str;
          c ← match slast v with None => throw Overflow | Some c => ret c end;
          v ← (if decide (c = ";"%char) then chop 1 v else ret v);
          ret (v, @nil string)
      end w) with Ok (_, w') => w' = w | Err e => e = Overflow end) as Hlast.
  { intros str' [cap|]; [|done]. unfold bind, buf, ret, throw, chop.
    case_decide; [|done]. destruct (slast str'); [|done]. case_decide; [|done]. by case_decide. }
  revert str s args. induction ms as [|m ms IH]; intros str s args; [apply Hlast|].
  destruct args as [|a args]; [apply Hlast|]. cbn [prv_parseRest].
  destruct (strcasestr str m) as [[before next]|].
  - unfold buf, bind, ret, throw. specialize (IH (sdrop (slen m) next) a args).
    destruct s as [cap|]; [repeat case_decide; try done|];
      destruct (prv_parseRest (sdrop (slen m) next) ms a args w) as [[[v vs] w']|]; done.
  - unfold bind, ret. specialize (IH str s args).
    destruct (prv_parseRest str ms s args w) as [[[v vs] w']|]; done.
Qed.

(** an INSERT without a VALUES clause (for instance INSERT ... SELECT) makes
    [prv_assembleQuery] write before the beginning of its buffer [value]. *)
Theorem insert_without_values_overflows {Srv} `{Server Srv} kw T qid version timeus type (w : world Srv) :
  ci kw "insert into" → strcasestr T "values" = None →
  prv_assembleQuery (kw +:+ " " +:+ T) qid version timeus type w = Err Overflow.
Proof.
  intros Hk HT. unfold prv_assembleQuery.
  assert (prv_getStart (kw +:+ " " +:+ T) smt 0 = Some (INSERT_STMT, 12%nat)) as ->.
  { by apply (getStart_ci kw _ "insert into"); [|simpl; lia|]. }
  rewrite (decide_False (P := INSERT_STMT = SELECT_STMT)) by done.
  rewrite (decide_True (P := INSERT_STMT = INSERT_STMT)) by done.
  erewrite bind_ok by (apply (advance_kw kw "insert into" _ w Hk)).
  unfold insert_markers. unfold bind at 1. rewrite parse_skip by done. unfold bind at 1.
  pose proof (parse_outcome T ["returning"] (Some 256%Z) [Some STR_MAX_LEN] w) as Ho.
  destruct (prv_parseRest _ _ _ _ w) as [[[v vs] w']|e]; [|by subst]. done.
Qed.

Lemma insert_without_values_overflows_witness :
  prv_assembleQuery "insert into t select * from u" "42" 1 99 (-1) (client 21 []) = Err Overflow.
Proof.
  apply (insert_without_values_overflows "insert into" "t select * from u"); vm_compute; auto.
Defined.

End LdvTables.
