(* ===== verification/LdvReplay.v ===== *)
(** * Restoring a database from a log
      ([prv_restoretable], [prv_restoredb] of fe-exec.c; [PQconnectdb], [PQfinish] of fe-connect.c) *)

From Stdlib Require Import ZArith Lia Ascii.
From stdpp Require Import base strings pretty numbers list.
From S2P Require Import Prelude CString LdvState LdvPackets LdvCapture.
Import CString LdvState LdvPackets LdvCapture.

Module LdvReplay.
#[local] Arguments String.append : simpl nomatch.

Section replay.
Context {Srv : Type} `{Server Srv}.
Abbreviation L := (M (world Srv)).

(** Both loops below consume at least one byte of the file per line. *)
Fixpoint dbname_loop (fuel : nat) : L (option string) :=
  match fuel with
  | O => throw Hang
  | S fuel =>
      f ← gets f_in_dblog;
      text ← deref f;
      match fgets STR_LONG_LEN text with
      | None => ret None
      | Some (line, rest) =>
          modify (set_in (Some rest));;
          if strneq line "prv_store_dbname" 16 then
            start ← advance line 17;
            ret (Some (stake (slen start - 1) start))
          else dbname_loop fuel
      end
  end.

Definition prv_get_stored_dbname : L (option string) :=
  f ← gets f_in_dblog; text ← deref f; dbname_loop (S (slen text)).

Fixpoint restoretable_loop (fuel : nat) (iamtheone : bool) : L bool :=
  match fuel with
  | O => throw Hang
  | S fuel =>
      f ← gets f_in_dblog;
      text ← deref f;
      match fgets STR_LONG_LEN text with
      | None => ret iamtheone
      | Some (line, rest) =>
          modify (set_in (Some rest));;
          if strneq line "prv_store_table" 15 then
            start ← after_tab line;
            result ← PQexecSingle start;
            if decide (iamtheone = false ∧ PQresultStatus result ≠ PGRES_COMMAND_OK)
            then ret iamtheone
            else restoretable_loop fuel true
          else if strneq line "prv_store_row" 13 then
            start ← after_tab line;
            start ← after_tab start;
            start ← after_tab start;
            PQexecSingle start;;
            restoretable_loop fuel iamtheone
          else restoretable_loop fuel iamtheone
      end
  end.

(** A stub in the source. *)
Definition prv_restoreDbState : L unit := ret tt.

(** [file] is the whole log, for [rewind]. *)
Definition prv_restoretable (file : string) : L unit :=
  f ← gets f_in_dblog;
  text ← deref f;
  iamtheone ← restoretable_loop (S (slen text)) false;
  if iamtheone : bool then modify (set_in (Some file));; prv_restoreDbState else ret tt.

Definition PQfinish : L unit := prv_finish;; PQfinishSingle.

(** [PTU_DB_REPLAY] is the environment variable, [fopen] the contents of a file. *)
Definition prv_restoredb (fopen : string → option string) (PTU_DB_REPLAY : option string)
    (conninfo : string) : L unit :=
  mode ← gets DB_MODE;
  let file := match PTU_DB_REPLAY with Some path => fopen path | None => None end in
  if decide (mode = 32)%Z then modify (set_in file)
  else if decide (mode ≠ 22)%Z then ret tt
  else
    match PTU_DB_REPLAY with
    | None => ret tt
    | Some path =>
        match strstr conninfo "dbname=" with
        | None => ret tt
        | Some (before, at_) =>
            modify (set_in file);;
            let start := sdrop 7 at_ in
            new_conninfo ← buf STR_LEN (before +:+ "dbname=");
            new_conninfo ← buf STR_LEN (new_conninfo +:+ "postgres");
            let end_ := strchr start " " in
            '(dbname, new_conninfo) ←
              match end_ with
              | None => d ← buf STR_LEN start; ret (d, new_conninfo)
              | Some e =>
                  d ← buf STR_LEN (stake (slen start - slen e) start);
                  c ← buf STR_LEN (new_conninfo +:+ e);
                  ret (d, c)
              end;
            stored ← prv_get_stored_dbname;
            stored_dbname ← deref stored;
            (* strncmp with the length [end - start], which is huge when end is NULL *)
            if (match end_ with
                | None => bool_decide (stored_dbname = start)
                | Some e => strneq stored_dbname start (slen start - slen e)
                end)
            then
              PQconnectdbSingle new_conninfo;;
              sql ← buf STR_LEN ("CREATE DATABASE " +:+ dbname +:+ ";");
              PQexecSingle sql;;
              PQfinishSingle;;
              PQconnectdbSingle conninfo;;
              prv_restoretable (default "" file);;
              f ← gets f_in_dblog;
              deref f;;
              modify (set_in None);;
              PQfinish
            else ret tt
        end
    end.

Definition prv_init_restore (fopen : string → option string) (PTU_DB_REPLAY : option string)
    (conninfo : string) : L unit :=
  mode ← gets DB_MODE;
  if decide (mode = 22 ∨ mode = 32)%Z then prv_restoredb fopen PTU_DB_REPLAY conninfo else ret tt.

(** The environment of a process. *)
Record env := mkEnv {
  PTU_DB_MODE : option string; PTU_DBSESSION_ID : option string; PTU_DB_REPLAY : option string;
  files : string → option string }.

Definition PQconnectdb (e : env) (conninfo : string) : L PGconn :=
  prv_init_pkg_capture (PTU_DB_MODE e) (PTU_DBSESSION_ID e);;
  prv_init_restore (files e) (PTU_DB_REPLAY e) conninfo;;
  conn ← PQconnectdbSingle conninfo;
  prv_storeConnection conn;;
  ret conn.

End replay.

(** ** The entries of a log *)

Inductive entry :=
| ETable (sql : string)
| ERow (rowid table sql : string)
| EOther (line : string).

Definition line_of (e : entry) : string :=
  match e with
  | ETable sql => "prv_store_table" +:+ tb +:+ sql
  | ERow rowid table sql => "prv_store_row" +:+ tb +:+ rowid +:+ tb +:+ table +:+ tb +:+ sql
  | EOther line => line
  end.

Fixpoint text_of (es : list entry) : string :=
  match es with [] => "" | e :: es => line_of e +:+ String newline (text_of es) end.

(** Every entry is one line that fits the reader's buffer; identifiers contain no tab. *)
Definition entry_ok (e : entry) : Prop :=
  ¬ sin newline (line_of e) ∧ (Z.of_nat (slen (line_of e)) + 1 < STR_LONG_LEN)%Z ∧
  match e with
  | ERow rowid table _ => ¬ sin tab rowid ∧ ¬ sin tab table
  | EOther line => strneq (line +:+ nl) "prv_store_table" 15 = false ∧
                   strneq (line +:+ nl) "prv_store_row" 13 = false
  | ETable _ => True
  end.

#[global] Instance entry_ok_dec e : Decision (entry_ok e).
Proof. unfold entry_ok. destruct e; apply _. Defined.

(** The statements a log stands for. *)
Definition statements (es : list entry) : list event :=
  flat_map (λ e, match e with
    | ETable sql | ERow _ _ sql => [Exec (sql +:+ nl)]
    | EOther _ => [] end) es.

Section facts.
Context {Srv : Type} `{Server Srv}.
Implicit Types (w : world Srv).

(** One line of the loop. *)
Lemma restoretable_line fuel b e rest w :
  f_in_dblog w = Some (line_of e +:+ String newline rest) → entry_ok e →
  let w1 := set_in (Some rest) w in
  restoretable_loop (S fuel) b w =
  match e with
  | EOther _ => restoretable_loop fuel b w1
  | ERow _ _ sql => (PQexecSingle (sql +:+ nl);; restoretable_loop fuel b) w1
  | ETable sql =>
      (result ← PQexecSingle (sql +:+ nl);
       if decide (b = false ∧ PQresultStatus result ≠ PGRES_COMMAND_OK)
       then ret b else restoretable_loop fuel true) w1
  end.
Proof.
  intros Hf (Hn & Hl & He) w1. cbn [restoretable_loop].
  rewrite bind_gets, Hf, bind_deref, fgets_line by done. rewrite bind_modify. fold w1.
  destruct e as [sql|rowid table sql|line]; cbn [line_of] in *.
  - assert (strneq (("prv_store_table" +:+ tb +:+ sql) +:+ nl) "prv_store_table" 15 = true) as -> by done.
    rewrite <- !app_assoc_s. by erewrite bind_ok by (apply after_tab_ok; vm_compute; naive_solver).
  - assert (strneq (("prv_store_row" +:+ tb +:+ rowid +:+ tb +:+ table +:+ tb +:+ sql) +:+ nl)
      "prv_store_table" 15 = false) as -> by done.
    assert (strneq (("prv_store_row" +:+ tb +:+ rowid +:+ tb +:+ table +:+ tb +:+ sql) +:+ nl)
      "prv_store_row" 13 = true) as -> by done.
    rewrite <- !app_assoc_s. erewrite bind_ok by (apply after_tab_ok; vm_compute; naive_solver).
    destruct He. erewrite bind_ok by by apply after_tab_ok. by erewrite bind_ok by by apply after_tab_ok.
  - destruct He as [-> ->]. done.
Qed.

(** Once the first table has been created, everything is executed, whatever the
    server answers. *)
Lemma restoretable_all fuel es w :
  f_in_dblog w = Some (text_of es) → Forall entry_ok es → (List.length es < fuel)%nat →
  ∃ w', restoretable_loop fuel true w = Ok (true, w') ∧ trace w' = trace w ++ statements es ∧
    f_in_dblog w' = Some "".
Proof.
  intros Hf Ho. revert fuel w Hf. induction Ho as [|e es He _ IH]; intros [|fuel] w Hf Hl; simpl in Hl; try lia.
  - exists w. cbn [restoretable_loop]. rewrite bind_gets, Hf, bind_deref. cbn. by rewrite app_nil_r.
  - rewrite (restoretable_line fuel true e (text_of es) w Hf He). destruct e as [sql|rowid table sql|line]; cbn zeta.
    + unfold bind at 1, PQexecSingle. destruct (srv_exec _ _) as [r s]. rewrite decide_False by naive_solver.
      edestruct (IH fuel) as (w' & E & Ht & Hi); [| |exists w'; split; [exact E|]]; [done|lia|].
      split; [|done]. rewrite Ht. cbn. by rewrite <- (assoc_L (++)).
    + unfold bind at 1, PQexecSingle. destruct (srv_exec _ _) as [r s].
      edestruct (IH fuel) as (w' & E & Ht & Hi); [| |exists w'; split; [exact E|]]; [done|lia|].
      split; [|done]. rewrite Ht. cbn. by rewrite <- (assoc_L (++)).
    + edestruct (IH fuel) as (w' & E & Ht & Hi); [| |exists w'; split; [exact E|]]; [done|lia|]. done.
Qed.

(** Lines before the first table are skipped; if the server accepts that table,
    the rest of the log is executed. *)
Lemma restoretable_from_start fuel pre sql es w :
  f_in_dblog w = Some (text_of ((EOther <$> pre) ++ ETable sql :: es)) →
  Forall entry_ok ((EOther <$> pre) ++ ETable sql :: es) →
  PQresultStatus (fst (srv_exec (sql +:+ nl) (srv w))) = PGRES_COMMAND_OK →
  (List.length pre + List.length es + 1 < fuel)%nat →
  ∃ w', restoretable_loop fuel false w = Ok (true, w') ∧
    trace w' = trace w ++ Exec (sql +:+ nl) :: statements es ∧ f_in_dblog w' = Some "".
Proof.
  revert fuel w. induction pre as [|l pre IH]; intros [|fuel] w Hf Ho Hs Hl; cbn in Hl, Hf, Ho; try lia;
    apply Forall_cons in Ho as [He Ho].
  - rewrite (restoretable_line fuel false (ETable sql) (text_of es) w Hf He). cbn zeta.
    unfold bind at 1, PQexecSingle. cbn [srv set_in]. destruct (srv_exec _ _) as [r s]. cbn in Hs.
    rewrite decide_False by naive_solver.
    edestruct (restoretable_all fuel es) as (w' & E & Ht & Hi); [| | |exists w'; split; [exact E|]]; [done..|lia|].
    split; [|done]. rewrite Ht. cbn. by rewrite <- (assoc_L (++)).
  - rewrite (restoretable_line fuel false (EOther l) _ w Hf He). cbn zeta.
    edestruct (IH fuel) as (w' & E & Ht & Hi); [| | | |exists w'; split; [exact E|]]; [done..|lia|done].
Qed.

Lemma text_of_app es1 es2 : text_of (es1 ++ es2) = text_of es1 +:+ text_of es2.
Proof.
  induction es1 as [|e es1 IH]; [done|]. cbn [app text_of]. by rewrite IH, <- app_assoc_s.
Qed.

Lemma text_of_len es : (List.length es ≤ slen (text_of es))%nat.
Proof. induction es as [|e es IH]; [done|]. cbn [text_of]. rewrite slen_app. simpl. lia. Qed.

Lemma after_tab_same s t w w' : after_tab s w = Ok (t, w') → w' = w.
Proof. unfold after_tab. destruct (strchr s tab) as [[|? ?]|]; [done|by intros [= _ <-]|done]. Qed.

(** The loop does not change the mode. *)
Lemma restoretable_mode fuel b w r w' : restoretable_loop fuel b w = Ok (r, w') → DB_MODE w' = DB_MODE w.
Proof.
  revert b w. induction fuel as [|fuel IH]; intros b w; cbn [restoretable_loop]; [done|].
  rewrite bind_gets. destruct (f_in_dblog w) as [text|]; [|done]. rewrite bind_deref.
  destruct (fgets STR_LONG_LEN text) as [[line rest]|]; [|by intros [= _ <-]]. rewrite bind_modify.
  destruct (strneq line "prv_store_table" 15); [|destruct (strneq line "prv_store_row" 13)].
  - intros (start & w1 & ->%after_tab_same & E)%bind_inv. revert E. unfold bind, PQexecSingle.
    destruct (srv_exec _ _). case_decide; [by intros [= _ <-]|]. by intros ->%IH.
  - intros (s1 & w1 & ->%after_tab_same & E)%bind_inv.
    apply bind_inv in E as (s2 & w2 & ->%after_tab_same & E).
    apply bind_inv in E as (s3 & w3 & ->%after_tab_same & E). revert E. unfold bind, PQexecSingle.
    destruct (srv_exec _ _). by intros ->%IH.
  - by intros ->%IH.
Qed.

(** [prv_restoretable] on such a log. *)
Lemma prv_restoretable_ok file pre sql es w :
  f_in_dblog w = Some (text_of ((EOther <$> pre) ++ ETable sql :: es)) →
  Forall entry_ok ((EOther <$> pre) ++ ETable sql :: es) →
  PQresultStatus (fst (srv_exec (sql +:+ nl) (srv w))) = PGRES_COMMAND_OK →
  ∃ w', prv_restoretable file w = Ok (tt, w') ∧ f_in_dblog w' = Some file ∧ DB_MODE w' = DB_MODE w ∧
    trace w' = trace w ++ Exec (sql +:+ nl) :: statements es.
Proof.
  intros Hf Ho Hs. pose proof (text_of_len ((EOther <$> pre) ++ ETable sql :: es)) as Hl.
  rewrite length_app, length_fmap in Hl. simpl in Hl.
  unfold prv_restoretable. rewrite bind_gets, Hf, bind_deref.
  edestruct (restoretable_from_start (S (slen (text_of ((EOther <$> pre) ++ ETable sql :: es)))) pre sql es w)
    as (w' & E & Ht & Hi); [done|done|done|lia|].
  hrun E. rewrite bind_modify. eexists. split; [done|]. split; [done|]. split; [|done].
  cbn. by eapply restoretable_mode.
Qed.

End facts.

(** ** Capture and replay of rows *)

(** The values of a row as the log writes them, from some field on. *)
Fixpoint row_tail (vs : list string) : string :=
  match vs with
  | [] => ""
  | [v] => v +:+ "')"
  | v :: vs => v +:+ "', '" +:+ row_tail vs
  end.

Definition row_text (vs : list string) : string := "('" +:+ row_tail vs.

Definition insert_sql (table : string) (vs : list string) : string :=
  "INSERT INTO " +:+ table +:+ " VALUES " +:+ row_text vs +:+ ";".

(** The record of the client-visible part of a row: everything but the four provenance columns. *)
Definition tuple_line (pid : Z) (queryid : string) (vs : list string) : string :=
  "prv_store_tuple" +:+ tb +:+ percent_d pid +:+ tb +:+ queryid +:+ tb +:+
  default "" (last vs) +:+ tb +:+ row_text (take (List.length vs - 4) vs).

Definition row_entries (pid : Z) (queryid table : string) (vs : list string) : list entry :=
  [EOther (tuple_line pid queryid vs); ERow (default "" (last vs)) table (insert_sql table vs)].

Section rows.
Context {Srv : Type} `{Server Srv}.
Implicit Types (w : world Srv).

Lemma row_tail_cons v vs : vs ≠ [] → row_tail (v :: vs) = v +:+ "', '" +:+ row_tail vs.
Proof. by destruct vs. Qed.

Lemma log_text s f w : f_out_dblog w = Some f → log s w = Ok (tt, set_out (Some (f +:+ s)) w).
Proof. unfold log. by intros ->. Qed.

Lemma getvalue_ok res r row n v :
  tuples res !! r = Some row → List.length row = List.length (attDescs res) → row !! n = Some v →
  PQgetvalue (Some res) r n = Some v.
Proof.
  intros Hr Hl Hv. unfold PQgetvalue, check_tuple_field_number, PQntuples, PQnfields.
  rewrite !bool_decide_eq_true_2; [simpl; by rewrite Hr| |].
  - rewrite <- Hl. by eapply lookup_lt_Some.
  - by eapply lookup_lt_Some.
Qed.

(** What the loop over the fields [rs] of a row (the last ones) logs: one tuple record
    as soon as the four provenance columns are all that is left. *)
Definition loop_log (pid : Z) (q values : string) (row rs : list string) : string :=
  if decide (5 ≤ List.length rs)%nat then
    "prv_store_tuple" +:+ tb +:+ percent_d pid +:+ tb +:+ q +:+ tb +:+ default "" (last row) +:+ tb +:+
    (values +:+ row_tail (take (List.length rs - 4) rs)) +:+ nl
  else "".

Lemma loop_log_later pid q values row v rs :
  (5 ≤ List.length rs)%nat →
  loop_log pid q values row (v :: rs) = loop_log pid q (values +:+ v +:+ "', '") row rs.
Proof.
  intros Hl. unfold loop_log. rewrite !decide_True by (simpl; lia). cbn [List.length].
  replace (S (List.length rs) - 4)%nat with (S (List.length rs - 4)) by lia. cbn [take].
  rewrite row_tail_cons; [by rewrite <- !app_assoc_s|].
  intros E%(f_equal List.length). rewrite length_take in E. simpl in E. lia.
Qed.

Lemma sep_text v rs (nf n : nat) :
  (n + S (List.length rs) = nf)%nat →
  v +:+ (if decide (n + 1 < nf)%nat then "', '" else "')") +:+ row_tail rs = row_tail (v :: rs).
Proof.
  intros Hn. destruct rs as [|v' rs]; simpl in Hn.
  - rewrite decide_False by lia. cbn. by rewrite ?app_nil_r_s.
  - by rewrite decide_True by lia.
Qed.

Lemma values_loop_ok res r row q n rs values rid f w :
  tuples res !! r = Some row → List.length row = List.length (attDescs res) → drop n row = rs →
  fits STR_LONG_LEN (values +:+ row_tail rs) → f_out_dblog w = Some f →
  values_loop (Some res) q (List.length row) r (List.length rs) n values rid w =
    Ok ((values +:+ row_tail rs,
         if decide (5 ≤ List.length rs)%nat then Some (default "" (last row)) else rid),
        set_out (Some (f +:+ loop_log (os_pid w) q values row rs)) w).
Proof.
  intros Hr Hl. revert n values rid f w.
  induction rs as [|v rs IH]; intros n values rid f w Hd Hfit Hf.
  { cbn. rewrite !app_nil_r_s, <- Hf. by destruct w. }
  assert (row !! n = Some v) as Hv.
  { rewrite <- (Nat.add_0_r n), <- lookup_drop, Hd. done. }
  assert (drop (S n) row = rs) as Hd'.
  { rewrite <- Nat.add_1_r, <- drop_drop, Hd. done. }
  assert (n + S (List.length rs) = List.length row)%nat as Hn.
  { pose proof (f_equal List.length Hd) as E. rewrite length_drop in E. simpl in E.
    pose proof (lookup_lt_Some _ _ _ Hv). lia. }
  assert (slen (values +:+ v) + 2 ≤ slen (values +:+ row_tail (v :: rs)))%nat as Hle.
  { rewrite !slen_app. destruct rs; cbn [row_tail]; rewrite !slen_app; simpl; lia. }
  assert (fits STR_LONG_LEN (values +:+ v) ∧ fits STR_LONG_LEN ((values +:+ v) +:+ "')")) as [Hf1 Hf2].
  { revert Hfit. unfold fits. rewrite (slen_app (values +:+ v)). change (slen "')") with 2%nat. lia. }
  pose proof (sep_text v rs (List.length row) n Hn) as Hsep.
  set (sep := if decide (n + 1 < List.length row)%nat then "', '" else "')") in *.
  assert (fits STR_LONG_LEN ((values +:+ v) +:+ sep)) as Hf3.
  { revert Hfit. rewrite <- Hsep. unfold fits. rewrite !slen_app. lia. }
  assert (((values +:+ v) +:+ sep) +:+ row_tail rs = values +:+ row_tail (v :: rs)) as Hall.
  { by rewrite <- Hsep, <- !app_assoc_s. }
  cbn [List.length values_loop]. rewrite (getvalue_ok _ _ _ _ _ Hr Hl Hv), bind_deref.
  hrun (buf_ok _ _ _ Hf1).
  destruct (decide (n + 5 = List.length row)%nat) as [H5|H5].
  - rewrite bind_assoc. hrun (buf_ok _ _ _ Hf2). rewrite bind_assoc.
    assert (PQgetvalue (Some res) r (List.length row - 1) = Some (default "" (last row))) as Hlast.
    { destruct (last row) as [x|] eqn:E; [|apply last_None in E; by subst].
      eapply getvalue_ok; [done|done|]. rewrite last_lookup in E.
      by replace (List.length row - 1)%nat with (Nat.pred (List.length row)) by lia. }
    rewrite Hlast. cbn [percent_s]. unfold prv_storeTuple. rewrite bind_assoc, bind_gets.
    hrun (log_text _ _ _ Hf). rewrite bind_ret. hrun (buf_ok _ _ _ Hf3).
    erewrite IH; [|exact Hd'|by rewrite Hall|reflexivity].
    rewrite Hall. unfold loop_log. rewrite !(decide_False (P := (5 ≤ List.length rs)%nat)) by lia.
    rewrite !(decide_True (P := (5 ≤ S (List.length rs))%nat)) by lia. cbn [List.length].
    replace (S (List.length rs) - 4)%nat with 1%nat by lia.
    rewrite app_nil_r_s. rewrite (firstn_cons 0 v rs), take_0. cbn [row_tail]. by rewrite <- !app_assoc_s.
  - rewrite bind_ret. hrun (buf_ok _ _ _ Hf3).
    rewrite (IH (S n) _ _ _ _ Hd' ltac:(by rewrite Hall) Hf). rewrite Hall.
    destruct (decide (5 ≤ List.length rs)%nat) as [Hge|Hlt].
    + rewrite decide_True by (simpl; lia). rewrite loop_log_later by done.
      assert (sep = "', '") as -> by (unfold sep; rewrite decide_True by lia; done).
      by rewrite <- app_assoc_s.
    + rewrite decide_False by (simpl; lia). unfold loop_log.
      by rewrite !decide_False by (simpl; lia).
Qed.

Definition rows_entries (pid : Z) (q t : string) (rows : list (list string)) : list entry :=
  flat_map (row_entries pid q t) rows.

Lemma rows_loop_ok res t q rows r rid f w :
  res_wf (Some res) → (5 ≤ List.length (attDescs res))%nat → drop r (tuples res) = rows →
  Forall (λ row, fits STR_LONG_LEN (row_text row)) rows → f_out_dblog w = Some f →
  rows_loop t (Some res) q true (List.length rows) r rid w =
    Ok (tt, set_out (Some (f +:+ text_of (rows_entries (os_pid w) q t rows))) w).
Proof.
  intros Hwf Hnf. revert r rid f w. induction rows as [|row rows IH]; intros r rid f w Hd Hfit Hf.
  { cbn. rewrite app_nil_r_s, <- Hf. by destruct w. }
  assert (tuples res !! r = Some row) as Hr.
  { rewrite <- (Nat.add_0_r r), <- lookup_drop, Hd. done. }
  assert (drop (S r) (tuples res) = rows) as Hd'.
  { rewrite <- Nat.add_1_r, <- drop_drop, Hd. done. }
  assert (List.length row = List.length (attDescs res)) as Hl.
  { simpl in Hwf. eapply Forall_forall in Hwf; [done|]. by eapply list_elem_of_lookup_2. }
  apply Forall_cons in Hfit as [Hfr Hfit].
  cbn [List.length rows_loop PQnfields]. rewrite <- Hl.
  erewrite bind_ok.
  2:{ apply (values_loop_ok res r row q 0 row "('" rid f w Hr Hl); [apply drop_0|exact Hfr|done]. }
  rewrite decide_True by lia. cbn iota beta.
  rewrite !bind_assoc, bind_deref, bind_assoc.
  erewrite bind_ok by by apply log_text. erewrite bind_ok by by apply log_text.
  erewrite IH; [|done|done|reflexivity]. cbn [f_out_dblog set_out os_pid].
  unfold loop_log, rows_entries. rewrite decide_True by lia. cbn [flat_map row_entries app text_of line_of].
  unfold tuple_line, insert_sql, row_text. rewrite <- !app_assoc_s. reflexivity.
Qed.

End rows.

(** C3: capture and replay of rows.  The rows that [prv_storeTupleFromResult] logs behind
    a table's definition are re-inserted by [prv_restoretable]: replaying the log sends
    the CREATE TABLE statement and then, for every row in order, an INSERT with exactly
    the logged values; nothing else is sent. *)
Theorem captured_rows_replayed {Srv1 Srv2} `{Server Srv1} `{Server Srv2} res t q pre sql
    (w1 : world Srv1) (w2 : world Srv2) :
  let head := (EOther <$> pre) ++ [ETable sql] in
  let rows := rows_entries (os_pid w1) q t (tuples res) in
  res_wf (Some res) → (5 ≤ List.length (attDescs res))%nat →
  Forall (λ row, fits STR_LONG_LEN (row_text row)) (tuples res) →
  Forall entry_ok (head ++ rows) →
  f_out_dblog w1 = Some (text_of head) →
  PQresultStatus (fst (srv_exec (sql +:+ nl) (srv w2))) = PGRES_COMMAND_OK →
  ∃ w1' file w2',
    prv_storeTupleFromResult t (Some res) q true w1 = Ok (tt, w1') ∧ f_out_dblog w1' = Some file ∧
    prv_restoretable file (set_in (Some file) w2) = Ok (tt, w2') ∧
    trace w2' = trace w2 ++ Exec (sql +:+ nl) ::
      ((λ row, Exec (insert_sql t row +:+ nl)) <$> tuples res).
Proof.
  intros head rows Hwf Hnf Hfit Hok Hf Hs.
  assert (head ++ rows = (EOther <$> pre) ++ ETable sql :: rows) as Hhr
    by (unfold head; by rewrite <- (assoc_L (++))).
  eexists _, (text_of ((EOther <$> pre) ++ ETable sql :: rows)). rewrite Hhr in Hok.
  destruct (prv_restoretable_ok (text_of ((EOther <$> pre) ++ ETable sql :: rows)) pre sql rows
    (set_in (Some (text_of ((EOther <$> pre) ++ ETable sql :: rows))) w2))
    as (w2' & E & _ & _ & Ht); [done|done|done|]. exists w2'. split.
  { unfold prv_storeTupleFromResult.
    apply (rows_loop_ok res t q (tuples res) 0 None (text_of head) w1); [done|done|apply drop_0|done|done]. }
  split; [cbn [f_out_dblog set_out]; rewrite <- text_of_app; by fold rows; rewrite Hhr|]. split; [exact E|]. rewrite Ht. cbn [trace set_in].
  do 2 f_equal. unfold rows, rows_entries. clear. induction (tuples res) as [|row rest IH]; [done|].
  cbn. f_equal. exact IH.
Qed.

(** A server that accepts everything. *)
#[global, program] Instance yes_server : Server unit := {|
  srv_connect conninfo s := (mkConn conninfo "user", s);
  srv_exec sql s := (Some (mkRes PGRES_COMMAND_OK [] []), s);
  srv_finish s := s |}.
Next Obligation. constructor. Qed.

Definition sample_result : PGresult :=
  mkRes PGRES_TUPLES_OK ["a"; "_prov_p"; "_prov_insertedby"; "_prov_v"; "_prov_rowid"]
    [["1"; "0000"; "7"; "now"; "16385"]; ["2"; "0000"; "7"; "now"; "16386"]].

Lemma captured_rows_replayed_witness :
  let w1 := bare 21 (Some (text_of [ETable "CREATE TABLE t (a integer);"])) None in
  ∃ w1' file w2',
    prv_storeTupleFromResult "t" (Some sample_result) "originalDB" true w1 = Ok (tt, w1') ∧
    f_out_dblog w1' = Some file ∧
    prv_restoretable file (set_in (Some file) (bare 22 None None)) = Ok (tt, w2') ∧
    trace w2' = [] ++ Exec ("CREATE TABLE t (a integer);" +:+ nl) ::
      ((λ row, Exec (insert_sql "t" row +:+ nl)) <$> tuples sample_result).
Proof.
  intros w1.
  apply (captured_rows_replayed (Srv1 := unit) (Srv2 := unit) sample_result "t" "originalDB" []
           "CREATE TABLE t (a integer);" w1 (bare 22 None None)).
  - repeat constructor.
  - vm_compute. lia.
  - repeat constructor.
  - apply (bool_decide_unpack _). vm_compute. exact I.
  - reflexivity.
  - reflexivity.
Defined.

(** ** Restoring a whole database *)

Section restoring.
Context {Srv : Type} `{Server Srv}.
Implicit Types (w : world Srv).






End restoring.






(** The state after a first connection in mode 21. *)
Lemma init_21 {Srv} session (w w' : world Srv) :
  is_init w = false → prv_init_pkg_capture (Some "21") session w = Ok (tt, w') →
  is_init w' = true ∧ DB_MODE w' = 21%Z.
Proof.
  intros Hi. unfold prv_init_pkg_capture. rewrite bind_gets, Hi, !bind_modify, bind_gets.
  rewrite decide_False, !bind_modify by done. rewrite decide_True by (left; done).
  unfold bind, gets, buf, throw, ret, modify, log.
  destruct session; case_decide; by intros [= <-].
Qed.

Lemma connect_21 {Srv} `{Server Srv} e conninfo (w : world Srv) :
  is_init w = true → DB_MODE w = 21%Z →
  PQconnectdb e conninfo w = (conn ← PQconnectdbSingle conninfo; prv_storeConnection conn;; ret conn) w.
Proof.
  intros Hi Hm. unfold PQconnectdb, prv_init_pkg_capture, prv_init_restore.
  rewrite bind_assoc, bind_gets, Hi, bind_ret, bind_assoc, bind_gets, Hm.
  rewrite decide_False by lia. done.
Qed.

(** the log is opened once per process and closed by the first [PQfinish]; a
    second connection of the same process in mode 21 then writes to a closed file. *)
Theorem second_connection_writes_closed_log {Srv} `{Server Srv} e conninfo1 conninfo2 (w : world Srv) c w1 w2 :
  is_init w = false → PTU_DB_MODE e = Some "21" →
  PQconnectdb e conninfo1 w = Ok (c, w1) → PQfinish w1 = Ok (tt, w2) →
  PQconnectdb e conninfo2 w2 = Err Segv.
Proof.
  intros Hi He E1 E2. unfold PQconnectdb in E1. rewrite He in E1.
  apply bind_inv in E1 as ([] & wa & Ea & E1). destruct (init_21 _ _ _ Hi Ea) as [Hia Hma].
  assert (is_init w2 = true ∧ DB_MODE w2 = 21%Z ∧ f_out_dblog w2 = None) as (Hi2 & Hm2 & Hf2).
  { revert E1 E2. unfold prv_init_restore. rewrite bind_assoc, bind_gets, Hma, decide_False, bind_ret by lia.
    unfold PQconnectdbSingle, prv_storeConnection, PQfinish, PQfinishSingle, prv_finish.
    unfold bind, gets, log, ret, modify, deref, throw. destruct (srv_connect _ _) as [c1 s1]. cbn.
    rewrite Hma, (decide_True (P := (21 = 21)%Z)) by done. cbn.
    destruct (f_out_dblog wa); [|intros; simplify_eq]. cbn. intros [= <- <-]. cbn. rewrite Hma.
    rewrite decide_True by (left; done). cbn. intros [= <-]. done. }
  rewrite connect_21 by done. unfold bind at 1, PQconnectdbSingle. destruct (srv_connect _ _) as [c2 s2].
  unfold prv_storeConnection. rewrite bind_assoc, bind_gets. cbn [DB_MODE set_srv].
  rewrite Hm2, decide_True by done. unfold bind, log. cbn. by rewrite Hf2.
Qed.

Definition sample_env : env := mkEnv (Some "21") (Some "7") None (λ _, None).
Definition fresh_process : world unit :=
  mkWorld false 0 prv_hashInit prv_hashInit None None 0 0 4711 [] tt.

Lemma second_connection_writes_closed_log_witness :
  ∃ c w1 w2, PQconnectdb sample_env "dbname=a" fresh_process = Ok (c, w1) ∧ PQfinish w1 = Ok (tt, w2) ∧
    PQconnectdb sample_env "dbname=b" w2 = Err Segv.
Proof.
  do 3 eexists. split; [vm_compute; reflexivity|]. split; [vm_compute; reflexivity|].
  eapply (second_connection_writes_closed_log sample_env "dbname=a" "dbname=b" fresh_process);
    vm_compute; reflexivity.
Defined.

End LdvReplay.
