(* ===== verification/VarBit.v ===== *)
(** * Bit sets of transformation provenance
      ([src/src/backend/provrewrite/adt/prov_trans_bitset.c], [src/src/include/utils/varbit.h])

    The provenance of a result tuple is a [VarBit] with one bit per part of the query, the
    most significant bit of the first byte first.  The functions are modelled byte by
    byte and specified against the set of bits that are 1. *)

From Stdlib Require Import ZArith Lia.
From stdpp Require Import base strings numbers list.
From S2P Require Import Prelude.

Module VarBit.

Record VarBit := mkVarBit { bit_len : Z; bit_dat : list Z }.

Definition BITS_PER_BYTE : Z := 8.
Definition HIGHBIT : Z := 128.
Definition BITMASK : Z := 255.

(** [VARBITBYTES] and [VARBITPAD] *)
Definition VARBITBYTES (v : VarBit) : Z := Z.of_nat (length (bit_dat v)).
Definition VARBITPAD (v : VarBit) : Z := VARBITBYTES v * BITS_PER_BYTE - bit_len v.

(** The data bytes of [VARBITTOTALLEN]. *)
Definition data_bytes (bitlen : Z) : Z := (bitlen + BITS_PER_BYTE - 1) / BITS_PER_BYTE.

(** ** Operations *)

(** [mask = BITMASK << VARBITPAD(result); if (mask) { r--; *r &= mask; }].  With no data
    bytes the mask is 0xFF and leaves the byte before unchanged. *)
Definition pad_result (v : VarBit) : VarBit :=
  let mask := wrap_u 8 (Z.shiftl BITMASK (VARBITPAD v)) in
  if decide (mask = 0)%Z then v
  else match last (bit_dat v) with
       | Some b => mkVarBit (bit_len v) (<[Nat.pred (length (bit_dat v)) := Z.land b mask]> (bit_dat v))
       | None => v
       end.

(** [for (i = 0; i < VARBITBYTES(arg1); i++) *r++ = *p1++ | *p2++;] *)
Fixpoint or_loop (p1 p2 : list Z) : outcome (list Z) :=
  match p1, p2 with
  | [], _ => Ok []
  | _ :: _, [] => Err Overflow
  | a :: p1, b :: p2 =>
      match or_loop p1 p2 with Ok r => Ok (Z.lor a b :: r) | Err e => Err e end
  end.

(** SQL NULL is [None]. *)
Definition bitor_with_null (arg1 arg2 : option VarBit) : outcome (option VarBit) :=
  match arg1, arg2 with
  | None, None => Ok None
  | None, Some a => Ok (Some (pad_result a))
  | Some a, None => Ok (Some (pad_result a))
  | Some a1, Some a2 =>
      if decide (bit_len a1 = bit_len a2) then
        match or_loop (bit_dat a1) (bit_dat a2) with
        | Ok r => Ok (Some (pad_result (mkVarBit (bit_len a1) r)))
        | Err e => Err e
        end
      else Err (Elog "cannot OR bit strings of different sizes")
  end.

Fixpoint contains_loop (p1 p2 : list Z) : outcome bool :=
  match p1, p2 with
  | [], _ => Ok true
  | _ :: _, [] => Err Overflow
  | a :: p1, b :: p2 => if decide (Z.land a b = b) then contains_loop p1 p2 else Ok false
  end.

Definition bitsetContains (left right : VarBit) : outcome bool :=
  if decide (bit_len left = bit_len right) then contains_loop (bit_dat left) (bit_dat right)
  else Err (Elog "cannot test bit strings of different sizes for containment").

Definition bitset_contains (arg1 arg2 : option VarBit) : outcome bool :=
  match arg1, arg2 with Some a1, Some a2 => bitsetContains a1 a2 | _, _ => Ok false end.

Fixpoint equal_loop (p1 p2 : list Z) : outcome bool :=
  match p1, p2 with
  | [], _ => Ok true
  | _ :: _, [] => Err Overflow
  | a :: p1, b :: p2 => if decide (a = b) then equal_loop p1 p2 else Ok false
  end.

Definition bitsetEqual (left right : VarBit) : outcome bool :=
  if decide (bit_len left = bit_len right) then equal_loop (bit_dat left) (bit_dat right)
  else Err (Elog "cannot test bit strings of different sizes for equality").

(** [for (; value > 0; value--)] of [generateVarbitSetElem]; [cur] is an index. *)
Fixpoint elem_loop (value : nat) (dat : list Z) (cur : nat) : outcome (list Z) :=
  match value with
  | O => Ok dat
  | S value =>
      match dat !! cur with
      | None => Err Overflow
      | Some b =>
          let dat := <[cur := Z.shiftr b 1]> dat in
          if decide (Z.shiftr b 1 = 0)%Z then
            if decide (S cur < length dat)%nat
            then elem_loop value (<[S cur := HIGHBIT]> dat) (S cur)
            else Err Overflow
          else elem_loop value dat cur
      end
  end.

Definition generateVarbitSetElem (n value : Z) : outcome VarBit :=
  let dat := replicate (Z.to_nat (data_bytes n)) 0%Z in
  if decide (dat = []) then Err Overflow
  else match elem_loop (Z.to_nat (value - 1)) (<[0%nat := HIGHBIT]> dat) 0 with
       | Ok dat => Ok (mkVarBit n dat)
       | Err e => Err e
       end.

Definition generateEmptyBitset (n : Z) : VarBit := mkVarBit n (replicate (Z.to_nat (data_bytes n)) 0%Z).

(** Modifies its left argument; the sizes are not compared. *)
Definition varBitOr (left right : VarBit) : outcome VarBit :=
  match or_loop (bit_dat left) (bit_dat right) with
  | Ok r => Ok (mkVarBit (bit_len left) r)
  | Err e => Err e
  end.

(** The loop of [bitset_nonzero_repeat], [k] bits left.  [p1] are the bytes behind the
    current one; reading past the last one yields the byte that happens to follow in memory, [beyond]. *)
Fixpoint repeat_loop (beyond arg2 : Z) (k : nat) (i temp : Z) (p1 : list Z) (foundOne : bool) : bool :=
  match k with
  | O => true
  | S k =>
      let foundOne := foundOne || negb (Z.land temp HIGHBIT =? 0)%Z in
      if (i mod arg2 =? 0)%Z && negb foundOne then false
      else
        let foundOne := if (i mod arg2 =? 0)%Z then false else foundOne in
        if (i mod BITS_PER_BYTE =? 0)%Z then
          match p1 with
          | b :: p1 => repeat_loop beyond arg2 k (i + 1) b p1 foundOne
          | [] => repeat_loop beyond arg2 k (i + 1) beyond [] foundOne
          end
        else repeat_loop beyond arg2 k (i + 1) (wrap_u 8 (Z.shiftl temp 1)) p1 foundOne
  end.

(** A zero [arg2] divides by zero, which the backend reports as an error. *)
Definition bitset_nonzero_repeat (beyond : Z) (arg1 : option VarBit) (arg2 : option Z) : outcome bool :=
  match arg1, arg2 with
  | Some v, Some n =>
      let '(temp, p1) := match bit_dat v with b :: p => (b, p) | [] => (beyond, []) end in
      if decide (bit_len v ≤ 0)%Z then Ok true
      else if decide (n = 0)%Z then Err (Elog "floating-point exception")
      else Ok (repeat_loop beyond n (Z.to_nat (bit_len v)) 1 temp p1 false)
  | _, _ => Ok false
  end.

(** ** The set a bit string stands for *)

Definition bit (v : VarBit) (i : nat) : bool :=
  Z.testbit (default 0%Z (bit_dat v !! (i / 8)%nat)) (7 - Z.of_nat (i mod 8)).

Definition is_byte (b : Z) : Prop := (0 ≤ b < 256)%Z.

(** Enough bytes for the bits, and padding that is 0. *)
Record wf_varbit (v : VarBit) : Prop := {
  wfb_len : (0 ≤ bit_len v)%Z;
  wfb_bytes : VARBITBYTES v = data_bytes (bit_len v);
  wfb_byte : Forall is_byte (bit_dat v);
  wfb_pad i : (bit_len v ≤ Z.of_nat i)%Z → bit v i = false }.

End VarBit.
