(* ===== verification/VarBitFacts.v ===== *)
(** * The bit-set operations compute on sets

    Union, containment, equality, singletons and the block test of [VarBit] against the
    set of bits that are 1. *)

From Stdlib Require Import ZArith Lia.
From stdpp Require Import base strings numbers list.
From S2P Require Import Prelude VarBit.
Import VarBit.

Module VarBitFacts.

(** ** Bytes *)

Lemma byte_high b k : is_byte b → (8 ≤ k)%Z → Z.testbit b k = false.
Proof.
  intros [H0 H1] Hk. destruct (decide (b = 0)%Z) as [->|]; [apply Z.bits_0|].
  apply Z.bits_above_log2; [done|]. apply Z.log2_lt_pow2; [lia|].
  assert (2 ^ 8 ≤ 2 ^ k)%Z by (apply Z.pow_le_mono_r; lia). lia.
Qed.

(** Two bytes are equal when their eight bits are. *)
Lemma byte_eq a b :
  is_byte a → is_byte b → (∀ k, (0 ≤ k < 8)%Z → Z.testbit a k = Z.testbit b k) → a = b.
Proof.
  intros Ha Hb H. apply Z.bits_inj'. intros k Hk. destruct (decide (k < 8)%Z); [apply H; lia|].
  by rewrite !byte_high by (done || lia).
Qed.

(** A number without bits above the eighth is a byte. *)
Lemma byte_of_bits z : (0 ≤ z)%Z → (∀ k, (8 ≤ k)%Z → Z.testbit z k = false) → is_byte z.
Proof.
  intros Hz H. split; [done|]. apply Z.lt_nge. intros Hge.
  assert (8 ≤ Z.log2 z)%Z as Hl by (apply Z.log2_le_pow2; [lia|done]).
  pose proof (Z.bit_log2 z ltac:(lia)) as Hb. by rewrite H in Hb.
Qed.

Lemma lor_byte a b : is_byte a → is_byte b → is_byte (Z.lor a b).
Proof.
  intros Ha Hb. apply byte_of_bits; [apply Z.lor_nonneg; unfold is_byte in *; lia|].
  intros k Hk. by rewrite Z.lor_spec, !byte_high.
Qed.

Lemma land_byte a b : is_byte a → (0 ≤ b)%Z → is_byte (Z.land a b).
Proof.
  intros Ha Hb. apply byte_of_bits; [apply Z.land_nonneg; unfold is_byte in *; lia|].
  intros k Hk. by rewrite Z.land_spec, byte_high.
Qed.

(** ** Bits of a bit string *)

(** The bit at position [8 j + 7 - k] is bit [k] of byte [j]. *)
Lemma bit_of_byte v j b k :
  bit_dat v !! j = Some b → (0 ≤ k < 8)%Z → bit v (8 * j + Z.to_nat (7 - k)) = Z.testbit b k.
Proof.
  intros Hj Hk. unfold bit.
  assert ((8 * j + Z.to_nat (7 - k)) / 8 = j)%nat as ->.
  { rewrite Nat.mul_comm, Nat.div_add_l by lia. rewrite Nat.div_small; lia. }
  assert ((8 * j + Z.to_nat (7 - k)) mod 8 = Z.to_nat (7 - k))%nat as ->.
  { rewrite Nat.mul_comm, Nat.add_comm, Nat.Div0.mod_add. apply Nat.mod_small. lia. }
  rewrite Hj. cbn. f_equal. lia.
Qed.

Lemma bit_beyond v i : bit_dat v !! (i / 8)%nat = None → bit v i = false.
Proof. intros H. unfold bit. rewrite H. apply Z.bits_0. Qed.

Lemma mod8 i : (0 ≤ 7 - Z.of_nat (i mod 8) < 8)%Z.
Proof. pose proof (Nat.mod_upper_bound i 8). lia. Qed.

(** Strings of the same number of bytes are equal when their bits are. *)
Lemma bits_ext v u :
  length (bit_dat v) = length (bit_dat u) → Forall is_byte (bit_dat v) → Forall is_byte (bit_dat u) →
  (∀ i, bit v i = bit u i) → bit_dat v = bit_dat u.
Proof.
  intros Hl Hv Hu H. apply list_eq. intros j.
  destruct (bit_dat v !! j) as [a|] eqn:Ea, (bit_dat u !! j) as [b|] eqn:Eb; try done.
  - f_equal. apply byte_eq; [eapply Forall_lookup_1; [exact Hv|done]|eapply Forall_lookup_1; [exact Hu|done]|].
    intros k Hk. rewrite <- (bit_of_byte v j a k), <- (bit_of_byte u j b k) by done. apply H.
  - apply lookup_ge_None in Eb. apply lookup_lt_Some in Ea. lia.
  - apply lookup_ge_None in Ea. apply lookup_lt_Some in Eb. lia.
Qed.

(** ** Union *)

Lemma or_loop_ok p1 p2 :
  length p1 = length p2 → ∃ r, or_loop p1 p2 = Ok r ∧ length r = length p1 ∧
    (∀ j a b, p1 !! j = Some a → p2 !! j = Some b → r !! j = Some (Z.lor a b)) ∧
    (Forall is_byte p1 → Forall is_byte p2 → Forall is_byte r).
Proof.
  revert p2. induction p1 as [|a p1 IH]; intros [|b p2] Hl; try done.
  - exists []. repeat split; auto. intros j ? ? ?. by rewrite lookup_nil in *.
  - simpl in Hl. destruct (IH p2 ltac:(lia)) as (r & E & Hr & Hj & Hb). exists (Z.lor a b :: r).
    simpl. rewrite E. split; [done|]. split; [lia|]. split.
    + intros [|j] x y; cbn; [naive_solver|apply Hj].
    + rewrite !Forall_cons. intros [? ?] [? ?]. auto using lor_byte.
Qed.

Lemma or_bits p1 p2 r n i :
  or_loop p1 p2 = Ok r → length p1 = length p2 →
  bit (mkVarBit n r) i = bit (mkVarBit n p1) i || bit (mkVarBit n p2) i.
Proof.
  intros E Hl. destruct (or_loop_ok p1 p2 Hl) as (r' & E' & Hr & Hj & _). rewrite E in E'. injection E' as <-.
  unfold bit. cbn [bit_dat]. destruct (p1 !! (i / 8)%nat) as [a|] eqn:Ea.
  - destruct (lookup_lt_is_Some_2 p2 (i / 8)) as [b Hb'].
    { rewrite <- Hl. by eapply lookup_lt_Some. }
    rewrite Hb', (Hj _ _ _ Ea Hb'). apply Z.lor_spec.
  - apply lookup_ge_None in Ea. rewrite !lookup_ge_None_2 by lia. cbn. by rewrite Z.bits_0.
Qed.

(** The mask does not change a string whose padding is 0. *)
Lemma mask_bits pad k : (0 ≤ pad < 8)%Z → (0 ≤ k < 8)%Z →
  Z.testbit (wrap_u 8 (Z.shiftl BITMASK pad)) k = (pad <=? k)%Z.
Proof.
  intros Hp Hk. unfold wrap_u. rewrite Z.mod_pow2_bits_low by lia.
  rewrite Z.shiftl_spec by lia. change BITMASK with (Z.ones 8).
  destruct (Z.leb_spec pad k); [apply Z.ones_spec_low; lia|apply Z.testbit_neg_r; lia].
Qed.

Lemma pad_range v : wf_varbit v → (0 ≤ VARBITPAD v < 8)%Z.
Proof.
  intros [Hl Hb _ _]. unfold VARBITPAD. rewrite Hb. unfold data_bytes, BITS_PER_BYTE.
  pose proof (Z.div_mod (bit_len v + 8 - 1) 8). pose proof (Z.mod_pos_bound (bit_len v + 8 - 1) 8). lia.
Qed.

Lemma pad_result_id v : wf_varbit v → pad_result v = v.
Proof.
  intros W. pose proof (pad_range v W) as Hp. unfold pad_result. case_decide; [done|].
  destruct (last (bit_dat v)) as [b|] eqn:E; [|done]. destruct v as [n dat]. cbn in *. f_equal.
  apply list_insert_id. rewrite last_lookup in E. rewrite E. f_equal.
  assert (is_byte b) as Hb by (eapply Forall_lookup_1; [apply W|done]).
  apply Z.bits_inj'. intros k Hk. rewrite Z.land_spec.
  destruct (decide (k < 8)%Z) as [Hk8|Hk8]; [|by rewrite byte_high by (done || lia)].
  rewrite mask_bits by lia. destruct (Z.leb_spec (VARBITPAD (mkVarBit n dat)) k); [by rewrite andb_true_r|].
  rewrite andb_false_r. rewrite <- (bit_of_byte (mkVarBit n dat) _ _ k E) by lia.
  apply W. unfold VARBITPAD, VARBITBYTES, BITS_PER_BYTE in *. cbn in *.
  pose proof (lookup_lt_Some _ _ _ E). lia.
Qed.

Lemma wf_same_bytes v u : wf_varbit v → wf_varbit u → bit_len v = bit_len u →
  length (bit_dat v) = length (bit_dat u).
Proof.
  intros Wv Wu E. pose proof (wfb_bytes _ Wv). pose proof (wfb_bytes _ Wu). unfold VARBITBYTES in *.
  rewrite E in *. lia.
Qed.

Lemma or_wf n p1 p2 r :
  wf_varbit (mkVarBit n p1) → wf_varbit (mkVarBit n p2) → or_loop p1 p2 = Ok r →
  wf_varbit (mkVarBit n r).
Proof.
  intros W1 W2 E. pose proof (wf_same_bytes _ _ W1 W2 eq_refl) as Hl. cbn in Hl.
  destruct (or_loop_ok p1 p2 Hl) as (r' & E' & Hr & _ & Hb). rewrite E in E'. injection E' as <-.
  split; cbn; [apply W1| |apply Hb; [apply W1|apply W2]|].
  - unfold VARBITBYTES. cbn. rewrite Hr. apply W1.
  - intros i Hi. rewrite (or_bits p1 p2) by done. by rewrite (wfb_pad _ W1), (wfb_pad _ W2).
Qed.

(** ** Containment and equality *)

Lemma land_subset a b : is_byte a → is_byte b →
  Z.land a b = b ↔ ∀ k, (0 ≤ k < 8)%Z → Z.testbit b k = true → Z.testbit a k = true.
Proof.
  intros Ha Hb. split.
  - intros E k Hk Hbk. rewrite <- E, Z.land_spec in Hbk. by apply andb_true_iff in Hbk as [? _].
  - intros H. apply byte_eq; [apply land_byte; [done|unfold is_byte in Hb; lia]|done|].
    intros k Hk. rewrite Z.land_spec. destruct (Z.testbit b k) eqn:E; [by rewrite H|apply andb_false_r].
Qed.

Lemma contains_loop_ok p1 p2 :
  length p1 = length p2 → ∃ c, contains_loop p1 p2 = Ok c ∧
    (c = true ↔ ∀ j a b, p1 !! j = Some a → p2 !! j = Some b → Z.land a b = b).
Proof.
  revert p2. induction p1 as [|a p1 IH]; intros [|b p2] Hl; try done.
  - exists true. split; [done|]. split; [|done]. intros _ j ? ? ?. by rewrite lookup_nil in *.
  - simpl in Hl. destruct (IH p2 ltac:(lia)) as (c & E & Hc). cbn [contains_loop]. case_decide as Hab.
    + exists c. split; [done|]. rewrite Hc. split.
      * intros H [|j] x y; cbn; [naive_solver|apply H].
      * intros H j x y Hx Hy. by apply (H (S j)).
    + exists false. split; [done|]. split; [done|]. intros H. destruct Hab. by apply (H 0%nat).
Qed.

Lemma contains_ok l r :
  wf_varbit l → wf_varbit r → bit_len l = bit_len r →
  ∃ c, bitsetContains l r = Ok c ∧ (c = true ↔ ∀ i, bit r i = true → bit l i = true).
Proof.
  intros Wl Wr E. pose proof (wf_same_bytes _ _ Wl Wr E) as Hl. unfold bitsetContains.
  rewrite decide_True by done. destruct (contains_loop_ok _ _ Hl) as (c & Ec & Hc).
  exists c. split; [done|]. rewrite Hc. clear c Ec Hc. split.
  - intros H i. destruct (bit_dat r !! (i / 8)%nat) as [b|] eqn:Eb; [|by rewrite bit_beyond].
    destruct (lookup_lt_is_Some_2 (bit_dat l) (i / 8)) as [a Ea].
    { rewrite Hl. by eapply lookup_lt_Some. }
    unfold bit. rewrite Ea, Eb. cbn. intros Hb. specialize (H _ _ _ Ea Eb).
    eapply land_subset; [..|exact H|apply mod8|done]; eapply Forall_lookup_1;
      [apply Wl|done|apply Wr|done].
  - intros H j a b Ea Eb. apply land_subset.
    + eapply Forall_lookup_1; [apply Wl|done].
    + eapply Forall_lookup_1; [apply Wr|done].
    + intros k Hk. rewrite <- (bit_of_byte l j a k), <- (bit_of_byte r j b k) by done. apply H.
Qed.

Lemma equal_loop_ok p1 p2 :
  length p1 = length p2 → equal_loop p1 p2 = Ok (bool_decide (p1 = p2)).
Proof.
  revert p2. induction p1 as [|a p1 IH]; intros [|b p2] Hl; try done. cbn [equal_loop].
  simpl in Hl. case_decide as Hab.
  - subst. rewrite IH by lia. f_equal. apply bool_decide_ext. naive_solver.
  - by rewrite bool_decide_eq_false_2 by naive_solver.
Qed.

(** ** Singletons *)

(** The bytes after [j] shifts: one bit, at position [j]. *)
Definition one_bit (n j : nat) : list Z :=
  <[(j / 8)%nat := (2 ^ (7 - Z.of_nat (j mod 8)))%Z]> (replicate n 0%Z).

Lemma succ_div8 j :
  (j mod 8 = 7 ∧ S j / 8 = S (j / 8) ∧ S j mod 8 = 0)%nat ∨
  (j mod 8 < 7 ∧ S j / 8 = j / 8 ∧ S j mod 8 = S (j mod 8))%nat.
Proof.
  pose proof (Nat.div_mod_eq j 8). pose proof (Nat.mod_upper_bound j 8 ltac:(lia)).
  pose proof (Nat.div_mod_eq (S j) 8). pose proof (Nat.mod_upper_bound (S j) 8 ltac:(lia)). lia.
Qed.

Lemma replicate_zero n q : <[q := 0%Z]> (replicate n 0%Z) = replicate n 0%Z.
Proof.
  destruct (decide (q < n)%nat).
  - apply list_insert_id. by apply lookup_replicate_2.
  - apply list_insert_ge. rewrite length_replicate. lia.
Qed.

Lemma one_bit_set n j x : <[(j / 8)%nat := x]> (one_bit n j) = <[(j / 8)%nat := x]> (replicate n 0%Z).
Proof. apply list_insert_insert_eq. Qed.

Lemma elem_loop_ok n k j :
  ((j + k) / 8 < n)%nat → elem_loop k (one_bit n j) (j / 8) = Ok (one_bit n (j + k)).
Proof.
  revert j. induction k as [|k IH]; intros j Hn; [by rewrite Nat.add_0_r|].
  assert (j / 8 ≤ (j + S k) / 8)%nat by (apply Nat.Div0.div_le_mono; lia).
  assert (S j / 8 ≤ (j + S k) / 8)%nat by (apply Nat.Div0.div_le_mono; lia).
  replace (j + S k)%nat with (S j + k)%nat in * by lia. cbn [elem_loop].
  unfold one_bit at 1. rewrite list_lookup_insert_eq by (rewrite length_replicate; lia).
  rewrite !one_bit_set, length_insert, length_replicate.
  destruct (succ_div8 j) as [(Hm & Hd & Hm')|(Hm & Hd & Hm')].
  - rewrite Hm. change (Z.shiftr (2 ^ (7 - Z.of_nat 7)) 1) with 0%Z.
    rewrite decide_True, decide_True by (done || lia). rewrite replicate_zero.
    rewrite <- (IH (S j)) by lia. rewrite Hd. f_equal. unfold one_bit. by rewrite Hd, Hm'.
  - assert (Z.shiftr (2 ^ (7 - Z.of_nat (j mod 8))) 1 = 2 ^ (7 - Z.of_nat (S j mod 8)))%Z as ->.
    { rewrite Z.shiftr_div_pow2 by lia. rewrite <- Z.pow_sub_r by lia. f_equal. lia. }
    rewrite decide_False by (apply Z.pow_nonzero; lia).
    rewrite <- (IH (S j)) by lia. rewrite Hd. f_equal. unfold one_bit. by rewrite Hd.
Qed.

Lemma one_bit_bit len n j i : (j / 8 < n)%nat → bit (mkVarBit len (one_bit n j)) i = bool_decide (i = j).
Proof.
  intros Hn. unfold bit, one_bit. cbn [bit_dat].
  pose proof (Nat.div_mod_eq i 8). pose proof (Nat.div_mod_eq j 8).
  pose proof (Nat.mod_upper_bound i 8 ltac:(lia)). pose proof (Nat.mod_upper_bound j 8 ltac:(lia)).
  destruct (decide (i / 8 = j / 8)%nat) as [E|E].
  - rewrite E, list_lookup_insert_eq by (rewrite length_replicate; lia). cbn [from_option id].
    rewrite Z.pow2_bits_eqb by lia.
    destruct (decide (i = j)) as [->|Hij]; [by rewrite Z.eqb_refl, bool_decide_eq_true_2|].
    rewrite bool_decide_eq_false_2 by done. apply Z.eqb_neq. lia.
  - rewrite list_lookup_insert_ne by done. rewrite bool_decide_eq_false_2 by (intros ->; done).
    destruct (decide (i / 8 < n)%nat).
    + rewrite lookup_replicate_2 by done. apply Z.bits_0.
    + rewrite lookup_ge_None_2 by (rewrite length_replicate; lia). apply Z.bits_0.
Qed.

Lemma one_bit_bytes n j : Forall is_byte (one_bit n j).
Proof.
  unfold one_bit. apply Forall_insert.
  - apply Forall_replicate. unfold is_byte. lia.
  - pose proof (Nat.mod_upper_bound j 8 ltac:(lia)). unfold is_byte.
    assert (2 ^ (7 - Z.of_nat (j mod 8)) ≤ 2 ^ 7)%Z by (apply Z.pow_le_mono_r; lia).
    pose proof (Z.pow_nonneg 2 (7 - Z.of_nat (j mod 8)) ltac:(lia)). lia.
Qed.

Lemma generateVarbitSetElem_ok n value :
  (1 ≤ value ≤ n)%Z →
  ∃ v, generateVarbitSetElem n value = Ok v ∧ bit_len v = n ∧ wf_varbit v ∧
    ∀ i, bit v i = bool_decide (Z.of_nat i = value - 1)%Z.
Proof.
  intros Hv. unfold generateVarbitSetElem.
  assert (n ≤ 8 * data_bytes n)%Z as Hd.
  { unfold data_bytes, BITS_PER_BYTE. pose proof (Z.div_mod (n + 8 - 1) 8).
    pose proof (Z.mod_pos_bound (n + 8 - 1) 8). lia. }
  assert (Z.to_nat (value - 1) / 8 < Z.to_nat (data_bytes n))%nat as Hj.
  { apply Nat.Div0.div_lt_upper_bound. lia. }
  rewrite decide_False.
  2:{ intros E%(f_equal length). rewrite length_replicate in E. simpl in E. lia. }
  pose proof (elem_loop_ok (Z.to_nat (data_bytes n)) (Z.to_nat (value - 1)) 0 Hj) as El.
  change (0 / 8)%nat with 0%nat in El. unfold one_bit at 1 in El. change (0 / 8)%nat with 0%nat in El.
  change (2 ^ (7 - Z.of_nat (0 mod 8)))%Z with HIGHBIT in El. rewrite El. rewrite Nat.add_0_l.
  eexists. split; [done|]. split; [done|].
  assert (∀ i, bit (mkVarBit n (one_bit (Z.to_nat (data_bytes n)) (Z.to_nat (value - 1)))) i =
    bool_decide (Z.of_nat i = value - 1)%Z) as Hbit.
  { intros i. rewrite one_bit_bit by done. apply bool_decide_ext. lia. }
  split; [|done]. split; cbn [bit_len bit_dat]; [lia| |apply one_bit_bytes|].
  - unfold VARBITBYTES, one_bit. cbn [bit_dat]. rewrite length_insert, length_replicate. lia.
  - intros i Hi. rewrite Hbit. apply bool_decide_eq_false_2. lia.
Qed.

(** ** The block test *)

(** The loop on the sequence of bits. *)
Fixpoint ref_loop (arg2 i : Z) (found : bool) (bs : list bool) : bool :=
  match bs with
  | [] => true
  | b :: bs =>
      if (i mod arg2 =? 0)%Z
      then if found || b then ref_loop arg2 (i + 1) false bs else false
      else ref_loop arg2 (i + 1) (found || b) bs
  end.

(** The highest bit of a byte shifted [m] times. *)
Lemma shifted_high b m : is_byte b → (m < 8)%nat →
  negb (Z.land (wrap_u 8 (Z.shiftl b (Z.of_nat m))) HIGHBIT =? 0)%Z = Z.testbit b (7 - Z.of_nat m).
Proof.
  intros Hb Hm. assert (Z.testbit (wrap_u 8 (Z.shiftl b (Z.of_nat m))) 7 = Z.testbit b (7 - Z.of_nat m)) as E.
  { unfold wrap_u. rewrite Z.mod_pow2_bits_low by lia. apply Z.shiftl_spec. lia. }
  rewrite <- E. set (z := wrap_u 8 (Z.shiftl b (Z.of_nat m))).
  destruct (Z.testbit z 7) eqn:Ez.
  - destruct (Z.eqb_spec (Z.land z HIGHBIT) 0) as [E0|]; [|done].
    assert (Z.testbit (Z.land z HIGHBIT) 7 = true) as Ht by (by rewrite Z.land_spec, Ez).
    by rewrite E0, Z.bits_0 in Ht.
  - apply negb_false_iff, Z.eqb_eq, Z.bits_inj'. intros k Hk. rewrite Z.land_spec, Z.bits_0.
    change HIGHBIT with (2 ^ 7)%Z. rewrite Z.pow2_bits_eqb by lia.
    destruct (Z.eqb_spec 7 k) as [<-|]; [by rewrite Ez|apply andb_false_r].
Qed.

Lemma shift_again b m : is_byte b →
  wrap_u 8 (Z.shiftl (wrap_u 8 (Z.shiftl b (Z.of_nat m))) 1) = wrap_u 8 (Z.shiftl b (Z.of_nat (S m))).
Proof.
  intros Hb. unfold wrap_u. rewrite !Z.shiftl_mul_pow2 by lia.
  rewrite Z.mul_mod_idemp_l by lia. f_equal. rewrite Nat2Z.inj_succ, Z.pow_succ_r by lia. lia.
Qed.

(** From bit [j] on, the loop sees the bits of the string, whatever follows it in memory. *)
Lemma repeat_loop_ref beyond arg2 v k j b found :
  Forall is_byte (bit_dat v) → bit_dat v !! (j / 8)%nat = Some b →
  ((j + k - 1) / 8 < length (bit_dat v) ∨ k = 0)%nat →
  repeat_loop beyond arg2 k (Z.of_nat j + 1) (wrap_u 8 (Z.shiftl b (Z.of_nat (j mod 8))))
    (drop (S (j / 8)) (bit_dat v)) found =
  ref_loop arg2 (Z.of_nat j + 1) found (bit v <$> seq j k).
Proof.
  intros HF. revert j b found. induction k as [|k IH]; intros j b found Hb Hk; [done|].
  assert (is_byte b) as Hbb by by eapply Forall_lookup_1 in HF.
  pose proof (Nat.mod_upper_bound j 8 ltac:(lia)) as Hm8.
  cbn [repeat_loop seq fmap list_fmap ref_loop]. rewrite shifted_high by done.
  assert (bit v j = Z.testbit b (7 - Z.of_nat (j mod 8))) as <- by (unfold bit; by rewrite Hb).
  assert (((Z.of_nat j + 1) mod BITS_PER_BYTE =? 0)%Z = bool_decide (j mod 8 = 7)%nat) as ->.
  { unfold BITS_PER_BYTE. pose proof (Nat.div_mod_eq j 8).
    destruct (decide (j mod 8 = 7)%nat) as [E|E].
    - rewrite bool_decide_eq_true_2 by done. apply Z.eqb_eq.
      replace (Z.of_nat j + 1)%Z with ((Z.of_nat (j / 8) + 1) * 8)%Z by lia. apply Z.mod_mul. lia.
    - rewrite bool_decide_eq_false_2 by done. apply Z.eqb_neq.
      replace (Z.of_nat j + 1)%Z with (Z.of_nat (j mod 8) + 1 + Z.of_nat (j / 8) * 8)%Z by lia.
      rewrite Z.mod_add by lia. rewrite Z.mod_small by lia. lia. }
  assert (∀ found', (if bool_decide (j mod 8 = 7)%nat
      then match drop (S (j / 8)) (bit_dat v) with
           | b :: p1 => repeat_loop beyond arg2 k (Z.of_nat j + 1 + 1) b p1 found'
           | [] => repeat_loop beyond arg2 k (Z.of_nat j + 1 + 1) beyond [] found' end
      else repeat_loop beyond arg2 k (Z.of_nat j + 1 + 1)
             (wrap_u 8 (Z.shiftl (wrap_u 8 (Z.shiftl b (Z.of_nat (j mod 8)))) 1))
             (drop (S (j / 8)) (bit_dat v)) found') =
    ref_loop arg2 (Z.of_nat j + 1 + 1) found' (bit v <$> seq (S j) k)) as Hnext.
  { intros found'. replace (Z.of_nat j + 1 + 1)%Z with (Z.of_nat (S j) + 1)%Z by lia.
    destruct k as [|k]; [by repeat case_match|].
    assert (S j / 8 < length (bit_dat v))%nat as Hlt.
    { assert (S j / 8 ≤ (j + S (S k) - 1) / 8)%nat by (apply Nat.Div0.div_le_mono; lia). lia. }
    destruct (succ_div8 j) as [(Hm & Hd & Hm')|(Hm & Hd & Hm')].
    - rewrite bool_decide_eq_true_2 by done. rewrite Hd in Hlt.
      destruct (lookup_lt_is_Some_2 _ _ Hlt) as [b' Hb']. rewrite (drop_S _ _ _ Hb').
      rewrite <- (IH (S j) b') by (rewrite ?Hd; done || (left; replace (S j + S k - 1)%nat with (j + S (S k) - 1)%nat by lia; lia)).
      rewrite Hd, Hm'. change (Z.of_nat 0) with 0%Z. rewrite Z.shiftl_0_r, wrap_u_id; [done|].
      by eapply Forall_lookup_1 in HF.
    - rewrite bool_decide_eq_false_2 by lia. rewrite shift_again by done.
      rewrite <- (IH (S j) b) by (rewrite ?Hd; done || (left; replace (S j + S k - 1)%nat with (j + S (S k) - 1)%nat by lia; lia)).
      by rewrite Hd, Hm'. }
  rewrite Hnext. destruct ((Z.of_nat j + 1) mod arg2 =? 0)%Z, (found || bit v j); done.
Qed.

(** A block that ends at [e] contains a 1, among the bits [bs] from [i] on or before. *)
Definition block_ok (n i e : Z) (found : bool) (bs : list bool) : Prop :=
  (∃ p, (i ≤ p ≤ e)%Z ∧ (e - n < p)%Z ∧ bs !! Z.to_nat (p - i) = Some true) ∨
  found = true ∧ (e - n < i)%Z.

Lemma next_multiple n i e : (0 < n)%Z → (i mod n = 0)%Z → (e mod n = 0)%Z → (i < e)%Z → (i + n ≤ e)%Z.
Proof.
  intros Hn Hi He Hlt. apply Z.div_exact in Hi, He; [|lia..].
  assert (i / n < e / n)%Z by nia. nia.
Qed.

(** Moving one bit on: not over the end of a block ... *)
Lemma block_ok_cons n i e found b bs : (0 < n)%Z → (i < e)%Z → (i mod n ≠ 0)%Z → (e mod n = 0)%Z →
  block_ok n i e found (b :: bs) ↔ block_ok n (i + 1) e (found || b) bs.
Proof.
  intros Hn Hlt Hi He. assert (e - n ≠ i)%Z as Hne.
  { intros <-. apply Hi. replace (e - n)%Z with (e + (-1) * n)%Z by lia. by rewrite Z.mod_add by lia. }
  unfold block_ok. split.
  - intros [(p & Hp & Hpn & Hb)|[-> ?]]; [|right; split; [done|lia]].
    destruct (decide (p = i)) as [->|].
    + rewrite Z.sub_diag in Hb. injection Hb as ->. right. split; [apply orb_true_r|lia].
    + left. exists p. split; [lia|]. split; [done|].
      replace (Z.to_nat (p - i)) with (S (Z.to_nat (p - (i + 1)))) in Hb by lia. done.
  - intros [(p & Hp & Hpn & Hb)|[Hf ?]].
    + left. exists p. split; [lia|]. split; [done|].
      replace (Z.to_nat (p - i)) with (S (Z.to_nat (p - (i + 1)))) by lia. done.
    + destruct found; [right; split; [done|lia]|]. left. exists i. rewrite Z.sub_diag.
      simpl in Hf. subst b. split; [lia|]. split; [lia|done].
Qed.

(** ... and over it, where nothing seen before counts. *)
Lemma block_ok_next n i e found b bs : (0 < n)%Z → (i + n ≤ e)%Z →
  block_ok n i e found (b :: bs) ↔ block_ok n (i + 1) e false bs.
Proof.
  intros Hn Hle. unfold block_ok. split.
  - intros [(p & Hp & Hpn & Hb)|[_ ?]]; [|lia]. left. exists p. split; [lia|]. split; [done|].
    replace (Z.to_nat (p - i)) with (S (Z.to_nat (p - (i + 1)))) in Hb by lia. done.
  - intros [(p & Hp & Hpn & Hb)|[? _]]; [|done]. left. exists p. split; [lia|]. split; [done|].
    replace (Z.to_nat (p - i)) with (S (Z.to_nat (p - (i + 1)))) by lia. done.
Qed.

Lemma block_ok_end n i found b bs : (0 < n)%Z → block_ok n i i found (b :: bs) ↔ found || b = true.
Proof.
  intros Hn. unfold block_ok. rewrite orb_true_iff. split.
  - intros [(p & Hp & _ & Hb)|[-> _]]; [|by left]. assert (p = i) as -> by lia.
    rewrite Z.sub_diag in Hb. injection Hb as ->. by right.
  - intros [->| ->]; [right; split; [done|lia]|]. left. exists i. rewrite Z.sub_diag.
    split; [lia|]. split; [lia|done].
Qed.

Lemma ref_loop_spec n i found bs : (0 < n)%Z →
  ref_loop n i found bs = true ↔
  ∀ e, (i ≤ e < i + Z.of_nat (length bs))%Z → (e mod n = 0)%Z → block_ok n i e found bs.
Proof.
  intros Hn. revert i found. induction bs as [|b bs IH]; intros i found; cbn [ref_loop length].
  { split; [|done]. intros _ e He. simpl in He. lia. }
  destruct (Z.eqb_spec (i mod n) 0) as [Hi|Hi].
  - destruct (found || b) eqn:Ef.
    + rewrite IH. split.
      * intros H e He Hm. destruct (decide (e = i)) as [->|]; [by apply block_ok_end|].
        apply block_ok_next; [done|apply next_multiple; (done || lia)|]. apply H; [lia|done].
      * intros H e He Hm. eapply block_ok_next; [done| |apply H; [lia|done]].
        apply next_multiple; (done || lia).
    + split; [done|]. intros H. specialize (H i ltac:(lia) Hi). by apply block_ok_end in H; [congruence|].
  - rewrite IH. split.
    + intros H e He Hm. apply block_ok_cons; try done.
      * assert (e ≠ i) by (intros ->; done). lia.
      * apply H; [|done]. assert (e ≠ i) by (intros ->; done). lia.
    + intros H e He Hm. apply block_ok_cons; try done; [lia|]. apply H; [lia|done].
Qed.

End VarBitFacts.
