(* ===== verification/VarBitProps.v ===== *)
(** * Properties of the provenance bit sets *)

From Stdlib Require Import ZArith Lia.
From stdpp Require Import base strings numbers list.
From S2P Require Import Prelude VarBit VarBitFacts.
Import VarBit VarBitFacts.

Module VarBitProps.

(** Sample bit strings. *)
Definition b1010 : VarBit := mkVarBit 10 [163; 64]%Z.
Definition b0110 : VarBit := mkVarBit 10 [35; 0]%Z.

(** Decide well-formedness of a concrete bit string. *)
Lemma wf_sample v :
  (0 <=? bit_len v)%Z && (VARBITBYTES v =? data_bytes (bit_len v))%Z &&
    forallb (λ b, (0 <=? b) && (b <? 256))%Z (bit_dat v) &&
    forallb (λ i, (Z.of_nat i <? bit_len v)%Z || negb (bit v i)) (seq 0 (8 * length (bit_dat v))) = true →
  wf_varbit v.
Proof.
  intros [[[H1%Z.leb_le H2%Z.eqb_eq]%andb_true_iff H3]%andb_true_iff H4]%andb_true_iff.
  rewrite forallb_forall in H3, H4. split; try done.
  - apply Forall_forall. intros b Hb%list_elem_of_In. apply H3 in Hb. unfold is_byte. lia.
  - intros i Hi. destruct (decide (i < 8 * length (bit_dat v))%nat).
    + specialize (H4 i ltac:(apply in_seq; lia)). apply orb_true_iff in H4 as [H4|H4]; [lia|].
      by apply negb_true_iff in H4.
    + apply bit_beyond. apply lookup_ge_None. apply Nat.div_le_lower_bound; lia.
Qed.

(** C29: [bitor_with_null] is the union of the two sets, of the same size and
    well-formed; SQL NULL is its unit (this is what lets an outer join skip a join), and
    bit strings of different sizes are an error. *)
Theorem bitor_is_union a b :
  wf_varbit a → wf_varbit b →
  bitor_with_null None None = Ok None ∧
  bitor_with_null (Some a) None = Ok (Some a) ∧ bitor_with_null None (Some b) = Ok (Some b) ∧
  (bit_len a ≠ bit_len b → ∃ msg, bitor_with_null (Some a) (Some b) = Err (Elog msg)) ∧
  (bit_len a = bit_len b → ∃ r, bitor_with_null (Some a) (Some b) = Ok (Some r) ∧ wf_varbit r ∧
     bit_len r = bit_len a ∧ ∀ i, bit r i = bit a i || bit b i).
Proof.
  intros Wa Wb. unfold bitor_with_null. rewrite !pad_result_id by done. do 3 (split; [done|]). split.
  - intros Hne. rewrite decide_False by done. by eexists.
  - intros E. rewrite decide_True by done. destruct a as [n p1], b as [n' p2]. cbn in *. subst n'.
    pose proof (wf_same_bytes _ _ Wa Wb eq_refl) as Hl. cbn in Hl.
    destruct (or_loop_ok p1 p2 Hl) as (r & Er & _). rewrite Er.
    pose proof (or_wf n p1 p2 r Wa Wb Er) as Wr. rewrite pad_result_id by done.
    eexists. split; [done|]. split; [done|]. split; [done|]. intros i. by apply or_bits.
Qed.

Lemma bitor_is_union_witness :
  bitor_with_null None None = Ok None ∧
  bitor_with_null (Some b1010) None = Ok (Some b1010) ∧
  bitor_with_null None (Some b0110) = Ok (Some b0110) ∧
  (bit_len b1010 ≠ bit_len b0110 → ∃ msg, bitor_with_null (Some b1010) (Some b0110) = Err (Elog msg)) ∧
  (bit_len b1010 = bit_len b0110 → ∃ r, bitor_with_null (Some b1010) (Some b0110) = Ok (Some r) ∧
     wf_varbit r ∧ bit_len r = 10%Z ∧ ∀ i, bit r i = bit b1010 i || bit b0110 i).
Proof. apply (bitor_is_union b1010 b0110); apply wf_sample; reflexivity. Defined.

(** C37: [bitset_contains] decides set inclusion of the right in the left
    argument; with a NULL argument the answer is false. *)
Theorem bitset_contains_is_inclusion l r :
  wf_varbit l → wf_varbit r → bit_len l = bit_len r →
  (∃ c, bitset_contains (Some l) (Some r) = Ok c ∧
     (c = true ↔ ∀ i, bit r i = true → bit l i = true)) ∧
  bitset_contains None (Some r) = Ok false ∧ bitset_contains (Some l) None = Ok false.
Proof. intros. split; [by apply contains_ok|done]. Qed.

Lemma bitset_contains_is_inclusion_witness :
  (∃ c, bitset_contains (Some b1010) (Some b0110) = Ok c ∧
     (c = true ↔ ∀ i, bit b0110 i = true → bit b1010 i = true)) ∧
  bitset_contains None (Some b0110) = Ok false ∧ bitset_contains (Some b1010) None = Ok false.
Proof.
  apply (bitset_contains_is_inclusion b1010 b0110); [apply wf_sample; reflexivity..|reflexivity].
Defined.

(** The operations form the join semilattice the rewrite rules assume: the
    union is contained in a set exactly when both operands are. *)
Theorem union_least_upper_bound a b c r :
  wf_varbit a → wf_varbit b → wf_varbit c → bit_len a = bit_len b → bit_len b = bit_len c →
  bitor_with_null (Some a) (Some b) = Ok (Some r) →
  bitsetContains c r = Ok true ↔ bitsetContains c a = Ok true ∧ bitsetContains c b = Ok true.
Proof.
  intros Wa Wb Wc Eab Ebc Er. destruct a as [n p1], b as [n' p2]. cbn in Eab. subst n'.
  pose proof (wf_same_bytes _ _ Wa Wb eq_refl) as Hl. cbn in Hl, Ebc.
  destruct (or_loop_ok p1 p2 Hl) as (d & Ed & _). pose proof (or_wf n p1 p2 d Wa Wb Ed) as Wr.
  unfold bitor_with_null in Er. cbn [bit_len bit_dat] in Er.
  rewrite decide_True, Ed, pad_result_id in Er by done. injection Er as <-.
  destruct (contains_ok c _ Wc Wr) as (x & -> & Hx); [done|].
  destruct (contains_ok c _ Wc Wa) as (y & -> & Hy); [done|].
  destruct (contains_ok c _ Wc Wb) as (z & -> & Hz); [done|].
  assert (∀ b, @Ok bool b = Ok true ↔ b = true) as Ok_inj by (intros; split; congruence).
  rewrite !Ok_inj, Hx, Hy, Hz. split.
  - intros H. split; intros i Hi; apply H; rewrite (or_bits p1 p2) by done; rewrite Hi; auto using orb_true_r.
  - intros [H1 H2] i. rewrite (or_bits p1 p2) by done. rewrite orb_true_iff. intros [?|?]; auto.
Qed.

Lemma union_least_upper_bound_witness :
  bitsetContains b1010 (mkVarBit 10 [163; 64]%Z) = Ok true ↔
  bitsetContains b1010 b1010 = Ok true ∧ bitsetContains b1010 b0110 = Ok true.
Proof.
  apply (union_least_upper_bound b1010 b0110 b1010); first [reflexivity|apply wf_sample; reflexivity].
Defined.

(** [generateVarbitSetElem n value] is the singleton of [value] among [n]
    elements, and contains no other bit; [generateEmptyBitset n] contains none. *)
Theorem singleton_and_empty n value :
  (1 ≤ value ≤ n)%Z →
  (∃ v, generateVarbitSetElem n value = Ok v ∧ bit_len v = n ∧ wf_varbit v ∧
     ∀ i, bit v i = bool_decide (Z.of_nat i = value - 1)%Z) ∧
  bit_len (generateEmptyBitset n) = n ∧ wf_varbit (generateEmptyBitset n) ∧
  ∀ i, bit (generateEmptyBitset n) i = false.
Proof.
  intros Hv. split; [by apply generateVarbitSetElem_ok|]. split; [done|].
  assert (∀ i, bit (generateEmptyBitset n) i = false) as Hb.
  { intros i. unfold bit, generateEmptyBitset. cbn [bit_dat].
    destruct (replicate _ 0%Z !! (i / 8)%nat) as [b|] eqn:E; [|apply Z.bits_0].
    apply lookup_replicate in E as [-> _]. apply Z.bits_0. }
  split; [|done]. split; cbn [bit_len bit_dat generateEmptyBitset]; try done; [lia| |].
  - unfold VARBITBYTES, generateEmptyBitset. cbn [bit_dat]. rewrite length_replicate.
    unfold data_bytes, BITS_PER_BYTE. rewrite Z2Nat.id; [done|]. apply Z.div_pos; lia.
  - apply Forall_replicate. unfold is_byte. lia.
Qed.

Lemma singleton_and_empty_witness :
  (∃ v, generateVarbitSetElem 12 9 = Ok v ∧ bit_len v = 12%Z ∧ wf_varbit v ∧
     ∀ i, bit v i = bool_decide (Z.of_nat i = 9 - 1)%Z) ∧
  bit_len (generateEmptyBitset 12) = 12%Z ∧ wf_varbit (generateEmptyBitset 12) ∧
  ∀ i, bit (generateEmptyBitset 12) i = false.
Proof. apply (singleton_and_empty 12 9). lia. Defined.

(** [bitset_nonzero_repeat v n] tells whether every complete block of [n] bits
    of [v] contains a 1; the answer does not depend on the byte behind the bit string, which
    the loop reads when the number of bits is a multiple of eight. *)
Theorem nonzero_repeat_blocks v n beyond :
  wf_varbit v → (0 < bit_len v)%Z → (0 < n)%Z →
  ∃ c, bitset_nonzero_repeat beyond (Some v) (Some n) = Ok c ∧
    (c = true ↔ ∀ t, (0 ≤ t)%Z → ((t + 1) * n ≤ bit_len v)%Z →
       ∃ i, (t * n ≤ Z.of_nat i < (t + 1) * n)%Z ∧ bit v i = true).
Proof.
  intros W Hl Hn. unfold bitset_nonzero_repeat.
  assert (0 < length (bit_dat v))%nat as Hlen.
  { pose proof (wfb_bytes _ W) as Hb. unfold VARBITBYTES, data_bytes, BITS_PER_BYTE in Hb.
    assert (0 < (bit_len v + 8 - 1) / 8)%Z by (apply Z.div_str_pos; lia). lia. }
  assert (bit_len v ≤ 8 * Z.of_nat (length (bit_dat v)))%Z as Hcap.
  { pose proof (pad_range v W). unfold VARBITPAD, VARBITBYTES, BITS_PER_BYTE in *. lia. }
  destruct (bit_dat v) as [|b0 p] eqn:Ed; [simpl in Hlen; lia|].
  rewrite decide_False by lia. rewrite decide_False by lia. eexists. split; [done|].
  assert (bit_dat v !! (0 / 8)%nat = Some b0) as H0 by by rewrite Ed.
  assert (((0 + Z.to_nat (bit_len v) - 1) / 8 < length (bit_dat v)) ∨ Z.to_nat (bit_len v) = 0)%nat as Hk.
  { left. rewrite Ed. apply Nat.Div0.div_lt_upper_bound. lia. }
  pose proof (repeat_loop_ref beyond n v (Z.to_nat (bit_len v)) 0 b0 false (wfb_byte _ W) H0 Hk) as Er.
  change (Z.of_nat (0 mod 8)) with 0%Z in Er. rewrite Z.shiftl_0_r, wrap_u_id in Er.
  2:{ eapply Forall_lookup_1; [apply (wfb_byte _ W)|exact H0]. }
  change (S (0 / 8)) with 1%nat in Er. rewrite Ed in Er. cbn [drop] in Er.
  change (Z.of_nat 0 + 1)%Z with 1%Z in Er. rewrite drop_0 in Er. rewrite Er, ref_loop_spec by done.
  rewrite length_fmap, length_seq. unfold block_ok.
  assert (∀ p, (1 ≤ p ≤ bit_len v)%Z →
    (bit v <$> seq 0 (Z.to_nat (bit_len v))) !! Z.to_nat (p - 1) = Some (bit v (Z.to_nat (p - 1)))) as Hlk.
  { intros q Hq. rewrite list_lookup_fmap, lookup_seq_lt by lia. done. }
  split.
  - intros H t Ht Htn. destruct (H ((t + 1) * n)%Z) as [(q & Hq & Hqn & Hb)|[? _]]; [nia| |..|done].
    { apply Z.mod_mul. lia. }
    rewrite Hlk in Hb by lia. injection Hb as Hb. exists (Z.to_nat (q - 1)). split; [nia|done].
  - intros H e He Hm. apply Z.div_exact in Hm; [|lia]. left.
    assert (0 < e / n)%Z by nia.
    destruct (H (e / n - 1)%Z) as (i & Hi & Hb); [lia|nia|].
    exists (Z.of_nat i + 1)%Z. split; [nia|]. split; [nia|]. rewrite Hlk by nia.
    replace (Z.to_nat (Z.of_nat i + 1 - 1)) with i by lia. by rewrite Hb.
Qed.

Lemma nonzero_repeat_blocks_witness :
  ∃ c, bitset_nonzero_repeat 0 (Some b1010) (Some 5%Z) = Ok c ∧
    (c = true ↔ ∀ t, (0 ≤ t)%Z → ((t + 1) * 5 ≤ bit_len b1010)%Z →
       ∃ i, (t * 5 ≤ Z.of_nat i < (t + 1) * 5)%Z ∧ bit b1010 i = true).
Proof. apply (nonzero_repeat_blocks b1010 5 0); [apply wf_sample; reflexivity|reflexivity|lia]. Defined.

End VarBitProps.
