(* ===== verification/AttrName.v ===== *)
(** * Names of provenance attributes ([src/src/backend/provrewrite/util/prov_attrname.c])

    The rewriter names the attribute [a] of the [n]-th reference to a relation
    [s.r] prov_s_r_n_a, doubling the underscores of [a].  The state is the two
    lists of reference counters.  Catalog lookups are parameters; strings are
    built in buffers of the computed size ([buf]). *)

From Stdlib Require Import ZArith Lia Ascii.
From stdpp Require Import base strings pretty numbers list.
From S2P Require Import Prelude CString.
Import CString.

Module AttrName.
#[local] Arguments String.append : simpl nomatch.

Definition ProvPraefix : string := "prov_".
Definition TransProvName : string := "trans_prov".

(** [relRefCount] and [queryRefCount] *)
Record counters := mkCounters { relRefCount : list (Z * Z); queryRefCount : list (string * Z) }.

Inductive RTEKind := RTE_RELATION | RTE_SUBQUERY | RTE_OTHER.

#[global] Instance RTEKind_eq_dec : EqDecision RTEKind.
Proof. solve_decision. Defined.

(** The fields of a range table entry that are used; an [Alias] is its name. *)
Record RangeTblEntry := mkRTE {
  rtekind : RTEKind; relid : Z; alias : option string; eref : option string; isProvBase : bool }.

(** The system catalog: [get_rel_namespace], [get_namespace_name] and [get_rel_name]. *)
Record catalog := mkCatalog { get_rel_schema : Z → option string; get_rel_name : Z → option string }.

Section names.
Context (cat : catalog).
Abbreviation N := (M counters).

(** ** Escaping *)

Fixpoint count_underscores (s : string) : nat :=
  match s with
  | EmptyString => 0
  | String c s => (if decide (c = "_"%char) then 1 else 0) + count_underscores s
  end.

Fixpoint escape_copy (s : string) : string :=
  match s with
  | EmptyString => ""
  | String c s =>
      if decide (c = "_"%char) then String "_" (String "_" (escape_copy s))
      else String c (escape_copy s)
  end.

Definition escapeAttrName (name : string) : N string :=
  let newlength := (Z.of_nat (slen name) + 1 + Z.of_nat (count_underscores name))%Z in
  buf newlength (escape_copy name).

(** ** Reference counters *)

(** Find the counter of a key, increment it if asked to, and return it. *)
Fixpoint bump {K} `{EqDecision K} (k : K) (increment : bool) (l : list (K * Z)) : option (Z * list (K * Z)) :=
  match l with
  | [] => None
  | (k', c) :: l =>
      if decide (k' = k) then
        let c' := if increment then wrap_s 32 (c + 1) else c in Some (c', (k', c') :: l)
      else match bump k increment l with Some (c', l') => Some (c', (k', c) :: l') | None => None end
  end.

(** A key that is not there is appended with counter 0. *)
Definition ref_num {K} `{EqDecision K} (k : K) (increment : bool) (l : list (K * Z)) : Z * list (K * Z) :=
  match bump k increment l with Some r => r | None => (0%Z, l ++ [(k, 0%Z)]) end.

Definition getRelationRefNum (relid : Z) (increment : bool) : N Z := λ s,
  let '(c, l) := ref_num relid increment (relRefCount s) in Ok (c, mkCounters l (queryRefCount s)).

(** The counter and the entry, whose alias is filled in. *)
Definition getQueryRefNum (rte : RangeTblEntry) (increment : bool) : N (Z * RangeTblEntry) :=
  if decide (rtekind rte = RTE_RELATION ∧ isProvBase rte = false) then
    c ← getRelationRefNum (relid rte) increment; ret (c, rte)
  else
    name ← match alias rte, eref rte with
           | Some a, _ => ret a
           | None, Some e => ret e
           | None, None => deref (get_rel_name cat (relid rte))
           end;
    let rte := mkRTE (rtekind rte) (relid rte) (Some name) (eref rte) (isProvBase rte) in
    c ← (λ s, let '(c, l) := ref_num name increment (queryRefCount s) in
              Ok (c, mkCounters (relRefCount s) l));
    ret (c, rte).

Definition resetRelReferences : N unit := λ _, Ok (tt, mkCounters [] []).

(** ** Names *)

(** ["_%i"] for a positive counter. *)
Definition ref_suffix (n : Z) : string := if decide (n > 0)%Z then "_" +:+ percent_d n else "".

Definition getRelationName (relid : Z) : N string :=
  schema ← deref (get_rel_schema cat relid);
  relname ← deref (get_rel_name cat relid);
  numRelRef ← getRelationRefNum relid false;
  let newLength := (Z.of_nat (slen schema) + Z.of_nat (slen relname) + 2
    + (if decide (numRelRef > 0)%Z then Z.of_nat (slen (percent_d numRelRef)) + 1 else 0))%Z in
  buf newLength (schema +:+ "_" +:+ relname +:+ ref_suffix numRelRef).

Definition getRelationNameUnqualified (relid : Z) : N string :=
  schema ← deref (get_rel_schema cat relid);
  relname ← deref (get_rel_name cat relid);
  buf (Z.of_nat (slen schema) + Z.of_nat (slen relname) + 2) (schema +:+ "." +:+ relname).

Definition getQueryName (rte : RangeTblEntry) : N (string * RangeTblEntry) :=
  '(refCount, rte) ← getQueryRefNum rte false;
  aliasname ← deref (alias rte);
  let newLength := (Z.of_nat (slen aliasname) + 2
    + (if decide (refCount > 0)%Z then Z.of_nat (slen (percent_d refCount)) + 1 else 0))%Z in
  result ← buf newLength (aliasname +:+ ref_suffix refCount);
  ret (result, rte).

Definition createProvAttrName (rte : RangeTblEntry) (name : string) : N string :=
  provRelName ← match rtekind rte with
                | RTE_RELATION => getRelationName (relid rte)
                | RTE_SUBQUERY => '(n, _) ← getQueryName rte; ret n
                | RTE_OTHER => throw Segv
                end;
  escapedName ← escapeAttrName name;
  let newLength := (Z.of_nat (slen ProvPraefix) + Z.of_nat (slen provRelName)
                    + Z.of_nat (slen escapedName) + 2)%Z in
  buf newLength (ProvPraefix +:+ provRelName +:+ "_" +:+ escapedName).

Definition createExternalProvAttrName (name : string) : N string :=
  escapedName ← escapeAttrName name;
  buf (Z.of_nat (slen ProvPraefix) + Z.of_nat (slen escapedName) + 1) (ProvPraefix +:+ escapedName).

Definition isProvAttr (resname : option string) : bool :=
  match resname with
  | None => false
  | Some r =>
      if decide (slen r < 5)%nat then false
      else if strneq r ProvPraefix 5 then true
      else if decide (slen r < 10)%nat then false
      else strneq r TransProvName 10
  end.

End names.
End AttrName.
