(* ===== verification/AttrNameProps.v ===== *)
(** * Properties of the provenance attribute names *)

From Stdlib Require Import ZArith Lia Ascii.
From stdpp Require Import base strings pretty numbers list.
From S2P Require Import Prelude CString AttrName LdvState LdvCapture.
Import CString AttrName.

Module AttrNameProps.
#[local] Arguments String.append : simpl nomatch.

(** ** Escaping can be undone *)

(** Undo the doubling; a single underscore is not an escaped name. *)
Fixpoint unescape (s : string) : option string :=
  match s with
  | EmptyString => Some ""
  | String c s1 =>
      if decide (c = "_"%char) then
        match s1 with
        | String d s2 => if decide (d = "_"%char)
                         then match unescape s2 with Some t => Some (String "_" t) | None => None end
                         else None
        | EmptyString => None
        end
      else match unescape s1 with Some t => Some (String c t) | None => None end
  end.

Lemma unescape_escape s : unescape (escape_copy s) = Some s.
Proof.
  induction s as [|c s IH]; [done|]. cbn [escape_copy]. destruct (decide (c = "_"%char)) as [->|Hc].
  - cbn [unescape]. rewrite !decide_True by done. by rewrite IH.
  - cbn [unescape]. rewrite decide_False by done. by rewrite IH.
Qed.

(** An underscore in front of an escaped name makes the first run odd. *)
Lemma unescape_odd s : unescape (String "_" (escape_copy s)) = None.
Proof.
  induction s as [|c s IH]; [done|]. cbn [escape_copy]. destruct (decide (c = "_"%char)) as [->|Hc].
  - cbn [unescape] in *. rewrite !decide_True by done. rewrite decide_True in IH by done.
    by rewrite IH.
  - cbn [unescape]. rewrite decide_True by done. by rewrite decide_False.
Qed.

Lemma unescape_prefix d s : ¬ sin "_" d → unescape s = None → unescape (d +:+ s) = None.
Proof.
  induction d as [|c d IH]; [done|]. simpl. intros Hd Hs. rewrite decide_False by tauto.
  by rewrite IH by tauto.
Qed.

Lemma escape_len s : slen (escape_copy s) = (slen s + count_underscores s)%nat.
Proof. induction s as [|c s IH]; [done|]. cbn. case_decide; simpl; lia. Qed.

Lemma escapeAttrName_ok name st : escapeAttrName name st = Ok (escape_copy name, st).
Proof. unfold escapeAttrName. apply buf_ok. unfold fits. rewrite escape_len. lia. Qed.

(** ** The text of a name *)

(** prov_<schema>_<relation>[_<reference>]_<escaped attribute> *)
Definition prov_name (schema rel : string) (ref : Z) (attr : string) : string :=
  ProvPraefix +:+ (schema +:+ "_" +:+ rel +:+ ref_suffix ref) +:+ "_" +:+ escape_copy attr.

Section naming.
Context (cat : catalog).

Lemma getRelationName_ok id schema rel st :
  get_rel_schema cat id = Some schema → get_rel_name cat id = Some rel →
  ∃ n l, ref_num id false (relRefCount st) = (n, l) ∧
    getRelationName cat id st =
      Ok (schema +:+ "_" +:+ rel +:+ ref_suffix n, mkCounters l (queryRefCount st)).
Proof.
  intros Hs Hr. destruct (ref_num id false (relRefCount st)) as [n l] eqn:E. exists n, l. split; [done|].
  unfold getRelationName. rewrite Hs, bind_deref, Hr, bind_deref.
  unfold bind, getRelationRefNum. rewrite E. apply buf_ok.
  unfold fits, ref_suffix. rewrite !slen_app. case_decide; rewrite ?slen_app; simpl; lia.
Qed.

Lemma createProvAttrName_ok rte id name schema rel st :
  rtekind rte = RTE_RELATION → relid rte = id →
  get_rel_schema cat id = Some schema → get_rel_name cat id = Some rel →
  ∃ n l, ref_num id false (relRefCount st) = (n, l) ∧
    createProvAttrName cat rte name st =
      Ok (prov_name schema rel n name, mkCounters l (queryRefCount st)).
Proof.
  intros Hk Hid Hs Hr. destruct (getRelationName_ok id schema rel st Hs Hr) as (n & l & En & E).
  exists n, l. split; [done|]. unfold createProvAttrName. rewrite Hk, Hid. hrun E.
  erewrite bind_ok by apply escapeAttrName_ok. unfold prov_name.
  generalize (schema +:+ "_" +:+ rel +:+ ref_suffix n). intros r. apply buf_ok.
  unfold fits. rewrite !slen_app. change (slen "_") with 1%nat. lia.
Qed.

End naming.

Lemma app_inj_l s a b : s +:+ a = s +:+ b → a = b.
Proof. induction s as [|c s IH]; [done|]. simpl. intros [= ?]. auto. Qed.

Lemma split_underscore d1 d2 s1 s2 :
  ¬ sin "_" d1 → ¬ sin "_" d2 → d1 +:+ String "_" s1 = d2 +:+ String "_" s2 → d1 = d2 ∧ s1 = s2.
Proof.
  revert d2. induction d1 as [|c d1 IH]; intros [|d d2]; simpl; intros H1 H2 E; simplify_eq; try tauto.
  destruct (IH d2) as [-> ->]; tauto.
Qed.

Lemma percent_d_no_underscore n : ¬ sin "_" (percent_d n).
Proof. intros [H|H]%percent_d_chars; [vm_compute in H; lia|done]. Qed.

(** A numbered reference never reads like an attribute of the first one. *)
Lemma suffix_clash n a b : escape_copy a ≠ percent_d n +:+ "_" +:+ escape_copy b.
Proof.
  intros E. pose proof (unescape_escape a) as H. rewrite E in H.
  assert (unescape (percent_d n +:+ "_" +:+ escape_copy b) = None) as H'; [|congruence].
  apply unescape_prefix; [apply percent_d_no_underscore|apply unescape_odd].
Qed.

Lemma prov_name_inj schema rel n m a b :
  (0 ≤ n)%Z → (0 ≤ m)%Z → prov_name schema rel n a = prov_name schema rel m b → n = m ∧ a = b.
Proof.
  intros Hn Hm. unfold prov_name, ref_suffix. rewrite <- !app_assoc_s.
  intros E%app_inj_l%app_inj_l%app_inj_l%app_inj_l.
  destruct (decide (n > 0)%Z), (decide (m > 0)%Z); cbn [String.append] in E.
  - injection E as E.
    apply split_underscore in E as [E1 E2]; [|apply percent_d_no_underscore..].
    apply (inj pretty) in E1. subst m. split; [done|].
    apply (f_equal unescape) in E2. rewrite !unescape_escape in E2. by injection E2.
  - injection E as E. symmetry in E. by apply suffix_clash in E.
  - injection E as E. by apply suffix_clash in E.
  - injection E as E. split; [lia|].
    apply (f_equal unescape) in E. rewrite !unescape_escape in E. by injection E.
Qed.


Definition sample_catalog : catalog :=
  mkCatalog (λ id, if decide (id = 100 ∨ id = 200)%Z then Some "public" else None)
            (λ id, if decide (id = 100)%Z then Some "t" else if decide (id = 200)%Z then Some "t_1" else None).
Definition sample_rte : RangeTblEntry := mkRTE RTE_RELATION 100 None (Some "t") false.
Definition sample_rte_1 : RangeTblEntry := mkRTE RTE_RELATION 200 None (Some "t_1") false.

(** C30: provenance attribute names identify the attribute and the reference.  If two
    calls of [createProvAttrName] for the same base relation, made at any two moments of a
    rewrite, return the same name, they were made for the same attribute and for the same
    reference number of the relation. *)
Theorem prov_names_injective cat rte schema rel a b name st1 st2 st1' st2' n m :
  rtekind rte = RTE_RELATION →
  get_rel_schema cat (relid rte) = Some schema → get_rel_name cat (relid rte) = Some rel →
  n = fst (ref_num (relid rte) false (relRefCount st1)) → (0 ≤ n)%Z →
  m = fst (ref_num (relid rte) false (relRefCount st2)) → (0 ≤ m)%Z →
  createProvAttrName cat rte a st1 = Ok (name, st1') →
  createProvAttrName cat rte b st2 = Ok (name, st2') → n = m ∧ a = b.
Proof.
  intros Hk Hs Hr -> Hn -> Hm E1 E2.
  destruct (createProvAttrName_ok cat rte _ a schema rel st1 Hk eq_refl Hs Hr) as (n1 & l1 & En1 & F1).
  destruct (createProvAttrName_ok cat rte _ b schema rel st2 Hk eq_refl Hs Hr) as (n2 & l2 & En2 & F2).
  rewrite En1 in Hn |- *. rewrite En2 in Hm |- *. cbn [fst] in *.
  apply (prov_name_inj schema rel); [done..|]. congruence.
Qed.

Lemma prov_names_injective_witness :
  let st := mkCounters [(100, 1)]%Z [] in
  createProvAttrName sample_catalog sample_rte "a_b" st = Ok ("prov_public_t_1_a__b", st) ∧
  (1%Z = 1%Z ∧ "a_b" = "a_b").
Proof.
  intros st. assert (createProvAttrName sample_catalog sample_rte "a_b" st = Ok ("prov_public_t_1_a__b", st))
    as E by (vm_compute; reflexivity).
  split; [exact E|].
  apply (prov_names_injective sample_catalog sample_rte "public" "t" "a_b" "a_b" "prov_public_t_1_a__b"
    st st st st); first [reflexivity | exact E | lia].
Defined.

(** [createProvAttrName] computes [prov_name] for a base relation with its current
    reference number, never exceeds the buffers whose sizes it computes, and the result is recognised as a
    provenance attribute by [isProvAttr]. *)
Theorem createProvAttrName_correct cat rte schema rel name st :
  rtekind rte = RTE_RELATION →
  get_rel_schema cat (relid rte) = Some schema → get_rel_name cat (relid rte) = Some rel →
  ∃ n l, ref_num (relid rte) false (relRefCount st) = (n, l) ∧
    createProvAttrName cat rte name st =
      Ok (prov_name schema rel n name, mkCounters l (queryRefCount st)) ∧
    isProvAttr (Some (prov_name schema rel n name)) = true.
Proof.
  intros Hk Hs Hr. destruct (createProvAttrName_ok cat rte _ name schema rel st Hk eq_refl Hs Hr)
    as (n & l & En & E). exists n, l. split; [done|]. split; [done|]. unfold isProvAttr. rewrite decide_False; [done|].
  unfold prov_name. rewrite slen_app. simpl. lia.
Qed.

Lemma createProvAttrName_correct_witness :
  ∃ n l, ref_num (relid sample_rte) false [(100, 2)]%Z = (n, l) ∧
    createProvAttrName sample_catalog sample_rte "a_b" (mkCounters [(100, 2)]%Z []) =
      Ok (prov_name "public" "t" n "a_b", mkCounters l []) ∧
    isProvAttr (Some (prov_name "public" "t" n "a_b")) = true.
Proof. apply (createProvAttrName_correct sample_catalog sample_rte _ _ _ (mkCounters [(100, 2)]%Z [])); reflexivity. Defined.

(** A string before an underscore cannot end inside "public". *)
Lemma public_prefix s u v :
  s +:+ "_" +:+ u = "public_" +:+ v → s = "public" ∨ (7 ≤ slen s)%nat.
Proof.
  do 7 (destruct s as [|c s]; [intros E; first [by left; injection E; congruence | discriminate E]|];
    try (intros E; injection E as -> E; revert E)); [..|right; simpl; lia].
Qed.

Lemma rowid_name_iff schema t n :
  (0 ≤ n)%Z →
  prov_name schema t n "_prov_rowid" = LdvCapture.rowid_column t ↔ schema = "public" ∧ n = 0%Z.
Proof.
  intros Hn. unfold prov_name, LdvCapture.rowid_column, ref_suffix.
  change (escape_copy "_prov_rowid") with "__prov__rowid". split.
  - rewrite <- !app_assoc_s. change ("prov_public_" +:+ ?x) with ("prov_" +:+ "public_" +:+ x).
    intros E%app_inj_l. pose proof (f_equal slen E) as El.
    destruct (public_prefix _ _ _ E) as [-> |Hl]; rewrite !slen_app in El; simpl in El; [|lia].
    split; [done|]. case_decide; simpl in El; lia.
  - intros [-> ->]. rewrite decide_False by lia. by rewrite app_nil_r_s, <- !app_assoc_s.
Qed.

(** C31: the column the LDV client asks for and the one the rewriter produces.  The
    provenance attribute of the row identifier of a table has the name that
    [prv_extractInsertIds] and [prv_extractTuple] put into their statements exactly if
    the table is in schema public and this is the first reference to it in the query. *)
Theorem ldv_rowid_column_name cat rte schema t st n :
  rtekind rte = RTE_RELATION →
  get_rel_schema cat (relid rte) = Some schema → get_rel_name cat (relid rte) = Some t →
  n = fst (ref_num (relid rte) false (relRefCount st)) → (0 ≤ n)%Z →
  ∃ name st', createProvAttrName cat rte "_prov_rowid" st = Ok (name, st') ∧
    (name = LdvCapture.rowid_column t ↔ schema = "public" ∧ n = 0%Z).
Proof.
  intros Hk Hs Hr -> Hn. destruct (createProvAttrName_ok cat rte _ "_prov_rowid" schema t st Hk eq_refl Hs Hr)
    as (n & l & En & E). rewrite En in Hn |- *. do 2 eexists. split; [exact E|]. by apply rowid_name_iff.
Qed.

Lemma ldv_rowid_column_name_witness :
  (∃ name st', createProvAttrName sample_catalog sample_rte "_prov_rowid" (mkCounters [] []) = Ok (name, st') ∧
    (name = LdvCapture.rowid_column "t" ↔ "public" = "public" ∧ 0%Z = 0%Z)) ∧
  (∃ name st', createProvAttrName sample_catalog sample_rte "_prov_rowid" (mkCounters [(100, 1)]%Z []) = Ok (name, st') ∧
    (name = LdvCapture.rowid_column "t" ↔ "public" = "public" ∧ 1%Z = 0%Z)).
Proof.
  split; apply (ldv_rowid_column_name sample_catalog sample_rte "public" "t"); first [reflexivity | lia].
Defined.

Lemma prov_name_collide schema rel a : prov_name schema rel 1 a = prov_name schema (rel +:+ "_1") 0 a.
Proof.
  unfold prov_name, ref_suffix. rewrite decide_True, decide_False by lia.
  rewrite app_nil_r_s, <- !app_assoc_s. reflexivity.
Qed.

(** C39: names of different relations can coincide: the second reference to a
    relation r and the first one to the relation r_1 of the same schema get the same
    provenance attribute names. *)
Theorem relation_names_collide cat rte1 rte2 schema rel a st :
  rtekind rte1 = RTE_RELATION → rtekind rte2 = RTE_RELATION →
  get_rel_schema cat (relid rte1) = Some schema → get_rel_schema cat (relid rte2) = Some schema →
  get_rel_name cat (relid rte1) = Some rel → get_rel_name cat (relid rte2) = Some (rel +:+ "_1") →
  fst (ref_num (relid rte1) false (relRefCount st)) = 1%Z →
  fst (ref_num (relid rte2) false (relRefCount st)) = 0%Z →
  ∃ name st1 st2, createProvAttrName cat rte1 a st = Ok (name, st1) ∧
    createProvAttrName cat rte2 a st = Ok (name, st2).
Proof.
  intros Hk1 Hk2 Hs1 Hs2 Hr1 Hr2 H1 H2.
  destruct (createProvAttrName_ok cat rte1 _ a schema rel st Hk1 eq_refl Hs1 Hr1) as (n & l & En & E1).
  destruct (createProvAttrName_ok cat rte2 _ a schema _ st Hk2 eq_refl Hs2 Hr2) as (n' & l' & En' & E2).
  rewrite En in H1. rewrite En' in H2. cbn [fst] in *. subst n n'. do 3 eexists. split; [exact E1|].
  rewrite prov_name_collide. exact E2.
Qed.

Lemma relation_names_collide_witness :
  ∃ name st1 st2,
    createProvAttrName sample_catalog sample_rte "a" (mkCounters [(100, 1); (200, 0)]%Z []) = Ok (name, st1) ∧
    createProvAttrName sample_catalog sample_rte_1 "a" (mkCounters [(100, 1); (200, 0)]%Z []) = Ok (name, st2).
Proof. apply (relation_names_collide sample_catalog sample_rte sample_rte_1 "public" "t"); reflexivity. Defined.

End AttrNameProps.
