(* ===== verification/QueryTree.v ===== *)
(** * Query trees
      ([src/src/include/nodes/parsenodes.h], [src/src/include/nodes/primnodes.h],
       [src/src/backend/nodes/makefuncs.c], [src/src/backend/parser/parse_expr.c])

    The nodes of an analysed SELECT as the provenance rewriter sees them: range table, join
    tree, target list.  Fields that neither the rewriter nor the evaluation of a query
    reads are left out.  Attribute numbers and range table indexes are integers; a target list
    has at most 1664 entries, far below the width of [AttrNumber]. *)

From Stdlib Require Import ZArith Lia.
From stdpp Require Import base strings numbers list.
From S2P Require Import Prelude AttrName.

Module QueryTree.

(** Induction hypotheses for the lists and options nodes are nested in. *)
Scheme All for list.
Scheme All for option.

(** ** Expressions *)

Record Var := mkVar {
  varno : Z; varattno : Z; vartype : Z; vartypmod : Z; varlevelsup : Z;
  varnoold : Z; varoattno : Z }.

Definition makeVar (varno varattno vartype vartypmod varlevelsup : Z) : Var :=
  mkVar varno varattno vartype vartypmod varlevelsup varno varattno.

(** [var->varno = no; var->varattno = attno]; the debugging fields stay. *)
Definition move_var (no attno : Z) (v : Var) : Var :=
  mkVar no attno (vartype v) (vartypmod v) (varlevelsup v) (varnoold v) (varoattno v).

Inductive BoolExprType := AND_EXPR | OR_EXPR | NOT_EXPR.

(** How a function call or a relabelling was written; [COERCE_DONTCARE] is used by the planner only. *)
Inductive CoercionForm := COERCE_EXPLICIT_CALL | COERCE_EXPLICIT_CAST | COERCE_IMPLICIT_CAST.

#[global] Instance CoercionForm_eq_dec : EqDecision CoercionForm.
Proof. solve_decision. Defined.

Inductive NullTestType := IS_NULL | IS_NOT_NULL.

#[global] Instance NullTestType_eq_dec : EqDecision NullTestType.
Proof. solve_decision. Defined.

(** The branches of a [CaseExpr] are [CaseWhen] nodes; the form with a test expression after CASE is left out. *)
Inductive Expr :=
  | EVar (v : Var)
  | EConst (consttype consttypmod : Z) (constvalue : option Z)
  | EOpExpr (opno opresulttype : Z) (args : list Expr)
  | EBoolExpr (boolop : BoolExprType) (args : list Expr)
  | EDistinctExpr (opno opresulttype : Z) (args : list Expr)
  | EAggref (aggfnoid aggtype : Z) (args : list Expr) (agglevelsup : Z) (aggstar aggdistinct : bool)
  | EFuncExpr (funcid funcresulttype : Z) (funcformat : CoercionForm) (args : list Expr)
  | ERelabelType (arg : Expr) (resulttype resulttypmod : Z) (relabelformat : CoercionForm)
  | ENullTest (nulltesttype : NullTestType) (arg : Expr)
  | ECaseExpr (casetype : Z) (args : list Expr) (defresult : option Expr)
  | ECaseWhen (expr result : Expr).

Definition BOOLOID : Z := 16.

Definition makeBoolConst (value isnull : bool) : Expr :=
  EConst BOOLOID (-1) (if isnull then None else Some (if value then 1%Z else 0%Z)).

Definition makeBoolExpr (boolop : BoolExprType) (args : list Expr) : Expr := EBoolExpr boolop args.

Definition INT4OID : Z := 23.

Fixpoint exprType (e : Expr) : Z :=
  match e with
  | EVar v => vartype v
  | EConst t _ _ => t
  | EOpExpr _ t _ | EDistinctExpr _ t _ => t
  | EBoolExpr _ _ | ENullTest _ _ => BOOLOID
  | EAggref _ t _ _ _ _ => t
  | EFuncExpr _ t _ _ => t
  | ERelabelType _ t _ _ => t
  | ECaseExpr t _ _ => t
  | ECaseWhen _ r => exprType r
  end.

(** A cast of two or three arguments whose second one is an int4 constant. *)
Definition exprIsLengthCoercion (funcformat : CoercionForm) (args : list Expr) : option Z :=
  match funcformat, args with
  | (COERCE_EXPLICIT_CAST | COERCE_IMPLICIT_CAST), ([_; EConst t _ (Some m)] | [_; EConst t _ (Some m); _]) =>
      if decide (t = INT4OID) then Some m else None
  | _, _ => None
  end.

(** The typmod of a CASE is the one all branches agree on. *)
Fixpoint exprTypmod (e : Expr) : Z :=
  match e with
  | EVar v => vartypmod v
  | EConst _ m _ => m
  | EFuncExpr _ _ f args => default (-1)%Z (exprIsLengthCoercion f args)
  | ERelabelType _ _ m _ => m
  | ECaseExpr t args d =>
      match d with
      | None => -1
      | Some d =>
          if decide (exprType d ≠ t) then -1
          else if decide (exprTypmod d < 0)%Z then -1
          else if (fix agree (l : list Expr) : bool :=
                     match l with
                     | ECaseWhen _ r :: l => bool_decide (exprType r = t) && bool_decide (exprTypmod r = exprTypmod d) && agree l
                     | _ => true
                     end) args
          then exprTypmod d else -1
      end
  | _ => -1
  end.

Record TargetEntry := mkTE {
  expr : Expr; resno : Z; resname : option string; ressortgroupref : Z;
  resorigtbl : Z; resorigcol : Z; resjunk : bool }.

Definition makeTargetEntry (e : Expr) (no : Z) (name : option string) (junk : bool) : TargetEntry :=
  mkTE e no name 0 0 0 junk.

Record SortClause := mkSort { tleSortGroupRef : Z; sortop : Z; nulls_first : bool }.

(** ** Join trees *)

Inductive JoinType := JOIN_INNER | JOIN_LEFT | JOIN_FULL | JOIN_RIGHT.

(** Parse analysis puts only these two kinds of nodes under a [FromExpr]. *)
Inductive Node :=
  | RangeTblRef (rtindex : Z)
  | JoinExpr (jointype : JoinType) (larg rarg : Node) (quals : option Expr) (rtindex : Z).

Definition is_join (n : Node) : bool := match n with JoinExpr _ _ _ _ _ => true | _ => false end.

(** The range table index a node is known under. *)
Definition root (n : Node) : Z :=
  match n with RangeTblRef i => i | JoinExpr _ _ _ _ i => i end.

(** ** Queries *)

Inductive RTEKind := RTE_RELATION | RTE_SUBQUERY | RTE_JOIN | RTE_SPECIAL | RTE_FUNCTION | RTE_VALUES.

#[global] Instance RTEKind_eq_dec : EqDecision RTEKind.
Proof. solve_decision. Defined.

Inductive CmdType := CMD_SELECT | CMD_UPDATE | CMD_INSERT | CMD_DELETE | CMD_UTILITY.

#[global] Instance CmdType_eq_dec : EqDecision CmdType.
Proof. solve_decision. Defined.

Inductive SetOperation := SETOP_UNION | SETOP_INTERSECT | SETOP_EXCEPT.

#[global] Instance SetOperation_eq_dec : EqDecision SetOperation.
Proof. solve_decision. Defined.

Inductive SetOpNode :=
  | SetOpRef (rtindex : Z)
  | SetOperationStmt (op : SetOperation) (all : bool) (larg rarg : SetOpNode).

Record Alias := mkAlias { aliasname : string; colnames : list (option string) }.

(** An attribute of a relation ([Form_pg_attribute]). *)
Record attribute := mkAttr { attname : string; atttypid : Z; atttypmod : Z; attisdropped : bool }.

(** The result class of a function in FROM ([get_expr_result_type]). *)
Inductive TypeFuncClass :=
  | TYPEFUNC_COMPOSITE (tupdesc : list attribute)
  | TYPEFUNC_SCALAR (funcrettype : Z)
  | TYPEFUNC_RECORD (funccols : list (Z * Z))
  | TYPEFUNC_OTHER.

(** The types of the first row of a VALUES list are in [values_types]. *)
Inductive Query : Type := mkQuery {
  commandType : CmdType;
  hasAggs : bool;
  hasSubLinks : bool;
  rtable : list RangeTblEntry;
  fromlist : list Node;
  quals : option Expr;
  targetList : list TargetEntry;
  groupClause : list SortClause;
  havingQual : option Expr;
  distinctClause : list SortClause;
  sortClause : list SortClause;
  limitOffset : option Expr;
  limitCount : option Expr;
  setOperations : option SetOpNode;
  provSublinkRewritten : bool;
  shouldRewrite : bool }
with RangeTblEntry : Type := mkRangeTblEntry {
  rtekind : RTEKind;
  relid : Z;
  subquery : option Query;
  functype : TypeFuncClass;
  values_types : list (Z * Z);
  jointype : JoinType;
  joinaliasvars : list Var;
  alias : option Alias;
  eref : Alias;
  isProvBase : bool;
  provAttrs : list (option string) }.

Scheme Query_tree_ind := Induction for Query Sort Prop
  with RangeTblEntry_tree_ind := Induction for RangeTblEntry Sort Prop.

Definition set_rtable (l : list RangeTblEntry) (q : Query) : Query :=
  mkQuery (commandType q) (hasAggs q) (hasSubLinks q) l (fromlist q) (quals q) (targetList q)
    (groupClause q) (havingQual q) (distinctClause q) (sortClause q) (limitOffset q) (limitCount q)
    (setOperations q) (provSublinkRewritten q) (shouldRewrite q).

Definition set_targetList (l : list TargetEntry) (q : Query) : Query :=
  mkQuery (commandType q) (hasAggs q) (hasSubLinks q) (rtable q) (fromlist q) (quals q) l
    (groupClause q) (havingQual q) (distinctClause q) (sortClause q) (limitOffset q) (limitCount q)
    (setOperations q) (provSublinkRewritten q) (shouldRewrite q).

Definition set_distinctClause (l : list SortClause) (q : Query) : Query :=
  mkQuery (commandType q) (hasAggs q) (hasSubLinks q) (rtable q) (fromlist q) (quals q) (targetList q)
    (groupClause q) (havingQual q) l (sortClause q) (limitOffset q) (limitCount q)
    (setOperations q) (provSublinkRewritten q) (shouldRewrite q).

Definition set_subquery (s : option Query) (r : RangeTblEntry) : RangeTblEntry :=
  mkRangeTblEntry (rtekind r) (relid r) s (functype r) (values_types r) (jointype r)
    (joinaliasvars r) (alias r) (eref r) (isProvBase r) (provAttrs r).

Definition set_aliases (a : option Alias) (e : Alias) (r : RangeTblEntry) : RangeTblEntry :=
  mkRangeTblEntry (rtekind r) (relid r) (subquery r) (functype r) (values_types r) (jointype r)
    (joinaliasvars r) a e (isProvBase r) (provAttrs r).

Definition set_joincols (vs : list Var) (e : Alias) (r : RangeTblEntry) : RangeTblEntry :=
  mkRangeTblEntry (rtekind r) (relid r) (subquery r) (functype r) (values_types r) (jointype r)
    vs (alias r) e (isProvBase r) (provAttrs r).

(** [makeQuery]: an empty SELECT. *)
Definition makeQuery : Query :=
  mkQuery CMD_SELECT false false [] [] None [] [] None [] [] None None None false false.

(** [makeRte]; the names of the aliases are NULL until the caller sets them. *)
Definition makeRte (kind : RTEKind) : RangeTblEntry :=
  mkRangeTblEntry kind 0 None TYPEFUNC_OTHER [] JOIN_INNER [] (Some (mkAlias "" [])) (mkAlias "" []) false [].

(** [rt_fetch]: range table indexes start at 1. *)
Definition rt_fetch {A} (i : Z) (l : list A) : option A :=
  if decide (1 ≤ i)%Z then l !! Z.to_nat (i - 1) else None.

Definition rt_update {A} (i : Z) (x : A) (l : list A) : list A := <[Z.to_nat (i - 1) := x]> l.

(** ** The catalog *)

(** What the rewriter asks the system catalogs: names, attributes and ordering operators. *)
Record syscache := mkCache {
  names :> AttrName.catalog;
  rd_att : Z → list attribute;
  ordering_oper_opid : Z → Z;
  (** [equality_oper]: the equality operator of a type and its result type *)
  equality_oper : Z → option (Z * Z);
  (** for a view the base relations in its rules, with the names of their columns (what [getViewRelations] finds) *)
  view_relations : Z → option (list (Z * list string)) }.

End QueryTree.
