(* ===== verification/SqlSemantics.v ===== *)
(** * Evaluation of SELECT queries, plain and with provenance

    The reference against which the rewriter is verified: bag semantics of SELECT queries
    (select-project-join, grouping and aggregation, set operations) over query trees.  [evalQuery] gives the
    result tuples.  [evalProv] is the same evaluation over tuples annotated with their witnesses: the tuples of the base relations a result
    tuple was computed from, one after the other in range table order, with NULLs for the
    accesses an outer join left unmatched.  Both are instances of one generic
    evaluation of FROM and WHERE.  A row of a grouped query has one witness per input row of its
    group; a row of a set operation has one witness per combination of input rows it comes from.

    Sublinks and the order of the result are not evaluated; [query_ok] (in Queries.v) is the
    fragment the theorems are about. *)

From Stdlib Require Import ZArith Lia.
From stdpp Require Import base strings numbers list.
From S2P Require Import Prelude AttrName QueryTree.
Import QueryTree.

Module SqlSemantics.

(** SQL values: NULL or a datum.  Truth values are the data 0 and 1. *)
Abbreviation value := (option Z).
Abbreviation tuple := (list value).

(** A tuple and its witness. *)
Abbreviation row := (tuple * tuple)%type.

(** An input of a set operation: its rows and the width of their witnesses. *)
Abbreviation operand := (list row * nat)%type.

Definition of_bool (b : bool) : value := Some (if b then 1%Z else 0%Z).
Definition is_true (v : value) : bool := bool_decide (v = Some 1%Z).

(** Attribute [n] of a tuple; attribute numbers start at 1. *)
Definition attr (n : Z) (t : tuple) : value :=
  if decide (1 ≤ n)%Z then default None (t !! Z.to_nat (n - 1)) else None.

(** Three-valued AND and OR: [dom] is the dominating value. *)
Fixpoint connect (dom : Z) (vs : list value) : value :=
  match vs with
  | [] => Some (1 - dom)%Z
  | v :: vs =>
      if decide (v = Some dom) then Some dom
      else match connect dom vs with
           | Some r => if decide (r = dom) then Some dom else match v with None => None | Some _ => Some r end
           | None => None
           end
  end.

Definition negate (v : value) : value := match v with Some z => Some (1 - z)%Z | None => None end.

Definition null_test (t : NullTestType) (v : value) : value :=
  of_bool (match t, v with IS_NULL, None | IS_NOT_NULL, Some _ => true | _, _ => false end).

(** The first branch whose condition is true, or the default. *)
Definition case_value (ev : Expr → value) (d : value) : list Expr → value :=
  fix branches (l : list Expr) : value :=
    match l with
    | ECaseWhen c r :: l => if is_true (ev c) then ev r else branches l
    | _ => d
    end.

(** The meaning of the operators, aggregate functions and functions of the catalog.  An aggregate function gets
    the values of its arguments in each row of the group. *)
Record operators := mkOps {
  op_fun :> Z → list value → value; agg_fun : Z → list tuple → value; func_sem : Z → list value → value }.

(** Keep the first row of every key. *)
Fixpoint dedup_on {A K} `{EqDecision K} (key : A → K) (seen : list K) (l : list A) : list A :=
  match l with
  | [] => []
  | x :: l => if decide (key x ∈ seen) then dedup_on key seen l
              else x :: dedup_on key (key x :: seen) l
  end.

Section eval.
Context (op_sem : operators).

Fixpoint eval_expr (e : Z → tuple) (x : Expr) : value :=
  match x with
  | EVar v => if decide (varlevelsup v = 0)%Z then attr (varattno v) (e (varno v)) else None
  | EConst _ _ c => c
  | EOpExpr op _ args => op_sem op (map (eval_expr e) args)
  | EBoolExpr AND_EXPR args => connect 0 (map (eval_expr e) args)
  | EBoolExpr OR_EXPR args => connect 1 (map (eval_expr e) args)
  | EBoolExpr NOT_EXPR args =>
      match args with [x] => negate (eval_expr e x) | _ => None end
  | EDistinctExpr _ _ args =>
      match map (eval_expr e) args with [a; b] => of_bool (negb (bool_decide (a = b))) | _ => None end
  | EAggref _ _ _ _ _ _ => None
  | EFuncExpr f _ _ args => func_sem op_sem f (map (eval_expr e) args)
  | ERelabelType x _ _ _ => eval_expr e x
  | ENullTest t x => null_test t (eval_expr e x)
  | ECaseExpr _ args d => case_value (eval_expr e) (match d with Some d => eval_expr e d | None => None end) args
  | ECaseWhen _ _ => None
  end.

(** The value of an expression in a group of rows; columns outside of aggregates have the value of the first
    row. *)
Fixpoint eval_agg (g : list (Z → tuple)) (x : Expr) : value :=
  match x with
  | EVar v => match g with e :: _ => eval_expr e (EVar v) | [] => None end
  | EConst _ _ c => c
  | EOpExpr op _ args => op_sem op (map (eval_agg g) args)
  | EBoolExpr AND_EXPR args => connect 0 (map (eval_agg g) args)
  | EBoolExpr OR_EXPR args => connect 1 (map (eval_agg g) args)
  | EBoolExpr NOT_EXPR args =>
      match args with [x] => negate (eval_agg g x) | _ => None end
  | EDistinctExpr _ _ args =>
      match map (eval_agg g) args with [a; b] => of_bool (negb (bool_decide (a = b))) | _ => None end
  | EAggref f _ args _ _ d =>
      let vs := (λ e, map (eval_expr e) args) <$> g in
      agg_fun op_sem f (if d then dedup_on id [] vs else vs)
  | EFuncExpr f _ _ args => func_sem op_sem f (map (eval_agg g) args)
  | ERelabelType x _ _ _ => eval_agg g x
  | ENullTest t x => null_test t (eval_agg g x)
  | ECaseExpr _ args d => case_value (eval_agg g) (match d with Some d => eval_agg g d | None => None end) args
  | ECaseWhen _ _ => None
  end.

Definition eval_qual (e : Z → tuple) (q : option Expr) : bool :=
  match q with None => true | Some x => is_true (eval_expr e x) end.

(** ** FROM and WHERE over rows of any kind *)

(** [vals] are the values of a row; a joined row is made from the values of the join's
    columns and the rows of its two arguments.  [rows], [nullrow] and [aliasvars] give,
    for a range table index, the rows of the entry, the row that stands for a missing match, and the
    columns of a join. *)
Section from.
Context {R : Type} (vals : R → tuple) (mkjoin : tuple → R → R → R).
Context (rows : Z → list R) (nullrow : Z → R) (aliasvars : Z → list Var).

Definition env := Z → R.
Definition bind_row (i : Z) (r : R) (e : env) : env := λ j, if decide (j = i) then r else e j.
Definition vals_of (e : env) : Z → tuple := λ i, vals (e i).

(** Bind the row of the join [J] of the nodes known as [l] and [r]. *)
Definition bind_join (l r J : Z) (e : env) : env :=
  bind_row J (mkjoin ((λ v, eval_expr (vals_of e) (EVar v)) <$> aliasvars J) (e l) (e r)) e.

Fixpoint nullify (n : Node) (e : env) : env :=
  match n with
  | RangeTblRef i => bind_row i (nullrow i) e
  | JoinExpr _ l r _ J => bind_join (root l) (root r) J (nullify r (nullify l e))
  end.

(** The matches of a row, or the row with the other side missing. *)
Definition or_null (other : Node) (e : env) (matches : list env) : list env :=
  match matches with [] => [nullify other e] | _ => matches end.

Fixpoint from (n : Node) (e : env) : list env :=
  match n with
  | RangeTblRef i => (λ r, bind_row i r e) <$> rows i
  | JoinExpr jt l r q J =>
      let ok := λ es, List.filter (λ e, eval_qual (vals_of e) q) es in
      bind_join (root l) (root r) J <$>
      match jt with
      | JOIN_INNER => from l e ≫= λ e1, ok (from r e1)
      | JOIN_LEFT => from l e ≫= λ e1, or_null r e1 (ok (from r e1))
      | JOIN_RIGHT => from r e ≫= λ e2, or_null l e2 (ok (from l e2))
      | JOIN_FULL =>
          (from l e ≫= λ e1, or_null r e1 (ok (from r e1))) ++
          (from r e ≫= λ e2, match ok (from l e2) with [] => [nullify l e2] | _ => [] end)
      end
  end.

(** The items of the FROM list, from left to right. *)
Fixpoint from_list (ns : list Node) (e : env) : list env :=
  match ns with [] => [e] | n :: ns => from n e ≫= from_list ns end.

Definition solve (q : Query) : list env :=
  List.filter (λ e, eval_qual (vals_of e) (quals q)) (from_list (fromlist q) nullrow).

Definition targets (q : Query) (e : env) : tuple :=
  (λ te, eval_expr (vals_of e) (expr te)) <$> targetList q.

End from.

(** ** DISTINCT *)

(** The columns of a result row that DISTINCT compares. *)
Definition distinct_key (q : Query) (t : tuple) : tuple :=
  snd <$> filter (λ p, ressortgroupref p.1 ∈ (tleSortGroupRef <$> distinctClause q)) (zip (targetList q) t).

Definition distinct {A K} `{EqDecision K} (q : Query) (key : A → K) (l : list A) : list A :=
  match distinctClause q with [] => l | _ => dedup_on key [] l end.

(** Sort columns that are not part of the result are dropped. *)
Definition visible (q : Query) (t : tuple) : tuple :=
  snd <$> filter (λ p, resjunk p.1 = false) (zip (targetList q) t).

(** LIMIT and OFFSET, in the order in which the rows are produced. *)
Definition const_nat (x : Expr) : option nat := Z.to_nat <$> eval_expr (λ _, []) x.
Definition limited {A} (q : Query) (l : list A) : list A :=
  let l := match limitOffset q ≫= const_nat with Some n => drop n l | None => l end in
  match limitCount q ≫= const_nat with Some n => take n l | None => l end.

Definition is_none {A} (o : option A) : bool := match o with None => true | Some _ => false end.
Definition is_nil {A} (l : list A) : bool := match l with [] => true | _ => false end.

Definition has_limit (q : Query) : bool := negb (is_none (limitOffset q) && is_none (limitCount q)).

(** ** Grouping *)

(** A query is grouped if it has aggregates, GROUP BY or HAVING. *)
Definition grouped (q : Query) : bool :=
  hasAggs q || match groupClause q with [] => false | _ => true end
            || match havingQual q with None => false | Some _ => true end.

Definition is_group (q : Query) (te : TargetEntry) : Prop :=
  ressortgroupref te ∈ (tleSortGroupRef <$> groupClause q).
#[global] Instance is_group_dec q te : Decision (is_group q te).
Proof. unfold is_group. apply _. Defined.

(** The values of the GROUP BY columns, of an input row and of a row of the result. *)
Definition group_key (q : Query) (e : Z → tuple) : tuple :=
  (λ te, eval_expr e (expr te)) <$> filter (is_group q) (targetList q).
Definition row_key (q : Query) (t : tuple) : tuple :=
  snd <$> filter (λ p, is_group q p.1) (zip (targetList q) t).

(** The groups, in the order of their first rows.  Without GROUP BY there is one group, even if it is empty. *)
Definition groups (q : Query) (es : list (Z → tuple)) : list (list (Z → tuple)) :=
  match groupClause q with
  | [] => [es]
  | _ => (λ k, filter (λ e, group_key q e = k) es) <$> dedup_on id [] (group_key q <$> es)
  end.

Definition having (q : Query) (g : list (Z → tuple)) : bool :=
  match havingQual q with None => true | Some x => is_true (eval_agg g x) end.

(** The rows of a grouped query, with the columns that are not part of the result. *)
Definition agg_rows (q : Query) (es : list (Z → tuple)) : list tuple :=
  (λ g, (λ te, eval_agg g (expr te)) <$> targetList q) <$> List.filter (having q) (groups q es).

(** ** Set operations *)

Fixpoint remove_one (t : tuple) (l : list tuple) : list tuple :=
  match l with [] => [] | x :: l => if decide (x = t) then l else x :: remove_one t l end.

(** INTERSECT ALL and EXCEPT ALL match every row of the right argument at most once. *)
Fixpoint bag_intersect (l r : list tuple) : list tuple :=
  match l with
  | [] => []
  | t :: l => if decide (t ∈ r) then t :: bag_intersect l (remove_one t r) else bag_intersect l r
  end.
Fixpoint bag_except (l r : list tuple) : list tuple :=
  match l with
  | [] => []
  | t :: l => if decide (t ∈ r) then bag_except l (remove_one t r) else t :: bag_except l r
  end.

Definition setop (op : SetOperation) (all : bool) (l r : list tuple) : list tuple :=
  match op, all with
  | SETOP_UNION, true => l ++ r
  | SETOP_UNION, false => dedup_on id [] (l ++ r)
  | SETOP_INTERSECT, true => bag_intersect l r
  | SETOP_INTERSECT, false => dedup_on id [] (filter (λ t, t ∈ r) l)
  | SETOP_EXCEPT, true => bag_except l r
  | SETOP_EXCEPT, false => dedup_on id [] (filter (λ t, t ∉ r) l)
  end.

Fixpoint eval_setop (tabs : list (list tuple)) (t : SetOpNode) : list tuple :=
  match t with
  | SetOpRef i => default [] (rt_fetch i tabs)
  | SetOperationStmt op all l r => setop op all (eval_setop tabs l) (eval_setop tabs r)
  end.

(** ** Queries *)

Context (cat : syscache) (db : Z → list tuple).

(** The number of columns of the result. *)
Definition out_width (q : Query) : nat := length (filter (λ te, resjunk te = false) (targetList q)).

Definition rte_width (r : RangeTblEntry) : nat :=
  match rtekind r with
  | RTE_RELATION => length (rd_att cat (relid r))
  | RTE_SUBQUERY => match subquery r with Some q => out_width q | None => 0 end
  | RTE_JOIN => length (joinaliasvars r)
  | _ => 0
  end.

Definition nulls (n : nat) : tuple := replicate n None.

Definition aliases (q : Query) (i : Z) : list Var :=
  match rt_fetch i (rtable q) with Some r => joinaliasvars r | None => [] end.

Definition null_tuple (q : Query) (i : Z) : tuple :=
  match rt_fetch i (rtable q) with Some r => nulls (rte_width r) | None => [] end.

Definition solve_plain (tabs : list (list tuple)) (q : Query) : list (Z → tuple) :=
  solve id (λ t _ _, t) (λ i, default [] (rt_fetch i tabs)) (null_tuple q) (aliases q) q.

(** The rows of a query before DISTINCT. *)
Definition body (tabs : list (list tuple)) (q : Query) : list tuple :=
  match setOperations q with
  | Some t => eval_setop tabs t
  | None => if grouped q then agg_rows q (solve_plain tabs q) else targets id q <$> solve_plain tabs q
  end.

Fixpoint evalQuery (q : Query) : list tuple :=
  limited q (visible q <$> distinct q (distinct_key q) (body (map evalRTE (rtable q)) q))
with evalRTE (r : RangeTblEntry) : list tuple :=
  match rtekind r with
  | RTE_RELATION => db (relid r)
  | RTE_SUBQUERY => match subquery r with Some q => evalQuery q | None => [] end
  | _ => []
  end.

(** ** Witnesses *)

(** The number of provenance columns. *)
Fixpoint prov_width (q : Query) : nat := sum_list (map rte_prov_width (rtable q))
with rte_prov_width (r : RangeTblEntry) : nat :=
  match rtekind r with
  | RTE_RELATION => length (rd_att cat (relid r))
  | RTE_SUBQUERY => match subquery r with Some q => prov_width q | None => 0 end
  | _ => 0
  end.

Definition null_row (q : Query) (i : Z) : row :=
  match rt_fetch i (rtable q) with
  | Some r => (nulls (rte_width r), nulls (rte_prov_width r))
  | None => ([], [])
  end.

(** The witness of a joined row is that of its left and then of its right argument. *)
Definition join_row (t : tuple) (l r : row) : row := (t, l.2 ++ r.2).

Definition solve_prov (tabs : list (list row)) (q : Query) : list (Z → row) :=
  solve fst join_row (λ i, default [] (rt_fetch i tabs)) (null_row q) (aliases q) q.

(** The range table entries that contribute witnesses, in range table order. *)
Definition contributes (r : RangeTblEntry) : bool := negb (bool_decide (rtekind r = RTE_JOIN)).
Definition contributors (q : Query) : list Z :=
  fst <$> List.filter (λ p, contributes p.2) (imap (λ i r, (Z.of_nat i + 1, r)%Z) (rtable q)).

Definition witness (q : Query) (e : Z → row) : tuple := concat ((λ i, (e i).2) <$> contributors q).

(** Extend witnesses: to each one the given continuations, or NULLs if there are none and the
    access is optional. *)
Definition attach (optional : bool) (width : nat) (ws : list tuple) (acc : list tuple) : list tuple :=
  acc ≫= λ u, (λ w, u ++ w) <$> match ws with [] => if optional then [nulls width] else [] | _ => ws end.

(** The witnesses of a row of a grouped query are those of the input rows of its group. *)
Definition group_witnesses (q : Query) (pes : list (Z → row)) (t : tuple) : list tuple :=
  witness q <$> filter (λ e, group_key q (vals_of fst e) = row_key q t) pes.

(** Which rows of an input contribute to a row of a set operation: those with the same values, those with other
    values, or all. *)
Inductive match_kind := Same | Other | Any.

Definition matching (k : match_kind) (t : tuple) (l : list row) : list tuple :=
  snd <$> match k with
          | Same => filter (λ p, p.1 = t) l
          | Other => filter (λ p, p.1 ≠ t) l
          | Any => l
          end.

(** A row of a union may come from any of the inputs, a row of an intersection comes from all of them; a row of a
    difference comes from the left input, and the rows of the right input are what it is not. *)
Definition set_steps (op : SetOperation) (all : bool) (n : nat) : list (bool * match_kind) :=
  match op with
  | SETOP_UNION => replicate n (true, Same)
  | SETOP_INTERSECT => replicate n (false, Same)
  | SETOP_EXCEPT => [(false, Same); (true, if all then Other else Any)]
  end.

Definition set_witnesses (op : SetOperation) (all : bool) (inputs : list operand) (t : tuple) : list tuple :=
  foldl (λ acc p, attach p.1.1 p.2.2 (matching p.1.2 t p.2.1) acc) [[]]
    (zip (set_steps op all (length inputs)) inputs).

(** The inputs of a set operation.  Unions of unions and intersections of intersections are one
    operation with several inputs; any other operation below is an input of its own. *)
Fixpoint operands (tabs : list (list tuple)) (inputs : list operand) (op : SetOperation) (t : SetOpNode)
    : list operand :=
  match t with
  | SetOpRef i => [default ([], 0) (rt_fetch i inputs)]
  | SetOperationStmt op' all l r =>
      let sub := operands tabs inputs op' l ++ operands tabs inputs op' r in
      if decide (op' = op ∧ op ≠ SETOP_EXCEPT) then sub
      else [(eval_setop tabs t ≫= λ v, pair v <$> set_witnesses op' all sub v, sum_list (snd <$> sub))]
  end.

(** No DISTINCT, grouping or set operation, here or below: every row has one witness. *)
Fixpoint single_witness (q : Query) : bool :=
  is_nil (distinctClause q) && negb (grouped q) && is_none (setOperations q) && forallb single_witness_rte (rtable q)
with single_witness_rte (r : RangeTblEntry) : bool :=
  match rtekind r with
  | RTE_SUBQUERY => match subquery r with Some q => single_witness q | None => true end
  | _ => true
  end.

(** LIMIT selects rows, not witnesses: where a row can have several, each row that is left has the witnesses of all
    rows with the same values. *)
Definition limit_joins (q : Query) : bool := has_limit q && negb (single_witness q).

(** The rows of a query with their witnesses. *)
Definition body_prov (tabs : list (list tuple)) (ptabs : list (list row)) (q : Query) : list row :=
  match setOperations q with
  | Some (SetOpRef i) => []
  | Some (SetOperationStmt op all l r as t) =>
      let inputs := zip ptabs (map rte_prov_width (rtable q)) in
      limited q (eval_setop tabs t) ≫= λ v,
        pair v <$> set_witnesses op all (operands tabs inputs op l ++ operands tabs inputs op r) v
  | None =>
      if grouped q then
        limited q (agg_rows q (solve_plain tabs q)) ≫= λ t,
          pair (visible q t) <$> attach true (prov_width q) (group_witnesses q (solve_prov ptabs q) t) [[]]
      else
        let rows := (λ p, (visible q p.1, p.2)) <$> distinct q (λ p, (distinct_key q p.1, p.2))
          ((λ e, (targets fst q e, witness q e)) <$> solve_prov ptabs q) in
        if limit_joins q then
          limited q (visible q <$> distinct q (distinct_key q) (targets id q <$> solve_plain tabs q)) ≫= λ t,
            pair t <$> matching Same t rows
        else limited q rows
  end.

Fixpoint evalProv (q : Query) : list row :=
  body_prov (map evalRTE (rtable q)) (map evalProvRTE (rtable q)) q
with evalProvRTE (r : RangeTblEntry) : list row :=
  match rtekind r with
  | RTE_RELATION => (λ t, (t, t)) <$> db (relid r)
  | RTE_SUBQUERY => match subquery r with Some q => evalProv q | None => [] end
  | _ => []
  end.

End eval.

End SqlSemantics.
