(* ===== verification/SqlFacts.v ===== *)
(** * Facts about the evaluation of queries

    A simulation lemma for the evaluation of FROM and WHERE: two evaluations of the same join tree over
    related tables give related rows.  It is proved for any way of relating lists of rows that
    satisfies the interface [Relator]; the two instances are the element-wise relation, which counts
    duplicates, and mutual coverage, which does not. *)

From Stdlib Require Import ZArith Lia.
From stdpp Require Import base strings numbers list sets.
From S2P Require Import Prelude QueryTree SqlSemantics.
Import QueryTree SqlSemantics.

Module SqlFacts.

(** ** Relating lists *)

Class Relator (L : ∀ A B : Type, (A → B → Prop) → list A → list B → Prop) : Prop := {
  rel_single {A B} (P : A → B → Prop) x y : P x y → L A B P [x] [y];
  rel_empty {A B} (P : A → B → Prop) l k : L A B P l k → l = [] ↔ k = [];
  rel_nil {A B} (P : A → B → Prop) : L A B P [] [];
  rel_app {A B} (P : A → B → Prop) l k l' k' : L A B P l k → L A B P l' k' → L A B P (l ++ l') (k ++ k');
  rel_bind {A B C D} (P : A → B → Prop) (Q : C → D → Prop) l k f g :
    L A B P l k → (∀ x y, P x y → L C D Q (f x) (g y)) → L C D Q (l ≫= f) (k ≫= g);
  rel_filter {A B} (P : A → B → Prop) l k (p : A → bool) (p' : B → bool) :
    L A B P l k → (∀ x y, P x y → p x = p' y) → L A B P (List.filter p l) (List.filter p' k) }.

Definition same_rows (A B : Type) (P : A → B → Prop) : list A → list B → Prop := Forall2 P.

Definition covers (A B : Type) (P : A → B → Prop) (l : list A) (k : list B) : Prop :=
  (∀ x, x ∈ l → ∃ y, y ∈ k ∧ P x y) ∧ (∀ y, y ∈ k → ∃ x, x ∈ l ∧ P x y).

Lemma elem_of_filter_bool {A} (p : A → bool) (l : list A) x : x ∈ List.filter p l ↔ x ∈ l ∧ p x = true.
Proof. rewrite !list_elem_of_In. apply filter_In. Qed.

Lemma elem_of_concat {A} (x : A) ls : x ∈ concat ls ↔ ∃ l, x ∈ l ∧ l ∈ ls.
Proof.
  induction ls as [|l ls IH]; simpl.
  - split; [by intros ?%elem_of_nil|by intros (l & _ & ?%elem_of_nil)].
  - rewrite elem_of_app, IH. setoid_rewrite elem_of_cons. naive_solver.
Qed.

#[global] Instance same_rows_relator : Relator same_rows.
Proof.
  unfold same_rows. split.
  - intros. by repeat constructor.
  - intros A B P l k H. destruct H; naive_solver.
  - intros. constructor.
  - intros. by apply Forall2_app.
  - intros A B C D P Q l k f g H Hf. induction H; simpl; [constructor|]. apply Forall2_app; auto.
  - intros A B P l k p p' H Hp. induction H as [|x y l k Hxy _ IH]; simpl; [constructor|].
    rewrite (Hp x y Hxy). destruct (p' y); [by constructor|done].
Qed.

#[global] Instance covers_relator : Relator covers.
Proof.
  unfold covers. split.
  - intros A B P x y Hxy. setoid_rewrite list_elem_of_singleton. naive_solver.
  - intros A B P l k [H1 H2]. split; intros ->.
    + destruct k as [|y k]; [done|]. destruct (H2 y) as (x & Hx & _); [left|]. by apply elem_of_nil in Hx.
    + destruct l as [|x l]; [done|]. destruct (H1 x) as (y & Hy & _); [left|]. by apply elem_of_nil in Hy.
  - intros A B P. split; intros x Hx; by apply elem_of_nil in Hx.
  - intros A B P l k l' k' [H1 H2] [H3 H4]. setoid_rewrite elem_of_app. split.
    + intros x [Hx|Hx]; [destruct (H1 x Hx)|destruct (H3 x Hx)]; naive_solver.
    + intros y [Hy|Hy]; [destruct (H2 y Hy)|destruct (H4 y Hy)]; naive_solver.
  - intros A B C D P Q l k f g [H1 H2] Hf. setoid_rewrite list_elem_of_bind. split.
    + intros z (x & Hz & Hx). destruct (H1 x Hx) as (y & Hy & Hxy).
      destruct (Hf x y Hxy) as [F _]. destruct (F z Hz) as (u & Hu & Hzu). eauto.
    + intros z (y & Hz & Hy). destruct (H2 y Hy) as (x & Hx & Hxy).
      destruct (Hf x y Hxy) as [_ F]. destruct (F z Hz) as (u & Hu & Hzu). eauto.
  - intros A B P l k p p' [H1 H2] Hp. setoid_rewrite elem_of_filter_bool. split.
    + intros x [Hx Hpx]. destruct (H1 x Hx) as (y & Hy & Hxy). rewrite (Hp x y Hxy) in Hpx. eauto.
    + intros y [Hy Hpy]. destruct (H2 y Hy) as (x & Hx & Hxy). rewrite <- (Hp x y Hxy) in Hpy. eauto.
Qed.

Section relator.
Context (L : ∀ A B : Type, (A → B → Prop) → list A → list B → Prop) `{!Relator L}.

Lemma fmap_as_bind {A B} (f : A → B) l : f <$> l = l ≫= λ x, [f x].
Proof. induction l as [|x l IH]; [done|]. csimpl. by rewrite IH. Qed.

Lemma rel_fmap {A B C D} (P : A → B → Prop) (Q : C → D → Prop) l k f g :
  L A B P l k → (∀ x y, P x y → Q (f x) (g y)) → L C D Q (f <$> l) (g <$> k).
Proof. intros H Hf. rewrite !fmap_as_bind. eapply rel_bind; [exact H|]. intros x y Hxy. by apply rel_single, Hf. Qed.

Lemma rel_mono {A B} (P Q : A → B → Prop) l k :
  (∀ x y, P x y → Q x y) → L A B P l k → L A B Q l k.
Proof. intros HPQ H. rewrite <- (list_fmap_id l), <- (list_fmap_id k). eapply rel_fmap; eauto. Qed.

End relator.

(** ** Indexes of a join tree *)

Fixpoint ids (n : Node) : list Z :=
  match n with RangeTblRef i => [i] | JoinExpr _ l r _ J => ids l ++ ids r ++ [J] end.

Lemma root_in_ids n : root n ∈ ids n.
Proof. destruct n; simpl; rewrite ?elem_of_app, ?list_elem_of_singleton; auto. Qed.

Lemma nodup_join jt l r q J :
  NoDup (ids (JoinExpr jt l r q J)) → NoDup (ids l) ∧ NoDup (ids r) ∧ ids l ## ids r.
Proof.
  simpl. intros (H1 & H2 & H3)%NoDup_app. apply NoDup_app in H3 as (H3 & _ & _).
  split_and!; [done..|]. set_solver.
Qed.

(** ** Simulation *)

Section simulation.
Context (op_sem : operators).
Context {R1 R2 : Type} (vals1 : R1 → tuple) (vals2 : R2 → tuple).
Context (mk1 : tuple → R1 → R1 → R1) (mk2 : tuple → R2 → R2 → R2).
Context (rows1 : Z → list R1) (rows2 : Z → list R2) (null1 : Z → R1) (null2 : Z → R2).
Context (alias1 alias2 : Z → list Var) (rel : Z → R1 → R2 → Prop).
Context (L : ∀ A B : Type, (A → B → Prop) → list A → list B → Prop) `{!Relator L}.

Definition env_rel (D : list Z) (e1 : Z → R1) (e2 : Z → R2) : Prop := ∀ i, i ∈ D → rel i (e1 i) (e2 i).

Lemma env_rel_sub D D' e1 e2 : D' ⊆ D → env_rel D e1 e2 → env_rel D' e1 e2.
Proof. intros HD H i Hi. auto. Qed.

Lemma env_rel_bind D i r1 r2 e1 e2 :
  env_rel D e1 e2 → rel i r1 r2 → env_rel (D ++ [i]) (bind_row i r1 e1) (bind_row i r2 e2).
Proof.
  intros He Hr j. unfold bind_row. rewrite elem_of_app, list_elem_of_singleton.
  case_decide; [by subst|]. intros [?|?]; [by apply He|done].
Qed.

Abbreviation bind1 := (bind_join op_sem vals1 mk1 alias1).
Abbreviation bind2 := (bind_join op_sem vals2 mk2 alias2).
Abbreviation from1 := (from op_sem vals1 mk1 rows1 null1 alias1).
Abbreviation from2 := (from op_sem vals2 mk2 rows2 null2 alias2).

(** What the tables, the conditions and the join columns of a tree have to satisfy. *)
Fixpoint node_sim (n : Node) : Prop :=
  match n with
  | RangeTblRef i => L _ _ (rel i) (rows1 i) (rows2 i) ∧ rel i (null1 i) (null2 i)
  | JoinExpr _ l r q J =>
      node_sim l ∧ node_sim r ∧
      ∀ e1 e2, env_rel (ids l ++ ids r) e1 e2 →
        eval_qual op_sem (vals_of vals1 e1) q = eval_qual op_sem (vals_of vals2 e2) q ∧
        rel J (bind1 (root l) (root r) J e1 J) (bind2 (root l) (root r) J e2 J)
  end.

Lemma bind_join_sim D l r J e1 e2 :
  env_rel D e1 e2 → rel J (bind1 l r J e1 J) (bind2 l r J e2 J) →
  env_rel (D ++ [J]) (bind1 l r J e1) (bind2 l r J e2).
Proof.
  intros He HJ. apply env_rel_bind; [done|]. revert HJ. unfold bind_join, bind_row.
  by rewrite !decide_True by done.
Qed.

Lemma nullify_sim n D e1 e2 :
  node_sim n → env_rel D e1 e2 →
  env_rel (D ++ ids n) (nullify op_sem vals1 mk1 null1 alias1 n e1)
                       (nullify op_sem vals2 mk2 null2 alias2 n e2).
Proof.
  revert D e1 e2. induction n as [i|jt l IHl r IHr q J]; simpl; intros D e1 e2.
  - intros [_ Hn] He. by apply env_rel_bind.
  - intros (Hl & Hr & HJ) He. pose proof (IHr _ _ _ Hr (IHl _ _ _ Hl He)) as He'.
    rewrite (assoc_L (++)), (assoc_L (++)). apply bind_join_sim; [done|].
    apply HJ. eapply env_rel_sub; [|exact He']. set_solver.
Qed.

Lemma or_null_sim n D e1 e2 l k :
  node_sim n → env_rel D e1 e2 → L _ _ (env_rel (D ++ ids n)) l k →
  L _ _ (env_rel (D ++ ids n)) (or_null op_sem vals1 mk1 null1 alias1 n e1 l)
                               (or_null op_sem vals2 mk2 null2 alias2 n e2 k).
Proof.
  intros Hn He Hl. unfold or_null. pose proof (rel_empty _ _ _ Hl) as E.
  destruct l, k; [by apply rel_single, nullify_sim|by destruct E as [E _]; discriminate E
    |by destruct E as [_ E]; discriminate E|done].
Qed.

Lemma from_sim n D e1 e2 :
  node_sim n → env_rel D e1 e2 → L _ _ (env_rel (D ++ ids n)) (from1 n e1) (from2 n e2).
Proof.
  revert D e1 e2. induction n as [i|jt l IHl r IHr q J]; simpl; intros D e1 e2.
  { intros [Hr _] He. eapply rel_fmap; [done|exact Hr|]. intros r1 r2 Hrr. by apply env_rel_bind. }
  intros (Hl & Hr & HJ) He.
  set (D' := D ++ ids l ++ ids r).
  set (ok1 := List.filter (λ e, eval_qual op_sem (vals_of vals1 e) q)).
  set (ok2 := List.filter (λ e, eval_qual op_sem (vals_of vals2 e) q)).
  assert (∀ E xs ys, (ids l ++ ids r) ⊆ E → L _ _ (env_rel E) xs ys → L _ _ (env_rel E) (ok1 xs) (ok2 ys)) as Hok.
  { intros E xs ys HE Hxs. apply rel_filter; [done|]. intros f1 f2 Hf.
    apply HJ. eapply env_rel_sub; [|exact Hf]. done. }
  assert (L _ _ (env_rel D') (from1 l e1 ≫= λ f1, or_null op_sem vals1 mk1 null1 alias1 r f1 (ok1 (from1 r f1)))
                             (from2 l e2 ≫= λ f2, or_null op_sem vals2 mk2 null2 alias2 r f2 (ok2 (from2 r f2)))) as Hleft.
  { eapply rel_bind; [by apply IHl|]. intros f1 f2 Hf. unfold D'. rewrite (assoc_L (++)).
    apply or_null_sim; [done..|]. apply Hok; [set_solver|by apply IHr]. }
  apply (rel_fmap _ (env_rel D')).
  2:{ intros f1 f2 Hf. unfold D' in Hf. rewrite (assoc_L (++)), (assoc_L (++)), <- (assoc_L (++) D).
      apply bind_join_sim; [done|]. apply HJ. eapply env_rel_sub; [|exact Hf]. set_solver. }
  assert (∀ f1 f2, env_rel (D ++ ids r) f1 f2 → L _ _ (env_rel ((D ++ ids r) ++ ids l)) (ok1 (from1 l f1)) (ok2 (from2 l f2))) as Hrl.
  { intros f1 f2 Hf. apply Hok; [set_solver|by apply IHl]. }
  assert (∀ f1 f2, env_rel ((D ++ ids r) ++ ids l) f1 f2 → env_rel D' f1 f2) as Hsub.
  { intros f1 f2 Hf. eapply env_rel_sub; [|exact Hf]. unfold D'. set_solver. }
  destruct jt.
  - eapply rel_bind; [by apply IHl|]. intros f1 f2 Hf. unfold D'. rewrite (assoc_L (++)).
    apply Hok; [set_solver|by apply IHr].
  - exact Hleft.
  - apply rel_app; [exact Hleft|]. eapply rel_bind; [by apply IHr|]. intros f1 f2 Hf.
    specialize (Hrl f1 f2 Hf). pose proof (rel_empty _ _ _ Hrl) as E.
    destruct (ok1 (from1 l f1)), (ok2 (from2 l f2)); [|by destruct E as [E _]; discriminate E
      |by destruct E as [_ E]; discriminate E|apply rel_nil].
    apply rel_single, Hsub. by apply nullify_sim.
  - eapply rel_bind; [by apply IHr|]. intros f1 f2 Hf. eapply rel_mono; [done|exact Hsub|].
    apply or_null_sim; auto.
Qed.

Lemma from_list_sim ns D e1 e2 :
  Forall node_sim ns → env_rel D e1 e2 →
  L _ _ (env_rel (D ++ concat (ids <$> ns)))
    (from_list op_sem vals1 mk1 rows1 null1 alias1 ns e1)
    (from_list op_sem vals2 mk2 rows2 null2 alias2 ns e2).
Proof.
  intros Hns. revert D e1 e2. induction Hns as [|n ns Hn _ IH]; intros D e1 e2 He.
  - cbn [fmap list_fmap concat from_list]. rewrite app_nil_r. by apply rel_single.
  - cbn [fmap list_fmap concat from_list]. rewrite (assoc_L (++)).
    eapply rel_bind; [by apply from_sim|]. intros f1 f2 Hf. by apply IH.
Qed.

End simulation.

(** ** Rows of joins *)

(** In a row of a join tree, the row of every join is made from the rows of its
    arguments, and indexes outside the tree are untouched. *)
Section settled.
Context (op_sem : operators).
Context {R : Type} (vals : R → tuple) (mk : tuple → R → R → R).
Context (rows : Z → list R) (null : Z → R) (alias : Z → list Var).

Definition join_value (l r J : Z) (e : Z → R) : R :=
  mk ((λ v, eval_expr op_sem (vals_of vals e) (EVar v)) <$> alias J) (e l) (e r).

Fixpoint settled (e : Z → R) (n : Node) : Prop :=
  match n with
  | RangeTblRef _ => True
  | JoinExpr _ l r _ J => settled e l ∧ settled e r ∧ e J = join_value (root l) (root r) J e
  end.

(** The columns of a join come from its arguments. *)
Fixpoint scoped (n : Node) : Prop :=
  match n with
  | RangeTblRef _ => True
  | JoinExpr _ l r _ J =>
      scoped l ∧ scoped r ∧ Forall (λ v, varno v ∈ ids l ++ ids r) (alias J)
  end.

Lemma join_value_ext l r J e e' (D : list Z) :
  (∀ i, i ∈ D → e i = e' i) → l ∈ D → r ∈ D → Forall (λ v, varno v ∈ D) (alias J) →
  join_value l r J e = join_value l r J e'.
Proof.
  intros He Hl Hr HJ. unfold join_value. rewrite (He l), (He r) by done. f_equal.
  apply list_fmap_ext. intros k v Hv. rewrite Forall_forall in HJ. cbn. unfold vals_of.
  rewrite He; [done|]. apply HJ. by eapply list_elem_of_lookup_2.
Qed.

Lemma settled_ext n e e' :
  (∀ i, i ∈ ids n → e i = e' i) → scoped n → settled e n → settled e' n.
Proof.
  induction n as [i|jt l IHl r IHr q J]; simpl; [done|].
  intros He (Sl & Sr & SJ) (Hl & Hr & HJ).
  assert (∀ i, i ∈ ids l ++ ids r → e i = e' i) as He' by set_solver.
  split; [|split].
  - apply IHl; [set_solver|done..].
  - apply IHr; [set_solver|done..].
  - rewrite <- He, HJ by set_solver.
    eapply join_value_ext; [exact He'|..|done]; pose proof (root_in_ids l); pose proof (root_in_ids r); set_solver.
Qed.

(** What adding the rows of [n] to [e] gives. *)
Definition extends (n : Node) (e e' : Z → R) : Prop :=
  settled e' n ∧ ∀ i, i ∉ ids n → e' i = e i.

Lemma extends_two l r e f g :
  scoped l → ids l ## ids r → extends l e f → extends r f g →
  settled g l ∧ settled g r ∧ ∀ i, i ∉ ids l → i ∉ ids r → g i = e i.
Proof.
  intros Sl Hd [Hl Hl'] [Hr Hr']. split; [|split; [done|]].
  - eapply settled_ext; [|done|exact Hl]. intros i Hi. symmetry. apply Hr'. set_solver.
  - intros i Hi Hi'. rewrite Hr', Hl' by done. done.
Qed.

Lemma bind_join_extends jt l r q J e f :
  scoped (JoinExpr jt l r q J) → NoDup (ids (JoinExpr jt l r q J)) →
  settled f l → settled f r → (∀ i, i ∉ ids l → i ∉ ids r → f i = e i) →
  extends (JoinExpr jt l r q J) e (bind_join op_sem vals mk alias (root l) (root r) J f).
Proof.
  intros S HN Hl Hr Hout. destruct S as (Sl & Sr & SJ). simpl in HN.
  apply NoDup_app in HN as (_ & HN1 & HN2). apply NoDup_app in HN2 as (_ & HN2 & _).
  set (f' := bind_join op_sem vals mk alias (root l) (root r) J f).
  assert (∀ i, i ∈ ids l ++ ids r → f i = f' i) as Hf.
  { intros i Hi. unfold f', bind_join, bind_row. rewrite decide_False; [done|]. intros ->. set_solver. }
  split.
  - simpl. split; [|split].
    + eapply settled_ext; [|done|exact Hl]. intros i Hi. apply Hf. set_solver.
    + eapply settled_ext; [|done|exact Hr]. intros i Hi. apply Hf. set_solver.
    + unfold f' at 1, bind_join, bind_row. rewrite decide_True by done. fold (join_value (root l) (root r) J f).
      eapply join_value_ext; [exact Hf|..|done]; pose proof (root_in_ids l); pose proof (root_in_ids r); set_solver.
  - intros i Hi. simpl in Hi. unfold f', bind_join, bind_row. rewrite decide_False by set_solver.
    apply Hout; set_solver.
Qed.

Lemma nullify_extends n e :
  NoDup (ids n) → scoped n → extends n e (nullify op_sem vals mk null alias n e).
Proof.
  revert e. induction n as [i|jt l IHl r IHr q J]; intros e HN S.
  - split; [done|]. intros j Hj. simpl in *. unfold bind_row. rewrite decide_False; [done|set_solver].
  - pose proof (nodup_join _ _ _ _ _ HN) as (Nl & Nr & Hd). pose proof S as (Sl & Sr & _).
    destruct (extends_two l r e _ _ Sl Hd (IHl e Nl Sl) (IHr _ Nr Sr)) as (Hl & Hr & Hout).
    by apply (bind_join_extends jt l r q J).
Qed.

Lemma or_null_in n e matches f :
  f ∈ or_null op_sem vals mk null alias n e matches →
  f ∈ matches ∨ f = nullify op_sem vals mk null alias n e.
Proof. unfold or_null. destruct matches; [rewrite list_elem_of_singleton|]; auto. Qed.

Lemma from_extends n e e' :
  NoDup (ids n) → scoped n → e' ∈ from op_sem vals mk rows null alias n e → extends n e e'.
Proof.
  revert e e'. induction n as [i|jt l IHl r IHr q J]; intros e e' HN S He'.
  { simpl in He'. apply list_elem_of_fmap in He' as (r & -> & _). split; [done|].
    intros j Hj. simpl in *. unfold bind_row. rewrite decide_False; [done|set_solver]. }
  pose proof (nodup_join _ _ _ _ _ HN) as (Nl & Nr & Hd). pose proof S as (Sl & Sr & _).
  cbn [from] in He'. apply list_elem_of_fmap in He' as (f & -> & Hf).
  set (ok := List.filter (λ e, eval_qual op_sem (vals_of vals e) q)) in *.
  assert (∀ es f, f ∈ ok es → f ∈ es) as Hok by (intros es g; unfold ok; rewrite elem_of_filter_bool; tauto).
  assert ((∃ g, extends l e g ∧ extends r g f) ∨ (∃ g, extends r e g ∧ extends l g f)) as Hcase.
  { assert (f ∈ (from op_sem vals mk rows null alias l e ≫= λ e1, or_null op_sem vals mk null alias r e1 (ok (from op_sem vals mk rows null alias r e1))) →
      ∃ g, extends l e g ∧ extends r g f) as Hleft.
    { rewrite list_elem_of_bind. intros (g & [Hg|Hg]%or_null_in & Hg'); exists g; (split; [by apply IHl|]).
      - by apply IHr, Hok.
      - subst f. by apply nullify_extends. }
    destruct jt.
    - left. apply list_elem_of_bind in Hf as (g & Hg & Hg'). exists g. split; [by apply IHl|]. by apply IHr, Hok.
    - left. by apply Hleft.
    - apply elem_of_app in Hf as [Hf|Hf]; [left; by apply Hleft|]. right.
      apply list_elem_of_bind in Hf as (g & Hg & Hg'). exists g. split; [by apply IHr|].
      destruct (ok _) in Hg; [|by apply elem_of_nil in Hg].
      apply list_elem_of_singleton in Hg. subst f. by apply nullify_extends.
    - right. apply list_elem_of_bind in Hf as (g & [Hg|Hg]%or_null_in & Hg'); exists g; (split; [by apply IHr|]).
      + by apply IHl, Hok.
      + subst f. by apply nullify_extends. }
  destruct Hcase as [(g & H1 & H2)|(g & H1 & H2)].
  - destruct (extends_two l r e g f Sl Hd H1 H2) as (Hl & Hr & Hout).
    by apply (bind_join_extends jt l r q J).
  - destruct (extends_two r l e g f Sr ltac:(set_solver) H1 H2) as (Hr & Hl & Hout).
    apply (bind_join_extends jt l r q J); auto.
Qed.

Lemma from_list_settled ns e e' :
  NoDup (concat (ids <$> ns)) → Forall scoped ns →
  e' ∈ from_list op_sem vals mk rows null alias ns e →
  Forall (settled e') ns ∧ ∀ i, i ∉ concat (ids <$> ns) → e' i = e i.
Proof.
  revert e. induction ns as [|n ns IH]; intros e; csimpl.
  - intros _ _ ->%list_elem_of_singleton. auto.
  - intros (N1 & Hd & N2)%NoDup_app [S1 S2]%Forall_cons (f & Hf & Hf')%list_elem_of_bind.
    destruct (from_extends n e f N1 S1 Hf') as [H1 H1']. destruct (IH f N2 S2 Hf) as [H2 H2'].
    split.
    + constructor; [|done]. eapply settled_ext; [|done|exact H1]. intros i Hi. symmetry. auto.
    + intros i Hi. rewrite H2', H1' by set_solver. done.
Qed.

End settled.

End SqlFacts.
