(* ===== verification/Queries.v ===== *)
(** * Well-formed queries

    [query_ok] is the executable description of the queries the rewriter's theorems are about:
    select-project-join queries over base relations, joins of every kind and nested
    subqueries, with or without DISTINCT; queries with aggregation; and set operations; all with references
    in range. *)

From Stdlib Require Import ZArith Lia.
From stdpp Require Import base strings numbers list sets.
From S2P Require Import Prelude AttrName QueryTree SqlSemantics SqlFacts.
Import QueryTree SqlSemantics SqlFacts.

Module Queries.

(** ** Well-formedness *)

(** References are in range; casts of columns and CASE are left out. *)
Fixpoint expr_ok (w : Z → nat) (D : list Z) (x : Expr) : bool :=
  match x with
  | EVar v => bool_decide (varlevelsup v = 0%Z) && bool_decide (varno v ∈ D) &&
              bool_decide (1 ≤ varattno v ≤ Z.of_nat (w (varno v)))%Z
  | EConst _ _ _ => true
  | EOpExpr _ _ args | EBoolExpr _ args | EDistinctExpr _ _ args => forallb (expr_ok w D) args
  | EFuncExpr _ _ COERCE_EXPLICIT_CALL args => forallb (expr_ok w D) args
  | ERelabelType arg _ _ _ | ENullTest _ arg => expr_ok w D arg
  | EAggref _ _ _ _ _ _ | EFuncExpr _ _ _ _ | ECaseExpr _ _ _ | ECaseWhen _ _ => false
  end.

(** Expressions of a grouped query: aggregates of expressions over the input. *)
Fixpoint agg_ok (w : Z → nat) (D : list Z) (x : Expr) : bool :=
  match x with
  | EVar _ | EConst _ _ _ => expr_ok w D x
  | EOpExpr _ _ args | EBoolExpr _ args | EDistinctExpr _ _ args => forallb (agg_ok w D) args
  | EAggref _ _ args lv _ _ => bool_decide (lv = 0%Z) && forallb (expr_ok w D) args
  | EFuncExpr _ _ COERCE_EXPLICIT_CALL args => forallb (agg_ok w D) args
  | ERelabelType arg _ _ _ | ENullTest _ arg => agg_ok w D arg
  | EFuncExpr _ _ _ _ | ECaseExpr _ _ _ | ECaseWhen _ _ => false
  end.

Fixpoint has_agg (x : Expr) : bool :=
  match x with
  | EVar _ | EConst _ _ _ => false
  | EOpExpr _ _ args | EBoolExpr _ args | EDistinctExpr _ _ args | EFuncExpr _ _ _ args => existsb has_agg args
  | EAggref _ _ _ _ _ _ => true
  | ERelabelType arg _ _ _ | ENullTest _ arg => has_agg arg
  | ECaseExpr _ args d => existsb has_agg args || match d with Some d => has_agg d | None => false end
  | ECaseWhen c r => has_agg c || has_agg r
  end.

Definition qual_ok (w : Z → nat) (D : list Z) (q : option Expr) : bool :=
  match q with None => true | Some x => expr_ok w D x end.

Lemma forallb_Forall {A} (p : A → bool) l : forallb p l = true → Forall (λ x, p x = true) l.
Proof. rewrite forallb_forall, Forall_forall. intros H x Hx. apply H. by apply list_elem_of_In. Qed.

Lemma is_none_true {A} (o : option A) : is_none o = true → o = None.
Proof. by destruct o. Qed.

Lemma is_nil_true {A} (l : list A) : is_nil l = true → l = [].
Proof. by destruct l. Qed.

Lemma is_some {A} (o : option A) : negb (is_none o) = true → is_Some o.
Proof. destruct o; [by eexists|done]. Qed.

(** Turn a conjunction of checks into facts. *)
Ltac checks :=
  repeat rewrite andb_true_iff in *; destruct_and?;
  repeat match goal with
  | H : bool_decide _ = true |- _ => apply bool_decide_eq_true_1 in H
  | H : negb (is_none _) = true |- _ => apply is_some in H
  | H : negb _ = true |- _ => apply negb_true_iff in H
  | H : forallb _ _ = true |- _ => apply forallb_Forall in H
  | H : is_none _ = true |- _ => apply is_none_true in H
  | H : is_nil _ = true |- _ => apply is_nil_true in H
  end.

Section fragment.
Context (cat : syscache).

Definition width (q : Query) (i : Z) : nat :=
  match rt_fetch i (rtable q) with Some r => rte_width cat r | None => 0 end.

Definition kind_at (q : Query) (i : Z) : option RTEKind := rtekind <$> rt_fetch i (rtable q).

Fixpoint node_ok (q : Query) (n : Node) : bool :=
  match n with
  | RangeTblRef i => bool_decide (kind_at q i = Some RTE_RELATION ∨ kind_at q i = Some RTE_SUBQUERY)
  | JoinExpr _ l r c J =>
      let D := ids l ++ ids r in
      node_ok q l && node_ok q r && bool_decide (kind_at q J = Some RTE_JOIN) &&
      qual_ok (width q) D c && forallb (λ v, expr_ok (width q) D (EVar v)) (aliases q J)
  end.

Definition scope (q : Query) : list Z := concat (ids <$> fromlist q).

Definition te_ok (q : Query) (te : TargetEntry) : bool :=
  negb (resjunk te) && negb (is_none (resname te)) && expr_ok (width q) (scope q) (expr te) &&
  match distinctClause q with
  | [] => true
  | dc => bool_decide (ressortgroupref te ∈ (tleSortGroupRef <$> dc))
  end.

(** FROM and WHERE. *)
Definition from_okb (q : Query) : bool :=
  bool_decide (NoDup (scope q)) && forallb (node_ok q) (fromlist q) &&
  qual_ok (width q) (scope q) (quals q) && forallb (λ i, bool_decide (i ∈ scope q)) (contributors q).

(** Result columns are numbered by position. *)
Definition numbered (q : Query) : bool :=
  bool_decide (resno <$> targetList q = seqZ 1 (Z.of_nat (length (targetList q)))).

(** LIMIT and OFFSET are constants, and the result is not sorted if they are present. *)
Definition const_ok (x : option Expr) : bool := match x with None | Some (EConst _ _ _) => true | _ => false end.
Definition limit_ok (q : Query) : bool :=
  const_ok (limitOffset q) && const_ok (limitCount q) &&
  (is_nil (sortClause q) || is_none (limitOffset q) && is_none (limitCount q)).

(** No set operation, here or below. *)
Fixpoint no_setops (q : Query) : bool := is_none (setOperations q) && forallb no_setops_rte (rtable q)
with no_setops_rte (r : RangeTblEntry) : bool :=
  match rtekind r with
  | RTE_SUBQUERY => match subquery r with Some q => no_setops q | None => true end
  | _ => true
  end.

Definition comparable_te (te : TargetEntry) : bool := negb (is_none (equality_oper cat (exprType (expr te)))).

(** With LIMIT, every row has one witness, or the columns can be compared and there is no set operation. *)
Definition spj_limit_ok (q : Query) : bool :=
  limit_ok q &&
  (negb (has_limit q) || single_witness q || no_setops q && forallb comparable_te (targetList q)).

Definition spj_node (q : Query) : bool :=
  negb (hasSubLinks q) && numbered q && from_okb q &&
  negb (grouped q) && is_none (setOperations q) && spj_limit_ok q &&
  negb (provSublinkRewritten q) && forallb (te_ok q) (targetList q).

(** Every target entry is a GROUP BY column or contains an aggregate. *)
Definition agg_te_ok (q : Query) (te : TargetEntry) : bool :=
  (resjunk te || negb (is_none (resname te))) &&
  if has_agg (expr te) then bool_decide (¬ is_group q te) && agg_ok (width q) (scope q) (expr te)
  else bool_decide (is_group q te) && expr_ok (width q) (scope q) (expr te) &&
       negb (is_none (equality_oper cat (exprType (expr te)))).

Definition group_refs (q : Query) : list Z := ressortgroupref <$> filter (is_group q) (targetList q).

Definition agg_node (q : Query) : bool :=
  negb (hasSubLinks q) && numbered q && from_okb q &&
  hasAggs q && is_none (setOperations q) && is_nil (distinctClause q) && limit_ok q &&
  forallb (agg_te_ok q) (targetList q) &&
  bool_decide (NoDup (tleSortGroupRef <$> groupClause q)) && bool_decide (NoDup (group_refs q)) &&
  forallb (λ g, bool_decide (g ∈ group_refs q)) (tleSortGroupRef <$> groupClause q) &&
  forallb (λ g, bool_decide (g ∈ (ressortgroupref <$> targetList q))) (tleSortGroupRef <$> sortClause q) &&
  match havingQual q with None => true | Some x => agg_ok (width q) (scope q) x end.

(** The inputs of a set operation, from left to right. *)
Fixpoint set_leaves (t : SetOpNode) : list Z :=
  match t with SetOpRef i => [i] | SetOperationStmt _ _ l r => set_leaves l ++ set_leaves r end.

(** The inputs are named subqueries with the columns of the result. *)
Definition set_input_ok (q : Query) (r : RangeTblEntry) : bool :=
  bool_decide (rtekind r = RTE_SUBQUERY) && bool_decide (rte_width cat r = length (targetList q)) &&
  match alias r with Some a => bool_decide (aliasname a ≠ "*OLD*") | None => false end.

(** Only operations [op], which is not a difference. *)
Fixpoint one_operation (op : SetOperation) (t : SetOpNode) : bool :=
  match t with
  | SetOpRef _ => true
  | SetOperationStmt op' _ l r => bool_decide (op' = op ∧ op ≠ SETOP_EXCEPT) && one_operation op l && one_operation op r
  end.

Definition set_te_ok (te : TargetEntry) : bool :=
  negb (resjunk te) && negb (is_none (resname te)) && negb (is_none (equality_oper cat (exprType (expr te)))) &&
  match expr te with
  | EVar v => bool_decide (varno v = 1%Z ∧ varattno v = resno te ∧ varlevelsup v = 0%Z)
  | _ => false
  end.

Definition set_node (q : Query) : bool :=
  negb (hasSubLinks q) && numbered q && negb (grouped q) && is_nil (distinctClause q) && limit_ok q &&
  is_nil (fromlist q) && is_none (quals q) && negb (is_nil (targetList q)) &&
  forallb set_te_ok (targetList q) && forallb (set_input_ok q) (rtable q) &&
  match setOperations q with
  | Some (SetOperationStmt op _ l r as t) =>
      bool_decide (set_leaves t = seqZ 1 (Z.of_nat (length (rtable q)))) &&
      (is_none (limitOffset q) && is_none (limitCount q) || one_operation op l && one_operation op r)
  | _ => false
  end.

Fixpoint query_ok (q : Query) : bool := (spj_node q || agg_node q || set_node q) && forallb rte_ok (rtable q)
with rte_ok (r : RangeTblEntry) : bool :=
  negb (isProvBase r) && is_nil (provAttrs r) &&
  bool_decide (aliasname (eref r) ≠ "*NEW*") && bool_decide (aliasname (eref r) ≠ "*OLD*") &&
  match rtekind r with
  | RTE_RELATION =>
      negb (is_none (AttrName.get_rel_schema cat (relid r))) &&
      negb (is_none (AttrName.get_rel_name cat (relid r))) &&
      forallb (λ a, negb (attisdropped a)) (rd_att cat (relid r)) &&
      forallb (λ c, negb (is_none c)) (colnames (eref r))
  | RTE_SUBQUERY => match subquery r with Some q => query_ok q | None => false end
  | RTE_JOIN => true
  | _ => false
  end.

(** What the checks say, as propositions. *)
Record from_ok (q : Query) : Prop := {
  fo_scope : NoDup (scope q);
  fo_nodes : Forall (λ n, node_ok q n = true) (fromlist q);
  fo_quals : qual_ok (width q) (scope q) (quals q) = true;
  fo_contributors : ∀ i, i ∈ contributors q → i ∈ scope q;
  fo_rtes : Forall (λ r, rte_ok r = true) (rtable q) }.

Record spj_query (q : Query) : Prop := {
  spj_sublinks : hasSubLinks q = false;
  spj_grouped : grouped q = false;
  spj_setops : setOperations q = None;
  spj_limit : spj_limit_ok q = true;
  spj_rewritten : provSublinkRewritten q = false;
  spj_numbered : resno <$> targetList q = seqZ 1 (Z.of_nat (length (targetList q)));
  spj_targets : Forall (λ te, te_ok q te = true) (targetList q);
  spj_from :> from_ok q }.

Record agg_query (q : Query) : Prop := {
  agg_sublinks : hasSubLinks q = false;
  agg_aggs : hasAggs q = true;
  agg_setops : setOperations q = None;
  agg_distinct : distinctClause q = [];
  agg_limit : limit_ok q = true;
  agg_numbered : resno <$> targetList q = seqZ 1 (Z.of_nat (length (targetList q)));
  agg_targets : Forall (λ te, agg_te_ok q te = true) (targetList q);
  agg_clause : NoDup (tleSortGroupRef <$> groupClause q);
  agg_refs : NoDup (group_refs q);
  agg_present : ∀ g, g ∈ (tleSortGroupRef <$> groupClause q) → g ∈ group_refs q;
  agg_sorted : ∀ g, g ∈ (tleSortGroupRef <$> sortClause q) → g ∈ (ressortgroupref <$> targetList q);
  agg_having : ∀ x, havingQual q = Some x → agg_ok (width q) (scope q) x = true;
  agg_from :> from_ok q }.

Record set_query (q : Query) (t : SetOpNode) : Prop := {
  set_sublinks : hasSubLinks q = false;
  set_tree : setOperations q = Some t;
  set_stmt : ∃ op all l r, t = SetOperationStmt op all l r;
  set_grouped : grouped q = false;
  set_distinct : distinctClause q = [];
  set_limit : limit_ok q = true;
  set_fromlist : fromlist q = [];
  set_quals : quals q = None;
  set_numbered : resno <$> targetList q = seqZ 1 (Z.of_nat (length (targetList q)));
  set_targets : Forall (λ te, set_te_ok te = true) (targetList q);
  set_inputs : Forall (λ r, set_input_ok q r = true) (rtable q);
  set_indexes : set_leaves t = seqZ 1 (Z.of_nat (length (rtable q)));
  set_nonempty : targetList q ≠ [];
  set_limited : limitOffset q = None ∧ limitCount q = None ∨
    ∃ op all l r, t = SetOperationStmt op all l r ∧ one_operation op l = true ∧ one_operation op r = true;
  set_rtes : Forall (λ r, rte_ok r = true) (rtable q) }.

Lemma from_spec q : from_okb q = true → Forall (λ r, rte_ok r = true) (rtable q) → from_ok q.
Proof.
  unfold from_okb. intros Hq Hr. checks. split; try done. intros i Hi.
  match goal with H : Forall _ (contributors _) |- _ => rewrite Forall_forall in H; specialize (H i Hi) end.
  by eapply bool_decide_eq_true_1.
Qed.

Lemma node_ok_ext q q' n : rtable q' = rtable q → node_ok q' n = node_ok q n.
Proof.
  intros E. induction n as [i|jt l IHl r IHr c J]; cbn [node_ok]; unfold width, kind_at, aliases; rewrite E; [done|].
  by rewrite IHl, IHr.
Qed.

(** FROM and WHERE do not depend on the rest of the query. *)
Lemma from_ok_ext q q' :
  rtable q' = rtable q → fromlist q' = fromlist q → quals q' = quals q → from_ok q → from_ok q'.
Proof.
  intros E1 E2 E3 []. split; unfold scope, contributors, width in *; rewrite ?E1, ?E2, ?E3; try done.
  eapply Forall_impl; [done|]. intros n Hn. by rewrite (node_ok_ext q).
Qed.

Lemma query_ok_spec q :
  query_ok q = true →
  Forall (λ r, rte_ok r = true) (rtable q) ∧ (spj_query q ∨ agg_query q ∨ ∃ t, set_query q t).
Proof.
  intros Hq. assert ((spj_node q || agg_node q || set_node q) = true ∧ forallb rte_ok (rtable q) = true) as [Hk Hr].
  { destruct q. by apply andb_true_iff in Hq. }
  clear Hq. apply forallb_Forall in Hr. split; [done|]. rewrite !orb_true_iff in Hk. destruct Hk as [[H|H]|H].
  - left. unfold spj_node, numbered in H. checks. split; try done. by apply from_spec.
  - right. left. unfold agg_node, numbered in H. checks. split; try done.
    + intros g Hg. match goal with H : Forall _ (tleSortGroupRef <$> groupClause q) |- _ =>
        rewrite Forall_forall in H; specialize (H g Hg) end. by eapply bool_decide_eq_true_1.
    + intros g Hg. match goal with H : Forall _ (tleSortGroupRef <$> sortClause q) |- _ =>
        rewrite Forall_forall in H; specialize (H g Hg) end. by eapply bool_decide_eq_true_1.
    + intros x Hx. by rewrite Hx in *.
    + by apply from_spec.
  - right. right. unfold set_node, numbered in H. checks.
    destruct (setOperations q) as [[|op all l r]|] eqn:Et; try done. exists (SetOperationStmt op all l r). checks.
    split; try done; [by eexists _, _, _, _|by destruct (targetList q)|].
    match goal with H : (_ || _) = true |- _ => apply orb_true_iff in H as [H|H]; checks; [by left|right] end.
    by eexists _, _, _, _.
Qed.

Lemma query_ok_set q t : query_ok q = true → setOperations q = Some t → set_query q t.
Proof.
  intros [_ [H|[H|[t' H]]]]%query_ok_spec E.
  - rewrite (spj_setops _ H) in E. done.
  - rewrite (agg_setops _ H) in E. done.
  - rewrite (set_tree _ _ H) in E. by injection E as ->.
Qed.

Lemma rte_ok_spec r :
  rte_ok r = true →
  isProvBase r = false ∧ provAttrs r = [] ∧ aliasname (eref r) ≠ "*NEW*" ∧ aliasname (eref r) ≠ "*OLD*" ∧
  ((rtekind r = RTE_RELATION ∧ (∃ s, AttrName.get_rel_schema cat (relid r) = Some s) ∧
    (∃ n, AttrName.get_rel_name cat (relid r) = Some n) ∧
    Forall (λ a, attisdropped a = false) (rd_att cat (relid r)) ∧ Forall is_Some (colnames (eref r)))
   ∨ (rtekind r = RTE_SUBQUERY ∧ ∃ q, subquery r = Some q ∧ query_ok q = true)
   ∨ rtekind r = RTE_JOIN).
Proof.
  destruct r as [k rel sub ft vt jt av al er pb pa]. cbn [rte_ok rtekind isProvBase provAttrs eref subquery relid].
  repeat rewrite andb_true_iff. intros ((((Hb & Hp) & Hn%bool_decide_eq_true_1) & Ho%bool_decide_eq_true_1) & Hk).
  destruct pb; [done|]. destruct pa; [|done]. split_and!; try done. destruct k; try done; auto.
  - left. split; [done|]. repeat rewrite andb_true_iff in Hk. destruct Hk as (((Hs & Hr) & Hd) & Hc).
    split_and!.
    + destruct (AttrName.get_rel_schema _ _); [by eexists|done].
    + destruct (AttrName.get_rel_name _ _); [by eexists|done].
    + apply forallb_Forall in Hd. eapply Forall_impl; [exact Hd|]. intros a. cbn. apply negb_true_iff.
    + apply forallb_Forall in Hc. eapply Forall_impl; [exact Hc|]. intros [a|]; [by eexists|done].
  - right. left. split; [done|]. destruct sub as [q|]; [by eexists|done].
Qed.

End fragment.

(** ** Range tables *)

Lemma rt_fetch_map {A B} (f : A → B) i l : rt_fetch i (map f l) = f <$> rt_fetch i l.
Proof. unfold rt_fetch. case_decide; [apply list_lookup_fmap|done]. Qed.

Lemma rt_fetch_Forall {A} (P : A → Prop) i l x : Forall P l → rt_fetch i l = Some x → P x.
Proof. unfold rt_fetch. case_decide; [|done]. intros. by eapply Forall_lookup_1. Qed.

(** ** Expressions *)

Lemma list_all_Forall {A} (P : A → Prop) l : list_all A P l → Forall P l.
Proof. induction 1; by constructor. Qed.

Lemma option_all_Some {A} (P : A → Prop) x : option_all A P (Some x) → P x.
Proof. by inversion 1. Qed.

(** Expressions agree where the attributes they refer to do. *)
Lemma eval_expr_agree op_sem w D x e1 e2 :
  expr_ok w D x = true →
  (∀ i n, i ∈ D → (1 ≤ n ≤ Z.of_nat (w i))%Z → attr n (e1 i) = attr n (e2 i)) →
  eval_expr op_sem e1 x = eval_expr op_sem e2 x.
Proof.
  intros Hx He. revert Hx.
  assert (∀ args, list_all Expr (λ x, expr_ok w D x = true → eval_expr op_sem e1 x = eval_expr op_sem e2 x) args →
    forallb (expr_ok w D) args = true → map (eval_expr op_sem e1) args = map (eval_expr op_sem e2) args) as Hargs.
  { induction 1 as [|y Hy args _ IH]; [done|]. simpl. rewrite andb_true_iff. intros [H1 H2].
    f_equal; auto. }
  induction x as [v|ty tm c|op ty args Hall|b args Hall|op ty args Hall|f ty args _ lv st d|f ty c args Hall|x IH|t x IH| |];
    simpl; [| | | | |done| | | |done..].
  - rewrite !andb_true_iff, !bool_decide_eq_true. intros [[-> Hn] Ha]. by apply He.
  - done.
  - intros H. by rewrite (Hargs args).
  - intros H. pose proof (Hargs args Hall H) as E. destruct b; [by rewrite E..|].
    destruct args as [|a [|a' args]]; [done| |done]. simpl in E. by injection E as ->.
  - intros H. by rewrite (Hargs args).
  - intros H. destruct c; try done. by rewrite (Hargs args).
  - done.
  - intros H. by rewrite IH.
Qed.

Lemma eval_qual_agree op_sem w D q e1 e2 :
  qual_ok w D q = true →
  (∀ i n, i ∈ D → (1 ≤ n ≤ Z.of_nat (w i))%Z → attr n (e1 i) = attr n (e2 i)) →
  eval_qual op_sem e1 q = eval_qual op_sem e2 q.
Proof. destruct q as [x|]; [|done]. intros Hx He. simpl. by rewrite (eval_expr_agree op_sem w D x e1 e2). Qed.

(** ** Result columns *)

Lemma zip_all {A B} (p : A → Prop) `{∀ q : A * B, Decision (p q.1)} (l : list A) (k : list B) :
  Forall p l → length l = length k → snd <$> filter (λ q, p q.1) (zip l k) = k.
Proof.
  intros Hl. revert k. induction Hl as [|x l Hx _ IH]; intros [|y k]; simpl; [done..|].
  intros [= Hlen]. rewrite filter_cons_True by done. csimpl. by rewrite IH.
Qed.

(** A result column that is visible and compared by DISTINCT. *)
Definition shown (q : Query) (te : TargetEntry) : Prop :=
  resjunk te = false ∧
  (distinctClause q ≠ [] → ressortgroupref te ∈ (tleSortGroupRef <$> distinctClause q)).

Lemma te_ok_shown cat q :
  Forall (λ te, te_ok cat q te = true) (targetList q) → Forall (shown q) (targetList q).
Proof.
  intros Hq. eapply Forall_impl; [exact Hq|]. intros te. unfold te_ok. rewrite !andb_true_iff.
  intros [[[H _] _] Hd]. apply negb_true_iff in H. split; [done|].
  destruct (distinctClause q); [done|]. intros _. by eapply bool_decide_eq_true_1.
Qed.

Lemma visible_all q t :
  Forall (shown q) (targetList q) → length t = length (targetList q) → visible q t = t.
Proof.
  intros Hq Hlen. unfold visible. apply (zip_all (λ te, resjunk te = false)); [|done].
  eapply Forall_impl; [exact Hq|]. by intros te [H _].
Qed.

Lemma distinct_key_all q t :
  distinctClause q ≠ [] →
  Forall (shown q) (targetList q) → length t = length (targetList q) → distinct_key q t = t.
Proof.
  intros Hd Hq Hlen. unfold distinct_key. apply (zip_all (λ te, ressortgroupref te ∈ _)); [|done].
  eapply Forall_impl; [exact Hq|]. intros te [_ H]. auto.
Qed.

Lemma targets_length op_sem {R} (vals : R → tuple) q e :
  length (targets op_sem vals q e) = length (targetList q).
Proof. apply length_fmap. Qed.

(** ** DISTINCT *)

Lemma dedup_on_in {A K} `{EqDecision K} (key : A → K) seen l x : x ∈ dedup_on key seen l → x ∈ l.
Proof.
  revert seen. induction l as [|y l IH]; intros seen; simpl; [done|].
  case_decide; rewrite ?elem_of_cons; naive_solver.
Qed.

Lemma dedup_on_covers {A K} `{EqDecision K} (key : A → K) seen l x :
  x ∈ l → key x ∈ seen ∨ ∃ y, y ∈ dedup_on key seen l ∧ key y = key x.
Proof.
  revert seen. induction l as [|y l IH]; intros seen; simpl; [by intros ?%elem_of_nil|].
  rewrite elem_of_cons. intros [->|Hx].
  - case_decide; [by left|]. right. exists y. split; [left|done].
  - case_decide as Hy.
    + by apply IH.
    + destruct (IH (key y :: seen) Hx) as [[->|?]%elem_of_cons|(z & Hz & Ez)]; [|by left|].
      * right. exists y. split; [left|done].
      * right. exists z. split; [by right|done].
Qed.

(** Removing duplicates commutes with a map that keeps the keys apart. *)
Lemma dedup_on_fmap {A B K K'} `{EqDecision K} `{EqDecision K'} (key : A → K) (key' : B → K') (f : A → B)
    (P : A → Prop) seen seen' l :
  (∀ x y, P x → P y → key x = key y ↔ key' (f x) = key' (f y)) →
  Forall P l → Forall P seen →
  seen' = (λ x, key' (f x)) <$> seen →
  dedup_on key' seen' (f <$> l) = f <$> dedup_on key (key <$> seen) l.
Proof.
  intros Hk Hl. revert seen seen'. induction Hl as [|x l Hx _ IH]; intros seen seen' Hs ->; csimpl; [done|].
  assert (key' (f x) ∈ (λ x, key' (f x)) <$> seen ↔ key x ∈ key <$> seen) as Hin.
  { rewrite !list_elem_of_fmap. rewrite Forall_forall in Hs.
    split; intros (y & E & Hy); exists y; (split; [|done]); by apply Hk; auto. }
  case_decide; case_decide; try tauto.
  - by apply IH.
  - csimpl. f_equal. apply (IH (x :: seen)); [by constructor|done].
Qed.

(** Removing duplicates by a key that identifies the elements. *)
Lemma dedup_on_id {A K} `{EqDecision A} `{EqDecision K} (key : A → K) (P : A → Prop) l :
  (∀ x y, P x → P y → x = y ↔ key x = key y) → Forall P l → dedup_on key [] l = dedup_on id [] l.
Proof.
  intros Hk Hl. rewrite <- (list_fmap_id l) at 1. rewrite <- (list_fmap_id (dedup_on id [] l)).
  by apply (dedup_on_fmap id key id P [] []).
Qed.

(** The rows of a query before DISTINCT, with and without witnesses. *)
Definition raw_prov op_sem cat (tabs : list (list row)) (q : Query) : list row :=
  (λ e, (targets op_sem fst q e, witness q e)) <$> solve_prov op_sem cat tabs q.
Definition raw_plain op_sem cat (tabs : list (list tuple)) (q : Query) : list tuple :=
  targets op_sem id q <$> solve_plain op_sem cat tabs q.

Lemma raw_prov_length op_sem cat tabs q :
  Forall (λ p, length p.1 = length (targetList q)) (raw_prov op_sem cat tabs q).
Proof. apply Forall_fmap, Forall_true. intros e. apply targets_length. Qed.

Lemma raw_plain_length op_sem cat tabs q :
  Forall (λ t, length t = length (targetList q)) (raw_plain op_sem cat tabs q).
Proof. apply Forall_fmap, Forall_true. intros e. apply targets_length. Qed.

Definition dedup_if {A} `{EqDecision A} (q : Query) (l : list A) : list A :=
  match distinctClause q with [] => l | _ => dedup_on id [] l end.

(** Without hidden columns all columns are part of the result. *)
Lemma out_width_all q : Forall (λ te, resjunk te = false) (targetList q) → out_width q = length (targetList q).
Proof. intros H. unfold out_width. f_equal. induction H; [done|]. rewrite filter_cons_True by done. congruence. Qed.

(** The equations of the evaluation. *)
Lemma evalProv_unfold op_sem cat db q :
  evalProv op_sem cat db q =
    body_prov op_sem cat (map (evalRTE op_sem cat db) (rtable q)) (map (evalProvRTE op_sem cat db) (rtable q)) q.
Proof. by destruct q. Qed.

Lemma evalQuery_unfold op_sem cat db q :
  evalQuery op_sem cat db q =
    limited op_sem q (visible q <$> distinct q (distinct_key q) (body op_sem cat (map (evalRTE op_sem cat db) (rtable q)) q)).
Proof. by destruct q. Qed.

Lemma prov_width_unfold cat q : prov_width cat q = sum_list (map (rte_prov_width cat) (rtable q)).
Proof. by destruct q. Qed.

(** No grouping or set operation, and no LIMIT. *)
Definition select (q : Query) : Prop := setOperations q = None ∧ grouped q = false.
Definition plain_select (q : Query) : Prop :=
  setOperations q = None ∧ grouped q = false ∧ limitOffset q = None ∧ limitCount q = None.

Lemma spj_select cat q : spj_query cat q → select q.
Proof. by intros []. Qed.

Lemma spj_limit_spec cat q : spj_query cat q → limit_ok q = true.
Proof. intros Hq. pose proof (spj_limit _ _ Hq) as H. unfold spj_limit_ok in H. by checks. Qed.

(** A limit on rows with several witnesses. *)
Lemma spj_joins_spec cat q :
  spj_query cat q → limit_joins q = true →
  no_setops q = true ∧ Forall (λ te, comparable_te cat te = true) (targetList q).
Proof.
  intros Hq. pose proof (spj_limit _ _ Hq) as H. unfold spj_limit_ok in H. unfold limit_joins. intros. checks.
  repeat match goal with H : _ || _ = true |- _ => apply orb_true_iff in H as [H|H] end; checks; try congruence. done.
Qed.

Lemma limited_none op_sem {A} q (l : list A) : limitOffset q = None → limitCount q = None → limited op_sem q l = l.
Proof. unfold limited. by intros -> ->. Qed.

Lemma limited_fmap op_sem {A B} (f : A → B) q l : limited op_sem q (f <$> l) = f <$> limited op_sem q l.
Proof. unfold limited. destruct (limitOffset q ≫= _), (limitCount q ≫= _); by rewrite ?fmap_take, ?fmap_drop. Qed.

Lemma limited_in op_sem {A} q (l : list A) x : x ∈ limited op_sem q l → x ∈ l.
Proof.
  unfold limited. assert (∀ n (k : list A), x ∈ take n k → x ∈ k) as H1 by (intros n k; apply subseteq_take).
  assert (∀ n (k : list A), x ∈ drop n k → x ∈ k) as H2 by (intros n k; apply subseteq_drop).
  destruct (limitOffset q ≫= _), (limitCount q ≫= _); eauto.
Qed.

Lemma limited_Forall op_sem {A} (P : A → Prop) q l : Forall P l → Forall P (limited op_sem q l).
Proof. rewrite !Forall_forall. intros H x Hx%limited_in. auto. Qed.

Lemma has_limit_none q : has_limit q = false ↔ limitOffset q = None ∧ limitCount q = None.
Proof. unfold has_limit. destruct (limitOffset q), (limitCount q); naive_solver. Qed.

Lemma spj_unlimited cat q : spj_query cat q → has_limit q = false → plain_select q.
Proof. intros Hq [Ho Hc]%has_limit_none. destruct (spj_select _ _ Hq). by split_and!. Qed.

(** With all columns visible and compared, a query is its rows, without duplicates. *)
Lemma prov_rows op_sem cat tabs q :
  Forall (shown q) (targetList q) →
  (λ p, (visible q p.1, p.2)) <$> distinct q (λ p, (distinct_key q p.1, p.2)) (raw_prov op_sem cat tabs q) =
    dedup_if q (raw_prov op_sem cat tabs q).
Proof.
  intros Ht. pose proof (raw_prov_length op_sem cat tabs q) as Hl. set (l := raw_prov _ _ _ _) in *.
  assert (∀ k : list row, (∀ p, p ∈ k → p ∈ l) → (λ p, (visible q p.1, p.2)) <$> k = k) as Hvis.
  { intros k Hk. rewrite <- (list_fmap_id k) at 2. apply list_fmap_ext. intros i [t w] Hi. cbn [fst snd].
    rewrite visible_all; [done..|]. rewrite Forall_forall in Hl. apply (Hl (t, w)), Hk.
    by eapply list_elem_of_lookup_2. }
  unfold distinct, dedup_if. destruct (distinctClause q) as [|d0 dc0] eqn:Ed; [by apply Hvis|].
  rewrite Hvis by (intros p; apply dedup_on_in).
  apply (dedup_on_id _ (λ p, length p.1 = length (targetList q))); [|done].
  intros [t w] [t' w'] H1 H2. cbn [fst snd] in *.
  rewrite !distinct_key_all by (done || by rewrite Ed). done.
Qed.

Lemma plain_rows op_sem cat tabs q :
  Forall (shown q) (targetList q) →
  visible q <$> distinct q (distinct_key q) (raw_plain op_sem cat tabs q) = dedup_if q (raw_plain op_sem cat tabs q).
Proof.
  intros Ht. pose proof (raw_plain_length op_sem cat tabs q) as Hl. set (l := raw_plain _ _ _ _) in *.
  assert (∀ k : list tuple, (∀ p, p ∈ k → p ∈ l) → visible q <$> k = k) as Hvis.
  { intros k Hk. rewrite <- (list_fmap_id k) at 2. apply list_fmap_ext. intros i t Hi. unfold id.
    apply visible_all; [done|]. rewrite Forall_forall in Hl. apply Hl, Hk.
    by eapply list_elem_of_lookup_2. }
  unfold distinct, dedup_if. destruct (distinctClause q) as [|d0 dc0] eqn:Ed; [by apply Hvis|].
  rewrite Hvis by (intros p; apply dedup_on_in).
  apply (dedup_on_id _ (λ t, length t = length (targetList q))); [|done].
  intros t t' H1 H2. by rewrite !distinct_key_all by (done || by rewrite Ed).
Qed.

Lemma evalQuery_select op_sem cat db q :
  select q → Forall (shown q) (targetList q) →
  evalQuery op_sem cat db q =
    limited op_sem q (dedup_if q (raw_plain op_sem cat (map (evalRTE op_sem cat db) (rtable q)) q)).
Proof.
  intros (Hs & Hg) Ht. rewrite evalQuery_unfold. unfold body. rewrite Hs, Hg. f_equal. by apply plain_rows.
Qed.

Lemma evalProv_select op_sem cat db q :
  select q → Forall (shown q) (targetList q) →
  evalProv op_sem cat db q =
    let rows := dedup_if q (raw_prov op_sem cat (map (evalProvRTE op_sem cat db) (rtable q)) q) in
    if limit_joins q then evalQuery op_sem cat db q ≫= λ t, pair t <$> matching Same t rows else limited op_sem q rows.
Proof.
  intros Hq Ht. rewrite evalQuery_select by done. destruct Hq as (Hs & Hg). rewrite evalProv_unfold. unfold body_prov.
  rewrite Hs, Hg. cbv zeta.
  pose proof (prov_rows op_sem cat (map (evalProvRTE op_sem cat db) (rtable q)) q Ht) as E1. unfold raw_prov in E1 at 1.
  pose proof (plain_rows op_sem cat (map (evalRTE op_sem cat db) (rtable q)) q Ht) as E2. unfold raw_plain in E2 at 1.
  by rewrite E1, E2.
Qed.

(** Without LIMIT. *)
Lemma evalProv_eq op_sem cat db q :
  plain_select q → Forall (shown q) (targetList q) →
  evalProv op_sem cat db q =
    dedup_if q (raw_prov op_sem cat (map (evalProvRTE op_sem cat db) (rtable q)) q).
Proof.
  intros (Hs & Hg & Hl) Ht. rewrite evalProv_select by done. cbv zeta. unfold limit_joins.
  rewrite (proj2 (has_limit_none q) Hl). apply limited_none; apply Hl.
Qed.

Lemma evalQuery_eq op_sem cat db q :
  plain_select q → Forall (shown q) (targetList q) →
  evalQuery op_sem cat db q =
    dedup_if q (raw_plain op_sem cat (map (evalRTE op_sem cat db) (rtable q)) q).
Proof. intros (Hs & Hg & Hl) Ht. rewrite evalQuery_select by done. apply limited_none; apply Hl. Qed.

(** The nesting of subqueries. *)
Fixpoint nesting (q : Query) : nat := S (max_list (map nesting_rte (rtable q)))
with nesting_rte (r : RangeTblEntry) : nat := match subquery r with Some q => nesting q | None => 0 end.

Lemma nesting_sub q r s : r ∈ rtable q → subquery r = Some s → (nesting s < nesting q)%nat.
Proof.
  intros Hr Hs. assert (nesting q = S (max_list (map nesting_rte (rtable q)))) as -> by (by destruct q).
  assert (nesting s = nesting_rte r) as -> by (destruct r; cbn in *; by subst).
  pose proof (max_list_elem_of_le (nesting_rte r) (map nesting_rte (rtable q))) as H. apply Nat.lt_succ_r, H. by apply list_elem_of_fmap_2.
Qed.

End Queries.
