(* ===== verification/ExtendSim.v ===== *)
(** * Evaluation over inputs with further columns

    The rows of FROM and WHERE of a query over rows of any kind correspond one by one to those of a query with the same FROM and WHERE over
    tables whose rows may have further columns at the end. *)

From Stdlib Require Import ZArith Lia.
From stdpp Require Import base strings numbers list sets gmap.
From S2P Require Import Prelude QueryTree SqlSemantics SqlFacts Queries.
Import QueryTree SqlSemantics SqlFacts Queries.

Module ExtendSim.

Lemma Forall2_with_r {A B} (P : A → B → Prop) (Q : B → Prop) l k :
  Forall2 P l k → Forall Q k → Forall2 (λ x y, P x y ∧ Q y) l k.
Proof. intros H. induction H; intros HQ; inversion HQ; constructor; auto. Qed.

Lemma attr_app n t u : (n ≤ Z.of_nat (length t))%Z → attr n (t ++ u) = attr n t.
Proof. intros Hn. unfold attr. case_decide; [|done]. by rewrite lookup_app_l by lia. Qed.

Section sim.
Context (op_sem : operators) (cat : syscache) (q q2 : Query) (Hq : from_ok cat q).
Context (Hfl : fromlist q2 = fromlist q) (Hqu : quals q2 = quals q).
Context {R : Type} (vals : R → tuple) (mk : tuple → R → R → R) (Hmk : ∀ t l r, vals (mk t l r) = t).
Context (rows : Z → list R) (null : Z → R) (tabs : list (list tuple)).

(** The further columns of the rows of an entry. *)
Context (X : Z → tuple → R → Prop).

Definition row_ext (i : Z) (t : tuple) (r : R) : Prop :=
  length (vals r) = width cat q i ∧ ∃ c, t = vals r ++ c ∧ X i c r.

Context (Hleaf : ∀ i, kind_at q i = Some RTE_RELATION ∨ kind_at q i = Some RTE_SUBQUERY →
  Forall2 (row_ext i) (default [] (rt_fetch i tabs)) (rows i) ∧ row_ext i (null_tuple cat q2 i) (null i)).
Context (Hjoin : ∀ J, kind_at q J = Some RTE_JOIN → aliases q2 J = aliases q J ∧ ∀ t l r, X J [] (mk t l r)).

Lemma row_ext_agree D e1 e2 :
  env_rel row_ext D e1 e2 →
  ∀ i n, i ∈ D → (1 ≤ n ≤ Z.of_nat (width cat q i))%Z → attr n (vals_of id e1 i) = attr n (vals_of vals e2 i).
Proof using Type.
  intros He i n Hi Hn. destruct (He i Hi) as [Hl (c & E & _)]. unfold vals_of. cbn. rewrite E. apply attr_app. lia.
Qed.

Lemma node_row_ext n :
  node_ok cat q n = true →
  node_sim op_sem id vals (λ t _ _, t) mk (λ i, default [] (rt_fetch i tabs)) rows (null_tuple cat q2) null
    (aliases q2) (aliases q) row_ext same_rows n.
Proof using Hleaf Hjoin Hmk.
  induction n as [i|jt l IHl r IHr c J]; cbn [node_ok node_sim].
  - intros Hk%bool_decide_eq_true_1. by apply Hleaf.
  - intros H. checks. split; [by apply IHl|]. split; [by apply IHr|]. intros e1 e2 He. split.
    + eapply eval_qual_agree; [eassumption|]. by apply row_ext_agree.
    + destruct (Hjoin J) as [Ea Hx]; [done|]. unfold bind_join, bind_row. rewrite !decide_True by done. rewrite Ea. split; rewrite Hmk.
      * rewrite length_fmap. unfold width, aliases, kind_at in *. destruct (rt_fetch J (rtable q)) as [rJ|]; [|done].
        unfold rte_width. by match goal with H : rtekind <$> Some rJ = _ |- _ => cbn in H; injection H as -> end.
      * exists []. split; [|apply Hx]. rewrite app_nil_r. apply list_fmap_ext. intros k v Hv.
        eapply eval_expr_agree; [|exact (row_ext_agree _ e1 e2 He)].
        match goal with H : Forall _ (aliases q J) |- _ => rewrite Forall_forall in H; apply (H v) end. by eapply list_elem_of_lookup_2.
Qed.

(** The rows of FROM and WHERE. *)
Lemma solve_ext :
  Forall2 (λ e1 e2, env_rel row_ext (scope q) e1 e2 ∧ e2 ∈ solve op_sem vals mk rows null (aliases q) q)
    (solve_plain op_sem cat tabs q2) (solve op_sem vals mk rows null (aliases q) q).
Proof using Hq Hfl Hqu Hleaf Hjoin Hmk.
  apply Forall2_with_r; [|by apply Forall_forall].
  unfold solve_plain, solve. rewrite Hfl, Hqu.
  apply (rel_filter (L := same_rows)).
  - apply (from_list_sim op_sem id vals (λ t _ _, t) mk _ rows _ _ _ _ row_ext same_rows (fromlist q) []).
    + pose proof (fo_nodes _ _ Hq) as Hn. eapply Forall_impl; [exact Hn|]. intros n. apply node_row_ext.
    + intros i Hi. by apply elem_of_nil in Hi.
  - intros e1 e2 He. eapply eval_qual_agree; [exact (fo_quals _ _ Hq)|]. by apply row_ext_agree.
Qed.

(** The columns of the original query. *)
Lemma targets_ext tes e1 e2 :
  env_rel row_ext (scope q) e1 e2 → Forall (λ te, expr_ok (width cat q) (scope q) (expr te) = true) tes →
  (λ te, eval_expr op_sem (vals_of id e1) (expr te)) <$> tes = (λ te, eval_expr op_sem (vals_of vals e2) (expr te)) <$> tes.
Proof using Type.
  intros He Ht. apply list_fmap_ext. intros k te Hte. eapply eval_expr_agree; [|exact (row_ext_agree _ e1 e2 He)].
  rewrite Forall_forall in Ht. apply Ht. by eapply list_elem_of_lookup_2.
Qed.

End sim.

End ExtendSim.
