(* ===== verification/ProvWitness.v ===== *)
(** * Witnesses refine results

    The evaluation with witnesses and the plain evaluation of a query agree: row by row for queries without
    DISTINCT, grouping and set operations, and as sets for all queries. *)

From Stdlib Require Import ZArith Lia.
From stdpp Require Import base strings numbers list sets.
From S2P Require Import Prelude AttrName QueryTree SqlSemantics SqlFacts Queries.
Import QueryTree SqlSemantics SqlFacts Queries.

Module ProvWitness.

Section forget.
Context (op_sem : operators) (cat : syscache) (db : Z → list tuple).
Context (L : ∀ A B : Type, (A → B → Prop) → list A → list B → Prop) `{!Relator L}.

Abbreviation evalQ := (evalQuery op_sem cat db).
Abbreviation evalR := (evalRTE op_sem cat db).
Abbreviation provQ := (evalProv op_sem cat db).
Abbreviation provR := (evalProvRTE op_sem cat db).

(** Forgetting the witness. *)
Definition values_of (p : row) (t : tuple) : Prop := p.1 = t.

(** Which queries [L] is good for. *)
Context (fit : Query → bool).
Context (fit_sub : ∀ q i r s, fit q = true → rt_fetch i (rtable q) = Some r → rtekind r = RTE_SUBQUERY →
  subquery r = Some s → fit s = true).
Context (fit_node : ∀ q, query_ok cat q = true →
  (agg_query cat q ∨ ∃ t, set_query cat q t) ∨ spj_query cat q ∧ has_limit q = true → fit q = true →
  (∀ i r, rt_fetch i (rtable q) = Some r → L _ _ values_of (provR r) (evalR r)) → L _ _ values_of (provQ q) (evalQ q)).
Context (fit_distinct : ∀ q (l : list row) (k : list tuple), fit q = true → distinctClause q ≠ [] →
  L _ _ values_of l k → L _ _ values_of (dedup_on id [] l) (dedup_on id [] k)).

Lemma values_agree D w (e1 : Z → row) (e2 : Z → tuple) :
  env_rel (λ _, values_of) D e1 e2 →
  ∀ i n, i ∈ D → (1 ≤ n ≤ Z.of_nat (w i))%Z → attr n (vals_of fst e1 i) = attr n (vals_of id e2 i).
Proof. intros He i n Hi _. unfold vals_of. by rewrite (He i Hi). Qed.

Lemma node_sim_forget q n :
  node_ok cat q n = true →
  (∀ i r, rt_fetch i (rtable q) = Some r → L _ _ values_of (provR r) (evalR r)) →
  node_sim op_sem fst id join_row (λ t _ _, t)
    (λ i, default [] (rt_fetch i (map provR (rtable q)))) (λ i, default [] (rt_fetch i (map evalR (rtable q))))
    (null_row cat q) (null_tuple cat q) (aliases q) (aliases q) (λ _, values_of) L n.
Proof.
  intros Hn Hr. induction n as [i|jt l IHl r IHr c J]; simpl in Hn |- *.
  - rewrite !rt_fetch_map. unfold null_row, null_tuple.
    destruct (rt_fetch i (rtable q)) as [rte|] eqn:E; cbn; [split; [by eapply Hr|done]|].
    split; [apply rel_nil|done].
  - repeat rewrite andb_true_iff in Hn. destruct Hn as ((((Hl & Hr') & _) & Hc) & Ha).
    split; [by apply IHl|]. split; [by apply IHr|]. intros e1 e2 He.
    pose proof (values_agree _ (width cat q) e1 e2 He) as Hag. split.
    + by eapply eval_qual_agree.
    + unfold bind_join, bind_row, values_of. rewrite !decide_True by done. cbn [fst join_row].
      apply list_fmap_ext. intros k v Hv. apply forallb_Forall in Ha. rewrite Forall_forall in Ha.
      eapply (eval_expr_agree op_sem); [|exact Hag]. apply (Ha v). by eapply list_elem_of_lookup_2.
Qed.

Lemma rel_refl {A} (P : A → A → Prop) l : (∀ x, P x x) → L A A P l l.
Proof.
  intros HP. induction l as [|x l IH]; [apply rel_nil|].
  change (x :: l) with ([x] ++ l). apply rel_app; [by apply rel_single|done].
Qed.

(** The rows before DISTINCT. *)
Lemma raw_forget q :
  spj_query cat q →
  (∀ i r, rt_fetch i (rtable q) = Some r → L _ _ values_of (provR r) (evalR r)) →
  L _ _ values_of (raw_prov op_sem cat (map provR (rtable q)) q)
                  (raw_plain op_sem cat (map evalR (rtable q)) q).
Proof.
  intros [_ _ _ _ _ _ Ht [_ Hn Hq _ Hrt]] Hr.
  apply (rel_fmap L (env_rel (λ _, values_of) (scope q))).
  - unfold solve_prov, solve_plain, solve. apply rel_filter.
    + apply (from_list_sim op_sem fst id join_row (λ t _ _, t) _ _ _ _ _ _ _ L (fromlist q) []).
      * eapply Forall_impl; [exact Hn|]. intros n Hnn. exact (node_sim_forget q n Hnn Hr).
      * intros i Hi. by apply elem_of_nil in Hi.
    + intros e1 e2 He. eapply eval_qual_agree; [exact Hq|]. by apply values_agree.
  - intros e1 e2 He. unfold values_of. cbn [fst]. unfold targets. apply list_fmap_ext. intros k te Hk.
    rewrite Forall_forall in Ht. specialize (Ht te ltac:(by eapply list_elem_of_lookup_2)).
    unfold te_ok in Ht. rewrite !andb_true_iff in Ht. destruct Ht as [[_ Ht] _].
    eapply eval_expr_agree; [exact Ht|]. by apply values_agree.
Qed.

Lemma evalProv_forget q : query_ok cat q = true → fit q = true → L _ _ values_of (provQ q) (evalQ q).
Proof.
  revert q. apply (Query_tree_ind
    (λ q, query_ok cat q = true → fit q = true → L _ _ values_of (provQ q) (evalQ q))
    (λ r, ∀ q i, rte_ok cat r = true → fit q = true → rt_fetch i (rtable q) = Some r →
      L _ _ values_of (provR r) (evalR r))).
  - intros ct ha hs rt IH fl qs tl gc hv dc sc lo lc so pr sr Hs Hf.
    set (q := mkQuery ct ha hs rt fl qs tl gc hv dc sc lo lc so pr sr) in *.
    pose proof Hs as Hok. apply query_ok_spec in Hs as [Hrt Hs]. apply list_all_Forall in IH.
    assert (∀ i r, rt_fetch i (rtable q) = Some r → L _ _ values_of (provR r) (evalR r)) as Hsub.
    { intros i r Hi. eapply (rt_fetch_Forall _ _ _ _ IH); [exact Hi|..|exact Hf|exact Hi]. by eapply (rt_fetch_Forall _ _ _ _ Hrt). }
    destruct Hs as [Hs|Hs]; [|apply fit_node; by auto]. pose proof (spj_targets _ _ Hs) as Ht.
    destruct (has_limit q) eqn:Hlim; [apply fit_node; by auto|].
    rewrite evalProv_eq, evalQuery_eq by (by eapply spj_unlimited || by eapply te_ok_shown).
    pose proof (raw_forget q Hs Hsub) as Hraw.
    unfold dedup_if. destruct (distinctClause q) eqn:Ed; [done|].
    apply (fit_distinct q); [done|by rewrite Ed|done].
  - intros k rel sub IH ft vt jt av al er pb pa q i Hr Hf Hi.
    pose proof (rte_ok_spec cat _ Hr) as (_ & _ & _ & _ & [(Hk & _)|[(Hk & s & Hs & Hsp)|Hk]]);
      cbn [rtekind subquery] in *; subst.
    + cbn. rewrite <- (list_fmap_id (db rel)) at 2.
      apply (rel_fmap L (=)); [by apply rel_refl|]. by intros ? ? ->.
    + cbn. apply option_all_Some in IH. apply IH; [done|]. by eapply fit_sub.
    + cbn. apply rel_nil.
Qed.

End forget.

(** ** Set operations and groups *)

Lemma elem_of_dedup {A} `{EqDecision A} (l : list A) x : x ∈ dedup_on id [] l ↔ x ∈ l.
Proof.
  split; [apply dedup_on_in|]. intros Hx.
  destruct (dedup_on_covers id [] l x Hx) as [?%elem_of_nil|(y & Hy & E)]; [done|]. cbn in E. by subst.
Qed.

Lemma elem_of_remove_one t l x : x ∈ remove_one t l → x ∈ l.
Proof. induction l as [|y l IH]; cbn; [done|]. case_decide; rewrite !elem_of_cons; tauto. Qed.

Lemma bag_intersect_in l r t : t ∈ bag_intersect l r → t ∈ l ∧ t ∈ r.
Proof.
  revert r. induction l as [|x l IH]; intros r; cbn; [by intros ?%elem_of_nil|]. rewrite elem_of_cons. case_decide.
  - rewrite elem_of_cons. intros [->|[H1 H2]%IH]; [auto|]. split; [auto|]. by eapply elem_of_remove_one.
  - intros []%IH. auto.
Qed.

Lemma bag_except_in l r t : t ∈ bag_except l r → t ∈ l.
Proof.
  revert r. induction l as [|x l IH]; intros r; cbn; [done|]. rewrite elem_of_cons. case_decide; [by intros ?%IH; auto|].
  rewrite elem_of_cons. intros [->|?%IH]; auto.
Qed.

(** A row of an intersection is in both arguments, a row of a difference in the left one. *)
Lemma setop_in op all l r t :
  t ∈ setop op all l r → match op with
                         | SETOP_UNION => True
                         | SETOP_INTERSECT => t ∈ l ∧ t ∈ r
                         | SETOP_EXCEPT => t ∈ l
                         end.
Proof.
  destruct op, all; cbn; try done; [apply bag_intersect_in| |apply bag_except_in|];
    rewrite elem_of_dedup, list_elem_of_filter; tauto.
Qed.

Lemma elem_of_attach optional w ws acc :
  acc ≠ [] → (optional = true ∨ ws ≠ []) → attach optional w ws acc ≠ [].
Proof.
  unfold attach. destruct acc as [|u acc]; [done|]. intros _ [->|Hw]; [by destruct ws|]. by destruct ws.
Qed.

(** There is a witness if the inputs that are not optional have a row for it. *)
Lemma witnesses_exist steps (inputs : list operand) t (acc : list tuple) :
  acc ≠ [] →
  Forall (λ p : (bool * match_kind) * operand, p.1.1 = true ∨ matching p.1.2 t p.2.1 ≠ []) (zip steps inputs) →
  foldl (λ acc (p : (bool * match_kind) * operand), attach p.1.1 p.2.2 (matching p.1.2 t p.2.1) acc) acc (zip steps inputs) ≠ [].
Proof.
  intros Hacc H. revert acc Hacc. induction H as [|p l Hp _ IH]; intros acc Hacc; cbn [foldl]; [done|].
  apply IH. by apply elem_of_attach.
Qed.

Lemma matching_same (l : list row) t : t ∈ fst <$> l → matching Same t l ≠ [].
Proof.
  intros (p & -> & Hp)%list_elem_of_fmap. unfold matching. intros E%fmap_nil_inv.
  assert (p ∈ filter (λ q : row, q.1 = p.1) l) as H by by apply list_elem_of_filter.
  rewrite E in H. by apply elem_of_nil in H.
Qed.

Lemma operands_except tabs inputs t : ∃ o, operands tabs inputs SETOP_EXCEPT t = [o].
Proof. destruct t as [i|op all l r]; cbn [operands]; [by eexists|]. rewrite decide_False by naive_solver. by eexists. Qed.

(** A row of a set operation has a witness. *)
Lemma set_witnesses_exist tabs inputs t :
  (∀ i v, v ∈ default [] (rt_fetch i tabs) → v ∈ fst <$> (default ([], 0) (rt_fetch i inputs)).1) →
  (∀ op v o, op ≠ SETOP_UNION → v ∈ eval_setop tabs t → o ∈ operands tabs inputs op t → v ∈ fst <$> o.1) ∧
  match t with
  | SetOpRef _ => True
  | SetOperationStmt op all l r => ∀ v, v ∈ eval_setop tabs t →
      set_witnesses op all (operands tabs inputs op l ++ operands tabs inputs op r) v ≠ []
  end.
Proof.
  intros Hin. induction t as [i|op all l [IHl _] r [IHr _]].
  { split; [|done]. cbn. intros op v o _ Hv ->%list_elem_of_singleton. by apply Hin. }
  assert (∀ v, v ∈ eval_setop tabs (SetOperationStmt op all l r) →
    set_witnesses op all (operands tabs inputs op l ++ operands tabs inputs op r) v ≠ []) as Hw.
  { intros v Hv. apply setop_in in Hv. apply witnesses_exist; [done|].
    apply Forall_forall. intros [[b k] o] Hp. destruct op; cbn [set_steps] in Hp.
    - apply elem_of_zip_l, elem_of_replicate in Hp as [[= -> ->] _]. by left.
    - pose proof (elem_of_zip_r _ _ _ _ Hp) as Ho. apply elem_of_zip_l, elem_of_replicate in Hp as [[= -> ->] _].
      right. apply matching_same. apply elem_of_app in Ho as [Ho|Ho]; [eapply IHl|eapply IHr]; try exact Ho; by try apply Hv.
    - destruct (operands_except tabs inputs l) as [a Ea], (operands_except tabs inputs r) as [c Ec].
      rewrite Ea, Ec in Hp. cbn in Hp. rewrite !elem_of_cons, elem_of_nil in Hp.
      destruct Hp as [[= -> -> ->]|[[= -> -> ->]|[]]]; [|by left]. right. apply matching_same.
      eapply (IHl SETOP_EXCEPT); [done|done|]. rewrite Ea. by left. }
  split; [|done]. intros op' v o Hne Hv. cbn [operands]. case_decide as Hm.
  - destruct Hm as [-> Hm]. apply setop_in in Hv. destruct op'; [done| |done]. rewrite elem_of_app.
    intros [Ho|Ho]; [by eapply IHl; [|apply Hv|]|by eapply IHr; [|apply Hv|]].
  - intros ->%list_elem_of_singleton. cbn [fst]. specialize (Hw v Hv).
    destruct (set_witnesses op all _ v) as [|w ws] eqn:Ew; [done|].
    apply list_elem_of_fmap. exists (v, w). split; [done|]. apply list_elem_of_bind. exists v. split; [|done].
    rewrite Ew. by left.
Qed.

Lemma agg_grouped cat q : agg_query cat q → grouped q = true.
Proof. intros H. unfold grouped. by rewrite (agg_aggs _ _ H). Qed.

Lemma set_shown cat q t : set_query cat q t → Forall (shown q) (targetList q).
Proof.
  intros H. eapply Forall_impl; [exact (set_targets _ _ _ H)|]. intros te Hte. unfold set_te_ok in Hte. checks.
  split; [done|]. by rewrite (set_distinct _ _ _ H).
Qed.

Lemma visible_length q t : length t = length (targetList q) → length (visible q t) = out_width q.
Proof.
  unfold visible, out_width. rewrite length_fmap. revert t. induction (targetList q) as [|te tl IH]; intros [|v t]; try done.
  intros [= Hlen]. cbn [zip_with]. rewrite !filter_cons. cbn [fst]. case_decide; cbn; by rewrite IH.
Qed.

Lemma agg_rows_length op_sem q es t : t ∈ agg_rows op_sem q es → length t = length (targetList q).
Proof. intros (g & -> & _)%list_elem_of_fmap. apply length_fmap. Qed.

(** The rows of a set operation are rows of its inputs. *)
Lemma eval_setop_in tabs t v : v ∈ eval_setop tabs t → ∃ i tab, rt_fetch i tabs = Some tab ∧ v ∈ tab.
Proof.
  induction t as [i|op all l IHl r IHr]; cbn.
  - destruct (rt_fetch i tabs) as [tab|] eqn:E; [|by intros ?%elem_of_nil]. by exists i, tab.
  - assert (v ∈ setop op all (eval_setop tabs l) (eval_setop tabs r) → v ∈ eval_setop tabs l ∨ v ∈ eval_setop tabs r) as H.
    { intros Hv. pose proof (setop_in _ _ _ _ _ Hv) as H'. destruct op; [|tauto|tauto].
      destruct all; cbn in Hv; rewrite ?elem_of_dedup in Hv; by apply elem_of_app. }
    intros [?|?]%H; auto.
Qed.

(** Rows are as wide as the query says. *)
Lemma evalQuery_width op_sem cat db q :
  query_ok cat q = true → Forall (λ t, length t = out_width q) (evalQuery op_sem cat db q).
Proof.
  revert q. apply (Query_tree_ind
    (λ q, query_ok cat q = true → Forall (λ t, length t = out_width q) (evalQuery op_sem cat db q))
    (λ r, rte_ok cat r = true → rtekind r = RTE_SUBQUERY →
      Forall (λ t, length t = rte_width cat r) (evalRTE op_sem cat db r))).
  - intros ct ha hs rt IH fl qs tl gc hv dc sc lo lc so pr sr Hs.
    set (q := mkQuery ct ha hs rt fl qs tl gc hv dc sc lo lc so pr sr) in *.
    apply query_ok_spec in Hs as [Hrt Hs]. apply list_all_Forall in IH.
    rewrite evalQuery_unfold. apply limited_Forall, Forall_fmap.
    assert (Forall (λ t, length t = length (targetList q)) (body op_sem cat (map (evalRTE op_sem cat db) (rtable q)) q)) as Hb.
    { apply Forall_forall. intros t Ht. unfold body in Ht. destruct Hs as [Hs|[Hs|[T Hs]]].
      - rewrite (spj_setops _ _ Hs), (spj_grouped _ _ Hs) in Ht. apply list_elem_of_fmap in Ht as (e & -> & _). apply targets_length.
      - rewrite (agg_setops _ _ Hs), (agg_grouped _ _ Hs) in Ht. by eapply agg_rows_length.
      - rewrite (set_tree _ _ _ Hs) in Ht. apply eval_setop_in in Ht as (i & tab & Hi & Ht).
        rewrite rt_fetch_map in Hi. destruct (rt_fetch i (rtable q)) as [r|] eqn:E; [|done]. injection Hi as <-.
        pose proof (rt_fetch_Forall _ _ _ _ (set_inputs _ _ _ Hs) E) as Hin. unfold set_input_ok in Hin. checks.
        pose proof (rt_fetch_Forall _ _ _ _ IH E (rt_fetch_Forall _ _ _ _ Hrt E) ltac:(done)) as HF.
        rewrite Forall_forall in HF. rewrite (HF t Ht). done. }
    rewrite Forall_forall in Hb |- *. intros t Ht. apply visible_length, Hb.
    unfold distinct in Ht. destruct (distinctClause q); [done|]. by eapply dedup_on_in.
  - intros k rel sub IH ft vt jt av al er pb pa Hr Hk. cbn in Hk. subst k.
    pose proof (rte_ok_spec cat _ Hr) as (_ & _ & _ & _ & [(Hk & _)|[(Hk & s & Hs & Hsp)|Hk]]); try done.
    cbn in Hs. subst sub. apply option_all_Some in IH. by apply IH.
Qed.

(** The rows of a set operation have a value for every target entry. *)
Lemma set_rows_width op_sem cat db q t v :
  set_query cat q t → v ∈ eval_setop (map (evalRTE op_sem cat db) (rtable q)) t → length v = length (targetList q).
Proof.
  intros Hq (i & tab & Hi & Hv)%eval_setop_in. rewrite rt_fetch_map in Hi.
  destruct (rt_fetch i (rtable q)) as [r|] eqn:E; [|done]. injection Hi as <-.
  pose proof (rt_fetch_Forall _ _ _ _ (set_inputs _ _ _ Hq) E) as Hin. unfold set_input_ok in Hin. checks.
  pose proof (rte_ok_spec cat _ (rt_fetch_Forall _ _ _ _ (set_rtes _ _ _ Hq) E)) as (_ & _ & _ & _ & [(? & _)|[(Hk & s & Hs & Hsp)|?]]);
    try congruence.
  pose proof (evalQuery_width op_sem cat db s Hsp) as HF. rewrite Forall_forall in HF.
  destruct r. cbn in Hk, Hs. subst. cbn in *. rewrite HF by done. done.
Qed.

(** LIMIT on rows with one witness each. *)
Lemma same_limited op_sem cat db q :
  spj_query cat q → single_witness q = true →
  (∀ i r, rt_fetch i (rtable q) = Some r → same_rows _ _ values_of (evalProvRTE op_sem cat db r) (evalRTE op_sem cat db r)) →
  same_rows _ _ values_of (evalProv op_sem cat db q) (evalQuery op_sem cat db q).
Proof.
  intros Hq Hd Hsub. pose proof (spj_targets _ _ Hq) as Ht.
  rewrite evalProv_select, evalQuery_select by (by eapply spj_select || by eapply te_ok_shown). cbv zeta.
  unfold limit_joins. rewrite Hd, andb_false_r.
  assert (distinctClause q = []) as Hdc by (destruct q; cbn in Hd |- *; by checks).
  unfold dedup_if. rewrite Hdc. pose proof (raw_forget op_sem cat db same_rows q Hq Hsub) as H. revert H.
  unfold limited, same_rows. intros H. destruct (limitOffset q ≫= _), (limitCount q ≫= _); auto using Forall2_take, Forall2_drop.
Qed.

(** Row by row for queries without DISTINCT, grouping and set operations. *)
Lemma evalProv_values op_sem cat db q :
  query_ok cat q = true → single_witness q = true → fst <$> evalProv op_sem cat db q = evalQuery op_sem cat db q.
Proof.
  intros Hs Hd.
  assert (same_rows _ _ values_of (evalProv op_sem cat db q) (evalQuery op_sem cat db q)) as H.
  { apply (evalProv_forget op_sem cat db same_rows single_witness); [| | |done..].
    - intros q' i r s Hq Hr Hk Hsub. destruct q'. cbn in Hq. checks.
      match goal with H : Forall _ _ |- _ => pose proof (rt_fetch_Forall _ _ _ _ H Hr) as Hr' end. destruct r. cbn in *. by subst.
    - intros q' _ [Hq'|[Hq' Hl]] Hq Hsub; [exfalso|by apply same_limited].
      destruct q'. cbn [single_witness] in Hq. checks. destruct Hq' as [Hq'|[t Hq']].
      + apply agg_grouped in Hq'. congruence.
      + pose proof (set_tree _ _ _ Hq'). cbn in *. congruence.
    - intros q' l k Hq Hne. destruct q' as [???????? ? dc]. cbn in *. checks. by subst. }
  induction H as [|p t l k Hpt _ IH]; csimpl; [done|]. by rewrite Hpt, IH.
Qed.

Lemma covers_dedup {A B} `{EqDecision A} `{EqDecision B} (P : A → B → Prop) l k :
  covers _ _ P l k → covers _ _ P (dedup_on id [] l) (dedup_on id [] k).
Proof. intros [H1 H2]. split; setoid_rewrite elem_of_dedup; auto. Qed.

(** Rows with at least one witness each. *)
Lemma covers_bind op_sem {A} q (rows : list A) (f : A → tuple) (ws : A → list tuple) :
  (∀ t, t ∈ rows → ws t ≠ []) →
  covers _ _ values_of (limited op_sem q rows ≫= λ t, pair (f t) <$> ws t) (limited op_sem q (f <$> rows)).
Proof.
  intros Hw. rewrite limited_fmap. split.
  - intros p (t & (w & -> & _)%list_elem_of_fmap & Ht)%list_elem_of_bind. exists (f t). split; [|done].
    by apply list_elem_of_fmap_2.
  - intros v (t & -> & Ht)%list_elem_of_fmap. pose proof (Hw t (limited_in _ _ _ _ Ht)) as Hne.
    destruct (ws t) as [|w k] eqn:E; [done|]. exists (f t, w). split; [|done].
    apply list_elem_of_bind. exists t. split; [|done]. rewrite E. by left.
Qed.

Lemma covers_agg op_sem cat db q :
  agg_query cat q → covers _ _ values_of (evalProv op_sem cat db q) (evalQuery op_sem cat db q).
Proof.
  intros Hq. pose proof (agg_grouped _ _ Hq) as Hg. rewrite evalProv_unfold, evalQuery_unfold. unfold body_prov, body, distinct.
  rewrite (agg_setops _ _ Hq), (agg_distinct _ _ Hq), Hg. apply covers_bind. intros t _.
  apply elem_of_attach; [done|by left].
Qed.

Lemma rt_fetch_zip {A B} i (l : list A) (k : list B) x y :
  rt_fetch i l = Some x → rt_fetch i k = Some y → rt_fetch i (zip l k) = Some (x, y).
Proof. unfold rt_fetch. case_decide; [|done]. intros H1 H2. by rewrite lookup_zip_with, H1, H2. Qed.

(** The result of a set operation. *)
Lemma evalQuery_set op_sem cat db q t :
  set_query cat q t →
  evalQuery op_sem cat db q = limited op_sem q (eval_setop (map (evalRTE op_sem cat db) (rtable q)) t).
Proof.
  intros Hq. rewrite evalQuery_unfold. unfold body, distinct. rewrite (set_tree _ _ _ Hq), (set_distinct _ _ _ Hq).
  f_equal. rewrite <- (list_fmap_id (eval_setop _ _)) at 2. apply list_fmap_ext. intros k v Hv%list_elem_of_lookup_2.
  apply visible_all; [by eapply set_shown|by eapply set_rows_width].
Qed.

Lemma covers_set op_sem cat db q t :
  set_query cat q t →
  (∀ i r, rt_fetch i (rtable q) = Some r →
    covers _ _ values_of (evalProvRTE op_sem cat db r) (evalRTE op_sem cat db r)) →
  covers _ _ values_of (evalProv op_sem cat db q) (evalQuery op_sem cat db q).
Proof.
  intros Hq Hr. pose proof (set_stmt _ _ _ Hq) as (op & all & l & r & ->).
  rewrite evalProv_unfold, (evalQuery_set _ _ _ _ _ Hq). unfold body_prov. rewrite (set_tree _ _ _ Hq).
  set (tabs := map (evalRTE op_sem cat db) (rtable q)). set (T := SetOperationStmt op all l r) in *.
  rewrite <- (list_fmap_id (eval_setop tabs T)) at 2.
  apply covers_bind. unfold id. intros v Hv.
  refine (proj2 (set_witnesses_exist tabs _ T _) v Hv). intros i u. unfold tabs. rewrite rt_fetch_map.
  destruct (rt_fetch i (rtable q)) as [rte|] eqn:E; [|by intros ?%elem_of_nil]. cbn [fmap option_fmap option_map default].
  rewrite (rt_fetch_zip i _ _ (evalProvRTE op_sem cat db rte) (rte_prov_width cat rte)) by by rewrite rt_fetch_map, E.
  intros Hu. destruct (Hr i rte E) as [_ H2]. destruct (H2 u Hu) as (p & Hp & <-). by apply list_elem_of_fmap_2.
Qed.

(** LIMIT keeps rows that have witnesses. *)
Lemma covers_limit op_sem cat db q :
  query_ok cat q = true → spj_query cat q →
  (∀ i r, rt_fetch i (rtable q) = Some r →
    covers _ _ values_of (evalProvRTE op_sem cat db r) (evalRTE op_sem cat db r)) →
  covers _ _ values_of (evalProv op_sem cat db q) (evalQuery op_sem cat db q).
Proof.
  intros Hok Hq Hsub. destruct (has_limit q && negb (single_witness q)) eqn:Hj.
  - pose proof (spj_targets _ _ Hq) as Ht.
    rewrite evalProv_select, evalQuery_select by (by eapply spj_select || by eapply te_ok_shown).
    unfold limit_joins. rewrite Hj. cbv zeta. pose proof (raw_forget op_sem cat db covers q Hq Hsub) as Hraw.
    set (l := dedup_if q (raw_prov _ _ _ _)). set (k := dedup_if q (raw_plain _ _ _ _)).
    assert (covers _ _ values_of l k) as [_ H2].
    { unfold l, k, dedup_if. destruct (distinctClause q); [done|]. by apply covers_dedup. }
    rewrite <- (list_fmap_id k) at 2. apply covers_bind. unfold id. intros t Hin.
    destruct (H2 t Hin) as (p & Hp & <-). by apply matching_same, list_elem_of_fmap_2.
  - destruct (has_limit q) eqn:Hl; cbn in Hj.
    + apply negb_false_iff in Hj. rewrite <- (evalProv_values op_sem cat db q Hok Hj). split.
      * intros p Hp. exists p.1. split; [by apply list_elem_of_fmap_2|done].
      * intros t (p & -> & Hp)%list_elem_of_fmap. by exists p.
    + rewrite evalProv_eq, evalQuery_eq by (by eapply spj_unlimited || by eapply te_ok_shown, (spj_targets _ _ Hq)).
      pose proof (raw_forget op_sem cat db covers q Hq Hsub). unfold dedup_if. destruct (distinctClause q); [done|].
      by apply covers_dedup.
Qed.

(** As sets, for all queries. *)
Lemma evalProv_covers op_sem cat db q :
  query_ok cat q = true → covers _ _ values_of (evalProv op_sem cat db q) (evalQuery op_sem cat db q).
Proof.
  intros Hs. apply (evalProv_forget op_sem cat db covers (λ _, true)); [done| | |done..].
  - intros q' Hok [[Hq|[t Hq]]|[Hq _]] _ Hsub; [by apply covers_agg|by eapply covers_set|by apply covers_limit].
  - intros _ l k _ _. apply covers_dedup.
Qed.

End ProvWitness.
