(* ===== verification/Sublevels.v ===== *)
(** * References to outer queries
      ([increaseSublevelsUpMutator] of [src/src/backend/provrewrite/sublink/prov_sublink_util_mutate.c])

    When the rewriter puts a query below a new node, references from it to queries further out
    cross one more level.  In a query that does not refer to outer queries nothing changes. *)

From Stdlib Require Import ZArith Lia.
From stdpp Require Import base strings numbers list.
From S2P Require Import Prelude AttrName QueryTree SqlSemantics SqlFacts Queries.
Import QueryTree SqlSemantics Queries.

Module Sublevels.

(** [context] is the number of levels that are inside the tree. *)
Fixpoint increase_expr (context : Z) (x : Expr) : Expr :=
  match x with
  | EVar v =>
      EVar (if decide (varlevelsup v > context)%Z
            then mkVar (varno v) (varattno v) (vartype v) (vartypmod v) (varlevelsup v + 1) (varnoold v) (varoattno v)
            else v)
  | EConst _ _ _ => x
  | EOpExpr op ty args => EOpExpr op ty (map (increase_expr context) args)
  | EBoolExpr b args => EBoolExpr b (map (increase_expr context) args)
  | EDistinctExpr op ty args => EDistinctExpr op ty (map (increase_expr context) args)
  | EAggref f ty args lv st d => EAggref f ty (map (increase_expr context) args) lv st d
  | EFuncExpr f ty c args => EFuncExpr f ty c (map (increase_expr context) args)
  | ERelabelType x ty tm c => ERelabelType (increase_expr context x) ty tm c
  | ENullTest t x => ENullTest t (increase_expr context x)
  | ECaseExpr ty args d =>
      ECaseExpr ty (map (increase_expr context) args)
        (match d with Some d => Some (increase_expr context d) | None => None end)
  | ECaseWhen c r => ECaseWhen (increase_expr context c) (increase_expr context r)
  end.

Fixpoint increase_node (context : Z) (n : Node) : Node :=
  match n with
  | RangeTblRef i => RangeTblRef i
  | JoinExpr jt l r q J =>
      JoinExpr jt (increase_node context l) (increase_node context r) (increase_expr context <$> q) J
  end.

Definition set_expr (x : Expr) (te : TargetEntry) : TargetEntry :=
  mkTE x (resno te) (resname te) (ressortgroupref te) (resorigtbl te) (resorigcol te) (resjunk te).

Definition increase_te (context : Z) (te : TargetEntry) : TargetEntry :=
  set_expr (increase_expr context (expr te)) te.

(** A query is one level further in than the node it hangs from; the columns of joins are skipped. *)
Fixpoint increaseSublevelsUp (context : Z) (q : Query) : Query :=
  let c := (context + 1)%Z in
  mkQuery (commandType q) (hasAggs q) (hasSubLinks q) (map (increase_rte c) (rtable q))
    (increase_node c <$> fromlist q) (increase_expr c <$> quals q) (increase_te c <$> targetList q)
    (groupClause q) (increase_expr c <$> havingQual q) (distinctClause q) (sortClause q)
    (increase_expr c <$> limitOffset q) (increase_expr c <$> limitCount q) (setOperations q)
    (provSublinkRewritten q) (shouldRewrite q)
with increase_rte (context : Z) (r : RangeTblEntry) : RangeTblEntry :=
  match rtekind r with
  | RTE_SUBQUERY =>
      set_subquery (match subquery r with Some q => Some (increaseSublevelsUp context q) | None => None end) r
  | _ => r
  end.

(** ** Queries without outer references

    [level0] also says that base relations have column names and that no entry is declared to be one. *)

Fixpoint expr0 (x : Expr) : bool :=
  match x with
  | EVar v => bool_decide (varlevelsup v = 0%Z)
  | EConst _ _ _ => true
  | EOpExpr _ _ args | EBoolExpr _ args | EDistinctExpr _ _ args | EAggref _ _ args _ _ _ | EFuncExpr _ _ _ args =>
      forallb expr0 args
  | ERelabelType x _ _ _ | ENullTest _ x => expr0 x
  | ECaseExpr _ args d => forallb expr0 args && match d with Some d => expr0 d | None => true end
  | ECaseWhen c r => expr0 c && expr0 r
  end.

Definition opt0 (x : option Expr) : bool := match x with None => true | Some x => expr0 x end.

Fixpoint node0 (n : Node) : bool :=
  match n with RangeTblRef _ => true | JoinExpr _ l r q _ => node0 l && node0 r && opt0 q end.

Fixpoint level0 (q : Query) : bool :=
  forallb node0 (fromlist q) && opt0 (quals q) && forallb (λ te, expr0 (expr te)) (targetList q) &&
  opt0 (havingQual q) && opt0 (limitOffset q) && opt0 (limitCount q) && forallb rte0 (rtable q)
with rte0 (r : RangeTblEntry) : bool :=
  negb (isProvBase r) &&
  match rtekind r with
  | RTE_SUBQUERY => match subquery r with Some q => level0 q | None => false end
  | RTE_RELATION => forallb (λ c, negb (is_none c)) (colnames (eref r))
  | _ => true
  end.

Lemma map_id_all {A} (f : A → A) (p : A → bool) l :
  list_all A (λ x, p x = true → f x = x) l → forallb p l = true → map f l = l.
Proof.
  induction 1 as [|x Hx l _ IH]; [done|]. cbn. rewrite andb_true_iff. intros [H1 H2]. by rewrite Hx, IH.
Qed.

Lemma increase_expr_id c x : (0 ≤ c)%Z → expr0 x = true → increase_expr c x = x.
Proof.
  intros Hc. induction x as [v|ty tm k|op ty args Hall|b args Hall|op ty args Hall|f ty args Hall lv st d|f ty k args Hall|
    x IH|t x IH|ty args Hall d IHd|x1 IH1 x2 IH2];
    cbn [increase_expr expr0]; try (intros H; by rewrite ?(map_id_all _ expr0), ?IH).
  - intros Hv%bool_decide_eq_true_1. rewrite decide_False by lia. done.
  - rewrite andb_true_iff. intros [H1 H2]. rewrite (map_id_all _ expr0) by done. destruct d as [d|]; [|done].
    apply option_all_Some in IHd. by rewrite IHd.
  - rewrite andb_true_iff. intros [H1 H2]. by rewrite IH1, IH2.
Qed.

Lemma increase_opt_id c x : (0 ≤ c)%Z → opt0 x = true → increase_expr c <$> x = x.
Proof. intros Hc. destruct x as [x|]; [|done]. cbn. intros H. by rewrite increase_expr_id. Qed.

Lemma increase_node_id c n : (0 ≤ c)%Z → node0 n = true → increase_node c n = n.
Proof.
  intros Hc. induction n as [i|jt l IHl r IHr q J]; [done|]. cbn. rewrite !andb_true_iff. intros [[H1 H2] H3].
  by rewrite IHl, IHr, increase_opt_id.
Qed.

Lemma fmap_id_Forall {A} (f : A → A) l : Forall (λ x, f x = x) l → f <$> l = l.
Proof. induction 1 as [|x l Hx _ IH]; csimpl; [done|]. by rewrite Hx, IH. Qed.

Lemma increase_id q c : (-1 ≤ c)%Z → level0 q = true → increaseSublevelsUp c q = q.
Proof.
  revert q c. apply (Query_tree_ind
    (λ q, ∀ c, (-1 ≤ c)%Z → level0 q = true → increaseSublevelsUp c q = q)
    (λ r, ∀ c, (0 ≤ c)%Z → rte0 r = true → increase_rte c r = r)).
  - intros ct ha hs rt IH fl qs tl gc hv dc sc lo lc so pr sr c Hc H. cbn in H. checks.
    apply list_all_Forall in IH. cbn.
    assert (map (increase_rte (c + 1)) rt = rt) as ->.
    { apply (fmap_id_Forall (increase_rte (c + 1))). rewrite Forall_forall in IH |- *. intros r Hr.
      apply IH; [done|lia|].
      match goal with H : Forall (λ _, rte0 _ = true) _ |- _ => rewrite Forall_forall in H; by apply H end. }
    rewrite !increase_opt_id, !fmap_id_Forall; try done; try lia.
    + eapply Forall_impl; [eassumption|]. intros te Hte. unfold increase_te. rewrite increase_expr_id by (done || lia).
      by destruct te.
    + eapply Forall_impl; [eassumption|]. intros n Hn. apply increase_node_id; [lia|done].
  - intros k rel sub IH ft vt jt av al er pb pa c Hc H. destruct k; try done. cbn in H |- *. checks.
    destruct sub as [q|]; [|done]. apply option_all_Some in IH. rewrite IH by (done || lia). done.
Qed.

(** ** Well-formed queries have no outer references *)

Lemma forallb_mono {A} (p p' : A → bool) l :
  list_all A (λ x, p x = true → p' x = true) l → forallb p l = true → forallb p' l = true.
Proof. induction 1 as [|x Hx l _ IH]; [done|]. cbn. rewrite !andb_true_iff. intros []. auto. Qed.

Lemma expr_ok_level0 w D x : expr_ok w D x = true → expr0 x = true.
Proof.
  induction x as [v|ty tm k|op ty args Hall|b args Hall|op ty args Hall|f ty args _ lv st d|f ty k args Hall| | | |]; cbn; try done;
    try by apply forallb_mono.
  - rewrite !andb_true_iff. by intros [[? _] _].
  - destruct k; [by apply forallb_mono|done..].
Qed.

Lemma exprs_ok_level0 w D l : forallb (expr_ok w D) l = true → forallb expr0 l = true.
Proof.
  induction l as [|x l IH]; [done|]. cbn. rewrite !andb_true_iff. intros [H1 H2].
  split; [by eapply expr_ok_level0|by apply IH].
Qed.

Lemma agg_ok_level0 w D x : agg_ok w D x = true → expr0 x = true.
Proof.
  induction x as [v|ty tm k|op ty args Hall|b args Hall|op ty args Hall|f ty args _ lv st d|f ty k args Hall| | | |];
    cbn [agg_ok expr0]; try done; try by apply forallb_mono.
  - apply expr_ok_level0.
  - rewrite andb_true_iff. intros [_ H]. by eapply exprs_ok_level0.
  - destruct k; [by apply forallb_mono|done..].
Qed.

Lemma qual_ok_level0 w D x : qual_ok w D x = true → opt0 x = true.
Proof. destruct x; [apply expr_ok_level0|done]. Qed.

Lemma node_ok_level0 cat q n : node_ok cat q n = true → node0 n = true.
Proof.
  induction n as [i|jt l IHl r IHr c J]; [done|]. cbn [node_ok node0]. intros H. checks.
  split; [split; auto|by eapply qual_ok_level0].
Qed.

Lemma limit_ok_level0 q : limit_ok q = true → opt0 (limitOffset q) = true ∧ opt0 (limitCount q) = true.
Proof. unfold limit_ok, const_ok. intros H. checks. destruct (limitOffset q) as [[]|], (limitCount q) as [[]|]; done. Qed.

Lemma Forall_forallb {A} (p : A → bool) l : Forall (λ x, p x = true) l → forallb p l = true.
Proof. induction 1 as [|x l Hx _ IH]; [done|]. cbn. by rewrite Hx, IH. Qed.

Lemma all_named {A} (l : list (option A)) : Forall is_Some l → forallb (λ c, negb (is_none c)) l = true.
Proof. intros H. apply Forall_forallb. eapply Forall_impl; [exact H|]. by intros c [x ->]. Qed.

Lemma level0_intro q :
  Forall (λ n, node0 n = true) (fromlist q) → opt0 (quals q) = true →
  Forall (λ te, expr0 (expr te) = true) (targetList q) → opt0 (havingQual q) = true →
  opt0 (limitOffset q) = true → opt0 (limitCount q) = true → Forall (λ r, rte0 r = true) (rtable q) → level0 q = true.
Proof.
  intros H1 H2 H3 H4 H5 H6 H7. destruct q. cbn in *. rewrite H2, H4, H5, H6.
  rewrite (Forall_forallb _ _ H1), (Forall_forallb _ _ H7), (Forall_forallb (λ te, expr0 (expr te)) _ H3). done.
Qed.

Lemma te_ok_level0 cat q te : te_ok cat q te = true → expr0 (expr te) = true.
Proof. unfold te_ok. intros H. checks. by eapply expr_ok_level0. Qed.

Lemma query_ok_level0 cat q : query_ok cat q = true → level0 q = true.
Proof.
  revert q. apply (Query_tree_ind (λ q, query_ok cat q = true → level0 q = true)
    (λ r, rte_ok cat r = true → rte0 r = true)).
  - intros ct ha hs rt IH fl qs tl gc hv dc sc lo lc so pr sr Hs.
    set (q := mkQuery ct ha hs rt fl qs tl gc hv dc sc lo lc so pr sr) in *.
    apply query_ok_spec in Hs as [Hrt Hs]. apply list_all_Forall in IH.
    assert (Forall (λ r, rte0 r = true) (rtable q)) as Hsub.
    { change rt with (rtable q) in IH. rewrite Forall_forall in IH, Hrt |- *. auto. }
    destruct Hs as [Hs|[Hs|[t Hs]]]; apply level0_intro; try done.
    + eapply Forall_impl; [apply (fo_nodes _ _ Hs)|]. apply node_ok_level0.
    + eapply qual_ok_level0, (fo_quals _ _ Hs).
    + eapply Forall_impl; [apply (spj_targets _ _ Hs)|]. apply te_ok_level0.
    + pose proof (spj_grouped _ _ Hs) as Hg. unfold grouped in Hg. rewrite !orb_false_iff in Hg.
      destruct (havingQual q); [by destruct Hg|done].
    + by eapply limit_ok_level0, spj_limit_spec.
    + by eapply limit_ok_level0, spj_limit_spec.
    + eapply Forall_impl; [apply (fo_nodes _ _ Hs)|]. apply node_ok_level0.
    + eapply qual_ok_level0, (fo_quals _ _ Hs).
    + eapply Forall_impl; [apply (agg_targets _ _ Hs)|]. intros te Hte. unfold agg_te_ok in Hte. checks.
      destruct (has_agg (expr te)); checks; [by eapply agg_ok_level0|by eapply expr_ok_level0].
    + pose proof (agg_having _ _ Hs) as Hh. destruct (havingQual q); [by eapply agg_ok_level0, Hh|done].
    + by eapply limit_ok_level0, (agg_limit _ _ Hs).
    + by eapply limit_ok_level0, (agg_limit _ _ Hs).
    + by rewrite (set_fromlist _ _ _ Hs).
    + by rewrite (set_quals _ _ _ Hs).
    + eapply Forall_impl; [apply (set_targets _ _ _ Hs)|]. intros te Hte. unfold set_te_ok in Hte. checks.
      destruct (expr te); try done. checks. destr_all. cbn. by apply bool_decide_eq_true.
    + pose proof (set_grouped _ _ _ Hs) as Hg. unfold grouped in Hg. rewrite !orb_false_iff in Hg.
      destruct (havingQual q); [by destruct Hg|done].
    + by eapply limit_ok_level0, (set_limit _ _ _ Hs).
    + by eapply limit_ok_level0, (set_limit _ _ _ Hs).
  - intros k rel sub IH ft vt jt av al er pb pa Hr.
    pose proof (rte_ok_spec cat _ Hr) as (Hb & _ & _ & _ & [(Hk & _ & _ & _ & Hn)|[(Hk & s & Hs & Hsp)|Hk]]);
      cbn [rtekind subquery isProvBase] in *; subst; [by apply all_named| |done]. apply option_all_Some in IH. by apply IH.
Qed.

Lemma rte_ok_level0 cat r : rte_ok cat r = true → rte0 r = true.
Proof.
  intros Hr. pose proof (rte_ok_spec cat _ Hr) as (Hb & _ & _ & _ & [(Hk & _ & _ & _ & Hn)|[(Hk & s & Hs & Hsp)|Hk]]);
    destruct r; cbn [rtekind subquery isProvBase] in *; subst; [by apply all_named| |done].
  by apply (query_ok_level0 cat).
Qed.

End Sublevels.
