(* ===== verification/RewriteSPJ.v ===== *)
(** * The provenance rewriter for select-project-join queries
      ([src/src/backend/provrewrite/main/prov_spj.c], the helpers of
       [src/src/backend/provrewrite/util/prov_util.c] and the column expansion of
       [src/src/backend/parser/parse_relation.c])

    The rewriter adds to every query node the attributes of the base relations it reads
    ("provenance attributes").  It communicates through [pStack]: rewriting a range table entry
    pushes the list of its provenance attributes, rewriting the query around it pops them.
    Queries are values here; the one place where the C code relies on sharing, the target entries that are
    in [targetList] and on [pStack] at once, is written out in [rewriteDistinctClause]. *)

From Stdlib Require Import ZArith Lia.
From stdpp Require Import base strings numbers list.
From S2P Require Import Prelude ProvStack AttrName QueryTree.
Import QueryTree.

Module RewriteSPJ.

(** The globals of the rewriter. *)
Record rewriter := mkRw {
  pStack : list (list TargetEntry);
  baseRelStackActive : bool;
  baseRelStack : list RangeTblEntry;
  refs : AttrName.counters;
  gens : ProvStack.name_gens }.

Abbreviation W := (M rewriter).

Definition push_pset (pList : list TargetEntry) : W unit :=
  modify (λ s, mkRw (pList :: pStack s) (baseRelStackActive s) (baseRelStack s) (refs s) (gens s)).

Definition set_pStack (st : list (list TargetEntry)) : W unit :=
  modify (λ s, mkRw st (baseRelStackActive s) (baseRelStack s) (refs s) (gens s)).

(** Run a function of prov_attrname.c on the reference counters. *)
Definition with_refs {A} (m : M AttrName.counters A) : W A := λ s,
  match m (refs s) with
  | Ok (a, c) => Ok (a, mkRw (pStack s) (baseRelStackActive s) (baseRelStack s) c (gens s))
  | Err e => Err e
  end.

(** A range table entry as prov_attrname.c sees it. *)
Definition attr_rte (r : RangeTblEntry) : AttrName.RangeTblEntry :=
  AttrName.mkRTE
    (match rtekind r with
     | RTE_RELATION => AttrName.RTE_RELATION
     | RTE_SUBQUERY => AttrName.RTE_SUBQUERY
     | _ => AttrName.RTE_OTHER
     end)
    (relid r) (aliasname <$> alias r) (Some (aliasname (eref r))) (isProvBase r).

(** ** Columns of a range table entry *)

Section columns.
Context (cat : syscache).

(** From attribute number [k + 1] on; dropped attributes are omitted. *)
Fixpoint expandTupleDesc (tupdesc : list attribute) (k : nat) (eref : Alias) (rtindex sublevels_up : Z)
    : W (list string * list Var) :=
  match tupdesc with
  | [] => ret ([], [])
  | a :: tupdesc =>
      if attisdropped a then expandTupleDesc tupdesc (S k) eref rtindex sublevels_up
      else
        label ← (if decide (k < length (colnames eref))%nat then deref (mjoin (colnames eref !! k))
                 else ret (attname a));
        '(ns, vs) ← expandTupleDesc tupdesc (S k) eref rtindex sublevels_up;
        ret (label :: ns,
             makeVar rtindex (Z.of_nat k + 1) (atttypid a) (atttypmod a) sublevels_up :: vs)
  end.

(** The visible columns of a subquery with the names of [eref]. *)
Fixpoint expand_targets (tl : list TargetEntry) (aliasp : list (option string)) (varattno : Z)
    (rtindex sublevels_up : Z) : W (list string * list Var) :=
  match tl with
  | [] => ret ([], [])
  | te :: tl =>
      if resjunk te then expand_targets tl aliasp varattno rtindex sublevels_up
      else
        label ← deref (mjoin (head aliasp));
        '(ns, vs) ← expand_targets tl (tail aliasp) (varattno + 1) rtindex sublevels_up;
        ret (label :: ns,
             makeVar rtindex (varattno + 1) (exprType (expr te)) (exprTypmod (expr te)) sublevels_up :: vs)
  end.

(** Columns given by their types, with the names of [eref]. *)
Fixpoint expand_typed (types : list (Z * Z)) (aliasp : list (option string)) (varattno : Z)
    (rtindex sublevels_up : Z) : W (list string * list Var) :=
  match types with
  | [] => ret ([], [])
  | (ty, tm) :: types =>
      label ← deref (mjoin (head aliasp));
      '(ns, vs) ← expand_typed types (tail aliasp) (varattno + 1) rtindex sublevels_up;
      ret (label :: ns, makeVar rtindex (varattno + 1) ty tm sublevels_up :: vs)
  end.

(** The columns of a function that returns records.  All names of [eref] are returned; the callers go through names and
    columns in step, so the surplus of either is never looked at. *)
Fixpoint expand_record (types : list (Z * Z)) (aliasp : list (option string)) (attnum : Z)
    (rtindex sublevels_up : Z) : W (list string * list Var) :=
  match types, aliasp with
  | (ty, tm) :: types, a :: aliasp =>
      label ← deref a;
      '(ns, vs) ← expand_record types aliasp (attnum + 1) rtindex sublevels_up;
      ret (label :: ns, makeVar rtindex (attnum + 1) ty tm sublevels_up :: vs)
  | _, _ => ret ([], [])
  end.

(** [forboth]: the shorter of the two lists ends the loop. *)
Fixpoint expand_join (names : list (option string)) (aliasvars : list Var) (varattno : Z)
    (rtindex sublevels_up : Z) : W (list string * list Var) :=
  match names, aliasvars with
  | name :: names, avar :: aliasvars =>
      label ← deref name;
      '(ns, vs) ← expand_join names aliasvars (varattno + 1) rtindex sublevels_up;
      ret (label :: ns,
           makeVar rtindex (varattno + 1) (vartype avar) (vartypmod avar) sublevels_up :: vs)
  | _, _ => ret ([], [])
  end.

(** [expandRTEWithParam] without dropped columns and without provenance attributes. *)
Definition expandRTEWithParam (rte : RangeTblEntry) (rtindex sublevels_up : Z)
    : W (list string * list Var) :=
  match rtekind rte with
  | RTE_RELATION => expandTupleDesc (rd_att cat (relid rte)) 0 (eref rte) rtindex sublevels_up
  | RTE_SUBQUERY =>
      q ← deref (subquery rte);
      expand_targets (targetList q) (colnames (eref rte)) 0 rtindex sublevels_up
  | RTE_FUNCTION =>
      match functype rte with
      | TYPEFUNC_COMPOSITE tupdesc => expandTupleDesc tupdesc 0 (eref rte) rtindex sublevels_up
      | TYPEFUNC_SCALAR ty => expand_typed [(ty, -1)]%Z (colnames (eref rte)) 0 rtindex sublevels_up
      | TYPEFUNC_RECORD cols => expand_record cols (colnames (eref rte)) 0 rtindex sublevels_up
      | TYPEFUNC_OTHER => throw (Elog "function in FROM has unsupported return type")
      end
  | RTE_VALUES => expand_typed (values_types rte) (colnames (eref rte)) 0 rtindex sublevels_up
  | RTE_JOIN => expand_join (colnames (eref rte)) (joinaliasvars rte) 0 rtindex sublevels_up
  | RTE_SPECIAL => throw (Elog "unrecognized RTE kind: %d")
  end.

(** ** Base relations *)

(** [getQueryRefNum(rte, true)]: counts the reference; it may give [rte] an alias. *)
Definition count_reference (rte : RangeTblEntry) : W RangeTblEntry :=
  '(_, r) ← with_refs (AttrName.getQueryRefNum (names cat) (attr_rte rte) true);
  ret (match alias rte, AttrName.alias r with
       | None, Some name => set_aliases (Some (mkAlias name [])) (eref rte) rte
       | _, _ => rte
       end).

(** One target entry per attribute, numbered from [curResno + 1]. *)
Fixpoint base_entries (rte : RangeTblEntry) (vars : list Var) (ns : list string) (curResno : Z)
    : W (list TargetEntry) :=
  match vars, ns with
  | v :: vars, namestr :: ns =>
      name ← with_refs (AttrName.createProvAttrName (names cat) (attr_rte rte) namestr);
      rest ← base_entries rte vars ns (curResno + 1);
      ret (mkTE (EVar v) (curResno + 1) (Some name) 0 (relid rte) (varoattno v) false :: rest)
  | _, _ => ret []
  end.

Definition rewriteBaseRelation (rtindex : Z) (rte : RangeTblEntry) : W RangeTblEntry :=
  '(ns, vars) ← expandRTEWithParam rte rtindex 0;
  rte ← count_reference rte;
  pList ← base_entries rte vars ns 0;
  push_pset pList;;
  modify (λ s, if baseRelStackActive s
               then mkRw (pStack s) (baseRelStackActive s) (rte :: baseRelStack s) (refs s) (gens s) else s);;
  ret rte.

(** ** Entries with provenance attributes given by the user *)

(** The columns called [name]; [found] tells whether there is one. *)
Fixpoint find_columns (name : string) (cols : list (option string * Var)) : W (list TargetEntry) :=
  match cols with
  | [] => ret []
  | (n, v) :: cols =>
      n ← deref n;
      if decide (n = name) then
        ext ← with_refs (AttrName.createExternalProvAttrName n);
        rest ← find_columns name cols;
        ret (makeTargetEntry (EVar v) (varattno v) (Some ext) false :: rest)
      else find_columns name cols
  end.

Fixpoint given_attrs (provattrs : list (option string)) (cols : list (option string * Var))
    : W (list TargetEntry) :=
  match provattrs with
  | [] => ret []
  | p :: provattrs =>
      name ← deref p;
      tes ← find_columns name cols;
      (if decide (tes = []) then
         throw (Elog "Provenance attribute given in the PROVENANCE attribute list is not found")
       else ret tt);;
      rest ← given_attrs provattrs cols;
      ret (tes ++ rest)
  end.

Definition rewriteRTEwithProvenance (rewriteQueryNode : Query → W Query) (rtindex : Z)
    (rte : RangeTblEntry) : W RangeTblEntry :=
  match rtekind rte with
  | RTE_SUBQUERY =>
      sub ← deref (subquery rte);
      if shouldRewrite sub then
        sub ← rewriteQueryNode sub;
        ret (set_subquery (Some sub) rte)
      else
        let cols := (λ te, (resname te, makeVar rtindex (resno te) (exprType (expr te))
                                          (exprTypmod (expr te)) 0)) <$> targetList sub in
        pList ← given_attrs (provAttrs rte) cols;
        push_pset pList;; ret rte
  | RTE_RELATION =>
      '(ns, vars) ← expandRTEWithParam rte rtindex 0;
      pList ← given_attrs (provAttrs rte) (zip (Some <$> ns) vars);
      push_pset pList;; ret rte
  | _ => throw (Elog "PROVENANCE construct in FROM clause is only allowedfor base relations and subqueries")
  end.

(** ** The range table *)

(** A single NULL in [provAttrs] marks an entry the rewriter leaves alone. *)
Definition ignoreRTE (rte : RangeTblEntry) : bool :=
  match provAttrs rte with [None] => true | _ => false end.

Definition rewrite_rte (rewriteQueryNode : Query → W Query) (rtindex : Z) (rte : RangeTblEntry)
    : W RangeTblEntry :=
  match provAttrs rte with
  | _ :: _ => rewriteRTEwithProvenance rewriteQueryNode rtindex rte
  | [] =>
      if decide (rtekind rte = RTE_RELATION ∨ isProvBase rte = true) then rewriteBaseRelation rtindex rte
      else if decide (rtekind rte = RTE_SUBQUERY) then
        sub ← deref (subquery rte);
        sub ← rewriteQueryNode sub;
        ret (set_subquery (Some sub) rte)
      else ret rte
  end.

(** The first [n] entries, the first of which has index [rtindex]. *)
Fixpoint rewrite_rtes (rewriteQueryNode : Query → W Query) (n : nat) (rtindex : Z)
    (rtes : list RangeTblEntry) (subList : list Z) : W (list RangeTblEntry * list Z) :=
  match n, rtes with
  | S n, rte :: rtes =>
      if decide (aliasname (eref rte) ≠ "*NEW*" ∧ aliasname (eref rte) ≠ "*OLD*" ∧ ignoreRTE rte = false) then
        rte' ← rewrite_rte rewriteQueryNode rtindex rte;
        let subList := if decide (rtekind rte' = RTE_JOIN) then subList else subList ++ [rtindex] in
        '(rest, subList) ← rewrite_rtes rewriteQueryNode n (rtindex + 1) rtes subList;
        ret (rte' :: rest, subList)
      else
        '(rest, subList) ← rewrite_rtes rewriteQueryNode n (rtindex + 1) rtes subList;
        ret (rte :: rest, subList)
  | _, _ => ret (rtes, subList)
  end.

Definition rewriteRTEs (rewriteQueryNode : Query → W Query) (query : Query) (subList : list Z)
    (maxRtindex : Z) : W (Query * list Z) :=
  if decide (maxRtindex = 0)%Z then ret (query, subList)
  else
    '(rtes, subList) ← rewrite_rtes rewriteQueryNode (Z.to_nat maxRtindex) 1 (rtable query) subList;
    ret (set_rtable rtes query, subList).

(** ** Column names *)

Definition correctRTEAlias (rte : RangeTblEntry) : W RangeTblEntry :=
  match rtekind rte with
  | RTE_SUBQUERY =>
      sub ← deref (subquery rte);
      let cols := resname <$> targetList sub in
      let eref' := mkAlias (aliasname (eref rte)) cols in
      let alias' := match alias rte with None => eref' | Some a => a end in
      ret (set_aliases
             (Some (match colnames alias' with [] => alias' | _ => mkAlias (aliasname alias') cols end))
             eref' rte)
  | _ => ret rte
  end.

Fixpoint correct_aliases (rtes : list RangeTblEntry) : W (list RangeTblEntry) :=
  match rtes with
  | [] => ret []
  | rte :: rtes => rte ← correctRTEAlias rte; rtes ← correct_aliases rtes; ret (rte :: rtes)
  end.

Definition correctSubQueryAlias (query : Query) : W Query :=
  rtes ← correct_aliases (rtable query); ret (set_rtable rtes query).

(** ** Join entries *)

Definition var_of (te : TargetEntry) : W Var :=
  match expr te with EVar v => ret v | _ => throw Segv end.

(** For each attribute: the Var of the join's argument, its name, and the target entry for the join
    [rteRef], numbered from [counter]. *)
Fixpoint join_attrs (rteRef counter : Z) (pList : list TargetEntry)
    : W (list Var * list (option string) * list TargetEntry) :=
  match pList with
  | [] => ret ([], [], [])
  | te :: pList =>
      v ← var_of te;
      let var := move_var (varno v) (resno te) v in
      let newTe := makeTargetEntry (EVar (move_var rteRef counter var)) counter (resname te) false in
      '(vars, ns, tes) ← join_attrs rteRef (counter + 1) pList;
      ret (var :: vars, resname te :: ns, newTe :: tes)
  end.

(** The provenance attributes of entry [rteRef]: those pushed for the last position
    of [subList] that names it, [counter] being the position of the head. *)
Fixpoint pset_of (st : list (list TargetEntry)) (rteRef : Z) (subList : list Z) (len counter : Z)
    (pList : list TargetEntry) : W (list TargetEntry) :=
  match subList with
  | [] => ret pList
  | i :: subList =>
      pList ← (if decide (i = rteRef) then deref (st !! Z.to_nat (len - 1 - counter)) else ret pList);
      pset_of st rteRef subList len (counter + 1) pList
  end.

(** [te = copyObject(te); ((Var * ) te->expr)->varno = rteRef] *)
Fixpoint retarget (rteRef : Z) (pList : list TargetEntry) : W (list TargetEntry) :=
  match pList with
  | [] => ret []
  | te :: pList =>
      v ← var_of te;
      rest ← retarget rteRef pList;
      ret (mkTE (EVar (move_var rteRef (varattno v) v)) (resno te) (resname te) (ressortgroupref te)
                (resorigtbl te) (resorigcol te) (resjunk te) :: rest)
  end.

(** The provenance attributes of a join tree node and the range table with the join
    entries extended by them. *)
Fixpoint computeJoinPAttrs (joinChild : Node) (rt : list RangeTblEntry) (subList : list Z)
    : W (list TargetEntry * list RangeTblEntry) :=
  match joinChild with
  | JoinExpr _ larg rarg _ rteRef =>
      '(pl, rt) ← computeJoinPAttrs larg rt subList;
      '(pr, rt) ← computeJoinPAttrs rarg rt subList;
      rte ← deref (rt_fetch rteRef rt);
      '(vars, ns, tes) ← join_attrs rteRef (Z.of_nat (length (joinaliasvars rte)) + 1) (pl ++ pr);
      let rte' := set_joincols (joinaliasvars rte ++ vars)
                    (mkAlias (aliasname (eref rte)) (colnames (eref rte) ++ ns)) rte in
      ret (tes, rt_update rteRef rte' rt)
  | RangeTblRef rteRef =>
      st ← gets pStack;
      pList ← pset_of st rteRef subList (Z.of_nat (length subList)) 0 [];
      tes ← retarget rteRef pList;
      ret (tes, rt)
  end.

Fixpoint correct_joins (from : list Node) (rt : list RangeTblEntry) (subList : list Z)
    : W (list RangeTblEntry) :=
  match from with
  | [] => ret rt
  | n :: from =>
      if is_join n then
        '(_, rt) ← computeJoinPAttrs n rt subList; correct_joins from rt subList
      else correct_joins from rt subList
  end.

Definition correctJoinRTEs (query : Query) (subList : list Z) : W Query :=
  rt ← correct_joins (fromlist query) (rtable query) subList; ret (set_rtable rt query).

(** ** Provenance attributes in the target list *)

(** The indexes of the joins above entry [rtindex], innermost first. *)
Fixpoint findRTindexInJoin (rtindex : Z) (n : Node) : option (list Z) :=
  match n with
  | RangeTblRef i => if decide (i = rtindex) then Some [] else None
  | JoinExpr _ l r _ J =>
      match findRTindexInJoin rtindex l with
      | Some path => Some (path ++ [J])
      | None => match findRTindexInJoin rtindex r with Some path => Some (path ++ [J]) | None => None end
      end
  end.

(** The first FROM item that is a join and contains the entry. *)
Fixpoint find_join (rtindex : Z) (from : list Node) : list Z :=
  match from with
  | [] => []
  | n :: from =>
      if is_join n then
        match findRTindexInJoin rtindex n with Some path => path | None => find_join rtindex from end
      else find_join rtindex from
  end.

(** The last of the join's columns, numbered from [k], that stands for [var]. *)
Fixpoint alias_position (var : Var) (aliasvars : list Var) (k : Z) (found : option Z) : option Z :=
  match aliasvars with
  | [] => found
  | v :: aliasvars =>
      alias_position var aliasvars (k + 1)
        (if decide (varno v = varno var ∧ varattno v = varattno var) then Some k else found)
  end.

(** Follow the joins outwards.  [found] is the variable [foundAttrNum], which is not initialised;
    reading it before a match was found is undefined. *)
Fixpoint follow_joins (path : list Z) (rt : list RangeTblEntry) (var : Var) (found : option Z) : W Var :=
  match path with
  | [] => ret var
  | J :: path =>
      rte ← deref (rt_fetch J rt);
      let found := alias_position var (joinaliasvars rte) 1 found in
      attno ← deref found;
      follow_joins path rt (move_var J attno var) found
  end.

Definition getRTindexForProvTE (query : Query) (var : Var) : W Var :=
  follow_joins (find_join (varno var) (fromlist query)) (rtable query) var None.

(** The new target entries for the attributes of entry [curSubquery]. *)
Fixpoint prov_entries (query : Query) (curSubquery : Z) (curPSet : list TargetEntry) (curResno : Z)
    : W (list TargetEntry) :=
  match curPSet with
  | [] => ret []
  | te :: curPSet =>
      var ← getRTindexForProvTE query
              (makeVar curSubquery (resno te) (exprType (expr te)) (exprTypmod (expr te)) 0);
      rest ← prov_entries query curSubquery curPSet (curResno + 1);
      ret (makeTargetEntry (EVar var) curResno (resname te) false :: rest)
  end.

Fixpoint prov_entries_all (query : Query) (subList : list Z) (psets : list (list TargetEntry))
    (curResno : Z) : W (list TargetEntry) :=
  match subList with
  | [] => ret []
  | i :: subList =>
      pset ← deref (head psets);
      tes ← prov_entries query i pset curResno;
      rest ← prov_entries_all query subList (tail psets) (curResno + Z.of_nat (length tes));
      ret (tes ++ rest)
  end.

(** [popListAndReverse(&pStack, n)]; [pop] of an empty stack dereferences NULL. *)
Definition pop_psets (n : nat) : W (list (list TargetEntry)) :=
  st ← gets pStack;
  if decide (n ≤ length st)%nat then set_pStack (drop n st);; ret (reverse (take n st)) else throw Segv.

(** The query with its new target list, and the new entries behind [pList]. *)
Definition addProvenanceAttrs (query : Query) (subList : list Z) (pList : list TargetEntry)
    : W (Query * list TargetEntry) :=
  psets ← pop_psets (length subList);
  tes ← prov_entries_all query subList psets (Z.of_nat (length (targetList query)) + 1);
  ret (set_targetList (targetList query ++ tes) query, pList ++ tes).

(** ** DISTINCT *)

Fixpoint max_groupref (tl : list TargetEntry) (cur : Z) : Z :=
  match tl with
  | [] => cur
  | te :: tl => max_groupref tl (if decide (ressortgroupref te > cur)%Z then ressortgroupref te else cur)
  end.

(** Give every attribute a group reference and a DISTINCT item. *)
Fixpoint distinct_items (pList : list TargetEntry) (curGroupref : Z) : list TargetEntry * list SortClause :=
  match pList with
  | [] => ([], [])
  | te :: pList =>
      let cur' := if decide (ressortgroupref te = 0)%Z then (curGroupref + 1)%Z else curGroupref in
      let ref := if decide (ressortgroupref te = 0)%Z then cur' else ressortgroupref te in
      let te' := mkTE (expr te) (resno te) (resname te) ref (resorigtbl te) (resorigcol te) (resjunk te) in
      let '(tes, scs) := distinct_items pList cur' in
      (te' :: tes, mkSort ref (ordering_oper_opid cat (exprType (expr te))) false :: scs)
  end.

(** The entries of the list on top of [pStack] are the last entries of the target
    list, the same objects: an assigned reference shows in both. *)
Definition rewriteDistinctClause (query : Query) : W Query :=
  st ← gets pStack;
  pList ← deref (head st);
  let '(tes, scs) := distinct_items pList (max_groupref (targetList query) 0) in
  set_pStack (tes :: tail st);;
  ret (set_distinctClause (distinctClause query ++ scs)
        (set_targetList (take (length (targetList query) - length pList) (targetList query) ++ tes) query)).

(** ** LIMIT *)

Fixpoint checkForNTupleDupConstructs (query : Query) : bool :=
  match distinctClause query with
  | _ :: _ => true
  | [] =>
      (hasAggs query || hasSubLinks query) ||
      existsb dup_rte (rtable query)
  end
with dup_rte (rte : RangeTblEntry) : bool :=
  match rtekind rte with
  | RTE_SUBQUERY => match subquery rte with Some q => checkForNTupleDupConstructs q | None => false end
  | RTE_FUNCTION => true
  | _ => false
  end.

Definition checkLimit (query : Query) : bool :=
  match limitCount query, limitOffset query with
  | None, None => false
  | _, _ => checkForNTupleDupConstructs query
  end.

(** ** Query nodes *)

(** The query and the entries whose provenance it has. *)
Definition rewriteSPJrestrict (rewriteQueryNode : Query → W Query) (query : Query) (subList : list Z)
    (maxRtindex : Z) : W Query :=
  '(query, subList) ← rewriteRTEs rewriteQueryNode query subList maxRtindex;
  query ← correctSubQueryAlias query;
  query ← correctJoinRTEs query subList;
  '(query, pList) ← addProvenanceAttrs query subList [];
  push_pset pList;;
  match distinctClause query with [] => ret query | _ => rewriteDistinctClause query end.

End columns.

End RewriteSPJ.
