(* ===== verification/JoinBuild.v ===== *)
(** * Building joins
      ([src/src/backend/provrewrite/util/prov_util.c])

    The aggregation and the set operation rewriters put a new query on top, which joins the original query with its
    rewritten inputs.  These are the functions they build it with. *)

From Stdlib Require Import ZArith Lia.
From stdpp Require Import base strings numbers list.
From S2P Require Import Prelude ProvStack AttrName QueryTree RewriteSPJ.
Import QueryTree RewriteSPJ.

Module JoinBuild.

(** ** Unique names *)

(** [appendIdToString(s, &curUniqueRelNum)] and [appendIdToString(s, &curUniqueAttrNum)] *)
Definition uniqueRelName (s : string) : W string := λ st,
  let '(name, n) := ProvStack.appendIdToString s (ProvStack.curUniqueRelNum (gens st)) in
  Ok (name, mkRw (pStack st) (baseRelStackActive st) (baseRelStack st) (refs st)
              (ProvStack.mkGens (ProvStack.curUniqueAttrNum (gens st)) n)).

Definition uniqueAttrName (s : string) : W string := λ st,
  let '(name, n) := ProvStack.appendIdToString s (ProvStack.curUniqueAttrNum (gens st)) in
  Ok (name, mkRw (pStack st) (baseRelStackActive st) (baseRelStack st) (refs st)
              (ProvStack.mkGens n (ProvStack.curUniqueRelNum (gens st)))).

(** ** Range table entries *)

Definition with_fromlist (l : list Node) (q : Query) : Query :=
  mkQuery (commandType q) (hasAggs q) (hasSubLinks q) (rtable q) l (quals q) (targetList q)
    (groupClause q) (havingQual q) (distinctClause q) (sortClause q) (limitOffset q) (limitCount q)
    (setOperations q) (provSublinkRewritten q) (shouldRewrite q).

Definition with_rewrite (b : bool) (q : Query) : Query :=
  mkQuery (commandType q) (hasAggs q) (hasSubLinks q) (rtable q) (fromlist q) (quals q) (targetList q)
    (groupClause q) (havingQual q) (distinctClause q) (sortClause q) (limitOffset q) (limitCount q)
    (setOperations q) (provSublinkRewritten q) b.

Definition subquery_rte (subQuery : Query) (aliasName : string) : RangeTblEntry :=
  set_subquery (Some subQuery)
    (set_aliases (Some (mkAlias aliasName [])) (mkAlias aliasName []) (makeRte RTE_SUBQUERY)).

(** The permissions of the entry are not modelled. *)
Definition addSubqueryToRTWithParam (query subQuery : Query) (aliasName : string) (append : bool) : Query :=
  let newRte := subquery_rte subQuery aliasName in
  set_rtable (if append then rtable query ++ [newRte] else newRte :: rtable query) query.

Definition addSubqueryToRT (query subQuery : Query) (aliasName : string) : Query :=
  addSubqueryToRTWithParam query subQuery aliasName true.

Definition set_jointype (jt : JoinType) (r : RangeTblEntry) : RangeTblEntry :=
  mkRangeTblEntry (rtekind r) (relid r) (subquery r) (functype r) (values_types r) jt
    (joinaliasvars r) (alias r) (eref r) (isProvBase r) (provAttrs r).

(** ** Conditions *)

Section catalog.
Context (cat : syscache).

(** [leftChild IS NOT DISTINCT FROM rightChild]; a type without equality operator makes [equality_oper] return NULL,
    which is dereferenced. *)
Definition createNotDistinctConditionForVars (leftChild rightChild : Var) : W Expr :=
  '(opno, oprresult) ← deref (equality_oper cat (vartype leftChild));
  ret (makeBoolExpr NOT_EXPR [EDistinctExpr opno oprresult [EVar leftChild; EVar rightChild]]).

(** [result] and then each of the other expressions in front of it. *)
Definition createAndFromList (exprs : list Expr) : option Expr :=
  match exprs with
  | [] => None
  | [e] => Some e
  | e :: exprs => Some (foldl (λ result node, makeBoolExpr AND_EXPR [node; result]) e exprs)
  end.

(** ** Join entries *)

(** The columns of the join are those of its arguments, from left to right. *)
Definition adaptRTEForJoin (joinRTEname : string) (newJoin : Node) (query : Query) : W Query :=
  match newJoin with
  | RangeTblRef _ => throw Segv
  | JoinExpr _ larg rarg _ joinRTIndex =>
      joinRTE ← deref (rt_fetch joinRTIndex (rtable query));
      lRTE ← deref (rt_fetch (root larg) (rtable query));
      rRTE ← deref (rt_fetch (root rarg) (rtable query));
      '(lcols, lvars) ← expandRTEWithParam cat lRTE (root larg) 0;
      '(rcols, rvars) ← expandRTEWithParam cat rRTE (root rarg) 0;
      ret (set_rtable
             (rt_update joinRTIndex
                (mkRangeTblEntry (rtekind joinRTE) (relid joinRTE) (subquery joinRTE) (functype joinRTE)
                   (values_types joinRTE) (jointype joinRTE) (lvars ++ rvars) None
                   (mkAlias joinRTEname (Some <$> lcols ++ rcols)) false [])
                (rtable query)) query)
  end.

Fixpoint adaptRTEsForJoins (subJoins : list Node) (query : Query) (joinRTEname : string) : W Query :=
  match subJoins with
  | [] => ret query
  | n :: subJoins => query ← adaptRTEForJoin joinRTEname n query; adaptRTEsForJoins subJoins query joinRTEname
  end.

(** [min] up to but not including [max] *)
Definition addProvenanceAttrsForRange (query : Query) (min max : Z) (pList : list TargetEntry)
    : W (Query * list TargetEntry) :=
  addProvenanceAttrs query (seqZ min (max - min)) pList.

End catalog.

End JoinBuild.
