(* ===== verification/RewriteLimit.v ===== *)
(** * LIMIT over rows with several witnesses
      ([handleLimit] of [src/src/backend/provrewrite/main/prov_spj.c], the joins it builds with
       [src/src/backend/provrewrite/util/prov_util.c] and the provenance columns of
       [src/src/backend/parser/parse_relation.c])

    A rewritten query repeats a row once per witness, so LIMIT would count witnesses.  [handleLimit] rewrites the
    query without its LIMIT and joins the result with the original query. *)

From Stdlib Require Import ZArith Lia.
From stdpp Require Import base strings numbers list.
From S2P Require Import Prelude AttrName QueryTree RewriteSPJ JoinBuild.
Import QueryTree RewriteSPJ JoinBuild.

Module RewriteLimit.

Section limit.
Context (cat : syscache).

(** ** The columns of a query that is marked for rewriting *)

(** The columns of the base relation [curRTE], numbered behind [curAttno]. *)
Definition expand_base (rtindex curAttno : Z) (curRTE : RangeTblEntry) : W (RangeTblEntry * list Var) :=
  curRTE ← count_reference cat curRTE;
  '(_, curVars) ← match rtekind curRTE with
                  | RTE_RELATION => expandTupleDesc (rd_att cat (relid curRTE)) 0 (eref curRTE) 1 0
                  | _ => expandRTEWithParam cat curRTE rtindex 0
                  end;
  ret (curRTE, imap (λ k v, move_var rtindex (curAttno + Z.of_nat k + 1) v) curVars).

(** The base relations a view reads; the catalog knows them. *)
Fixpoint expand_view (rtindex curAttno : Z) (bases : list (Z * list string)) : W (list Var) :=
  match bases with
  | [] => ret []
  | (relid, ns) :: bases =>
      '(_, vars) ← expand_base rtindex curAttno
        (mkRangeTblEntry RTE_RELATION relid None TYPEFUNC_OTHER [] JOIN_INNER [] None (mkAlias "" (Some <$> ns)) false []);
      rest ← expand_view rtindex (curAttno + Z.of_nat (length vars)) bases;
      ret (vars ++ rest)
  end.

(** [findBaseRelationsForProvenanceRTE] and the loop of [expandProvenanceRTE] in one: finding the base relations has
    no effects, and the loop takes them in the order in which they are found.  Counting a
    reference can name the entry.  Expressions have no sublinks here. *)
Fixpoint expand_bases (rtindex curAttno : Z) (rte : RangeTblEntry) : W (RangeTblEntry * list Var) :=
  if isProvBase rte then expand_base rtindex curAttno rte
  else match rtekind rte with
       | RTE_SUBQUERY =>
           match subquery rte with
           | None => throw Segv
           | Some q => '(q, vars) ← expand_query_bases rtindex curAttno q; ret (set_subquery (Some q) rte, vars)
           end
       | RTE_RELATION =>
           match view_relations cat (relid rte) with
           | Some bases => vars ← expand_view rtindex curAttno bases; ret (rte, vars)
           | None => expand_base rtindex curAttno rte
           end
       | _ => ret (rte, [])
       end
with expand_query_bases (rtindex curAttno : Z) (q : Query) : W (Query * list Var) :=
  '(rtes, vars) ←
    (fix go (rtes : list RangeTblEntry) (curAttno : Z) : W (list RangeTblEntry * list Var) :=
       match rtes with
       | [] => ret ([], [])
       | rte :: rtes =>
           '(rte, vars) ← expand_bases rtindex curAttno rte;
           '(rtes, rest) ← go rtes (curAttno + Z.of_nat (length vars))%Z;
           ret (rte :: rtes, vars ++ rest)
       end) (rtable q) curAttno;
  ret (set_rtable rtes q, vars).

(** [expandRTE] for the columns only: a subquery that is marked for rewriting already has its provenance columns. *)
Definition expandRTE (rte : RangeTblEntry) (rtindex sublevels_up : Z) : W (RangeTblEntry * list Var) :=
  '(_, vars) ← expandRTEWithParam cat rte rtindex sublevels_up;
  match rtekind rte, subquery rte with
  | RTE_SUBQUERY, Some q =>
      if shouldRewrite q then
        with_refs AttrName.resetRelReferences;;
        '(rte, pvars) ← expand_bases rtindex (Z.of_nat (length (colnames (eref rte)))) rte;
        ret (rte, vars ++ pvars)
      else ret (rte, vars)
  | _, _ => ret (rte, vars)
  end.

(** ** Joins *)

(** The join entry and its index. *)
Definition createJoinExpr (query : Query) (joinType : JoinType) : Query * Z :=
  (set_rtable (rtable query ++ [set_jointype joinType (makeRte RTE_JOIN)]) query,
   (Z.of_nat (length (rtable query)) + 1)%Z).

(** [getAllInList]: the elements at some positions. *)
Fixpoint all_in_list {A} (l : list A) (elements : list Z) : W (list A) :=
  match elements with
  | [] => ret []
  | element :: elements =>
      x ← deref (if decide (0 ≤ element)%Z then l !! Z.to_nat element else None);
      rest ← all_in_list l elements;
      ret (x :: rest)
  end.

Fixpoint comparisons (leftVars rightVars : list Var) : W (list Expr) :=
  match leftVars, rightVars with
  | leftVar :: leftVars, rightVar :: rightVars =>
      c ← createNotDistinctConditionForVars cat leftVar rightVar;
      rest ← comparisons leftVars rightVars;
      ret (c :: rest)
  | _, _ => ret []
  end.

(** [useNotDistinct] is not looked at. *)
Definition createJoinOnAttrs (query : Query) (joinType : JoinType) (leftRT rightRT : Z) (leftAttrs rightAttrs : list Z)
    (useNotDistinct : bool) : W (Query * Node) :=
  let '(query, rtindex) := createJoinExpr query joinType in
  lrte ← deref (rt_fetch leftRT (rtable query));
  '(lrte, leftVars) ← expandRTE lrte leftRT 0;
  let query := set_rtable (rt_update leftRT lrte (rtable query)) query in
  rrte ← deref (rt_fetch rightRT (rtable query));
  '(rrte, rightVars) ← expandRTE rrte rightRT 0;
  let query := set_rtable (rt_update rightRT rrte (rtable query)) query in
  leftVars ← all_in_list leftVars leftAttrs;
  rightVars ← all_in_list rightVars rightAttrs;
  conds ← comparisons leftVars rightVars;
  ret (query, JoinExpr joinType (RangeTblRef leftRT) (RangeTblRef rightRT)
                (Some (makeBoolExpr AND_EXPR conds)) rtindex).

(** The joins of the rewriter have no aliases. *)
Fixpoint recreateJoinRTE (join : Node) (query : Query) : W Query :=
  match join with
  | RangeTblRef _ => ret query
  | JoinExpr _ larg rarg _ _ =>
      query ← recreateJoinRTE larg query;
      query ← recreateJoinRTE rarg query;
      adaptRTEsForJoins cat [join] query "newJoin"
  end.

Fixpoint recreate_nodes (ns : list Node) (query : Query) : W Query :=
  match ns with
  | [] => ret query
  | n :: ns => query ← recreateJoinRTE n query; recreate_nodes ns query
  end.

Definition recreateJoinRTEs (query : Query) : W Query := recreate_nodes (fromlist query) query.

(** ** The rewriter *)

Definition without_limit (q : Query) : Query :=
  mkQuery (commandType q) (hasAggs q) (hasSubLinks q) (rtable q) (fromlist q) (quals q) (targetList q)
    (groupClause q) (havingQual q) (distinctClause q) (sortClause q) None None
    (setOperations q) (provSublinkRewritten q) (shouldRewrite q).

(** All columns of entry 2, from number [i + 1] on. *)
Fixpoint limit_targets (tl : list TargetEntry) (i : Z) : W (list TargetEntry) :=
  match tl with
  | [] => ret []
  | te :: tl =>
      name ← deref (resname te);
      rest ← limit_targets tl (i + 1);
      ret (makeTargetEntry (EVar (makeVar 2 (i + 1) (exprType (expr te)) (exprTypmod (expr te)) 0))
             (i + 1) (Some name) (resjunk te) :: rest)
  end.

Definition handleLimit (rewriteSPJQuery : Query → W Query) (query : Query) : W Query :=
  rewrittenQuery ← rewriteSPJQuery (without_limit query);
  tl ← limit_targets (targetList rewrittenQuery) 0;
  let newTopNode := set_targetList tl makeQuery in
  let newTopNode := addSubqueryToRT newTopNode query "originalQuery" in
  let newTopNode := addSubqueryToRT newTopNode rewrittenQuery "rewrittenQuery" in
  newTopNode ← correctSubQueryAlias newTopNode;
  let attrsPos := seqZ 0 (Z.of_nat (length (targetList query))) in
  '(newTopNode, join) ← createJoinOnAttrs newTopNode JOIN_INNER 1 2 attrsPos attrsPos true;
  recreateJoinRTEs (with_fromlist [join] newTopNode).

End limit.

End RewriteLimit.
