(* ===== verification/RewriteAggr.v ===== *)
(** * The provenance rewriter for queries with aggregation
      ([src/src/backend/provrewrite/main/prov_aggr.c] and helpers of
       [src/src/backend/provrewrite/util/prov_util.c])

    A query with aggregation is joined with its rewritten input on the GROUP BY columns.  The input is the query
    itself without the aggregation, so the rewriter for the other queries can do the work. *)

From Stdlib Require Import ZArith Lia.
From stdpp Require Import base strings numbers list.
From S2P Require Import Prelude BubbleSort ProvStack AttrName QueryTree Sublevels RewriteSPJ JoinBuild.
Import QueryTree Sublevels RewriteSPJ JoinBuild.

Module RewriteAggr.

(** The part of the sublink rewriters (prov_sublink_agg.c) this one calls: whether a sublink was found in HAVING, the
    target list or GROUP BY, or in WHERE and ORDER BY, and the transformation that moves the first kind out. *)
Class AggSublinks := {
  findSublinksAgg : Query → bool;
  findSublinksWhere : Query → bool;
  transformAggWithSublinks : Query → W Query }.

(** A query that is not marked as having sublinks has none. *)
Class AggSublinksLaws `{AggSublinks} : Prop :=
  unmarked_no_sublinks q : hasSubLinks q = false → findSublinksAgg q = false.

Section aggregation.
Context `{AggSublinks} (cat : syscache).

Definition hasHavingOrTargetListOrGroupBySublinks (query : Query) : bool := findSublinksAgg query.

Definition hasNonHavingSublink (query : Query) : bool :=
  if hasSubLinks query then findSublinksWhere query else false.

(** ** The input of the aggregation *)

Fixpoint isAggrExpr (node : Expr) : bool :=
  match node with
  | EVar _ | EConst _ _ _ => false
  | EOpExpr _ _ args | EBoolExpr _ args | EDistinctExpr _ _ args | EFuncExpr _ _ _ args => existsb isAggrExpr args
  | EAggref _ _ _ _ _ _ => true
  | ERelabelType arg _ _ _ | ENullTest _ arg => isAggrExpr arg
  | ECaseExpr _ args d => existsb isAggrExpr args || match d with Some d => isAggrExpr d | None => false end
  | ECaseWhen c r => isAggrExpr c || isAggrExpr r
  end.

(** The entries without aggregates, renumbered from [curResno]; hidden ones get a name and become visible. *)
Fixpoint strip_targets (tl : list TargetEntry) (curResno : Z) : W (list TargetEntry) :=
  match tl with
  | [] => ret []
  | te :: tl =>
      if isAggrExpr (expr te) then strip_targets tl curResno
      else
        name ← (if resjunk te then name ← uniqueAttrName "skippedGroupBy"; ret (Some name) else ret (resname te));
        rest ← strip_targets tl (curResno + 1);
        ret (mkTE (expr te) curResno name (ressortgroupref te) (resorigtbl te) (resorigcol te) false :: rest)
  end.

(** The query without aggregation and, on request, the old numbers of its target entries. *)
Definition rewriteAggrSubqueryForRewrite (query : Query) (returnMapping : bool) : W (Query * list Z) :=
  tl ← strip_targets (targetList query) 1;
  ret (mkQuery (commandType query) false (hasSubLinks query) (rtable query) (fromlist query) (quals query) tl
         [] None [] [] (limitOffset query) (limitCount query) (setOperations query)
         (provSublinkRewritten query) (shouldRewrite query),
       if returnMapping then resno <$> List.filter (λ te, negb (isAggrExpr (expr te))) (targetList query) else []).

(** ** The target list of the new top query *)

Definition getGroupByTLEs (query : Query) : list TargetEntry :=
  groupClause query ≫= λ groupby,
    List.filter (λ te, bool_decide (ressortgroupref te = tleSortGroupRef groupby)) (targetList query).

Definition isUsedInOrderBy (query : Query) (te : TargetEntry) : bool :=
  existsb (λ sc, bool_decide (tleSortGroupRef sc = ressortgroupref te)) (sortClause query).

(** New entries for the visible columns of the subquery; its hidden columns become visible under a new name, so that
    the join can refer to them. *)
Fixpoint show_targets (sub : Query) (rtindex : Z) (tl : list TargetEntry) (curResno : Z)
    : W (list TargetEntry * list TargetEntry) :=
  match tl with
  | [] => ret ([], [])
  | subTe :: tl =>
      if resjunk subTe then
        name ← uniqueAttrName "skippedGroupBy";
        '(new, old) ← show_targets sub rtindex tl curResno;
        ret (new, mkTE (expr subTe) (resno subTe) (Some name) (ressortgroupref subTe)
                       (resorigtbl subTe) (resorigcol subTe) false :: old)
      else
        let v := makeVar rtindex (resno subTe) (exprType (expr subTe)) (exprTypmod (expr subTe)) 0 in
        let newTe := mkTE (EVar v) curResno (resname subTe)
                       (if isUsedInOrderBy sub subTe then ressortgroupref subTe else 0) 0 0 (resjunk subTe) in
        '(new, old) ← show_targets sub rtindex tl (curResno + 1);
        ret (newTe :: new, subTe :: old)
  end.

Definition addSubqueryTargetListToTargetList (query : Query) (rtindex : Z) : W Query :=
  rte ← deref (rt_fetch rtindex (rtable query));
  sub ← deref (subquery rte);
  '(new, old) ← show_targets sub rtindex (targetList sub) (Z.of_nat (length (targetList query)) + 1);
  ret (set_targetList (targetList query ++ new)
        (set_rtable (rt_update rtindex (set_subquery (Some (set_targetList old sub)) rte) (rtable query)) query)).

(** ** The join *)

(** [sortList] with [compareTeOnRessortgroupref] *)
Definition sortTargetListOnGroupBy (l : list TargetEntry) : list TargetEntry :=
  BubbleSort.bubble_sort (λ x y, (ressortgroupref x >? ressortgroupref y)%Z) l.

(** [forboth]: the shorter of the two lists ends the loop. *)
Fixpoint group_conds (ls rs : list TargetEntry) : W (list Expr) :=
  match ls, rs with
  | curLeft :: ls, curRight :: rs =>
      equal ← createNotDistinctConditionForVars cat
        (makeVar 1 (resno curLeft) (exprType (expr curLeft)) (exprTypmod (expr curLeft)) 0)
        (makeVar 2 (resno curRight) (exprType (expr curRight)) (exprTypmod (expr curRight)) 0);
      rest ← group_conds ls rs;
      ret (equal :: rest)
  | _, _ => ret []
  end.

Definition and_all (equalConds : list Expr) : Expr :=
  match equalConds with
  | [] => makeBoolConst true false
  | c :: cs => foldl (λ curRoot c, EBoolExpr AND_EXPR [curRoot; c]) c cs
  end.

(** The query with the join, and [rightSub] without sort references. *)
Definition addJoinOnAttributes (query : Query) (joinAttrsLeft : list TargetEntry) (rightSub : Query)
    : W (Query * Query) :=
  let joinAttrsRight := sortTargetListOnGroupBy (targetList rightSub) in
  let joinAttrsLeft := sortTargetListOnGroupBy joinAttrsLeft in
  let cleared := (λ te, mkTE (expr te) (resno te) (resname te) 0 (resorigtbl te) (resorigcol te) (resjunk te))
                   <$> targetList rightSub in
  equalConds ← group_conds joinAttrsLeft joinAttrsRight;
  ret (mkQuery (commandType query) (hasAggs query) (hasSubLinks query) (rtable query)
         [JoinExpr JOIN_LEFT (RangeTblRef 1) (RangeTblRef 2) (Some (and_all equalConds)) 3] None
         (targetList query) (groupClause query) (havingQual query) (distinctClause query) (sortClause query)
         (limitOffset query) (limitCount query) (setOperations query) (provSublinkRewritten query)
         (shouldRewrite query),
       set_targetList cleared rightSub).

(** ** ORDER BY *)

Definition getTEforSortgroupref (query : Query) (sortGroupRef : Z) : option TargetEntry :=
  List.find (λ te, bool_decide (ressortgroupref te = sortGroupRef)) (targetList query).

(** The items that refer to a visible column. *)
Fixpoint visible_sort (query : Query) (sc : list SortClause) : W (list SortClause) :=
  match sc with
  | [] => ret []
  | orderBy :: sc =>
      te ← deref (getTEforSortgroupref query (tleSortGroupRef orderBy));
      rest ← visible_sort query sc;
      ret (if resjunk te then rest else orderBy :: rest)
  end.

Definition checkOrderClause (newTop query : Query) : W Query :=
  sc ← visible_sort query (sortClause query);
  ret (mkQuery (commandType newTop) (hasAggs newTop) (hasSubLinks newTop) (rtable newTop) (fromlist newTop)
         (quals newTop) (targetList newTop) (groupClause newTop) (havingQual newTop) (distinctClause newTop) sc
         (limitOffset newTop) (limitCount newTop) (setOperations newTop) (provSublinkRewritten newTop)
         (shouldRewrite newTop)).

(** ** The rewriter *)

(** Change the subquery of an entry. *)
Definition map_subquery (f : Query → Query) (i : Z) (q : Query) : Query :=
  match rt_fetch i (rtable q) with
  | Some r => set_rtable (rt_update i (set_subquery (f <$> subquery r) r) (rtable q)) q
  | None => q
  end.

(** The query whose input is to be rewritten: no LIMIT, and sublinks only where they remain. *)
Definition aggregation_input (query : Query) : Query :=
  mkQuery (commandType query) (hasAggs query)
    (if hasNonHavingSublink query then hasSubLinks query else false)
    (rtable query) (fromlist query) (quals query) (targetList query) (groupClause query) (havingQual query)
    (distinctClause query) (sortClause query) None None (setOperations query) false (shouldRewrite query).

(** What follows the treatment of sublinks.  [groupByTLEs] are pointers into the target list of [query]: when its hidden
    entries are shown later, their numbers and sort references stay the same.  [query] is entry 1 and the rewritten input entry 2 of the new top
    query; what the code does to them through its other pointers is done to these entries. *)
Definition rewriteAggregation (rewriteQueryNode : Query → W Query) (query : Query) : W Query :=
  let groupByTLEs := getGroupByTLEs query in
  '(newRewriteQuery, _) ← rewriteAggrSubqueryForRewrite (aggregation_input query) false;
  newTopQuery ← checkOrderClause makeQuery query;
  name ← uniqueRelName "originalAggr";
  newTopQuery ← addSubqueryTargetListToTargetList (addSubqueryToRT newTopQuery query name) 1;
  '(newTopQuery, newRewriteQuery) ← addJoinOnAttributes newTopQuery groupByTLEs newRewriteQuery;
  newRewriteQuery ← rewriteQueryNode newRewriteQuery;
  name ← uniqueRelName "rewrittenAggrSubquery";
  newTopQuery ← correctSubQueryAlias (addSubqueryToRT newTopQuery newRewriteQuery name);
  let newTopQuery := set_rtable (rtable newTopQuery ++ [set_jointype JOIN_LEFT (makeRte RTE_JOIN)]) newTopQuery in
  let newTopQuery := map_subquery (with_rewrite false) 1 (map_subquery (with_rewrite false) 2 newTopQuery) in
  first ← deref (head (fromlist newTopQuery));
  newTopQuery ← adaptRTEsForJoins cat [first] newTopQuery "joinAggAndRewrite";
  '(newTopQuery, pList) ← addProvenanceAttrs newTopQuery [2%Z] [];
  push_pset pList;;
  ret (map_subquery (increaseSublevelsUp (-1)) 1 (map_subquery (increaseSublevelsUp (-1)) 2 newTopQuery)).

Definition rewriteAggregateQuery (rewriteQueryNode rewriteSPJQuery : Query → W Query) (query : Query) : W Query :=
  if negb (provSublinkRewritten query) && hasHavingOrTargetListOrGroupBySublinks query then
    query ← transformAggWithSublinks query;
    if hasAggs query then rewriteAggregation rewriteQueryNode query else rewriteSPJQuery query
  else rewriteAggregation rewriteQueryNode query.

End aggregation.

End RewriteAggr.
