(* ===== verification/RewriteSet.v ===== *)
(** * The provenance rewriter for set operations
      ([src/src/backend/provrewrite/main/prov_set.c])

    The original query is joined with its rewritten inputs.  A tree of unions, or of intersections, is one operation
    with several inputs; other subtrees are first moved to queries of their own.  The settings
    [prov_use_set_optimization] and [prov_use_wl_union_semantics] are arguments.  With the second one on, a union
    stays a union whose inputs have NULLs for the provenance of the other inputs, and the provenance of a difference is
    that of its left argument. *)

From Stdlib Require Import ZArith Lia.
From stdpp Require Import base strings numbers list.
From S2P Require Import Prelude AttrName QueryTree Sublevels RewriteSPJ JoinBuild RewriteAggr.
Import QueryTree Sublevels RewriteSPJ JoinBuild RewriteAggr.

Module RewriteSet.

(** ** Trees of set operations *)

(** A pointer into the tree: [false] is [larg], [true] is [rarg]. *)
Abbreviation path := (list bool).

Fixpoint subtree (p : path) (t : SetOpNode) : option SetOpNode :=
  match p, t with
  | [], _ => Some t
  | b :: p, SetOperationStmt _ _ l r => subtree p (if b then r else l)
  | _, _ => None
  end.

Fixpoint replace (p : path) (new t : SetOpNode) : SetOpNode :=
  match p, t with
  | [], _ => new
  | b :: p, SetOperationStmt op all l r =>
      if b then SetOperationStmt op all l (replace p new r) else SetOperationStmt op all (replace p new l) r
  | _, _ => t
  end.

Definition is_stmt (t : option SetOpNode) : bool :=
  match t with Some (SetOperationStmt _ _ _ _) => true | _ => false end.

(** [getSetOpRTRefs]: the references in the leaves, from left to right. *)
Fixpoint getSetOpRTRefs (t : SetOpNode) : list Z :=
  match t with SetOpRef i => [i] | SetOperationStmt _ _ l r => getSetOpRTRefs l ++ getSetOpRTRefs r end.

(** Assign the numbers from [k] on to the references of [getSetOpRTRefs]; the next free number is returned. *)
Fixpoint number_refs (t : SetOpNode) (k : Z) : SetOpNode * Z :=
  match t with
  | SetOpRef _ => (SetOpRef k, k + 1)%Z
  | SetOperationStmt op all l r =>
      let '(l, k) := number_refs l k in
      let '(r, k) := number_refs r k in
      (SetOperationStmt op all l r, k)
  end.

(** The range table entries of a list of references. *)
Fixpoint fetch_all (rtable : list RangeTblEntry) (refs : list Z) : W (list RangeTblEntry) :=
  match refs with
  | [] => ret []
  | i :: refs => rte ← deref (rt_fetch i rtable); rest ← fetch_all rtable refs; ret (rte :: rest)
  end.

(** The entries under a node and their indexes. *)
Fixpoint findSetOpRTEs (rtable : list RangeTblEntry) (t : SetOpNode) : W (list RangeTblEntry * list Z) :=
  match t with
  | SetOpRef i => rte ← deref (rt_fetch i rtable); ret ([rte], [i])
  | SetOperationStmt _ _ l r =>
      '(rtes, idx) ← findSetOpRTEs rtable l;
      '(rtes', idx') ← findSetOpRTEs rtable r;
      ret (rtes ++ rtes', idx ++ idx')
  end.

Definition with_set (rt : list RangeTblEntry) (t : SetOpNode) (q : Query) : Query :=
  mkQuery (commandType q) (hasAggs q) (hasSubLinks q) rt (fromlist q) (quals q) (targetList q)
    (groupClause q) (havingQual q) (distinctClause q) (sortClause q) (limitOffset q) (limitCount q)
    (Some t) (provSublinkRewritten q) (shouldRewrite q).

(** Move the subtree at [p] to a new query, the last entry of the range table; then the entries that are still
    referred to are put in the order of the references. *)
Definition replaceSetOperatorSubtree (query : Query) (p : path) : W Query :=
  tree ← deref (setOperations query);
  setOp ← deref (subtree p tree);
  '(subTreeRTEs, _) ← findSetOpRTEs (rtable query) setOp;
  let newSub := increaseSublevelsUp (-1) (with_set subTreeRTEs (number_refs setOp 1).1 query) in
  let query := addSubqueryToRTWithParam query newSub "newSub" true in
  let tree := replace p (SetOpRef (Z.of_nat (length (rtable query)))) tree in
  newRtable ← fetch_all (rtable query) (getSetOpRTRefs tree);
  ret (with_set newRtable (number_refs tree 1).1 query).

(** [replaceSetOperatorSubtree] if the node at [p] is a set operation. *)
Definition replace_stmt (p : path) (query : Query) : W Query :=
  if is_stmt (setOperations query ≫= subtree p) then replaceSetOperatorSubtree query p else ret query.

Section set_operations.
Context (cat : syscache) (prov_use_set_optimization prov_use_wl_union_semantics : bool).

(** One unit of fuel per level of the tree. *)
Fixpoint replaceSetOperationSubTrees (fuel : nat) (query : Query) (p : path) (rootType : SetOperation) : W Query :=
  match fuel with
  | O => throw Hang
  | S fuel =>
      tree ← deref (setOperations query);
      node ← deref (subtree p tree);
      match node with
      | SetOpRef _ => ret query
      | SetOperationStmt op _ _ _ =>
          query ← (if prov_use_set_optimization then ret query
                   else query ← replace_stmt (p ++ [false]) query; replace_stmt (p ++ [true]) query);
          match op with
          | SETOP_EXCEPT =>
              if decide (rootType = SETOP_EXCEPT) then
                query ← replace_stmt (p ++ [false]) query;
                if prov_use_wl_union_semantics then ret query else replace_stmt (p ++ [true]) query
              else replaceSetOperatorSubtree query p
          | _ =>
              if decide (op = rootType) then
                query ← replaceSetOperationSubTrees fuel query (p ++ [false]) rootType;
                replaceSetOperationSubTrees fuel query (p ++ [true]) rootType
              else replaceSetOperatorSubtree query p
          end
      end
  end.

Fixpoint tree_height (t : SetOpNode) : nat :=
  match t with SetOpRef _ => 0 | SetOperationStmt _ _ l r => S (Nat.max (tree_height l) (tree_height r)) end.

(** ** Dummy entries *)

(** The first two entries of the range table of a view are not inputs.  A target entry that is not a column is
    treated as one. *)
Fixpoint shift_targets (tl : list TargetEntry) : W (list TargetEntry) :=
  match tl with
  | [] => ret []
  | te :: tl =>
      var ← var_of te;
      rest ← shift_targets tl;
      ret (mkTE (EVar (move_var (varno var - 2) (varattno var) var)) (resno te) (resname te) (ressortgroupref te)
             (resorigtbl te) (resorigcol te) (resjunk te) :: rest)
  end.

Fixpoint substractRangeTblRefValues (t : SetOpNode) : SetOpNode :=
  match t with
  | SetOpRef i => SetOpRef (i - 2)
  | SetOperationStmt op all l r =>
      SetOperationStmt op all (substractRangeTblRefValues l) (substractRangeTblRefValues r)
  end.

Definition removeDummyRewriterRTEs (query : Query) : W Query :=
  rte ← deref (head (rtable query));
  al ← deref (alias rte);
  if decide (aliasname al = "*OLD*") then
    _ ← deref (rtable query !! 1);
    tl ← shift_targets (targetList query);
    ret (mkQuery (commandType query) (hasAggs query) (hasSubLinks query) (drop 2 (rtable query)) (fromlist query)
           (quals query) tl (groupClause query) (havingQual query) (distinctClause query) (sortClause query)
           (limitOffset query) (limitCount query) (substractRangeTblRefValues <$> setOperations query)
           (provSublinkRewritten query) (shouldRewrite query))
  else ret query.

(** ** Rewriting the inputs *)

(** All entries but the first, which is the original query. *)
Fixpoint rewrite_inputs (rewriteQueryNode : Query → W Query) (rtes : list RangeTblEntry) : W (list RangeTblEntry) :=
  match rtes with
  | [] => ret []
  | rte :: rtes =>
      sub ← deref (subquery rte);
      query ← rewriteQueryNode sub;
      rest ← rewrite_inputs rewriteQueryNode rtes;
      ret (set_subquery (Some query) rte :: rest)
  end.

Definition rewriteSetRTEs (rewriteQueryNode : Query → W Query) (newTop : Query) : W Query :=
  match rtable newTop with
  | [] => throw Segv
  | orig :: rtes => rtes ← rewrite_inputs rewriteQueryNode rtes; ret (set_rtable (orig :: rtes) newTop)
  end.

(** ** Joins *)

(** The columns of an entry, seen from the join, and their names.  Here and below, [rtindex], [leftIndex] and [rightIndex] count
    from 0. *)
Definition makeRTEVars (rte : RangeTblEntry) (rtindex : Z) : W (list Var * list (option string)) :=
  match rtekind rte with
  | RTE_SUBQUERY =>
      sub ← deref (subquery rte);
      ret ((λ te, makeVar (rtindex + 1) (resno te) (exprType (expr te)) (exprTypmod (expr te)) 0) <$> targetList sub,
           resname <$> targetList sub)
  | _ =>
      let cols := zip (joinaliasvars rte) (colnames (eref rte)) in
      ret (imap (λ k p, makeVar (rtindex + 1) (Z.of_nat k + 1) (vartype p.1) (vartypmod p.1) 0) cols, snd <$> cols)
  end.

Definition createRTEforJoin (query : Query) (jt : JoinType) (leftIndex rightIndex : Z) : W Query :=
  lrte ← deref (rt_fetch (leftIndex + 1) (rtable query));
  '(lvars, lcols) ← makeRTEVars lrte leftIndex;
  rrte ← deref (rt_fetch (rightIndex + 1) (rtable query));
  '(rvars, rcols) ← makeRTEVars rrte rightIndex;
  let newRte := set_aliases (Some (mkAlias "LEFT_JOIN_RIGHT" [])) (mkAlias "LEFT_JOIN_RIGHT" (lcols ++ rcols))
                  (set_jointype jt (makeRte RTE_JOIN)) in
  ret (set_rtable (rtable query ++ [set_joincols (lvars ++ rvars) (eref newRte) newRte]) query).

Definition getAttributesForJoin (rte : RangeTblEntry) : W (list TargetEntry) :=
  match rtekind rte with
  | RTE_SUBQUERY => sub ← deref (subquery rte); ret (targetList sub)
  | _ => ret (imap (λ k p, makeTargetEntry (EVar p.1) (Z.of_nat k + 1) p.2 false)
                (zip (joinaliasvars rte) (colnames (eref rte))))
  end.

(** [forboth]: the shorter of the two lists ends the loop. *)
Fixpoint equal_conds (ls rs : list TargetEntry) (leftIndex rightIndex : Z) : W (list Expr) :=
  match ls, rs with
  | curLeft :: ls, curRight :: rs =>
      equal ← createNotDistinctConditionForVars cat
        (makeVar (leftIndex + 1) (resno curLeft) (exprType (expr curLeft)) (exprTypmod (expr curLeft)) 0)
        (makeVar (rightIndex + 1) (resno curRight) (exprType (expr curRight)) (exprTypmod (expr curRight)) 0);
      rest ← equal_conds ls rs leftIndex rightIndex;
      ret (equal :: rest)
  | _, _ => ret []
  end.

(** A query has at least one column, so there is a condition to negate. *)
Definition createEqualityCondition (ls rs : list TargetEntry) (leftIndex rightIndex : Z) (neq : bool)
    : W (option Expr) :=
  equalConds ← equal_conds ls rs leftIndex rightIndex;
  let curRoot := createAndFromList equalConds in
  if neq then c ← deref curRoot; ret (Some (makeBoolExpr NOT_EXPR [c])) else ret curRoot.

Definition createSetJoinCondition (query : Query) (leftIndex rightIndex : Z) (neq : bool) : W (option Expr) :=
  let origTlength := length (targetList query) in
  lrte ← deref (rt_fetch (leftIndex + 1) (rtable query));
  ls ← getAttributesForJoin lrte;
  rrte ← deref (rt_fetch (rightIndex + 1) (rtable query));
  rs ← getAttributesForJoin rrte;
  createEqualityCondition (take origTlength ls) (take origTlength rs) leftIndex rightIndex neq.

(** Join the entry [i] to the tree [curJoin], whose entry is [leftIndex]. *)
Definition join_entry (jt : JoinType) (query : Query) (curJoin : Node) (leftIndex i rtindex : Z) : W (Query * Node) :=
  query ← createRTEforJoin query jt leftIndex i;
  quals ← createSetJoinCondition query leftIndex i false;
  ret (query, JoinExpr jt curJoin (RangeTblRef (i + 1)) quals rtindex).

(** The entries [i], [i + 1], ... *)
Fixpoint join_entries (jt : JoinType) (n : nat) (query : Query) (curJoin : Node) (rtableLength i : Z)
    : W (Query * Node) :=
  match n with
  | O => ret (query, curJoin)
  | S n =>
      '(query, newJoin) ← join_entry jt query curJoin rtableLength i (rtableLength + 2);
      join_entries jt n query newJoin (rtableLength + 1) (i + 1)
  end.

(** The original query with its two inputs, or with the left one. *)
Definition createSetDiffJoin (query : Query) : W Query :=
  rte ← deref (head (rtable query));
  orig ← deref (subquery rte);
  all ← match setOperations orig with Some (SetOperationStmt _ all _ _) => ret all | _ => throw Segv end;
  '(query, innerJoin) ← join_entry JOIN_INNER query (RangeTblRef 1) 0 1 (Z.of_nat (length (rtable query)) + 1);
  if prov_use_wl_union_semantics then ret (with_fromlist [innerJoin] query)
  else
    query ← createRTEforJoin query JOIN_LEFT 3 2;
    quals ← (if all : bool then createSetJoinCondition query 3 2 true else ret (Some (makeBoolConst true false)));
    ret (with_fromlist [JoinExpr JOIN_LEFT innerJoin (RangeTblRef 3) quals 5] query).

Definition createJoinsForSetOp (query : Query) (setType : SetOperation) : W Query :=
  match setType with
  | SETOP_EXCEPT => createSetDiffJoin query
  | _ =>
      let joinType := match setType with SETOP_UNION => JOIN_LEFT | _ => JOIN_INNER end in
      let rtableLength := Z.of_nat (length (rtable query)) in
      '(query, newJoin) ← join_entry joinType query (RangeTblRef 1) 0 1 (rtableLength + 1);
      '(query, curJoin) ← join_entries joinType (Z.to_nat (rtableLength - 2)) query newJoin rtableLength 2;
      ret (with_fromlist [curJoin] query)
  end.

(** ** The alternative semantics of a union *)

Definition makeNullConst (consttype consttypmod : Z) : Expr := EConst consttype consttypmod None.

Definition set_resno (n : Z) (te : TargetEntry) : TargetEntry :=
  mkTE (expr te) n (resname te) (ressortgroupref te) (resorigtbl te) (resorigcol te) (resjunk te).

(** The entries numbered from [n] on. *)
Definition renumber (n : Z) (tes : list TargetEntry) : list TargetEntry := imap (λ k te, set_resno (n + Z.of_nat k) te) tes.

(** NULLs with the types and names of some entries. *)
Definition null_entries (n : Z) (tes : list TargetEntry) : list TargetEntry :=
  imap (λ k te, makeTargetEntry (makeNullConst (exprType (expr te)) (exprTypmod (expr te))) (n + Z.of_nat k) (resname te) false) tes.

(** The provenance attributes of the inputs from [i] on; those of the input [pos] are its own. *)
Fixpoint dummy_attrs (subProv : list (list TargetEntry)) (i pos : nat) (ownProv : list TargetEntry) (curResno : Z)
    : list TargetEntry :=
  match subProv with
  | [] => []
  | curProvList :: subProv =>
      let tes := if decide (i = pos) then renumber curResno ownProv else null_entries curResno curProvList in
      tes ++ dummy_attrs subProv (S i) pos ownProv (curResno + Z.of_nat (length tes))
  end.

(** [removeAfterPos] does nothing for position 0. *)
Definition cut_after {A} (l : list A) (pos : nat) : list A := match pos with O => l | _ => take pos l end.

(** The attributes of the stack are the last entries of the target list, so they get the new numbers too.  (Those of an
    input with LIMIT are copies that keep their numbers; it only shows in [varoattno], which nothing reads.) *)
Definition addDummyProvAttrs (rte : RangeTblEntry) (subProv : list (list TargetEntry)) (pos : nat)
    : W (RangeTblEntry * list TargetEntry) :=
  query ← deref (subquery rte);
  curProvList ← deref (subProv !! pos);
  let n := (length (targetList query) - length curProvList)%nat in
  let ownProv := drop n (targetList query) in
  let result := cut_after (targetList query) n in
  let curResno := (Z.of_nat (length result) + 1)%Z in
  ret (set_subquery (Some (set_targetList (result ++ dummy_attrs subProv 0 pos ownProv curResno) query)) rte,
       renumber (curResno + Z.of_nat (length (concat (take pos subProv)))) curProvList).

Fixpoint add_dummies (rtes : list RangeTblEntry) (subProv : list (list TargetEntry)) (pos : nat)
    : W (list RangeTblEntry * list (list TargetEntry)) :=
  match rtes with
  | [] => ret ([], [])
  | rte :: rtes =>
      '(rte, pList) ← addDummyProvAttrs rte subProv pos;
      '(rest, pLists) ← add_dummies rtes subProv (S pos);
      ret (rte :: rest, pList :: pLists)
  end.

(** Rewrite the inputs, and look at the attributes each one pushes. *)
Fixpoint rewrite_all (rewriteQueryNode : Query → W Query) (rtes : list RangeTblEntry)
    : W (list RangeTblEntry * list (list TargetEntry)) :=
  match rtes with
  | [] => ret ([], [])
  | rte :: rtes =>
      sub ← deref (subquery rte);
      query ← rewriteQueryNode sub;
      st ← gets pStack;
      pList ← deref (head st);
      '(rest, subProvs) ← rewrite_all rewriteQueryNode rtes;
      ret (set_subquery (Some query) rte :: rest, pList :: subProvs)
  end.

(** The columns of a set operation are those of its first input. *)
Fixpoint adapt_targets (tl : list TargetEntry) (curAttno : Z) : W (list TargetEntry) :=
  match tl with
  | [] => ret []
  | te :: tl =>
      var ← var_of te;
      rest ← adapt_targets tl (curAttno + 1);
      ret (mkTE (EVar (move_var 1 curAttno var)) (resno te) (resname te) (ressortgroupref te) (resorigtbl te)
             (resorigcol te) (resjunk te) :: rest)
  end.

(** The types of the columns are not part of the tree here. *)
Fixpoint adaptSetStmtCols (stmt : SetOpNode) : SetOpNode :=
  match stmt with
  | SetOpRef i => SetOpRef i
  | SetOperationStmt op _ larg rarg => SetOperationStmt op true (adaptSetStmtCols larg) (adaptSetStmtCols rarg)
  end.

Definition adaptSetProvenanceAttrs (query : Query) : W Query :=
  tl ← adapt_targets (targetList query) 1;
  stmt ← deref (setOperations query);
  ret (with_set (rtable query) (adaptSetStmtCols stmt) (set_targetList tl query)).

(** The attributes that are pushed are the last entries of the target list, so they are adapted with it. *)
Definition rewriteUnionWithWLCS (rewriteQueryNode : Query → W Query) (query : Query) : W Query :=
  '(rtes, subProvs) ← rewrite_all rewriteQueryNode (rtable query);
  '(rtes, pLists) ← add_dummies rtes subProvs 0;
  st ← gets pStack;
  set_pStack (reverse pLists ++ drop (length pLists) st);;
  query ← correctSubQueryAlias (set_rtable rtes query);
  '(query, pList) ← addProvenanceAttrsForRange query 1 (Z.of_nat (length (rtable query)) + 1) [];
  query ← adaptSetProvenanceAttrs query;
  push_pset (drop (length (targetList query) - length pList) (targetList query));;
  ret query.

(** ** The alternative semantics of a difference *)

Definition addSetSubqueryRTEs (orig : Query) : W (list RangeTblEntry) :=
  match setOperations orig with
  | Some (SetOperationStmt SETOP_EXCEPT _ larg _) =>
      if prov_use_wl_union_semantics then '(rtes, _) ← findSetOpRTEs (rtable orig) larg; ret rtes
      else ret (rtable orig)
  | Some (SetOperationStmt _ _ _ _) => ret (rtable orig)
  | _ => throw Segv
  end.

(** Base relation entries, the ones of views among them.  Expressions have no sublinks here. *)
Fixpoint findBaseRelationsForProvenanceRTE (rte : RangeTblEntry) : W (list RangeTblEntry) :=
  if isProvBase rte then ret [rte]
  else match rtekind rte with
       | RTE_SUBQUERY =>
           match subquery rte with
           | None => throw Segv
           | Some q => base_relations q
           end
       | RTE_RELATION =>
           ret match view_relations cat (relid rte) with
               | Some bases =>
                   (λ b, mkRangeTblEntry RTE_RELATION b.1 None TYPEFUNC_OTHER [] JOIN_INNER [] None
                           (mkAlias "" (Some <$> b.2)) false []) <$> bases
               | None => [rte]
               end
       | _ => ret []
       end
with base_relations (q : Query) : W (list RangeTblEntry) :=
  (fix go (rtes : list RangeTblEntry) : W (list RangeTblEntry) :=
     match rtes with
     | [] => ret []
     | rte :: rtes => bases ← findBaseRelationsForProvenanceRTE rte; rest ← go rtes; ret (bases ++ rest)
     end) (rtable q).

(** NULLs for provenance attributes given by the user. *)
Fixpoint null_given (tes : list TargetEntry) (curResno : Z) : W (list TargetEntry) :=
  match tes with
  | [] => ret []
  | te :: tes =>
      var ← var_of te;
      rest ← null_given tes (curResno + 1);
      ret (mkTE (makeNullConst (vartype var) (vartypmod var)) (curResno + 1) (resname te) (ressortgroupref te)
             (resorigtbl te) (resorigcol te) (resjunk te) :: rest)
  end.

(** NULLs for the columns of a base relation. *)
Fixpoint null_columns (provRte : RangeTblEntry) (attrNames : list string) (vars : list Var) (curResno : Z)
    : W (list TargetEntry) :=
  match attrNames, vars with
  | colName :: attrNames, var :: vars =>
      provName ← with_refs (AttrName.createProvAttrName (names cat) (attr_rte provRte) colName);
      rest ← null_columns provRte attrNames vars (curResno + 1);
      ret (makeTargetEntry (makeNullConst (vartype var) (vartypmod var)) (curResno + 1) (Some provName) false :: rest)
  | _, _ => ret []
  end.

Definition null_base (rewriteQueryNode : Query → W Query) (provRte : RangeTblEntry) (curResno : Z) : W (list TargetEntry) :=
  match provAttrs provRte with
  | _ :: _ =>
      rewriteRTEwithProvenance cat rewriteQueryNode 1 provRte;;
      tes ← pop_psets 1;
      null_given (concat tes) curResno
  | [] =>
      provRte ← count_reference cat provRte;
      '(attrNames, vars) ← expandRTEWithParam cat provRte 1 0;
      null_columns provRte attrNames vars curResno
  end.

Fixpoint null_bases (rewriteQueryNode : Query → W Query) (provRtes : list RangeTblEntry) (curResno : Z)
    : W (list TargetEntry) :=
  match provRtes with
  | [] => ret []
  | provRte :: provRtes =>
      tes ← null_base rewriteQueryNode provRte curResno;
      rest ← null_bases rewriteQueryNode provRtes (curResno + Z.of_nat (length tes));
      ret (tes ++ rest)
  end.

Fixpoint null_inputs (rewriteQueryNode : Query → W Query) (rtes : list RangeTblEntry) (curResno : Z)
    : W (list TargetEntry) :=
  match rtes with
  | [] => ret []
  | rte :: rtes =>
      provRtes ← findBaseRelationsForProvenanceRTE rte;
      tes ← null_bases rewriteQueryNode provRtes curResno;
      rest ← null_inputs rewriteQueryNode rtes (curResno + Z.of_nat (length tes));
      ret (tes ++ rest)
  end.

Definition createNullSetDiffProvAttrs (rewriteQueryNode : Query → W Query) (newTop query : Query)
    (pList : list TargetEntry) : W (Query * list TargetEntry) :=
  rightSet ← match setOperations query with Some (SetOperationStmt _ _ _ rarg) => ret rarg | _ => throw Segv end;
  '(rtes, _) ← findSetOpRTEs (rtable query) rightSet;
  tes ← null_inputs rewriteQueryNode rtes (Z.of_nat (length (targetList newTop)));
  ret (set_targetList (targetList newTop ++ tes) newTop, pList ++ tes).

(** ** The rewriter *)

Definition set_op (query : Query) : W SetOperation :=
  match setOperations query with Some (SetOperationStmt op _ _ _) => ret op | _ => throw Segv end.

(** The copy of the original query is entry 1 of the new top query. *)
Definition rewriteSetQuery (rewriteQueryNode : Query → W Query) (query : Query) : W Query :=
  let orig := query in
  query ← removeDummyRewriterRTEs query;
  op ← set_op query;
  tree ← deref (setOperations query);
  query ← replaceSetOperationSubTrees (S (tree_height tree)) query [] op;
  op ← set_op query;
  if prov_use_wl_union_semantics && bool_decide (op = SETOP_UNION) then rewriteUnionWithWLCS rewriteQueryNode query
  else
  rtes ← addSetSubqueryRTEs query;
  let newTop := mkQuery CMD_SELECT false false rtes [] None (targetList query) [] None [] [] None None None
                  true false in
  let newTop := addSubqueryToRTWithParam newTop orig "originalSet" false in
  newTop ← rewriteSetRTEs rewriteQueryNode newTop;
  let numSubs := (Z.of_nat (length (rtable newTop)) - 1)%Z in
  newTop ← correctSubQueryAlias newTop;
  newTop ← createJoinsForSetOp newTop op;
  '(newTop, pList) ← addProvenanceAttrsForRange newTop 2 (2 + numSubs) [];
  '(newTop, pList) ← (if prov_use_wl_union_semantics && bool_decide (op = SETOP_EXCEPT)
                      then createNullSetDiffProvAttrs rewriteQueryNode newTop query pList else ret (newTop, pList));
  push_pset pList;;
  ret (map_subquery (increaseSublevelsUp (-1)) 1 newTop).

End set_operations.

End RewriteSet.
