(* ===== verification/RewriteNode.v ===== *)
(** * The rewriter of query nodes
      ([rewriteQueryNode] of [src/src/backend/provrewrite/main/provrewrite.c], [rewriteSPJQuery] of
       [src/src/backend/provrewrite/main/prov_spj.c])

    The dispatch over the kinds of queries; the rewriters of the components call it for the queries below. *)

From Stdlib Require Import ZArith Lia.
From stdpp Require Import base strings numbers list.
From S2P Require Import Prelude AttrName QueryTree RewriteSPJ RewriteLimit RewriteAggr RewriteSet.
Import QueryTree RewriteSPJ RewriteLimit RewriteAggr RewriteSet.

Module RewriteNode.

(** The rewriters of sublinks, which the theorems do not reach. *)
Class SpjHelpers := { rewriteSublinks : (Query → W Query) → Query → W (Query * list Z) }.

Section nodes.
Context `{AggSublinks} `{SpjHelpers} (cat : syscache) (prov_use_set_optimization prov_use_wl_union_semantics : bool).

(** Every level of nesting takes at most three units of fuel, and every set operation one. *)
Fixpoint rewriteQueryNode (fuel : nat) (query : Query) : W Query :=
  match fuel with
  | O => throw Hang
  | S fuel =>
      if hasAggs query then rewriteAggregateQuery cat (rewriteQueryNode fuel) (rewriteSPJQuery fuel) query
      else match setOperations query with
           | Some _ => rewriteSetQuery cat prov_use_set_optimization prov_use_wl_union_semantics (rewriteQueryNode fuel) query
           | None => rewriteSPJQuery fuel query
           end
  end
with rewriteSPJQuery (fuel : nat) (query : Query) : W Query :=
  match fuel with
  | O => throw Hang
  | S fuel =>
      let maxRtindex := Z.of_nat (length (rtable query)) in
      if checkLimit query then handleLimit cat (rewriteSPJQuery fuel) query
      else
        '(query, subList) ← (if hasSubLinks query then rewriteSublinks (rewriteQueryNode fuel) query
                             else ret (query, []));
        if provSublinkRewritten query then ret query
        else rewriteSPJrestrict cat (rewriteQueryNode fuel) query subList maxRtindex
  end.

End nodes.

End RewriteNode.
