(* ===== verification/Driver.v ===== *)
(** * The driver of the rewriter
      ([src/src/backend/provrewrite/main/provrewrite.c], [removeDummyProvenanceTEs] of
       [src/src/backend/provrewrite/main/prov_adaptsuper.c])

    The rewriter gets every query.  It looks for the parts that are marked with PROVENANCE, at the top or
    below, and replaces each by its rewritten form.  The model is the default configuration: influence contribution and no
    selection push-down; utility statements and INTO are not part of the query trees here. *)

From Stdlib Require Import ZArith Lia.
From stdpp Require Import base strings numbers list.
From S2P Require Import Prelude ProvStack AttrName QueryTree RewriteSPJ RewriteAggr RewriteSet RewriteNode.
Import QueryTree RewriteSPJ RewriteAggr RewriteSet RewriteNode.

Module Driver.

(** ** The columns the parser added *)

Definition list_truncate {A} (l : list A) (new_size : nat) : list A := take new_size l.

(** The loop runs over the cells of the list it truncates; a cell that was cut off keeps its successor. *)
Fixpoint truncate_cells (cells : list TargetEntry) (pos : nat) (targetList : list TargetEntry) : list TargetEntry :=
  match cells with
  | [] => targetList
  | te :: cells =>
      truncate_cells cells (S pos) (if AttrName.isProvAttr (resname te) then list_truncate targetList pos else targetList)
  end.

Definition removeDummyProvenanceTEs (query : Query) : Query :=
  set_targetList (truncate_cells (targetList query) 0 (targetList query)) query.

(** ** The marked parts of a query *)

Fixpoint hasProvenanceSubquery (query : Query) : bool :=
  if shouldRewrite query then true else existsb provenance_rte (rtable query)
with provenance_rte (rte : RangeTblEntry) : bool :=
  match rtekind rte with
  | RTE_SUBQUERY => match subquery rte with Some q => hasProvenanceSubquery q | None => false end
  | _ => false
  end.

Section driver.
Context `{AggSublinks} `{SpjHelpers} (cat : syscache) (prov_use_set_optimization prov_use_wl_union_semantics : bool) (fuel : nat).

(** [resetRelReferences(); resetUniqueNameGens();] *)
Definition reset_names : W unit :=
  with_refs AttrName.resetRelReferences;;
  modify (λ s, mkRw (pStack s) (baseRelStackActive s) (baseRelStack s) (refs s) ProvStack.resetUniqueNameGens).

(** The first marked node on every path is rewritten; its entry gets the names of the new columns. *)
Fixpoint traverseQueryTree (query : Query) : W Query :=
  if shouldRewrite query then
    reset_names;;
    rewriteQueryNode cat prov_use_set_optimization prov_use_wl_union_semantics fuel (removeDummyProvenanceTEs query)
  else
    rtes ← (fix go (rtes : list RangeTblEntry) : W (list RangeTblEntry) :=
              match rtes with
              | [] => ret []
              | rte :: rtes => rte ← traverse_rte rte; rtes ← go rtes; ret (rte :: rtes)
              end) (rtable query);
    ret (set_rtable rtes query)
with traverse_rte (rteQuery : RangeTblEntry) : W RangeTblEntry :=
  match rtekind rteQuery with
  | RTE_SUBQUERY =>
      match subquery rteQuery with
      | None => throw Segv
      | Some query =>
          sub ← traverseQueryTree query;
          let rteQuery := set_subquery (Some sub) rteQuery in
          if shouldRewrite query then correctRTEAlias rteQuery else ret rteQuery
      end
  | _ => ret rteQuery
  end.

(** [relRefCount] of provrewrite.c, which is reset here, is not the counter list of prov_attrname.c and never read. *)
Definition provenanceRewriteQuery (query : Query) : W Query :=
  modify (λ s, mkRw [] (baseRelStackActive s) [] (refs s) (gens s));;
  if decide (commandType query = CMD_SELECT) then
    if hasProvenanceSubquery query then traverseQueryTree query else ret query
  else ret query.

(** Every query of a list, in order. *)
Fixpoint provenanceRewriteQueryList (queries : list Query) : W (list Query) :=
  match queries with
  | [] => ret []
  | query :: queries =>
      query ← provenanceRewriteQuery query;
      rest ← provenanceRewriteQueryList queries;
      ret (query :: rest)
  end.

End driver.

End Driver.
