(* ===== verification/RewriteFacts.v ===== *)
(** * What the rewriter builds

    For a well-formed range table the rewriter succeeds, and these lemmas describe the range table, the
    stack of provenance attributes, the join entries and the target entries it leaves. *)

From Stdlib Require Import ZArith Lia.
From stdpp Require Import base strings numbers list sets.
From S2P Require Import Prelude AttrName AttrNameProps QueryTree SqlSemantics SqlFacts Queries Sublevels RewriteSPJ.
Import QueryTree SqlSemantics SqlFacts Queries Sublevels RewriteSPJ.

Module RewriteFacts.

(** A target entry that is a plain column reference, with a name. *)
Definition is_col (te : TargetEntry) : Prop :=
  ∃ v, expr te = EVar v ∧ varlevelsup v = 0%Z ∧ is_Some (resname te).

(** Consecutive column numbers. *)
Abbreviation cols_from k n := (seqZ k (Z.of_nat n)).

Section facts.
Context (cat : syscache).

(** ** Base relations *)

Lemma expandTupleDesc_ok attrs k er i st :
  Forall (λ a, attisdropped a = false) attrs → Forall is_Some (colnames er) →
  ∃ ns vs, expandTupleDesc attrs k er i 0 st = Ok ((ns, vs), st) ∧
    length ns = length attrs ∧ length vs = length attrs ∧ Forall (λ v, varlevelsup v = 0%Z) vs.
Proof.
  intros Ha Hc. revert k. induction Ha as [|a attrs Hd _ IH]; intros k; cbn [expandTupleDesc].
  { by exists [], []. }
  rewrite Hd. destruct (IH (S k)) as (ns & vs & E & Hns & Hvs & Hl).
  assert (∃ label, (if decide (k < length (colnames er))%nat then deref (mjoin (colnames er !! k))
                    else ret (attname a)) st = Ok (label, st)) as [label El].
  { case_decide as Hk; [|by eexists].
    destruct (lookup_lt_is_Some_2 (colnames er) k Hk) as [c Ec]. rewrite Ec.
    destruct (Forall_lookup_1 _ _ _ _ Hc Ec) as [s ->]. by exists s. }
  hrun El. hrun E. eexists _, _. split; [done|]. cbn. split_and!; [lia|lia|by constructor].
Qed.

Lemma with_refs_ok {A} (m : M AttrName.counters A) a c st :
  m (refs st) = Ok (a, c) →
  with_refs m st = Ok (a, mkRw (pStack st) (baseRelStackActive st) (baseRelStack st) c (gens st)).
Proof. intros E. unfold with_refs. by rewrite E. Qed.

Lemma count_reference_ok r st :
  rtekind r = RTE_RELATION → isProvBase r = false →
  ∃ st', count_reference cat r st = Ok (r, st') ∧ pStack st' = pStack st.
Proof.
  intros Hk Hb. destruct (AttrName.ref_num (relid r) true (AttrName.relRefCount (refs st))) as [c l] eqn:E.
  assert (AttrName.getQueryRefNum (names cat) (attr_rte r) true (refs st) =
    Ok ((c, attr_rte r), AttrName.mkCounters l (AttrName.queryRefCount (refs st)))) as Eq.
  { unfold AttrName.getQueryRefNum.
    rewrite decide_True by (split; [unfold attr_rte; cbn; by rewrite Hk|done]).
    unfold AttrName.getRelationRefNum, bind.
    change (AttrName.relid (attr_rte r)) with (relid r). by rewrite E. }
  unfold count_reference. hrun (with_refs_ok _ _ _ _ Eq). eexists.
  split; [unfold attr_rte; cbn; destruct (alias r); reflexivity|done].
Qed.

Lemma base_entries_ok r vs ns cur st schema rel :
  rtekind r = RTE_RELATION → AttrName.get_rel_schema cat (relid r) = Some schema →
  AttrName.get_rel_name cat (relid r) = Some rel →
  length ns = length vs → Forall (λ v, varlevelsup v = 0%Z) vs →
  ∃ tes st', base_entries cat r vs ns cur st = Ok (tes, st') ∧ pStack st' = pStack st ∧
    resno <$> tes = cols_from (cur + 1) (length vs) ∧ Forall is_col tes.
Proof.
  intros Hk Hs Hn Hlen Hv. revert ns cur st Hlen.
  induction Hv as [|v vs Hv0 _ IH]; intros [|name ns] cur st Hlen; try done; cbn [base_entries].
  { exists [], st. by split_and!. }
  destruct (AttrNameProps.createProvAttrName_ok cat (attr_rte r) (relid r) name schema rel (refs st))
    as (n & l & _ & E); [unfold attr_rte; by rewrite Hk|done..|].
  hrun (with_refs_ok _ _ _ _ E).
  destruct (IH ns (cur + 1)%Z (mkRw (pStack st) (baseRelStackActive st) (baseRelStack st)
    (AttrName.mkCounters l (AttrName.queryRefCount (refs st))) (gens st))) as (tes & st' & E' & Hp & Hr & Hc); [by injection Hlen|].
  hrun E'. eexists _, st'. split; [done|]. split; [done|]. csimpl. rewrite Hr. split.
  - rewrite (seqZ_cons (cur + 1)) by (cbn; lia). f_equal. f_equal; cbn; lia.
  - constructor; [|done]. exists v. split_and!; [done..|by eexists].
Qed.

Lemma rewriteBaseRelation_ok i r st :
  rte_ok cat r = true → rtekind r = RTE_RELATION →
  ∃ st' pset, rewriteBaseRelation cat i r st = Ok (r, st') ∧ pStack st' = pset :: pStack st ∧
    resno <$> pset = cols_from 1 (length (rd_att cat (relid r))) ∧ Forall is_col pset.
Proof.
  intros Hr Hk. pose proof (rte_ok_spec cat r Hr) as (Hb & _ & _ & _ & [H|[(Hk' & _)|Hk']]); [|congruence..].
  destruct H as (_ & [schema Hs] & [rel Hn] & Hd & Hc).
  unfold rewriteBaseRelation, expandRTEWithParam. rewrite Hk.
  destruct (expandTupleDesc_ok (rd_att cat (relid r)) 0 (eref r) i st Hd Hc) as (ns & vs & E & Hns & Hvs & Hl).
  hrun E. destruct (count_reference_ok r st Hk Hb) as (st1 & E1 & P1). hrun E1.
  destruct (base_entries_ok r vs ns 0 st1 schema rel Hk Hs Hn ltac:(congruence) Hl) as (pset & st2 & E2 & P2 & Hres & Hcol).
  hrun E2. unfold push_pset. rewrite !bind_modify.
  exists (if baseRelStackActive st2 then mkRw (pset :: pStack st2) (baseRelStackActive st2) (r :: baseRelStack st2) (refs st2) (gens st2)
     else mkRw (pset :: pStack st2) (baseRelStackActive st2) (baseRelStack st2) (refs st2) (gens st2)), pset.
  rewrite Hvs in Hres. split; [cbn; by destruct (baseRelStackActive st2)|].
  split; [destruct (baseRelStackActive st2); cbn; congruence|done].
Qed.

(** ** Rows with provenance columns *)

Lemma attr_lookup k (t : tuple) : attr (Z.of_nat k + 1) t = default None (t !! k).
Proof. unfold attr. rewrite decide_True by lia. by replace (Z.to_nat (Z.of_nat k + 1 - 1)) with k by lia. Qed.

Lemma attr_nulls n m : attr n (nulls m) = None.
Proof.
  unfold attr, nulls. case_decide; [|done].
  destruct (replicate m None !! Z.to_nat (n - 1)) eqn:E; [|done]. by apply lookup_replicate in E as [-> _].
Qed.

Lemma attr_app_l n (t u : tuple) : (1 ≤ n ≤ Z.of_nat (length t))%Z → attr n (t ++ u) = attr n t.
Proof. intros Hn. unfold attr. rewrite !decide_True by lia. by rewrite lookup_app_l by lia. Qed.

(** The columns behind the first ones. *)
Lemma attrs_app (t u : tuple) :
  (λ n, attr n (t ++ u)) <$> cols_from (Z.of_nat (length t) + 1) (length u) = u.
Proof.
  apply list_eq. intros k. rewrite list_lookup_fmap.
  destruct (decide (k < length u)%nat) as [Hk|Hk].
  - rewrite lookup_seqZ_lt by lia. cbn [fmap option_fmap option_map].
    replace (Z.of_nat (length t) + 1 + Z.of_nat k)%Z with (Z.of_nat (length t + k) + 1)%Z by lia.
    rewrite attr_lookup, lookup_app_r by lia. replace (length t + k - length t)%nat with k by lia.
    by destruct (lookup_lt_is_Some_2 u k Hk) as [x ->].
  - rewrite lookup_seqZ_ge by lia. by rewrite lookup_ge_None_2 by lia.
Qed.

(** [t'] shows the first [w] columns of a row and, in the columns [rs], its witness. *)
Definition row_rel (w : nat) (rs : list Z) (p : row) (t' : tuple) : Prop :=
  (∀ n, (1 ≤ n ≤ Z.of_nat w)%Z → attr n p.1 = attr n t') ∧ (λ n, attr n t') <$> rs = p.2.

Lemma row_rel_app (t u : tuple) :
  row_rel (length t) (cols_from (Z.of_nat (length t) + 1) (length u)) (t, u) (t ++ u).
Proof. split; [|apply attrs_app]. intros n Hn. symmetry. by apply attr_app_l. Qed.

Lemma row_rel_self (t : tuple) : row_rel (length t) (cols_from 1 (length t)) (t, t) t.
Proof. split; [done|]. exact (attrs_app [] t). Qed.

Lemma row_rel_nulls w w' rs : row_rel w rs (nulls w, nulls (length rs)) (nulls w').
Proof.
  split; [intros n _; cbn [fst]; by rewrite !attr_nulls|]. cbn [snd]. induction rs as [|n rs IH]; csimpl; [done|].
  rewrite attr_nulls. unfold nulls in *. cbn. f_equal. exact IH.
Qed.

(** ** The range table *)

Section rtable.
Context (op_sem : operators) (db : Z → list tuple).
Context (db_ok : ∀ i t, t ∈ db i → length t = length (rd_att cat i)).

Abbreviation evalQ := (evalQuery op_sem cat db).
Abbreviation evalR := (evalRTE op_sem cat db).
Abbreviation provQ := (evalProv op_sem cat db).
Abbreviation provR := (evalProvRTE op_sem cat db).

Definition flatten (p : row) : tuple := p.1 ++ p.2.

(** A select without grouping in which DISTINCT compares all columns. *)
Definition open_select (q : Query) : Prop :=
  setOperations q = None ∧ grouped q = false ∧ Forall (shown q) (targetList q).

(** The contract of rewriting a query: [pl] are the provenance columns. *)
Record query_rw (q q' : Query) (pl : list TargetEntry) : Prop := {
  qr_cols : Forall is_col pl;
  qr_resno : resno <$> pl = cols_from (Z.of_nat (out_width q) + 1) (prov_width cat q);
  qr_targets : resno <$> targetList q' = cols_from 1 (out_width q + prov_width cat q);
  qr_shown : Forall (λ te, resjunk te = false ∧ is_Some (resname te)) (targetList q');
  qr_level0 : level0 q' = true;
  qr_widths : Forall (λ p, length p.1 = out_width q ∧ length p.2 = prov_width cat q) (provQ q);
  qr_eval : evalQ q' = flatten <$> provQ q;
  qr_select : open_select q' }.

(** The contract of rewriting a range table entry. *)
Record rte_rw (r r' : RangeTblEntry) (pset : list TargetEntry) : Prop := {
  rr_kind : rtekind r' = rtekind r;
  rr_sub : rtekind r = RTE_SUBQUERY → is_Some (subquery r');
  rr_alias : joinaliasvars r' = joinaliasvars r;
  rr_level0 : rte0 r' = true;
  rr_cols : Forall is_col pset;
  rr_width : length pset = rte_prov_width cat r;
  rr_rows : Forall2 (row_rel (rte_width cat r) (resno <$> pset)) (provR r) (evalR r') }.

Definition rewrites (rec : Query → W Query) (q : Query) : Prop :=
  ∀ st, ∃ q' st' pl, rec q st = Ok (q', st') ∧ pStack st' = pl :: pStack st ∧ query_rw q q' pl.

Lemma rewrite_base_ok rec i r st :
  rte_ok cat r = true → rtekind r = RTE_RELATION →
  ∃ r' st' pset, rewrite_rte cat rec i r st = Ok (r', st') ∧ pStack st' = pset :: pStack st ∧ rte_rw r r' pset.
Proof.
  intros Hr Hk. pose proof (rte_ok_spec cat r Hr) as (Hb & Hp & _ & _ & _).
  unfold rewrite_rte. rewrite Hp, decide_True by by left.
  destruct (rewriteBaseRelation_ok i r st Hr Hk) as (st' & pset & E & P & Hres & Hcol).
  exists r, st', pset. split; [done|]. split; [done|].
  assert (length pset = length (rd_att cat (relid r))) as Hlen.
  { apply (f_equal length) in Hres. rewrite length_fmap, length_seqZ in Hres. lia. }
  split; try done; [congruence|by eapply rte_ok_level0|..].
  - destruct r; cbn in *; by subst.
  - rewrite Hres. destruct r as [k rel sub ft vt jt av al er pb pa]. cbn in Hk |- *. subst k. cbn in *.
    apply Forall2_fmap_l, Forall_Forall2_diag, Forall_forall. intros t Ht.
    rewrite <- (db_ok _ _ Ht). apply row_rel_self.
Qed.

Lemma rewrite_sub_ok rec i r q st :
  rte_ok cat r = true → rtekind r = RTE_SUBQUERY → subquery r = Some q → rewrites rec q →
  ∃ r' st' pset, rewrite_rte cat rec i r st = Ok (r', st') ∧ pStack st' = pset :: pStack st ∧ rte_rw r r' pset.
Proof.
  intros Hr Hk Hq Hrec. pose proof (rte_ok_spec cat r Hr) as (Hb & Hp & _ & _ & _).
  unfold rewrite_rte. rewrite Hp, decide_False by (intros [?|?]; congruence). rewrite decide_True by done.
  rewrite Hq, bind_deref. destruct (Hrec st) as (q' & st' & pl & E & P & [Hc Hres _ _ Hl0 Hw He]). hrun E.
  exists (set_subquery (Some q') r), st', pl. split; [done|]. split; [done|].
  assert (length pl = prov_width cat q) as Hlen.
  { apply (f_equal length) in Hres. rewrite length_fmap, length_seqZ in Hres. lia. }
  destruct r as [k rel sub ft vt jt av al er pb pa]. cbn in Hk, Hq, Hb. subst k sub pb.
  split; try done.
  change (Forall2 (row_rel (out_width q) (resno <$> pl)) (provQ q) (evalQ q')).
  rewrite He, Hres. apply Forall2_fmap_r, Forall_Forall2_diag.
  eapply Forall_impl; [exact Hw|]. intros [t u] [H1 H2]. cbn in H1, H2. rewrite <- H1, <- H2. apply row_rel_app.
Qed.

Lemma rewrite_join_ok rec i r st :
  rte_ok cat r = true → rtekind r = RTE_JOIN →
  rewrite_rte cat rec i r st = Ok (r, st) ∧ rte_rw r r [].
Proof.
  intros Hr Hk. pose proof (rte_ok_spec cat r Hr) as (Hb & Hp & _ & _ & _).
  unfold rewrite_rte. rewrite Hp, decide_False by (intros [?|?]; congruence).
  rewrite decide_False by congruence. split; [done|].
  destruct r as [k rel sub ft vt jt av al er pb pa]. cbn in Hk, Hb. subst k pb. by split.
Qed.

(** The indexes of the entries that contribute, from [i] on, and their attributes. *)
Fixpoint contrib_from (i : Z) (rtes : list RangeTblEntry) : list Z :=
  match rtes with
  | [] => []
  | r :: rtes => (if contributes r then [i] else []) ++ contrib_from (i + 1) rtes
  end.

Fixpoint contrib_psets (rtes : list RangeTblEntry) (psets : list (list TargetEntry)) : list (list TargetEntry) :=
  match rtes, psets with
  | r :: rtes, p :: psets => (if contributes r then [p] else []) ++ contrib_psets rtes psets
  | _, _ => []
  end.

Lemma contributors_from q : contributors q = contrib_from 1 (rtable q).
Proof.
  unfold contributors. destruct q as [ct ha hs rt]. cbn [rtable]. clear.
  change 1%Z with (Z.of_nat 0 + 1)%Z at 2.
  assert (∀ k, fst <$> List.filter (λ p, contributes p.2) (imap (λ i r, ((Z.of_nat (k + i) + 1)%Z, r)) rt)
    = contrib_from (Z.of_nat k + 1) rt) as H; [|exact (H 0%nat)].
  induction rt as [|r rt IH]; intros k; [done|]. rewrite imap_cons. cbn [List.filter snd contrib_from].
  specialize (IH (S k)). replace (Z.of_nat k + 1 + 1)%Z with (Z.of_nat (S k) + 1)%Z by lia. rewrite <- IH.
  rewrite (imap_ext (Basics.compose (λ i r, ((Z.of_nat (k + i) + 1)%Z, r)) S) (λ i r, ((Z.of_nat (S k + i) + 1)%Z, r)))
    by (intros j x _; cbn; do 2 f_equal; lia).
  replace (k + 0)%nat with k by lia. by destruct (contributes r).
Qed.

Lemma contributes_kind r : contributes r = true ↔ rtekind r ≠ RTE_JOIN.
Proof. unfold contributes. rewrite negb_true_iff, bool_decide_eq_false. done. Qed.

Lemma rewrite_rtes_ok rec rtes i sl st :
  Forall (λ r, rte_ok cat r = true) rtes →
  (∀ r q, r ∈ rtes → rtekind r = RTE_SUBQUERY → subquery r = Some q → rewrites rec q) →
  ∃ rtes' psets st', rewrite_rtes cat rec (length rtes) i rtes sl st = Ok ((rtes', sl ++ contrib_from i rtes), st') ∧
    Forall3 rte_rw rtes rtes' psets ∧ pStack st' = reverse (contrib_psets rtes psets) ++ pStack st.
Proof.
  intros Hr. revert i sl st. induction Hr as [|r rtes Hr _ IH]; intros i sl st Hrec; cbn [rewrite_rtes length].
  { exists [], [], st. cbn. rewrite app_nil_r. split_and!; [done|constructor|done]. }
  pose proof (rte_ok_spec cat r Hr) as (Hb & Hp & Hnew & Hold & Hkind).
  rewrite decide_True by (split_and!; [done..|]; unfold ignoreRTE; by rewrite Hp).
  assert (∃ r' st1 pset, rewrite_rte cat rec i r st = Ok (r', st1) ∧
    pStack st1 = (if contributes r then [pset] else []) ++ pStack st ∧ rte_rw r r' pset) as (r' & st1 & pset & E & P & Hrw).
  { destruct Hkind as [(Hk & _)|[(Hk & q & Hq & _)|Hk]].
    - rewrite (proj2 (contributes_kind r)) by congruence. by apply rewrite_base_ok.
    - rewrite (proj2 (contributes_kind r)) by congruence. eapply rewrite_sub_ok; [done..|].
      eapply Hrec; [left|done..].
    - destruct (rewrite_join_ok rec i r st Hr Hk) as [E Hrw]. exists r, st, []. split; [done|]. split; [|done].
      destruct (contributes r) eqn:Ec; [|done]. by apply contributes_kind in Ec. }
  hrun E. rewrite (rr_kind _ _ _ Hrw).
  destruct (IH (i + 1)%Z (sl ++ if contributes r then [i] else []) st1) as (rtes' & psets & st' & E' & H3 & P').
  { intros s q Hs. apply Hrec. by right. }
  assert ((if decide (rtekind r = RTE_JOIN) then sl else sl ++ [i]) = sl ++ if contributes r then [i] else []) as ->.
  { case_decide as Hj; destruct (contributes r) eqn:Ec; rewrite ?app_nil_r; try done.
    - by apply contributes_kind in Ec.
    - destruct (decide (rtekind r = RTE_JOIN)); [done|]. apply contributes_kind in Hj. congruence. }
  hrun E'. exists (r' :: rtes'), (pset :: psets), st'. split_and!.
  - cbn. by rewrite (assoc_L (++)).
  - by constructor.
  - rewrite P', P. cbn [contrib_psets]. rewrite reverse_app, <- (assoc_L (++)). f_equal.
    by destruct (contributes r).
Qed.

(** Column names do not matter to the contract. *)
Lemma correctRTEAlias_ok r r' pset st :
  rte_rw r r' pset → ∃ r'', correctRTEAlias r' st = Ok (r'', st) ∧ rte_rw r r'' pset.
Proof.
  intros Hrw. pose proof Hrw as [Hk Hs Ha Hl Hc Hw Hr]. unfold correctRTEAlias.
  destruct (rtekind r') eqn:E; try (by exists r').
  destruct (Hs ltac:(congruence)) as [q Hq]. rewrite Hq, bind_deref. eexists. split; [done|].
  destruct r' as [k rel sub ft vt jt av al er pb pa]. cbn in E, Hq. subst k sub. split; done.
Qed.

Lemma correct_aliases_ok rtes rtes' psets st :
  Forall3 rte_rw rtes rtes' psets →
  ∃ rtes'', correct_aliases rtes' st = Ok (rtes'', st) ∧ Forall3 rte_rw rtes rtes'' psets.
Proof.
  induction 1 as [|r r' p rtes rtes' psets H _ (rtes'' & E & IH)]; cbn [correct_aliases].
  { exists []. split; [done|constructor]. }
  destruct (correctRTEAlias_ok r r' p st H) as (r'' & E' & H'). hrun E'. hrun E.
  exists (r'' :: rtes''). split; [done|by constructor].
Qed.

End rtable.

End facts.

End RewriteFacts.
