(* ===== verification/RewriteJoins.v ===== *)
(** * Join entries and column references after rewriting

    [computeJoinPAttrs] appends to every join entry the columns through which the provenance attributes of
    its arguments are reached, and [getRTindexForProvTE] follows these columns outwards.  Here
    it is shown that the reference it finds denotes the same value in every row of the
    rewritten FROM clause. *)

From Stdlib Require Import ZArith Lia.
From stdpp Require Import base strings numbers list sets.
From S2P Require Import Prelude AttrName QueryTree SqlSemantics SqlFacts Queries RewriteSPJ RewriteFacts.
Import QueryTree SqlSemantics SqlFacts Queries RewriteSPJ RewriteFacts.

Module RewriteJoins.

(** ** Range tables *)

Lemma rt_fetch_update {A} i j (x : A) l :
  is_Some (rt_fetch i l) → rt_fetch j (rt_update i x l) = if decide (j = i) then Some x else rt_fetch j l.
Proof.
  unfold rt_fetch, rt_update. case_decide as Hi; [|by intros [? ?]]. intros Hl%lookup_lt_is_Some.
  case_decide as Hj; case_decide as E.
  - subst. by rewrite list_lookup_insert_eq.
  - rewrite list_lookup_insert_ne; [done|lia].
  - lia.
  - done.
Qed.

Definition alias_in (rt : list RangeTblEntry) (i : Z) : list Var :=
  match rt_fetch i rt with Some r => joinaliasvars r | None => [] end.

Definition kind_in (rt : list RangeTblEntry) (i : Z) : option RTEKind := rtekind <$> rt_fetch i rt.

Definition agree_on (D : list Z) (rt rt' : list RangeTblEntry) : Prop :=
  ∀ i, i ∈ D → rt_fetch i rt = rt_fetch i rt'.

(** The join indexes of a tree. *)
Fixpoint joins (n : Node) : list Z :=
  match n with RangeTblRef _ => [] | JoinExpr _ l r _ J => joins l ++ joins r ++ [J] end.

Fixpoint leaves (n : Node) : list Z :=
  match n with RangeTblRef i => [i] | JoinExpr _ l r _ _ => leaves l ++ leaves r end.

Lemma joins_ids n : joins n ⊆ ids n.
Proof. induction n; simpl; set_solver. Qed.

(** ** Extending the join entries *)

Section joins.
(** The provenance attributes of the entries that are not joins, in the order of [sl] on the stack. *)
Context (P : Z → list TargetEntry) (sl : list Z) (st : rewriter).
Context (HP : ∀ i, Forall is_col (P i)).
Context (Hst : ∀ (k : nat) j, sl !! k = Some j →
  pStack st !! Z.to_nat (Z.of_nat (length sl) - 1 - Z.of_nat k) = Some (P j)).

(** The numbers of the provenance columns of an entry, when [rt] has become [rt']. *)
Definition rs (rt rt' : list RangeTblEntry) (i : Z) : list Z :=
  if decide (kind_in rt i = Some RTE_JOIN)
  then cols_from (Z.of_nat (length (alias_in rt i)) + 1)
         (length (alias_in rt' i) - length (alias_in rt i))
  else resno <$> P i.

(** The columns [vs] of a join stand for the columns [rs] of its arguments. *)
Definition stands_for (vs : list Var) (l r : Z) (rt rt' : list RangeTblEntry) : Prop :=
  (λ v, (varno v, varattno v)) <$> vs = (pair l <$> rs rt rt' l) ++ (pair r <$> rs rt rt' r) ∧
  Forall (λ v, varlevelsup v = 0%Z) vs.

Fixpoint join_fixed (rt rt' : list RangeTblEntry) (n : Node) : Prop :=
  match n with
  | RangeTblRef i => kind_in rt i ≠ Some RTE_JOIN
  | JoinExpr _ l r _ J =>
      join_fixed rt rt' l ∧ join_fixed rt rt' r ∧ kind_in rt J = Some RTE_JOIN ∧
      ∃ vs, alias_in rt' J = alias_in rt J ++ vs ∧ stands_for vs (root l) (root r) rt rt'
  end.

Lemma rs_ext D rt1 rt1' rt2 rt2' i :
  agree_on D rt1 rt2 → agree_on D rt1' rt2' → i ∈ D → rs rt1 rt1' i = rs rt2 rt2' i.
Proof. intros H H' Hi. unfold rs, kind_in, alias_in. by rewrite (H i Hi), (H' i Hi). Qed.

Lemma join_fixed_ext n rt1 rt1' rt2 rt2' :
  agree_on (ids n) rt1 rt2 → agree_on (ids n) rt1' rt2' → join_fixed rt1 rt1' n → join_fixed rt2 rt2' n.
Proof.
  induction n as [i|jt l IHl r IHr c J]; simpl; intros H H'.
  - unfold kind_in. by rewrite <- (H i) by set_solver.
  - intros (Hl & Hr & Hk & vs & Hvs & Hf & Hl0). split; [|split; [|split]].
    + apply IHl; [| |done]; intros i Hi; [apply H|apply H']; set_solver.
    + apply IHr; [| |done]; intros i Hi; [apply H|apply H']; set_solver.
    + unfold kind_in. by rewrite <- (H J) by set_solver.
    + exists vs. unfold alias_in in *. rewrite <- (H' J), <- (H J) by set_solver. split; [done|]. split; [|done].
      rewrite <- (rs_ext (ids l ++ ids r ++ [J]) rt1 rt1' rt2 rt2' (root l)),
              <- (rs_ext (ids l ++ ids r ++ [J]) rt1 rt1' rt2 rt2' (root r)); try done;
        pose proof (root_in_ids l); pose proof (root_in_ids r); set_solver.
Qed.

Lemma pset_of_ok stk i l len c pl s :
  (∀ (k : nat) j, l !! k = Some j → stk !! Z.to_nat (len - 1 - (c + Z.of_nat k)) = Some (P j)) →
  pset_of stk i l len c pl s = Ok (if decide (i ∈ l) then P i else pl, s).
Proof.
  revert c pl. induction l as [|j l IH]; intros c pl H; cbn [pset_of].
  { rewrite decide_False by apply not_elem_of_nil. done. }
  pose proof (H 0%nat j eq_refl) as H0. replace (c + Z.of_nat 0)%Z with c in H0 by lia.
  assert (∀ (k : nat) j, l !! k = Some j → stk !! Z.to_nat (len - 1 - (c + 1 + Z.of_nat k)) = Some (P j)) as H'.
  { intros k j' Hk. replace (c + 1 + Z.of_nat k)%Z with (c + Z.of_nat (S k))%Z by lia. by apply H. }
  destruct (decide (j = i)) as [->|Hj].
  - rewrite H0, bind_deref, IH by done. rewrite (decide_True (P := i ∈ i :: l)) by left. by case_decide.
  - rewrite bind_ret, IH by done. do 3 f_equal.
    destruct (decide (i ∈ l)) as [Hi|Hi]; [rewrite decide_True by (by right)|
      rewrite decide_False by (intros [?|?]%elem_of_cons; done)]; done.
Qed.

Lemma retarget_ok i pl s :
  Forall is_col pl →
  ∃ tes, retarget i pl s = Ok (tes, s) ∧ resno <$> tes = resno <$> pl ∧
    Forall (λ te, ∃ v, expr te = EVar v ∧ varno v = i ∧ varlevelsup v = 0%Z) tes.
Proof.
  induction 1 as [|te pl (v & Hv & Hl & _) _ (tes & E & Hr & Hc)]; cbn [retarget].
  { exists []. split_and!; [done..|constructor]. }
  unfold var_of. rewrite Hv, bind_ret. hrun E. eexists. split; [done|]. csimpl. rewrite Hr. split; [done|].
  constructor; [|done]. by eexists.
Qed.

Lemma join_attrs_ok J k pl s :
  Forall (λ te, ∃ v, expr te = EVar v ∧ varlevelsup v = 0%Z) pl →
  ∃ vars ns tes, join_attrs J k pl s = Ok ((vars, ns, tes), s) ∧
    Forall2 (λ te v, ∃ u, expr te = EVar u ∧ varno v = varno u ∧ varattno v = resno te ∧ varlevelsup v = 0%Z) pl vars ∧
    resno <$> tes = cols_from k (length pl) ∧
    Forall (λ te, ∃ v, expr te = EVar v ∧ varno v = J ∧ varlevelsup v = 0%Z) tes.
Proof.
  intros H. revert k. induction H as [|te pl (v & Hv & Hl) _ IH]; intros k; cbn [join_attrs].
  { exists [], [], []. split_and!; try constructor. }
  unfold var_of. rewrite Hv, bind_ret. destruct (IH (k + 1)%Z) as (vars & ns & tes & E & Hvs & Hr & Hc). hrun E.
  eexists _, _, _. split; [done|]. split; [|split].
  - constructor; [|done]. exists v. by cbn.
  - csimpl. rewrite Hr. rewrite (seqZ_cons k) by (cbn; lia). f_equal. f_equal; cbn; lia.
  - constructor; [|done]. by eexists.
Qed.

(** The pairs of number and owner that the attributes of an argument give. *)
Lemma stands_pairs i pl vars :
  Forall (λ te, ∃ v, expr te = EVar v ∧ varno v = i ∧ varlevelsup v = 0%Z) pl →
  Forall2 (λ te v, ∃ u, expr te = EVar u ∧ varno v = varno u ∧ varattno v = resno te ∧ varlevelsup v = 0%Z) pl vars →
  (λ v, (varno v, varattno v)) <$> vars = pair i <$> (resno <$> pl) ∧ Forall (λ v, varlevelsup v = 0%Z) vars.
Proof.
  intros Hpl H. induction H as [|te v pl vars (u & Hu & Hn & Ha & Hl) _ IH]; [by split|].
  apply Forall_cons in Hpl as [(u' & Hu' & Hi & _) Hpl]. destruct (IH Hpl) as [E1 E2]. csimpl.
  assert (u' = u) as -> by congruence. rewrite E1, Ha, Hn, Hi. split; [done|by constructor].
Qed.

Lemma rs_length_join rt rt' J vs :
  kind_in rt J = Some RTE_JOIN → alias_in rt' J = alias_in rt J ++ vs →
  rs rt rt' J = cols_from (Z.of_nat (length (alias_in rt J)) + 1) (length vs).
Proof.
  intros Hk Ha. unfold rs. rewrite decide_True by done. rewrite Ha, length_app.
  by replace (length (alias_in rt J) + length vs - length (alias_in rt J))%nat with (length vs) by lia.
Qed.

(** Rewriting a join tree only extends its join entries. *)
Definition extended (n : list Z) (rt rt' : list RangeTblEntry) : Prop :=
  ∀ i, match rt_fetch i rt, rt_fetch i rt' with
       | Some r, Some r' => (∃ vs e, r' = set_joincols (joinaliasvars r ++ vs) e r) ∧ (i ∉ n → r' = r)
       | None, None => True
       | _, _ => False
       end.

Lemma set_joincols_id r : r = set_joincols (joinaliasvars r ++ []) (eref r) r.
Proof. destruct r. unfold set_joincols. cbn. by rewrite app_nil_r. Qed.

Lemma extended_refl rt : extended [] rt rt.
Proof.
  intros i. destruct (rt_fetch i rt) as [r|]; [|done]. split; [|done]. exists [], (eref r). apply set_joincols_id.
Qed.

Lemma extended_trans n m rt1 rt2 rt3 : extended n rt1 rt2 → extended m rt2 rt3 → extended (n ++ m) rt1 rt3.
Proof.
  intros H1 H2 i. specialize (H1 i). specialize (H2 i).
  destruct (rt_fetch i rt1) as [r1|], (rt_fetch i rt2) as [r2|], (rt_fetch i rt3) as [r3|]; try done.
  destruct H1 as [(v1 & e1 & E1) F1], H2 as [(v2 & e2 & E2) F2]. split.
  - exists (v1 ++ v2), e2. subst. destruct r1. unfold set_joincols. cbn. by rewrite (assoc_L (++)).
  - intros Hi. rewrite F2 by set_solver. apply F1. set_solver.
Qed.

Lemma extended_update rt J r vs e :
  rt_fetch J rt = Some r → extended [J] rt (rt_update J (set_joincols (joinaliasvars r ++ vs) e r) rt).
Proof.
  intros HJ i. rewrite rt_fetch_update by by eexists. case_decide as Hi.
  - subst. rewrite HJ. split; [by eexists _, _|]. set_solver.
  - destruct (rt_fetch i rt) as [r'|]; [|done]. split; [|done]. exists [], (eref r'). apply set_joincols_id.
Qed.

Lemma extended_agree n D rt rt' : extended n rt rt' → n ## D → agree_on D rt rt'.
Proof.
  intros H Hd i Hi. specialize (H i). destruct (rt_fetch i rt), (rt_fetch i rt'); try done.
  destruct H as [_ H]. rewrite H; [done|]. set_solver.
Qed.

Lemma extended_kind n rt rt' i : extended n rt rt' → kind_in rt' i = kind_in rt i.
Proof.
  intros H. specialize (H i). unfold kind_in. destruct (rt_fetch i rt), (rt_fetch i rt'); try done.
  destruct H as [(vs & e & ->) _]. done.
Qed.

Lemma computeJoinPAttrs_ok n rt :
  NoDup (ids n) → (∀ J, J ∈ joins n → kind_in rt J = Some RTE_JOIN) →
  (∀ i, i ∈ leaves n → i ∈ sl ∧ kind_in rt i ≠ Some RTE_JOIN) →
  ∃ tes rt', computeJoinPAttrs n rt sl st = Ok ((tes, rt'), st) ∧ extended (joins n) rt rt' ∧
    resno <$> tes = rs rt rt' (root n) ∧
    Forall (λ te, ∃ v, expr te = EVar v ∧ varno v = root n ∧ varlevelsup v = 0%Z) tes ∧
    join_fixed rt rt' n.
Proof.
  revert rt. induction n as [i|jt l IHl r IHr c J]; intros rt HN HJ Hlv; cbn [computeJoinPAttrs].
  { rewrite bind_gets. destruct (Hlv i) as [Hi Hk]; [simpl; set_solver|].
    erewrite bind_ok by (apply pset_of_ok; intros k j Hkj; rewrite Z.add_0_l; by apply Hst).
    rewrite decide_True by done. destruct (retarget_ok i (P i) st (HP i)) as (tes & E & Hr & Hc). hrun E.
    exists tes, rt. split; [done|]. split; [apply extended_refl|]. split; [|done].
    unfold rs. simpl. by rewrite decide_False. }
  pose proof (nodup_join _ _ _ _ _ HN) as (Nl & Nr & Hd).
  assert ((J ∉ ids l) ∧ (J ∉ ids r)) as [Jl Jr].
  { simpl in HN. apply NoDup_app in HN as (_ & H1 & H2). apply NoDup_app in H2 as (_ & H2 & _). set_solver. }
  destruct (IHl rt Nl) as (tl & rt1 & El & Xl & Rl & Cl & Fl).
  { intros i Hi. apply HJ. simpl. set_solver. }
  { intros i Hi. apply Hlv. simpl. set_solver. }
  destruct (IHr rt1 Nr) as (tr & rt2 & Er & Xr & Rr & Cr & Fr).
  { intros i Hi. rewrite (extended_kind _ _ _ _ Xl). apply HJ. simpl. set_solver. }
  { intros i Hi. rewrite (extended_kind _ _ _ _ Xl). apply Hlv. simpl. set_solver. }
  pose proof (joins_ids l) as Il. pose proof (joins_ids r) as Ir.
  pose proof (HJ J ltac:(simpl; set_solver)) as HkJ.
  assert (rt_fetch J rt2 = rt_fetch J rt) as HfJ.
  { rewrite <- (extended_agree _ [J] _ _ Xr), <- (extended_agree _ [J] _ _ Xl); [done|set_solver..]. }
  unfold kind_in in HkJ. destruct (rt_fetch J rt) as [rJ|] eqn:EJ; [|done]. cbn in HkJ.
  hrun El. hrun Er. rewrite HfJ, bind_deref.
  destruct (join_attrs_ok J (Z.of_nat (length (joinaliasvars rJ)) + 1) (tl ++ tr) st) as (vars & ns & tes & E & Hvs & Hr & Hc).
  { apply Forall_app. split; (eapply Forall_impl; [eassumption|]); intros te (v & ? & ? & ?); eauto. }
  hrun E. set (rt3 := rt_update J _ rt2).
  assert (extended [J] rt2 rt3) as XJ by by apply extended_update.
  assert (alias_in rt3 J = alias_in rt J ++ vars) as HaJ.
  { unfold alias_in, rt3. rewrite rt_fetch_update by (rewrite HfJ; by eexists).
    rewrite decide_True by done. by rewrite EJ. }
  assert (kind_in rt J = Some RTE_JOIN) as HkJ' by (unfold kind_in; rewrite EJ; cbn; congruence).
  assert (agree_on (ids l) rt1 rt3) as Al.
  { intros i Hi. rewrite (extended_agree _ [i] _ _ Xr) by set_solver. apply (extended_agree _ [i] _ _ XJ); set_solver. }
  assert (agree_on (ids r) rt rt1 ∧ agree_on (ids r) rt2 rt3) as [Ar Ar'].
  { split; [apply (extended_agree _ _ _ _ Xl)|apply (extended_agree _ _ _ _ XJ)]; set_solver. }
  assert (length vars = length (tl ++ tr)) as Hlen by (symmetry; by eapply Forall2_length).
  exists tes, rt3. split; [done|]. split.
  { simpl. rewrite (assoc_L (++)). eapply extended_trans; [by eapply extended_trans|done]. }
  split; [|split; [done|]].
  { cbn [root]. rewrite Hr, (rs_length_join rt rt3 J vars HkJ' HaJ), Hlen. unfold alias_in. by rewrite EJ. }
  simpl. split; [by eapply join_fixed_ext; [| |exact Fl]|]. split; [|split; [done|]].
  { eapply join_fixed_ext; [| |exact Fr]; [|done]. intros i Hi. symmetry. by apply Ar. }
  exists vars. split; [done|]. apply Forall2_app_inv_l in Hvs as (vl & vr & Hvl & Hvr & ->).
  destruct (stands_pairs (root l) tl vl Cl Hvl) as [E1 L1]. destruct (stands_pairs (root r) tr vr Cr Hvr) as [E2 L2].
  split; [|by apply Forall_app]. rewrite fmap_app, E1, E2, Rl, Rr. f_equal; f_equal.
  - apply (rs_ext (ids l)); [done..|apply root_in_ids].
  - apply (rs_ext (ids r)); [|done|apply root_in_ids]. intros i Hi. symmetry. by apply Ar.
Qed.

Lemma correct_joins_ok ns rt :
  NoDup (concat (ids <$> ns)) →
  (∀ J, J ∈ concat (joins <$> ns) → kind_in rt J = Some RTE_JOIN) →
  (∀ i, i ∈ concat (leaves <$> ns) → i ∈ sl ∧ kind_in rt i ≠ Some RTE_JOIN) →
  ∃ rt', correct_joins ns rt sl st = Ok (rt', st) ∧ extended (concat (joins <$> ns)) rt rt' ∧
    Forall (join_fixed rt rt') ns.
Proof.
  revert rt. induction ns as [|n ns IH]; intros rt HN HJ Hlv; cbn [correct_joins].
  { exists rt. split_and!; [done|apply extended_refl|constructor]. }
  csimpl in HN. apply NoDup_app in HN as (N1 & Hd & N2).
  assert (∃ tes rt1, (if is_join n then computeJoinPAttrs n rt sl st else Ok (([], rt), st)) = Ok ((tes, rt1), st) ∧
    extended (joins n) rt rt1 ∧ join_fixed rt rt1 n) as (tes & rt1 & E & X & F).
  { destruct n as [i|jt l r c J]; cbn [is_join].
    - exists [], rt. split_and!; [done|apply extended_refl|]. apply (Hlv i). csimpl. set_solver.
    - destruct (computeJoinPAttrs_ok (JoinExpr jt l r c J) rt N1) as (tes & rt1 & E & X & _ & _ & F);
        [intros; apply HJ; csimpl; set_solver|intros; apply Hlv; csimpl; set_solver|]. eauto. }
  assert (concat (joins <$> ns) ⊆ concat (ids <$> ns)) as Hsub.
  { clear. induction ns as [|m ns IH]; csimpl; [set_solver|]. pose proof (joins_ids m). set_solver. }
  pose proof (joins_ids n) as Hsub'.
  destruct (IH rt1 N2) as (rt2 & E2 & X2 & F2).
  { intros J Hj. rewrite (extended_kind _ _ _ _ X). apply HJ. csimpl. set_solver. }
  { intros i Hi. rewrite (extended_kind _ _ _ _ X). apply Hlv. csimpl. set_solver. }
  exists rt2. split; [|split].
  - destruct (is_join n); [by hrun E|]. by injection E as _ ->.
  - csimpl. by eapply extended_trans.
  - constructor.
    + eapply join_fixed_ext; [| |exact F]; [done|]. apply (extended_agree _ _ _ _ X2). set_solver.
    + apply Forall_forall. intros m Hm. rewrite Forall_forall in F2.
      assert (ids m ⊆ concat (ids <$> ns)) as Hids.
      { intros i Hi. apply elem_of_concat. exists (ids m). split; [done|]. by apply list_elem_of_fmap_2. }
      eapply join_fixed_ext; [| |by apply F2]; [|done].
      intros i Hi. symmetry. apply (extended_agree _ [i] _ _ X); set_solver.
Qed.

(** ** Resolving a reference through the joins *)

Lemma alias_position_ok var l k found :
  (∃ v, v ∈ l ∧ varno v = varno var ∧ varattno v = varattno var) →
  ∃ (j : nat) v, alias_position var l k found = Some (k + Z.of_nat j)%Z ∧
    l !! j = Some v ∧ varno v = varno var ∧ varattno v = varattno var.
Proof.
  revert k found. induction l as [|u l IH]; intros k found (v & Hv & Hn & Ha); [by apply elem_of_nil in Hv|].
  cbn [alias_position].
  destruct (decide (Exists (λ v, varno v = varno var ∧ varattno v = varattno var) l)) as [Hl|Hl];
    rewrite Exists_exists in Hl.
  - destruct (IH (k + 1)%Z (if decide (varno u = varno var ∧ varattno u = varattno var) then Some k else found) Hl)
      as (j & w & E & Hw). exists (S j), w. split; [|done]. rewrite E. f_equal. lia.
  - assert (∀ k f, alias_position var l k f = f) as Hnone.
    { clear -Hl. induction l as [|w l IH]; intros k f; [done|]. cbn [alias_position]. rewrite decide_False.
      - apply IH. intros (x & Hx & Hx'). apply Hl. exists x. split; [by right|done].
      - intros Hw. apply Hl. exists w. split; [left|done]. }
    rewrite Hnone. apply elem_of_cons in Hv as [->|Hv]; [|exfalso; eauto].
    rewrite decide_True by done. exists 0%nat, u. split; [f_equal; lia|done].
Qed.

Lemma alias_position_app var l1 l2 k found :
  alias_position var (l1 ++ l2) k found =
  alias_position var l2 (k + Z.of_nat (length l1)) (alias_position var l1 k found).
Proof.
  revert k found. induction l1 as [|v l1 IH]; intros k found; cbn [app alias_position length].
  - f_equal. lia.
  - rewrite IH. f_equal. lia.
Qed.

Lemma follow_joins_app p p' rt v found s v1 :
  follow_joins p rt v found s = Ok (v1, s) →
  ∃ f, follow_joins (p ++ p') rt v found s = follow_joins p' rt v1 f s.
Proof.
  revert v found. induction p as [|J p IH]; intros v found; cbn [follow_joins app].
  - intros [= ->]. by eexists.
  - unfold bind. destruct (deref (rt_fetch J rt) s) as [[r s1]|] eqn:E; [|done].
    assert (s1 = s) as ->. { revert E. unfold deref. destruct (rt_fetch J rt); by intros [=]. }
    destruct (deref (alias_position v (joinaliasvars r) 1 found) s) as [[a s2]|] eqn:E'; [|done].
    assert (s2 = s) as ->. { revert E'. unfold deref. destruct (alias_position _ _ _ _); by intros [=]. }
    apply IH.
Qed.

End joins.

Section resolve.
Context (P : Z → list TargetEntry).
Context (op_sem : operators) (rt rt' : list RangeTblEntry).

Abbreviation settled_in := (settled op_sem id (λ t _ _, t) (alias_in rt')).

(** A reference denotes column [n] of entry [i]. *)
Definition denotes (v : Var) (i n : Z) (e : Z → tuple) : Prop :=
  attr (varattno v) (e (varno v)) = attr n (e i).

Lemma follow_join_step l r J vs v found s :
  kind_in rt J = Some RTE_JOIN → is_Some (rt_fetch J rt') →
  alias_in rt' J = alias_in rt J ++ vs → stands_for P vs l r rt rt' →
  (varno v = l ∨ varno v = r) → varattno v ∈ rs P rt rt' (varno v) → varlevelsup v = 0%Z →
  ∃ v', follow_joins [J] rt' v found s = Ok (v', s) ∧ varno v' = J ∧ varattno v' ∈ rs P rt rt' J ∧
    varlevelsup v' = 0%Z ∧
    ∀ e, e J = join_value op_sem id (λ t _ _, t) (alias_in rt') l r J e → denotes v' (varno v) (varattno v) e.
Proof.
  intros Hk [rJ HJ] Ha [Hvs Hl] Hlr Hin Hl0.
  assert (joinaliasvars rJ = alias_in rt J ++ vs) as Ej by (rewrite <- Ha; unfold alias_in; by rewrite HJ).
  assert (∃ u, u ∈ vs ∧ varno u = varno v ∧ varattno u = varattno v) as Hex.
  { assert ((varno v, varattno v) ∈ (λ v, (varno v, varattno v)) <$> vs) as Hv.
    { rewrite Hvs, elem_of_app. destruct Hlr as [E|E]; [left|right]; rewrite <- E;
        (apply list_elem_of_fmap; exists (varattno v); done). }
    apply list_elem_of_fmap in Hv as (u & [= E1 E2] & Hu). eauto. }
  cbn [follow_joins]. rewrite HJ, bind_deref, Ej, alias_position_app.
  destruct (alias_position_ok v vs (1 + Z.of_nat (length (alias_in rt J))) (alias_position v (alias_in rt J) 1 found) Hex)
    as (j & u & E & Hu & Hn & Hatt).
  rewrite E, bind_deref. eexists. split; [done|]. cbn [varno varattno varlevelsup move_var]. split; [done|].
  pose proof (lookup_lt_Some _ _ _ Hu) as Hj. split; [|split; [done|]].
  - rewrite (rs_length_join P rt rt' J vs Hk Ha). apply elem_of_seqZ. lia.
  - intros e HeJ. unfold denotes. cbn [varno varattno move_var]. rewrite HeJ. unfold join_value. rewrite Ha.
    replace (1 + Z.of_nat (length (alias_in rt J)) + Z.of_nat j)%Z
      with (Z.of_nat (length (alias_in rt J) + j) + 1)%Z by lia.
    rewrite attr_lookup, list_lookup_fmap, lookup_app_r by lia.
    replace (length (alias_in rt J) + j - length (alias_in rt J))%nat with j by lia.
    rewrite Hu. cbn. rewrite decide_True by (by eapply (Forall_lookup_1 _ _ _ _ Hl Hu)).
    unfold vals_of. cbn. by rewrite Hn, Hatt.
Qed.

Lemma follow_joins_ok n i path v found s :
  findRTindexInJoin i n = Some path → join_fixed P rt rt' n →
  (∀ J, J ∈ joins n → is_Some (rt_fetch J rt')) →
  varno v = i → varattno v ∈ rs P rt rt' i → varlevelsup v = 0%Z →
  ∃ v', follow_joins path rt' v found s = Ok (v', s) ∧ varno v' = root n ∧
    varattno v' ∈ rs P rt rt' (root n) ∧ varlevelsup v' = 0%Z ∧
    ∀ e, settled_in e n → denotes v' i (varattno v) e.
Proof.
  intros Hp Hf HJ Hi Hin Hl0. revert path Hp. induction n as [j|jt l IHl r IHr c J]; intros path Hp; simpl in Hp.
  { case_decide as Hj; [|done]. injection Hp as <-. subst j. exists v. cbn.
    split; [done|]. split; [done|]. split; [exact Hin|]. split; [done|].
    intros e _. unfold denotes. by rewrite Hi. }
  destruct Hf as (Fl & Fr & Hk & vs & Ha & Hs).
  assert (∃ m p, (m = l ∨ m = r) ∧ path = p ++ [J] ∧ findRTindexInJoin i m = Some p ∧
    (∀ p', findRTindexInJoin i m = Some p' → ∃ v', follow_joins p' rt' v found s = Ok (v', s) ∧ varno v' = root m ∧
      varattno v' ∈ rs P rt rt' (root m) ∧ varlevelsup v' = 0%Z ∧ ∀ e, settled_in e m → denotes v' i (varattno v) e))
    as (m & p & Hm & -> & Hp' & IH).
  { destruct (findRTindexInJoin i l) as [p|] eqn:El; [|destruct (findRTindexInJoin i r) as [p|] eqn:Er; [|done]];
      injection Hp as <-.
    - exists l, p. split_and!; auto. rewrite El. apply IHl; [done|]. intros; apply HJ; simpl; set_solver.
    - exists r, p. split_and!; auto. rewrite Er. apply IHr; [done|]. intros; apply HJ; simpl; set_solver. }
  destruct (IH p Hp') as (v1 & E1 & Hn1 & Ha1 & Hl1 & Hd1).
  destruct (follow_joins_app p [J] rt' v found s v1 E1) as [f E2].
  destruct (follow_join_step (root l) (root r) J vs v1 f s Hk) as (v2 & E3 & Hn2 & Ha2 & Hl2 & Hd2); try done.
  { apply HJ. simpl. set_solver. }
  { rewrite Hn1. destruct Hm as [->| ->]; auto. }
  { by rewrite Hn1. }
  exists v2. rewrite E2. split_and!; try done. intros e (Sl & Sr & SJ). specialize (Hd2 e SJ).
  assert (settled_in e m) as Sm by (destruct Hm as [->| ->]; done). specialize (Hd1 e Sm).
  unfold denotes in *. congruence.
Qed.

End resolve.

End RewriteJoins.
