(* ===== verification/RewriteEval.v ===== *)
(** * Evaluating a rewritten query

    The FROM clause of the rewritten query produces, row by row, the rows of the original one with their
    witnesses in the provenance columns, and the new target entries show exactly these columns. *)

From Stdlib Require Import ZArith Lia.
From stdpp Require Import base strings numbers list sets.
From S2P Require Import Prelude AttrName QueryTree SqlSemantics SqlFacts Queries RewriteSPJ RewriteFacts.
From S2P Require Import RewriteJoins.
Import QueryTree SqlSemantics SqlFacts Queries RewriteSPJ RewriteFacts RewriteJoins.

Module RewriteEval.

Section eval.
Context (op_sem : operators) (cat : syscache) (db : Z → list tuple).

Abbreviation evalR := (evalRTE op_sem cat db).
Abbreviation provR := (evalProvRTE op_sem cat db).

(** [q] is the original query; [rt1] its range table when the entries have been rewritten, [rt'] the
    one with extended joins, and [P] the attributes of the entries. *)
Context (q : Query) (rt1 rt' : list RangeTblEntry) (P : Z → list TargetEntry).
Context (Hq : from_ok cat q).
Context (Hrw : ∀ i, match rt_fetch i (rtable q), rt_fetch i rt1 with
  | Some r, Some r1 => rte_rw cat op_sem db r r1 (P i) | None, None => True | _, _ => False end).
Context (Hext : ∃ D, extended D rt1 rt').
Context (Hfix : Forall (join_fixed P rt1 rt') (fromlist q)).

Abbreviation rsn := (rs P rt1 rt').
Abbreviation settled_in := (settled op_sem id (λ t _ _, t) (alias_in rt')).

Lemma alias_rt1 i : alias_in rt1 i = aliases q i.
Proof.
  specialize (Hrw i). unfold alias_in, aliases. destruct (rt_fetch i (rtable q)), (rt_fetch i rt1); try done.
  by apply (rr_alias _ _ _ _ _ _ Hrw).
Qed.

Lemma kind_rt1 i : kind_in rt1 i = kind_at q i.
Proof.
  specialize (Hrw i). unfold kind_in, kind_at. destruct (rt_fetch i (rtable q)), (rt_fetch i rt1); try done.
  cbn. by rewrite (rr_kind _ _ _ _ _ _ Hrw).
Qed.

Lemma rsn_plain i : kind_at q i ≠ Some RTE_JOIN → rsn i = resno <$> P i.
Proof. intros Hk. unfold rs. by rewrite kind_rt1, decide_False. Qed.

(** How a row of the original query shows in the rewritten one. *)
Definition shows (i : Z) : row → tuple → Prop := row_rel (width cat q i) (rsn i).

Lemma shows_agree D e1 e2 :
  env_rel shows D e1 e2 →
  ∀ i n, i ∈ D → (1 ≤ n ≤ Z.of_nat (width cat q i))%Z → attr n (vals_of fst e1 i) = attr n (vals_of id e2 i).
Proof. intros He i n Hi Hn. destruct (He i Hi) as [H _]. by apply H. Qed.

(** The values of the columns a join has gained. *)
Lemma new_columns vs l r e1 e2 :
  stands_for P vs l r rt1 rt' → shows l (e1 l) (e2 l) → shows r (e1 r) (e2 r) →
  (λ v, eval_expr op_sem (vals_of id e2) (EVar v)) <$> vs = (e1 l).2 ++ (e1 r).2.
Proof.
  intros [Hvs Hl0] [_ Hl] [_ Hr].
  transitivity ((λ p, attr p.2 (e2 p.1)) <$> ((λ v, (varno v, varattno v)) <$> vs)).
  - rewrite <- list_fmap_compose. apply list_fmap_ext. intros k v Hv.
    rewrite Forall_forall in Hl0. cbn. rewrite decide_True; [done|]. apply Hl0. by eapply list_elem_of_lookup_2.
  - rewrite Hvs, fmap_app, <- !list_fmap_compose. by rewrite <- Hl, <- Hr.
Qed.

Lemma shows_join jt l r c J e1 e2 :
  node_ok cat q (JoinExpr jt l r c J) = true → join_fixed P rt1 rt' (JoinExpr jt l r c J) →
  env_rel shows (ids l ++ ids r) e1 e2 →
  shows J (bind_join op_sem fst join_row (aliases q) (root l) (root r) J e1 J)
          (bind_join op_sem id (λ t _ _, t) (alias_in rt') (root l) (root r) J e2 J).
Proof.
  intros Hn (_ & _ & HkJ & vs & Ha & Hs) He. cbn [node_ok] in Hn. repeat rewrite andb_true_iff in Hn.
  destruct Hn as ((((_ & _) & Hk%bool_decide_eq_true_1) & _) & Hal%forallb_Forall).
  unfold bind_join, bind_row. rewrite !decide_True by done. rewrite Ha, alias_rt1, fmap_app.
  assert ((λ v, eval_expr op_sem (vals_of id e2) (EVar v)) <$> aliases q J =
          (λ v, eval_expr op_sem (vals_of fst e1) (EVar v)) <$> aliases q J) as ->.
  { apply list_fmap_ext. intros k v Hv. symmetry. eapply eval_expr_agree; [|exact (shows_agree _ e1 e2 He)].
    rewrite Forall_forall in Hal. apply (Hal v). by eapply list_elem_of_lookup_2. }
  rewrite (new_columns vs (root l) (root r) e1 e2 Hs)
    by (apply He; pose proof (root_in_ids l); pose proof (root_in_ids r); set_solver).
  set (t := _ <$> aliases q J). set (u := (e1 (root l)).2 ++ (e1 (root r)).2).
  assert (length u = length vs) as Hu.
  { unfold u. destruct Hs as [Hvs _]. apply (f_equal length) in Hvs. rewrite length_app, !length_fmap in Hvs.
    rewrite length_app. destruct (He (root l)) as [_ <-]; [pose proof (root_in_ids l); set_solver|].
    destruct (He (root r)) as [_ <-]; [pose proof (root_in_ids r); set_solver|]. rewrite !length_fmap. lia. }
  unfold shows. rewrite (rs_length_join P rt1 rt' J vs HkJ Ha), alias_rt1.
  assert (length t = length (aliases q J)) as Ht by apply length_fmap.
  replace (width cat q J) with (length t).
  2:{ rewrite Ht. unfold width, aliases, kind_at in *. destruct (rt_fetch J (rtable q)) as [rJ|]; [|done].
      cbn in Hk. unfold rte_width. by injection Hk as ->. }
  rewrite <- Ht, <- Hu. apply row_rel_app.
Qed.

Lemma extended_fetch i r1 :
  rt_fetch i rt1 = Some r1 → ∃ r' vs e, rt_fetch i rt' = Some r' ∧ r' = set_joincols (joinaliasvars r1 ++ vs) e r1.
Proof.
  intros Hi. destruct Hext as [D H]. specialize (H i). rewrite Hi in H.
  destruct (rt_fetch i rt') as [r'|]; [|done]. destruct H as [(vs & e & ->) _]. eauto.
Qed.

Lemma node_sim_rewritten q2 n :
  rtable q2 = rt' → node_ok cat q n = true → join_fixed P rt1 rt' n →
  node_sim op_sem fst id join_row (λ t _ _, t)
    (λ i, default [] (rt_fetch i (map provR (rtable q)))) (λ i, default [] (rt_fetch i (map evalR rt')))
    (null_row cat q) (null_tuple cat q2) (aliases q) (alias_in rt') shows same_rows n.
Proof.
  intros H2 Hn Hf. induction n as [i|jt l IHl r IHr c J].
  - cbn [node_ok node_sim] in *. apply bool_decide_eq_true_1 in Hn. rewrite !rt_fetch_map.
    unfold null_row, null_tuple, shows, width. rewrite H2. rewrite rsn_plain by (destruct Hn; congruence).
    specialize (Hrw i). unfold kind_at in Hn.
    destruct (rt_fetch i (rtable q)) as [r|]; [|by destruct Hn].
    destruct (rt_fetch i rt1) as [r1|] eqn:E1; [|done].
    destruct (extended_fetch i r1 E1) as (r' & vs & e & -> & ->). cbn [fmap option_fmap option_map default].
    destruct Hrw as [_ _ _ _ _ Hw Hrows]. split.
    + unfold same_rows. replace (evalR (set_joincols _ _ _)) with (evalR r1) by (by destruct r1). done.
    + rewrite <- Hw, <- (length_fmap resno). apply row_rel_nulls.
  - pose proof Hn as Hn'. pose proof Hf as (Fl & Fr & _). cbn [node_ok node_sim] in Hn |- *.
    repeat rewrite andb_true_iff in Hn. destruct Hn as ((((Hl & Hr) & _) & Hc) & _).
    split; [by apply IHl|]. split; [by apply IHr|]. intros e1 e2 He. split.
    + eapply eval_qual_agree; [exact Hc|]. by apply shows_agree.
    + by eapply shows_join.
Qed.

Lemma scoped_rewritten n : node_ok cat q n = true → join_fixed P rt1 rt' n → scoped (alias_in rt') n.
Proof.
  induction n as [i|jt l IHl r IHr c J]; [done|]. cbn [node_ok scoped].
  repeat rewrite andb_true_iff. intros ((((Hl & Hr) & _) & _) & Ha%forallb_Forall) (Fl & Fr & _ & vs & E & [Hvs _]).
  split; [by apply IHl|]. split; [by apply IHr|]. rewrite E, alias_rt1. apply Forall_app. split.
  - eapply Forall_impl; [exact Ha|]. intros v. cbn. rewrite !andb_true_iff. intros [[_ Hv] _].
    by eapply bool_decide_eq_true_1.
  - apply Forall_forall. intros v Hv. assert ((varno v, varattno v) ∈ (λ v, (varno v, varattno v)) <$> vs) as Hin
      by (by apply list_elem_of_fmap; exists v).
    rewrite Hvs in Hin. pose proof (root_in_ids l). pose proof (root_in_ids r).
    apply elem_of_app in Hin as [(n & [= -> _] & _)%list_elem_of_fmap|(n & [= -> _] & _)%list_elem_of_fmap]; set_solver.
Qed.

(** The rows of FROM and WHERE, before and after. *)
Lemma solve_rewritten q2 :
  rtable q2 = rt' → fromlist q2 = fromlist q → quals q2 = quals q →
  Forall2 (λ e1 e2, env_rel shows (scope q) e1 e2 ∧ Forall (settled_in e2) (fromlist q))
    (solve_prov op_sem cat (map provR (rtable q)) q) (solve_plain op_sem cat (map evalR rt') q2).
Proof.
  intros H2 Hfl Hqu. pose proof (fo_scope _ _ Hq) as HN. pose proof (fo_nodes _ _ Hq) as Hn. pose proof (fo_quals _ _ Hq) as Hqq.
  assert (aliases q2 = alias_in rt') as Hal by (unfold aliases, alias_in; by rewrite H2).
  unfold solve_prov, solve_plain, solve. rewrite Hal, Hfl, Hqu.
  set (r1 := λ i, default [] (rt_fetch i (map provR (rtable q)))).
  set (r2 := λ i, default [] (rt_fetch i (map evalR rt'))).
  set (f1 := from_list op_sem fst join_row r1 (null_row cat q) (aliases q) (fromlist q) (null_row cat q)).
  set (f2 := from_list op_sem id (λ t _ _, t) r2 (null_tuple cat q2) (alias_in rt') (fromlist q) (null_tuple cat q2)).
  assert (Forall2 (λ e1 e2, env_rel shows (scope q) e1 e2 ∧ Forall (settled_in e2) (fromlist q)) f1 f2) as Hf.
  { assert (same_rows _ _ (env_rel shows (scope q)) f1 f2) as Hsim.
    { apply (from_list_sim op_sem fst id join_row (λ t _ _, t) r1 r2 _ _ _ _ shows same_rows (fromlist q) []).
      - pose proof Hfix as Hf'. rewrite Forall_forall in Hn, Hf' |- *. intros n Hin. apply node_sim_rewritten; auto.
      - intros i Hi. by apply elem_of_nil in Hi. }
    assert (Forall (λ e2, Forall (settled_in e2) (fromlist q)) f2) as Hset.
    { apply Forall_forall. intros e He. refine (proj1 (from_list_settled op_sem _ _ _ _ _ _ _ _ HN _ He)).
      pose proof Hfix as Hf'. rewrite Forall_forall in Hn, Hf' |- *. intros n Hin. apply scoped_rewritten; auto. }
    unfold same_rows in Hsim. clear -Hsim Hset. induction Hsim; constructor; inversion Hset; auto. }
  apply (rel_filter (L := same_rows)); [exact Hf|]. intros e1 e2 [He _].
  eapply eval_qual_agree; [exact Hqq|]. by apply shows_agree.
Qed.

(** ** Target entries *)

Lemma find_join_spec i ns :
  find_join i ns = [] ∨ ∃ n, n ∈ ns ∧ findRTindexInJoin i n = Some (find_join i ns).
Proof.
  induction ns as [|n ns IH]; cbn [find_join]; [by left|]. destruct (is_join n).
  - destruct (findRTindexInJoin i n) as [p|] eqn:E.
    + right. exists n. split; [left|done].
    + destruct IH as [?|(m & Hm & ?)]; [by left|]. right. exists m. split; [by right|done].
  - destruct IH as [?|(m & Hm & ?)]; [by left|]. right. exists m. split; [by right|done].
Qed.

Lemma join_kinds n J : join_fixed P rt1 rt' n → J ∈ joins n → kind_in rt1 J = Some RTE_JOIN.
Proof.
  induction n as [i|jt l IHl r IHr c K]; simpl; [intros _ ?%elem_of_nil; done|].
  intros (Fl & Fr & Hk & _). rewrite !elem_of_app, list_elem_of_singleton. intros [?|[?| ->]]; auto.
Qed.

Lemma resolve_ok q2 i n ty tm s :
  rtable q2 = rt' → fromlist q2 = fromlist q → n ∈ rsn i →
  ∃ v, getRTindexForProvTE q2 (makeVar i n ty tm 0) s = Ok (v, s) ∧ varlevelsup v = 0%Z ∧
    ∀ e, Forall (settled_in e) (fromlist q) → denotes v i n e.
Proof.
  intros H2 Hfl Hn. unfold getRTindexForProvTE. rewrite H2, Hfl. cbn [varno makeVar].
  destruct (find_join_spec i (fromlist q)) as [->|(m & Hm & Hp)]; [by eexists|].
  pose proof Hfix as Hf. rewrite Forall_forall in Hf.
  destruct (follow_joins_ok P op_sem rt1 rt' m i _ (makeVar i n ty tm 0) None s Hp (Hf m Hm))
    as (v & E & _ & _ & Hl & Hd); try done.
  { intros J HJ. pose proof (join_kinds m J (Hf m Hm) HJ) as Hk. unfold kind_in in Hk.
    destruct (rt_fetch J rt1) as [r1|] eqn:E1; [|done]. destruct (extended_fetch J r1 E1) as (r' & ? & ? & -> & _).
    by eexists. }
  exists v. split; [done|]. split; [done|]. intros e He. apply Hd. rewrite Forall_forall in He. auto.
Qed.

(** Fresh target entries for columns, numbered from [k]. *)
Definition fresh_entries (k : Z) (tes : list TargetEntry) : Prop :=
  resno <$> tes = cols_from k (length tes) ∧ Forall is_col tes ∧
  Forall (λ te, resjunk te = false ∧ ressortgroupref te = 0%Z) tes.

Lemma fresh_entries_cons k te tes :
  resno te = k → is_col te → resjunk te = false → ressortgroupref te = 0%Z →
  fresh_entries (k + 1) tes → fresh_entries k (te :: tes).
Proof.
  intros Hk Hc Hj Hs (Hr & Hcs & Hjs). split_and!; [|by constructor..]. csimpl. rewrite Hr, Hk.
  rewrite (seqZ_cons k) by (cbn; lia). f_equal. f_equal; cbn; lia.
Qed.

Lemma fresh_entries_app k tes tes' :
  fresh_entries k tes → fresh_entries (k + Z.of_nat (length tes)) tes' → fresh_entries k (tes ++ tes').
Proof.
  intros (Hr & Hc & Hj) (Hr' & Hc' & Hj'). split_and!; [|by apply Forall_app..].
  rewrite fmap_app, Hr, Hr', length_app, Nat2Z.inj_add, seqZ_app by lia. done.
Qed.

Abbreviation values e tes := ((λ te, eval_expr op_sem (vals_of id e) (expr te)) <$> tes).

Lemma prov_entries_ok q2 i pset k s :
  rtable q2 = rt' → fromlist q2 = fromlist q → Forall (λ te, resno te ∈ rsn i ∧ is_Some (resname te)) pset →
  ∃ tes, prov_entries q2 i pset k s = Ok (tes, s) ∧ length tes = length pset ∧ fresh_entries k tes ∧
    ∀ e, Forall (settled_in e) (fromlist q) → values e tes = (λ n, attr n (e i)) <$> (resno <$> pset).
Proof.
  intros H2 Hfl Hp. revert k. induction Hp as [|te pset [Hte Hname] _ IH]; intros k; cbn [prov_entries].
  { exists []. split_and!; [done..|repeat constructor|done]. }
  destruct (resolve_ok q2 i (resno te) (exprType (expr te)) (exprTypmod (expr te)) s H2 Hfl Hte) as (v & E & Hl & Hd).
  destruct (IH (k + 1)%Z) as (tes & E' & Hlen & Hfr & Hval). hrun E. hrun E'.
  eexists. split; [done|]. split; [by cbn; rewrite Hlen|]. split.
  - apply fresh_entries_cons; try done. by exists v.
  - intros e He. csimpl. rewrite Hval by done. f_equal. cbn. rewrite decide_True by done. exact (Hd e He).
Qed.

Lemma prov_entries_all_ok q2 (PS : Z → list TargetEntry) js k s :
  rtable q2 = rt' → fromlist q2 = fromlist q →
  (∀ i, i ∈ js → Forall (λ te, resno te ∈ rsn i ∧ is_Some (resname te)) (PS i)) →
  ∃ tes, prov_entries_all q2 js (PS <$> js) k s = Ok (tes, s) ∧ fresh_entries k tes ∧
    length tes = length (concat (PS <$> js)) ∧
    ∀ e, Forall (settled_in e) (fromlist q) →
      values e tes = concat ((λ i, (λ n, attr n (e i)) <$> (resno <$> PS i)) <$> js).
Proof.
  intros H2 Hfl. revert k. induction js as [|i js IH]; intros k Hrs; cbn [prov_entries_all].
  { exists []. split_and!; [done|repeat constructor|done..]. }
  cbn [fmap list_fmap hd_error tl concat]. rewrite bind_deref.
  destruct (prov_entries_ok q2 i (PS i) k s H2 Hfl) as (t1 & E1 & L1 & F1 & V1); [apply Hrs; left|].
  destruct (IH (k + Z.of_nat (length t1))%Z) as (t2 & E2 & F2 & L2 & V2); [intros j Hj; apply Hrs; by right|].
  hrun E1. hrun E2. exists (t1 ++ t2). split; [done|]. split; [by apply fresh_entries_app|]. split.
  - rewrite !length_app. congruence.
  - intros e He. rewrite fmap_app, V1, V2 by done. done.
Qed.

End eval.

End RewriteEval.
