(* ===== verification/RewriteMain.v ===== *)
(** * The select-project-join rewriter is correct

    If the subqueries of a select-project-join query are rewritten as they should, so is the query: the rewriter
    succeeds, pushes the provenance attributes, and the rewritten query evaluates to the original rows followed by
    their witnesses. *)

From Stdlib Require Import ZArith Lia.
From stdpp Require Import base strings numbers list sets.
From S2P Require Import Prelude AttrName QueryTree SqlSemantics SqlFacts Queries Sublevels RewriteSPJ.
From S2P Require Import RewriteFacts RewriteJoins RewriteEval.
Import QueryTree SqlSemantics SqlFacts Queries Sublevels RewriteSPJ RewriteFacts RewriteJoins RewriteEval.

Module RewriteMain.

Section main.
Context (op_sem : operators) (cat : syscache) (db : Z → list tuple).
Context (db_ok : ∀ i t, t ∈ db i → length t = length (rd_att cat i)).

Abbreviation evalQ := (evalQuery op_sem cat db).
Abbreviation evalR := (evalRTE op_sem cat db).
Abbreviation provQ := (evalProv op_sem cat db).
Abbreviation provR := (evalProvRTE op_sem cat db).
Abbreviation rte_rewritten := (rte_rw cat op_sem db).

(** ** The range table and the stack *)

(** The attributes of an entry by its index. *)
Definition pset_at (psets : list (list TargetEntry)) (i : Z) : list TargetEntry := default [] (rt_fetch i psets).

Lemma Forall3_fetch rtes rtes' psets i :
  Forall3 rte_rewritten rtes rtes' psets →
  match rt_fetch i rtes, rt_fetch i rtes' with
  | Some r, Some r' => rte_rewritten r r' (pset_at psets i)
  | None, None => True
  | _, _ => False
  end.
Proof.
  intros H. unfold pset_at, rt_fetch. case_decide; [|done].
  destruct (rtes !! Z.to_nat (i - 1)) as [r|] eqn:E.
  - destruct (Forall3_lookup_l _ _ _ _ _ _ H E) as (r' & p & -> & -> & Hr). done.
  - apply lookup_ge_None in E. rewrite (lookup_ge_None_2 rtes'); [done|].
    rewrite <- (Forall3_length_lm _ _ _ _ H). done.
Qed.

Lemma contrib_psets_at rtes psets i0 rest :
  (1 ≤ i0)%Z → length rtes = length psets →
  (∀ k p, psets !! k = Some p → rest (i0 + Z.of_nat k)%Z = p) →
  contrib_psets rtes psets = rest <$> contrib_from i0 rtes.
Proof.
  intros Hi Hlen. revert psets i0 Hi Hlen. induction rtes as [|r rtes IH]; intros [|p psets] i0 Hi Hlen H; try done.
  cbn [contrib_psets contrib_from]. rewrite fmap_app. f_equal.
  - destruct (contributes r); [|done]. cbn. pose proof (H 0%nat p eq_refl) as H0.
    rewrite Z.add_0_r in H0. by rewrite H0.
  - apply IH; [lia|by injection Hlen|]. intros k p' Hk. rewrite <- (H (S k) p' Hk). f_equal. lia.
Qed.

Lemma contrib_psets_pset_at rtes psets :
  length rtes = length psets → contrib_psets rtes psets = pset_at psets <$> contrib_from 1 rtes.
Proof.
  intros Hlen. apply contrib_psets_at; [lia|done|]. intros k p Hk. unfold pset_at, rt_fetch.
  rewrite decide_True by lia. by replace (Z.to_nat (1 + Z.of_nat k - 1)) with k by lia; rewrite Hk.
Qed.

Lemma prov_width_psets rtes rtes' psets :
  Forall3 rte_rewritten rtes rtes' psets →
  length (concat (contrib_psets rtes psets)) = sum_list (map (rte_prov_width cat) rtes).
Proof.
  induction 1 as [|r r' p rtes rtes' psets Hr _ IH]; [done|]. cbn [contrib_psets map sum_list].
  rewrite concat_app, length_app, IH. f_equal. rewrite <- (rr_width _ _ _ _ _ _ Hr).
  destruct (contributes r) eqn:Ec; [cbn; by rewrite app_nil_r|].
  assert (rtekind r = RTE_JOIN) as Hk.
  { destruct (decide (rtekind r = RTE_JOIN)) as [|Hk]; [done|]. apply contributes_kind in Hk. congruence. }
  rewrite (rr_width _ _ _ _ _ _ Hr). destruct r. cbn in *. by subst.
Qed.

Lemma contributes_in rtes i0 (k : nat) r :
  rtes !! k = Some r → contributes r = true → (i0 + Z.of_nat k)%Z ∈ contrib_from i0 rtes.
Proof.
  revert i0 k. induction rtes as [|r0 rtes IH]; intros i0 [|k] Hk Hc; try done; cbn [contrib_from].
  - injection Hk as ->. rewrite Hc, Z.add_0_r. by left.
  - apply elem_of_app. right. replace (i0 + Z.of_nat (S k))%Z with (i0 + 1 + Z.of_nat k)%Z by lia. by apply IH.
Qed.

Lemma contributor_of_kind q i k :
  kind_at q i = Some k → k ≠ RTE_JOIN → i ∈ contributors q.
Proof.
  intros Hk Hne. rewrite contributors_from. unfold kind_at, rt_fetch in Hk. case_decide as Hi; [|done].
  destruct (rtable q !! Z.to_nat (i - 1)) as [r|] eqn:E; [|done]. injection Hk as Hk.
  replace i with (1 + Z.of_nat (Z.to_nat (i - 1)))%Z by lia. eapply contributes_in; [done|].
  apply contributes_kind. congruence.
Qed.

Lemma contributor_kind q i : i ∈ contributors q → kind_at q i ≠ Some RTE_JOIN.
Proof.
  rewrite contributors_from. unfold kind_at. generalize (rtable q). intros rtes.
  assert (∀ i0, i ∈ contrib_from i0 rtes → ∃ k r, i = (i0 + Z.of_nat k)%Z ∧ rtes !! k = Some r ∧ contributes r = true) as H.
  { induction rtes as [|r rtes IH]; intros i0; cbn [contrib_from]; [by intros ?%elem_of_nil|].
    rewrite elem_of_app. intros [Hi|Hi].
    - destruct (contributes r) eqn:Ec; [|by apply elem_of_nil in Hi]. apply list_elem_of_singleton in Hi. subst.
      exists 0%nat, r. split_and!; [lia|done..].
    - destruct (IH _ Hi) as (k & r' & -> & Hk & Hc). exists (S k), r'. split_and!; [lia|done..]. }
  intros (k & r & -> & Hk & Hc)%H. unfold rt_fetch. rewrite decide_True by lia.
  replace (Z.to_nat (1 + Z.of_nat k - 1)) with k by lia. rewrite Hk. cbn.
  apply contributes_kind in Hc. congruence.
Qed.

Lemma stack_lookup {A} (l st : list A) (k : nat) x :
  l !! k = Some x → (reverse l ++ st) !! Z.to_nat (Z.of_nat (length l) - 1 - Z.of_nat k) = Some x.
Proof.
  intros Hk. pose proof (lookup_lt_Some _ _ _ Hk) as Hlt. rewrite lookup_app_l by (rewrite length_reverse; lia).
  rewrite reverse_lookup by lia.
  by replace (length l - S (Z.to_nat (Z.of_nat (length l) - 1 - Z.of_nat k)))%nat with k by lia.
Qed.

(** ** DISTINCT *)

Lemma distinct_items_ok pl cur tes scs :
  distinct_items cat pl cur = (tes, scs) →
  resno <$> tes = resno <$> pl ∧ expr <$> tes = expr <$> pl ∧ resjunk <$> tes = resjunk <$> pl ∧
  resname <$> tes = resname <$> pl ∧
  Forall (λ te, ressortgroupref te ∈ tleSortGroupRef <$> scs) tes.
Proof.
  revert cur tes scs. induction pl as [|te pl IH]; intros cur tes scs; cbn [distinct_items]; [by intros [= <- <-]|].
  destruct (distinct_items cat pl _) as [tes' scs'] eqn:E. intros [= <- <-].
  destruct (IH _ _ _ E) as (H1 & H2 & H3 & H4 & H5). csimpl. rewrite H1, H2, H3, H4. split_and!; try done.
  constructor; [by left|]. eapply Forall_impl; [exact H5|]. intros te' H. by right.
Qed.

(** ** The evaluation *)

Section node.
Context (q : Query) (rt1 rt' : list RangeTblEntry) (psets : list (list TargetEntry)) (tes : list TargetEntry).
Abbreviation P := (pset_at psets).
Abbreviation settled_in := (settled op_sem id (λ t _ _, t) (alias_in rt')).
Context (Hq : spj_query cat q).
Context (Hrw : Forall3 rte_rewritten (rtable q) rt1 psets).
Context (Hext : ∃ D, extended D rt1 rt').
Context (Hfix : Forall (join_fixed P rt1 rt') (fromlist q)).
Context (Htes : ∀ e, Forall (settled_in e) (fromlist q) →
  (λ te, eval_expr op_sem (vals_of id e) (expr te)) <$> tes =
  concat ((λ i, (λ n, attr n (e i)) <$> (resno <$> P i)) <$> contributors q)).

Lemma fetch_rw i :
  match rt_fetch i (rtable q), rt_fetch i rt1 with
  | Some r, Some r1 => rte_rewritten r r1 (P i) | None, None => True | _, _ => False end.
Proof. by apply Forall3_fetch. Qed.

(** One row of the rewritten query. *)
Lemma targets_rewritten q' e1 e2 :
  expr <$> targetList q' = (expr <$> targetList q) ++ (expr <$> tes) →
  env_rel (shows cat q rt1 rt' P) (scope q) e1 e2 → Forall (settled_in e2) (fromlist q) →
  flatten (targets op_sem fst q e1, witness q e1) = targets op_sem id q' e2 ∧ length (witness q e1) = length tes.
Proof.
  intros Ht He Hs.
  assert ((λ te, eval_expr op_sem (vals_of id e2) (expr te)) <$> tes = witness q e1) as Hw.
  { rewrite Htes by done. unfold witness. f_equal. apply list_fmap_ext. intros k i Hi%list_elem_of_lookup_2.
    destruct (He i) as [_ <-]; [by apply (fo_contributors _ _ Hq)|].
    rewrite (rsn_plain op_sem cat db q rt1 rt' P); [done|apply fetch_rw|by apply contributor_kind]. }
  split.
  - unfold flatten, targets. cbn [fst snd].
    transitivity (eval_expr op_sem (vals_of id e2) <$> (expr <$> targetList q')).
    + rewrite Ht, fmap_app, <- !list_fmap_compose, <- Hw. f_equal. apply list_fmap_ext. intros k te Hk.
      pose proof (spj_targets _ _ Hq) as Hte. rewrite Forall_forall in Hte.
      specialize (Hte te ltac:(by eapply list_elem_of_lookup_2)).
      unfold te_ok in Hte. rewrite !andb_true_iff in Hte. destruct Hte as [[_ Hte] _].
      eapply eval_expr_agree; [exact Hte|]. exact (shows_agree cat q rt1 rt' P _ e1 e2 He).
    + by rewrite <- list_fmap_compose.
  - by rewrite <- Hw, length_fmap.
Qed.

Lemma evalQuery_rewritten q' :
  select q' → limitOffset q' = limitOffset q → limitCount q' = limitCount q → limit_joins q = false →
  rtable q' = rt' → fromlist q' = fromlist q → quals q' = quals q →
  expr <$> targetList q' = (expr <$> targetList q) ++ (expr <$> tes) →
  Forall (shown q') (targetList q') → (distinctClause q' = [] ↔ distinctClause q = []) →
  evalQ q' = flatten <$> provQ q ∧
  Forall (λ p, length p.1 = length (targetList q) ∧ length p.2 = length tes) (provQ q).
Proof.
  intros Hpl Hlo Hlc Hlj Hrt Hfl Hqu Hex Hsh Hd.
  pose proof (solve_rewritten op_sem cat db q rt1 rt' P Hq fetch_rw Hext Hfix q' Hrt Hfl Hqu) as Hsol.
  assert (Forall2 (λ p t, flatten p = t ∧ length p.2 = length tes)
    (raw_prov op_sem cat (map provR (rtable q)) q) (raw_plain op_sem cat (map evalR (rtable q')) q')) as Hraw.
  { rewrite Hrt. apply Forall2_fmap. eapply Forall2_impl; [exact Hsol|]. intros e1 e2 [He Hs].
    by apply targets_rewritten. }
  assert (raw_plain op_sem cat (map evalR (rtable q')) q' = flatten <$> raw_prov op_sem cat (map provR (rtable q)) q) as Eraw.
  { clear -Hraw. induction Hraw as [|p t l k [Hpt _] _ IH]; [done|]. csimpl. by rewrite Hpt, IH. }
  assert (Forall (λ p, length p.1 = length (targetList q) ∧ length p.2 = length tes)
    (raw_prov op_sem cat (map provR (rtable q)) q)) as Hlen.
  { apply Forall_and. split; [apply raw_prov_length|]. clear -Hraw. induction Hraw as [|p t l k [_ Hp] _ IH]; by constructor. }
  rewrite evalQuery_select, Eraw, (evalProv_select op_sem cat db q)
    by (done || (by eapply te_ok_shown, Hq) || by eapply spj_select).
  cbv zeta. rewrite Hlj. assert (∀ l : list tuple, limited op_sem q' l = limited op_sem q l) as ->
    by (intros l; unfold limited; by rewrite Hlo, Hlc).
  rewrite <- limited_fmap. unfold dedup_if. destruct (distinctClause q) as [|d dc].
  { rewrite (proj2 Hd) by done. split; [done|by apply limited_Forall]. }
  destruct (distinctClause q') as [|d' dc'] eqn:Ed; [by destruct Hd as [Hd _]; discriminate Hd|].
  split; [f_equal|apply limited_Forall].
  - apply (dedup_on_fmap id id flatten (λ p, length p.1 = length (targetList q) ∧ length p.2 = length tes) [] []);
      try done. intros [t u] [t' u'] [H1 _] [H2 _]. cbn in *. split; [by intros [= -> ->]|].
    intros [-> ->]%app_inj_1; [done|congruence].
  - rewrite Forall_forall in Hlen |- *. intros p Hp%dedup_on_in. by apply Hlen.
Qed.

End node.

(** ** Query nodes *)

Lemma rewriteRTEs_ok rec q st :
  spj_query cat q →
  (∀ r s, r ∈ rtable q → rtekind r = RTE_SUBQUERY → subquery r = Some s → rewrites cat op_sem db rec s) →
  ∃ rtes' psets st', rewriteRTEs cat rec q [] (Z.of_nat (length (rtable q))) st =
      Ok ((set_rtable rtes' q, contributors q), st') ∧
    Forall3 rte_rewritten (rtable q) rtes' psets ∧
    pStack st' = reverse (pset_at psets <$> contributors q) ++ pStack st.
Proof.
  intros Hq Hrec. unfold rewriteRTEs. rewrite contributors_from.
  destruct (rewrite_rtes_ok cat op_sem db db_ok rec (rtable q) 1 [] st (fo_rtes _ _ Hq) Hrec)
    as (rtes' & psets & st' & E & H3 & Hp).
  rewrite contrib_psets_pset_at in Hp by by eapply Forall3_length_lr.
  exists rtes', psets. case_decide as Hlen.
  - assert (rtable q = []) as Hnil by (destruct (rtable q); [done|cbn in Hlen; lia]).
    rewrite Hnil in *. inversion H3; subst. exists st. split; [|done].
    unfold ret. do 3 f_equal. destruct q; cbn in *. by subst.
  - exists st'. rewrite Nat2Z.id. by hrun E.
Qed.

Lemma pop_psets_ok (l : list (list TargetEntry)) st0 st :
  pStack st = reverse l ++ st0 →
  pop_psets (length l) st = Ok (l, mkRw st0 (baseRelStackActive st) (baseRelStack st) (refs st) (gens st)).
Proof.
  intros Hp. unfold pop_psets. rewrite bind_gets, Hp, decide_True by (rewrite length_app, length_reverse; lia).
  unfold set_pStack. rewrite bind_modify. rewrite <- (length_reverse l), take_app_length, drop_app_length, reverse_involutive.
  done.
Qed.

Lemma tree_nodes q :
  from_ok cat q →
  (∀ J, J ∈ concat (joins <$> fromlist q) → kind_at q J = Some RTE_JOIN) ∧
  (∀ i, i ∈ concat (leaves <$> fromlist q) → i ∈ contributors q ∧ kind_at q i ≠ Some RTE_JOIN).
Proof.
  intros Hq. assert (∀ n, node_ok cat q n = true →
    (∀ J, J ∈ joins n → kind_at q J = Some RTE_JOIN) ∧
    (∀ i, i ∈ leaves n → i ∈ contributors q ∧ kind_at q i ≠ Some RTE_JOIN)) as Hn.
  { induction n as [i|jt l IHl r IHr c J]; cbn [node_ok joins leaves].
    - intros Hk%bool_decide_eq_true_1. split; [by intros J ?%elem_of_nil|]. intros j ->%list_elem_of_singleton.
      destruct Hk as [Hk|Hk]; (split; [by eapply contributor_of_kind|congruence]).
    - repeat rewrite andb_true_iff. intros ((((Hl & Hr) & Hk%bool_decide_eq_true_1) & _) & _).
      destruct (IHl Hl) as [A1 B1], (IHr Hr) as [A2 B2]. split.
      + intros K. rewrite !elem_of_app, list_elem_of_singleton. intros [?|[?| ->]]; auto.
      + intros i [?|?]%elem_of_app; auto. }
  pose proof (fo_nodes _ _ Hq) as Hns. rewrite Forall_forall in Hns.
  split; intros i (l & Hi & (n & -> & Hin)%list_elem_of_fmap)%elem_of_concat; by apply (Hn n (Hns n Hin)).
Qed.

(** The target list and the DISTINCT clause of the finished node. *)
Lemma finish_ok (q q2 : Query) tes st0 st :
  spj_query cat q → distinctClause q2 = distinctClause q →
  targetList q2 = targetList q ++ tes → fresh_entries (Z.of_nat (length (targetList q)) + 1) tes →
  pStack st = tes :: st0 →
  ∃ tes' dc st', (match distinctClause q2 with [] => ret q2 | _ => rewriteDistinctClause cat q2 end) st =
      Ok (set_distinctClause dc (set_targetList (targetList q ++ tes') q2), st') ∧
    pStack st' = tes' :: st0 ∧
    resno <$> tes' = resno <$> tes ∧ expr <$> tes' = expr <$> tes ∧ resname <$> tes' = resname <$> tes ∧
    Forall (λ te, resjunk te = false ∧ (dc ≠ [] → ressortgroupref te ∈ tleSortGroupRef <$> dc)) (targetList q ++ tes') ∧
    (dc = [] ↔ distinctClause q = []).
Proof.
  intros Hq Hd Ht (Hr & Hc & Hj) Hp. pose proof (te_ok_shown _ _ (spj_targets _ _ Hq)) as Hsh.
  rewrite Hd. destruct (distinctClause q) as [|d dc] eqn:Ed.
  - exists tes, [], st. split_and!; try done.
    + unfold ret. do 2 f_equal. destruct q2; cbn in *; by subst.
    + apply Forall_app. split; (eapply Forall_impl; [eassumption|]); by intros te [? _].
  - unfold rewriteDistinctClause. rewrite bind_gets, Hp. cbn [hd_error]. rewrite bind_deref.
    destruct (distinct_items cat tes (max_groupref (targetList q2) 0)) as [tes' scs] eqn:Ei.
    destruct (distinct_items_ok _ _ _ _ Ei) as (H1 & H2 & H3 & H4 & H5).
    unfold set_pStack. rewrite bind_modify. eexists tes', (distinctClause q2 ++ scs), _.
    rewrite Ht, length_app. replace (length (targetList q) + length tes - length tes)%nat with (length (targetList q)) by lia.
    rewrite take_app_length. split; [done|]. rewrite Hd. split_and!; try done.
    apply Forall_app. split; apply Forall_forall; intros te Hte; rewrite fmap_app.
    + rewrite Forall_forall in Hsh. destruct (Hsh te Hte) as [? Hsh']. split; [done|]. intros _.
      apply elem_of_app. left. rewrite Ed in Hsh'. by apply Hsh'.
    + split; [|intros _; apply elem_of_app; right; rewrite Forall_forall in H5; by apply H5].
      assert (resjunk te ∈ resjunk <$> tes') as Hin by by apply list_elem_of_fmap_2.
      rewrite H3 in Hin. apply list_elem_of_fmap in Hin as (te' & -> & Hte'). rewrite Forall_forall in Hj. by apply Hj.
Qed.

Lemma is_col_exprs pl tes :
  expr <$> pl = expr <$> tes → resname <$> pl = resname <$> tes → Forall is_col tes → Forall is_col pl.
Proof.
  revert tes. induction pl as [|te pl IH]; intros [|te' tes]; try done. csimpl. intros [= E1 E2] [= E3 E4] [Hc Hcs]%Forall_cons.
  constructor; [|by eapply IH]. destruct Hc as (v & Hv & Hl & Hn). exists v. by rewrite E1, E3.
Qed.

(** The rewritten node has no references to outer queries if its range table has none. *)
Lemma spj_level0 q rt' tes dc :
  spj_query cat q → Forall is_col tes → Forall (λ r, rte0 r = true) rt' →
  level0 (set_distinctClause dc (set_targetList (targetList q ++ tes) (set_rtable rt' q))) = true.
Proof.
  intros Hq Ht Hrt. apply level0_intro; cbn; [| | | | | |done].
  - eapply Forall_impl; [apply (fo_nodes _ _ Hq)|]. apply node_ok_level0.
  - eapply qual_ok_level0, (fo_quals _ _ Hq).
  - apply Forall_app. split.
    + eapply Forall_impl; [apply (spj_targets _ _ Hq)|]. apply te_ok_level0.
    + eapply Forall_impl; [exact Ht|]. intros te (v & -> & Hv & _). cbn. by apply bool_decide_eq_true.
  - pose proof (spj_grouped _ _ Hq) as Hg. unfold grouped in Hg. rewrite !orb_false_iff in Hg.
    destruct (havingQual q); [by destruct Hg|done].
  - by eapply limit_ok_level0, spj_limit_spec.
  - by eapply limit_ok_level0, spj_limit_spec.
Qed.

Lemma extended_level0 n rt1 rt' :
  extended n rt1 rt' → (∀ J, J ∈ n → kind_in rt1 J = Some RTE_JOIN) →
  Forall (λ r, rte0 r = true) rt1 → Forall (λ r, rte0 r = true) rt'.
Proof.
  intros H HJ Hr. rewrite Forall_lookup in Hr |- *. intros k r' Hk. specialize (H (Z.of_nat k + 1)%Z).
  specialize (HJ (Z.of_nat k + 1)%Z). unfold kind_in, rt_fetch in *. rewrite !decide_True in * by lia.
  replace (Z.to_nat (Z.of_nat k + 1 - 1)) with k in * by lia. rewrite Hk in H.
  destruct (rt1 !! k) as [r|] eqn:E; [|done]. destruct H as [(vs & e & Er) Hsame]. specialize (Hr k r E).
  destruct (decide (Z.of_nat k + 1 ∈ n)%Z) as [Hin|Hin]; [|by rewrite Hsame].
  specialize (HJ Hin). destruct r. cbn in *. injection HJ as ->. by subst.
Qed.

Lemma rewriteSPJrestrict_ok rec q st :
  spj_query cat q → limit_joins q = false →
  (∀ r s, r ∈ rtable q → rtekind r = RTE_SUBQUERY → subquery r = Some s → rewrites cat op_sem db rec s) →
  ∃ q' st' pl, rewriteSPJrestrict cat rec q [] (Z.of_nat (length (rtable q))) st = Ok (q', st') ∧
    pStack st' = pl :: pStack st ∧ query_rw cat op_sem db q q' pl.
Proof.
  intros Hq Hlj Hrec. unfold rewriteSPJrestrict.
  destruct (rewriteRTEs_ok rec q st Hq Hrec) as (rtes' & psets & st1 & E1 & H1 & P1). hrun E1.
  unfold correctSubQueryAlias. cbn [rtable set_rtable].
  destruct (correct_aliases_ok cat op_sem db (rtable q) rtes' psets st1 H1) as (rt1 & E2 & H2).
  erewrite bind_ok by (hrun E2; reflexivity). unfold correctJoinRTEs. cbn [rtable fromlist set_rtable].
  destruct (tree_nodes q Hq) as [HJ Hlv]. set (P := pset_at psets) in *.
  pose proof (fetch_rw q rt1 psets H2) as Hfetch.
  assert (∀ i, Forall is_col (P i)) as HP.
  { intros i. specialize (Hfetch i). unfold P, pset_at in *. destruct (rt_fetch i (rtable q)) as [r|] eqn:Er.
    - destruct (rt_fetch i rt1) as [r1|]; [|done]. apply (rr_cols _ _ _ _ _ _ Hfetch).
    - assert (rt_fetch i psets = None) as ->; [|constructor]. unfold rt_fetch in *. case_decide; [|done].
      apply lookup_ge_None in Er. apply lookup_ge_None. by rewrite <- (Forall3_length_lr _ _ _ _ H2). }
  destruct (correct_joins_ok P (contributors q) st1) with (ns := fromlist q) (rt := rt1) as (rt' & E3 & X & F).
  { exact HP. }
  { intros k j Hk. rewrite P1, <- (length_fmap P (contributors q)). apply stack_lookup. by rewrite list_lookup_fmap, Hk. }
  { apply (fo_scope _ _ Hq). }
  { intros J Hj. rewrite (kind_rt1 op_sem cat db q rt1 P Hfetch). by apply HJ. }
  { intros i Hi. rewrite (kind_rt1 op_sem cat db q rt1 P Hfetch). by apply Hlv. }
  erewrite bind_ok by (hrun E3; reflexivity). unfold addProvenanceAttrs. cbn [targetList set_rtable].
  set (q2 := set_rtable rt' (set_rtable rt1 (set_rtable rtes' q))).
  set (st2 := mkRw (pStack st) (baseRelStackActive st1) (baseRelStack st1) (refs st1) (gens st1)).
  destruct (prov_entries_all_ok op_sem q rt1 rt' P) with (q2 := q2) (PS := P) (js := contributors q) (s := st2)
    (k := (Z.of_nat (length (targetList q)) + 1)%Z) as (tes & E4 & Hfr & Hlen & Hval); try done; [by eexists|..].
  { intros i Hi. rewrite (rsn_plain op_sem cat db q rt1 rt' P) by (done || by apply contributor_kind).
    pose proof (HP i) as Hc. rewrite Forall_forall in Hc |- *. intros te Hte.
    split; [by apply list_elem_of_fmap_2|]. by destruct (Hc te Hte) as (_ & _ & _ & ?). }
  erewrite bind_ok.
  2:{ rewrite <- (length_fmap P (contributors q)). hrun (pop_psets_ok (P <$> contributors q) (pStack st) st1 P1).
      hrun E4. reflexivity. }
  cbv iota beta. unfold push_pset. rewrite bind_modify. cbn [app].
  destruct (finish_ok q (set_targetList (targetList q ++ tes) q2) tes (pStack st)
    (mkRw (tes :: pStack st2) (baseRelStackActive st2) (baseRelStack st2) (refs st2) (gens st2)) Hq)
    as (tes' & dc & st' & E5 & P5 & R1 & R2 & R3 & R4 & R5); try done.
  eexists _, st', tes'. split; [exact E5|]. split; [done|].
  assert (Forall is_col tes') as Hcol by (eapply is_col_exprs; [done..|apply Hfr]).
  assert (length tes' = length tes) as Hlen' by (by rewrite <- (length_fmap resno), R1, length_fmap).
  destruct (evalQuery_rewritten q rt1 rt' psets tes Hq H2)
    with (q' := set_distinctClause dc (set_targetList (targetList q ++ tes') (set_rtable rt' q))) as [Heval Hw]; try done.
  { by eexists. }
  { exact (spj_select _ _ Hq). }
  { cbn. by rewrite fmap_app, R2. }
  assert (length tes = prov_width cat q) as Hpw.
  { rewrite Hlen, contributors_from. unfold P.
    rewrite <- (contrib_psets_pset_at (rtable q)) by by eapply Forall3_length_lr.
    rewrite (prov_width_psets _ _ _ H2). by destruct q. }
  assert (out_width q = length (targetList q)) as How.
  { apply out_width_all. eapply Forall_impl; [eapply te_ok_shown, Hq|]. by intros te [? _]. }
  rewrite <- How in Hw. destruct Hfr as (Hres & _ & _).
  split; [done| | | | |by rewrite <- Hpw|exact Heval|].
  - rewrite R1, Hres, <- Hpw, How. done.
  - cbn. rewrite fmap_app, R1, Hres, (spj_numbered _ _ Hq), How, <- Hpw, Nat2Z.inj_add, seqZ_app by lia.
    f_equal. f_equal. lia.
  - cbn. apply Forall_app in R4 as [R4 R4']. apply Forall_app. split; apply Forall_and.
    + split; [eapply Forall_impl; [exact R4|]; by intros te [? _]|].
      eapply Forall_impl; [apply (spj_targets _ _ Hq)|]. intros te Hte. unfold te_ok in Hte. by checks.
    + split; [eapply Forall_impl; [exact R4'|]; by intros te [? _]|].
      eapply Forall_impl; [exact Hcol|]. by intros te (v & _ & _ & ?).
  - apply (spj_level0 q rt' tes' dc Hq Hcol). eapply extended_level0; [exact X| |].
    { intros J Hj. rewrite (kind_rt1 op_sem cat db q rt1 P Hfetch). by apply HJ. }
    apply Forall_lookup. intros k r1 Hk. destruct (Forall3_lookup_m _ _ _ _ _ _ H2 Hk) as (r & p & _ & _ & Hr).
    apply (rr_level0 _ _ _ _ _ _ Hr).
  - split_and!; [apply (spj_setops _ _ Hq)|apply (spj_grouped _ _ Hq)|exact R4].
Qed.

End main.

End RewriteMain.
