(* ===== verification/JoinChain.v ===== *)
(** * Chains of joins

    The queries the rewriters put on top of an aggregation or a set operation join the original query with one
    rewritten input after the other.  Their rows: for every row of the original query, the combinations of the
    partners it finds in each input. *)

From Stdlib Require Import ZArith Lia.
From stdpp Require Import base strings numbers list sets.
From S2P Require Import Prelude AttrName QueryTree SqlSemantics SqlFacts Queries Sublevels RewriteSPJ.
From S2P Require Import RewriteFacts RewriteJoins RewriteEval RewriteMain.
Import QueryTree SqlSemantics SqlFacts Queries Sublevels RewriteSPJ RewriteFacts RewriteJoins RewriteEval RewriteMain.

Module JoinChain.

(** Join the entry [s_right] under the name [s_join]. *)
Record step := mkStep { s_type : JoinType; s_qual : option Expr; s_right : Z; s_join : Z }.

Definition add_step (n : Node) (s : step) : Node :=
  JoinExpr (s_type s) n (RangeTblRef (s_right s)) (s_qual s) (s_join s).

Definition chain (steps : list step) : Node := foldl add_step (RangeTblRef 1) steps.

Lemma chain_snoc steps s : chain (steps ++ [s]) = add_step (chain steps) s.
Proof. unfold chain. by rewrite foldl_app. Qed.

Lemma root_snoc steps s : root (chain (steps ++ [s])) = s_join s.
Proof. by rewrite chain_snoc. Qed.

Lemma chain_ids steps : ids (chain steps) ≡ₚ 1%Z :: (s_right <$> steps) ++ (s_join <$> steps).
Proof.
  induction steps as [|s steps IH] using rev_ind; [done|]. rewrite chain_snoc. cbn [add_step ids].
  rewrite IH, !fmap_app. cbn. constructor. rewrite <- !app_assoc. apply Permutation_app_head.
  apply (Permutation_app_swap_app (s_join <$> steps) [s_right s] [s_join s]).
Qed.

(** The positions of a chain are those of its beginning. *)
Definition at_step (steps pre : list step) (s : step) : Prop := ∃ post, steps = pre ++ s :: post.

Lemma at_one_step s0 pre s : at_step [s0] pre s → pre = [] ∧ s = s0.
Proof. intros [post E]. destruct pre as [|? [|]]; cbn in E; by simplify_eq. Qed.

Lemma at_step_last steps s : at_step (steps ++ [s]) steps s.
Proof. by exists []. Qed.

Lemma at_step_app steps s0 pre s : at_step steps pre s → at_step (steps ++ [s0]) pre s.
Proof. intros [post ->]. exists (post ++ [s0]). by rewrite <- (assoc_L (++)). Qed.

(** ** Rows *)

Section rows.
Context (op_sem : operators) (rows : Z → list tuple) (null : Z → tuple) (alias : Z → list Var).

Abbreviation fromN := (from op_sem id (λ t _ _, t) rows null alias).

(** The first [w] columns of the original query decide which rows are partners: [test s t u]. *)
Context (w : nat) (test : step → tuple → tuple → bool).

Definition partners (s : step) (t : tuple) : list tuple :=
  let us := List.filter (test s t) (rows (s_right s)) in
  match s_type s, us with JOIN_LEFT, [] => [null (s_right s)] | _, _ => us end.

Definition combos (steps : list step) (t : tuple) : list (list tuple) :=
  foldl (λ acc s, acc ≫= λ us, (λ u, us ++ [u]) <$> partners s t) [[]] steps.

Lemma combos_snoc steps s t :
  combos (steps ++ [s]) t = combos steps t ≫= λ us, (λ u, us ++ [u]) <$> partners s t.
Proof. unfold combos. by rewrite foldl_app. Qed.

Definition agrees (t t' : tuple) : Prop := ∀ n, (1 ≤ n ≤ Z.of_nat w)%Z → attr n t = attr n t'.

(** What is needed of a join: its condition computes [test], and its first columns are those of the
    original query. *)
Record step_ok (L : Z) (s : step) : Prop := {
  so_type : s_type s = JOIN_LEFT ∨ s_type s = JOIN_INNER;
  so_qual : ∀ e t, agrees (e L) t → e (s_right s) ∈ rows (s_right s) →
    eval_qual op_sem e (s_qual s) = test s t (e (s_right s));
  so_cols : ∀ k : nat, (k < w)%nat →
    ∃ v, alias (s_join s) !! k = Some v ∧ varno v = L ∧ varattno v = (Z.of_nat k + 1)%Z ∧ varlevelsup v = 0%Z }.

Definition steps_ok (steps : list step) : Prop := ∀ pre s, at_step steps pre s → step_ok (root (chain pre)) s.

Definition view (steps : list step) (e : Z → tuple) : tuple * list tuple :=
  (e 1%Z, (λ s, e (s_right s)) <$> steps).

Lemma filter_fmap_bool {A B} (p : B → bool) (f : A → B) l :
  List.filter p (f <$> l) = f <$> List.filter (λ x, p (f x)) l.
Proof. induction l as [|x l IH]; csimpl; [done|]. rewrite IH. by destruct (p (f x)). Qed.

Lemma filter_ext_bool {A} (p p' : A → bool) l :
  (∀ x, x ∈ l → p x = p' x) → List.filter p l = List.filter p' l.
Proof.
  induction l as [|x l IH]; intros H; [done|]. cbn. rewrite H by left. rewrite IH; [done|].
  intros y Hy. apply H. by right.
Qed.

Lemma filter_all {A} (p : A → bool) l : (∀ x, p x = true) → List.filter p l = l.
Proof. intros H. induction l as [|x l IH]; [done|]. cbn. by rewrite H, IH. Qed.

Lemma bind_ext_elem {A B} (f g : A → list B) l : (∀ x, x ∈ l → f x = g x) → l ≫= f = l ≫= g.
Proof.
  induction l as [|x l IH]; intros H; [done|]. csimpl. rewrite H by left. f_equal. apply IH. intros y Hy. apply H. by right.
Qed.

Lemma fmap_of_bind {A B C} (f : A → list B) (g : B → C) l : g <$> (l ≫= f) = l ≫= λ x, g <$> f x.
Proof. induction l as [|x l IH]; csimpl; [done|]. by rewrite fmap_app, IH. Qed.

Lemma bind_of_bind {A B C} (f : A → list B) (g : B → list C) l : (l ≫= f) ≫= g = l ≫= λ x, f x ≫= g.
Proof. induction l as [|x l IH]; csimpl; [done|]. by rewrite bind_app, IH. Qed.

Lemma bind_of_fmap {A B C} (f : A → B) (g : B → list C) l : (f <$> l) ≫= g = l ≫= λ x, g (f x).
Proof. induction l as [|x l IH]; csimpl; [done|]. by rewrite IH. Qed.

(** One more join. *)
Lemma step_rows L s e :
  step_ok L s → L ≠ s_right s → s_right s ≠ 1%Z → s_join s ≠ 1%Z → agrees (e L) (e 1%Z) →
  let join := λ u, bind_join op_sem id (λ t _ _, t) alias L (s_right s) (s_join s) (bind_row (s_right s) u e) in
  (bind_join op_sem id (λ t _ _, t) alias L (s_right s) (s_join s) <$>
    match s_type s with
    | JOIN_LEFT => or_null op_sem id (λ t _ _, t) null alias (RangeTblRef (s_right s)) e
        (List.filter (λ e, eval_qual op_sem (vals_of id e) (s_qual s)) (fromN (RangeTblRef (s_right s)) e))
    | _ => List.filter (λ e, eval_qual op_sem (vals_of id e) (s_qual s)) (fromN (RangeTblRef (s_right s)) e)
    end) = join <$> partners s (e 1%Z) ∧
  ∀ u, agrees (join u (s_join s)) (e 1%Z).
Proof.
  intros [Ht Hq Hc] Hne H1 HJ He join. split.
  - cbn [from]. rewrite filter_fmap_bool.
    rewrite (filter_ext_bool _ (test s (e 1%Z))).
    2:{ intros u Hu. unfold vals_of. rewrite (Hq _ (e 1%Z)).
        - unfold id, bind_row. by rewrite decide_True.
        - intros n Hn. unfold id, bind_row. rewrite decide_False by congruence. by apply He.
        - unfold id, bind_row. by rewrite decide_True. }
    unfold partners. destruct Ht as [->| ->].
    + destruct (List.filter _ (rows _)) as [|u us]; cbn [fmap list_fmap or_null nullify]; [done|].
      rewrite <- list_fmap_compose. done.
    + by rewrite <- list_fmap_compose.
  - intros u n Hn. destruct (Hc (Z.to_nat (n - 1))) as (v & Hv & Hno & Hat & Hl); [lia|].
    unfold join, bind_join. unfold bind_row at 1. rewrite decide_True by done.
    unfold attr at 1. rewrite decide_True by lia. rewrite list_lookup_fmap, Hv. cbn.
    rewrite decide_True by done. unfold vals_of, id, bind_row. rewrite Hno, decide_False by done.
    rewrite Hat. replace (Z.of_nat (Z.to_nat (n - 1)) + 1)%Z with n by lia. by apply He.
Qed.

Lemma chain_rows steps e0 :
  NoDup (1%Z :: (s_right <$> steps) ++ (s_join <$> steps)) → steps_ok steps →
  view steps <$> fromN (chain steps) e0 = rows 1%Z ≫= (λ t, pair t <$> combos steps t) ∧
  Forall (λ e, agrees (e (root (chain steps))) (e 1%Z)) (fromN (chain steps) e0).
Proof.
  induction steps as [|s steps IH] using rev_ind; intros HN Hok.
  { cbn [chain foldl from root]. split; [|by apply Forall_forall].
    rewrite <- list_fmap_compose, fmap_as_bind. apply list_bind_ext; [|done]. intros t.
    cbn. unfold view, bind_row. by rewrite decide_True. }
  rewrite !fmap_app in HN. cbn in HN.
  assert (NoDup (1%Z :: (s_right <$> steps) ++ (s_join <$> steps)) ∧
    (s_right s ∉ 1%Z :: (s_right <$> steps) ++ (s_join <$> steps)) ∧
    (s_join s ∉ s_right s :: 1%Z :: (s_right <$> steps) ++ (s_join <$> steps))) as (HN' & Hr & HJ).
  { assert (1%Z :: ((s_right <$> steps) ++ [s_right s]) ++ (s_join <$> steps) ++ [s_join s] ≡ₚ
      s_join s :: s_right s :: 1%Z :: (s_right <$> steps) ++ (s_join <$> steps)) as HP.
    { rewrite (Permutation_app_comm (s_right <$> steps) [s_right s]), <- app_assoc. cbn.
      rewrite app_assoc, <- Permutation_cons_append.
      etrans; [apply perm_skip, perm_swap|]. etrans; [apply perm_swap|]. apply perm_skip, perm_swap. }
    rewrite HP in HN. apply NoDup_cons in HN as [? HN]. by apply NoDup_cons in HN as [? HN]. }
  destruct IH as [IH Hag]; [done|intros pre s' H; by apply Hok, at_step_app|].
  pose proof (Hok steps s (at_step_last _ _)) as Hs.
  assert (root (chain steps) ≠ s_right s) as Hne.
  { intros E. apply Hr. rewrite <- chain_ids, <- E. apply root_in_ids. }
  assert (fromN (chain (steps ++ [s])) e0 = fromN (chain steps) e0 ≫= λ e,
    (λ u, bind_join op_sem id (λ t _ _, t) alias (root (chain steps)) (s_right s) (s_join s) (bind_row (s_right s) u e))
      <$> partners s (e 1%Z)) as E.
  { rewrite chain_snoc. unfold add_step. cbn [from root].
    destruct (so_type _ _ Hs) as [Ht|Ht]; rewrite Ht, fmap_of_bind; apply bind_ext_elem;
      (intros e He; rewrite Forall_forall in Hag;
       destruct (step_rows (root (chain steps)) s e Hs) as [E _]; [done|set_solver..|by apply Hag|]; by rewrite Ht in E). }
  rewrite E, root_snoc. split.
  - rewrite fmap_of_bind.
    transitivity ((view steps <$> fromN (chain steps) e0) ≫= λ p, (λ u, (p.1, p.2 ++ [u])) <$> partners s p.1).
    + rewrite bind_of_fmap. apply bind_ext_elem. intros e _. rewrite <- list_fmap_compose. apply list_fmap_ext.
      intros k u _. cbn. unfold view. rewrite fmap_app. cbn.
      assert (∀ i, i ∈ 1%Z :: (s_right <$> steps) → bind_join op_sem id (λ t _ _, t) alias (root (chain steps)) (s_right s)
        (s_join s) (bind_row (s_right s) u e) i = e i) as Hi.
      { intros i Hi. unfold bind_join, bind_row. rewrite !decide_False; [done|intros ->..]; [apply Hr|apply HJ];
          rewrite ?elem_of_cons, ?elem_of_app in *; tauto. }
      rewrite Hi by left. f_equal. apply f_equal2.
      * apply list_fmap_ext. intros j s' Hs'. apply Hi. right. apply list_elem_of_fmap_2.
        by eapply list_elem_of_lookup_2.
      * unfold bind_join, bind_row. rewrite decide_False, decide_True; [done..|]. intros E'. apply HJ. rewrite E'. left.
    + rewrite IH, bind_of_bind. apply bind_ext_elem. intros t _. rewrite combos_snoc, fmap_of_bind, bind_of_fmap.
      apply bind_ext_elem. intros us _. cbn. by rewrite <- list_fmap_compose.
  - apply Forall_forall. intros f (e & (u & -> & Hu)%list_elem_of_fmap & He)%list_elem_of_bind.
    rewrite Forall_forall in Hag.
    destruct (step_rows (root (chain steps)) s e Hs) as [_ Ha]; [done|set_solver..|by apply Hag|].
    intros n Hn. rewrite Ha by done. unfold bind_join, bind_row. rewrite !decide_False by set_solver. done.
Qed.

(** The columns [RS i] of the partners, one after the other. *)
Definition attrs (ns : list Z) (u : tuple) : tuple := (λ n, attr n u) <$> ns.

Context (RS : Z → list Z).

Definition flat (steps : list step) (us : list tuple) : tuple :=
  concat (zip_with (λ s u, attrs (RS (s_right s)) u) steps us).

Definition extend (steps : list step) (t : tuple) : list tuple :=
  foldl (λ acc s, acc ≫= λ x, (λ y, x ++ y) <$> (attrs (RS (s_right s)) <$> partners s t)) [[]] steps.

Lemma combos_length steps t us : us ∈ combos steps t → length us = length steps.
Proof.
  revert us. induction steps as [|s steps IH] using rev_ind; intros us; [by intros ->%list_elem_of_singleton|].
  rewrite combos_snoc. intros (vs & (u & -> & _)%list_elem_of_fmap & Hvs)%list_elem_of_bind.
  rewrite !length_app, (IH vs Hvs). done.
Qed.

Lemma flat_combos steps t : flat steps <$> combos steps t = extend steps t.
Proof.
  induction steps as [|s steps IH] using rev_ind; [done|]. unfold extend. rewrite foldl_app. cbn [foldl].
  fold (extend steps t). rewrite <- IH, combos_snoc, fmap_of_bind, bind_of_fmap.
  apply bind_ext_elem. intros us Hus%combos_length. rewrite <- !list_fmap_compose. apply list_fmap_ext. intros k u _.
  cbn. unfold flat. rewrite zip_with_app by done. rewrite concat_app. cbn. by rewrite app_nil_r.
Qed.

Lemma flat_view steps e :
  flat steps (view steps e).2 = concat ((λ i, attrs (RS i) (e i)) <$> (s_right <$> steps)).
Proof.
  unfold flat, view. cbn [snd]. rewrite zip_with_fmap_r, zip_with_diag, <- list_fmap_compose. done.
Qed.

End rows.

(** ** The new top query *)

Section top.
Context (op_sem : operators) (cat : syscache) (db : Z → list tuple).
Abbreviation evalQ := (evalQuery op_sem cat db).
Abbreviation evalR := (evalRTE op_sem cat db).

(** The range table has the original query, the inputs and a join for each of them; a join has all columns of
    its arguments. *)
Record sub_entry (q : Query) (i : Z) : Prop := {
  se_numbered : ∃ r s, rt_fetch i (rtable q) = Some r ∧ rtekind r = RTE_SUBQUERY ∧ subquery r = Some s ∧
    resno <$> targetList s = cols_from 1 (width cat q i) }.

Definition join_cols (q : Query) (l r J : Z) : Prop :=
  ∃ rJ, rt_fetch J (rtable q) = Some rJ ∧ rtekind rJ = RTE_JOIN ∧
    (λ v, (varno v, varattno v)) <$> joinaliasvars rJ =
      (pair l <$> cols_from 1 (width cat q l)) ++ (pair r <$> cols_from 1 (width cat q r)) ∧
    Forall (λ v, varlevelsup v = 0%Z) (joinaliasvars rJ).

Record chain_query (q : Query) (steps : list step) : Prop := {
  cq_from : fromlist q = [chain steps];
  cq_quals : quals q = None;
  cq_plain : plain_select q;
  cq_distinct : distinctClause q = [];
  cq_nodup : NoDup (1%Z :: (s_right <$> steps) ++ (s_join <$> steps));
  cq_subs : ∀ i, i ∈ 1%Z :: (s_right <$> steps) → sub_entry q i;
  cq_joins : ∀ pre s, at_step steps pre s → join_cols q (root (chain pre)) (s_right s) (s_join s) }.

Context (q : Query) (steps : list step) (Hq : chain_query q steps).

Abbreviation rt := (rtable q).

(** The range table before the joins had columns: all columns of the inputs are then what a join gains. *)
Definition blank (r : RangeTblEntry) : RangeTblEntry :=
  match rtekind r with RTE_JOIN => set_joincols [] (eref r) r | _ => r end.

Definition all_cols (i : Z) : list TargetEntry :=
  match rt_fetch i rt with
  | Some r => match subquery r with Some s => targetList s | None => [] end
  | None => []
  end.

Lemma blank_kind i : kind_in (map blank rt) i = kind_in rt i.
Proof.
  unfold kind_in. rewrite rt_fetch_map. destruct (rt_fetch i rt) as [r|]; [|done]. cbn.
  unfold blank. by destruct r as [[]].
Qed.

Lemma blank_alias i : kind_in rt i = Some RTE_JOIN → alias_in (map blank rt) i = [].
Proof.
  unfold kind_in, alias_in. rewrite rt_fetch_map. destruct (rt_fetch i rt) as [r|]; [|done]. cbn.
  intros [= Hk]. unfold blank. by rewrite Hk.
Qed.

Lemma blank_extended : ∃ D, extended D (map blank rt) rt.
Proof.
  exists (seqZ 1 (Z.of_nat (length rt))). intros i. rewrite rt_fetch_map.
  destruct (rt_fetch i rt) as [r|] eqn:E; [|done]. cbn. split.
  - unfold blank. destruct (rtekind r) eqn:Hk; try (exists [], (eref r); apply set_joincols_id).
    exists (joinaliasvars r), (eref r). cbn. by destruct r.
  - intros Hi. exfalso. apply Hi. unfold rt_fetch in E. case_decide; [|done]. apply lookup_lt_Some in E.
    apply elem_of_seqZ. lia.
Qed.

(** All columns of an entry. *)
Lemma rs_sub i : sub_entry q i → rs all_cols (map blank rt) rt i = cols_from 1 (width cat q i).
Proof.
  intros [(r & s & Hr & Hk & Hs & Hn)]. unfold rs. rewrite blank_kind. unfold kind_in. rewrite Hr. cbn.
  rewrite decide_False by congruence. unfold all_cols. by rewrite Hr, Hs.
Qed.

Lemma rs_join l r J : join_cols q l r J → rs all_cols (map blank rt) rt J = cols_from 1 (width cat q J).
Proof.
  intros (rJ & HJ & Hk & _). assert (kind_in rt J = Some RTE_JOIN) as Hk' by (unfold kind_in; by rewrite HJ, <- Hk).
  unfold rs. rewrite blank_kind, decide_True, blank_alias by done. unfold alias_in, width. rewrite HJ. cbn.
  unfold rte_width. rewrite Hk. f_equal. lia.
Qed.

Lemma rs_root pre : (pre = [] ∨ ∃ pre' s, pre = pre' ++ [s] ∧ at_step steps pre' s) →
  rs all_cols (map blank rt) rt (root (chain pre)) = cols_from 1 (width cat q (root (chain pre))).
Proof.
  intros [->|(pre' & s & -> & Hs)].
  - apply rs_sub, (cq_subs _ _ Hq). left.
  - rewrite root_snoc. by eapply rs_join, (cq_joins _ _ Hq).
Qed.

Lemma at_step_pre pre s : at_step steps pre s → pre = [] ∨ ∃ pre' s', pre = pre' ++ [s'] ∧ at_step steps pre' s'.
Proof.
  intros [post E]. destruct pre as [|s' pre' _] using rev_ind; [by left|]. right. exists pre', s'. split; [done|].
  exists (s :: post). by rewrite E, <- (assoc_L (++)).
Qed.

(** The beginnings of the chain. *)
Definition begins (pre : list step) : Prop := ∀ pre' s, at_step pre pre' s → at_step steps pre' s.

Lemma begins_snoc pre s : begins (pre ++ [s]) → begins pre ∧ at_step steps pre s.
Proof. intros H. split; [intros pre' s' Hs; apply H; by apply at_step_app|apply H, at_step_last]. Qed.

Lemma right_in pre s : at_step steps pre s → s_right s ∈ 1%Z :: (s_right <$> steps).
Proof. intros [post ->]. right. rewrite fmap_app. csimpl. apply elem_of_app. right. left. Qed.

Lemma sub_kind i : sub_entry q i → kind_in (map blank rt) i ≠ Some RTE_JOIN.
Proof. intros [(r & s & Hr & Hk & _)]. rewrite blank_kind. unfold kind_in. rewrite Hr. cbn. congruence. Qed.

Lemma chain_fixed pre : begins pre → join_fixed all_cols (map blank rt) rt (chain pre).
Proof.
  induction pre as [|s pre IH] using rev_ind.
  { intros _. apply sub_kind, (cq_subs _ _ Hq). left. }
  intros [Hb Hs]%begins_snoc. rewrite chain_snoc. pose proof (cq_subs _ _ Hq _ (right_in _ _ Hs)) as Hr.
  pose proof (cq_joins _ _ Hq _ _ Hs) as (rJ & HJ & Hk & Hp & Hl).
  assert (kind_in rt (s_join s) = Some RTE_JOIN) as Hk' by (unfold kind_in; by rewrite HJ, <- Hk).
  cbn [add_step join_fixed]. split; [by apply IH|]. split; [by apply sub_kind|]. split; [by rewrite blank_kind|].
  exists (joinaliasvars rJ). split.
  - rewrite blank_alias by done. unfold alias_in. by rewrite HJ.
  - split; [|done]. cbn [root]. rewrite rs_root by (by eapply at_step_pre). by rewrite rs_sub.
Qed.

Lemma chain_scoped pre : begins pre → scoped (aliases q) (chain pre).
Proof.
  induction pre as [|s pre IH] using rev_ind; [done|]. intros [Hb Hs]%begins_snoc. rewrite chain_snoc.
  cbn [add_step scoped ids]. split; [by apply IH|]. split; [done|].
  pose proof (cq_joins _ _ Hq _ _ Hs) as (rJ & HJ & Hk & Hp & Hl). unfold aliases. rewrite HJ.
  apply Forall_forall. intros v Hv.
  assert ((varno v, varattno v) ∈ (λ v, (varno v, varattno v)) <$> joinaliasvars rJ) as Hin
    by (by apply list_elem_of_fmap; exists v).
  rewrite Hp in Hin. pose proof (root_in_ids (chain pre)). rewrite elem_of_app, list_elem_of_singleton.
  apply elem_of_app in Hin as [(n & [= -> _] & _)%list_elem_of_fmap|(n & [= -> _] & _)%list_elem_of_fmap]; auto.
Qed.

Lemma begins_all : begins steps.
Proof. by intros pre s. Qed.

Lemma join_width l r J : join_cols q l r J → width cat q J = (width cat q l + width cat q r)%nat.
Proof.
  intros (rJ & HJ & Hk & Hp & _). unfold width at 1. rewrite HJ. unfold rte_width. rewrite Hk.
  apply (f_equal length) in Hp. rewrite length_app, !length_fmap, !length_seqZ in Hp. lia.
Qed.

Lemma root_width pre : begins pre → (width cat q 1 ≤ width cat q (root (chain pre)))%nat.
Proof.
  induction pre as [|s pre IH] using rev_ind; [done|]. intros [Hb Hs]%begins_snoc. rewrite root_snoc.
  rewrite (join_width _ _ _ (cq_joins _ _ Hq _ _ Hs)). specialize (IH Hb). lia.
Qed.

Lemma at_step_begins pre s : at_step steps pre s → begins pre.
Proof. intros [post E] pre' s' [post' ->]. exists (post' ++ s :: post). by rewrite E, <- (assoc_L (++)). Qed.

(** A join has the columns of the original query first. *)
Lemma chain_first_cols pre s (k : nat) :
  at_step steps pre s → (k < width cat q 1)%nat →
  ∃ v, aliases q (s_join s) !! k = Some v ∧ varno v = root (chain pre) ∧ varattno v = (Z.of_nat k + 1)%Z ∧ varlevelsup v = 0%Z.
Proof.
  intros Hs Hk. pose proof (root_width pre (at_step_begins _ _ Hs)) as Hw.
  pose proof (cq_joins _ _ Hq _ _ Hs) as (rJ & HJ & Hkind & Hp & Hl). unfold aliases. rewrite HJ.
  assert (((λ v, (varno v, varattno v)) <$> joinaliasvars rJ) !! k = Some (root (chain pre), (Z.of_nat k + 1)%Z)) as E.
  { rewrite Hp, lookup_app_l, list_lookup_fmap, lookup_seqZ_lt by (rewrite ?length_fmap, ?length_seqZ; lia).
    cbn. do 2 f_equal. lia. }
  apply list_lookup_fmap_Some in E as (v & [= E1 E2] & Hv). exists v. rewrite Forall_forall in Hl.
  split_and!; try done. apply Hl. by eapply list_elem_of_lookup_2.
Qed.

(** The target list is made of columns [ns] of the original query; [PS] are the provenance attributes of the inputs. *)
Context (ns : list Z) (PS : Z → list TargetEntry).
Context (Hbase : Forall2 (λ te n, ∃ v, expr te = EVar v ∧ varno v = 1%Z ∧ varattno v = n ∧ varlevelsup v = 0%Z)
  (targetList q) ns).
Context (HPS : ∀ i, i ∈ s_right <$> steps →
  Forall is_col (PS i) ∧ Forall (λ te, (1 ≤ resno te ≤ Z.of_nat (width cat q i))%Z) (PS i)).

Abbreviation inputs := (s_right <$> steps).
Abbreviation settled_in := (settled op_sem id (λ t _ _, t) (alias_in rt)).
Abbreviation values e tes := ((λ te, eval_expr op_sem (vals_of id e) (expr te)) <$> tes).

Lemma add_prov_ok st st0 :
  pStack st = reverse (PS <$> inputs) ++ st0 →
  ∃ tes, addProvenanceAttrs q inputs [] st =
      Ok ((set_targetList (targetList q ++ tes) q, tes),
          mkRw st0 (baseRelStackActive st) (baseRelStack st) (refs st) (gens st)) ∧
    fresh_entries (Z.of_nat (length (targetList q)) + 1) tes ∧ length tes = length (concat (PS <$> inputs)) ∧
    ∀ e, settled_in e (chain steps) →
      values e tes = concat ((λ i, attrs (resno <$> PS i) (e i)) <$> inputs).
Proof.
  intros Hst. unfold addProvenanceAttrs.
  set (st2 := mkRw st0 (baseRelStackActive st) (baseRelStack st) (refs st) (gens st)).
  destruct (prov_entries_all_ok op_sem q (map blank rt) rt all_cols blank_extended) with
    (q2 := q) (PS := PS) (js := inputs) (k := (Z.of_nat (length (targetList q)) + 1)%Z) (s := st2)
    as (tes & E & Hfr & Hlen & Hval); try done.
  { rewrite (cq_from _ _ Hq). constructor; [apply chain_fixed, begins_all|constructor]. }
  { intros i Hi. rewrite rs_sub by (apply (cq_subs _ _ Hq); by right). destruct (HPS i Hi) as [Hc Hr].
    rewrite Forall_forall in Hc, Hr |- *. intros te Hte. specialize (Hr te Hte).
    split; [apply elem_of_seqZ; lia|]. by destruct (Hc te Hte) as (_ & _ & _ & ?). }
  exists tes. rewrite <- (length_fmap PS inputs). hrun (pop_psets_ok (PS <$> inputs) st0 st Hst). hrun E.
  split; [done|]. split; [done|]. split; [done|]. intros e He. apply Hval. rewrite (cq_from _ _ Hq). by constructor.
Qed.

Abbreviation rows := (λ i, default [] (rt_fetch i (map evalR rt))).

Lemma base_values e : values e (targetList q) = attrs ns (e 1%Z).
Proof.
  unfold attrs. pose proof Hbase as H. revert H. generalize (targetList q), ns. intros tl0 ns0 H.
  induction H as [|te n tl ms (v & Hv & Hno & Hat & Hl) _ IH]; csimpl; [done|]. rewrite IH, Hv. f_equal. cbn.
  rewrite decide_True by done. unfold vals_of, id. by rewrite Hno, Hat.
Qed.

Lemma eval_top tes test :
  steps_ok op_sem rows (aliases q) (width cat q 1) test steps →
  Forall (λ te, resjunk te = false) (targetList q ++ tes) →
  (∀ e, settled_in e (chain steps) → values e tes = concat ((λ i, attrs (resno <$> PS i) (e i)) <$> inputs)) →
  evalQ (set_targetList (targetList q ++ tes) q) =
    rows 1%Z ≫= λ t, (λ x, attrs ns t ++ x) <$>
      extend rows (null_tuple cat q) test (λ i, resno <$> PS i) steps t.
Proof.
  intros Hok Hj Hval. set (q' := set_targetList (targetList q ++ tes) q).
  rewrite evalQuery_eq.
  2:{ exact (cq_plain _ _ Hq). }
  2:{ eapply Forall_impl; [exact Hj|]. intros te H. split; [done|]. cbn. by rewrite (cq_distinct _ _ Hq). }
  unfold dedup_if. cbn [distinctClause q' set_targetList]. rewrite (cq_distinct _ _ Hq).
  unfold raw_plain, solve_plain, solve. cbn [fromlist quals rtable q' set_targetList]. rewrite (cq_from _ _ Hq), (cq_quals _ _ Hq).
  change (aliases q') with (aliases q). change (null_tuple cat q') with (null_tuple cat q).
  set (es := from_list _ _ _ _ _ _ _ _).
  rewrite filter_all by done.
  assert (es = from op_sem id (λ t _ _, t) rows (null_tuple cat q) (aliases q) (chain steps) (null_tuple cat q)) as Ees.
  { unfold es. cbn [from_list]. rewrite <- (list_fmap_id (from _ _ _ _ _ _ _ _)) at 2. by rewrite fmap_as_bind. }
  destruct (chain_rows op_sem rows (null_tuple cat q) (aliases q) (width cat q 1) test steps (null_tuple cat q)
    (cq_nodup _ _ Hq) Hok) as [Hrows _]. rewrite <- Ees in Hrows.
  transitivity ((λ p, attrs ns p.1 ++ flat (λ i, resno <$> PS i) steps p.2) <$> (view steps <$> es)).
  - rewrite <- list_fmap_compose. apply list_fmap_ext. intros k e He%list_elem_of_lookup_2. cbn [compose].
    unfold targets. cbn [targetList q' set_targetList]. rewrite fmap_app, base_values, Hval; [by rewrite flat_view|].
    destruct (from_list_settled op_sem id (λ t _ _, t) rows (null_tuple cat q) (aliases q) [chain steps] (null_tuple cat q) e)
      as [Hs _]; [|apply Forall_singleton, chain_scoped, begins_all|exact He|inversion Hs; subst; done].
    cbn. rewrite app_nil_r, chain_ids. apply (cq_nodup _ _ Hq).
  - rewrite Hrows, fmap_of_bind. apply bind_ext_elem. intros t _. rewrite <- flat_combos, <- !list_fmap_compose. done.
Qed.

End top.

(** ** The entries of the new top query *)

(** An entry for the subquery [s]. *)
Definition sub_rte (r : RangeTblEntry) (s : Query) : Prop :=
  (rtekind r = RTE_SUBQUERY ∧ isProvBase r = false) ∧ subquery r = Some s.

Definition named_rte (r : RangeTblEntry) (s : Query) : Prop :=
  sub_rte r s ∧ colnames (eref r) = resname <$> targetList s.

Definition shown_named (te : TargetEntry) : Prop := resjunk te = false ∧ is_Some (resname te).

Lemma correct_sub_ok r s st : sub_rte r s → ∃ r', correctRTEAlias r st = Ok (r', st) ∧ named_rte r' s.
Proof.
  intros [[Hk Hb] Hs]. unfold correctRTEAlias. rewrite Hk, Hs, bind_deref. eexists. split; [done|].
  destruct r. cbn in *. by subst.
Qed.

Lemma correct_subs_ok rtes subs st :
  Forall2 sub_rte rtes subs → ∃ rtes', correct_aliases rtes st = Ok (rtes', st) ∧ Forall2 named_rte rtes' subs.
Proof.
  induction 1 as [|r s rtes subs H _ (rtes' & E & IH)]; cbn [correct_aliases].
  { exists []. by split; [|constructor]. }
  destruct (correct_sub_ok r s st H) as (r' & E' & H'). hrun E'. hrun E. exists (r' :: rtes').
  split; [done|by constructor].
Qed.

Lemma sub_rte_eval op_sem cat db r s : sub_rte r s → evalRTE op_sem cat db r = evalQuery op_sem cat db s.
Proof. intros [[Hk Hb] Hs]. destruct r. cbn in *. by subst. Qed.

Lemma sub_rte_width cat r s :
  sub_rte r s → Forall shown_named (targetList s) → rte_width cat r = length (targetList s).
Proof.
  intros [[Hk Hb] Hs] Ht. unfold rte_width. rewrite Hk, Hs. apply out_width_all. eapply Forall_impl; [exact Ht|]. by intros te [].
Qed.

Lemma sub_rte_level0 r s : sub_rte r s → level0 s = true → rte0 r = true.
Proof. intros [[Hk Hb] Hs] H. destruct r. cbn in *. by subst. Qed.

(** The columns of such an entry. *)
Lemma expand_ok cat r s i st :
  named_rte r s → Forall shown_named (targetList s) →
  ∃ ns vs, expandRTEWithParam cat r i 0 st = Ok ((ns, vs), st) ∧
    (λ v, (varno v, varattno v)) <$> vs = pair i <$> cols_from 1 (length (targetList s)) ∧
    Forall (λ v, varlevelsup v = 0%Z) vs ∧ vartype <$> vs = (λ te, exprType (expr te)) <$> targetList s.
Proof.
  intros [[[Hk Hb] Hs] Hc] Ht. unfold expandRTEWithParam. rewrite Hk, Hs, bind_deref, Hc. clear -Ht.
  assert (∀ k, ∃ ns vs, expand_targets (targetList s) (resname <$> targetList s) k i 0 st = Ok ((ns, vs), st) ∧
    (λ v, (varno v, varattno v)) <$> vs = pair i <$> cols_from (k + 1) (length (targetList s)) ∧
    Forall (λ v, varlevelsup v = 0%Z) vs ∧ vartype <$> vs = (λ te, exprType (expr te)) <$> targetList s) as H; [|exact (H 0%Z)].
  induction Ht as [|te tl [Hj [name Hn]] _ IH]; intros k; cbn [expand_targets].
  { exists [], []. by split_and!. }
  rewrite Hj. csimpl. rewrite Hn. cbn [mjoin option_join]. rewrite bind_deref.
  destruct (IH (k + 1)%Z) as (ns & vs & E & H1 & H2 & H3). hrun E. eexists _, _. split; [done|]. csimpl. rewrite H1, H3.
  split; [|by split; [constructor|]]. rewrite (seqZ_cons (k + 1)) by (cbn; lia). csimpl. f_equal. do 2 f_equal; lia.
Qed.

Lemma sub_entry_of cat q i r s :
  rt_fetch i (rtable q) = Some r → sub_rte r s → Forall shown_named (targetList s) →
  resno <$> targetList s = cols_from 1 (length (targetList s)) → sub_entry cat q i.
Proof.
  intros Hr Hs Ht Hn. split. exists r, s. pose proof Hs as [[? _] ?]. split_and!; try done.
  unfold width. by rewrite Hr, (sub_rte_width cat r s).
Qed.

End JoinChain.
