(* ===== verification/Conditions.v ===== *)
(** * Join conditions

    The conditions the rewriters build compare columns pairwise, with NULLs equal to each other. *)

From Stdlib Require Import ZArith Lia.
From stdpp Require Import base strings numbers list.
From S2P Require Import Prelude AttrName QueryTree SqlSemantics SqlFacts Queries Sublevels.
From S2P Require Import RewriteSPJ JoinBuild RewriteAggr RewriteSet.
Import QueryTree SqlSemantics SqlFacts Queries Sublevels RewriteSPJ JoinBuild RewriteAggr RewriteSet.

Module Conditions.

Section conditions.
Context (op_sem : operators) (cat : syscache).

(** The truth values of conditions. *)
Definition computes (c : Expr) (b : (Z → tuple) → bool) : Prop := ∀ e, eval_expr op_sem e c = of_bool (b e).

Lemma computes_and c c' b b' :
  computes c b → computes c' b' → computes (EBoolExpr AND_EXPR [c; c']) (λ e, b e && b' e).
Proof. intros H H' e. cbn. rewrite H, H'. by destruct (b e), (b' e). Qed.

Lemma computes_not c b : computes c b → computes (EBoolExpr NOT_EXPR [c]) (λ e, negb (b e)).
Proof. intros H e. cbn. rewrite H. by destruct (b e). Qed.

Lemma computes_ext c b b' : computes c b → (∀ e, b e = b' e) → computes c b'.
Proof. intros H E e. by rewrite H, E. Qed.

Lemma computes_qual c b e : computes c b → eval_qual op_sem e (Some c) = b e.
Proof. intros H. cbn. rewrite H. by destruct (b e). Qed.

Abbreviation all_of bs := (λ e : Z → tuple, forallb (λ b : (Z → tuple) → bool, b e) bs).

Lemma computes_foldl f c b cs bs :
  (∀ c c' b b', computes c b → computes c' b' → computes (f c c') (λ e, b e && b' e)) →
  computes c b → Forall2 computes cs bs → computes (foldl f c cs) (λ e, b e && all_of bs e).
Proof.
  intros Hf Hc H. revert c b Hc. induction H as [|c' b' cs bs Hc' _ IH]; intros c b Hc; cbn [foldl].
  - eapply computes_ext; [done|]. intros e. cbn. by rewrite andb_true_r.
  - eapply computes_ext; [apply IH, Hf; done|]. intros e. cbn. by rewrite andb_assoc.
Qed.

Lemma and_all_ok cs bs : Forall2 computes cs bs → computes (and_all cs) (all_of bs).
Proof. intros [|c b cs' bs' Hc H]; [done|]. apply computes_foldl; [apply computes_and|done..]. Qed.

Lemma createAndFromList_ok cs bs :
  Forall2 computes cs bs →
  match createAndFromList cs with Some c => computes c (all_of bs) | None => bs = [] end.
Proof.
  intros [|c b cs' bs' Hc H]; [done|]. cbn [createAndFromList].
  assert (computes (foldl (λ result node, makeBoolExpr AND_EXPR [node; result]) c cs') (all_of (b :: bs'))) as Hf.
  { apply computes_foldl; [|done..]. intros x x' y y' Hx Hx'. eapply computes_ext; [by apply computes_and|].
    intros e. apply andb_comm. }
  destruct cs'; done.
Qed.

(** Equality of columns. *)
Definition eq_cols (i m j n : Z) (e : Z → tuple) : bool := bool_decide (attr m (e i) = attr n (e j)).

Definition comparable (te : TargetEntry) : Prop := is_Some (equality_oper cat (exprType (expr te))).

Lemma equal_conds_ok ls rs li ri st :
  Forall comparable ls →
  ∃ cs, equal_conds cat ls rs li ri st = Ok (cs, st) ∧ Forall (λ c, expr0 c = true) cs ∧
    Forall2 computes cs ((λ p, eq_cols (li + 1) (resno p.1) (ri + 1) (resno p.2)) <$> zip ls rs).
Proof.
  intros H. revert rs. induction H as [|te ls [[opno rty] Ho] _ IH]; intros [|te' rs]; cbn [equal_conds].
  1-3: by exists [].
  destruct (IH rs) as (cs & E & H0 & Hc). unfold createNotDistinctConditionForVars. cbn [vartype makeVar].
  rewrite Ho. erewrite bind_ok by reflexivity. hrun E. eexists. split; [done|]. split; [by constructor|].
  cbn. constructor; [|done]. intros e. cbn. unfold eq_cols. rewrite !decide_True by done. by case_bool_decide.
Qed.

(** The conditions on GROUP BY columns are of the same form. *)
Lemma group_conds_equal ls rs st : group_conds cat ls rs st = equal_conds cat ls rs 0 1 st.
Proof.
  revert rs st. induction ls as [|te ls IH]; intros [|te' rs] st; cbn [group_conds equal_conds]; try done.
  cbn. unfold createNotDistinctConditionForVars, bind. cbn. destruct (equality_oper cat _) as [[]|]; [|done]. cbn.
  by rewrite IH.
Qed.

Lemma foldl_expr0 f c cs :
  (∀ c c', expr0 c = true → expr0 c' = true → expr0 (f c c') = true) →
  expr0 c = true → Forall (λ c, expr0 c = true) cs → expr0 (foldl f c cs) = true.
Proof. intros Hf Hc H. revert c Hc. induction H; cbn; auto. Qed.

Lemma and_all_level0 cs : Forall (λ c, expr0 c = true) cs → expr0 (and_all cs) = true.
Proof. intros [|c cs' Hc H]; [done|]. apply foldl_expr0; [|done..]. intros x y Hx Hy. cbn. by rewrite Hx, Hy. Qed.

Lemma createAndFromList_level0 cs : Forall (λ c, expr0 c = true) cs → opt0 (createAndFromList cs) = true.
Proof.
  intros [|c cs' Hc H]; [done|]. cbn [createAndFromList].
  assert (expr0 (foldl (λ result node, makeBoolExpr AND_EXPR [node; result]) c cs') = true) as Hf.
  { apply foldl_expr0; [|done..]. intros x y Hx Hy. cbn. by rewrite Hx, Hy. }
  by destruct cs'.
Qed.

End conditions.

End Conditions.
