(* ===== verification/AggrFacts.v ===== *)
(** * The rewriter for aggregation is correct

    The input of the aggregation is a select-project-join query whose columns are the GROUP BY columns; joined with
    the original query on these columns it gives every row the witnesses of its group. *)

From Stdlib Require Import ZArith Lia.
From stdpp Require Import base strings numbers list sets sorting.
From S2P Require Import Prelude BubbleSort AttrName QueryTree SqlSemantics SqlFacts Queries ProvWitness Sublevels.
From S2P Require Import RewriteSPJ JoinBuild RewriteAggr RewriteFacts RewriteJoins RewriteEval RewriteMain JoinChain.
From S2P Require Import RewriteSet Conditions.
Import QueryTree SqlSemantics SqlFacts Queries ProvWitness Sublevels RewriteSPJ JoinBuild RewriteAggr RewriteFacts.
Import RewriteJoins RewriteEval RewriteMain JoinChain RewriteSet Conditions.

Module AggrFacts.

(** ** The input of the aggregation *)

Lemma isAggrExpr_has x : isAggrExpr x = has_agg x.
Proof.
  assert (∀ l, list_all Expr (λ x, isAggrExpr x = has_agg x) l → existsb isAggrExpr l = existsb has_agg l) as H.
  { induction 1 as [|y Hy l _ IH]; cbn; [done|]. by rewrite Hy, IH. }
  induction x; cbn; auto.
Qed.

(** The same expression and sort reference. *)
Definition same_te (te te' : TargetEntry) : Prop :=
  expr te' = expr te ∧ ressortgroupref te' = ressortgroupref te.

Lemma uniqueAttrName_ok s st : ∃ name st', uniqueAttrName s st = Ok (name, st') ∧ pStack st' = pStack st.
Proof. by eexists _, _. Qed.

Lemma uniqueRelName_ok s st : ∃ name st', uniqueRelName s st = Ok (name, st') ∧ pStack st' = pStack st.
Proof. by eexists _, _. Qed.

Lemma strip_ok tl k st :
  Forall (λ te, resjunk te = true ∨ is_Some (resname te)) tl →
  ∃ tl1 st1, strip_targets tl k st = Ok (tl1, st1) ∧ pStack st1 = pStack st ∧
    Forall2 same_te (List.filter (λ te, negb (has_agg (expr te))) tl) tl1 ∧
    resno <$> tl1 = cols_from k (length tl1) ∧ Forall shown_named tl1.
Proof.
  intros H. revert k st. induction H as [|te tl Hn _ IH]; intros k st; cbn [strip_targets List.filter].
  { exists [], st. split_and!; [done..|constructor|done|constructor]. }
  rewrite isAggrExpr_has. destruct (has_agg (expr te)) eqn:Ea; cbn [negb]; [apply IH|].
  assert (∃ name st', (if resjunk te then name ← uniqueAttrName "skippedGroupBy"; ret (Some name) else ret (resname te)) st
    = Ok (name, st') ∧ pStack st' = pStack st ∧ is_Some name) as (name & st' & E & P & Hname).
  { destruct (resjunk te); [|exists (resname te), st; split_and!; [done..|by destruct Hn]].
    eexists _, _. split_and!; [done..|by eexists]. }
  hrun E. destruct (IH (k + 1)%Z st') as (tl1 & st1 & E1 & P1 & H1 & Hr & Hs). hrun E1.
  eexists _, st1. split; [done|]. split; [congruence|]. split; [by constructor|]. csimpl. split; [|by constructor].
  rewrite Hr, (seqZ_cons k) by (cbn; lia). f_equal. f_equal; cbn; lia.
Qed.

Section aggregation.
Context (cat : syscache).
Context (q : Query) (Hq : agg_query cat q).

(** The GROUP BY columns are the columns without aggregates. *)
Lemma agg_is_group te : te ∈ targetList q → has_agg (expr te) = false ↔ is_group q te.
Proof.
  intros Hte. pose proof (agg_targets _ _ Hq) as Ht. rewrite Forall_forall in Ht. specialize (Ht te Hte).
  unfold agg_te_ok in Ht. checks. destruct (has_agg (expr te)); checks; by split.
Qed.

Lemma filter_groups : List.filter (λ te, negb (has_agg (expr te))) (targetList q) = filter (is_group q) (targetList q).
Proof.
  pose proof agg_is_group as H. revert H. induction (targetList q) as [|te tl IH]; intros H; [done|].
  rewrite filter_cons. cbn. rewrite IH by (intros; apply H; by right). pose proof (H te ltac:(left)) as Hte.
  destruct (has_agg (expr te)); case_decide as Hg; cbn; try done; [|tauto]. apply Hte in Hg. done.
Qed.

Abbreviation groups_of := (filter (is_group q) (targetList q)).

(** The query that is rewritten: the input with the GROUP BY columns [tl]. *)
Definition stripped (tl : list TargetEntry) : Query :=
  mkQuery (commandType q) false false (rtable q) (fromlist q) (quals q) tl [] None [] [] None None (setOperations q)
    false (shouldRewrite q).

Lemma stripped_ok tl :
  Forall2 (λ te te', expr te' = expr te) groups_of tl →
  resno <$> tl = cols_from 1 (length tl) → Forall shown_named tl → spj_query cat (stripped tl).
Proof.
  intros H2 Hr Hs. split; try done; [apply (agg_setops _ _ Hq)| |].
  - apply Forall_forall. intros te' Hte'. rewrite Forall_forall in Hs. destruct (Hs te' Hte') as [Hj Hn].
    destruct (proj1 (list_elem_of_lookup _ _) Hte') as [k Hk].
    destruct (Forall2_lookup_r _ _ _ _ _ H2 Hk) as (te & Hte%list_elem_of_lookup_2 & He).
    apply list_elem_of_filter in Hte as [Hg Hte]. pose proof (agg_targets _ _ Hq) as Ht. rewrite Forall_forall in Ht.
    specialize (Ht te Hte). unfold agg_te_ok in Ht. rewrite (proj2 (agg_is_group te Hte) Hg) in Ht. checks.
    unfold te_ok. rewrite Hj, He. destruct Hn as [nm ->]. cbn. rewrite andb_true_r. done.
  - by apply (from_ok_ext cat q), (agg_from _ _ Hq).
Qed.

(** ** The join on the GROUP BY columns *)

Lemma filter_unique {A} (f : A → Z) (l : list A) x :
  NoDup (f <$> l) → x ∈ f <$> l → f <$> List.filter (λ y, bool_decide (f y = x)) l = [x].
Proof.
  assert (∀ l : list A, x ∉ f <$> l → List.filter (λ y, bool_decide (f y = x)) l = []) as Hnone.
  { clear. intros l. induction l as [|y l IH]; csimpl; [done|]. rewrite not_elem_of_cons. intros [H1 H2].
    rewrite bool_decide_eq_false_2 by congruence. by apply IH. }
  induction l as [|y l IH]; csimpl; [by intros _ ?%elem_of_nil|]. intros [Hy HN]%NoDup_cons Hx.
  case_bool_decide as E.
  - subst. csimpl. by rewrite Hnone.
  - apply IH; [done|]. apply elem_of_cons in Hx as [->|?]; done.
Qed.

Lemma filter_filter_bool {A} (p : A → bool) (P : A → Prop) `{∀ x, Decision (P x)} l :
  (∀ x, p x = true → P x) → List.filter p (filter P l) = List.filter p l.
Proof.
  intros H'. induction l as [|x l IH]; [done|]. rewrite filter_cons. cbn. case_decide as Hx; cbn; rewrite IH; [done|].
  destruct (p x) eqn:E; [|done]. by apply H' in E.
Qed.

Lemma group_by_refs : ressortgroupref <$> getGroupByTLEs q = tleSortGroupRef <$> groupClause q.
Proof.
  unfold getGroupByTLEs. rewrite fmap_of_bind.
  transitivity (groupClause q ≫= λ g, [tleSortGroupRef g]); [|by rewrite fmap_as_bind].
  apply bind_ext_elem. intros g Hg.
  assert (tleSortGroupRef g ∈ tleSortGroupRef <$> groupClause q) as Hin by by apply list_elem_of_fmap_2.
  rewrite <- (filter_filter_bool _ (is_group q)).
  - apply filter_unique; [apply (agg_refs _ _ Hq)|by apply (agg_present _ _ Hq)].
  - intros te E%bool_decide_eq_true_1. unfold is_group. by rewrite E.
Qed.

Lemma group_by_in te : te ∈ getGroupByTLEs q → te ∈ groups_of.
Proof.
  unfold getGroupByTLEs. intros (g & [Hte E]%elem_of_filter_bool & Hg)%list_elem_of_bind.
  apply bool_decide_eq_true_1 in E. apply list_elem_of_filter. split; [|done]. unfold is_group. rewrite E.
  by apply list_elem_of_fmap_2.
Qed.

Lemma refs_perm : tleSortGroupRef <$> groupClause q ≡ₚ group_refs q.
Proof.
  apply NoDup_Permutation; [apply (agg_clause _ _ Hq)|apply (agg_refs _ _ Hq)|]. intros g. split.
  - apply (agg_present _ _ Hq).
  - intros (te & -> & [Hg _]%list_elem_of_filter)%list_elem_of_fmap. exact Hg.
Qed.

Lemma sort_refs l :
  StronglySorted Z.le (ressortgroupref <$> sortTargetListOnGroupBy l) ∧ sortTargetListOnGroupBy l ≡ₚ l.
Proof.
  split; [|apply BubbleSort.bubble_sort_perm].
  assert (StronglySorted (BubbleSort.in_order (λ x y, (ressortgroupref x >? ressortgroupref y)%Z)) (sortTargetListOnGroupBy l)) as H
    by (apply BubbleSort.bubble_sort_sorted; unfold BubbleSort.in_order; intros; lia).
  induction H as [|x k _ IH Hx]; csimpl; constructor; [done|]. apply Forall_fmap. eapply Forall_impl; [exact Hx|].
  unfold BubbleSort.in_order. cbn. intros y. lia.
Qed.

(** Both sides of the join are sorted the same way. *)
Lemma sorted_refs tl :
  Forall2 same_te groups_of tl →
  ressortgroupref <$> sortTargetListOnGroupBy (getGroupByTLEs q) = ressortgroupref <$> sortTargetListOnGroupBy tl.
Proof.
  intros H2. destruct (sort_refs (getGroupByTLEs q)) as [S1 P1], (sort_refs tl) as [S2 P2].
  apply (StronglySorted_unique Z.le); [done..|]. rewrite P1, P2, group_by_refs, refs_perm. unfold group_refs.
  clear -H2. induction H2 as [|te te' l k [_ E] _ IH]; csimpl; [done|]. by rewrite E, IH.
Qed.

Lemma same_te_unique tl (j : nat) te te' :
  Forall2 same_te groups_of tl → groups_of !! j = Some te → te' ∈ tl → ressortgroupref te' = ressortgroupref te →
  tl !! j = Some te'.
Proof.
  intros H2 Hj (j' & Hj')%list_elem_of_lookup E. destruct (Forall2_lookup_r _ _ _ _ _ H2 Hj') as (te0 & H0 & _ & E0).
  assert (j' = j) as ->; [|done].
  apply (NoDup_lookup (group_refs q) _ _ (ressortgroupref te)); [apply (agg_refs _ _ Hq)| |];
    unfold group_refs; rewrite list_lookup_fmap; [rewrite H0|by rewrite Hj]. cbn. by rewrite <- E0, E.
Qed.

Lemma zip_in {A B} (l : list A) (k : list B) x y :
  (x, y) ∈ zip l k ↔ ∃ n : nat, l !! n = Some x ∧ k !! n = Some y.
Proof.
  rewrite list_elem_of_lookup. split.
  - intros [n Hn]. rewrite lookup_zip_with in Hn. exists n. destruct (l !! n), (k !! n); cbn in Hn; naive_solver.
  - intros (n & H1 & H2). exists n. by rewrite lookup_zip_with, H1, H2.
Qed.

(** The pairs of columns that are compared. *)
Lemma pairs_in tl l r :
  Forall2 same_te groups_of tl →
  (l, r) ∈ zip (sortTargetListOnGroupBy (getGroupByTLEs q)) (sortTargetListOnGroupBy tl) ↔
  ∃ j : nat, groups_of !! j = Some l ∧ tl !! j = Some r.
Proof.
  intros H2. pose proof (sorted_refs tl H2) as E. destruct (sort_refs (getGroupByTLEs q)) as [_ P1], (sort_refs tl) as [_ P2].
  set (L := sortTargetListOnGroupBy (getGroupByTLEs q)) in *. set (R := sortTargetListOnGroupBy tl) in *.
  rewrite zip_in. split.
  - intros (n & Hl & Hr).
    assert (ressortgroupref r = ressortgroupref l) as Er.
    { apply (f_equal (λ k, k !! n)) in E. rewrite !list_lookup_fmap, Hl, Hr in E. by injection E. }
    assert (l ∈ groups_of) as (j & Hj)%list_elem_of_lookup.
    { apply group_by_in. rewrite <- P1. by eapply list_elem_of_lookup_2. }
    exists j. split; [done|]. eapply same_te_unique; [done..| |done]. rewrite <- P2. by eapply list_elem_of_lookup_2.
  - intros (j & Hl & Hr). destruct (Forall2_lookup_lr _ _ _ _ _ _ H2 Hl Hr) as [_ Er].
    assert (ressortgroupref l ∈ ressortgroupref <$> L) as Hin.
    { rewrite P1, group_by_refs, refs_perm. unfold group_refs. apply list_elem_of_fmap_2. by eapply list_elem_of_lookup_2. }
    apply list_elem_of_fmap in Hin as (l' & El & (n & Hn)%list_elem_of_lookup).
    assert (∃ r', R !! n = Some r' ∧ ressortgroupref r' = ressortgroupref l) as (r' & Hr' & Er').
    { apply (f_equal (λ k, k !! n)) in E. rewrite !list_lookup_fmap, Hn in E. cbn in E.
      destruct (R !! n) as [r'|]; [|done]. injection E as E. exists r'. split; [done|]. congruence. }
    assert (tl !! j = Some r') as Hj'.
    { eapply same_te_unique; [done..| |done]. rewrite <- P2. by eapply list_elem_of_lookup_2. }
    assert (l' = l) as ->.
    { assert (l' ∈ groups_of) as (j' & Hj2)%list_elem_of_lookup by (apply group_by_in; rewrite <- P1; by eapply list_elem_of_lookup_2).
      assert (j' = j) as ->; [|congruence].
      apply (NoDup_lookup (group_refs q) _ _ (ressortgroupref l)); [apply (agg_refs _ _ Hq)| |];
        unfold group_refs; rewrite list_lookup_fmap; [rewrite Hj2|by rewrite Hl]. cbn. by rewrite El. }
    exists n. split; [done|]. congruence.
Qed.
(** The columns of a row by the numbers of the target entries. *)
Lemma zip_attrs (P : TargetEntry → Prop) `{∀ te, Decision (P te)} tl t :
  resno <$> tl = cols_from 1 (length tl) → length t = length tl →
  snd <$> filter (λ p : TargetEntry * value, P p.1) (zip tl t) = (λ te, attr (resno te) t) <$> filter P tl.
Proof.
  assert (∀ tl pre t, resno <$> tl = cols_from (Z.of_nat (length pre) + 1) (length tl) → length t = length tl →
    snd <$> filter (λ p : TargetEntry * value, P p.1) (zip tl t) = (λ te, attr (resno te) (pre ++ t)) <$> filter P tl) as Hg.
  2:{ intros Hr Hl. exact (Hg tl [] t Hr Hl). }
  clear tl t. intros tl. induction tl as [|te tl IH]; intros pre [|v t]; try done. csimpl. rewrite seqZ_cons by lia.
  intros [= Hr Hrs] [= Hl]. rewrite !filter_cons. cbn [fst].
  specialize (IH (pre ++ [v]) t). rewrite <- (assoc_L (++)) in IH. cbn in IH. rewrite length_app in IH. cbn in IH.
  replace (Z.of_nat (length pre + 1) + 1)%Z with (Z.succ (Z.of_nat (length pre) + 1)) in IH by lia.
  replace (Z.pred (Z.of_nat (S (length tl)))) with (Z.of_nat (length tl)) in Hrs by lia.
  case_decide; csimpl; rewrite <- IH by done; [|done]. f_equal. rewrite Hr. rewrite attr_lookup, lookup_app_r by lia.
  by rewrite Nat.sub_diag.
Qed.

Lemma row_key_attrs t :
  length t = length (targetList q) → row_key q t = (λ te, attr (resno te) t) <$> groups_of.
Proof. intros Hl. apply (zip_attrs (is_group q)); [apply (agg_numbered _ _ Hq)|done]. Qed.

Lemma visible_attrs t :
  length t = length (targetList q) →
  visible q t = (λ te, attr (resno te) t) <$> filter (λ te, resjunk te = false) (targetList q).
Proof. intros Hl. exact (zip_attrs (λ te, resjunk te = false) _ _ (agg_numbered _ _ Hq) Hl). Qed.

(** The comparisons hold if the GROUP BY columns are equal. *)
Lemma cond_key tl t u :
  Forall2 same_te groups_of tl → resno <$> tl = cols_from 1 (length tl) →
  forallb (λ p, bool_decide (attr (resno p.1) t = attr (resno p.2) u))
    (zip (sortTargetListOnGroupBy (getGroupByTLEs q)) (sortTargetListOnGroupBy tl)) =
  bool_decide ((λ te, attr (resno te) t) <$> groups_of = attrs (cols_from 1 (length tl)) u).
Proof.
  intros H2 Hr.
  assert (attrs (cols_from 1 (length tl)) u = (λ te, attr (resno te) u) <$> tl) as ->.
  { unfold attrs. rewrite <- Hr, <- list_fmap_compose. done. }
  apply eq_true_iff_eq. rewrite bool_decide_eq_true, forallb_forall. split.
  - intros H. apply list_eq. intros j. rewrite !list_lookup_fmap.
    destruct (groups_of !! j) as [l|] eqn:El.
    + destruct (Forall2_lookup_l _ _ _ _ _ H2 El) as (r & Er & _). rewrite Er. cbn. f_equal.
      assert ((l, r) ∈ zip (sortTargetListOnGroupBy (getGroupByTLEs q)) (sortTargetListOnGroupBy tl)) as Hin
        by (apply pairs_in; eauto).
      apply list_elem_of_In, H in Hin. by apply bool_decide_eq_true_1 in Hin.
    + apply lookup_ge_None in El. rewrite (lookup_ge_None_2 tl); [done|]. by rewrite <- (Forall2_length _ _ _ H2).
  - intros E [l r] Hin%list_elem_of_In. apply pairs_in in Hin as (j & El & Er); [|done]. apply bool_decide_eq_true.
    apply (f_equal (λ k, k !! j)) in E. rewrite !list_lookup_fmap, El, Er in E. by injection E.
Qed.
(** ** The original query with all columns shown *)

Lemma show_ok sub i tl k st :
  Forall (λ te, resjunk te = true ∨ is_Some (resname te)) tl →
  ∃ new old st', show_targets sub i tl k st = Ok ((new, old), st') ∧ pStack st' = pStack st ∧
    Forall2 same_te tl old ∧ resno <$> old = resno <$> tl ∧ Forall shown_named old ∧
    resno <$> new = cols_from k (length new) ∧ Forall shown_named new ∧
    Forall2 (λ te n, ∃ v, expr te = EVar v ∧ varno v = i ∧ varattno v = n ∧ varlevelsup v = 0%Z) new
      (resno <$> filter (λ te, resjunk te = false) tl).
Proof.
  intros H. revert k st. induction H as [|te tl Hn _ IH]; intros k st; cbn [show_targets].
  { exists [], [], st. split_and!; try done; try constructor. }
  rewrite filter_cons. destruct (resjunk te) eqn:Ej.
  - destruct (uniqueAttrName_ok "skippedGroupBy" st) as (name & st1 & E & P). hrun E.
    destruct (IH k st1) as (new & old & st' & E' & P' & H1 & H2 & H3 & H4 & H5 & H6). hrun E'.
    eexists new, _, st'. split; [done|]. rewrite decide_False by done. csimpl. rewrite H2. split_and!; try done; try congruence.
    + by constructor.
    + constructor; [|done]. split; [done|by eexists].
  - destruct (IH (k + 1)%Z st) as (new & old & st' & E' & P' & H1 & H2 & H3 & H4 & H5 & H6). hrun E'.
    eexists _, (te :: old), st'. split; [done|]. rewrite decide_True by done. csimpl. rewrite H2.
    assert (is_Some (resname te)) as Hname by (by destruct Hn). split_and!; try done.
    + by constructor.
    + by constructor.
    + rewrite H4, (seqZ_cons k) by (cbn; lia). f_equal. f_equal; cbn; lia.
    + by constructor.
    + constructor; [|done]. by eexists.
Qed.

Lemma visible_sort_ok sc st :
  (∀ g, g ∈ tleSortGroupRef <$> sc → g ∈ ressortgroupref <$> targetList q) →
  ∃ sc', visible_sort q sc st = Ok (sc', st).
Proof.
  induction sc as [|g sc IH]; cbn [visible_sort]; [by eexists|]. csimpl. intros H.
  destruct (IH ltac:(intros; apply H; by right)) as [sc' E].
  specialize (H (tleSortGroupRef g) ltac:(left)). unfold getTEforSortgroupref.
  apply list_elem_of_fmap in H as (te & Hg & Hte).
  destruct (List.find _ (targetList q)) as [te'|] eqn:Ef.
  - rewrite bind_deref. hrun E. by eexists.
  - exfalso. apply list_elem_of_In in Hte. eapply find_none in Hte; [|exact Ef].
    apply bool_decide_eq_false in Hte. by rewrite Hg in Hte.
Qed.

Lemma agg_named : Forall (λ te, resjunk te = true ∨ is_Some (resname te)) (targetList q).
Proof.
  eapply Forall_impl; [exact (agg_targets _ _ Hq)|]. intros te Hte. unfold agg_te_ok in Hte. checks.
  match goal with H : (_ || _) = true |- _ => apply orb_true_iff in H as [H|H] end; [by left|right]. by apply is_some.
Qed.

Lemma same_te_filter tl old :
  Forall2 same_te tl old → Forall2 same_te (filter (is_group q) tl) (filter (is_group q) old).
Proof.
  induction 1 as [|te te' l k Hte _ IH]; [done|]. rewrite !filter_cons. destruct Hte as [He Hr].
  assert (is_group q te' ↔ is_group q te) as Hg by (unfold is_group; by rewrite Hr).
  destruct (decide (is_group q te)), (decide (is_group q te')); try tauto. by constructor.
Qed.

Lemma expr_map {B} (f : Expr → B) tl old :
  Forall2 (λ te te', expr te' = expr te) tl old → (λ te, f (expr te)) <$> old = (λ te, f (expr te)) <$> tl.
Proof. induction 1 as [|te te' l k He _ IH]; csimpl; [done|]. by rewrite He, IH. Qed.

Lemma same_te_map {B} (f : Expr → B) tl old : Forall2 same_te tl old → (λ te, f (expr te)) <$> old = (λ te, f (expr te)) <$> tl.
Proof. intros H. apply expr_map. eapply Forall2_impl; [exact H|]. by intros te te' []. Qed.

(** Its rows are the rows of the aggregation with all columns. *)
Lemma shown_rows op_sem db old :
  Forall2 same_te (targetList q) old → Forall shown_named old →
  evalQuery op_sem cat db (with_rewrite false (set_targetList old q)) =
    limited op_sem q (agg_rows op_sem q (solve_plain op_sem cat (map (evalRTE op_sem cat db) (rtable q)) q)).
Proof.
  intros H2 Hs. rewrite evalQuery_unfold. set (q1 := with_rewrite false (set_targetList old q)).
  unfold distinct, body. cbn [distinctClause q1 with_rewrite set_targetList setOperations rtable].
  rewrite (agg_distinct _ _ Hq), (agg_setops _ _ Hq).
  assert (grouped q1 = true) as -> by exact (agg_grouped _ _ Hq).
  assert (∀ tabs, solve_plain op_sem cat tabs q1 = solve_plain op_sem cat tabs q) as -> by done.
  assert (∀ es, agg_rows op_sem q1 es = agg_rows op_sem q es) as ->.
  { intros es. unfold agg_rows. cbn [targetList q1 with_rewrite set_targetList].
    assert (groups op_sem q1 es = groups op_sem q es) as ->.
    { unfold groups. cbn [groupClause q1 with_rewrite set_targetList]. destruct (groupClause q); [done|].
      assert (∀ e, group_key op_sem q1 e = group_key op_sem q e) as Hk.
      { intros e. unfold group_key. cbn [targetList q1 with_rewrite set_targetList].
        change (filter (is_group q1) old) with (filter (is_group q) old).
        apply (same_te_map (eval_expr op_sem e)), same_te_filter, H2. }
      assert (group_key op_sem q1 <$> es = group_key op_sem q <$> es) as -> by (apply list_fmap_ext; auto).
      apply list_fmap_ext. intros _ k _. apply list_filter_iff. intros e. by rewrite Hk. }
    apply list_fmap_ext. intros _ g _. apply (same_te_map (eval_agg op_sem g)), H2. }
  set (rows := agg_rows op_sem q _). assert (visible q1 <$> rows = rows) as ->; [|done].
  rewrite <- (list_fmap_id rows) at 2. apply list_fmap_ext. intros k t Ht%list_elem_of_lookup_2. unfold id.
  apply agg_rows_length in Ht. apply visible_all; cbn [targetList q1 with_rewrite set_targetList].
  - eapply Forall_impl; [exact Hs|]. intros te [Hj _]. split; [done|]. cbn. by rewrite (agg_distinct _ _ Hq).
  - rewrite Ht. by eapply Forall2_length.
Qed.
Lemma with_rewrite_level0 b s : level0 (with_rewrite b s) = level0 s.
Proof. by destruct s. Qed.

Lemma shown_level0 old : Forall2 same_te (targetList q) old → level0 q = true → level0 (set_targetList old q) = true.
Proof.
  intros H2. assert (forallb (λ te, expr0 (expr te)) old = forallb (λ te, expr0 (expr te)) (targetList q)) as E.
  { induction H2 as [|te te' l k [He _] _ IH]; cbn; [done|]. by rewrite He, IH. }
  destruct q. cbn in *. by rewrite E.
Qed.

(** ** The new top query *)

Section top.
Context (op_sem : operators) (db : Z → list tuple).
Abbreviation evalQ := (evalQuery op_sem cat db).
Abbreviation provQ := (evalProv op_sem cat db).

(** [o] is the original query with all columns shown, [s'] the rewritten input. *)
Context (tl tl2 old new pl : list TargetEntry) (s' : Query).
Context (Htl : Forall2 same_te groups_of tl) (Hnum : resno <$> tl = cols_from 1 (length tl)).
Context (Htl2 : Forall2 (λ te te', expr te' = expr te) groups_of tl2).
Context (Hs : query_rw cat op_sem db (stripped tl2) s' pl) (Hsp : spj_query cat (stripped tl2)).
Context (Hold : Forall2 same_te (targetList q) old) (Hold_no : resno <$> old = resno <$> targetList q).
Context (Hold_shown : Forall shown_named old).
Context (Hnew : Forall2 (λ te n, ∃ v, expr te = EVar v ∧ varno v = 1%Z ∧ varattno v = n ∧ varlevelsup v = 0%Z) new
      (resno <$> filter (λ te, resjunk te = false) (targetList q))).
Context (c : Expr).
Context (Hc : computes op_sem c (λ e, forallb (λ p, bool_decide (attr (resno p.1) (e 1%Z) = attr (resno p.2) (e 2%Z)))
  (zip (sortTargetListOnGroupBy (getGroupByTLEs q)) (sortTargetListOnGroupBy tl)))).
Context (r1 r2 rJ : RangeTblEntry) (sc : list SortClause).
Context (H1 : sub_rte r1 (with_rewrite false (set_targetList old q))) (H2 : sub_rte r2 (with_rewrite false s')).
Context (HJ : rtekind rJ = RTE_JOIN ∧ isProvBase rJ = false).
Context (Hcols : (λ v, (varno v, varattno v)) <$> joinaliasvars rJ =
  (pair 1%Z <$> cols_from 1 (length old)) ++ (pair 2%Z <$> cols_from 1 (length (targetList s')))).
Context (Hcols0 : Forall (λ v, varlevelsup v = 0%Z) (joinaliasvars rJ)).

Definition agg_top : Query :=
  mkQuery CMD_SELECT false false [r1; r2; rJ] [JoinExpr JOIN_LEFT (RangeTblRef 1) (RangeTblRef 2) (Some c) 3] None new
    [] None [] sc None None None false false.

Abbreviation the_step := (mkStep JOIN_LEFT (Some c) 2 3).

Lemma old_length : length old = length (targetList q).
Proof. symmetry. by eapply Forall2_length. Qed.

Lemma width1 : width cat agg_top 1 = length old.
Proof. change (rte_width cat r1 = length old). by rewrite (sub_rte_width cat r1 _ H1). Qed.

Lemma width2 : width cat agg_top 2 = length (targetList s').
Proof.
  change (rte_width cat r2 = length (targetList s')). rewrite (sub_rte_width cat r2 _ H2); [done|].
  exact (qr_shown _ _ _ _ _ _ Hs).
Qed.

Lemma agg_chain : chain_query cat agg_top [the_step].
Proof.
  split; try done.
  - by apply (bool_decide_eq_true_1 (NoDup [1; 2; 3]%Z)).
  - cbn. intros i [->|[->|?%elem_of_nil]%elem_of_cons]%elem_of_cons; [| |done].
    + eapply sub_entry_of; [done|exact H1|done|]. cbn. rewrite Hold_no, old_length. apply (agg_numbered _ _ Hq).
    + eapply sub_entry_of; [done|exact H2|exact (qr_shown _ _ _ _ _ _ Hs)|].
      pose proof (qr_targets _ _ _ _ _ _ Hs) as E. cbn. rewrite E. f_equal.
      apply (f_equal length) in E. rewrite length_fmap, length_seqZ in E. lia.
  - intros pre s [-> ->]%at_one_step. exists rJ. split; [done|]. split; [apply HJ|]. split; [|done].
    cbn [root chain foldl s_right]. by rewrite width1, width2.
Qed.

(** A row of the input is a partner if it is in the group. *)
Definition in_group (_ : step) (t u : tuple) : bool :=
  bool_decide ((λ te, attr (resno te) t) <$> groups_of = attrs (cols_from 1 (length tl)) u).

Abbreviation rows := (λ i, default [] (rt_fetch i (map (evalRTE op_sem cat db) (rtable agg_top)))).

Lemma agg_steps : steps_ok op_sem rows (aliases agg_top) (width cat agg_top 1) in_group [the_step].
Proof.
  intros pre s [-> ->]%at_one_step. split; [by left| |].
  - intros e t He _. cbn [s_qual s_right]. rewrite (computes_qual _ _ _ _ Hc), cond_key by done. unfold in_group.
    assert ((λ te, attr (resno te) (e 1%Z)) <$> groups_of = (λ te, attr (resno te) t) <$> groups_of) as ->; [|done].
    apply list_fmap_ext. intros k te Hte%list_elem_of_lookup_2. apply list_elem_of_filter in Hte as [_ Hte].
    apply He. rewrite width1, old_length.
    assert (resno te ∈ resno <$> targetList q) as Hin by by apply list_elem_of_fmap_2.
    rewrite (agg_numbered _ _ Hq) in Hin. apply elem_of_seqZ in Hin. lia.
  - intros k Hk. apply (chain_first_cols cat agg_top [the_step] agg_chain); [by exists []|done].
Qed.

Abbreviation pes := (solve_prov op_sem cat (map (evalProvRTE op_sem cat db) (rtable q)) q).

(** The rows of the input are the GROUP BY columns and the witnesses. *)
Lemma input_rows :
  evalQ (with_rewrite false s') = (λ e, flatten (group_key op_sem q (vals_of fst e), witness q e)) <$> pes.
Proof.
  transitivity (evalQ s'); [by destruct s'|]. rewrite (qr_eval _ _ _ _ _ _ Hs).
  rewrite (evalProv_eq op_sem cat db (stripped tl2)).
  - cbn [dedup_if distinctClause stripped]. unfold raw_prov. rewrite <- list_fmap_compose. apply list_fmap_ext.
    intros k e _. cbn. f_equal. f_equal. unfold targets, group_key. cbn [targetList stripped].
    by apply (expr_map (eval_expr op_sem (vals_of fst e))).
  - by eapply spj_unlimited.
  - by eapply te_ok_shown, Hsp.
Qed.

Lemma prov_width_stripped : prov_width cat (stripped tl2) = prov_width cat q.
Proof. by rewrite !prov_width_unfold. Qed.

Lemma out_width_stripped : out_width (stripped tl2) = length tl.
Proof.
  rewrite out_width_all.
  - cbn. rewrite <- (Forall2_length _ _ _ Htl2). by rewrite <- (Forall2_length _ _ _ Htl).
  - eapply Forall_impl; [eapply te_ok_shown, Hsp|]. by intros te [? _].
Qed.

Lemma input_widths :
  Forall (λ e, length (group_key op_sem q (vals_of fst e)) = length tl ∧ length (witness q e) = prov_width cat q) pes.
Proof.
  pose proof (qr_widths _ _ _ _ _ _ Hs) as Hw. rewrite out_width_stripped, prov_width_stripped in Hw.
  rewrite (evalProv_eq op_sem cat db (stripped tl2)) in Hw; [|by eapply spj_unlimited|by eapply te_ok_shown, Hsp].
  cbn [dedup_if distinctClause stripped] in Hw. apply Forall_fmap in Hw.
  eapply Forall_impl; [exact Hw|]. intros e [_ Hw2]. cbn in Hw2. split; [|done].
  unfold group_key. rewrite length_fmap. by eapply Forall2_length.
Qed.

Lemma filter_bool {A} (P : A → Prop) `{∀ x, Decision (P x)} l : filter P l = List.filter (λ x, bool_decide (P x)) l.
Proof.
  induction l as [|x l IH]; [done|]. rewrite filter_cons. cbn. rewrite IH.
  case_decide; [by rewrite bool_decide_true|by rewrite bool_decide_false].
Qed.

Abbreviation PS := (λ _ : Z, pl).

(** The witnesses found by the join. *)
Lemma agg_extend t :
  length t = length (targetList q) →
  extend rows (null_tuple cat agg_top) in_group (λ i, resno <$> PS i) [the_step] t =
    attach true (prov_width cat q) (group_witnesses op_sem q pes t) [[]].
Proof.
  intros Ht. cbn [extend foldl]. unfold attach. apply bind_ext_elem. intros x _. f_equal.
  pose proof (qr_resno _ _ _ _ _ _ Hs) as Hres. rewrite out_width_stripped, prov_width_stripped in Hres.
  cbn [s_right]. rewrite Hres. unfold partners. cbn [s_right s_type].
  change (default [] (rt_fetch 2 _)) with (evalRTE op_sem cat db r2). rewrite (sub_rte_eval _ _ _ _ _ H2), input_rows.
  rewrite filter_fmap_bool. unfold group_witnesses. rewrite filter_bool.
  rewrite (filter_ext_bool (λ e, in_group _ _ _) (λ e, bool_decide (group_key op_sem q (vals_of fst e) = row_key q t))).
  2:{ intros e He. pose proof input_widths as Hw. rewrite Forall_forall in Hw. destruct (Hw e He) as [Hw1 _].
      unfold in_group, flatten. cbn [fst snd]. rewrite row_key_attrs by done. apply bool_decide_ext.
      assert (attrs (cols_from 1 (length tl)) (group_key op_sem q (vals_of fst e) ++ witness q e) = group_key op_sem q (vals_of fst e)) as ->;
        [|done].
      unfold attrs. rewrite <- Hw1. rewrite <- (attrs_app [] (group_key op_sem q (vals_of fst e))) at 2. cbn.
      apply list_fmap_ext. intros k n Hn%list_elem_of_lookup_2%elem_of_seqZ. apply attr_app_l. lia. }
  set (ms := List.filter (λ e, bool_decide (group_key op_sem q (vals_of fst e) = row_key q t)) pes).
  assert (attrs (cols_from (Z.of_nat (length tl) + 1) (prov_width cat q)) <$>
    ((λ e, flatten (group_key op_sem q (vals_of fst e), witness q e)) <$> ms) = witness q <$> ms) as E.
  { rewrite <- list_fmap_compose. apply list_fmap_ext. intros k e He%list_elem_of_lookup_2.
    apply elem_of_filter_bool in He as [He _]. pose proof input_widths as Hw. rewrite Forall_forall in Hw.
    destruct (Hw e He) as [Hw1 Hw2]. cbn. unfold flatten, attrs. cbn [fst snd]. rewrite <- Hw1, <- Hw2. apply attrs_app. }
  destruct ms as [|e ms]; [|exact E]. cbn [fmap list_fmap]. f_equal.
  change (null_tuple cat agg_top 2) with (nulls (rte_width cat r2)).
  destruct (row_rel_nulls 0 (rte_width cat r2) (cols_from (Z.of_nat (length tl) + 1) (prov_width cat q))) as [_ En].
  cbn [snd] in En. unfold attrs. by rewrite En, length_seqZ, Nat2Z.id.
Qed.

Lemma agg_prov : provQ q =
  limited op_sem q (agg_rows op_sem q (solve_plain op_sem cat (map (evalRTE op_sem cat db) (rtable q)) q)) ≫= λ t,
    pair (visible q t) <$> attach true (prov_width cat q) (group_witnesses op_sem q pes t) [[]].
Proof. rewrite evalProv_unfold. unfold body_prov. by rewrite (agg_setops _ _ Hq), (agg_grouped _ _ Hq). Qed.

Lemma agg_row_length t es : t ∈ limited op_sem q (agg_rows op_sem q es) → length t = length (targetList q).
Proof. intros Ht%limited_in. by eapply agg_rows_length. Qed.

Lemma agg_eval tes :
  Forall (λ te, resjunk te = false) (new ++ tes) →
  (∀ e, settled op_sem id (λ t _ _, t) (alias_in (rtable agg_top)) e (chain [the_step]) →
    (λ te, eval_expr op_sem (vals_of id e) (expr te)) <$> tes = concat ((λ i, attrs (resno <$> PS i) (e i)) <$> [2%Z])) →
  evalQ (set_targetList (new ++ tes) agg_top) = flatten <$> provQ q.
Proof.
  intros Hj Hv. change new with (targetList agg_top).
  rewrite (eval_top op_sem cat db agg_top [the_step] agg_chain _ PS Hnew tes in_group agg_steps Hj Hv).
  change (default [] (rt_fetch 1 _)) with (evalRTE op_sem cat db r1).
  rewrite (sub_rte_eval _ _ _ _ _ H1), shown_rows, agg_prov, fmap_of_bind by done.
  apply bind_ext_elem. intros t Ht%agg_row_length. rewrite agg_extend, <- list_fmap_compose by done.
  apply list_fmap_ext. intros k x _. cbn. unfold flatten. cbn [fst snd]. f_equal.
  rewrite visible_attrs by done. unfold attrs. by rewrite <- list_fmap_compose.
Qed.

Lemma agg_widths : Forall (λ p, length p.1 = out_width q ∧ length p.2 = prov_width cat q) (provQ q).
Proof.
  rewrite agg_prov. apply Forall_forall.
  intros p (t & (w & -> & Hw)%list_elem_of_fmap & Ht%agg_row_length)%list_elem_of_bind. cbn [fst snd].
  split; [by apply visible_length|]. unfold attach in Hw. apply list_elem_of_bind in Hw as (x & Hw & ->%list_elem_of_singleton).
  cbn in Hw. rewrite list_fmap_id in Hw. unfold group_witnesses in Hw.
  destruct (witness q <$> _) as [|w0 ws] eqn:E.
  - apply list_elem_of_singleton in Hw as ->. apply length_replicate.
  - rewrite <- E in Hw. apply list_elem_of_fmap in Hw as (e & -> & [_ He]%list_elem_of_filter).
    pose proof input_widths as HF. rewrite Forall_forall in HF. by apply HF.
Qed.

Lemma agg_level0 tes :
  level0 q = true → Forall is_col tes → expr0 c = true → level0 (set_targetList (new ++ tes) agg_top) = true.
Proof.
  intros Hl0 Ht Hc0. apply level0_intro; cbn; try done.
  - constructor; [|constructor]. done.
  - apply Forall_app. split.
    + apply Forall_forall. intros te (k & Hk)%list_elem_of_lookup.
      destruct (Forall2_lookup_l _ _ _ _ _ Hnew Hk) as (n & _ & v & -> & _ & _ & Hl). cbn. by apply bool_decide_eq_true.
    + eapply Forall_impl; [exact Ht|]. intros te (v & -> & Hl & _). cbn. by apply bool_decide_eq_true.
  - constructor; [|constructor; [|constructor; [|constructor]]].
    + eapply sub_rte_level0; [exact H1|]. rewrite with_rewrite_level0. by apply shown_level0.
    + eapply sub_rte_level0; [exact H2|]. rewrite with_rewrite_level0. exact (qr_level0 _ _ _ _ _ _ Hs).
    + destruct rJ. cbn in HJ |- *. by destruct HJ as [-> ->].
Qed.

End top.
(** ** The rewriter *)

Lemma groups_comparable : Forall (comparable cat) (sortTargetListOnGroupBy (getGroupByTLEs q)).
Proof.
  destruct (sort_refs (getGroupByTLEs q)) as [_ ->]. apply Forall_forall. intros te Hte%group_by_in.
  apply list_elem_of_filter in Hte as [Hg Hte]. pose proof (agg_targets _ _ Hq) as Ht. rewrite Forall_forall in Ht.
  specialize (Ht te Hte). unfold agg_te_ok in Ht. rewrite (proj2 (agg_is_group te Hte) Hg) in Ht. by checks.
Qed.

(** The join on the GROUP BY columns; the input loses its sort references. *)
Definition clear_ref (te : TargetEntry) : TargetEntry :=
  mkTE (expr te) (resno te) (resname te) 0 (resorigtbl te) (resorigcol te) (resjunk te).

Lemma join_on_groups op_sem top s st :
  Forall2 same_te groups_of (targetList s) → resno <$> targetList s = cols_from 1 (length (targetList s)) →
  ∃ c, addJoinOnAttributes cat top (getGroupByTLEs q) s st =
      Ok ((mkQuery (commandType top) (hasAggs top) (hasSubLinks top) (rtable top)
             [JoinExpr JOIN_LEFT (RangeTblRef 1) (RangeTblRef 2) (Some c) 3] None
             (targetList top) (groupClause top) (havingQual top) (distinctClause top) (sortClause top)
             (limitOffset top) (limitCount top) (setOperations top) (provSublinkRewritten top) (shouldRewrite top),
           set_targetList (clear_ref <$> targetList s) s), st) ∧
    expr0 c = true ∧
    computes op_sem c (λ e, forallb (λ p, bool_decide (attr (resno p.1) (e 1%Z) = attr (resno p.2) (e 2%Z)))
      (zip (sortTargetListOnGroupBy (getGroupByTLEs q)) (sortTargetListOnGroupBy (targetList s)))).
Proof.
  intros H2 Hn. unfold addJoinOnAttributes.
  destruct (equal_conds_ok op_sem cat (sortTargetListOnGroupBy (getGroupByTLEs q)) (sortTargetListOnGroupBy (targetList s))
    0 1 st groups_comparable) as (cs & E & H0 & Hc). rewrite <- group_conds_equal in E. hrun E.
  exists (and_all cs). split; [done|]. split; [by apply and_all_level0|].
  apply (computes_ext _ _ _ _ (and_all_ok _ _ _ Hc)). intros e. clear.
  induction (zip _ _) as [|p l IH]; [done|]. csimpl. rewrite IH. done.
Qed.

Lemma clear_ref_ok tl : Forall2 same_te groups_of tl → Forall2 (λ te te', expr te' = expr te) groups_of (clear_ref <$> tl).
Proof. intros H. apply Forall2_fmap_r. eapply Forall2_impl; [exact H|]. by intros te te' []. Qed.

(** The columns of the join. *)
Lemma adapt_ok name top r1 r2 jt c s1 s2 st :
  rtable top = [r1; r2; set_jointype jt (makeRte RTE_JOIN)] →
  named_rte r1 s1 → named_rte r2 s2 → Forall shown_named (targetList s1) → Forall shown_named (targetList s2) →
  ∃ rJ, adaptRTEsForJoins cat [JoinExpr jt (RangeTblRef 1) (RangeTblRef 2) c 3] top name st =
      Ok (set_rtable [r1; r2; rJ] top, st) ∧ (rtekind rJ = RTE_JOIN ∧ isProvBase rJ = false) ∧
    (λ v, (varno v, varattno v)) <$> joinaliasvars rJ =
      (pair 1%Z <$> cols_from 1 (length (targetList s1))) ++ (pair 2%Z <$> cols_from 1 (length (targetList s2))) ∧
    Forall (λ v, varlevelsup v = 0%Z) (joinaliasvars rJ).
Proof.
  intros Hrt H1 H2 S1 S2. cbn [adaptRTEsForJoins]. unfold adaptRTEForJoin. rewrite Hrt. cbn [root].
  destruct (expand_ok cat r1 s1 1 st H1 S1) as (n1 & v1 & E1 & P1 & L1 & _).
  destruct (expand_ok cat r2 s2 2 st H2 S2) as (n2 & v2 & E2 & P2 & L2 & _).
  change (rt_fetch 3 [r1; r2; set_jointype jt (makeRte RTE_JOIN)]) with (Some (set_jointype jt (makeRte RTE_JOIN))).
  change (rt_fetch 1 [r1; r2; set_jointype jt (makeRte RTE_JOIN)]) with (Some r1).
  change (rt_fetch 2 [r1; r2; set_jointype jt (makeRte RTE_JOIN)]) with (Some r2).
  rewrite bind_assoc, bind_deref, bind_assoc, bind_deref, bind_assoc, bind_deref.
  eexists. split; [erewrite bind_ok by (hrun E1; hrun E2; reflexivity); reflexivity|].
  cbn. rewrite fmap_app, P1, P2. split; [done|]. split; [done|by apply Forall_app].
Qed.

(** The new top query with the original query in its range table. *)
Abbreviation top_of rt fl tl sc := (mkQuery CMD_SELECT false false rt fl None tl [] None [] sc None None None false false).

Lemma add_original_ok name sc st new old st' :
  show_targets q 1 (targetList q) 1 st = Ok ((new, old), st') →
  addSubqueryTargetListToTargetList (addSubqueryToRT (top_of [] [] [] sc) q name) 1 st =
    Ok (top_of [subquery_rte (set_targetList old q) name] [] new sc, st').
Proof.
  intros E. unfold addSubqueryTargetListToTargetList.
  change (rt_fetch 1 (rtable (addSubqueryToRT (top_of [] [] [] sc) q name))) with (Some (subquery_rte q name)).
  rewrite bind_deref. change (subquery (subquery_rte q name)) with (Some q). rewrite bind_deref.
  change (Z.of_nat (length (targetList (addSubqueryToRT (top_of [] [] [] sc) q name))) + 1)%Z with 1%Z. hrun E. reflexivity.
Qed.

Lemma map_sub1 f r1 r2 r3 fl tl sc :
  map_subquery f 1 (top_of [r1; r2; r3] fl tl sc) = top_of [set_subquery (f <$> subquery r1) r1; r2; r3] fl tl sc.
Proof. done. Qed.

Lemma map_sub2 f r1 r2 r3 fl tl sc :
  map_subquery f 2 (top_of [r1; r2; r3] fl tl sc) = top_of [r1; set_subquery (f <$> subquery r2) r2; r3] fl tl sc.
Proof. done. Qed.

(** The entries of the new top query get names, and a join. *)
Lemma finish_entries_ok r1 r2 fl tl sc s1 s2 st :
  sub_rte r1 s1 → sub_rte r2 s2 →
  ∃ newTop r1' r2', correctSubQueryAlias (top_of [r1; r2] fl tl sc) st = Ok (newTop, st) ∧
    map_subquery (with_rewrite false) 1 (map_subquery (with_rewrite false) 2
      (set_rtable (rtable newTop ++ [set_jointype JOIN_LEFT (makeRte RTE_JOIN)]) newTop)) =
    top_of [r1'; r2'; set_jointype JOIN_LEFT (makeRte RTE_JOIN)] fl tl sc ∧
    named_rte r1' (with_rewrite false s1) ∧ named_rte r2' (with_rewrite false s2).
Proof.
  intros H1 H2.
  destruct (correct_subs_ok [r1; r2] [s1; s2] st) as (rtes & E & HF); [by apply Forall2_cons; split; [|apply Forall2_cons; split]|].
  inversion HF as [|r1' ? ? ? [[K1 S1] N1] HF']; subst. inversion HF' as [|r2' ? ? ? [[K2 S2] N2] HF'']; subst.
  inversion HF''; subst. unfold correctSubQueryAlias.
  eexists _, (set_subquery (Some (with_rewrite false s1)) r1'), (set_subquery (Some (with_rewrite false s2)) r2').
  split; [hrun E; reflexivity|]. split; [|split; (split; [|done]); by split].
  change (set_rtable _ _) with (top_of [r1'; r2'; set_jointype JOIN_LEFT (makeRte RTE_JOIN)] fl tl sc).
  by rewrite map_sub2, map_sub1, S1, S2.
Qed.

Lemma increase_sub r s :
  sub_rte r s → level0 s = true → set_subquery (increaseSublevelsUp (-1) <$> subquery r) r = r.
Proof. intros [_ Hs] Hl. rewrite Hs. cbn. rewrite increase_id by done. destruct r. cbn in *. by subst. Qed.

Lemma rewriteAggregation_ok `{AggSublinks} op_sem db rec :
  level0 q = true →
  (∀ s, spj_query cat s → has_limit s = false → rtable s = rtable q → rewrites cat op_sem db rec s) →
  rewrites cat op_sem db (rewriteAggregation cat rec) q.
Proof.
  intros Hl0 Hrec st. unfold rewriteAggregation, rewriteAggrSubqueryForRewrite, aggregation_input, hasNonHavingSublink.
  rewrite (agg_sublinks _ _ Hq).
  destruct (strip_ok (targetList q) 1 st agg_named) as (tl & st1 & E1 & P1 & Htl & Hnum & Hsh).
  rewrite filter_groups in Htl. erewrite bind_ok by (hrun E1; reflexivity). cbv iota beta.
  unfold checkOrderClause. destruct (visible_sort_ok (sortClause q) st1 (agg_sorted _ _ Hq)) as [sc E2].
  erewrite bind_ok by (hrun E2; reflexivity).
  destruct (uniqueRelName_ok "originalAggr" st1) as (name & st2 & E3 & P3). hrun E3.
  destruct (show_ok q 1 (targetList q) 1 st2 agg_named)
    as (new & old & st3 & E4 & P4 & Hold & Hold_no & Hold_sh & Hnew_no & Hnew_sh & Hnew).
  erewrite bind_ok by (apply add_original_ok, E4).
  destruct (join_on_groups op_sem (top_of [subquery_rte (set_targetList old q) name] [] new sc)
     (stripped tl) st3 Htl Hnum) as (c & E5 & Hc0 & Hc).
  erewrite bind_ok by exact E5. cbv iota beta.
  set (tl2 := clear_ref <$> tl).
  assert (spj_query cat (stripped tl2)) as Hsp.
  { apply stripped_ok; [by apply clear_ref_ok|unfold tl2; by rewrite <- list_fmap_compose, length_fmap|].
    apply Forall_fmap. done. }
  destruct (Hrec (stripped tl2) Hsp eq_refl eq_refl st3) as (s' & st4 & pl & E6 & P6 & Hs).
  change (set_targetList (clear_ref <$> targetList (stripped tl)) (stripped tl)) with (stripped tl2). hrun E6.
  destruct (uniqueRelName_ok "rewrittenAggrSubquery" st4) as (name2 & st5 & E7 & P7). hrun E7.
  destruct (finish_entries_ok (subquery_rte (set_targetList old q) name) (subquery_rte s' name2)
    [JoinExpr JOIN_LEFT (RangeTblRef 1) (RangeTblRef 2) (Some c) 3] new sc (set_targetList old q) s' st5)
    as (newTop & r1 & r2 & E8 & E8' & H1 & H2); [done..|]. erewrite bind_ok by exact E8. cbv zeta. rewrite E8'.
  cbn [fromlist hd_error]. rewrite bind_deref.
  destruct (adapt_ok "joinAggAndRewrite" (top_of [r1; r2; set_jointype JOIN_LEFT (makeRte RTE_JOIN)]
      [JoinExpr JOIN_LEFT (RangeTblRef 1) (RangeTblRef 2) (Some c) 3] new sc) r1 r2 JOIN_LEFT (Some c)
    (with_rewrite false (set_targetList old q)) (with_rewrite false s') st5 eq_refl H1 H2 Hold_sh (qr_shown _ _ _ _ _ _ Hs))
    as (rJ & E9 & KJ & Hcols & Hcols0). hrun E9.
  pose proof (proj1 H1) as H1'. pose proof (proj1 H2) as H2'.
  pose proof (agg_chain op_sem db tl2 old new pl s' Hs Hold Hold_no Hold_sh c r1 r2 rJ sc H1' H2' KJ Hcols Hcols0) as Hch.
  destruct (add_prov_ok op_sem cat (agg_top new c r1 r2 rJ sc) _ Hch (λ _, pl)) with (st := st5) (st0 := pStack st)
    as (tes & E10 & Hfr & Hlen & Hval).
  { intros i ->%list_elem_of_singleton. split; [exact (qr_cols _ _ _ _ _ _ Hs)|].
    apply Forall_forall. intros te Hte. cbn [s_right]. rewrite (width2 op_sem db tl2 new pl s' Hs c r1 r2 rJ sc H2').
    assert (resno te ∈ resno <$> pl) as Hin by by apply list_elem_of_fmap_2.
    rewrite (qr_resno _ _ _ _ _ _ Hs) in Hin. apply elem_of_seqZ in Hin.
    pose proof (f_equal length (qr_targets _ _ _ _ _ _ Hs)) as Hl. rewrite length_fmap, length_seqZ in Hl. lia. }
  { cbn. congruence. }
  erewrite bind_ok by exact E10. cbv iota beta. unfold push_pset. rewrite bind_modify.
  eexists _, _, tes. split; [reflexivity|]. split; [done|].
  change (set_targetList _ (agg_top new c r1 r2 rJ sc)) with
    (top_of [r1; r2; rJ] [JoinExpr JOIN_LEFT (RangeTblRef 1) (RangeTblRef 2) (Some c) 3] (new ++ tes) sc).
  rewrite map_sub2, map_sub1. rewrite (increase_sub r1 _ H1') by (rewrite with_rewrite_level0; by apply shown_level0).
  rewrite (increase_sub r2 _ H2') by (rewrite with_rewrite_level0; exact (qr_level0 _ _ _ _ _ _ Hs)).
  change (top_of [r1; r2; rJ] _ _ sc) with (set_targetList (new ++ tes) (agg_top new c r1 r2 rJ sc)).
  assert (length new = out_width q) as How.
  { unfold out_width. rewrite (Forall2_length _ _ _ Hnew). apply length_fmap. }
  assert (length tes = prov_width cat q) as Hpw.
  { rewrite Hlen. cbn. rewrite app_nil_r. pose proof (f_equal length (qr_resno _ _ _ _ _ _ Hs)) as Hl.
    rewrite length_fmap, length_seqZ, prov_width_stripped in Hl. lia. }
  destruct Hfr as (Hres & Hcol & Hj). split.
  - done.
  - rewrite Hres, Hpw. cbn. by rewrite How.
  - cbn. rewrite fmap_app, Hres, Hnew_no, How, Hpw, Nat2Z.inj_add, seqZ_app by lia. cbn. rewrite How. f_equal. f_equal. lia.
  - cbn. apply Forall_app. split; [done|]. apply Forall_forall. intros te Hte. rewrite Forall_forall in Hj, Hcol.
    split; [by apply Hj|]. by destruct (Hcol te Hte) as (_ & _ & _ & ?).
  - eapply agg_level0; done.
  - eapply agg_widths; [exact Htl|by apply clear_ref_ok|exact Hs|exact Hsp].
  - eapply agg_eval; try done; [by apply clear_ref_ok|].
    apply Forall_app. split; [eapply Forall_impl; [exact Hnew_sh|]; by intros te []|].
    eapply Forall_impl; [exact Hj|]. by intros te [].
  - split_and!; [done..|]. apply Forall_app. split; (eapply Forall_impl; [eassumption|]); by intros te [].
Qed.
End aggregation.

End AggrFacts.
