(* ===== verification/SetTrees.v ===== *)
(** * Trees of set operations

    The rewriter moves the subtrees it cannot treat together with the root to queries of their own.  Here the tree and
    the range table it refers to are seen as one tree with entries at its leaves; the rewriter replaces subtrees by
    leaves, and the witnesses of the query stay the same. *)

From Stdlib Require Import ZArith Lia.
From stdpp Require Import base strings numbers list.
From S2P Require Import Prelude AttrName QueryTree SqlSemantics SqlFacts Queries ProvWitness Sublevels.
From S2P Require Import RewriteSPJ JoinBuild RewriteAggr RewriteSet.
Import QueryTree SqlSemantics SqlFacts Queries ProvWitness Sublevels RewriteSPJ JoinBuild RewriteAggr RewriteSet.

Module SetTrees.

Inductive rtree :=
  | Leaf (r : RangeTblEntry)
  | Op (op : SetOperation) (all : bool) (l r : rtree).

Fixpoint entries (R : rtree) : list RangeTblEntry :=
  match R with Leaf r => [r] | Op _ _ l r => entries l ++ entries r end.

Abbreviation size R := (Z.of_nat (length (entries R))).

(** The tree of references, numbered from [k]. *)
Fixpoint shape (R : rtree) (k : Z) : SetOpNode :=
  match R with
  | Leaf _ => SetOpRef k
  | Op op all l r => SetOperationStmt op all (shape l k) (shape r (k + size l))
  end.

(** [l] is in the range table from index [k] on. *)
Definition at_pos (rt : list RangeTblEntry) (k : Z) (l : list RangeTblEntry) : Prop :=
  ∀ (j : nat) x, l !! j = Some x → rt_fetch (k + Z.of_nat j) rt = Some x.

Lemma at_pos_app rt k l l' :
  at_pos rt k (l ++ l') → at_pos rt k l ∧ at_pos rt (k + Z.of_nat (length l)) l'.
Proof.
  intros H. split; intros j x Hj.
  - apply H. by apply lookup_app_l_Some.
  - replace (k + Z.of_nat (length l) + Z.of_nat j)%Z with (k + Z.of_nat (length l + j))%Z by lia. apply H.
    rewrite lookup_app_r by lia. by replace (length l + j - length l)%nat with j by lia.
Qed.

Lemma at_pos_self rt : at_pos rt 1 rt.
Proof.
  intros j x Hj. unfold rt_fetch. rewrite decide_True by lia. by replace (Z.to_nat (1 + Z.of_nat j - 1)) with j by lia.
Qed.

Lemma at_pos_snoc rt k l r : at_pos rt k l → at_pos (rt ++ [r]) k l.
Proof.
  intros H j x Hj. specialize (H j x Hj). unfold rt_fetch in *. case_decide; [|done]. by apply lookup_app_l_Some.
Qed.

Lemma at_pos_leaf rt k r : at_pos rt k [r] → rt_fetch k rt = Some r.
Proof. intros H. specialize (H 0%nat r eq_refl). by rewrite Z.add_0_r in H. Qed.

(** Every numbered tree is the shape of its entries. *)
Lemma shape_of t k rt :
  set_leaves t = seqZ k (Z.of_nat (length rt)) → ∃ R, entries R = rt ∧ shape R k = t.
Proof.
  revert k rt. induction t as [i|op all l IHl r IHr]; intros k rt; cbn [set_leaves].
  - intros E. pose proof (f_equal length E) as Hl. rewrite length_seqZ in Hl. cbn in Hl.
    destruct rt as [|r [|]]; cbn in Hl; try lia. cbn in E. injection E as ->. by exists (Leaf r).
  - intros E. set (n := length (set_leaves l)).
    assert (n ≤ length rt)%nat as Hn.
    { apply (f_equal length) in E. rewrite length_app, length_seqZ in E. fold n in E. lia. }
    rewrite <- (take_drop n rt), length_app, Nat2Z.inj_add, seqZ_app in E by lia.
    apply app_inj_1 in E as [E1 E2].
    2:{ rewrite length_seqZ. unfold n in *. rewrite length_take. lia. }
    destruct (IHl k (take n rt) E1) as (L & HL & SL). destruct (IHr _ _ E2) as (R & HR & SR).
    exists (Op op all L R). cbn. rewrite HL, HR, take_drop, SL. split; [done|]. by rewrite SR.
Qed.

Lemma set_leaves_shape R k : set_leaves (shape R k) = seqZ k (size R).
Proof.
  revert k. induction R as [r|op all l IHl r IHr]; intros k; cbn; [done|].
  rewrite IHl, IHr, length_app, Nat2Z.inj_add, seqZ_app by lia. done.
Qed.

(** ** What the rewriter's functions do to shapes *)

Lemma number_shape R k j : number_refs (shape R k) j = (shape R j, j + size R)%Z.
Proof.
  revert k j. induction R as [r|op all l IHl r IHr]; intros k j; cbn; [done|].
  rewrite IHl, IHr, length_app. f_equal. lia.
Qed.

Lemma fetch_all_app rt l l' x y st :
  fetch_all rt l st = Ok (x, st) → fetch_all rt l' st = Ok (y, st) → fetch_all rt (l ++ l') st = Ok (x ++ y, st).
Proof.
  intros Hl Hl'. revert x Hl. induction l as [|i l IH]; intros x; cbn [fetch_all app]; [by intros [= <-]|].
  intros (r & s1 & Hr & (z & s2 & Hz & [= <- <-])%bind_inv)%bind_inv.
  unfold deref in Hr. destruct (rt_fetch i rt) as [r'|] eqn:Ei; [|done]. injection Hr as -> <-.
  rewrite bind_deref. by hrun (IH z Hz).
Qed.

Lemma fetch_shape R k rt st :
  at_pos rt k (entries R) → fetch_all rt (getSetOpRTRefs (shape R k)) st = Ok (entries R, st).
Proof.
  revert k. induction R as [r|op all l IHl r IHr]; intros k; cbn [entries shape getSetOpRTRefs].
  - intros H%at_pos_leaf. cbn [fetch_all]. by rewrite H.
  - intros [H1 H2]%at_pos_app. apply fetch_all_app; auto.
Qed.

Lemma find_shape R k rt st :
  at_pos rt k (entries R) → ∃ idx, findSetOpRTEs rt (shape R k) st = Ok ((entries R, idx), st).
Proof.
  revert k. induction R as [r|op all l IHl r IHr]; intros k; cbn [entries shape findSetOpRTEs].
  - intros H%at_pos_leaf. rewrite H. by eexists.
  - intros [H1 H2]%at_pos_app. destruct (IHl k H1) as [i1 E1], (IHr _ H2) as [i2 E2]. hrun E1. hrun E2. by eexists.
Qed.

(** ** Subtrees *)

Fixpoint rsub (p : path) (R : rtree) : option rtree :=
  match p, R with
  | [], _ => Some R
  | b :: p, Op _ _ l r => rsub p (if b then r else l)
  | _, _ => None
  end.

Fixpoint rreplace (p : path) (new R : rtree) : rtree :=
  match p, R with
  | [], _ => new
  | b :: p, Op op all l r => if b then Op op all l (rreplace p new r) else Op op all (rreplace p new l) r
  | _, _ => R
  end.

Lemma subtree_shape p R R' k rt :
  rsub p R = Some R' → at_pos rt k (entries R) →
  ∃ k', subtree p (shape R k) = Some (shape R' k') ∧ at_pos rt k' (entries R').
Proof.
  revert R k. induction p as [|b p IH]; intros R k; cbn [rsub]; [intros [= ->] H; by exists k|].
  destruct R as [r|op all l r]; [done|]. cbn [shape subtree entries]. intros Hs [H1 H2]%at_pos_app.
  destruct b; eapply IH; eauto.
Qed.

(** The subtree at [p] is replaced by a reference to the entry [x]. *)
Lemma replace_shape p R R' k N x rt st :
  rsub p R = Some R' → at_pos rt k (entries R) → rt_fetch N rt = Some x →
  fetch_all rt (getSetOpRTRefs (replace p (SetOpRef N) (shape R k))) st = Ok (entries (rreplace p (Leaf x) R), st) ∧
  ∀ j, number_refs (replace p (SetOpRef N) (shape R k)) j =
       (shape (rreplace p (Leaf x) R) j, j + size (rreplace p (Leaf x) R))%Z.
Proof.
  revert R k. induction p as [|b p IH]; intros R k Hs Hp Hx.
  { cbn. rewrite Hx. done. }
  destruct R as [r|op all l r]; [done|]. cbn [rsub] in Hs. cbn [entries] in Hp. apply at_pos_app in Hp as [H1 H2].
  cbn [shape replace]. destruct b; cbn [rreplace entries getSetOpRTRefs number_refs shape].
  - destruct (IH r _ Hs H2 Hx) as [E1 E2]. split; [apply fetch_all_app; [by apply fetch_shape|done]|].
    intros j. rewrite number_shape, E2, length_app. f_equal. lia.
  - destruct (IH l _ Hs H1 Hx) as [E1 E2]. split; [apply fetch_all_app; [done|by apply fetch_shape]|].
    intros j. rewrite E2, number_shape, length_app. f_equal. lia.
Qed.

Section query.
Context (q : Query).

(** The query with the tree [R]. *)
Definition set_state (R : rtree) : Query := with_set (entries R) (shape R 1) q.

(** The query for a subtree. *)
Definition sub_query (R : rtree) : Query := increaseSublevelsUp (-1) (set_state R).

Definition mk_sub (R : rtree) : rtree := Leaf (subquery_rte (sub_query R) "newSub").

Lemma replaceSetOperatorSubtree_ok p R R' st :
  rsub p R = Some R' →
  replaceSetOperatorSubtree (set_state R) p st = Ok (set_state (rreplace p (mk_sub R') R), st).
Proof.
  intros Hs. unfold replaceSetOperatorSubtree. cbn [setOperations set_state with_set]. rewrite bind_deref.
  destruct (subtree_shape p R R' 1 (entries R) Hs (at_pos_self _)) as (k' & E & Hp). rewrite E, bind_deref.
  cbn [rtable set_state with_set]. destruct (find_shape R' k' (entries R) st Hp) as [idx E2]. erewrite bind_ok by exact E2.
  cbv iota beta. rewrite number_shape. cbn [fst].
  set (rte := subquery_rte (sub_query R') "newSub").
  change (rtable (addSubqueryToRTWithParam _ _ _ _)) with (entries R ++ [rte]).
  assert (rt_fetch (Z.of_nat (length (entries R ++ [rte]))) (entries R ++ [rte]) = Some rte) as Hx.
  { rewrite length_app. cbn. unfold rt_fetch. rewrite decide_True by lia.
    replace (Z.to_nat (Z.of_nat (length (entries R) + 1) - 1)) with (length (entries R)) by lia. rewrite lookup_app_r, Nat.sub_diag by lia. done. }
  destruct (replace_shape p R R' 1 (Z.of_nat (length (entries R ++ [rte]))) rte (entries R ++ [rte]) st Hs) as [E3 E4]; [apply at_pos_snoc, at_pos_self|done|].
  cbv zeta. change (rtable (addSubqueryToRTWithParam _ _ _ _)) with (entries R ++ [rte]). hrun E3. by rewrite E4.
Qed.

(** ** Restructuring *)

(** What becomes of a subtree under the operation [op]. *)
Fixpoint collapse (op : SetOperation) (R : rtree) : rtree :=
  match R with
  | Leaf r => Leaf r
  | Op op' all l r =>
      if decide (op' = op ∧ op ≠ SETOP_EXCEPT) then Op op' all (collapse op l) (collapse op r) else mk_sub R
  end.

Fixpoint height (R : rtree) : nat :=
  match R with Leaf _ => 0 | Op _ _ l r => S (Nat.max (height l) (height r)) end.

Lemma tree_height_shape R k : tree_height (shape R k) = height R.
Proof. revert k. induction R as [r|op all l IHl r IHr]; intros k; cbn; [done|]. by rewrite IHl, IHr. Qed.

Lemma rsub_app p p' R R1 : rsub p R = Some R1 → rsub (p ++ p') R = rsub p' R1.
Proof.
  revert R. induction p as [|b p IH]; intros R; cbn; [by intros [= ->]|].
  destruct R as [r|op all l r]; [done|]. apply IH.
Qed.

Lemma rsub_rreplace p x R R1 : rsub p R = Some R1 → rsub p (rreplace p x R) = Some x.
Proof.
  revert R. induction p as [|b p IH]; intros R; cbn; [done|].
  destruct R as [r|op all l r]; [done|]. destruct b; apply IH.
Qed.

Lemma rreplace_rreplace p x y R : rreplace p y (rreplace p x R) = rreplace p y R.
Proof.
  revert R. induction p as [|b p IH]; intros R; cbn; [done|].
  destruct R as [r|op all l r]; [done|]. destruct b; cbn; by rewrite IH.
Qed.

Lemma rreplace_app p p' x R R1 : rsub p R = Some R1 → rreplace (p ++ p') x R = rreplace p (rreplace p' x R1) R.
Proof.
  revert R. induction p as [|b p IH]; intros R; cbn; [by intros [= ->]|].
  destruct R as [r|op all l r]; [done|]. destruct b; intros H; by rewrite (IH _ H).
Qed.

Lemma rreplace_same p R R1 : rsub p R = Some R1 → rreplace p R1 R = R.
Proof.
  revert R. induction p as [|b p IH]; intros R; cbn; [by intros [= ->]|].
  destruct R as [r|op all l r]; [done|]. destruct b; intros H; by rewrite (IH _ H).
Qed.

Lemma subtree_state p R R' : rsub p R = Some R' → ∃ k', subtree p (shape R 1) = Some (shape R' k').
Proof. intros H. destruct (subtree_shape p R R' 1 (entries R) H (at_pos_self _)) as (k' & E & _). by exists k'. Qed.

Lemma replaceSetOperationSubTrees_ok wl R' fuel p R op st :
  op ≠ SETOP_EXCEPT → rsub p R = Some R' → (height R' < fuel)%nat →
  replaceSetOperationSubTrees true wl fuel (set_state R) p op st = Ok (set_state (rreplace p (collapse op R') R), st).
Proof.
  intros Hop. revert fuel p R. induction R' as [r|op' all l IHl r IHr]; intros fuel p R Hs Hf;
    (destruct fuel as [|fuel]; [lia|]); cbn [replaceSetOperationSubTrees setOperations set_state with_set]; rewrite bind_deref;
    destruct (subtree_state p R _ Hs) as [k' ->]; rewrite bind_deref; cbn [shape].
  { cbn [collapse]. by rewrite rreplace_same. }
  rewrite bind_ret. cbn [collapse height] in *.
  assert (op' ≠ op → replaceSetOperatorSubtree (set_state R) p st = Ok (set_state (rreplace p (collapse op (Op op' all l r)) R), st)) as Hne.
  { intros Hne. cbn [collapse]. rewrite decide_False by tauto. by apply replaceSetOperatorSubtree_ok. }
  destruct (decide (op' = op ∧ op ≠ SETOP_EXCEPT)) as [[-> _]|Hd].
  - assert ((query ← replaceSetOperationSubTrees true wl fuel (set_state R) (p ++ [false]) op;
      replaceSetOperationSubTrees true wl fuel query (p ++ [true]) op) st =
      Ok (set_state (rreplace p (Op op all (collapse op l) (collapse op r)) R), st)) as E.
    { erewrite bind_ok by (apply IHl; [by rewrite (rsub_app p _ R _ Hs)|lia]).
      rewrite (rreplace_app p [false] _ R _ Hs). cbn [rreplace].
      assert (rsub p (rreplace p (Op op all (collapse op l) r) R) = Some (Op op all (collapse op l) r)) as Hs'
        by (by eapply rsub_rreplace).
      rewrite IHr; [|by rewrite (rsub_app p _ _ _ Hs')|lia].
      by rewrite (rreplace_app p [true] _ _ _ Hs'), rreplace_rreplace. }
    destruct op; try done; rewrite decide_True by done; exact E.
  - assert (op' ≠ op) as Hne' by tauto. specialize (Hne Hne'). cbn [collapse] in Hne. rewrite decide_False in Hne by done.
    destruct op'; try (rewrite decide_False by done; exact Hne).
Qed.

(** The root of the tree. *)
Definition restructured (R : rtree) : rtree :=
  match R with Leaf r => Leaf r | Op op all l r => Op op all (collapse op l) (collapse op r) end.

Lemma replace_stmt_ok p R R' st :
  rsub p R = Some R' →
  replace_stmt p (set_state R) st = Ok (set_state (rreplace p (collapse SETOP_EXCEPT R') R), st).
Proof.
  intros Hs. unfold replace_stmt. cbn [setOperations set_state with_set]. destruct (subtree_state p R _ Hs) as [k' E].
  change (Some (shape R 1) ≫= subtree p) with (subtree p (shape R 1)). rewrite E.
  destruct R' as [r|op all l r]; cbn [shape is_stmt collapse].
  - by rewrite rreplace_same.
  - rewrite decide_False by naive_solver. by apply replaceSetOperatorSubtree_ok.
Qed.

Lemma restructure_ok wl op all l r st :
  (op = SETOP_EXCEPT → wl = false) →
  replaceSetOperationSubTrees true wl (S (height (Op op all l r))) (set_state (Op op all l r)) [] op st =
    Ok (set_state (restructured (Op op all l r)), st).
Proof.
  intros Hwl. destruct (decide (op = SETOP_EXCEPT)) as [->|Hne].
  - rewrite (Hwl eq_refl). cbn [replaceSetOperationSubTrees setOperations set_state with_set shape]. rewrite bind_deref. cbn [subtree].
    rewrite bind_deref, bind_ret, decide_True by done. cbn [app].
    erewrite bind_ok by (by eapply replace_stmt_ok). cbn [rreplace].
    by erewrite replace_stmt_ok.
  - rewrite (replaceSetOperationSubTrees_ok wl (Op op all l r)) by (done || lia). cbn [rreplace collapse].
    by rewrite decide_True.
Qed.

(** ** Rows and witnesses *)

Section eval.
Context (op_sem : operators) (cat : syscache) (db : Z → list tuple).
Abbreviation evalR := (evalRTE op_sem cat db).
Abbreviation provR := (evalProvRTE op_sem cat db).

Fixpoint reval (R : rtree) : list tuple :=
  match R with Leaf r => evalR r | Op op all l r => setop op all (reval l) (reval r) end.

(** An entry as an input. *)
Definition input (r : RangeTblEntry) : operand := (provR r, rte_prov_width cat r).

(** [operands] over trees with entries. *)
Fixpoint roperands (op : SetOperation) (R : rtree) : list operand :=
  match R with
  | Leaf r => [input r]
  | Op op' all l r =>
      let sub := roperands op' l ++ roperands op' r in
      if decide (op' = op ∧ op ≠ SETOP_EXCEPT) then sub
      else [(reval R ≫= λ v, pair v <$> set_witnesses op' all sub v, sum_list (snd <$> sub))]
  end.

Abbreviation inputs_of rt := (zip (map provR rt) (map (rte_prov_width cat) rt)).

Lemma eval_shape R k rt : at_pos rt k (entries R) → eval_setop (map evalR rt) (shape R k) = reval R.
Proof.
  revert k. induction R as [r|op all l IHl r IHr]; intros k; cbn [entries shape eval_setop reval].
  - intros H%at_pos_leaf. by rewrite rt_fetch_map, H.
  - intros [H1 H2]%at_pos_app. by rewrite IHl, IHr.
Qed.

Lemma operands_shape op R k rt :
  at_pos rt k (entries R) → operands (map evalR rt) (inputs_of rt) op (shape R k) = roperands op R.
Proof.
  revert op k. induction R as [r|op' all l IHl r IHr]; intros op k; cbn [entries shape operands roperands].
  - intros H%at_pos_leaf. erewrite rt_fetch_zip by (by rewrite rt_fetch_map, H). done.
  - intros H. pose proof H as [H1 H2]%at_pos_app. rewrite IHl, IHr by done.
    change (SetOperationStmt op' all (shape l k) (shape r (k + size l))) with (shape (Op op' all l r) k).
    by rewrite (eval_shape (Op op' all l r)).
Qed.

(** The rows of the query with their witnesses. *)
Definition set_rows (limit : Query) (R : rtree) : list row :=
  match R with
  | Leaf _ => []
  | Op op all l r => limited op_sem limit (reval R) ≫= λ v, pair v <$> set_witnesses op all (roperands op l ++ roperands op r) v
  end.

Lemma evalProv_state R : evalProv op_sem cat db (set_state R) = set_rows q R.
Proof.
  rewrite evalProv_unfold. unfold body_prov. cbn [setOperations rtable set_state with_set].
  destruct R as [r|op all l r]; [done|]. cbn [shape set_rows].
  change (SetOperationStmt op all (shape l 1) (shape r (1 + size l))) with (shape (Op op all l r) 1).
  pose proof (at_pos_self (entries (Op op all l r))) as H. rewrite eval_shape by done.
  cbn [entries] in H. apply at_pos_app in H as [H1 H2]. rewrite !operands_shape by done. done.
Qed.

Abbreviation widths l := (sum_list (map (rte_prov_width cat) l)).

Lemma widths_app l l' : widths (l ++ l') = (widths l + widths l')%nat.
Proof. induction l; cbn; lia. Qed.

Lemma sum_list_app l l' : sum_list (l ++ l') = (sum_list l + sum_list l')%nat.
Proof. induction l; cbn; lia. Qed.

Lemma operands_widths op R : sum_list (snd <$> roperands op R) = widths (entries R).
Proof.
  revert op. induction R as [r|op' all l IHl r IHr]; intros op; cbn [roperands entries]; [done|].
  rewrite widths_app. case_decide; cbn; rewrite ?fmap_app, ?sum_list_app, IHl, IHr; lia.
Qed.

(** A subtree is moved to a query only without LIMIT and references to outer queries. *)
Context (Hl0 : ∀ R, (∀ r, r ∈ entries R → rte0 r = true) → level0 (set_state R) = true).

Lemma sub_query_id R : (∀ r, r ∈ entries R → rte0 r = true) → sub_query R = set_state R.
Proof. intros H. unfold sub_query. apply increase_id; [lia|by apply Hl0]. Qed.

Lemma input_sub R :
  (∀ r, r ∈ entries R → rte0 r = true) →
  input (subquery_rte (sub_query R) "newSub") = (set_rows q R, widths (entries R)).
Proof.
  intros H. rewrite sub_query_id by done.
  change ((evalProv op_sem cat db (set_state R), prov_width cat (set_state R)) = (set_rows q R, widths (entries R))).
  by rewrite evalProv_state, prov_width_unfold.
Qed.

Definition no_limit : Prop := limitOffset q = None ∧ limitCount q = None.

(** The inputs of the restructured operation are its operands. *)
Lemma collapse_operands op R :
  no_limit ∨ (∃ k, one_operation op (shape R k) = true) → (∀ r, r ∈ entries R → rte0 r = true) →
  input <$> entries (collapse op R) = roperands op R.
Proof.
  revert op. induction R as [r|op' all l IHl r IHr]; intros op Hlim H0; cbn [collapse roperands]; [done|].
  assert ((∀ x, x ∈ entries l → rte0 x = true) ∧ (∀ x, x ∈ entries r → rte0 x = true)) as [Hl Hr].
  { cbn in H0. split; intros x Hx; apply H0, elem_of_app; auto. }
  case_decide as Hd.
  - destruct Hd as [-> Hd]. cbn [entries]. rewrite fmap_app, IHl, IHr; try done.
    + destruct Hlim as [?|[k Hk]]; [by left|right]. cbn in Hk. checks. by eexists.
    + destruct Hlim as [?|[k Hk]]; [by left|right]. cbn in Hk. checks. by eexists.
  - cbn [entries mk_sub fmap list_fmap]. rewrite input_sub by done. cbn [set_rows].
    destruct Hlim as [[Ho Hc]|[k Hk]].
    + rewrite limited_none by done. rewrite fmap_app, sum_list_app, !operands_widths, <- widths_app. done.
    + cbn in Hk. checks. tauto.
Qed.

Lemma collapse_widths op R :
  (∀ r, r ∈ entries R → rte0 r = true) → widths (entries (collapse op R)) = widths (entries R).
Proof.
  induction R as [r|op' all l IHl r IHr]; intros H0; cbn [collapse]; [done|]. case_decide.
  - cbn [entries] in *. rewrite !widths_app, IHl, IHr; [done|..]; intros x Hx; apply H0, elem_of_app; auto.
  - change (snd (input (subquery_rte (sub_query (Op op' all l r)) "newSub")) + 0 = widths (entries (Op op' all l r)))%nat.
    rewrite input_sub by done. cbn [snd]. lia.
Qed.

End eval.

End query.

End SetTrees.
