(* ===== verification/SetJoins.v ===== *)
(** * The joins of the set operation rewriter

    The join entries that [createRTEforJoin] makes have all columns of their arguments, and the conditions compare
    the columns of the original query with those of an input; so the new top query is a chain of joins. *)

From Stdlib Require Import ZArith Lia.
From stdpp Require Import base strings numbers list.
From S2P Require Import Prelude AttrName QueryTree SqlSemantics SqlFacts Queries Sublevels.
From S2P Require Import RewriteSPJ JoinBuild RewriteAggr RewriteSet RewriteFacts JoinChain Conditions.
Import QueryTree SqlSemantics SqlFacts Queries Sublevels RewriteSPJ JoinBuild RewriteAggr RewriteSet RewriteFacts.
Import JoinChain Conditions.

Module SetJoins.

Section joins.
Context (op_sem : operators) (cat : syscache).

(** An entry with [length tys] columns of the types [tys]. *)
Record entry_ok (r : RangeTblEntry) (tys : list Z) : Prop := {
  eo_vars : ∀ i st, ∃ vs ns, makeRTEVars r i st = Ok ((vs, ns), st) ∧
    (λ v, (varno v, varattno v)) <$> vs = pair (i + 1)%Z <$> cols_from 1 (length tys) ∧
    Forall (λ v, varlevelsup v = 0%Z) vs ∧ length ns = length vs ∧ vartype <$> vs = tys;
  eo_attrs : ∀ st, ∃ tes, getAttributesForJoin r st = Ok (tes, st) ∧
    resno <$> tes = cols_from 1 (length tys) ∧ (λ te, exprType (expr te)) <$> tes = tys;
  eo_width : rte_width cat r = length tys }.

Lemma imap_numbers {A B} (f : nat → A → B) (g : B → Z) (k : Z) l :
  (∀ i x, g (f i x) = (k + Z.of_nat i)%Z) → g <$> imap f l = cols_from k (length l).
Proof.
  intros H. apply list_eq. intros i. rewrite list_lookup_fmap, list_lookup_imap.
  destruct (l !! i) as [x|] eqn:E; cbn.
  - rewrite H, lookup_seqZ_lt; [done|]. apply lookup_lt_Some in E. lia.
  - rewrite lookup_seqZ_ge; [done|]. apply lookup_ge_None in E. lia.
Qed.

Lemma sub_entry_ok r s :
  sub_rte r s → Forall shown_named (targetList s) → resno <$> targetList s = cols_from 1 (length (targetList s)) →
  entry_ok r ((λ te, exprType (expr te)) <$> targetList s).
Proof.
  intros Hs Ht Hn. pose proof Hs as [[Hk _] Hsub]. split; rewrite ?length_fmap.
  - intros i st. unfold makeRTEVars. rewrite Hk, Hsub, bind_deref. eexists _, _. split; [done|]. split_and!.
    + rewrite <- Hn, <- !list_fmap_compose. done.
    + apply Forall_fmap, Forall_true. done.
    + by rewrite !length_fmap.
    + by rewrite <- list_fmap_compose.
  - intros st. unfold getAttributesForJoin. rewrite Hk, Hsub, bind_deref. by eexists.
  - by apply (sub_rte_width cat r s).
Qed.

Lemma zip_types (l : list Var) (k : list (option string)) :
  length k = length l → (λ p, vartype p.1) <$> zip l k = vartype <$> l.
Proof. intros H. rewrite <- (fst_zip l k) at 2 by lia. by rewrite <- list_fmap_compose. Qed.

Lemma join_entry_cols r :
  rtekind r = RTE_JOIN → length (colnames (eref r)) = length (joinaliasvars r) →
  entry_ok r (vartype <$> joinaliasvars r).
Proof.
  intros Hk Hl. assert (length (zip (joinaliasvars r) (colnames (eref r))) = length (joinaliasvars r)) as Hz
    by (rewrite length_zip_with; lia).
  assert (∀ {B} (f : nat → Var * option string → B) (g : B → Z), (∀ i p, g (f i p) = vartype p.1) →
    g <$> imap f (zip (joinaliasvars r) (colnames (eref r))) = vartype <$> joinaliasvars r) as Ht.
  { intros B f g H. rewrite fmap_imap, (imap_ext _ (const (λ p, vartype p.1))) by (intros; apply H).
    rewrite imap_const. by apply zip_types. }
  split; rewrite ?length_fmap.
  - intros i st. unfold makeRTEVars. rewrite Hk. eexists _, _. split; [done|]. split_and!.
    + rewrite <- Hz. apply list_eq. intros k. rewrite !list_lookup_fmap, list_lookup_imap.
      destruct (zip _ _ !! k) as [p|] eqn:E; cbn.
      * rewrite lookup_seqZ_lt; [|apply lookup_lt_Some in E; lia]. cbn. do 2 f_equal. lia.
      * rewrite lookup_seqZ_ge; [done|]. apply lookup_ge_None in E. lia.
    + apply Forall_lookup. intros k v Hv. rewrite list_lookup_imap in Hv.
      destruct (zip _ _ !! k); [|done]. by injection Hv as <-.
    + by rewrite length_fmap, length_imap.
    + by apply Ht.
  - intros st. unfold getAttributesForJoin. rewrite Hk. eexists. split; [done|]. split.
    + rewrite <- Hz. apply imap_numbers. intros k p. cbn. lia.
    + by apply Ht.
  - unfold rte_width. by rewrite Hk.
Qed.

(** The join entry of two entries. *)
Record join_of (l r : Z) (nl nr : nat) (rJ : RangeTblEntry) : Prop := {
  jo_kind : rtekind rJ = RTE_JOIN;
  jo_base : isProvBase rJ = false;
  jo_cols : (λ v, (varno v, varattno v)) <$> joinaliasvars rJ =
    (pair l <$> cols_from 1 nl) ++ (pair r <$> cols_from 1 nr);
  jo_level0 : Forall (λ v, varlevelsup v = 0%Z) (joinaliasvars rJ);
  jo_sub : subquery rJ = None }.

Lemma join_of_rte0 l r nl nr rJ : join_of l r nl nr rJ → rte0 rJ = true.
Proof. intros [Hk Hb _ _ _]. destruct rJ. cbn in *. by subst. Qed.

Lemma createRTEforJoin_ok top jt li ri rl rr tl tr st :
  rt_fetch (li + 1) (rtable top) = Some rl → rt_fetch (ri + 1) (rtable top) = Some rr →
  entry_ok rl tl → entry_ok rr tr →
  ∃ rJ, createRTEforJoin top jt li ri st = Ok (set_rtable (rtable top ++ [rJ]) top, st) ∧
    join_of (li + 1) (ri + 1) (length tl) (length tr) rJ ∧ entry_ok rJ (tl ++ tr).
Proof.
  intros Hl Hr El Er. unfold createRTEforJoin. rewrite Hl, bind_deref.
  destruct (eo_vars _ _ El li st) as (vl & nl & E1 & C1 & L1 & N1 & T1). hrun E1. rewrite Hr, bind_deref.
  destruct (eo_vars _ _ Er ri st) as (vr & nr & E2 & C2 & L2 & N2 & T2). hrun E2.
  eexists. split; [done|]. split.
  - split; try done; cbn; [by rewrite fmap_app, C1, C2|by apply Forall_app].
  - rewrite <- T1, <- T2, <- fmap_app. apply join_entry_cols; [done|]. cbn. rewrite !length_app. lia.
Qed.

(** ** Conditions on the first [w] columns *)

Context (w : nat).

Definition same_cols (t u : tuple) : bool := forallb (λ n, bool_decide (attr n t = attr n u)) (cols_from 1 w).

Definition match_test (k : match_kind) (t u : tuple) : bool :=
  match k with Same => same_cols t u | Other => negb (same_cols t u) | Any => true end.

Lemma same_cols_agree t t' u : agrees w t t' → same_cols t u = same_cols t' u.
Proof.
  intros H. unfold same_cols.
  assert (∀ l, (∀ m, m ∈ l → (1 ≤ m ≤ Z.of_nat w)%Z) →
    forallb (λ m, bool_decide (attr m t = attr m u)) l = forallb (λ m, bool_decide (attr m t' = attr m u)) l) as Hl.
  { induction l as [|m l IH]; intros Hm; [done|]. cbn. rewrite IH by (intros; apply Hm; by right).
    by rewrite (H m) by (apply Hm; left). }
  apply Hl. intros m. rewrite elem_of_seqZ. lia.
Qed.

(** A row of an input is a partner if it has the same first columns. *)
Lemma same_cols_app t (p : row) : length t = w → length p.1 = w → same_cols t (flatten p) = bool_decide (p.1 = t).
Proof.
  intros Ht Hp. apply eq_true_iff_eq. unfold same_cols. rewrite forallb_forall, bool_decide_eq_true. split.
  - intros H. apply list_eq. intros k. destruct (decide (k < w)%nat) as [Hk|Hk].
    + specialize (H (Z.of_nat k + 1)%Z). rewrite bool_decide_eq_true in H. specialize (H ltac:(apply list_elem_of_In, elem_of_seqZ; lia)).
      unfold flatten in H. rewrite attr_app_l, !attr_lookup in H by lia.
      destruct (lookup_lt_is_Some_2 t k) as [x Ex]; [lia|]. destruct (lookup_lt_is_Some_2 p.1 k) as [y Ey]; [lia|].
      rewrite Ex, Ey in *. cbn in H. by rewrite H.
    + by rewrite !lookup_ge_None_2 by lia.
  - intros <- m Hm%list_elem_of_In%elem_of_seqZ. apply bool_decide_eq_true. unfold flatten. rewrite attr_app_l by lia. done.
Qed.

(** An entry whose first [w] columns can be compared. *)
Record leading (r : RangeTblEntry) (tys : list Z) : Prop := {
  ld_entry : entry_ok r tys;
  ld_wide : (w ≤ length tys)%nat;
  ld_types : Forall (λ ty, is_Some (equality_oper cat ty)) (take w tys) }.

Lemma leading_join rl tl rJ tr : leading rl tl → entry_ok rJ (tl ++ tr) → leading rJ (tl ++ tr).
Proof.
  intros [_ Hw Ht] He. split; [done|rewrite length_app; lia|]. by rewrite take_app_le.
Qed.

Lemma take_cols (tes : list TargetEntry) m : (w ≤ m)%nat → resno <$> tes = cols_from 1 m → resno <$> take w tes = cols_from 1 w.
Proof.
  intros Hw E. rewrite fmap_take, E. replace m with (w + (m - w))%nat by lia.
  rewrite Nat2Z.inj_add, seqZ_app by lia. by rewrite take_app_length' by (rewrite length_seqZ; lia).
Qed.

Lemma zip_cols ls rs l r :
  resno <$> ls = cols_from 1 w → resno <$> rs = cols_from 1 w →
  (λ p, eq_cols l (resno p.1) r (resno p.2)) <$> zip ls rs = (λ n, eq_cols l n r n) <$> cols_from 1 w.
Proof.
  generalize (cols_from 1 w). intros ns. revert ls rs. induction ns as [|n ns IH]; intros [|x ls] [|y rs]; try done.
  intros [= Hx Hls] [= Hy Hrs]. csimpl. rewrite IH by done. by rewrite Hx, Hy.
Qed.

Lemma createSetJoinCondition_ok top li ri rl rr tl tr (neq : bool) st :
  length (targetList top) = w → w ≠ 0%nat →
  rt_fetch (li + 1) (rtable top) = Some rl → rt_fetch (ri + 1) (rtable top) = Some rr →
  leading rl tl → entry_ok rr tr → (w ≤ length tr)%nat →
  ∃ c, createSetJoinCondition cat top li ri neq st = Ok (Some c, st) ∧ expr0 c = true ∧
    computes op_sem c (λ e, match_test (if neq then Other else Same) (e (li + 1)%Z) (e (ri + 1)%Z)).
Proof.
  intros Hw H0 Hl Hr [El Wl Cl] Er Wr. unfold createSetJoinCondition. rewrite Hl, bind_deref.
  destruct (eo_attrs _ _ El st) as (ls & E1 & N1 & T1). hrun E1. rewrite Hr, bind_deref.
  destruct (eo_attrs _ _ Er st) as (rs & E2 & N2 & T2). hrun E2. rewrite Hw. unfold createEqualityCondition.
  destruct (equal_conds_ok op_sem cat (take w ls) (take w rs) li ri st) as (cs & E & L0 & Hc).
  { rewrite <- T1, <- fmap_take, Forall_fmap in Cl. exact Cl. }
  hrun E. rewrite (zip_cols _ _ _ _ (take_cols _ _ Wl N1) (take_cols _ _ Wr N2)) in Hc.
  pose proof (createAndFromList_ok _ _ _ Hc) as Ha. pose proof (createAndFromList_level0 _ L0) as Ha0.
  destruct (createAndFromList cs) as [c|].
  2:{ apply (f_equal length) in Ha. rewrite length_fmap, length_seqZ in Ha. cbn in Ha. lia. }
  assert (computes op_sem c (λ e, same_cols (e (li + 1)%Z) (e (ri + 1)%Z))) as Hs.
  { apply (computes_ext _ _ _ _ Ha). intros e. unfold same_cols. clear.
    induction (cols_from 1 w) as [|n ns IH]; [done|]. csimpl. by rewrite IH. }
  destruct neq; [rewrite bind_deref|]; (eexists; split; [done|]).
  - split; [cbn; by rewrite andb_true_r|]. by apply computes_not.
  - by split.
Qed.

(** ** The chain of joins *)

Lemma at_step_snoc steps s0 pre s : at_step (steps ++ [s0]) pre s → at_step steps pre s ∨ (pre = steps ∧ s = s0).
Proof.
  intros [post E]. destruct post as [|x post _] using rev_ind.
  - apply app_inj_tail in E as [-> ->]. by right.
  - left. exists post. change (s :: post ++ [x]) with ((s :: post) ++ [x]) in E.
    rewrite (assoc_L (++)) in E. by apply app_inj_tail in E as [-> _].
Qed.

Lemma rt_fetch_app {A} (l k : list A) i x : rt_fetch i l = Some x → rt_fetch i (l ++ k) = Some x.
Proof. unfold rt_fetch. case_decide; [|done]. apply lookup_app_l_Some. Qed.

Lemma rt_fetch_last {A} (l : list A) x : rt_fetch (Z.of_nat (length l) + 1) (l ++ [x]) = Some x.
Proof.
  unfold rt_fetch. rewrite decide_True by lia. replace (Z.to_nat (Z.of_nat (length l) + 1 - 1)) with (length l) by lia.
  by rewrite lookup_app_r, Nat.sub_diag by lia.
Qed.

(** The entries before the joins. *)
Context (base : list RangeTblEntry) (ps : list (bool * match_kind)).
Abbreviation N := (Z.of_nat (length base)).

Definition join_type (p : bool * match_kind) : JoinType := if p.1 then JOIN_LEFT else JOIN_INNER.

(** The join [s] behind the joins [pre]. *)
Record join_at (rt : list RangeTblEntry) (pre : list step) (s : step) (p : bool * match_kind) : Prop := {
  ja_type : s_type s = join_type p;
  ja_right : s_right s = (2 + Z.of_nat (length pre))%Z;
  ja_join : s_join s = (N + 1 + Z.of_nat (length pre))%Z;
  ja_qual : ∃ c, s_qual s = Some c ∧ expr0 c = true ∧
    computes op_sem c (λ e, match_test p.2 (e (root (chain pre))) (e (s_right s)));
  ja_cols : ∃ rl rr rJ tl tr, rt_fetch (root (chain pre)) rt = Some rl ∧ rt_fetch (s_right s) rt = Some rr ∧
    rt_fetch (s_join s) rt = Some rJ ∧ entry_ok rl tl ∧ entry_ok rr tr ∧
    join_of (root (chain pre)) (s_right s) (length tl) (length tr) rJ }.

Lemma join_at_app rt k pre s p : join_at rt pre s p → join_at (rt ++ k) pre s p.
Proof.
  intros [Ht Hr HJ Hq (rl & rr & rJ & tl & tr & H1 & H2 & H3 & H)]. split; try done.
  exists rl, rr, rJ, tl, tr. split_and!; try apply rt_fetch_app; naive_solver.
Qed.

Record chained (top : Query) (steps : list step) : Prop := {
  ch_rtable : ∃ js, rtable top = base ++ js ∧ length js = length steps ∧ Forall (λ r, rte0 r = true) js;
  ch_steps : ∀ pre s, at_step steps pre s → ∃ p, ps !! length pre = Some p ∧ join_at (rtable top) pre s p;
  ch_root : ∃ r tys, rt_fetch (root (chain steps)) (rtable top) = Some r ∧ leading r tys }.

Lemma chained_snoc top steps p rl tl rr tr rJ c :
  chained top steps → ps !! length steps = Some p →
  let i := (2 + Z.of_nat (length steps))%Z in let J := (N + 1 + Z.of_nat (length steps))%Z in
  rt_fetch (root (chain steps)) (rtable top) = Some rl → leading rl tl →
  rt_fetch i (rtable top) = Some rr → entry_ok rr tr →
  join_of (root (chain steps)) i (length tl) (length tr) rJ → entry_ok rJ (tl ++ tr) →
  expr0 c = true → computes op_sem c (λ e, match_test p.2 (e (root (chain steps))) (e i)) →
  chained (set_rtable (rtable top ++ [rJ]) top) (steps ++ [mkStep (join_type p) (Some c) i J]).
Proof.
  intros [(js & Hjs & Hlen & H0) Hst _] Hp i J Hl Hld Hr Hrr HJ HJe Hc0 Hc.
  assert (rt_fetch J (rtable top ++ [rJ]) = Some rJ) as Hfetch.
  { assert (J = Z.of_nat (length (rtable top)) + 1)%Z as -> by (rewrite Hjs, length_app; unfold J; lia).
    apply rt_fetch_last. }
  split; cbn [rtable set_rtable].
  - exists (js ++ [rJ]). rewrite Hjs, (assoc_L (++)), !length_app. split; [done|]. split; [cbn; lia|].
    apply Forall_app. split; [done|]. constructor; [by eapply join_of_rte0|constructor].
  - intros pre s [Hs|[-> ->]]%at_step_snoc.
    + destruct (Hst pre s Hs) as (p' & Hp' & Hj). exists p'. split; [done|]. by apply join_at_app.
    + exists p. split; [done|]. split; try done; [by exists c|]. exists rl, rr, rJ, tl, tr.
      pose proof (ld_entry _ _ Hld). split_and!; try done; by apply rt_fetch_app.
  - exists rJ, (tl ++ tr). rewrite root_snoc. split; [done|]. by eapply leading_join.
Qed.

(** The input [k] and its columns. *)
Context (inputs_ok : ∀ (k : nat) p, ps !! k = Some p → ∃ r tys, base !! S k = Some r ∧ entry_ok r tys ∧ (w ≤ length tys)%nat).

Lemma chained_input top steps p :
  chained top steps → ps !! length steps = Some p →
  ∃ r tys, rt_fetch (2 + Z.of_nat (length steps)) (rtable top) = Some r ∧ entry_ok r tys ∧ (w ≤ length tys)%nat.
Proof.
  intros [(js & -> & _ & _) _ _] Hp. destruct (inputs_ok _ _ Hp) as (r & tys & Hr & H). exists r, tys. split; [|done].
  apply rt_fetch_app. unfold rt_fetch. rewrite decide_True by lia. rewrite <- Hr. f_equal. lia.
Qed.

Lemma join_entry_ok top steps b li i J st :
  length (targetList top) = w → w ≠ 0%nat → chained top steps → ps !! length steps = Some (b, Same) →
  (li + 1)%Z = root (chain steps) → (i = 1 + Z.of_nat (length steps))%Z → (J = N + 1 + Z.of_nat (length steps))%Z →
  ∃ rJ s, join_entry cat (join_type (b, Same)) top (chain steps) li i J st =
      Ok ((set_rtable (rtable top ++ [rJ]) top, chain (steps ++ [s])), st) ∧
    chained (set_rtable (rtable top ++ [rJ]) top) (steps ++ [s]) ∧ root (chain (steps ++ [s])) = J.
Proof.
  intros Hw H0 Hch Hp Hli -> ->. destruct (chained_input _ _ _ Hch Hp) as (rr & tr & Hr & Er & Wr).
  destruct (ch_root _ _ Hch) as (rl & tl & Hl & El). unfold join_entry.
  replace (2 + Z.of_nat (length steps))%Z with (1 + Z.of_nat (length steps) + 1)%Z in Hr by lia.
  destruct (createRTEforJoin_ok top (join_type (b, Same)) li (1 + Z.of_nat (length steps)) rl rr tl tr st)
    as (rJ & E1 & HJ & HJe); [by rewrite Hli|done|apply El|done|]. hrun E1.
  destruct (createSetJoinCondition_ok (set_rtable (rtable top ++ [rJ]) top) li (1 + Z.of_nat (length steps)) rl rr tl tr
    false st Hw H0) as (c & E2 & Hc0 & Hc); [rewrite Hli; by apply rt_fetch_app|by apply rt_fetch_app|done..|]. hrun E2.
  rewrite Hli in *. replace (1 + Z.of_nat (length steps) + 1)%Z with (2 + Z.of_nat (length steps))%Z in * by lia.
  eexists rJ, _. split; [rewrite chain_snoc|split; [by eapply (chained_snoc top steps (b, Same))|by rewrite root_snoc]].
  done.
Qed.

(** All the joins of a union or an intersection. *)
Lemma join_entries_ok b n top steps L i st :
  length (targetList top) = w → w ≠ 0%nat → chained top steps →
  ps = replicate (length steps + n) (b, Same) → steps ≠ [] →
  (L = N + Z.of_nat (length steps) - 1)%Z → (i = 1 + Z.of_nat (length steps))%Z → root (chain steps) = (L + 1)%Z →
  ∃ rt steps', join_entries cat (join_type (b, Same)) n top (chain steps) L i st =
      Ok ((set_rtable rt top, chain steps'), st) ∧
    chained (set_rtable rt top) steps' ∧ length steps' = length ps.
Proof.
  intros Hw H0. revert top steps L i Hw. induction n as [|n IH]; intros top steps L i Hw Hch Hps Hne HL Hi Hroot.
  { exists (rtable top), steps. rewrite Hps, length_replicate, Nat.add_0_r. destruct top. by split_and!. }
  cbn [join_entries].
  destruct (join_entry_ok top steps b L i (L + 2)%Z st) as (rJ & s & E & Hch' & HJ); try done; try lia.
  { rewrite Hps. apply lookup_replicate. split; [done|lia]. }
  hrun E. apply (IH (set_rtable (rtable top ++ [rJ]) top) (steps ++ [s])); rewrite ?length_app; cbn; try done; try lia.
  - rewrite Hps. f_equal. lia.
  - by destruct steps.
Qed.

(** ** The joins of a set operation *)

Context (top : Query) (Htop : rtable top = base) (Hw : length (targetList top) = w) (Hw0 : w ≠ 0%nat).
Context (r1 : RangeTblEntry) (tys1 : list Z) (Hr1 : base !! 0%nat = Some r1) (Hld1 : leading r1 tys1).

Lemma chained_nil : chained top [].
Proof.
  split.
  - exists []. rewrite app_nil_r. by split_and!.
  - intros pre s [post E]. by destruct pre.
  - exists r1, tys1. rewrite Htop. split; [|done]. cbn. unfold rt_fetch. by rewrite decide_True.
Qed.

Definition joined (res : outcome (Query * rewriter)) (st : rewriter) : Prop :=
  ∃ rt steps, res = Ok (with_fromlist [chain steps] (set_rtable rt top), st) ∧
    chained (set_rtable rt top) steps ∧ length steps = length ps.

Lemma createSetDiffJoin_ok o all l r st :
  subquery r1 = Some o → setOperations o = Some (SetOperationStmt SETOP_EXCEPT all l r) →
  ps = set_steps SETOP_EXCEPT all 2 → length base = 3%nat → joined (createSetDiffJoin cat false top st) st.
Proof.
  intros Ho Hset Hps Hb. unfold createSetDiffJoin. rewrite Htop, head_lookup, Hr1, bind_deref, Ho, bind_deref, Hset, bind_ret.
  assert (N = 3)%Z as HN by lia.
  destruct (join_entry_ok top [] false 0 1 (N + 1) st) as (rJ & s & E & Hch & HJ); try done.
  { apply chained_nil. } { by rewrite Hps. } { cbn. lia. }
  rewrite HN in *. hrun E. cbn [app] in *. set (top1 := set_rtable (rtable top ++ [rJ]) top) in *.
  destruct (ch_root _ _ Hch) as (rl & tl & Hl & El). rewrite HJ in Hl.
  assert (ps !! 1%nat = Some (true, if all then Other else Any)) as Hp by by rewrite Hps.
  destruct (chained_input top1 [s] _ Hch Hp) as (rr & tr & Hr & Er & Wr). cbn in Hr.
  destruct (createRTEforJoin_ok top1 JOIN_LEFT 3 2 rl rr tl tr st) as (rJ2 & E2 & HJ2 & HJe2); [done..|apply El|done|].
  hrun E2. set (top2 := set_rtable (rtable top1 ++ [rJ2]) top1).
  assert (∃ c, (if all then createSetJoinCondition cat top2 3 2 true else ret (Some (makeBoolConst true false))) st = Ok (Some c, st) ∧
    expr0 c = true ∧ computes op_sem c (λ e, match_test (if all then Other else Any) (e 4%Z) (e 3%Z))) as (c & E3 & Hc0 & Hc).
  { destruct all.
    - by eapply (createSetJoinCondition_ok top2 3 2 rl rr tl tr true); [..|apply rt_fetch_app|apply rt_fetch_app| | |].
    - eexists. by split_and!. }
  hrun E3. eexists (rtable top2), [s; mkStep JOIN_LEFT (Some c) 3 5]. split; [done|].
  pose proof (chained_snoc top1 [s] _ rl tl rr tr rJ2 c Hch Hp) as Hsn. cbn [length] in Hsn. rewrite HJ, HN in Hsn.
  split; [|by rewrite Hps]. by apply Hsn.
Qed.

(** The alternative semantics joins the left argument only. *)
Lemma createSetDiffJoin_left o all l r st :
  subquery r1 = Some o → setOperations o = Some (SetOperationStmt SETOP_EXCEPT all l r) →
  ps = [(false, Same)] → length base = 2%nat → joined (createJoinsForSetOp cat true top SETOP_EXCEPT st) st.
Proof.
  intros Ho Hset Hps Hb. unfold createJoinsForSetOp, createSetDiffJoin.
  rewrite Htop, head_lookup, Hr1, bind_deref, Ho, bind_deref, Hset, bind_ret.
  destruct (join_entry_ok top [] false 0 1 (N + 1) st) as (rJ & s & E & Hch & _); try done.
  { apply chained_nil. } { by rewrite Hps. } { cbn. lia. }
  hrun E. exists (rtable top ++ [rJ]), [s]. split; [done|]. by rewrite Hps.
Qed.

Lemma createJoinsForSetOp_ok op all o l r st :
  subquery r1 = Some o → setOperations o = Some (SetOperationStmt op all l r) →
  ps = set_steps op all (length base - 1) → (2 ≤ length base)%nat → (op = SETOP_EXCEPT → length base = 3%nat) →
  joined (createJoinsForSetOp cat false top op st) st.
Proof.
  intros Ho Hset Hps Hb He. unfold createJoinsForSetOp.
  assert (op ≠ SETOP_EXCEPT → let b := bool_decide (op = SETOP_UNION) in
    joined (('(query, newJoin) ← join_entry cat (join_type (b, Same)) top (RangeTblRef 1) 0 1 (Z.of_nat (length (rtable top)) + 1);
      '(query, curJoin) ← join_entries cat (join_type (b, Same)) (Z.to_nat (Z.of_nat (length (rtable top)) - 2)) query newJoin
         (Z.of_nat (length (rtable top))) 2;
      ret (with_fromlist [curJoin] query)) st) st) as Hgen.
  { intros Hne b. assert (ps = replicate (length base - 1) (b, Same)) as Hrep by (rewrite Hps; by destruct op).
    rewrite Htop. destruct (join_entry_ok top [] b 0 1 (N + 1) st) as (rJ & s & E & Hch & HJ); try done.
    { apply chained_nil. } { rewrite Hrep. apply lookup_replicate. split; [done|cbn; lia]. } { cbn. lia. }
    hrun E. cbn [app] in *.
    destruct (join_entries_ok b (Z.to_nat (N - 2)) (set_rtable (rtable top ++ [rJ]) top) [s] N 2 st)
      as (rt & steps & E2 & Hch2 & Hlen2); try done; [|cbn; lia|].
    { rewrite Hrep. f_equal. cbn. lia. }
    hrun E2. by exists rt, steps. }
  destruct op; [by apply Hgen..|]. eapply createSetDiffJoin_ok; [done..| |by apply He]. rewrite Hps. done.
Qed.

End joins.
End SetJoins.
