(* ===== verification/SetFacts.v ===== *)
(** * The rewriter for set operations is correct

    The original query joined with its rewritten inputs gives every row the witnesses it has in the inputs. *)

From Stdlib Require Import ZArith Lia.
From stdpp Require Import base strings numbers list sets.
From S2P Require Import Prelude AttrName QueryTree SqlSemantics SqlFacts Queries ProvWitness Sublevels.
From S2P Require Import RewriteSPJ JoinBuild RewriteAggr RewriteSet RewriteFacts RewriteJoins RewriteEval RewriteMain.
From S2P Require Import JoinChain Conditions SetTrees SetJoins AggrFacts.
Import QueryTree SqlSemantics SqlFacts Queries ProvWitness Sublevels RewriteSPJ JoinBuild RewriteAggr RewriteSet.
Import RewriteFacts RewriteJoins RewriteEval RewriteMain JoinChain Conditions SetTrees SetJoins AggrFacts.

Module SetFacts.

Lemma rw_length op_sem cat db s s' pl : query_rw cat op_sem db s s' pl → length (targetList s') = (out_width s + prov_width cat s)%nat.
Proof. intros H. pose proof (f_equal length (qr_targets _ _ _ _ _ _ H)) as E. rewrite length_fmap, length_seqZ in E. lia. Qed.

Section top.
Context (op_sem : operators) (cat : syscache) (db : Z → list tuple).
Abbreviation evalQ := (evalQuery op_sem cat db).
Abbreviation evalR := (evalRTE op_sem cat db).
Abbreviation provQ := (evalProv op_sem cat db).

(** [o] is the original query; [ss] are the inputs, [ss'] the rewritten inputs and [pls] their provenance columns. *)
Context (o : Query) (ss ss' : list Query) (pls : list (list TargetEntry)).
Abbreviation w := (length (targetList o)).
Context (Ho_shown : Forall shown_named (targetList o)) (Ho_num : resno <$> targetList o = cols_from 1 w).
Context (Ho_rows : Forall (λ t, length t = w) (evalQ o)).
Context (Hss : Forall3 (query_rw cat op_sem db) ss ss' pls) (Hsw : Forall (λ s, out_width s = w) ss).

Context (r1 : RangeTblEntry) (rs : list RangeTblEntry) (H1 : sub_rte r1 o) (Hrs : Forall2 sub_rte rs ss').
Context (top : Query) (rt : list RangeTblEntry) (ps : list (bool * match_kind)) (steps : list step).
Context (Hch : chained op_sem cat w (r1 :: rs) ps (set_rtable rt top) steps).
Context (Hlen : length steps = length rs) (Hps : length ps = length rs).
Context (Hplain : plain_select top) (Hquals : quals top = None) (Hdist : distinctClause top = []).
Context (Hbase : Forall2 (λ te n, ∃ v, expr te = EVar v ∧ varno v = 1%Z ∧ varattno v = n ∧ varlevelsup v = 0%Z)
  (targetList top) (cols_from 1 w)).

Definition set_top : Query := with_fromlist [chain steps] (set_rtable rt top).

Abbreviation n := (length rs).
Abbreviation PS := (λ i, pls !!! Z.to_nat (i - 2)).

Lemma at_step_lookup pre s : at_step steps pre s → steps !! length pre = Some s ∧ pre = take (length pre) steps.
Proof. intros [post ->]. rewrite take_app_length. split; [|done]. by apply list_lookup_middle. Qed.

Lemma lookup_at_step (k : nat) s : steps !! k = Some s → at_step steps (take k steps) s.
Proof. intros H. exists (drop (S k) steps). by rewrite take_drop_middle. Qed.

(** Every join is the one of its position. *)
Lemma step_join (k : nat) s :
  steps !! k = Some s → ∃ p, ps !! k = Some p ∧ join_at op_sem cat w (r1 :: rs) rt (take k steps) s p.
Proof.
  intros H. pose proof (lookup_lt_Some _ _ _ H).
  destruct (ch_steps _ _ _ _ _ _ _ Hch _ _ (lookup_at_step k s H)) as (p & Hp & HJ). exists p.
  rewrite length_take_le in Hp by lia. done.
Qed.

Lemma step_right (k : nat) s : steps !! k = Some s → s_right s = (2 + Z.of_nat k)%Z.
Proof.
  intros H. destruct (step_join k s H) as (p & _ & HJ). rewrite (ja_right _ _ _ _ _ _ _ _ HJ), length_take_le; [done|].
  apply lookup_lt_Some in H. lia.
Qed.

Lemma step_names (k : nat) s : steps !! k = Some s → s_join s = (Z.of_nat n + 2 + Z.of_nat k)%Z.
Proof.
  intros H. destruct (step_join k s H) as (p & _ & HJ). rewrite (ja_join _ _ _ _ _ _ _ _ HJ), length_take_le; [cbn; lia|].
  apply lookup_lt_Some in H. lia.
Qed.

Lemma numbers (f : step → Z) (m : Z) :
  (∀ (k : nat) s, steps !! k = Some s → f s = (m + Z.of_nat k)%Z) → f <$> steps = seqZ m (Z.of_nat n).
Proof.
  intros H. apply list_eq. intros k. rewrite list_lookup_fmap. destruct (steps !! k) as [s|] eqn:E; cbn.
  - rewrite lookup_seqZ_lt by (apply lookup_lt_Some in E; lia). by rewrite (H k s E).
  - rewrite lookup_seqZ_ge; [done|]. apply lookup_ge_None in E. lia.
Qed.

Lemma rights : s_right <$> steps = seqZ 2 (Z.of_nat n).
Proof. apply numbers, step_right. Qed.

Lemma joins : s_join <$> steps = seqZ (Z.of_nat n + 2) (Z.of_nat n).
Proof. apply numbers. intros k s H. rewrite (step_names k s H). lia. Qed.

Lemma set_nodup : NoDup (1%Z :: (s_right <$> steps) ++ (s_join <$> steps)).
Proof.
  rewrite rights, joins. rewrite NoDup_cons, NoDup_app. split_and!.
  - rewrite elem_of_app, !elem_of_seqZ. lia.
  - apply NoDup_seqZ.
  - intros i. rewrite !elem_of_seqZ. lia.
  - apply NoDup_seqZ.
Qed.

Lemma rt_base i r : rt_fetch i (r1 :: rs) = Some r → rt_fetch i rt = Some r.
Proof. intros H. destruct (ch_rtable _ _ _ _ _ _ _ Hch) as (js & E & _). cbn in E. rewrite E. by apply (rt_fetch_app (r1 :: rs)). Qed.

(** The input at an index. *)
Lemma input_at i :
  i ∈ s_right <$> steps →
  ∃ r s s' pl, rt_fetch i rt = Some r ∧ sub_rte r s' ∧ ss !! Z.to_nat (i - 2) = Some s ∧ query_rw cat op_sem db s s' pl ∧
    PS i = pl ∧ out_width s = w.
Proof.
  rewrite rights, elem_of_seqZ. intros Hi. destruct (lookup_lt_is_Some_2 rs (Z.to_nat (i - 2))) as [r Hr]; [lia|].
  destruct (Forall2_lookup_l _ _ _ _ _ Hrs Hr) as (s' & Hs' & Hsub).
  destruct (Forall3_lookup_m _ _ _ _ _ _ Hss Hs') as (s & pl & Hs & Hpl & Hrw). exists r, s, s', pl.
  split_and!; try done.
  - apply rt_base. unfold rt_fetch. rewrite decide_True by lia. by replace (Z.to_nat (i - 1)) with (S (Z.to_nat (i - 2))) by lia.
  - by rewrite list_lookup_total_alt, Hpl.
  - rewrite Forall_lookup in Hsw. by eapply Hsw.
Qed.

Lemma set_sub_entry i : i ∈ 1%Z :: (s_right <$> steps) → sub_entry cat set_top i.
Proof.
  rewrite elem_of_cons. intros [->|(r & s & s' & pl & Hr & Hsub & _ & Hrw & _)%input_at].
  - eapply sub_entry_of; [by apply rt_base|exact H1|done|done].
  - eapply sub_entry_of; [exact Hr|exact Hsub|exact (qr_shown _ _ _ _ _ _ Hrw)|].
    rewrite (qr_targets _ _ _ _ _ _ Hrw). by rewrite (rw_length _ _ _ _ _ _ Hrw).
Qed.

Lemma set_chain : chain_query cat set_top steps.
Proof.
  split; try done; [apply set_nodup|apply set_sub_entry|].
  intros pre s [Hs Hpre]%at_step_lookup. destruct (step_join _ _ Hs) as (p & _ & HJ). rewrite <- Hpre in HJ.
  destruct (ja_cols _ _ _ _ _ _ _ _ HJ) as (rl & rr & rJ & tl & tr & Fl & Fr & FJ & El & Er & [Kj _ Cj Lj _]).
  exists rJ. split_and!; try done. unfold width. cbn [rtable set_top with_fromlist set_rtable]. rewrite Fl, Fr.
  by rewrite (eo_width _ _ _ El), (eo_width _ _ _ Er).
Qed.

Lemma set_width1 : width cat set_top 1 = w.
Proof.
  unfold width. cbn [rtable set_top with_fromlist set_rtable]. rewrite (rt_base 1 r1) by done. by apply (sub_rte_width cat r1 o).
Qed.

(** ** Partners *)

Definition set_test (s : step) (t u : tuple) : bool :=
  match ps !! Z.to_nat (s_right s - 2) with Some p => match_test w p.2 t u | None => true end.

Lemma test_at (k : nat) s p : steps !! k = Some s → ps !! k = Some p → set_test s = match_test w p.2.
Proof. intros H Hp. unfold set_test. rewrite (step_right k s H). replace (Z.to_nat (2 + Z.of_nat k - 2)) with k by lia. by rewrite Hp. Qed.

Abbreviation rows := (λ i, default [] (rt_fetch i (map evalR rt))).

Lemma set_steps_ok : steps_ok op_sem rows (aliases set_top) (width cat set_top 1) set_test steps.
Proof.
  intros pre s Hs. pose proof (at_step_lookup _ _ Hs) as [Hk Hpre]. destruct (step_join _ _ Hk) as (p & Hp & HJ).
  rewrite <- Hpre in HJ. split.
  - rewrite (ja_type _ _ _ _ _ _ _ _ HJ). unfold join_type. destruct p.1; auto.
  - rewrite set_width1. intros e t Hag _. destruct (ja_qual _ _ _ _ _ _ _ _ HJ) as (c & -> & _ & Hc).
    rewrite (computes_qual _ _ _ _ Hc), (test_at _ _ _ Hk Hp).
    unfold match_test. by rewrite (same_cols_agree _ _ _ _ Hag).
  - intros k Hkw. by apply (chain_first_cols cat set_top steps set_chain).
Qed.

(** An input with its witnesses. *)
Definition operand_of (s : Query) : operand := (provQ s, prov_width cat s).

Definition continuations (p : (bool * match_kind) * operand) (t : tuple) : list tuple :=
  let ws := matching p.1.2 t p.2.1 in match ws with [] => if p.1.1 then [nulls p.2.2] else [] | _ => ws end.

Lemma matching_bool k t (l : list row) :
  length t = w → Forall (λ p, length p.1 = w) l →
  matching k t l = snd <$> List.filter (λ p, match_test w k t (flatten p)) l.
Proof.
  intros Ht Hl. unfold matching. rewrite Forall_forall in Hl. f_equal. destruct k; cbn [match_test].
  - rewrite filter_bool. apply filter_ext_bool. intros p Hp. rewrite same_cols_app by auto. done.
  - rewrite filter_bool. apply filter_ext_bool. intros p Hp. rewrite same_cols_app by auto. by rewrite bool_decide_not.
  - by rewrite filter_all.
Qed.

Lemma partners_ok (k : nat) s sub p t :
  steps !! k = Some s → ps !! k = Some p → ss !! k = Some sub → length t = w →
  attrs (resno <$> PS (s_right s)) <$> partners rows (null_tuple cat set_top) set_test s t = continuations (p, operand_of sub) t.
Proof.
  intros Hs Hp Hsub Ht. destruct (step_join k s Hs) as (p' & Hp' & HJ). rewrite Hp in Hp'. injection Hp' as <-.
  destruct (input_at (s_right s)) as (r & sub' & s' & pl & Hr & Hsr & Hsub' & Hrw & HPS & How).
  { apply list_elem_of_fmap_2. by eapply list_elem_of_lookup_2. }
  replace (Z.to_nat (s_right s - 2)) with k in Hsub' by (rewrite (step_right k s Hs); lia).
  rewrite Hsub in Hsub'. injection Hsub' as <-. rewrite HPS. unfold partners, continuations, operand_of. cbn [fst snd].
  rewrite (ja_type _ _ _ _ _ _ _ _ HJ), (test_at k s p Hs Hp). rewrite rt_fetch_map, Hr. cbn [fmap option_fmap option_map default].
  unfold id. rewrite (sub_rte_eval _ _ _ _ _ Hsr), (qr_eval _ _ _ _ _ _ Hrw), filter_fmap_bool.
  pose proof (qr_widths _ _ _ _ _ _ Hrw) as Hwid. rewrite How in Hwid.
  rewrite matching_bool; [|done|eapply Forall_impl; [exact Hwid|]; by intros q []].
  pose proof (qr_resno _ _ _ _ _ _ Hrw) as Hres. rewrite How in Hres. rewrite Hres.
  assert (attrs (cols_from (Z.of_nat w + 1) (prov_width cat sub)) <$>
     (flatten <$> List.filter (λ p0, match_test w p.2 t (flatten p0)) (provQ sub)) =
     snd <$> List.filter (λ p0, match_test w p.2 t (flatten p0)) (provQ sub)) as E.
  { rewrite <- list_fmap_compose. apply list_fmap_ext. intros j q Hq%list_elem_of_lookup_2.
    apply elem_of_filter_bool in Hq as [Hq _]. rewrite Forall_forall in Hwid. destruct (Hwid q Hq) as [W1 W2].
    cbn. unfold flatten, attrs. rewrite <- W1, <- W2. apply attrs_app. }
  destruct (List.filter (λ p0, match_test w p.2 t (flatten p0)) (provQ sub)) as [|q l].
  - cbn [fmap list_fmap]. unfold join_type. destruct p.1; [|done]. cbn [fmap list_fmap]. f_equal.
    unfold null_tuple. cbn [rtable set_top with_fromlist set_rtable]. rewrite Hr.
    destruct (row_rel_nulls 0 (rte_width cat r) (cols_from (Z.of_nat w + 1) (prov_width cat sub))) as [_ En].
    cbn [snd] in En. unfold attrs. by rewrite En, length_seqZ, Nat2Z.id.
  - rewrite <- E. cbn [fmap list_fmap]. unfold join_type. by destruct p.1.
Qed.

Lemma extend_foldl t l acc (l' : list ((bool * match_kind) * operand)) :
  Forall2 (λ s p, attrs (resno <$> PS (s_right s)) <$> partners rows (null_tuple cat set_top) set_test s t = continuations p t) l l' →
  foldl (λ acc s, acc ≫= λ x, (λ y, x ++ y) <$> (attrs (resno <$> PS (s_right s)) <$> partners rows (null_tuple cat set_top) set_test s t))
    acc l =
  foldl (λ acc p, attach p.1.1 p.2.2 (matching p.1.2 t p.2.1) acc) acc l'.
Proof.
  intros H. revert acc. induction H as [|s p l l' Hp _ IH]; intros acc; cbn [foldl]; [done|].
  rewrite IH, Hp.
  done.
Qed.

(** The partners are the witnesses. *)
Lemma extend_ok t :
  length t = w →
  extend rows (null_tuple cat set_top) set_test (λ i, resno <$> PS i) steps t =
    foldl (λ acc p, attach p.1.1 p.2.2 (matching p.1.2 t p.2.1) acc) [[]] (zip ps (operand_of <$> ss)).
Proof.
  intros Ht. apply extend_foldl. assert (length ss = n) as Hn.
  { rewrite (Forall3_length_lm _ _ _ _ Hss). symmetry. by eapply Forall2_length. }
  apply Forall2_same_length_lookup. split; [rewrite length_zip_with, length_fmap; lia|].
  intros k s [p x] Hs Hp. apply lookup_zip_with_Some in Hp as (p' & x' & [= -> ->] & Hp & Hx).
  rewrite list_lookup_fmap in Hx. destruct (ss !! k) as [sub|] eqn:E; [|done]. injection Hx as <-. by apply (partners_ok k).
Qed.

(** ** The rewritten query *)

Lemma attrs_all (t : tuple) : attrs (cols_from 1 (length t)) t = t.
Proof. exact (attrs_app [] t). Qed.

Lemma set_eval tes :
  Forall (λ te, resjunk te = false) (targetList top ++ tes) →
  (∀ e, settled op_sem id (λ t _ _, t) (alias_in (rtable set_top)) e (chain steps) →
    (λ te, eval_expr op_sem (vals_of id e) (expr te)) <$> tes =
      concat ((λ i, attrs (resno <$> PS i) (e i)) <$> (s_right <$> steps))) →
  evalQ (set_targetList (targetList top ++ tes) set_top) = evalQ o ≫= λ t, (λ x, t ++ x) <$>
    foldl (λ acc p, attach p.1.1 p.2.2 (matching p.1.2 t p.2.1) acc) [[]] (zip ps (operand_of <$> ss)).
Proof.
  intros Hj Hv. change (targetList top) with (targetList set_top).
  rewrite (eval_top op_sem cat db set_top steps set_chain _ PS Hbase tes set_test set_steps_ok Hj Hv).
  cbn [rtable set_top with_fromlist set_rtable]. rewrite rt_fetch_map, (rt_base 1 r1) by done.
  cbn [fmap option_fmap option_map default]. change (id (evalR r1)) with (evalR r1). rewrite (sub_rte_eval _ _ _ _ _ H1).
  apply bind_ext_elem. intros t Ht. rewrite Forall_forall in Ho_rows. specialize (Ho_rows t Ht).
  rewrite (extend_ok t Ho_rows). apply list_fmap_ext. intros k x _. by rewrite <- Ho_rows, attrs_all.
Qed.

Lemma set_PS : PS <$> (s_right <$> steps) = pls.
Proof.
  assert (length pls = n) as Hn.
  { rewrite <- (Forall3_length_lr _ _ _ _ Hss), (Forall3_length_lm _ _ _ _ Hss). symmetry. by eapply Forall2_length. }
  rewrite rights. apply list_eq. intros k. rewrite list_lookup_fmap. destruct (decide (k < n)%nat) as [Hk|Hk].
  - rewrite lookup_seqZ_lt by lia. cbn. replace (Z.to_nat (2 + Z.of_nat k - 2)) with k by lia.
    symmetry. apply list_lookup_lookup_total_lt. lia.
  - rewrite lookup_seqZ_ge by lia. cbn. by rewrite lookup_ge_None_2 by lia.
Qed.

Lemma set_PS_ok i :
  i ∈ s_right <$> steps →
  Forall is_col (PS i) ∧ Forall (λ te, (1 ≤ resno te ≤ Z.of_nat (width cat set_top i))%Z) (PS i).
Proof.
  intros (r & s & s' & pl & Hr & Hsub & _ & Hrw & -> & How)%input_at. split; [exact (qr_cols _ _ _ _ _ _ Hrw)|].
  apply Forall_forall. intros te Hte. unfold width. cbn [rtable set_top with_fromlist set_rtable]. rewrite Hr.
  rewrite (sub_rte_width cat r s' Hsub (qr_shown _ _ _ _ _ _ Hrw)), (rw_length _ _ _ _ _ _ Hrw).
  assert (resno te ∈ resno <$> pl) as Hin by by apply list_elem_of_fmap_2.
  rewrite (qr_resno _ _ _ _ _ _ Hrw) in Hin. apply elem_of_seqZ in Hin. lia.
Qed.

Lemma chain_node0 pre : begins steps pre → node0 (chain pre) = true.
Proof.
  induction pre as [|s pre IH] using rev_ind; [done|]. intros [Hb Hs]%begins_snoc. rewrite chain_snoc. cbn.
  rewrite (IH Hb). pose proof (at_step_lookup _ _ Hs) as [Hk _]. destruct (step_join _ _ Hk) as (p & _ & HJ).
  destruct (ja_qual _ _ _ _ _ _ _ _ HJ) as (c & -> & Hc & _). done.
Qed.

Lemma set_level0 tes :
  level0 o = true → Forall is_col tes → havingQual top = None → level0 (set_targetList (targetList top ++ tes) set_top) = true.
Proof.
  intros Hl0 Ht Hh. destruct Hplain as (_ & _ & Hoff & Hcnt). apply level0_intro; cbn; rewrite ?Hquals, ?Hh, ?Hoff, ?Hcnt; try done.
  - constructor; [|constructor]. apply chain_node0, begins_all.
  - apply Forall_app. split.
    + apply Forall_forall. intros te (k & Hk)%list_elem_of_lookup.
      destruct (Forall2_lookup_l _ _ _ _ _ Hbase Hk) as (m & _ & v & -> & _ & _ & Hl). cbn. by apply bool_decide_eq_true.
    + eapply Forall_impl; [exact Ht|]. intros te (v & -> & Hl & _). cbn. by apply bool_decide_eq_true.
  - destruct (ch_rtable _ _ _ _ _ _ _ Hch) as (js & E & _ & Hjs). cbn in E. rewrite E. constructor; [by eapply sub_rte_level0|].
    apply Forall_app. split; [|done]. apply Forall_lookup. intros k r Hr.
    destruct (Forall2_lookup_l _ _ _ _ _ Hrs Hr) as (s' & Hs' & Hsub).
    destruct (Forall3_lookup_m _ _ _ _ _ _ Hss Hs') as (s & pl & _ & _ & Hrw).
    eapply sub_rte_level0; [exact Hsub|exact (qr_level0 _ _ _ _ _ _ Hrw)].
Qed.

Lemma set_prov_width : length (concat pls) = sum_list (prov_width cat <$> ss).
Proof.
  pose proof Hss as HF. clear -HF. induction HF as [|s s' pl ss ss' pls H _ IH]; [done|]. cbn. rewrite length_app, IH. f_equal.
  pose proof (f_equal length (qr_resno _ _ _ _ _ _ H)) as E. rewrite length_fmap, length_seqZ in E. unfold id. lia.
Qed.

Lemma set_top_ok st st0 :
  pStack st = reverse pls ++ st0 →
  ∃ tes, addProvenanceAttrsForRange set_top 2 (2 + Z.of_nat n) [] st =
      Ok ((set_targetList (targetList top ++ tes) set_top, tes),
          mkRw st0 (baseRelStackActive st) (baseRelStack st) (refs st) (gens st)) ∧
    fresh_entries (Z.of_nat (length (targetList top)) + 1) tes ∧ length tes = sum_list (prov_width cat <$> ss) ∧
    ∀ e, settled op_sem id (λ t _ _, t) (alias_in (rtable set_top)) e (chain steps) →
      (λ te, eval_expr op_sem (vals_of id e) (expr te)) <$> tes =
        concat ((λ i, attrs (resno <$> PS i) (e i)) <$> (s_right <$> steps)).
Proof.
  intros Hst. destruct (add_prov_ok op_sem cat set_top steps set_chain PS set_PS_ok st st0) as (tes & E & Hfr & Hl & Hv).
  { by rewrite set_PS. }
  exists tes. rewrite set_PS, set_prov_width in Hl. unfold addProvenanceAttrsForRange.
  replace (2 + Z.of_nat n - 2)%Z with (Z.of_nat n) by lia. by rewrite <- rights.
Qed.

End top.

(** ** The inputs *)

(** A measure of how much there is to rewrite: the nesting of queries and the number of set operations. *)
Fixpoint set_ops (t : SetOpNode) : nat :=
  match t with SetOpRef _ => 0 | SetOperationStmt _ _ l r => S (set_ops l + set_ops r) end.

Fixpoint need (q : Query) : nat :=
  3 + match setOperations q with Some t => set_ops t | None => 0 end + max_list (map rte_need (rtable q))
with rte_need (r : RangeTblEntry) : nat := match subquery r with Some q => need q | None => 0 end.

Lemma max_list_in (x : nat) l : x ∈ l → (x ≤ max_list l)%nat.
Proof. apply max_list_elem_of_le. Qed.

Lemma need_unfold q :
  need q = (3 + match setOperations q with Some t => set_ops t | None => 0 end + max_list (map rte_need (rtable q)))%nat.
Proof. by destruct q. Qed.

Lemma need_sub q r s : r ∈ rtable q → subquery r = Some s → (need s + 3 ≤ need q)%nat.
Proof.
  intros Hr Hs. rewrite (need_unfold q). assert (need s ≤ max_list (map rte_need (rtable q)))%nat; [|lia].
  apply max_list_in. apply (list_elem_of_fmap rte_need). exists r. split; [|done]. destruct r. cbn in *. by subst.
Qed.

Lemma max_list_le l (m : nat) : (∀ x, x ∈ l → x ≤ m)%nat → (max_list l ≤ m)%nat.
Proof.
  induction l as [|x l IH]; intros H; cbn; [lia|]. apply Nat.max_lub; [apply H; left|].
  apply IH. intros y Hy. apply H. by right.
Qed.

Section inputs.
Context (op_sem : operators) (cat : syscache) (db : Z → list tuple).
Abbreviation evalQ := (evalQuery op_sem cat db).
Abbreviation provQ := (evalProv op_sem cat db).

Lemma rewrite_inputs_ok rec rtes ss st :
  Forall2 sub_rte rtes ss → Forall (rewrites cat op_sem db rec) ss →
  ∃ rtes' ss' pls st', rewrite_inputs rec rtes st = Ok (rtes', st') ∧ Forall2 sub_rte rtes' ss' ∧
    Forall3 (query_rw cat op_sem db) ss ss' pls ∧ pStack st' = reverse pls ++ pStack st.
Proof.
  intros H2 Hr. revert st. induction H2 as [|r s rtes ss [[Hk Hpb] Hs] _ IH]; intros st; cbn [rewrite_inputs].
  { exists [], [], [], st. split_and!; [done|constructor|constructor|done]. }
  inversion Hr as [|? ? Hrs Hrss]; subst. rewrite Hs, bind_deref.
  destruct (Hrs st) as (s' & st1 & pl & E & P & Hrw). hrun E.
  destruct (IH Hrss st1) as (rtes' & ss' & pls & st' & E' & H2' & H3 & P'). hrun E'.
  eexists _, (s' :: ss'), (pl :: pls), st'. split; [done|]. split_and!; [by constructor|by constructor|].
  rewrite P', P, reverse_cons, <- (assoc_L (++)). done.
Qed.

(** What an operation adds to the witnesses. *)
Lemma witnesses_width (t : tuple) (l : list ((bool * match_kind) * operand)) acc a :
  Forall (λ p, Forall (λ u : row, length u.2 = p.2.2) p.2.1) l → Forall (λ u, length u = a) acc →
  Forall (λ u, length u = a + sum_list ((λ p, p.2.2) <$> l))%nat
    (foldl (λ acc p, attach p.1.1 p.2.2 (matching p.1.2 t p.2.1) acc) acc l).
Proof.
  intros Hl. revert acc a. induction Hl as [|p l Hp _ IH]; intros acc a Hacc; cbn [foldl].
  { cbn. by rewrite Nat.add_0_r. }
  cbn. rewrite Nat.add_assoc. unfold id at 1. apply IH. unfold attach. apply Forall_forall.
  intros u (x & (y & -> & Hy)%list_elem_of_fmap & Hx)%list_elem_of_bind. rewrite Forall_forall in Hacc.
  rewrite length_app, (Hacc x Hx). f_equal.
  assert (y ∈ matching p.1.2 t p.2.1 ∨ y = nulls p.2.2) as [Hm| ->]; [| |apply length_replicate].
  - destruct (matching _ _ _) as [|z zs]; [|by left]. destruct p.1.1; [|by apply elem_of_nil in Hy].
    right. by apply list_elem_of_singleton in Hy.
  - unfold matching in Hm. apply list_elem_of_fmap in Hm as (u & -> & Hu). rewrite Forall_forall in Hp. apply Hp.
    destruct p.1.2; [by apply list_elem_of_filter in Hu as [_ ?]..|done].
Qed.

Context (q : Query) (t : SetOpNode) (Hq : set_query cat q t) (Hq0 : level0 q = true).

Lemma set_state_level0 R : (∀ r, r ∈ entries R → rte0 r = true) → level0 (set_state q R) = true.
Proof.
  intros H. pose proof Hq0 as H0. apply level0_intro; cbn; [..|by apply Forall_forall];
    destruct q; cbn in H0 |- *; checks; done.
Qed.

Lemma input_rte0 r : r ∈ rtable q → rte0 r = true.
Proof.
  intros Hr. pose proof Hq0 as H0. destruct q. cbn in H0, Hr. checks.
  match goal with H : Forall (λ _, rte0 _ = true) _ |- _ => rewrite Forall_forall in H; by apply H end.
Qed.

Fixpoint ops (R : rtree) : nat := match R with Leaf _ => 0 | Op _ _ l r => S (ops l + ops r) end.

(** The entries after restructuring are inputs, or queries for the operations of another kind. *)
Lemma collapse_cases op R r :
  r ∈ entries (collapse q op R) →
  r ∈ entries R ∨ ∃ op' all' l' r', let R' := Op op' all' l' r' in
    r = subquery_rte (sub_query q R') "newSub" ∧ (∀ x, x ∈ entries R' → x ∈ entries R) ∧ (ops R' ≤ ops R)%nat ∧
    ∀ k, one_operation op (shape R k) = false.
Proof.
  induction R as [x|op' all l IHl x IHx]; cbn [collapse]; [by left|]. case_decide as Hd; cbn [entries ops].
  - rewrite !elem_of_app. intros [[Hr|(o1 & a1 & l1 & r1 & E & Hin & Hle & Hno)]%IHl|[Hr|(o1 & a1 & l1 & r1 & E & Hin & Hle & Hno)]%IHx];
      auto; right; exists o1, a1, l1, r1; (split; [done|]); (split; [intros y Hy; apply elem_of_app; auto|]);
      (split; [cbn [ops] in *; lia|]); intros k; cbn; rewrite Hno, ?andb_false_r; done.
  - intros ->%list_elem_of_singleton. right. exists op', all, l, x. split_and!; try done.
    intros k. cbn. by rewrite bool_decide_eq_false_2.
Qed.

(** A query with another tree is well-formed if the entries of the tree are. *)
Lemma state_ok op all l r :
  let R := Op op all l r in
  (∀ x, x ∈ entries R → set_input_ok cat q x = true ∧ rte_ok cat x = true) →
  no_limit q ∨ (∀ k, one_operation op (shape l k) = true ∧ one_operation op (shape r k) = true) →
  query_ok cat (set_state q R) = true.
Proof.
  intros R Hin Hlim.
  assert (set_node cat (set_state q R) = true) as Hn.
  { pose proof Hq as [H1 H2 H3 H4 H5 H6 H7 H8 H9 H10 H11 H12 H13 H14 H15]. unfold set_node, numbered.
    change (grouped (set_state q R)) with (grouped q). change (limit_ok (set_state q R)) with (limit_ok q).
    cbn [hasSubLinks targetList distinctClause fromlist quals rtable setOperations limitOffset limitCount set_state with_set].
    rewrite H1, H4, H5, H6, H7, H8. cbn [negb is_nil is_none andb orb].
    rewrite (bool_decide_eq_true_2 (_ = _) H9). rewrite (Forall_forallb _ _ H10).
    rewrite (Forall_forallb (set_input_ok cat (set_state q R)) (entries R)) by (apply Forall_forall; intros x Hx; by apply Hin).
    assert (is_nil (targetList q) = false) as -> by (destruct (targetList q); done).
    cbn [shape R]. change (SetOperationStmt op all (shape l 1) (shape r (1 + size l))) with (shape R 1).
    rewrite bool_decide_eq_true_2 by apply set_leaves_shape.
    destruct Hlim as [[-> ->]|Hone]; [done|]. destruct (Hone 1%Z) as [-> _], (Hone (1 + size l)%Z) as [_ ->]. by rewrite orb_true_r. }
  change (query_ok cat (set_state q R)) with
    ((spj_node cat (set_state q R) || agg_node cat (set_state q R) || set_node cat (set_state q R)) && forallb (rte_ok cat) (entries R)).
  rewrite Hn, orb_true_r. apply Forall_forallb, Forall_forall. intros x Hx. by apply Hin.
Qed.

Lemma input_checks x : x ∈ rtable q → set_input_ok cat q x = true ∧ rte_ok cat x = true.
Proof.
  intros Hx. pose proof (set_inputs _ _ _ Hq) as H1. pose proof (set_rtes _ _ _ Hq) as H2.
  rewrite Forall_forall in H1, H2. auto.
Qed.

Lemma sub_set_ok op all l r :
  let R := Op op all l r in (∀ x, x ∈ entries R → x ∈ rtable q) → no_limit q → query_ok cat (set_state q R) = true.
Proof. intros R Hin Hl. apply state_ok; [|by left]. intros x Hx. by apply input_checks, Hin. Qed.

(** ** The rewriter *)

Context (op : SetOperation) (all : bool) (L R : rtree).
Abbreviation T := (Op op all L R).
Context (HT : entries T = rtable q) (Ht : shape T 1 = t).

Lemma set_ops_shape X k : set_ops (shape X k) = ops X.
Proof. revert k. induction X as [x|o a l IHl r IHr]; intros k; cbn; [done|]. by rewrite IHl, IHr. Qed.

Lemma need_state X : (∀ x, x ∈ entries X → x ∈ rtable q) → (ops X < ops T)%nat → (need (set_state q X) < need q)%nat.
Proof.
  intros Hin Hops. rewrite !need_unfold. cbn [setOperations rtable set_state with_set].
  rewrite (set_tree _ _ _ Hq), <- Ht, !set_ops_shape.
  assert (max_list (map rte_need (entries X)) ≤ max_list (map rte_need (rtable q)))%nat; [|lia].
  apply max_list_le. intros m (x & -> & Hx)%(list_elem_of_fmap rte_need). apply max_list_in.
  apply (list_elem_of_fmap_2 rte_need), Hin, Hx.
Qed.

(** An input of the operation: a smaller query with the same columns. *)
Definition good_input (r : RangeTblEntry) (s : Query) : Prop :=
  sub_rte r s ∧ query_ok cat s = true ∧ (need s < need q)%nat ∧ out_width s = length (targetList q).

Lemma leaf_good r : r ∈ rtable q → ∃ s, good_input r s.
Proof.
  intros Hr. pose proof (set_inputs _ _ _ Hq) as Hin. pose proof (set_rtes _ _ _ Hq) as Hok.
  rewrite Forall_forall in Hin, Hok. specialize (Hin r Hr). specialize (Hok r Hr). unfold set_input_ok in Hin. checks.
  destruct (rte_ok_spec cat r Hok) as (Hb & _ & _ & _ & [(Hk & _)|[(Hk & s & Hs & Hsok)|Hk]]); [congruence| |congruence].
  exists s. split_and!; try done.
  - pose proof (need_sub q r s Hr Hs). lia.
  - match goal with H : rte_width cat r = _ |- _ => rewrite <- H end. unfold rte_width. by rewrite Hk, Hs.
Qed.

Lemma subtree_entries X : (∀ x, x ∈ entries X → x ∈ rtable q) → ∀ x, x ∈ entries X → rte0 x = true.
Proof. intros H x Hx. by apply input_rte0, H. Qed.

Lemma collapse_good X r :
  X = L ∨ X = R → r ∈ entries (collapse q op X) → ∃ s, good_input r s.
Proof.
  intros HX. assert ((∀ x, x ∈ entries X → x ∈ rtable q) ∧ (ops X < ops T)%nat) as [Hin Hops].
  { rewrite <- HT. cbn. split; [|destruct HX as [-> | ->]; lia].
    intros x Hx. apply elem_of_app. destruct HX as [-> | ->]; auto. }
  intros [Hr|(o1 & a1 & l1 & r1 & -> & Hin1 & Hle & Hno)]%collapse_cases; [by apply leaf_good, Hin|].
  exists (set_state q (Op o1 a1 l1 r1)). rewrite sub_query_id.
  - assert (limitOffset q = None ∧ limitCount q = None) as [Ho Hc].
    { destruct (set_limited _ _ _ Hq) as [?|(o2 & a2 & l2 & r2 & E & Hl & Hr)]; [done|]. rewrite <- Ht in E.
      cbn [shape] in E. injection E as <- <- <- <-. destruct HX as [-> | ->]; rewrite Hno in *; done. }
    split_and!; try done.
    + apply sub_set_ok; [auto|done].
    + apply need_state; [auto|lia].
    + apply (out_width_all q). eapply Forall_impl; [exact (set_shown _ _ _ Hq)|]. by intros te [].
  - apply set_state_level0.
  - apply subtree_entries. auto.
Qed.

Abbreviation inputs := (entries (restructured q T)).

Lemma good_inputs : ∃ ss, Forall2 good_input inputs ss.
Proof.
  assert (Forall (λ r, ∃ s, good_input r s) inputs) as H.
  { apply Forall_app. split; apply Forall_forall; intros r Hr; [apply (collapse_good L)|apply (collapse_good R)]; auto. }
  induction H as [|r rs [s Hs] _ (ss & IH)]; [by exists []|]. exists (s :: ss). by constructor.
Qed.

Lemma good_operands ss : Forall2 good_input inputs ss → operand_of op_sem cat db <$> ss = input op_sem cat db <$> inputs.
Proof.
  induction 1 as [|r s rs ss [[[Hk _] Hs] _] _ IH]; csimpl; [done|]. rewrite IH. f_equal. unfold input, operand_of.
  destruct r. cbn in *. by subst.
Qed.

Lemma subtree_limits X : X = L ∨ X = R → no_limit q ∨ ∃ k, one_operation op (shape X k) = true.
Proof.
  intros HX. destruct (set_limited _ _ _ Hq) as [?|(o2 & a2 & l2 & r2 & E & Hl & Hr)]; [by left|right].
  rewrite <- Ht in E. cbn [shape] in E. injection E as <- <- <- <-. destruct HX as [-> | ->]; by eexists.
Qed.

Lemma subtree_in X : X = L ∨ X = R → ∀ x, x ∈ entries X → rte0 x = true.
Proof.
  intros HX. apply subtree_entries. rewrite <- HT. cbn. intros x Hx. apply elem_of_app. destruct HX as [-> | ->]; auto.
Qed.

Lemma inputs_operands : input op_sem cat db <$> inputs = roperands op_sem cat db op L ++ roperands op_sem cat db op R.
Proof.
  cbn [restructured entries]. rewrite fmap_app. f_equal; apply collapse_operands; try apply set_state_level0;
    (apply subtree_limits || apply subtree_in); auto.
Qed.

Lemma inputs_widths ss : Forall2 good_input inputs ss → sum_list (prov_width cat <$> ss) = prov_width cat q.
Proof.
  intros H. transitivity (sum_list (snd <$> (operand_of op_sem cat db <$> ss))); [by rewrite <- list_fmap_compose|].
  rewrite (good_operands ss H), inputs_operands, fmap_app, sum_list_app, !operands_widths, <- widths_app.
  change (entries L ++ entries R) with (entries T). by rewrite HT, prov_width_unfold.
Qed.

Abbreviation witnesses ss v := (foldl (λ acc p, attach p.1.1 p.2.2 (matching p.1.2 v p.2.1) acc) [[]]
  (zip (set_steps op all (length inputs)) (operand_of op_sem cat db <$> ss))).

Lemma state_self : set_state q T = q.
Proof. unfold set_state. rewrite HT, Ht. pose proof (set_tree _ _ _ Hq) as E. destruct q. cbn in *. by rewrite E. Qed.

Lemma evalQ_tree : evalQ q = limited op_sem q (reval op_sem cat db T).
Proof.
  rewrite (evalQuery_set _ _ _ _ _ Hq), <- Ht, <- HT. f_equal. apply eval_shape, at_pos_self.
Qed.

(** The rows of the query with the witnesses from its inputs. *)
Lemma set_prov ss : Forall2 good_input inputs ss → provQ q = evalQ q ≫= λ v, pair v <$> witnesses ss v.
Proof.
  intros H. rewrite <- state_self at 1. rewrite evalProv_state, evalQ_tree. cbn [set_rows]. apply bind_ext_elem. intros v _. f_equal.
  unfold set_witnesses. rewrite <- inputs_operands, (good_operands ss H), length_fmap. done.
Qed.

Lemma set_row_length v : v ∈ evalQ q → length v = length (targetList q).
Proof.
  rewrite (evalQuery_set _ _ _ _ _ Hq). intros Hv%limited_in. by eapply set_rows_width.
Qed.

Lemma set_out_width : out_width q = length (targetList q).
Proof. apply out_width_all. eapply Forall_impl; [exact (set_shown _ _ _ Hq)|]. by intros te []. Qed.

Lemma set_widths ss ss' pls :
  Forall2 good_input inputs ss → Forall3 (query_rw cat op_sem db) ss ss' pls →
  length (set_steps op all (length inputs)) = length inputs →
  Forall (λ p, length p.1 = out_width q ∧ length p.2 = prov_width cat q) (provQ q).
Proof.
  intros H H3 Hst. rewrite (set_prov ss H). apply Forall_forall.
  intros p (v & (u & -> & Hu)%list_elem_of_fmap & Hv)%list_elem_of_bind. cbn [fst snd].
  split; [rewrite set_out_width; by apply set_row_length|].
  set (zs := zip (set_steps op all (length inputs)) (operand_of op_sem cat db <$> ss)) in *.
  assert (Forall (λ p, Forall (λ u : row, length u.2 = p.2.2) p.2.1) zs) as Hz.
  { apply Forall_forall. intros [p o] Ho%elem_of_zip_r. apply list_elem_of_fmap in Ho as (s & -> & Hs). cbn [snd fst operand_of].
    apply list_elem_of_lookup in Hs as [k Hk]. destruct (Forall3_lookup_l _ _ _ _ _ _ H3 Hk) as (s' & pl & _ & _ & Hrw).
    eapply Forall_impl; [exact (qr_widths _ _ _ _ _ _ Hrw)|]. by intros x []. }
  pose proof (witnesses_width v zs [[]] 0 Hz ltac:(by constructor)) as HF. rewrite Forall_forall in HF. rewrite (HF u Hu).
  rewrite <- (inputs_widths ss H). cbn [Nat.add]. f_equal.
  transitivity (snd <$> (snd <$> zs)); [by rewrite <- list_fmap_compose|].
  unfold zs. rewrite snd_zip by (rewrite length_fmap, Hst, <- (Forall2_length _ _ _ H); done).
  by rewrite <- list_fmap_compose.
Qed.

Lemma except_input X : ∃ r, entries (collapse q SETOP_EXCEPT X) = [r].
Proof. destruct X as [r|o a l r]; cbn [collapse]; [by eexists|]. rewrite decide_False by naive_solver. by eexists. Qed.

Lemma entries_nonempty X : entries X ≠ [].
Proof. induction X as [r|o a l IHl r IHr]; cbn; [done|]. by intros [? ?]%app_nil. Qed.

Lemma inputs_count : (1 ≤ length inputs)%nat ∧ (op = SETOP_EXCEPT → length inputs = 2%nat).
Proof.
  split.
  - destruct inputs eqn:E; [by apply entries_nonempty in E|cbn; lia].
  - intros ->. cbn [restructured entries]. destruct (except_input L) as [x ->], (except_input R) as [y ->]. done.
Qed.

Lemma steps_count : length (set_steps op all (length inputs)) = length inputs.
Proof. destruct inputs_count as [_ H]. destruct op; cbn [set_steps]; rewrite ?length_replicate; try done. by rewrite H. Qed.

(** The names of the inputs are not those of the entries of a view. *)
Lemma no_dummy st : removeDummyRewriterRTEs q st = Ok (q, st).
Proof.
  unfold removeDummyRewriterRTEs. pose proof (set_inputs _ _ _ Hq) as Hin.
  destruct (rtable q) as [|r0 rt] eqn:E; [by apply entries_nonempty in HT|].
  cbn [head]. rewrite bind_deref. inversion Hin as [|? ? H0 _]; subst. unfold set_input_ok in H0. checks.
  destruct (alias r0) as [al|]; [|done]. checks. rewrite bind_deref, decide_False by done. done.
Qed.

(** The original query can be compared with its inputs. *)
Abbreviation types tl := ((λ te, exprType (expr te)) <$> tl).

Lemma set_shown_named : Forall shown_named (targetList q).
Proof. eapply Forall_impl; [exact (set_targets _ _ _ Hq)|]. intros te H. unfold set_te_ok in H. by checks. Qed.

Lemma original_leading r : sub_rte r q → leading cat (length (targetList q)) r (types (targetList q)).
Proof.
  intros Hr. split; rewrite ?length_fmap; [|done|].
  - apply sub_entry_ok; [done|apply set_shown_named|apply (set_numbered _ _ _ Hq)].
  - rewrite take_ge by (by rewrite length_fmap). apply Forall_fmap.
    eapply Forall_impl; [exact (set_targets _ _ _ Hq)|]. intros te H. unfold set_te_ok in H. by checks.
Qed.

Lemma rewritten_entries ss ss' pls rs :
  Forall2 good_input inputs ss → Forall3 (query_rw cat op_sem db) ss ss' pls → Forall2 sub_rte rs ss' →
  ∀ (k : nat) p, set_steps op all (length inputs) !! k = Some p →
  ∃ r tys, rs !! k = Some r ∧ entry_ok cat r tys ∧ (length (targetList q) ≤ length tys)%nat.
Proof.
  intros Hg H3 H2 k p Hk%lookup_lt_Some. rewrite steps_count, (Forall2_length _ _ _ Hg) in Hk.
  destruct (lookup_lt_is_Some_2 ss k Hk) as [s Hs]. destruct (Forall3_lookup_l _ _ _ _ _ _ H3 Hs) as (s' & pl & Hs' & _ & Hrw).
  destruct (Forall2_lookup_r _ _ _ _ _ H2 Hs') as (r & Hr & Hsub). destruct (Forall2_lookup_r _ _ _ _ _ Hg Hs) as (x & _ & _ & _ & _ & How).
  exists r, (types (targetList s')). pose proof (rw_length _ _ _ _ _ _ Hrw) as Hl.
  split; [done|]. rewrite length_fmap. split; [|lia].
  apply sub_entry_ok; [done|exact (qr_shown _ _ _ _ _ _ Hrw)|]. by rewrite (qr_targets _ _ _ _ _ _ Hrw), Hl.
Qed.

Lemma set_base : Forall2 (λ te n, ∃ v, expr te = EVar v ∧ varno v = 1%Z ∧ varattno v = n ∧ varlevelsup v = 0%Z)
  (targetList q) (cols_from 1 (length (targetList q))).
Proof.
  rewrite <- (set_numbered _ _ _ Hq). apply Forall2_fmap_r, Forall_Forall2_diag.
  eapply Forall_impl; [exact (set_targets _ _ _ Hq)|]. intros te H. unfold set_te_ok in H. checks.
  destruct (expr te) as [v| | | | | | | | | |]; try done. checks. exists v. by destr_all.
Qed.

Abbreviation top_of rt fl := (mkQuery CMD_SELECT false false rt fl None (targetList q) [] None [] [] None None None true false).

Lemma map_first f rt r1 rs fl tl :
  map_subquery f 1 (set_targetList tl (with_fromlist fl (set_rtable (r1 :: rs) (top_of rt [])))) =
    set_targetList tl (with_fromlist fl (set_rtable (set_subquery (f <$> subquery r1) r1 :: rs) (top_of rt []))).
Proof. done. Qed.

(** The joins and the provenance attributes of the new top query. *)
Lemma join_inputs_ok ss ss' pls r1 rs st st0 :
  Forall2 good_input inputs ss → Forall3 (query_rw cat op_sem db) ss ss' pls →
  sub_rte r1 q → Forall2 sub_rte rs ss' → pStack st = reverse pls ++ st0 →
  ∃ q' st' pl, (newTop ← createJoinsForSetOp cat false (top_of (r1 :: rs) []) op;
      '(newTop, pList) ← addProvenanceAttrsForRange newTop 2 (2 + Z.of_nat (length rs)) [];
      push_pset pList;; ret (map_subquery (increaseSublevelsUp (-1)) 1 newTop)) st = Ok (q', st') ∧
    pStack st' = pl :: st0 ∧ query_rw cat op_sem db q q' pl.
Proof.
  intros Hg H3 Hr1 H2 Hst. destruct inputs_count as [Hn1 Hn2].
  assert (length rs = length inputs) as Hn.
  { rewrite (Forall2_length _ _ _ H2), <- (Forall3_length_lm _ _ _ _ H3), (Forall2_length _ _ _ Hg). done. }
  set (ps := set_steps op all (length inputs)).
  destruct (createJoinsForSetOp_ok op_sem cat (length (targetList q)) (r1 :: rs) ps) with
    (top := top_of (r1 :: rs) []) (r1 := r1) (tys1 := types (targetList q)) (op := op) (all := all)
    (o := q) (l := shape L 1) (r := shape R (1 + size L)) (st := st) as (rt & steps & E & Hch & Hlen);
    try done; try (by apply original_leading); try (by apply Hr1); try (cbn; lia).
  { intros k p Hk. by apply (rewritten_entries ss ss' pls rs Hg H3 H2 k p). }
  { intros E. pose proof (set_nonempty _ _ _ Hq). by destruct (targetList q). }
  { rewrite (set_tree _ _ _ Hq), <- Ht. done. }
  { unfold ps. f_equal. cbn [length]. lia. }
  { intros Hop. cbn [length]. rewrite Hn, (Hn2 Hop). done. }
  hrun E. assert (length ps = length rs) as Hps by (unfold ps; rewrite steps_count; done).
  rewrite Hps in Hlen.
  assert (Forall (λ s, out_width s = length (targetList q)) ss) as Hsw.
  { apply Forall_lookup. intros k s Hk. by destruct (Forall2_lookup_r _ _ _ _ _ Hg Hk) as (x & _ & _ & _ & _ & ?). }
  assert (Forall (λ t, length t = length (targetList q)) (evalQ q)) as Hrows
    by (apply Forall_forall; apply set_row_length).
  destruct (set_top_ok op_sem cat db q ss ss' pls set_shown_named (set_numbered _ _ _ Hq) H3 Hsw r1 rs Hr1 H2
    (top_of (r1 :: rs) []) rt ps steps Hch) with (st := st) (st0 := st0) as (tes & E2 & Hfr & Htl & Hv); try done; try congruence.
  unfold set_top in E2.
  hrun E2. unfold push_pset. rewrite bind_modify. eexists _, _, tes. split; [reflexivity|]. split; [done|].
  destruct (ch_rtable _ _ _ _ _ _ _ Hch) as (js & Ert & _). cbn [rtable set_rtable app] in Ert. subst rt.
  rewrite map_first, (increase_sub r1 q Hr1 Hq0). cbn [targetList] in *.
  rewrite (inputs_widths ss Hg) in Htl. destruct Hfr as (Hres & Hcol & Hj). split.
  - done.
  - by rewrite Hres, Htl, set_out_width.
  - cbn. rewrite fmap_app, Hres, Htl, (set_numbered _ _ _ Hq), set_out_width, Nat2Z.inj_add, seqZ_app by lia. f_equal. f_equal. lia.
  - cbn. apply Forall_app. split; [apply set_shown_named|]. apply Forall_forall. intros te Hte. rewrite Forall_forall in Hj, Hcol.
    split; [by apply Hj|]. by destruct (Hcol te Hte) as (_ & _ & _ & ?).
  - apply (set_level0 op_sem cat db q ss ss' pls H3 r1 rs Hr1 H2 (top_of (r1 :: rs) []) _ ps steps Hch); try done. apply set_base.
  - apply (set_widths ss ss' pls); try done. apply steps_count.
  - rewrite (set_prov ss Hg), fmap_of_bind. etrans.
    + apply (set_eval op_sem cat db q ss ss' pls set_shown_named (set_numbered _ _ _ Hq) Hrows H3 Hsw r1 rs Hr1 H2
        (top_of (r1 :: rs) []) _ ps steps Hch); try done; [apply set_base|].
      apply Forall_app. split; [eapply Forall_impl; [apply set_shown_named|]; by intros te []|].
      eapply Forall_impl; [exact Hj|]. by intros te [].
    + apply bind_ext_elem. intros v _. by rewrite <- list_fmap_compose.
  - split_and!; [done..|]. apply Forall_app. split; [eapply Forall_impl; [apply set_shown_named|]|eapply Forall_impl; [exact Hj|]];
      by intros te [].
Qed.

Lemma rewriteSetQuery_ok rec :
  (∀ s, query_ok cat s = true → (need s < need q)%nat → rewrites cat op_sem db rec s) →
  rewrites cat op_sem db (rewriteSetQuery cat true false rec) q.
Proof.
  intros Hrec st. unfold rewriteSetQuery. hrun (no_dummy st).
  unfold set_op at 1. rewrite (set_tree _ _ _ Hq), <- Ht. cbn [shape]. rewrite bind_ret, bind_deref.
  change (SetOperationStmt op all (shape L 1) (shape R (1 + size L))) with (shape T 1).
  rewrite tree_height_shape.
  assert (replaceSetOperationSubTrees true false (S (height T)) q [] op st = Ok (set_state q (restructured q T), st)) as E0
    by (rewrite <- (restructure_ok q false op all L R st) by done; by rewrite state_self).
  hrun E0. unfold set_op. cbn [setOperations set_state with_set restructured shape]. rewrite bind_ret.
  cbn [andb]. assert (addSetSubqueryRTEs false (set_state q (restructured q T)) st = Ok (inputs, st)) as Ea by by destruct op.
  hrun Ea. cbn [targetList rtable set_state with_set].
  destruct good_inputs as [ss Hg].
  destruct (rewrite_inputs_ok rec inputs ss st) as (rs & ss' & pls & st1 & E1 & H2 & H3 & P1).
  { eapply Forall2_impl; [exact Hg|]. by intros r s []. }
  { apply Forall_forall. intros s [k Hk]%list_elem_of_lookup.
    destruct (Forall2_lookup_r _ _ _ _ _ Hg Hk) as (x & _ & _ & ? & ? & _). by apply Hrec. }
  unfold rewriteSetRTEs. cbn [rtable addSubqueryToRTWithParam set_rtable].
  erewrite bind_ok by (hrun E1; reflexivity). cbv zeta. cbn [rtable set_rtable].
  unfold correctSubQueryAlias. cbn [rtable set_rtable].
  destruct (correct_subs_ok (subquery_rte q "originalSet" :: rs) (q :: ss') st1) as (rs2 & E2 & HF); [by constructor|].
  erewrite bind_ok by (hrun E2; reflexivity).
  inversion HF as [|r1 ? rs' ? [Hr1 _] HF']; subst rs2.
  assert (Forall2 sub_rte rs' ss') as Hsub by (eapply Forall2_impl; [exact HF'|]; by intros r s []).
  replace (Z.of_nat (length (subquery_rte q "originalSet" :: rs)) - 1)%Z with (Z.of_nat (length rs'))
    by (rewrite (Forall2_length _ _ _ Hsub), <- (Forall2_length _ _ _ H2); cbn; lia).
  exact (join_inputs_ok ss ss' pls r1 rs' st1 (pStack st) Hg H3 Hr1 Hsub P1).
Qed.

(** ** Restructuring keeps the rows and the witnesses *)

Lemma collapse_one X k : one_operation op (shape (collapse q op X) k) = true.
Proof.
  revert k. induction X as [x|o a l IHl r IHr]; intros k; cbn [collapse]; [done|].
  case_decide as Hd; [|done]. cbn. by rewrite bool_decide_eq_true_2, IHl, IHr.
Qed.

Lemma one_operands X k :
  one_operation op (shape X k) = true → roperands op_sem cat db op X = input op_sem cat db <$> entries X.
Proof.
  revert k. induction X as [x|o a l IHl r IHr]; intros k; cbn; [done|]. intros H. checks. rewrite decide_True by done.
  destr_all. rewrite fmap_app, <- (IHl k), <- (IHr (k + size l)%Z); done.
Qed.

Lemma collapse_reval X : X = L ∨ X = R → reval op_sem cat db (collapse q op X) = reval op_sem cat db X.
Proof.
  intros HX. pose proof (subtree_limits X HX) as Hlim.
  assert (∀ x, x ∈ entries X → x ∈ rtable q) as Hin.
  { rewrite <- HT. cbn. intros x Hx. apply elem_of_app. destruct HX as [-> | ->]; auto. }
  clear HX. induction X as [x|o a l IHl r IHr]; [done|]. cbn [collapse]. case_decide as Hd.
  - cbn [reval]. rewrite IHl, IHr; try done.
    1,3: destruct Hlim as [?|[k Hk]]; [by left|right]; cbn in Hk; checks; by eexists.
    1,2: intros x Hx; apply Hin; cbn; apply elem_of_app; auto.
  - destruct Hlim as [Hno|[k Hk]]; [|cbn in Hk; checks; tauto].
    cbn [reval mk_sub]. change (evalRTE op_sem cat db (subquery_rte ?s "newSub")) with (evalQ s).
    rewrite sub_query_id by (apply set_state_level0 || by apply subtree_entries).
    pose proof (sub_set_ok o a l r Hin Hno) as Hok.
    rewrite (evalQuery_set _ _ _ _ _ (query_ok_set _ _ _ Hok eq_refl)), limited_none by apply Hno.
    apply (eval_shape op_sem cat db (Op o a l r)), at_pos_self.
Qed.

Lemma collapse_checks X x :
  X = L ∨ X = R → x ∈ entries (collapse q op X) → set_input_ok cat q x = true ∧ rte_ok cat x = true.
Proof.
  intros HX Hx. destruct (collapse_good X x HX Hx) as (s & [[Hk _] Hs] & Hok & _ & How).
  assert (∀ y, y ∈ entries X → y ∈ rtable q) as Hin.
  { rewrite <- HT. cbn. intros y Hy. apply elem_of_app. destruct HX as [-> | ->]; auto. }
  apply collapse_cases in Hx as [Hx|(o1 & a1 & l1 & r1 & -> & _)]; [by apply input_checks, Hin|].
  change (Some (sub_query q (Op o1 a1 l1 r1)) = Some s) in Hs. apply (inj Some) in Hs. rewrite Hs.
  split; [|exact Hok].
  unfold set_input_ok, rte_width. cbn. rewrite How. by rewrite !bool_decide_eq_true_2.
Qed.

Lemma restructured_ok :
  query_ok cat (set_state q (restructured q T)) = true ∧
  evalQ (set_state q (restructured q T)) = evalQ q ∧ provQ (set_state q (restructured q T)) = provQ q.
Proof.
  assert (query_ok cat (set_state q (restructured q T)) = true) as Hok.
  { apply state_ok; [|right; intros k; split; apply collapse_one].
    intros x [Hx|Hx]%elem_of_app; [apply (collapse_checks L)|apply (collapse_checks R)]; auto. }
  assert (reval op_sem cat db (restructured q T) = reval op_sem cat db T) as Hr.
  { cbn [restructured reval]. rewrite !collapse_reval; auto. }
  split; [done|]. split.
  - rewrite evalQ_tree, (evalQuery_set _ _ _ _ _ (query_ok_set _ _ _ Hok eq_refl)), <- Hr.
    change (limited op_sem (set_state q (restructured q T))) with (@limited op_sem tuple q). f_equal.
    apply (eval_shape op_sem cat db (restructured q T)), at_pos_self.
  - transitivity (provQ (set_state q T)); [|by rewrite state_self]. rewrite !evalProv_state. cbn [restructured set_rows].
    cbn [restructured] in Hr. rewrite Hr, !(one_operands _ 1) by apply collapse_one.
    pose proof inputs_operands as Ho. cbn [restructured entries] in Ho. rewrite fmap_app in Ho. by rewrite Ho.
Qed.

End inputs.
End SetFacts.
