(* ===== verification/LimitFacts.v ===== *)
(** * LIMIT is handled correctly

    The query [handleLimit] builds returns the rows of the original query, each with the witnesses of the rows of the
    query without LIMIT that have the same values. *)

From Stdlib Require Import ZArith Lia.
From stdpp Require Import base strings numbers list sets.
From S2P Require Import Prelude AttrName QueryTree SqlSemantics SqlFacts Queries ProvWitness Sublevels.
From S2P Require Import RewriteSPJ JoinBuild RewriteLimit RewriteFacts RewriteMain JoinChain Conditions AggrFacts SetJoins SetFacts.
Import QueryTree SqlSemantics SqlFacts Queries ProvWitness Sublevels RewriteSPJ JoinBuild RewriteLimit RewriteFacts.
Import RewriteMain JoinChain Conditions AggrFacts SetJoins SetFacts.

Module LimitFacts.

(** ** When a row can have several witnesses *)

Lemma existsb_negb {A} (p p' : A → bool) l :
  Forall (λ x, p x = negb (p' x)) l → existsb p l = negb (forallb p' l).
Proof. induction 1 as [|x l Hx _ IH]; [done|]. cbn. rewrite Hx, IH. by destruct (p' x). Qed.

(** The check of the code is right if there are no set operations. *)
Lemma dup_constructs cat q :
  query_ok cat q = true → no_setops q = true → checkForNTupleDupConstructs q = negb (single_witness q).
Proof.
  revert q. apply (Query_tree_ind
    (λ q, query_ok cat q = true → no_setops q = true → checkForNTupleDupConstructs q = negb (single_witness q))
    (λ r, rte_ok cat r = true → no_setops_rte r = true → dup_rte r = negb (single_witness_rte r))).
  - intros ct ha hs rt IH fl qs tl gc hv dc sc lo lc so pr sr Hs Hn.
    set (q := mkQuery ct ha hs rt fl qs tl gc hv dc sc lo lc so pr sr) in *.
    apply query_ok_spec in Hs as [Hrt Hs]. apply list_all_Forall in IH.
    assert (setOperations q = None ∧ Forall (λ r, no_setops_rte r = true) rt) as [Hso Hns] by (cbn in Hn; by checks).
    assert (hasSubLinks q = false ∧ grouped q = hasAggs q) as [Hsl Hg].
    { destruct Hs as [Hs|[Hs|[t Hs]]].
      - rewrite (spj_grouped _ _ Hs). split; [apply (spj_sublinks _ _ Hs)|]. pose proof (spj_grouped _ _ Hs) as Hg.
        unfold grouped in Hg. rewrite !orb_false_iff in Hg. symmetry. apply Hg.
      - rewrite (agg_grouped _ _ Hs). split; [apply (agg_sublinks _ _ Hs)|]. symmetry. apply (agg_aggs _ _ Hs).
      - by rewrite (set_tree _ _ _ Hs) in Hso. }
    assert (existsb dup_rte rt = negb (forallb single_witness_rte rt)) as E.
    { apply existsb_negb. change rt with (rtable q) in IH, Hns |- *. rewrite Forall_forall in IH, Hns, Hrt |- *. auto. }
    change (match dc with [] => (ha || hs) || existsb dup_rte rt | _ => true end =
      negb (is_nil dc && negb (grouped q) && is_none so && forallb single_witness_rte rt)).
    cbn in Hsl, Hso. rewrite E, Hg, Hsl, Hso. destruct dc; [|done]. cbn. by destruct ha, (forallb single_witness_rte rt).
  - intros k rel sub IH ft vt jt av al er pb pa Hr Hn.
    pose proof (rte_ok_spec cat _ Hr) as (_ & _ & _ & _ & [(Hk & _)|[(Hk & s & Hs & Hsp)|Hk]]);
      cbn [rtekind subquery] in *; subst; [done| |done]. apply option_all_Some in IH. by apply IH.
Qed.

Lemma single_no_setops q : single_witness q = true → no_setops q = true.
Proof.
  revert q. apply (Query_tree_ind (λ q, single_witness q = true → no_setops q = true)
    (λ r, single_witness_rte r = true → no_setops_rte r = true)).
  - intros ct ha hs rt IH fl qs tl gc hv dc sc lo lc so pr sr H. cbn in H |- *. rewrite !andb_true_iff in H.
    destruct H as [[_ ->] Hrt]. by apply (forallb_mono single_witness_rte).
  - intros k rel sub IH ft vt jt av al er pb pa H. destruct k; try done. destruct sub as [q|]; [|done].
    apply option_all_Some in IH. by apply IH.
Qed.

Lemma checkLimit_spec cat q :
  query_ok cat q = true → spj_query cat q → checkLimit q = limit_joins q.
Proof.
  intros Hok Hq. pose proof (spj_limit _ _ Hq) as H. unfold spj_limit_ok in H. unfold checkLimit, limit_joins.
  destruct (has_limit q) eqn:Hl.
  - assert (no_setops q = true) as Hn.
    { checks. match goal with H : _ || _ = true |- _ => apply orb_true_iff in H as [H|H] end; checks; [|done].
      by apply single_no_setops. }
    cbn [andb]. rewrite <- (dup_constructs cat q Hok Hn). unfold has_limit in Hl.
    by destruct (limitCount q), (limitOffset q).
  - apply has_limit_none in Hl as [-> ->]. done.
Qed.

Lemma without_limit_ok cat q : spj_query cat q → spj_query cat (without_limit q).
Proof.
  intros Hq. pose proof Hq as [A1 A2 A3 _ A5 A6 A7 A8]. split; try done.
  - unfold spj_limit_ok, limit_ok. cbn. by rewrite orb_true_r.
  - by apply (from_ok_ext cat q).
Qed.

(** ** Columns *)

Section limit.
Context (cat : syscache).

Lemma expandTupleDesc_runs atts k er i st :
  Forall is_Some (colnames er) → ∃ ns vs, expandTupleDesc atts k er i 0 st = Ok ((ns, vs), st).
Proof.
  intros Hc. revert k. induction atts as [|a atts IH]; intros k; cbn [expandTupleDesc]; [by eexists _, _|].
  destruct (attisdropped a); [done|]. destruct (IH (S k)) as (ns & vs & E).
  assert (∃ label, (if decide (k < length (colnames er))%nat then deref (mjoin (colnames er !! k))
                    else ret (attname a)) st = Ok (label, st)) as [label El].
  { case_decide as Hk; [|by eexists].
    destruct (lookup_lt_is_Some_2 (colnames er) k Hk) as [c Ec]. rewrite Ec.
    destruct (Forall_lookup_1 _ _ _ _ Hc Ec) as [s ->]. by exists s. }
  hrun El. hrun E. by eexists _, _.
Qed.

Lemma expand_base_ok i n r st :
  rtekind r = RTE_RELATION → isProvBase r = false → Forall is_Some (colnames (eref r)) →
  ∃ vars st', expand_base cat i n r st = Ok ((r, vars), st') ∧ pStack st' = pStack st.
Proof.
  intros Hk Hb Hc. unfold expand_base. destruct (count_reference_ok cat r st Hk Hb) as (st1 & E1 & P1). hrun E1. rewrite Hk.
  destruct (expandTupleDesc_runs (rd_att cat (relid r)) 0 (eref r) 1 st1 Hc) as (ns & vs & E2). hrun E2. by eexists _, _.
Qed.

Lemma expand_view_ok i n bases st :
  ∃ vars st', expand_view cat i n bases st = Ok (vars, st') ∧ pStack st' = pStack st.
Proof.
  revert n st. induction bases as [|[rel ns] bases IH]; intros n st; cbn [expand_view]; [by eexists _, _|].
  match goal with |- context [expand_base cat i n ?r] => destruct (expand_base_ok i n r st) as (vars & st1 & E1 & P1) end; try done.
  { cbn. apply Forall_fmap, Forall_true. by eexists. }
  hrun E1. destruct (IH (n + Z.of_nat (length vars))%Z st1) as (rest & st2 & E2 & P2). hrun E2. eexists _, _.
  split; [done|congruence].
Qed.

Lemma named_all {A} (l : list (option A)) : forallb (λ c, negb (is_none c)) l = true → Forall is_Some l.
Proof. intros H%forallb_Forall. eapply Forall_impl; [exact H|]. by intros [x|]; [eexists|]. Qed.

(** The provenance columns of a query; it stays as it is. *)
Lemma expand_bases_ok r i n st :
  rte0 r = true → ∃ vars st', expand_bases cat i n r st = Ok ((r, vars), st') ∧ pStack st' = pStack st.
Proof.
  revert r i n st. apply (RangeTblEntry_tree_ind
    (λ q, ∀ i n st, level0 q = true →
      ∃ vars st', expand_query_bases cat i n q st = Ok ((q, vars), st') ∧ pStack st' = pStack st)
    (λ r, ∀ i n st, rte0 r = true →
      ∃ vars st', expand_bases cat i n r st = Ok ((r, vars), st') ∧ pStack st' = pStack st)).
  - intros ct ha hs rt IH fl qs tl gc hv dc sc lo lc so pr sr i n st H. cbn in H. checks.
    match goal with H : Forall (λ _, rte0 _ = true) _ |- _ => rename H into Hrt end.
    apply list_all_Forall in IH. cbn [expand_query_bases rtable].
    match goal with |- context [bind (?go _ _)] => set (loop := go) end.
    assert (∃ vars st', loop rt n st = Ok ((rt, vars), st') ∧ pStack st' = pStack st) as (vars & st' & E & P).
    { revert n st. induction IH as [|r rt Hr _ IHl]; intros n st; [by eexists _, _|]. inversion Hrt as [|? ? Hr0 Hrt0]; subst.
      destruct (Hr i n st Hr0) as (vars & st1 & E1 & P1). cbn. hrun E1.
      destruct (IHl Hrt0 (n + Z.of_nat (length vars))%Z st1) as (rest & st2 & E2 & P2). hrun E2. eexists _, _.
      split; [done|congruence]. }
    hrun E. by eexists _, _.
  - intros k rel sub IH ft vt jt av al er pb pa i n st H. cbn in H. checks. subst pb. destruct k; try (by eexists _, _).
    + cbn [expand_bases rtekind isProvBase relid]. destruct (view_relations cat rel) as [bases|].
      * destruct (expand_view_ok i n bases st) as (vars & st' & E & P). hrun E. by eexists _, _.
      * apply expand_base_ok; [done..|]. by apply named_all.
    + cbn [expand_bases rtekind isProvBase subquery]. destruct sub as [q|]; [|done]. apply option_all_Some in IH.
      destruct (IH i n st) as (vars & st' & E & P); [done|]. hrun E. by eexists _, _.
Qed.

(** The columns of an entry of the new top query: those of the subquery come first. *)
Lemma expandRTE_ok r s i st :
  named_rte r s → Forall shown_named (targetList s) → level0 s = true →
  ∃ vs pvs st', expandRTE cat r i 0 st = Ok ((r, vs ++ pvs), st') ∧ pStack st' = pStack st ∧
    (λ v, (varno v, varattno v)) <$> vs = pair i <$> cols_from 1 (length (targetList s)) ∧
    Forall (λ v, varlevelsup v = 0%Z) vs ∧ vartype <$> vs = (λ te, exprType (expr te)) <$> targetList s.
Proof.
  intros Hr Ht Hl. unfold expandRTE. destruct (expand_ok cat r s i st Hr Ht) as (ns & vs & E & H1 & H2 & H3). hrun E.
  pose proof Hr as [Hsub _]. pose proof Hsub as [[-> _] ->]. destruct (shouldRewrite s).
  - unfold with_refs at 1, AttrName.resetRelReferences. erewrite bind_ok by reflexivity.
    match goal with |- context [expand_bases cat i ?n r] => match goal with |- context [?m ?st1 = Ok _] =>
      destruct (expand_bases_ok r i n st1) as (pvs & st' & E' & P'); [by eapply sub_rte_level0|] end end.
    hrun E'. eexists vs, pvs, st'. by split_and!.
  - exists vs, [], st. rewrite app_nil_r. by split_and!.
Qed.

(** ** The join condition *)

Lemma all_in_list_from {A} (l : list A) k n st :
  (k + n ≤ length l)%nat → all_in_list l (cols_from (Z.of_nat k) n) st = Ok (take n (drop k l), st).
Proof.
  revert k. induction n as [|n IH]; intros k Hn; [done|].
  rewrite seqZ_cons by lia. cbn [all_in_list]. rewrite decide_True by lia.
  replace (Z.succ (Z.of_nat k)) with (Z.of_nat (S k)) by lia. replace (Z.pred (Z.of_nat (S n))) with (Z.of_nat n) by lia.
  destruct (lookup_lt_is_Some_2 l (Z.to_nat (Z.of_nat k))) as [x Hx]; [lia|]. rewrite Hx, bind_deref.
  hrun (IH (S k) ltac:(lia)). rewrite Nat2Z.id in Hx. by rewrite (drop_S _ _ _ Hx).
Qed.

Lemma comparisons_ok op_sem ls rs st :
  Forall (λ v, is_Some (equality_oper cat (vartype v))) ls →
  Forall (λ v, varlevelsup v = 0%Z) ls → Forall (λ v, varlevelsup v = 0%Z) rs →
  ∃ cs, comparisons cat ls rs st = Ok (cs, st) ∧ Forall (λ c, expr0 c = true) cs ∧
    Forall2 (computes op_sem) cs ((λ p, eq_cols (varno p.1) (varattno p.1) (varno p.2) (varattno p.2)) <$> zip ls rs).
Proof.
  intros H Hl. revert rs. induction H as [|v ls [[opno rty] Ho] _ IH]; intros [|v' rs] Hr; cbn [comparisons].
  1-3: by exists [].
  inversion Hl; subst. inversion Hr; subst. destruct (IH ltac:(done) rs ltac:(done)) as (cs & E & H0 & Hc).
  unfold createNotDistinctConditionForVars. rewrite Ho. erewrite bind_ok by reflexivity. hrun E. eexists. split; [done|].
  split.
  - constructor; [|done]. cbn. by rewrite !bool_decide_eq_true_2.
  - cbn. constructor; [|done]. intros e. cbn. unfold eq_cols. rewrite !decide_True by done. by case_bool_decide.
Qed.

Lemma computes_all op_sem cs bs :
  Forall2 (computes op_sem) cs bs → computes op_sem (EBoolExpr AND_EXPR cs) (λ e, forallb (λ b, b e) bs).
Proof.
  intros H e. cbn. assert (map (eval_expr op_sem e) cs = of_bool <$> ((λ b, b e) <$> bs)) as ->.
  { induction H as [|c b cs bs Hc _ IH]; [done|]. cbn. by rewrite Hc, IH. }
  clear H. induction bs as [|b bs IH]; [done|]. csimpl. cbn [connect]. rewrite IH. cbn. by destruct (b e), (forallb _ bs).
Qed.

(** ** The columns of the new top query *)

Definition col_of (i : Z) (te : TargetEntry) : Prop :=
  ∃ v, expr te = EVar v ∧ varno v = i ∧ varattno v = resno te ∧ varlevelsup v = 0%Z.

Lemma limit_targets_ok tl i st :
  Forall shown_named tl →
  ∃ tes, limit_targets tl i st = Ok (tes, st) ∧ resno <$> tes = cols_from (i + 1) (length tl) ∧
    Forall shown_named tes ∧ Forall (col_of 2) tes.
Proof.
  intros H. revert i. induction H as [|te tl [Hj [name Hn]] _ IH]; intros i; cbn [limit_targets].
  { exists []. by split_and!. }
  rewrite Hn, bind_deref. destruct (IH (i + 1)%Z) as (tes & E & H1 & H2 & H3). hrun E. eexists. split; [done|].
  csimpl. rewrite H1. split_and!.
  - rewrite (seqZ_cons (i + 1)) by (cbn; lia). f_equal. f_equal; cbn; lia.
  - constructor; [|done]. split; [done|by eexists].
  - constructor; [|done]. by eexists.
Qed.

Section top.
Context (op_sem : operators) (db : Z → list tuple).
Abbreviation evalQ := (evalQuery op_sem cat db).
Abbreviation provQ := (evalProv op_sem cat db).
Context (q s' : Query) (pl tes : list TargetEntry).
Context (Hok : query_ok cat q = true) (Hq : spj_query cat q) (Hlj : limit_joins q = true).
Context (Hs : query_rw cat op_sem db (without_limit q) s' pl).
Context (Htes_no : resno <$> tes = cols_from 1 (length (targetList s'))) (Htes : Forall (col_of 2) tes).
Context (Htes_sh : Forall shown_named tes).
Context (r1 r2 rJ : RangeTblEntry) (c : Expr).
Context (H1 : named_rte r1 q) (H2 : named_rte r2 s') (HJ : rtekind rJ = RTE_JOIN ∧ isProvBase rJ = false).
Context (Hcols : (λ v, (varno v, varattno v)) <$> joinaliasvars rJ =
  (pair 1%Z <$> cols_from 1 (length (targetList q))) ++ (pair 2%Z <$> cols_from 1 (length (targetList s')))).
Context (Hcols0 : Forall (λ v, varlevelsup v = 0%Z) (joinaliasvars rJ)).
Abbreviation w := (length (targetList q)).
Context (Hc0 : expr0 c = true) (Hc : computes op_sem c (λ e, same_cols w (e 1%Z) (e 2%Z))).

Definition limit_top (tl : list TargetEntry) : Query :=
  mkQuery CMD_SELECT false false [r1; r2; rJ] [JoinExpr JOIN_INNER (RangeTblRef 1) (RangeTblRef 2) (Some c) 3] None tl
    [] None [] [] None None None false false.

Abbreviation the_step := (mkStep JOIN_INNER (Some c) 2 3).

Lemma q_shown : Forall shown_named (targetList q).
Proof.
  eapply Forall_impl; [exact (spj_targets _ _ Hq)|]. intros te Hte.
  unfold te_ok in Hte. clear -Hte. checks. split; assumption.
Qed.

Lemma out_width_q : out_width q = w.
Proof. apply out_width_all. eapply Forall_impl; [exact q_shown|]. by intros te []. Qed.

Lemma limit_width1 tl : width cat (limit_top tl) 1 = w.
Proof. change (rte_width cat r1 = w). apply sub_rte_width; [apply H1|exact q_shown]. Qed.

Lemma limit_width2 tl : width cat (limit_top tl) 2 = length (targetList s').
Proof. change (rte_width cat r2 = length (targetList s')). apply sub_rte_width; [apply H2|exact (qr_shown _ _ _ _ _ _ Hs)]. Qed.

Lemma limit_chain tl : chain_query cat (limit_top tl) [the_step].
Proof.
  split; try done.
  - by apply (bool_decide_eq_true_1 (NoDup [1; 2; 3]%Z)).
  - cbn. intros i [->|[->|?%elem_of_nil]%elem_of_cons]%elem_of_cons; [| |done].
    + eapply sub_entry_of; [done|apply H1|exact q_shown|apply (spj_numbered _ _ Hq)].
    + eapply sub_entry_of; [done|apply H2|exact (qr_shown _ _ _ _ _ _ Hs)|].
      by rewrite (qr_targets _ _ _ _ _ _ Hs), (rw_length _ _ _ _ _ _ Hs).
  - intros pre s [-> ->]%at_one_step. exists rJ. split; [done|]. split; [apply HJ|]. split; [|done].
    cbn [root chain foldl s_right]. by rewrite limit_width1, limit_width2.
Qed.

Abbreviation rows := (λ i, default [] (rt_fetch i (map (evalRTE op_sem cat db) (rtable (limit_top []))))).

Definition limit_test (_ : step) (t u : tuple) : bool := same_cols w t u.

Lemma limit_steps : steps_ok op_sem rows (aliases (limit_top [])) (width cat (limit_top []) 1) limit_test [the_step].
Proof.
  intros pre s [-> ->]%at_one_step. split; [by right| |].
  - rewrite limit_width1. intros e t He _. cbn [s_qual s_right]. rewrite (computes_qual _ _ _ _ Hc). unfold limit_test.
    by apply same_cols_agree.
  - intros k Hk. apply (chain_first_cols cat (limit_top []) [the_step] (limit_chain [])); [by exists []|done].
Qed.

(** ** Rows *)

Lemma limit_prov : provQ q = evalQ q ≫= λ t, pair t <$> matching Same t (provQ (without_limit q)).
Proof.
  pose proof (te_ok_shown _ _ (spj_targets _ _ Hq)) as Ht. rewrite (evalProv_select _ _ _ q) by (by eapply spj_select || done).
  cbv zeta. rewrite Hlj. rewrite (evalProv_eq _ _ _ (without_limit q)); [done| |exact Ht].
  by destruct (spj_select _ _ Hq).
Qed.

Lemma unlimited_widths : Forall (λ p, length p.1 = w ∧ length p.2 = prov_width cat q) (provQ (without_limit q)).
Proof.
  pose proof (qr_widths _ _ _ _ _ _ Hs) as Hw. change (out_width (without_limit q)) with (out_width q) in Hw.
  rewrite out_width_q, prov_width_unfold in Hw. by rewrite prov_width_unfold.
Qed.

Lemma limit_partners t :
  length t = w →
  attrs (cols_from 1 (length (targetList s'))) <$> partners rows (null_tuple cat (limit_top [])) limit_test the_step t =
    (λ u, t ++ u) <$> matching Same t (provQ (without_limit q)).
Proof.
  intros Ht. unfold partners. cbn [s_right s_type]. change (default [] (rt_fetch 2 _)) with (evalRTE op_sem cat db r2).
  rewrite (sub_rte_eval _ _ _ _ _ (proj1 H2)), (qr_eval _ _ _ _ _ _ Hs), filter_fmap_bool. unfold matching.
  pose proof unlimited_widths as Hw. rewrite Forall_forall in Hw.
  rewrite filter_bool, (filter_ext_bool (λ p, limit_test _ t (flatten p)) (λ p, bool_decide (p.1 = t))).
  2:{ intros p Hp. unfold limit_test. apply same_cols_app; [done|by apply Hw]. }
  rewrite <- !list_fmap_compose. apply list_fmap_ext. intros k p [Hp Et]%list_elem_of_lookup_2%elem_of_filter_bool.
  apply bool_decide_eq_true_1 in Et. cbn. unfold flatten. rewrite Et. destruct (Hw p Hp) as [_ W2].
  assert (length (targetList s') = length (t ++ p.2)) as ->; [|apply attrs_all].
  rewrite length_app, Ht, W2, (rw_length _ _ _ _ _ _ Hs). change (out_width (without_limit q)) with (out_width q).
  by rewrite out_width_q, !prov_width_unfold.
Qed.

Lemma limit_values e : (λ te, eval_expr op_sem (vals_of id e) (expr te)) <$> tes = attrs (resno <$> tes) (e 2%Z).
Proof.
  unfold attrs. rewrite <- list_fmap_compose. apply list_fmap_ext. intros k te Hte%list_elem_of_lookup_2.
  rewrite Forall_forall in Htes. destruct (Htes te Hte) as (v & -> & Hno & Hat & Hl). cbn.
  rewrite decide_True by done. unfold vals_of, id. by rewrite Hno, Hat.
Qed.

Lemma limit_eval : evalQ (limit_top tes) = flatten <$> provQ q.
Proof.
  change (limit_top tes) with (set_targetList (targetList (limit_top []) ++ tes) (limit_top [])).
  rewrite (eval_top op_sem cat db (limit_top []) [the_step] (limit_chain []) [] (λ _, tes) (List.Forall2_nil _) tes limit_test
    limit_steps).
  - change (default [] (rt_fetch 1 _)) with (evalRTE op_sem cat db r1).
    rewrite (sub_rte_eval _ _ _ _ _ (proj1 H1)), limit_prov, fmap_of_bind. apply bind_ext_elem. intros t Ht.
    pose proof (evalQuery_width op_sem cat db q Hok) as Hw. rewrite Forall_forall in Hw. specialize (Hw t Ht). rewrite out_width_q in Hw.
    cbn [extend foldl s_right]. rewrite Htes_no, (limit_partners t Hw). csimpl.
    rewrite app_nil_r, <- !list_fmap_compose. apply list_fmap_ext. done.
  - eapply Forall_impl; [exact Htes_sh|]. by intros te [].
  - intros e _. cbn [s_right fmap list_fmap concat]. rewrite app_nil_r. apply limit_values.
Qed.

Lemma limit_widths : Forall (λ p, length p.1 = out_width q ∧ length p.2 = prov_width cat q) (provQ q).
Proof.
  rewrite limit_prov. apply Forall_forall. intros p (t & (u & -> & Hu)%list_elem_of_fmap & Ht)%list_elem_of_bind.
  pose proof (evalQuery_width op_sem cat db q Hok) as Hw. rewrite Forall_forall in Hw. split; [by apply Hw|]. cbn.
  unfold matching in Hu. apply list_elem_of_fmap in Hu as (p & -> & [_ Hp]%list_elem_of_filter).
  pose proof unlimited_widths as Hx. rewrite Forall_forall in Hx. by apply Hx.
Qed.

Lemma limit_level0 : level0 q = true → level0 (limit_top tes) = true.
Proof.
  intros Hl0. apply level0_intro; cbn; try done.
  - by repeat constructor.
  - eapply Forall_impl; [exact Htes|]. intros te (v & -> & _ & _ & Hl). cbn. by apply bool_decide_eq_true.
  - repeat constructor; [eapply sub_rte_level0; [apply H1|done]|eapply sub_rte_level0; [apply H2|apply (qr_level0 _ _ _ _ _ _ Hs)]|].
    destruct rJ. cbn in HJ |- *. by destruct HJ as [-> ->].
Qed.

Lemma limit_rw : query_rw cat op_sem db q (limit_top tes) pl.
Proof.
  pose proof Hs as [S1 S2 S3 _ _ _ _ _].
  assert (out_width (without_limit q) = out_width q ∧ prov_width cat (without_limit q) = prov_width cat q) as [Ew Ep]
    by by rewrite !prov_width_unfold.
  rewrite Ew, Ep in *. split; try done.
  - cbn. by rewrite Htes_no, (rw_length _ _ _ _ _ _ Hs), Ew, Ep.
  - apply limit_level0. by eapply query_ok_level0.
  - apply limit_widths.
  - apply limit_eval.
  - split_and!; [done..|]. eapply Forall_impl; [exact Htes_sh|]. by intros te [].
Qed.

End top.

(** ** The rewriter *)

Abbreviation plain_top rt tl := (mkQuery CMD_SELECT false false rt [] None tl [] None [] [] None None None false false).

Lemma zip_var_cols (ls rs : list Var) (e : Z → tuple) n :
  (λ v, (varno v, varattno v)) <$> ls = pair 1%Z <$> cols_from 1 n →
  (λ v, (varno v, varattno v)) <$> rs = pair 2%Z <$> cols_from 1 n →
  forallb (λ b : (Z → tuple) → bool, b e)
    ((λ p, eq_cols (varno p.1) (varattno p.1) (varno p.2) (varattno p.2)) <$> zip ls rs) = same_cols n (e 1%Z) (e 2%Z).
Proof.
  unfold same_cols. generalize (cols_from 1 n). intros ms. revert ls rs.
  induction ms as [|m ms IH]; intros [|l ls] [|r rs]; csimpl; try done. intros [= -> -> E1] [= -> -> E2].
  by rewrite (IH ls rs).
Qed.

Lemma take_first_cols (vs : list Var) i n m :
  (n ≤ m)%nat → (λ v, (varno v, varattno v)) <$> vs = pair i <$> cols_from 1 m →
  (λ v, (varno v, varattno v)) <$> take n vs = pair i <$> cols_from 1 n.
Proof.
  intros Hn E. rewrite fmap_take, E, <- fmap_take. f_equal. replace m with (n + (m - n))%nat by lia.
  rewrite Nat2Z.inj_add, seqZ_app by lia. by rewrite take_app_length' by (rewrite length_seqZ; lia).
Qed.

(** The join of the original and the rewritten query. *)
Lemma createJoinOnAttrs_ok op_sem r1 r2 q s' tl st :
  named_rte r1 q → named_rte r2 s' → Forall shown_named (targetList q) → Forall shown_named (targetList s') →
  level0 q = true → level0 s' = true → Forall (λ te, comparable_te cat te = true) (targetList q) →
  (length (targetList q) ≤ length (targetList s'))%nat →
  ∃ c st', createJoinOnAttrs cat (plain_top [r1; r2] tl) JOIN_INNER 1 2 (cols_from 0 (length (targetList q)))
      (cols_from 0 (length (targetList q))) true st =
    Ok ((plain_top [r1; r2; set_jointype JOIN_INNER (makeRte RTE_JOIN)] tl,
         JoinExpr JOIN_INNER (RangeTblRef 1) (RangeTblRef 2) (Some c) 3), st') ∧ pStack st' = pStack st ∧
    expr0 c = true ∧ computes op_sem c (λ e, same_cols (length (targetList q)) (e 1%Z) (e 2%Z)).
Proof.
  intros H1 H2 S1 S2 L1 L2 Hcmp Hle. unfold createJoinOnAttrs, createJoinExpr. cbn [rtable set_rtable length app].
  change (rt_fetch 1 [r1; r2; ?x]) with (Some r1). rewrite bind_deref.
  destruct (expandRTE_ok r1 q 1 st H1 S1 L1) as (vs1 & ps1 & st1 & E1 & P1 & C1 & V1 & T1). hrun E1.
  change (rt_update 1 r1 [r1; r2; ?x]) with [r1; r2; x]. cbn [rtable set_rtable].
  change (rt_fetch 2 [r1; r2; ?x]) with (Some r2). rewrite bind_deref.
  destruct (expandRTE_ok r2 s' 2 st1 H2 S2 L2) as (vs2 & ps2 & st2 & E2 & P2 & C2 & V2 & T2). hrun E2.
  assert (length vs1 = length (targetList q)) as N1 by (by rewrite <- (length_fmap vartype), T1, length_fmap).
  assert (length vs2 = length (targetList s')) as N2 by (by rewrite <- (length_fmap vartype), T2, length_fmap).
  set (n := length (targetList q)) in *.
  hrun (all_in_list_from (vs1 ++ ps1) 0 n st2 ltac:(rewrite length_app; lia)).
  hrun (all_in_list_from (vs2 ++ ps2) 0 n st2 ltac:(rewrite length_app; lia)).
  rewrite !drop_0, take_app_length', (take_app_le vs2) by lia.
  destruct (comparisons_ok op_sem vs1 (take n vs2) st2) as (cs & E3 & H0 & Hc).
  { assert (Forall (λ ty, is_Some (equality_oper cat ty)) (vartype <$> vs1)) as Hty; [|exact (proj1 (Forall_fmap _ _ _) Hty)].
    rewrite T1. apply Forall_fmap. eapply Forall_impl; [exact Hcmp|]. intros te Hte. apply is_some. exact Hte. }
  { done. }
  { by apply Forall_take. }
  hrun E3. eexists _, st2. split; [done|]. split; [congruence|]. split; [by apply Forall_forallb|].
  eapply computes_ext; [by apply computes_all|]. intros e. apply zip_var_cols; [done|]. by eapply take_first_cols.
Qed.

Lemma handleLimit_ok op_sem db rec q :
  query_ok cat q = true → spj_query cat q → limit_joins q = true →
  rewrites cat op_sem db rec (without_limit q) → rewrites cat op_sem db (handleLimit cat rec) q.
Proof.
  intros Hok Hq Hlj Hrec st. unfold handleLimit. destruct (Hrec st) as (s' & st1 & pl & E1 & P1 & Hs). hrun E1.
  destruct (limit_targets_ok (targetList s') 0 st1 (qr_shown _ _ _ _ _ _ Hs)) as (tes & E2 & T1 & T2 & T3). hrun E2.
  unfold correctSubQueryAlias. cbv zeta.
  change (rtable _) with [subquery_rte q "originalQuery"; subquery_rte s' "rewrittenQuery"].
  destruct (correct_subs_ok [subquery_rte q "originalQuery"; subquery_rte s' "rewrittenQuery"] [q; s'] st1) as (rtes & E3 & HF).
  { by repeat constructor. }
  inversion HF as [|r1 ? ? ? H1 HF']; subst. inversion HF' as [|r2 ? ? ? H2 HF'']; subst. inversion HF''; subst.
  erewrite bind_ok by (hrun E3; reflexivity). change (set_rtable [r1; r2] _) with (plain_top [r1; r2] tes).
  pose proof (q_shown q Hq) as Hsh. destruct (spj_joins_spec _ _ Hq Hlj) as [_ Hcmp].
  destruct (createJoinOnAttrs_ok op_sem r1 r2 q s' tes st1) as (c & st2 & E4 & P4 & Hc0 & Hc); try done.
  { exact (qr_shown _ _ _ _ _ _ Hs). }
  { by eapply query_ok_level0. }
  { exact (qr_level0 _ _ _ _ _ _ Hs). }
  { rewrite (rw_length _ _ _ _ _ _ Hs). change (out_width (without_limit q)) with (out_width q). rewrite (out_width_q q Hq). lia. }
  hrun E4. unfold recreateJoinRTEs. cbn [fromlist with_fromlist recreate_nodes recreateJoinRTE].
  edestruct (adapt_ok cat "newJoin" (with_fromlist [JoinExpr JOIN_INNER (RangeTblRef 1) (RangeTblRef 2) (Some c) 3]
    (plain_top [r1; r2; set_jointype JOIN_INNER (makeRte RTE_JOIN)] tes)) r1 r2 JOIN_INNER (Some c) q s' st2)
    as (rJ & E5 & KJ & Hcols & Hcols0); try done; [exact (qr_shown _ _ _ _ _ _ Hs)|].
  erewrite bind_ok by (rewrite !bind_ret; exact E5). eexists _, st2, pl. split; [done|]. split; [congruence|].
  change (set_rtable _ _) with (limit_top r1 r2 rJ c tes). by eapply limit_rw.
Qed.

End limit.

End LimitFacts.
