(* ===== verification/NodeFacts.v ===== *)
(** * The rewriter is correct

    [rewriteQueryNode] on all well-formed queries: select-project-join queries, aggregation and set operations, nested
    in any way. *)

From Stdlib Require Import ZArith Lia.
From stdpp Require Import base strings numbers list sets.
From S2P Require Import Prelude ProvStack AttrName QueryTree SqlSemantics SqlFacts Queries ProvWitness Sublevels.
From S2P Require Import RewriteSPJ RewriteLimit RewriteAggr RewriteSet RewriteNode RewriteFacts RewriteMain AggrFacts SetTrees.
From S2P Require Import SetFacts LimitFacts.
Import QueryTree SqlSemantics SqlFacts Queries ProvWitness Sublevels RewriteSPJ RewriteAggr RewriteSet RewriteNode.
Import RewriteLimit RewriteFacts RewriteMain AggrFacts SetTrees SetFacts LimitFacts.

Module NodeFacts.

(** No set operation, here or below. *)
Fixpoint set_free (q : Query) : bool := is_none (setOperations q) && forallb set_free_rte (rtable q)
with set_free_rte (r : RangeTblEntry) : bool := match subquery r with Some q => set_free q | None => true end.

Lemma set_free_unfold q : set_free q = is_none (setOperations q) && forallb set_free_rte (rtable q).
Proof. by destruct q. Qed.

Lemma set_free_sub q r s : set_free q = true → r ∈ rtable q → subquery r = Some s → set_free s = true.
Proof.
  rewrite set_free_unfold. intros H Hr Hs. checks. match goal with H : Forall _ (rtable q) |- _ => rewrite Forall_forall in H; specialize (H r Hr) end.
  destruct r. cbn in *. by subst.
Qed.

Section nodes.
Context (op_sem : operators) (cat : syscache) (db : Z → list tuple).
Context (db_ok : ∀ i t, t ∈ db i → length t = length (rd_att cat i)).

Section rewriter.
Context `{AggSublinksLaws} `{SpjHelpers} (wl : bool).

Abbreviation rewriteNode := (rewriteQueryNode cat true wl).
Abbreviation correct fuel q := (rewrites cat op_sem db (rewriteNode fuel) q).

Abbreviation subs_correct fuel q :=
  (∀ r s, r ∈ rtable q → rtekind r = RTE_SUBQUERY → subquery r = Some s → correct fuel s).

(** One node of each kind, given the queries below. *)
Lemma spj_direct fuel q :
  spj_query cat q → checkLimit q = false → limit_joins q = false → subs_correct fuel q →
  rewrites cat op_sem db (rewriteSPJQuery cat true wl (S fuel)) q.
Proof.
  intros Hq Hc Hj Hsub st. cbn [rewriteSPJQuery]. rewrite Hc, (spj_sublinks _ _ Hq), bind_ret, (spj_rewritten _ _ Hq).
  by apply rewriteSPJrestrict_ok.
Qed.

Lemma spj_dispatch fuel q st :
  spj_query cat q → rewriteNode (S fuel) q st = rewriteSPJQuery cat true wl fuel q st.
Proof.
  intros Hq. cbn [rewriteQueryNode]. pose proof (spj_grouped _ _ Hq) as Hg. unfold grouped in Hg.
  rewrite !orb_false_iff in Hg. destruct Hg as [[-> _] _]. by rewrite (spj_setops _ _ Hq).
Qed.

Lemma spj_plain_correct fuel q :
  spj_query cat q → has_limit q = false → subs_correct fuel q → correct (S (S fuel)) q.
Proof.
  intros Hq Hl Hsub st. rewrite spj_dispatch by done. apply spj_direct; [done| | |done].
  - apply has_limit_none in Hl as [Ho Hc]. unfold checkLimit. by rewrite Ho, Hc.
  - unfold limit_joins. by rewrite Hl.
Qed.

Lemma spj_correct fuel q :
  query_ok cat q = true → spj_query cat q → subs_correct fuel q → subs_correct (S fuel) q → correct (S (S (S fuel))) q.
Proof.
  intros Hok Hq Hsub Hsub' st. rewrite spj_dispatch by done. pose proof (checkLimit_spec cat q Hok Hq) as Hc.
  destruct (limit_joins q) eqn:Hj; [|by apply spj_direct].
  change (rewriteSPJQuery cat true wl (S (S fuel)) q st) with
    ((if checkLimit q then handleLimit cat (rewriteSPJQuery cat true wl (S fuel)) q
      else '(query, subList) ← (if hasSubLinks q then rewriteSublinks (rewriteNode (S fuel)) q else ret (q, []));
           if provSublinkRewritten query then ret query
           else rewriteSPJrestrict cat (rewriteNode (S fuel)) query subList (Z.of_nat (length (rtable q)))) st).
  rewrite Hc. apply handleLimit_ok; [done..|]. apply spj_direct; [by apply without_limit_ok|done..].
Qed.

Lemma agg_correct fuel q :
  agg_query cat q → level0 q = true →
  (∀ r s, r ∈ rtable q → rtekind r = RTE_SUBQUERY → subquery r = Some s → correct fuel s) →
  correct (S (S (S fuel))) q.
Proof.
  intros Hq Hl0 Hsub st. cbn [rewriteQueryNode]. rewrite (agg_aggs _ _ Hq). unfold rewriteAggregateQuery.
  unfold hasHavingOrTargetListOrGroupBySublinks. rewrite (unmarked_no_sublinks _ (agg_sublinks _ _ Hq)), andb_false_r.
  apply rewriteAggregation_ok; [done..|]. intros s Hs Hnl Hrt. apply spj_plain_correct; [done..|]. by rewrite Hrt.
Qed.

Lemma set_correct fuel q t :
  wl = false → set_query cat q t → level0 q = true →
  (∀ s, query_ok cat s = true → (need s < need q)%nat → correct fuel s) → correct (S fuel) q.
Proof.
  intros Hwl Hq Hl0 Hsub st. cbn [rewriteQueryNode]. pose proof (set_grouped _ _ _ Hq) as Hg. unfold grouped in Hg.
  rewrite !orb_false_iff in Hg. destruct Hg as [[-> _] _]. rewrite (set_tree _ _ _ Hq).
  destruct (shape_of t 1 (rtable q) (set_indexes _ _ _ Hq)) as (T & HT & Ht).
  destruct (set_stmt _ _ _ Hq) as (op & all & l & r & E).
  destruct T as [x|op' all' L R]; [rewrite E in Ht; done|].
  rewrite Hwl in Hsub |- *. by apply (rewriteSetQuery_ok op_sem cat db q t Hq Hl0 op' all' L R HT Ht).
Qed.

(** With the alternative semantics, the queries without set operations. *)
Lemma rewriteQueryNode_correct q fuel :
  query_ok cat q = true → (wl = true → set_free q = true) → (need q ≤ fuel)%nat → correct fuel q.
Proof.
  revert q. induction (lt_wf fuel) as [fuel _ IH]. intros q Hok Hwl Hf. pose proof (query_ok_level0 cat q Hok) as Hl0.
  pose proof Hok as [Hrt Hq]%query_ok_spec.
  assert (∀ m r s, (m + 3 = fuel)%nat → r ∈ rtable q → rtekind r = RTE_SUBQUERY → subquery r = Some s →
    ∀ m', (m ≤ m' < fuel)%nat → correct m' s) as Hsub.
  { intros m r s Hm Hr Hk Hs m' Hm'. pose proof (need_sub q r s Hr Hs). apply IH; [lia| | |lia].
    2:{ intros Ew. by eapply set_free_sub; [by apply Hwl|..]. }
    rewrite Forall_forall in Hrt. specialize (Hrt r Hr).
    destruct (rte_ok_spec cat r Hrt) as (_ & _ & _ & _ & [(Hk' & _)|[(_ & s' & Hs' & Hok')|Hk']]); congruence. }
  rewrite need_unfold in Hf. destruct fuel as [|[|[|fuel]]]; try lia.
  destruct Hq as [Hq|[Hq|[t Hq]]].
  - apply spj_correct; [done..| |]; intros r s Hr Hk Hs; apply (Hsub fuel r s); (done || lia).
  - apply agg_correct; [done..|]. intros r s Hr Hk Hs. apply (Hsub fuel r s); (done || lia).
  - assert (wl = false) as Ew.
    { destruct wl; [|done]. specialize (Hwl eq_refl). rewrite set_free_unfold, (set_tree _ _ _ Hq) in Hwl. done. }
    eapply set_correct; [done..|]. intros s Hs Hlt. apply IH; [lia|done|congruence|]. rewrite (need_unfold q) in Hlt. lia.
Qed.

End rewriter.

Lemma rewriteQueryNode_ok `{AggSublinksLaws} `{SpjHelpers} q fuel :
  query_ok cat q = true → (need q ≤ fuel)%nat → rewrites cat op_sem db (rewriteQueryNode cat true false fuel) q.
Proof. intros Hq Hf. by apply rewriteQueryNode_correct. Qed.

(** ** The widths of witnesses *)

#[local] Instance no_sublinks : AggSublinks :=
  {| findSublinksAgg := λ _, false; findSublinksWhere := λ _, false; transformAggWithSublinks := ret |}.
#[local] Instance no_sublinks_laws : AggSublinksLaws.
Proof. done. Qed.
#[local] Instance no_helpers : SpjHelpers := {| rewriteSublinks := λ _ q, ret (q, []) |}.

Lemma evalProv_widths q :
  query_ok cat q = true →
  Forall (λ p, length p.1 = out_width q ∧ length p.2 = prov_width cat q) (evalProv op_sem cat db q).
Proof.
  intros Hq.
  destruct (rewriteQueryNode_ok q (need q) Hq (le_n _)
    (mkRw [] false [] (AttrName.mkCounters [] []) (ProvStack.mkGens 0 0))) as (q' & st' & pl & _ & _ & Hr).
  exact (qr_widths _ _ _ _ _ _ Hr).
Qed.

End nodes.

End NodeFacts.
