(* ===== verification/ProvReplay.v ===== *)
(** * Witnesses are sufficient

    For queries built from inner joins, without grouping and set operations: the witness of a result tuple consists of tuples of the
    database, and every database that contains these tuples yields the result tuple with the same
    witness.  This is what makes a package of the provenance enough to run the query again. *)

From Stdlib Require Import ZArith Lia.
From stdpp Require Import base strings numbers list sets.
From S2P Require Import Prelude AttrName QueryTree SqlSemantics SqlFacts Queries ProvWitness Sublevels RewriteSPJ.
From S2P Require Import RewriteFacts RewriteJoins RewriteMain NodeFacts.
Import QueryTree SqlSemantics SqlFacts Queries ProvWitness Sublevels RewriteFacts RewriteJoins RewriteMain NodeFacts.

Module ProvReplay.

Fixpoint inner_node (n : Node) : bool :=
  match n with
  | RangeTblRef _ => true
  | JoinExpr JOIN_INNER l r _ _ => inner_node l && inner_node r
  | JoinExpr _ _ _ _ _ => false
  end.

(** Only inner joins, and no grouping, set operation or LIMIT, here or below. *)
Fixpoint inner_only (q : Query) : bool :=
  forallb inner_node (fromlist q) && negb (grouped q) && is_none (setOperations q) && negb (has_limit q) &&
  forallb inner_rte (rtable q)
with inner_rte (r : RangeTblEntry) : bool := match subquery r with Some q => inner_only q | None => true end.

(** The base relations a query reads, in the order of its provenance columns. *)
Fixpoint accesses (q : Query) : list Z := concat (map rte_accesses (rtable q))
with rte_accesses (r : RangeTblEntry) : list Z :=
  match rtekind r with
  | RTE_RELATION => [relid r]
  | RTE_SUBQUERY => match subquery r with Some q => accesses q | None => [] end
  | _ => []
  end.

(** The tuples a witness is made of, with their relations. *)
Fixpoint cut (cat : syscache) (rels : list Z) (w : tuple) : list (Z * tuple) :=
  match rels with
  | [] => []
  | i :: rels => let n := length (rd_att cat i) in (i, take n w) :: cut cat rels (drop n w)
  end.

(** ** FROM clauses of inner joins *)

Section inner.
Context (op_sem : operators).
Context {R : Type} (vals : R → tuple) (mk : tuple → R → R → R) (null : Z → R) (alias : Z → list Var).

Lemma leaves_ids n : leaves n ⊆ ids n.
Proof. induction n; simpl; set_solver. Qed.

(** The rows of the leaves determine whether a row is in the result. *)
Lemma from_inner rows n e e' :
  inner_node n = true → NoDup (ids n) → scoped alias n → e' ∈ from op_sem vals mk rows null alias n e →
  (∀ i, i ∈ leaves n → e' i ∈ rows i) ∧
  ∀ rows', (∀ i, i ∈ leaves n → e' i ∈ rows' i) → e' ∈ from op_sem vals mk rows' null alias n e.
Proof.
  revert e e'. induction n as [i|jt l IHl r IHr c J]; intros e e' Hin HN Hs He.
  { simpl in *. apply list_elem_of_fmap in He as (x & -> & Hx). split.
    - intros j ->%list_elem_of_singleton. unfold bind_row. by rewrite decide_True.
    - intros rows' H. apply list_elem_of_fmap. exists x. split; [done|].
      specialize (H i ltac:(set_solver)). unfold bind_row in H. by rewrite decide_True in H. }
  destruct jt; try done. cbn [inner_node] in Hin. rewrite andb_true_iff in Hin. destruct Hin as [Il Ir].
  pose proof (nodup_join _ _ _ _ _ HN) as (Nl & Nr & Hd). pose proof Hs as (Sl & Sr & _).
  assert ((J ∉ ids l) ∧ (J ∉ ids r)) as [Jl Jr].
  { simpl in HN. apply NoDup_app in HN as (_ & H1 & H2). apply NoDup_app in H2 as (_ & H2 & _). set_solver. }
  cbn [from] in He. apply list_elem_of_fmap in He as (f & -> & Hf).
  apply list_elem_of_bind in Hf as (g & Hf & Hg). apply elem_of_filter_bool in Hf as [Hf Hok].
  destruct (from_extends op_sem vals mk rows null alias r g f Nr Sr Hf) as [_ Hout].
  destruct (IHl e g Il Nl Sl Hg) as [Hl1 Hl2]. destruct (IHr g f Ir Nr Sr Hf) as [Hr1 Hr2].
  pose proof (leaves_ids l) as Ll. pose proof (leaves_ids r) as Lr.
  assert (∀ i, i ≠ J → bind_join op_sem vals mk alias (root l) (root r) J f i = f i) as Hbind.
  { intros i Hi. unfold bind_join, bind_row. by rewrite decide_False. }
  split.
  - intros i [Hi|Hi]%elem_of_app; rewrite Hbind by set_solver; [|by apply Hr1].
    rewrite Hout by set_solver. by apply Hl1.
  - intros rows' H. cbn [from]. apply list_elem_of_fmap. exists f. split; [done|].
    apply list_elem_of_bind. exists g. split.
    + apply elem_of_filter_bool. split; [|done]. apply Hr2. intros i Hi. rewrite <- Hbind by set_solver.
      apply H. simpl. set_solver.
    + apply Hl2. intros i Hi. rewrite <- Hout, <- Hbind by set_solver. apply H. simpl. set_solver.
Qed.

Lemma from_list_inner rows ns e e' :
  forallb inner_node ns = true → NoDup (concat (ids <$> ns)) → Forall (scoped alias) ns →
  e' ∈ from_list op_sem vals mk rows null alias ns e →
  (∀ i, i ∈ concat (leaves <$> ns) → e' i ∈ rows i) ∧
  ∀ rows', (∀ i, i ∈ concat (leaves <$> ns) → e' i ∈ rows' i) →
    e' ∈ from_list op_sem vals mk rows' null alias ns e.
Proof.
  revert e. induction ns as [|n ns IH]; intros e; csimpl.
  { intros _ _ _ He. split; [by intros i ?%elem_of_nil|done]. }
  rewrite andb_true_iff. intros [I1 I2] (N1 & Hd & N2)%NoDup_app [S1 S2]%Forall_cons (g & Hg & Hn)%list_elem_of_bind.
  destruct (IH g I2 N2 S2 Hg) as [H1 H2]. destruct (from_inner rows n e g I1 N1 S1 Hn) as [H3 H4].
  destruct (from_list_settled op_sem vals mk rows null alias ns g e' N2 S2 Hg) as [_ Hout].
  pose proof (leaves_ids n) as Ln.
  assert (∀ i, i ∈ leaves n → e' i = g i) as Heq by (intros i Hi; apply Hout; set_solver). split.
  - intros i [Hi|Hi]%elem_of_app; [rewrite Heq by done; by apply H3|by apply H1].
  - intros rows' H. apply list_elem_of_bind. exists g. split.
    + apply H2. intros i Hi. apply H, elem_of_app. by right.
    + apply H4. intros i Hi. rewrite <- Heq by done. apply H, elem_of_app. by left.
Qed.

End inner.

Section replay.
Context (op_sem : operators) (cat : syscache).

Lemma cut_app rels rels' w w' :
  length w = sum_list (map (λ i, length (rd_att cat i)) rels) →
  cut cat (rels ++ rels') (w ++ w') = cut cat rels w ++ cut cat rels' w'.
Proof.
  revert w. induction rels as [|i rels IH]; intros w Hw; cbn in Hw.
  { by destruct w. }
  cbn [app cut]. rewrite take_app_le, drop_app_le by lia. rewrite IH; [done|]. rewrite length_drop. lia.
Qed.

Lemma scoped_plain q n : node_ok cat q n = true → scoped (aliases q) n.
Proof.
  induction n as [i|jt l IHl r IHr c J]; [done|]. cbn [node_ok scoped].
  repeat rewrite andb_true_iff. intros ((((Hl & Hr) & _) & _) & Ha%forallb_Forall).
  split; [by apply IHl|]. split; [by apply IHr|]. eapply Forall_impl; [exact Ha|].
  intros v. cbn. rewrite !andb_true_iff. intros [[_ Hv] _]. by eapply bool_decide_eq_true_1.
Qed.

(** The leaves of the join trees are the entries that contribute. *)
Lemma leaves_contributors q i :
  from_ok cat q → i ∈ contributors q → i ∈ concat (leaves <$> fromlist q).
Proof.
  intros Hq Hi. pose proof (fo_contributors _ _ Hq i Hi) as Hs. pose proof (contributor_kind q i Hi) as Hk.
  unfold scope in Hs. apply elem_of_concat in Hs as (l & Hl & (n & -> & Hn)%list_elem_of_fmap).
  apply elem_of_concat. exists (leaves n). split; [|by apply list_elem_of_fmap_2].
  pose proof (fo_nodes _ _ Hq) as Hns. rewrite Forall_forall in Hns. specialize (Hns n Hn). clear Hn.
  induction n as [j|jt l IHl r IHr c J]; cbn [ids leaves node_ok] in *; [done|].
  repeat rewrite andb_true_iff in Hns. destruct Hns as ((((H1 & H2) & HJ%bool_decide_eq_true_1) & _) & _).
  rewrite !elem_of_app, list_elem_of_singleton in Hl. rewrite elem_of_app.
  destruct Hl as [Hl|[Hl| ->]]; [left; auto|right; auto|done].
Qed.

(** ** The tuples of a witness *)

Abbreviation widths := (λ rels, sum_list (map (λ i, length (rd_att cat i)) rels)).

Lemma access_widths_app rels rels' : widths (rels ++ rels') = (widths rels + widths rels')%nat.
Proof. induction rels; cbn; lia. Qed.

Lemma prov_width_accesses q : query_ok cat q = true → prov_width cat q = widths (accesses q).
Proof.
  revert q. apply (Query_tree_ind
    (λ q, query_ok cat q = true → prov_width cat q = widths (accesses q))
    (λ r, rte_ok cat r = true → rte_prov_width cat r = widths (rte_accesses r))).
  - intros ct ha hs rt IH fl qs tl gc hv dc sc lo lc so pr sr [Hrt _]%query_ok_spec.
    apply list_all_Forall in IH. cbn [rtable] in Hrt. cbn [prov_width accesses rtable].
    clear -IH Hrt. induction rt as [|r rt IHrt]; [done|]. cbn [map concat sum_list].
    apply Forall_cons in IH as [Hr IH], Hrt as [Hsp Hrt]. rewrite access_widths_app, <- Hr, <- IHrt by done. done.
  - intros k rel sub IH ft vt jt av al er pb pa Hr.
    pose proof (rte_ok_spec cat _ Hr) as (_ & _ & _ & _ & [(Hk & _)|[(Hk & s & Hs & Hsp)|Hk]]);
      cbn [rtekind subquery] in *; subst; cbn; [lia| |done].
    apply option_all_Some in IH. by apply IH.
Qed.

Lemma rte_width_accesses r : rte_ok cat r = true → rte_prov_width cat r = widths (rte_accesses r).
Proof.
  intros Hr. pose proof (rte_ok_spec cat _ Hr) as (_ & _ & _ & _ & [(Hk & _)|[(Hk & s & Hs & Hsp)|Hk]]);
    destruct r; cbn [rtekind subquery] in *; subst; cbn; [lia| |done]. by apply prov_width_accesses.
Qed.

(** The tuples of a query's witness are those of the entries of its range table. *)
Lemma cut_witness rtes i0 (f : Z → tuple) p :
  Forall (λ r, rte_ok cat r = true) rtes →
  (∀ (k : nat) r, rtes !! k = Some r → contributes r = true → length (f (i0 + Z.of_nat k)%Z) = rte_prov_width cat r) →
  p ∈ cut cat (concat (map rte_accesses rtes)) (concat (f <$> contrib_from i0 rtes)) ↔
  ∃ (k : nat) r, rtes !! k = Some r ∧ contributes r = true ∧ p ∈ cut cat (rte_accesses r) (f (i0 + Z.of_nat k)%Z).
Proof.
  revert i0. induction rtes as [|r rtes IH]; intros i0; cbn [map concat contrib_from].
  { intros _ _. split; [by intros ?%elem_of_nil|]. by intros (k & r & Hk & _). }
  intros [Hr Hrs]%Forall_cons Hlen.
  assert (p ∈ cut cat (concat (map rte_accesses rtes)) (concat (f <$> contrib_from (i0 + 1) rtes)) ↔
    ∃ (k : nat) r', rtes !! k = Some r' ∧ contributes r' = true ∧ p ∈ cut cat (rte_accesses r') (f (i0 + Z.of_nat (S k))%Z)) as IH'.
  { rewrite IH; [|done|].
    - split; intros (k & r' & Hk & Hc & Hp); exists k, r'; split_and!; try done;
        by replace (i0 + Z.of_nat (S k))%Z with (i0 + 1 + Z.of_nat k)%Z in * by lia.
    - intros k r' Hk Hc. rewrite <- (Hlen (S k) r' Hk Hc). do 2 f_equal. lia. }
  destruct (contributes r) eqn:Ec.
  - cbn [app fmap list_fmap]. csimpl. rewrite cut_app, elem_of_app, IH'.
    2:{ rewrite <- rte_width_accesses by done. rewrite <- (Hlen 0%nat r eq_refl Ec). f_equal. f_equal. lia. }
    split.
    + intros [Hp|(k & r' & Hk & Hc & Hp)]; [exists 0%nat, r|by exists (S k), r'].
      rewrite Z.add_0_r. done.
    + intros ([|k] & r' & Hk & Hc & Hp); [left|right; by exists k, r'].
      injection Hk as ->. by rewrite Z.add_0_r in Hp.
  - assert (rte_accesses r = []) as ->.
    { destruct r as [k]. destruct k; done. }
    cbn [app]. rewrite IH'. split.
    + intros (k & r' & Hk & Hc & Hp). by exists (S k), r'.
    + intros ([|k] & r' & Hk & Hc & Hp); [|by exists k, r']. injection Hk as ->. congruence.
Qed.

(** ** Replay *)

(** A row with witness [w] over the relations [rels] is reproduced from the tuples of its witness. *)
Definition replayed (db : Z → list tuple) (rels : list Z) (rows : (Z → list tuple) → list row) (x : row) : Prop :=
  (∀ p, p ∈ cut cat rels x.2 → p.2 ∈ db p.1) ∧
  ∀ db', (∀ p, p ∈ cut cat rels x.2 → p.2 ∈ db' p.1) → x ∈ rows db'.

Section rows.
Context (db : Z → list tuple) (db_ok : ∀ i t, t ∈ db i → length t = length (rd_att cat i)).

Lemma rte_witness_length r x :
  rte_ok cat r = true → x ∈ evalProvRTE op_sem cat db r → length x.2 = rte_prov_width cat r.
Proof.
  intros Hr Hx. pose proof (rte_ok_spec cat _ Hr) as (_ & _ & _ & _ & [(Hk & _)|[(Hk & s & Hs & Hsp)|Hk]]);
    destruct r; cbn [rtekind subquery] in *; subst; cbn in Hx |- *; [| |by apply elem_of_nil in Hx].
  - apply list_elem_of_fmap in Hx as (t & -> & Ht). by apply db_ok.
  - pose proof (evalProv_widths op_sem cat db db_ok s Hsp) as HF. rewrite Forall_forall in HF. by apply HF.
Qed.

(** One query node, given its range table. *)
Lemma raw_replayed q x :
  spj_query cat q → forallb inner_node (fromlist q) = true →
  (∀ i r y, rt_fetch i (rtable q) = Some r → y ∈ evalProvRTE op_sem cat db r →
    replayed db (rte_accesses r) (λ db', evalProvRTE op_sem cat db' r) y) →
  x ∈ raw_prov op_sem cat (map (evalProvRTE op_sem cat db) (rtable q)) q →
  replayed db (concat (map rte_accesses (rtable q)))
    (λ db', raw_prov op_sem cat (map (evalProvRTE op_sem cat db') (rtable q)) q) x.
Proof.
  intros Hq Hin Hsub (e & -> & He)%list_elem_of_fmap. apply elem_of_filter_bool in He as [He Hok].
  assert (Forall (scoped (aliases q)) (fromlist q)) as Hsc.
  { eapply Forall_impl; [apply (fo_nodes _ _ Hq)|]. apply scoped_plain. }
  destruct (from_list_inner op_sem fst join_row (null_row cat q) (aliases q) _ _ _ _ Hin (fo_scope _ _ Hq) Hsc He) as [H1 H2].
  assert (∀ i, i ∈ contributors q → ∃ r, rt_fetch i (rtable q) = Some r ∧ e i ∈ evalProvRTE op_sem cat db r) as Hrow.
  { intros i Hi%leaves_contributors; [|apply Hq]. specialize (H1 i Hi). rewrite rt_fetch_map in H1.
    destruct (rt_fetch i (rtable q)) as [r|]; [by exists r|by apply elem_of_nil in H1]. }
  assert (∀ (k : nat) r, rtable q !! k = Some r → contributes r = true →
    (1 + Z.of_nat k)%Z ∈ contributors q ∧ rt_fetch (1 + Z.of_nat k) (rtable q) = Some r) as Hk.
  { intros k r Hk Hc. split; [rewrite contributors_from; by eapply contributes_in|].
    unfold rt_fetch. rewrite decide_True by lia. by replace (Z.to_nat (1 + Z.of_nat k - 1)) with k by lia. }
  assert (∀ p, p ∈ cut cat (concat (map rte_accesses (rtable q))) (witness q e) ↔
    ∃ i r, i ∈ contributors q ∧ rt_fetch i (rtable q) = Some r ∧ p ∈ cut cat (rte_accesses r) (e i).2) as Hcut.
  { intros p. unfold witness. rewrite contributors_from at 1. rewrite (cut_witness _ _ (λ i, (e i).2)).
    - split.
      + intros (k & r & Hr & Hc & Hp). destruct (Hk k r Hr Hc). by eexists _, _.
      + intros (i & r & Hi & Hr & Hp). unfold rt_fetch in Hr. case_decide; [|done].
        exists (Z.to_nat (i - 1)), r. replace (1 + Z.of_nat (Z.to_nat (i - 1)))%Z with i by lia. split_and!; try done.
        apply contributes_kind. pose proof (contributor_kind q i Hi) as Hki. unfold kind_at, rt_fetch in Hki.
        rewrite decide_True, Hr in Hki by done. cbn in Hki. congruence.
    - apply (fo_rtes _ _ Hq).
    - intros k r Hr Hc. destruct (Hk k r Hr Hc) as [Hi Hf]. destruct (Hrow _ Hi) as (r' & Hf' & He').
      rewrite Hf in Hf'. injection Hf' as <-. apply rte_witness_length; [|done].
      by eapply (rt_fetch_Forall _ _ _ _ (fo_rtes _ _ Hq)). }
  split.
  - intros p (i & r & Hi & Hr & Hp)%Hcut. destruct (Hrow i Hi) as (r' & Hr' & He'). rewrite Hr in Hr'. injection Hr' as <-.
    by apply (Hsub i r (e i) Hr He').
  - intros db' Hdb'. apply list_elem_of_fmap. exists e. split; [done|]. apply elem_of_filter_bool. split; [|done].
    apply H2. intros i Hi. destruct (tree_nodes cat q Hq) as [_ Hlv]. destruct (Hlv i Hi) as [Hc _].
    destruct (Hrow i Hc) as (r & Hr & He'). rewrite rt_fetch_map, Hr. cbn.
    apply (Hsub i r (e i) Hr He'). intros p Hp. apply Hdb', Hcut. by exists i, r.
Qed.

Lemma evalProv_replayed q x :
  query_ok cat q = true → inner_only q = true → x ∈ evalProv op_sem cat db q →
  replayed db (accesses q) (λ db', evalProv op_sem cat db' q) x.
Proof.
  revert q x. apply (Query_tree_ind
    (λ q, ∀ x, query_ok cat q = true → inner_only q = true → x ∈ evalProv op_sem cat db q →
      replayed db (accesses q) (λ db', evalProv op_sem cat db' q) x)
    (λ r, ∀ x, rte_ok cat r = true → inner_rte r = true → x ∈ evalProvRTE op_sem cat db r →
      replayed db (rte_accesses r) (λ db', evalProvRTE op_sem cat db' r) x)).
  - intros ct ha hs rt IH fl qs tl gc hv dc sc lo lc so pr sr x Hs Hin Hx.
    set (q := mkQuery ct ha hs rt fl qs tl gc hv dc sc lo lc so pr sr) in *.
    apply query_ok_spec in Hs as [Hrt Hs]. apply list_all_Forall in IH.
    assert (forallb inner_node (fromlist q) = true ∧ grouped q = false ∧ setOperations q = None ∧ has_limit q = false ∧
      Forall (λ r, inner_rte r = true) (rtable q)) as (Hin' & Hg & Hso & Hl & Hsub).
    { clear -Hin. unfold q in *. cbn [inner_only] in Hin. checks. split_and!; try done. by apply Forall_forallb. }
    destruct Hs as [Hs|[Hs|[t Hs]]]; [|by rewrite (agg_grouped _ _ Hs) in Hg|by rewrite (set_tree _ _ _ Hs) in Hso].
    assert (∀ db0 y, y ∈ evalProv op_sem cat db0 q ↔
      y ∈ raw_prov op_sem cat (map (evalProvRTE op_sem cat db0) (rtable q)) q) as Hraw.
    { intros db0 y. rewrite evalProv_eq by (by eapply spj_unlimited || by eapply te_ok_shown, (spj_targets _ _ Hs)). unfold dedup_if.
      destruct (distinctClause q); [done|]. split; [apply dedup_on_in|]. intros Hy.
      destruct (dedup_on_covers id [] _ y Hy) as [?%elem_of_nil|(z & Hz & E)]; [done|]. cbn in E. by subst. }
    destruct (raw_replayed q x Hs Hin') as [H1 H2]; [|by apply Hraw|].
    + intros i r y Hr. eapply (rt_fetch_Forall _ _ _ _ IH Hr);
        [by eapply (rt_fetch_Forall _ _ _ _ Hrt)|by eapply (rt_fetch_Forall _ _ _ _ Hsub)].
    + split; [done|]. intros db' Hdb'. by apply Hraw, H2.
  - intros k rel sub IH ft vt jt av al er pb pa x Hr Hin Hx.
    pose proof (rte_ok_spec cat _ Hr) as (_ & _ & _ & _ & [(Hk & _ & _ & _)|[(Hk & s & Hs & Hsp)|Hk]]);
      cbn [rtekind subquery] in *; subst; [| |by apply elem_of_nil in Hx].
    + apply list_elem_of_fmap in Hx as (t & -> & Ht). unfold replayed. cbn [rte_accesses rtekind relid cut snd evalProvRTE].
      rewrite firstn_all2 by by rewrite (db_ok rel t Ht). split.
      * by intros p ->%list_elem_of_singleton.
      * intros db' H. apply list_elem_of_fmap. exists t. split; [done|]. apply (H (rel, t)). by left.
    + apply option_all_Some in IH. by apply IH.
Qed.

End rows.

End replay.

End ProvReplay.
