(* ===== verification/RewriteProps.v ===== *)
(** * What the provenance rewriter guarantees

    The properties of [rewriteQueryNode] on well-formed queries: the rewritten query
    computes the provenance of the original one, its other columns are the original result, and the provenance it
    returns is enough to run the query again. *)

From Stdlib Require Import ZArith Lia.
From stdpp Require Import base strings numbers list sets.
From S2P Require Import Prelude ProvStack AttrName QueryTree SqlSemantics SqlFacts Queries ProvWitness Sublevels.
From S2P Require Import RewriteSPJ RewriteAggr RewriteSet RewriteNode RewriteFacts SetFacts NodeFacts ProvReplay.
Import QueryTree SqlSemantics SqlFacts Queries ProvWitness Sublevels RewriteSPJ RewriteAggr RewriteSet RewriteNode.
Import RewriteFacts SetFacts NodeFacts ProvReplay.

Module RewriteProps.

(** Every tuple of a relation has a value for each attribute of the relation. *)
Definition fits (cat : syscache) (db : Z → list tuple) : Prop :=
  ∀ i t, t ∈ db i → length t = length (rd_att cat i).

(** The database made of the tuples in the provenance columns of [rows]; the columns of the
    query itself are the first [n]. *)
Definition packaged (cat : syscache) (rels : list Z) (n : nat) (rows : list tuple) (i : Z) : list tuple :=
  snd <$> filter (λ p, p.1 = i) (rows ≫= λ t, cut cat rels (drop n t)).

Lemma elem_of_packaged cat rels n rows i t :
  t ∈ packaged cat rels n rows i ↔ ∃ r, r ∈ rows ∧ (i, t) ∈ cut cat rels (drop n r).
Proof.
  unfold packaged. rewrite list_elem_of_fmap. split.
  - intros ([j u] & -> & [Hj (r & Hp & Hr)%list_elem_of_bind]%list_elem_of_filter). cbn in *. subst. by exists r.
  - intros (r & Hr & Hp). exists (i, t). split; [done|]. apply list_elem_of_filter. split; [done|].
    apply list_elem_of_bind. by exists r.
Qed.

Section rewriter.
Context (op_sem : operators) (cat : syscache).
Context `{Hagg : AggSublinks} {Hlaws : AggSublinksLaws} `{Hspj : SpjHelpers}.

Abbreviation rewriteNode := (rewriteQueryNode cat true false).
Abbreviation evalQ := (evalQuery op_sem cat).
Abbreviation provQ := (evalProv op_sem cat).

(** The rewriter is a function of the query: its result is right for every database. *)
Lemma rewritten_eval q fuel st q' st' db :
  query_ok cat q = true → (need q ≤ fuel)%nat → rewriteNode fuel q st = Ok (q', st') → fits cat db →
  evalQ db q' = flatten <$> provQ db q.
Proof.
  intros Hq Hf E Hdb. edestruct (rewriteQueryNode_ok op_sem cat db Hdb) as (q2 & st2 & pl & E2 & _ & Hr); [done..|].
  rewrite E in E2. injection E2 as <- <-. apply (qr_eval _ _ _ _ _ _ Hr).
Qed.

Lemma empty_fits : fits cat (λ _, []).
Proof. by intros i t ?%elem_of_nil. Qed.

Lemma flatten_parts db q p :
  query_ok cat q = true → fits cat db → p ∈ provQ db q →
  take (out_width q) (flatten p) = p.1 ∧ drop (out_width q) (flatten p) = p.2.
Proof.
  intros Hq Hdb Hp. pose proof (evalProv_widths op_sem cat db Hdb q Hq) as HF. rewrite Forall_forall in HF.
  destruct (HF p Hp) as [H1 _]. unfold flatten. by rewrite <- H1, take_app_length, drop_app_length.
Qed.

(** The tuples of a witness, in the packaged database. *)
Lemma witness_packaged db q x :
  query_ok cat q = true → fits cat db → x ∈ provQ db q → ∀ p, p ∈ cut cat (accesses q) x.2 →
  p.2 ∈ packaged cat (accesses q) (out_width q) (flatten <$> provQ db q) p.1.
Proof.
  intros Hq Hdb Hx p Hp. apply elem_of_packaged. exists (flatten x). split; [by apply list_elem_of_fmap_2|].
  destruct (flatten_parts db q x Hq Hdb Hx) as [_ ->]. by destruct p.
Qed.

(** A packaged database is part of the database it was taken from. *)
Lemma packaged_sub db q i t :
  query_ok cat q = true → inner_only q = true → fits cat db →
  t ∈ packaged cat (accesses q) (out_width q) (flatten <$> provQ db q) i → t ∈ db i.
Proof.
  intros Hq Hi Hdb (r & (x & -> & Hx)%list_elem_of_fmap & Hp)%elem_of_packaged.
  rewrite (proj2 (flatten_parts db q x Hq Hdb Hx)) in Hp.
  destruct (evalProv_replayed op_sem cat db Hdb q x Hq Hi Hx) as [H _]. exact (H _ Hp).
Qed.

(** On a database between the package and the full database, the rows with their witnesses are the same. *)
Lemma package_rows db q x :
  query_ok cat q = true → inner_only q = true → fits cat db →
  let pkg := packaged cat (accesses q) (out_width q) (flatten <$> provQ db q) in
  x ∈ provQ pkg q ↔ x ∈ provQ db q.
Proof.
  intros Hq Hi Hdb pkg.
  assert (fits cat pkg) as Hpkg by (intros i t Ht; by eapply Hdb, packaged_sub). split; intros Hx.
  - destruct (evalProv_replayed op_sem cat pkg Hpkg q x Hq Hi Hx) as [H1 H2]. apply H2.
    intros p Hp. by apply (packaged_sub db q), H1.
  - destruct (evalProv_replayed op_sem cat db Hdb q x Hq Hi Hx) as [_ H2]. apply H2. by apply witness_packaged.
Qed.

(** ** The claims *)

(** C1: [rewriteQueryNode] implements provenance.  For every well-formed query (base
    relations, nested subqueries, inner and outer joins of any shape, DISTINCT, LIMIT and OFFSET; aggregation with GROUP BY and HAVING;
    trees of UNION, INTERSECT and EXCEPT, with and without ALL) rewriting succeeds, whatever is on
    the stacks; it pushes one list of provenance attributes, numbered after the columns of the query;
    and over every database the rewritten query returns exactly the rows of the original query, each followed by
    its witness: the tuples of the base relations it was computed from. *)
Theorem rewrite_computes_provenance q fuel st :
  query_ok cat q = true → (need q ≤ fuel)%nat →
  ∃ q' st' pl, rewriteNode fuel q st = Ok (q', st') ∧ pStack st' = pl :: pStack st ∧
    resno <$> pl = cols_from (Z.of_nat (out_width q) + 1) (prov_width cat q) ∧
    ∀ db, fits cat db → evalQ db q' = flatten <$> provQ db q.
Proof.
  intros Hq Hf.
  edestruct (rewriteQueryNode_ok op_sem cat _ empty_fits) as (q' & st' & pl & E & Hp & Hr); [done..|].
  exists q', st', pl. split_and!; [done..|apply (qr_resno _ _ _ _ _ _ Hr)|].
  intros db Hdb. by eapply rewritten_eval.
Qed.

(** C5: Asking for provenance does not change the answer.  The first columns of the rewritten query's result are
    the result of the original query: row by row and in the same order when no DISTINCT, grouping or set operation is
    involved, and as a set in every case (otherwise a row is repeated once per witness). *)
Theorem rewrite_preserves_result q fuel st q' st' db :
  query_ok cat q = true → (need q ≤ fuel)%nat → rewriteNode fuel q st = Ok (q', st') → fits cat db →
  let n := out_width q in
  (single_witness q = true → take n <$> evalQ db q' = evalQ db q) ∧
  (∀ t, t ∈ evalQ db q ↔ ∃ t', t' ∈ evalQ db q' ∧ take n t' = t).
Proof.
  intros Hq Hf E Hdb. cbv zeta. rewrite (rewritten_eval q fuel st q' st' db Hq Hf E Hdb). split.
  - intros Hd. rewrite <- (evalProv_values op_sem cat db q Hq Hd), <- list_fmap_compose.
    apply list_fmap_ext. intros k p Hk%list_elem_of_lookup_2. by apply (flatten_parts db).
  - destruct (evalProv_covers op_sem cat db q Hq) as [H1 H2]. intros t. split.
    + intros (p & Hp & <-)%H2. exists (flatten p). split; [by apply list_elem_of_fmap_2|]. by apply (flatten_parts db).
    + intros (t' & (p & -> & Hp)%list_elem_of_fmap & <-). destruct (H1 p Hp) as (t & Ht & <-).
      by rewrite (proj1 (flatten_parts db q p Hq Hdb Hp)).
Qed.

(** C9: The provenance of a row is enough to compute the row again.  For a query of inner joins without aggregation, set operations and LIMIT, the
    provenance columns of each row hold tuples of the base relations the query reads, and every other database
    that contains these tuples gives the same row with the same provenance. *)
Theorem witness_replays q fuel st q' st' db t :
  query_ok cat q = true → inner_only q = true → (need q ≤ fuel)%nat →
  rewriteNode fuel q st = Ok (q', st') → fits cat db → t ∈ evalQ db q' →
  let w := drop (out_width q) t in
  (∀ p, p ∈ cut cat (accesses q) w → p.2 ∈ db p.1) ∧
  (∀ db', fits cat db' → (∀ p, p ∈ cut cat (accesses q) w → p.2 ∈ db' p.1) → t ∈ evalQ db' q').
Proof.
  intros Hq Hi Hf E Hdb Ht. rewrite (rewritten_eval q fuel st q' st' db Hq Hf E Hdb) in Ht.
  apply list_elem_of_fmap in Ht as (x & -> & Hx). destruct (flatten_parts db q x Hq Hdb Hx) as [_ ->].
  destruct (evalProv_replayed op_sem cat db Hdb q x Hq Hi Hx) as [H1 H2]. split; [done|].
  intros db' Hdb' H. rewrite (rewritten_eval q fuel st q' st' db' Hq Hf E Hdb').
  by apply list_elem_of_fmap_2, H2.
Qed.

(** C10: A package of the provenance replaces the database.  Let [pkg] be the database made of the tuples in the
    provenance columns of the rewritten query's result, and nothing else.  Over [pkg] a query built from
    inner joins returns the rows it returned over the full database, and the rewritten query returns the same
    rows with the same provenance. *)
Theorem package_suffices q fuel st q' st' db :
  query_ok cat q = true → inner_only q = true → (need q ≤ fuel)%nat →
  rewriteNode fuel q st = Ok (q', st') → fits cat db →
  let pkg := packaged cat (accesses q) (out_width q) (evalQ db q') in
  (∀ i t, t ∈ pkg i → t ∈ db i) ∧
  (∀ t, t ∈ evalQ pkg q' ↔ t ∈ evalQ db q') ∧ (∀ t, t ∈ evalQ pkg q ↔ t ∈ evalQ db q).
Proof.
  intros Hq Hi Hf E Hdb. rewrite (rewritten_eval q fuel st q' st' db Hq Hf E Hdb). intros pkg.
  assert (∀ i t, t ∈ pkg i → t ∈ db i) as Hsub by (intros i t; by apply packaged_sub).
  assert (fits cat pkg) as Hpkg by (intros i t Ht; by eapply Hdb, Hsub).
  pose proof (package_rows db q) as Hrows. split; [done|]. split; intros t.
  - rewrite (rewritten_eval q fuel st q' st' pkg Hq Hf E Hpkg), !list_elem_of_fmap.
    split; intros (x & -> & Hx); exists x; (split; [done|]); by apply Hrows.
  - destruct (evalProv_covers op_sem cat pkg q Hq) as [P1 P2], (evalProv_covers op_sem cat db q Hq) as [D1 D2].
    split; [intros (x & Hx & <-)%P2|intros (x & Hx & <-)%D2].
    + destruct (D1 x) as (t & Ht & <-); [by apply Hrows|done].
    + destruct (P1 x) as (t & Ht & <-); [by apply Hrows|done].
Qed.

(** C22: The rewritten query is well-formed.  Its target list is numbered by position, all its columns are visible and
    have names, no variable refers to an outer query, and every row it returns has a value for each column: those of
    the original query and then the provenance columns. *)
Theorem rewrite_well_formed q fuel st q' st' :
  query_ok cat q = true → (need q ≤ fuel)%nat → rewriteNode fuel q st = Ok (q', st') →
  let n := (out_width q + prov_width cat q)%nat in
  resno <$> targetList q' = cols_from 1 n ∧ Forall (λ te, resjunk te = false ∧ is_Some (resname te)) (targetList q') ∧
  level0 q' = true ∧ ∀ db, fits cat db → Forall (λ t, length t = n) (evalQ db q').
Proof.
  intros Hq Hf E n.
  edestruct (rewriteQueryNode_ok op_sem cat _ empty_fits) as (q2 & st2 & pl & E2 & _ & Hr); [done..|].
  rewrite E in E2. injection E2 as <- <-. destruct Hr as [_ _ Ht Hs Hl _ _]. split_and!; [done..|].
  intros db Hdb. rewrite (rewritten_eval q fuel st q' st' db Hq Hf E Hdb). apply Forall_fmap.
  eapply Forall_impl; [by apply evalProv_widths|]. intros p [H1 H2]. unfold compose, flatten. rewrite length_app, H1, H2. done.
Qed.

End rewriter.

(** ** Examples *)
Section example.

Definition cat0 : syscache := mkCache
  (AttrName.mkCatalog (λ _, Some "public") (λ i, if decide (i = 1)%Z then Some "r" else Some "s"))
  (λ _, [mkAttr "a" 23 (-1) false; mkAttr "b" 23 (-1) false]) (λ _, 97%Z)
  (λ t, if decide (t = 23)%Z then Some (96, 16)%Z else if decide (t = 20)%Z then Some (410, 16)%Z else None)
  (λ _, None).

Definition col (n a : Z) : Var := makeVar n a 23 (-1) 0.
Definition rel0 (i : Z) (name : string) : RangeTblEntry :=
  mkRangeTblEntry RTE_RELATION i None TYPEFUNC_OTHER [] JOIN_INNER [] None (mkAlias name [Some "a"; Some "b"]) false [].
Definition join0 (jt : JoinType) : RangeTblEntry :=
  mkRangeTblEntry RTE_JOIN 0 None TYPEFUNC_OTHER [] jt [col 1 1; col 1 2; col 2 1; col 2 2] None
    (mkAlias "j" [Some "a"; Some "b"; Some "a"; Some "b"]) false [].
Definition eq0 (v w : Var) : Expr := EOpExpr 96 16 [EVar v; EVar w].
Definition subquery0 (q : Query) (name : string) (cols : list string) : RangeTblEntry :=
  mkRangeTblEntry RTE_SUBQUERY 0 (Some q) TYPEFUNC_OTHER [] JOIN_INNER [] (Some (mkAlias name []))
    (mkAlias name (Some <$> cols)) false [].

(** [SELECT x.a FROM r AS x, (SELECT DISTINCT a FROM r LEFT JOIN s ON r.b = s.a) AS sub WHERE x.a = sub.a], and
    the same query with other joins and without DISTINCT. *)
Definition sub0 (jt : JoinType) (d : bool) : Query :=
  mkQuery CMD_SELECT false false [rel0 1 "r"; rel0 2 "s"; join0 jt]
    [JoinExpr jt (RangeTblRef 1) (RangeTblRef 2) (Some (eq0 (col 1 2) (col 2 1))) 3] None
    [mkTE (EVar (col 3 1)) 1 (Some "a") (if d then 1 else 0) 0 0 false] [] None
    (if d then [mkSort 1 97 false] else []) [] None None None false true.
Definition query0 (jt : JoinType) (d : bool) : Query :=
  mkQuery CMD_SELECT false false [rel0 1 "x"; subquery0 (sub0 jt d) "sub" ["a"]]
    [RangeTblRef 2; RangeTblRef 1] (Some (eq0 (col 1 1) (col 2 1)))
    [mkTE (EVar (col 1 1)) 1 (Some "a") 0 0 0 false] [] None [] [] None None None false true.

(** [SELECT a, count(b) FROM q GROUP BY a HAVING count(b) = 2], where [q] has columns [a] and [b]. *)
Definition count0 : Expr := EAggref 2147 20 [EVar (col 1 2)] 0 false false.
Definition agg0 (q : RangeTblEntry) : Query :=
  mkQuery CMD_SELECT true false [q] [RangeTblRef 1] None
    [mkTE (EVar (col 1 1)) 1 (Some "a") 1 0 0 false; mkTE count0 2 (Some "count") 0 0 0 false]
    [mkSort 1 97 false] (Some (EOpExpr 410 16 [count0; EConst 20 (-1) (Some 2%Z)])) [] [] None None None false true.

(** [SELECT a, b FROM i] and trees of set operations of such queries. *)
Definition scan_query0 (i : Z) : Query :=
  mkQuery CMD_SELECT false false [rel0 i "t"] [RangeTblRef 1] None
    [mkTE (EVar (col 1 1)) 1 (Some "a") 0 0 0 false; mkTE (EVar (col 1 2)) 2 (Some "b") 0 0 0 false]
    [] None [] [] None None None false true.
Definition scan0 (i : Z) : RangeTblEntry := subquery0 (scan_query0 i) "t" ["a"; "b"].
Definition set0 (rtes : list RangeTblEntry) (t : SetOpNode) : Query :=
  mkQuery CMD_SELECT false false rtes [] None
    [mkTE (EVar (col 1 1)) 1 (Some "a") 0 0 0 false; mkTE (EVar (col 1 2)) 2 (Some "b") 0 0 0 false]
    [] None [] [] None None (Some t) false true.

(** [(SELECT a, b FROM r UNION SELECT a, b FROM s) EXCEPT ALL SELECT a, b FROM s], then the aggregation above. *)
Definition except0 : Query :=
  set0 [scan0 1; scan0 2; scan0 2]
    (SetOperationStmt SETOP_EXCEPT true (SetOperationStmt SETOP_UNION false (SetOpRef 1) (SetOpRef 2)) (SetOpRef 3)).
Definition query3 : Query := agg0 (subquery0 except0 "u" ["a"; "b"]).

(** The operator [=], the function [count] and two small tables. *)
Definition ops0 : operators := mkOps
  (λ _ args, match args with [Some a; Some b] => of_bool (bool_decide (a = b)) | _ => None end)
  (λ _ rows, Some (Z.of_nat (length (filter (λ t, t ≠ [None]) rows))))
  (λ _ _, None).
Definition db0 (i : Z) : list tuple :=
  if decide (i = 1)%Z then [[Some 1; Some 5]; [Some 2; Some 6]; [Some 1; Some 7]]%Z
  else if decide (i = 2)%Z then [[Some 5; Some 50]; [Some 5; Some 51]; [Some 9; Some 52]]%Z else [].
Definition start0 : rewriter := mkRw [] false [] (AttrName.mkCounters [] []) ProvStack.resetUniqueNameGens.

End example.

(** Queries without sublinks do not reach the helpers for them. *)
#[export] Instance no_sublinks : AggSublinks :=
  {| findSublinksAgg := λ _, false; findSublinksWhere := λ _, false; transformAggWithSublinks := ret |}.
#[export] Instance no_sublinks_laws : AggSublinksLaws.
Proof. done. Qed.
#[export] Instance no_helpers : SpjHelpers := {| rewriteSublinks := λ _ q, ret (q, []) |}.

Definition rewrite0 (q : Query) : outcome (Query * rewriter) := rewriteQueryNode cat0 true false (need q) q start0.
Definition rewritten0 (q : Query) : Query := match rewrite0 q with Ok (q', _) => q' | Err _ => q end.
Definition stacks0 (q : Query) : rewriter := match rewrite0 q with Ok (_, st) => st | Err _ => start0 end.

Lemma fits0 : fits cat0 db0.
Proof.
  intros i t. unfold db0. repeat case_decide; rewrite ?elem_of_cons; intros Ht; destruct_or? Ht; subst; try done.
  all: by apply elem_of_nil in Ht.
Defined.

(** Names and rows of the rewritten examples. *)
Example rewrite0_rows :
  resname <$> targetList (rewritten0 (query0 JOIN_LEFT true)) =
    [Some "a"; Some "prov_public_r_a"; Some "prov_public_r_b"; Some "prov_public_r_1_a"; Some "prov_public_r_1_b";
     Some "prov_public_s_a"; Some "prov_public_s_b"] ∧
  length (evalQuery ops0 cat0 db0 (rewritten0 (query0 JOIN_LEFT true))) = 7%nat.
Proof. split; vm_compute; reflexivity. Qed.

Example rewrite3_rows :
  resname <$> targetList (rewritten0 query3) =
    [Some "a"; Some "count"; Some "prov_public_r_a"; Some "prov_public_r_b"; Some "prov_public_s_a"; Some "prov_public_s_b";
     Some "prov_public_s_1_a"; Some "prov_public_s_1_b"] ∧
  evalQuery ops0 cat0 db0 (rewritten0 query3) =
    [[Some 1; Some 2; Some 1; Some 5; None; None; Some 5; Some 50];
     [Some 1; Some 2; Some 1; Some 5; None; None; Some 5; Some 51];
     [Some 1; Some 2; Some 1; Some 5; None; None; Some 9; Some 52];
     [Some 1; Some 2; Some 1; Some 7; None; None; Some 5; Some 50];
     [Some 1; Some 2; Some 1; Some 7; None; None; Some 5; Some 51];
     [Some 1; Some 2; Some 1; Some 7; None; None; Some 9; Some 52]]%Z.
Proof. split; vm_compute; reflexivity. Qed.

Lemma rewrite_computes_provenance_witness :
  ∃ q' st' pl, rewrite0 query3 = Ok (q', st') ∧ pStack st' = pl :: [] ∧
    evalQuery ops0 cat0 db0 q' = flatten <$> evalProv ops0 cat0 db0 query3.
Proof.
  destruct (rewrite_computes_provenance ops0 cat0 query3 (need query3) start0) as (q' & st' & pl & E & Hp & _ & H).
  - vm_compute. reflexivity.
  - vm_compute. lia.
  - exists q', st', pl. split; [exact E|]. split; [exact Hp|]. apply H. exact fits0.
Defined.

Lemma rewrite_preserves_result_witness :
  take 1 <$> evalQuery ops0 cat0 db0 (rewritten0 (query0 JOIN_LEFT false)) =
    evalQuery ops0 cat0 db0 (query0 JOIN_LEFT false).
Proof.
  apply (rewrite_preserves_result ops0 cat0 (query0 JOIN_LEFT false) (need (query0 JOIN_LEFT false)) start0
    (rewritten0 (query0 JOIN_LEFT false)) (stacks0 (query0 JOIN_LEFT false)) db0).
  - vm_compute. reflexivity.
  - vm_compute. lia.
  - vm_compute. reflexivity.
  - exact fits0.
  - vm_compute. reflexivity.
Defined.

Lemma rewrite_well_formed_witness : level0 (rewritten0 query3) = true ∧ length (targetList (rewritten0 query3)) = 8%nat.
Proof.
  destruct (rewrite_well_formed ops0 cat0 query3 (need query3) start0 (rewritten0 query3) (stacks0 query3)) as (Hn & _ & Hl & _).
  - vm_compute. reflexivity.
  - vm_compute. lia.
  - vm_compute. reflexivity.
  - split; [exact Hl|]. apply (f_equal length) in Hn. rewrite length_fmap in Hn. rewrite Hn. vm_compute. reflexivity.
Defined.

Lemma witness_replays_witness :
  let t := [Some 1; Some 1; Some 5; Some 1; Some 5; Some 5; Some 50]%Z in
  t ∈ evalQuery ops0 cat0 (λ i, if decide (i = 1)%Z then [[Some 1; Some 5]] else [[Some 5; Some 50]])%Z
    (rewritten0 (query0 JOIN_INNER true)).
Proof.
  intros t.
  apply (witness_replays ops0 cat0 (query0 JOIN_INNER true) (need (query0 JOIN_INNER true)) start0
    (rewritten0 (query0 JOIN_INNER true)) (stacks0 (query0 JOIN_INNER true)) db0 t).
  - vm_compute. reflexivity.
  - vm_compute. reflexivity.
  - vm_compute. lia.
  - vm_compute. reflexivity.
  - exact fits0.
  - apply (bool_decide_eq_true_1 (t ∈ _)). vm_compute. reflexivity.
  - intros i u. case_decide; intros Hu%list_elem_of_singleton; by subst.
  - apply Forall_forall, (bool_decide_eq_true_1 (Forall _ _)). vm_compute. reflexivity.
Defined.

Lemma package_suffices_witness :
  let pkg := packaged cat0 [1; 1; 2]%Z 1 (evalQuery ops0 cat0 db0 (rewritten0 (query0 JOIN_INNER true))) in
  (∀ t, t ∈ evalQuery ops0 cat0 pkg (query0 JOIN_INNER true) ↔ t ∈ evalQuery ops0 cat0 db0 (query0 JOIN_INNER true)) ∧
  ([Some 9; Some 52]%Z ∉ pkg 2%Z).
Proof.
  split.
  - apply (package_suffices ops0 cat0 (query0 JOIN_INNER true) (need (query0 JOIN_INNER true)) start0
      (rewritten0 (query0 JOIN_INNER true)) (stacks0 (query0 JOIN_INNER true)) db0).
    + vm_compute. reflexivity.
    + vm_compute. reflexivity.
    + vm_compute. lia.
    + vm_compute. reflexivity.
    + exact fits0.
  - apply (bool_decide_eq_true_1 (_ ∉ _)). vm_compute. reflexivity.
Defined.

(** ** Dropped columns

    The provenance attributes of a base relation are numbered by position, while its columns
    keep their attribute numbers when another column is dropped. *)

Definition cat1 : syscache := mkCache (names cat0)
  (λ _, [mkAttr "a" 23 (-1) true; mkAttr "b" 23 (-1) false]) (λ _, 97%Z) (equality_oper cat0) (λ _, None).
Definition query1 : Query :=
  mkQuery CMD_SELECT false false
    [mkRangeTblEntry RTE_RELATION 1 None TYPEFUNC_OTHER [] JOIN_INNER [] None (mkAlias "r" [Some ""; Some "b"]) false []]
    [RangeTblRef 1] None [mkTE (EVar (col 1 2)) 1 (Some "b") 0 0 0 false] [] None [] [] None None None false true.

(** For [SELECT PROVENANCE b FROM r], where column [a] of [r(a, b)] was dropped, the column called
    [prov_public_r_b] of the rewritten query is the dropped column. *)
Theorem dropped_column_misattributed :
  match rewriteQueryNode cat1 true false 4 query1 start0 with
  | Ok (q', _) => (λ te, (resname te, expr te)) <$> targetList q'
  | Err _ => []
  end = [(Some "b", EVar (col 1 2)); (Some "prov_public_r_b", EVar (col 1 1))] ∧
  attisdropped <$> (rd_att cat1 1 !! 0%nat) = Some true.
Proof. vm_compute. split; reflexivity. Qed.

(** ** Functions in FROM

    A function is counted among the entries with provenance, but nothing is pushed for it. *)

Definition query2 : Query :=
  mkQuery CMD_SELECT false false
    [mkRangeTblEntry RTE_FUNCTION 0 None (TYPEFUNC_SCALAR 23) [] JOIN_INNER [] None (mkAlias "f" [Some "f"]) false []]
    [RangeTblRef 1] None [mkTE (EVar (col 1 1)) 1 (Some "f") 0 0 0 false] [] None [] [] None None None false true.

(** [SELECT PROVENANCE f FROM f()] pops the empty stack. *)
Theorem function_entry_crashes :
  rewriteQueryNode cat0 true false 4 query2 start0 = Err Segv.
Proof. vm_compute. reflexivity. Qed.

End RewriteProps.
