(* ===== verification/OperatorProps.v ===== *)
(** * Provenance of aggregation and set operations

    What the rewritten query returns for a query with aggregation and for a set operation, in terms of the
    inputs; and that taking a tree of set operations apart changes nothing. *)

From Stdlib Require Import ZArith Lia.
From stdpp Require Import base strings numbers list sets.
From S2P Require Import Prelude ProvStack AttrName QueryTree SqlSemantics SqlFacts Queries ProvWitness Sublevels.
From S2P Require Import RewriteSPJ RewriteLimit RewriteAggr RewriteSet RewriteNode RewriteFacts JoinChain SetTrees SetFacts.
From S2P Require Import LimitFacts NodeFacts RewriteProps.
Import QueryTree SqlSemantics SqlFacts Queries ProvWitness Sublevels RewriteSPJ RewriteAggr RewriteSet RewriteNode.
Import RewriteLimit RewriteFacts JoinChain SetTrees SetFacts LimitFacts NodeFacts RewriteProps.

Module OperatorProps.

(** The witnesses, or NULLs if there are none. *)
Definition or_nulls (n : nat) (ws : list tuple) : list tuple := match ws with [] => [nulls n] | _ => ws end.

(** A witness from each of two lists. *)
Definition both (ws ws' : list tuple) : list tuple := ws ≫= λ u, (λ v, u ++ v) <$> ws'.

(** The witnesses of the rows with the values [t], and of the rows with other values. *)
Definition of_row (t : tuple) (l : list row) : list tuple := snd <$> filter (λ p, p.1 = t) l.
Definition of_others (t : tuple) (l : list row) : list tuple := snd <$> filter (λ p, p.1 ≠ t) l.

(** The witnesses of a row [t] of an operation on two inputs with the rows [p1] and [p2] and witnesses of [n1] and
    [n2] columns. *)
Definition binary_witnesses (op : SetOperation) (all : bool) (n1 n2 : nat) (p1 p2 : list row) (t : tuple) : list tuple :=
  match op with
  | SETOP_UNION => both (or_nulls n1 (of_row t p1)) (or_nulls n2 (of_row t p2))
  | SETOP_INTERSECT => both (of_row t p1) (of_row t p2)
  | SETOP_EXCEPT => both (of_row t p1) (or_nulls n2 (if all then of_others t p2 else snd <$> p2))
  end.

Lemma attach_first optional n ws : attach optional n ws [[]] = if optional then or_nulls n ws else ws.
Proof. unfold attach, or_nulls. csimpl. rewrite app_nil_r, list_fmap_id. by destruct ws, optional. Qed.

Lemma attach_second optional n ws acc : attach optional n ws acc = both acc (if optional then or_nulls n ws else ws).
Proof. unfold attach, both, or_nulls. apply list_bind_ext; [|done]. intros u. by destruct ws, optional. Qed.

Lemma set_witnesses_binary op all n1 n2 p1 p2 t :
  set_witnesses op all [(p1, n1); (p2, n2)] t = binary_witnesses op all n1 n2 p1 p2 t.
Proof.
  unfold set_witnesses. destruct op; cbn [set_steps length replicate zip_with foldl fst snd];
    rewrite attach_first, attach_second; cbn [binary_witnesses matching]; try done. by destruct all.
Qed.

Section rewriter.
Context (op_sem : operators) (cat : syscache).
Context `{Hagg : AggSublinks} {Hlaws : AggSublinksLaws} `{Hspj : SpjHelpers}.

Abbreviation rewriteNode := (rewriteQueryNode cat true false).
Abbreviation evalQ := (evalQuery op_sem cat).
Abbreviation provQ := (evalProv op_sem cat).

(** C11: The provenance of an aggregate is its group.  For a well-formed query with aggregation over any input, the
    rewritten query returns every row of the original query once for each row of the input of the aggregation (after
    joins and WHERE) that has the same GROUP BY values, followed by the witness of that input row; a row
    whose group is empty comes once, with NULLs. *)
Theorem aggregate_provenance q fuel st q' st' db :
  query_ok cat q = true → hasAggs q = true → (need q ≤ fuel)%nat → rewriteNode fuel q st = Ok (q', st') → fits cat db →
  let rows := limited op_sem q (agg_rows op_sem q (solve_plain op_sem cat (map (evalRTE op_sem cat db) (rtable q)) q)) in
  let input := solve_prov op_sem cat (map (evalProvRTE op_sem cat db) (rtable q)) q in
  evalQ db q = visible q <$> rows ∧
  evalQ db q' = rows ≫= λ t, (λ w, visible q t ++ w) <$>
    or_nulls (prov_width cat q) (witness q <$> filter (λ e, group_key op_sem q (vals_of fst e) = row_key q t) input).
Proof.
  intros Hq Ha Hf E Hdb rows input. rewrite (rewritten_eval op_sem cat q fuel st q' st' db Hq Hf E Hdb).
  assert (grouped q = true) as Hg by (unfold grouped; by rewrite Ha).
  apply query_ok_spec in Hq as [_ [Hq|[Hq|[t Hq]]]].
  - by rewrite (spj_grouped _ _ Hq) in Hg.
  - rewrite evalQuery_unfold, evalProv_unfold. unfold body, body_prov, distinct.
    rewrite (agg_setops _ _ Hq), (agg_distinct _ _ Hq), Hg. split; [apply limited_fmap|].
    rewrite fmap_of_bind. apply bind_ext_elem. intros t _. rewrite <- list_fmap_compose, attach_first. done.
  - by rewrite (set_grouped _ _ _ Hq) in Hg.
Qed.

(** C12: The provenance of a set operation.  For a well-formed operation on two inputs the rewritten
    query returns every row of the original query with its witnesses in the inputs: for UNION in
    one input or in both, with NULLs for an input that does not have the row; for INTERSECT in both; for EXCEPT
    a witness in the left input and, as the reason why nothing was subtracted, one for any row of the right input
    (for EXCEPT ALL, any other row). *)
Theorem setop_provenance q op all r1 r2 s1 s2 fuel st q' st' db :
  query_ok cat q = true → setOperations q = Some (SetOperationStmt op all (SetOpRef 1) (SetOpRef 2)) →
  rtable q = [r1; r2] → subquery r1 = Some s1 → subquery r2 = Some s2 →
  (need q ≤ fuel)%nat → rewriteNode fuel q st = Ok (q', st') → fits cat db →
  evalQ db q' = evalQ db q ≫= λ t, (λ w, t ++ w) <$>
    binary_witnesses op all (prov_width cat s1) (prov_width cat s2) (provQ db s1) (provQ db s2) t.
Proof.
  intros Hq Ho Hrt Hs1 Hs2 Hf E Hdb. rewrite (rewritten_eval op_sem cat q fuel st q' st' db Hq Hf E Hdb).
  pose proof (query_ok_set _ _ _ Hq Ho) as Hset. pose proof (set_inputs _ _ _ Hset) as Hin. rewrite Hrt in Hin.
  inversion Hin as [|? ? Hin1 Hin']; subst. inversion Hin' as [|? ? Hin2 _]; subst. unfold set_input_ok in Hin1, Hin2. checks.
  rewrite (evalQuery_set _ _ _ _ _ Hset), evalProv_unfold. unfold body_prov. rewrite Ho, Hrt, fmap_of_bind.
  apply bind_ext_elem. intros t _. rewrite <- list_fmap_compose. cbn [operands map app rtable].
  assert (∀ r s, rtekind r = RTE_SUBQUERY → subquery r = Some s →
    evalProvRTE op_sem cat db r = provQ db s ∧ rte_prov_width cat r = prov_width cat s) as Hrte.
  { intros r s Hk Hs. destruct r. cbn in *. by subst. }
  destruct (Hrte r1 s1) as [E1 W1]; [done..|]. destruct (Hrte r2 s2) as [E2 W2]; [done..|].
  cbn. rewrite E1, E2, W1, W2. change (default ([], 0) (rt_fetch 1 [?x; ?y])) with x.
  change (default ([], 0) (rt_fetch 2 [?x; ?y])) with y. by rewrite set_witnesses_binary.
Qed.

(** C13: LIMIT counts rows, not witnesses.  For a well-formed query with LIMIT or OFFSET in which a row can have
    several witnesses ([checkLimit]), the rewritten query returns the rows that LIMIT leaves, in their order,
    each with the witnesses of all rows with these values of the query without LIMIT; every row has at least one. *)
Theorem limit_provenance q fuel st q' st' db :
  query_ok cat q = true → grouped q = false → setOperations q = None → checkLimit q = true →
  (need q ≤ fuel)%nat → rewriteNode fuel q st = Ok (q', st') → fits cat db →
  evalQ db q' = (evalQ db q ≫= λ t, (λ w, t ++ w) <$> of_row t (provQ db (without_limit q))) ∧
  ∀ t, t ∈ evalQ db q → of_row t (provQ db (without_limit q)) ≠ [].
Proof.
  intros Hq Hg Hso Hc Hf E Hdb. rewrite (rewritten_eval op_sem cat q fuel st q' st' db Hq Hf E Hdb).
  assert (spj_query cat q) as Hs.
  { pose proof Hq as [_ [Hs|[Hs|[t Hs]]]]%query_ok_spec; [done| |].
    - by rewrite (agg_grouped _ _ Hs) in Hg.
    - by rewrite (set_tree _ _ _ Hs) in Hso. }
  rewrite (checkLimit_spec cat q Hq Hs) in Hc. rewrite (limit_prov cat op_sem db q Hs Hc), fmap_of_bind. split.
  - apply bind_ext_elem. intros t _. rewrite <- list_fmap_compose. done.
  - intros t Ht. destruct (evalProv_covers op_sem cat db q Hq) as [_ H2]. destruct (H2 t Ht) as (p & Hp & <-).
    rewrite (limit_prov cat op_sem db q Hs Hc) in Hp.
    apply list_elem_of_bind in Hp as (t' & (u & -> & Hu)%list_elem_of_fmap & _). cbn [fst]. intros H0.
    change (matching Same t' ?l) with (of_row t' l) in Hu. rewrite H0 in Hu. by apply elem_of_nil in Hu.
Qed.

(** C21: Taking the set operation tree apart is an equivalence.  [replaceSetOperationSubTrees] moves every subtree
    with another operation than the root's, and the arguments of a difference, to subqueries of their own.  It
    succeeds on every well-formed set operation without touching the stacks; what is left is a well-formed query
    with one kind of operation, and over every database it has the same rows with the same witnesses. *)
Theorem restructuring_equivalent q op all l r st :
  query_ok cat q = true → setOperations q = Some (SetOperationStmt op all l r) →
  ∃ q' l' r', replaceSetOperationSubTrees true false (S (tree_height (SetOperationStmt op all l r))) q [] op st = Ok (q', st) ∧
    query_ok cat q' = true ∧ setOperations q' = Some (SetOperationStmt op all l' r') ∧
    one_operation op l' = true ∧ one_operation op r' = true ∧
    ∀ db, evalQ db q' = evalQ db q ∧ provQ db q' = provQ db q.
Proof.
  intros Hq Ho. pose proof (query_ok_set _ _ _ Hq Ho) as Hset. pose proof (query_ok_level0 cat q Hq) as Hl0.
  destruct (shape_of _ 1 (rtable q) (set_indexes _ _ _ Hset)) as (T & HT & Ht).
  destruct T as [x|op' all' L R]; [done|]. pose proof Ht as Ht'. cbn [shape] in Ht'. injection Ht' as -> -> Hl Hr.
  exists (set_state q (restructured q (Op op all L R))). eexists _, _.
  assert (∀ db, _) as Hok by exact (λ db, restructured_ok op_sem cat db q _ Hset Hl0 op all L R HT Ht).
  split_and!.
  - rewrite <- Ht, tree_height_shape, <- (restructure_ok q false) by done.
    by rewrite (state_self cat q _ Hset Hl0 op all L R HT Ht).
  - apply (Hok (λ _, [])).
  - done.
  - apply (collapse_one q op L).
  - apply (collapse_one q op R).
  - intros db. apply (Hok db).
Qed.

End rewriter.

(** ** Examples *)

Lemma aggregate_provenance_witness :
  evalQuery ops0 cat0 db0 (rewritten0 (agg0 (rel0 1 "r"))) =
    [[Some 1; Some 2; Some 1; Some 5]; [Some 1; Some 2; Some 1; Some 7]]%Z.
Proof.
  destruct (aggregate_provenance ops0 cat0 (agg0 (rel0 1 "r")) (need (agg0 (rel0 1 "r"))) start0
    (rewritten0 (agg0 (rel0 1 "r"))) (stacks0 (agg0 (rel0 1 "r"))) db0) as [_ H].
  - vm_compute. reflexivity.
  - reflexivity.
  - vm_compute. lia.
  - vm_compute. reflexivity.
  - exact fits0.
  - rewrite H. vm_compute. reflexivity.
Defined.

(** [SELECT a, b FROM i op SELECT a, b FROM j] *)
Definition binary0 (op : SetOperation) (all : bool) (i j : Z) : Query :=
  set0 [scan0 i; scan0 j] (SetOperationStmt op all (SetOpRef 1) (SetOpRef 2)).

Lemma setop_provenance_witness :
  let q := binary0 SETOP_UNION false 1 2 in
  [Some 2; Some 6; Some 2; Some 6; None; None]%Z ∈ evalQuery ops0 cat0 db0 (rewritten0 q).
Proof.
  intros q.
  rewrite (setop_provenance ops0 cat0 q SETOP_UNION false (scan0 1) (scan0 2) (scan_query0 1) (scan_query0 2) (need q) start0 (rewritten0 q) (stacks0 q) db0).
  - apply (bool_decide_eq_true_1 (_ ∈ _)). vm_compute. reflexivity.
  - vm_compute. reflexivity.
  - reflexivity.
  - reflexivity.
  - reflexivity.
  - reflexivity.
  - vm_compute. lia.
  - vm_compute. reflexivity.
  - exact fits0.
Defined.

Lemma restructuring_equivalent_witness :
  ∃ q', replaceSetOperationSubTrees true false 3 except0 [] SETOP_EXCEPT start0 = Ok (q', start0) ∧
    length (rtable q') = 2%nat ∧ evalQuery ops0 cat0 db0 q' = db0 1.
Proof.
  destruct (restructuring_equivalent ops0 cat0 except0 SETOP_EXCEPT true
    (SetOperationStmt SETOP_UNION false (SetOpRef 1) (SetOpRef 2)) (SetOpRef 3) start0) as (q' & l' & r' & E & _ & _ & _ & _ & H).
  - vm_compute. reflexivity.
  - reflexivity.
  - exists q'. split; [exact E|]. split; [|destruct (H db0) as [-> _]; vm_compute; reflexivity].
    vm_compute in E. injection E as <-. reflexivity.
Defined.

(** [SELECT x.a FROM r AS x, (SELECT DISTINCT a FROM r JOIN s ON r.b = s.a) AS sub WHERE x.a = sub.a LIMIT n] *)
Definition limited0 (n : Z) : Query :=
  let q := query0 JOIN_INNER true in
  mkQuery (commandType q) (hasAggs q) (hasSubLinks q) (rtable q) (fromlist q) (quals q) (targetList q)
    (groupClause q) (havingQual q) (distinctClause q) (sortClause q) None (Some (EConst 20 (-1) (Some n)))
    (setOperations q) (provSublinkRewritten q) (shouldRewrite q).

Lemma limit_provenance_witness :
  length (evalQuery ops0 cat0 db0 (limited0 1)) = 1%nat ∧
  evalQuery ops0 cat0 db0 (rewritten0 (limited0 1)) =
    evalQuery ops0 cat0 db0 (limited0 1) ≫= λ t, (λ w, t ++ w) <$>
      of_row t (evalProv ops0 cat0 db0 (query0 JOIN_INNER true)).
Proof.
  split; [vm_compute; reflexivity|].
  apply (limit_provenance ops0 cat0 (limited0 1) (need (limited0 1)) start0 (rewritten0 (limited0 1)) (stacks0 (limited0 1)) db0).
  - vm_compute. reflexivity.
  - reflexivity.
  - reflexivity.
  - vm_compute. reflexivity.
  - vm_compute. lia.
  - vm_compute. reflexivity.
  - exact fits0.
Defined.

(** ** LIMIT over a set operation

    [checkForNTupleDupConstructs] does not see set operations, so LIMIT stays in the rewritten query and counts
    witnesses. *)

(** [SELECT u.a, u.b FROM (SELECT a, b FROM r UNION SELECT a, b FROM r) AS u LIMIT 2] *)
Definition query4 : Query :=
  mkQuery CMD_SELECT false false [subquery0 (binary0 SETOP_UNION false 1 1) "u" ["a"; "b"]] [RangeTblRef 1] None
    [mkTE (EVar (col 1 1)) 1 (Some "a") 0 0 0 false; mkTE (EVar (col 1 2)) 2 (Some "b") 0 0 0 false]
    [] None [] [] None (Some (EConst 20 (-1) (Some 2%Z))) None false true.

Definition db4 (i : Z) : list tuple := [[Some 1; Some 5]; [Some 1; Some 5]; [Some 2; Some 6]]%Z.

(** A row of the answer can be missing from the provenance.  The query returns two rows over a table with a
    duplicate; the rewritten query returns the first of them twice and the second not at all, whatever the
    treatment of LIMIT is in the cases [checkLimit] detects. *)
Example limit_over_union_loses_row `{SpjHelpers} :
  evalQuery ops0 cat0 db4 query4 = [[Some 1; Some 5]; [Some 2; Some 6]]%Z ∧
  match rewriteQueryNode cat0 true false 10 query4 start0 with
  | Ok (q', _) => take 2 <$> evalQuery ops0 cat0 db4 q'
  | Err _ => []
  end = [[Some 1; Some 5]; [Some 1; Some 5]]%Z.
Proof. split; vm_compute; reflexivity. Qed.

(** ** LIMIT with a hidden column

    A column that is only there for ORDER BY is in the target list, but it is not a column of the subquery;
    [handleLimit] asks for as many columns as there are target entries. *)

(** [SELECT a FROM (SELECT DISTINCT a, b FROM r) AS u ORDER BY b LIMIT 1], as part of a query with PROVENANCE *)
Definition query5 : Query :=
  mkQuery CMD_SELECT false false
    [subquery0 (mkQuery CMD_SELECT false false [rel0 1 "r"] [RangeTblRef 1] None
       [mkTE (EVar (col 1 1)) 1 (Some "a") 1 0 0 false; mkTE (EVar (col 1 2)) 2 (Some "b") 2 0 0 false]
       [] None [mkSort 1 97 false; mkSort 2 97 false] [] None None None false false) "u" ["a"; "b"]]
    [RangeTblRef 1] None
    [mkTE (EVar (col 1 1)) 1 (Some "a") 0 0 0 false; mkTE (EVar (col 1 2)) 2 (Some "b") 1 0 0 true]
    [] None [] [mkSort 1 97 false] None (Some (EConst 20 (-1) (Some 1%Z))) None false false.

(** There is one column to compare, and the second one is asked for. *)
Theorem limit_hidden_column_crashes `{SpjHelpers} :
  rewriteQueryNode cat0 true false 10 query5 start0 = Err Segv.
Proof. vm_compute. reflexivity. Qed.

End OperatorProps.
