(* ===== verification/DriverProps.v ===== *)
(** * What the driver guarantees

    A query with parts that are marked with PROVENANCE is answered as if these parts returned their rows with
    provenance; everything around them stays as it is. *)

From Stdlib Require Import ZArith Lia.
From stdpp Require Import base strings numbers list sets.
From S2P Require Import Prelude ProvStack AttrName QueryTree SqlSemantics SqlFacts Queries ProvWitness Sublevels.
From S2P Require Import RewriteSPJ RewriteAggr RewriteSet RewriteNode Driver RewriteFacts SetFacts NodeFacts RewriteProps.
Import QueryTree SqlSemantics SqlFacts Queries ProvWitness Sublevels RewriteSPJ RewriteAggr RewriteSet RewriteNode Driver.
Import RewriteFacts SetFacts NodeFacts RewriteProps.

Module DriverProps.

(** ** Evaluation depends on the values of the environment only *)

Definition env_eq (e e' : Z → tuple) : Prop := ∀ i, e i = e' i.

Section ext.
Context (op_sem : operators).
Abbreviation rowsL := (same_rows _ _ env_eq).

Lemma map_all_eq {A B} (f g : A → B) l : list_all A (λ x, f x = g x) l → map f l = map g l.
Proof. induction 1 as [|x Hx l _ IH]; [done|]. cbn. by rewrite Hx, IH. Qed.

(** Two evaluations agree on an expression and, in a branch of CASE, on its parts. *)
Definition same_at (f g : Expr → value) (x : Expr) : Prop :=
  f x = g x ∧ match x with ECaseWhen c r => f c = g c ∧ f r = g r | _ => True end.

Lemma same_map f g l : list_all Expr (same_at f g) l → map f l = map g l.
Proof. induction 1 as [|x [Hx _] l _ IH]; [done|]. cbn. by rewrite Hx, IH. Qed.

Lemma same_case f g d l : list_all Expr (same_at f g) l → case_value f d l = case_value g d l.
Proof.
  induction 1 as [|x [_ Hx] l _ IH]; [done|]. destruct x; try done. destruct Hx as [Hc Hr]. cbn. by rewrite Hc, Hr, IH.
Qed.

Lemma eval_expr_same e e' x : env_eq e e' → same_at (eval_expr op_sem e) (eval_expr op_sem e') x.
Proof.
  intros He. induction x as [v|ty tm c|op ty args Hall|b args Hall|op ty args Hall|f ty args _ lv st d|f ty k args Hall|x [IH _]|
    t x [IH _]|ty args Hall d IHd|x [IHx _] y [IHy _]]; (split; [cbn|done]); try done;
    try (by rewrite (same_map _ _ _ Hall)); try by rewrite ?He, ?IH.
  - pose proof (same_map _ _ _ Hall) as E. destruct b; [by rewrite E..|].
    destruct args as [|a [|a' args]]; [done| |done]. cbn in E. by injection E as ->.
  - rewrite (same_case _ _ _ _ Hall). destruct d as [d|]; [|done]. apply option_all_Some in IHd as [IHd _]. by rewrite IHd.
Qed.

Lemma eval_expr_ext e e' x : env_eq e e' → eval_expr op_sem e x = eval_expr op_sem e' x.
Proof. intros He. by apply eval_expr_same. Qed.

Lemma eval_qual_ext e e' q : env_eq e e' → eval_qual op_sem e q = eval_qual op_sem e' q.
Proof. destruct q as [x|]; [|done]. cbn. intros He. by rewrite (eval_expr_ext e e'). Qed.

Lemma same_rows_map {A B C} (P : A → B → Prop) (f : A → C) (g : B → C) l k :
  same_rows _ _ P l k → (∀ x y, P x y → f x = g y) → f <$> l = g <$> k.
Proof. intros H Hf. induction H as [|x y l k Hxy _ IH]; csimpl; [done|]. by rewrite (Hf x y Hxy), IH. Qed.

Lemma eval_agg_same g g' x : rowsL g g' → same_at (eval_agg op_sem g) (eval_agg op_sem g') x.
Proof.
  intros Hg. induction x as [v|ty tm c|op ty args Hall|b args Hall|op ty args Hall|f ty args _ lv st d|f ty k args Hall|x [IH _]|
    t x [IH _]|ty args Hall d IHd|x [IHx _] y [IHy _]]; (split; [cbn|done]); try done;
    try (by rewrite (same_map _ _ _ Hall)); try by rewrite ?IH.
  - destruct Hg as [|e e' g g' He _]; [done|]. by apply (eval_expr_ext e e' (EVar v)).
  - pose proof (same_map _ _ _ Hall) as E. destruct b; [by rewrite E..|].
    destruct args as [|a [|a' args]]; [done| |done]. cbn in E. by injection E as ->.
  - assert ((λ e, map (eval_expr op_sem e) args) <$> g = (λ e, map (eval_expr op_sem e) args) <$> g') as ->; [|done].
    apply (same_rows_map env_eq); [done|]. intros e e' He. apply map_ext. intros a. by apply eval_expr_ext.
  - rewrite (same_case _ _ _ _ Hall). destruct d as [d|]; [|done]. apply option_all_Some in IHd as [IHd _]. by rewrite IHd.
Qed.

Lemma eval_agg_ext g g' x : rowsL g g' → eval_agg op_sem g x = eval_agg op_sem g' x.
Proof. intros Hg. by apply eval_agg_same. Qed.

(** *** FROM *)

Section from.
Context (rows : Z → list tuple) (null null' : Z → tuple) (alias alias' : Z → list Var).
Context (Hn : env_eq null null') (Ha : ∀ i, alias i = alias' i).
Abbreviation mk := (λ (t _ _ : tuple), t).

Lemma bind_row_ext i r r' e e' : r = r' → env_eq e e' → env_eq (bind_row i r e) (bind_row i r' e').
Proof. intros -> He j. unfold bind_row. by case_decide. Qed.

Lemma bind_join_ext l r J e e' :
  env_eq e e' → env_eq (bind_join op_sem id mk alias l r J e) (bind_join op_sem id mk alias' l r J e').
Proof.
  intros He. apply bind_row_ext; [|done]. rewrite Ha. apply list_fmap_ext. intros k v _. by apply eval_expr_ext.
Qed.

Lemma nullify_ext n e e' :
  env_eq e e' → env_eq (nullify op_sem id mk null alias n e) (nullify op_sem id mk null' alias' n e').
Proof.
  revert e e'. induction n as [i|jt l IHl r IHr c J]; intros e e' He; cbn [nullify].
  - by apply bind_row_ext.
  - by apply bind_join_ext, IHr, IHl.
Qed.

Lemma or_null_ext n e e' l k :
  env_eq e e' → rowsL l k →
  rowsL (or_null op_sem id mk null alias n e l) (or_null op_sem id mk null' alias' n e' k).
Proof. intros He [|]; cbn; [by apply rel_single, nullify_ext|by constructor]. Qed.

Lemma from_ext n e e' :
  env_eq e e' → rowsL (from op_sem id mk rows null alias n e) (from op_sem id mk rows null' alias' n e').
Proof.
  revert e e'. induction n as [i|jt l IHl r IHr c J]; intros e e' He; cbn [from].
  { apply (rel_fmap same_rows (=)); [by apply Forall_Forall2_diag, Forall_true|]. intros x y ->. by apply bind_row_ext. }
  apply (rel_fmap same_rows env_eq); [|intros; by apply bind_join_ext].
  assert (∀ n' : Node, (∀ e e', env_eq e e' → rowsL (from op_sem id mk rows null alias n' e) (from op_sem id mk rows null' alias' n' e')) →
    ∀ e e', env_eq e e' →
    rowsL (List.filter (λ e, eval_qual op_sem (vals_of id e) c) (from op_sem id mk rows null alias n' e))
          (List.filter (λ e, eval_qual op_sem (vals_of id e) c) (from op_sem id mk rows null' alias' n' e'))) as Hok.
  { intros n' IH f f' Hf. apply (rel_filter env_eq); [by apply IH|]. intros x y Hxy. by apply eval_qual_ext. }
  destruct jt.
  - apply (rel_bind env_eq); [by apply IHl|]. intros x y Hxy. by apply Hok.
  - apply (rel_bind env_eq); [by apply IHl|]. intros x y Hxy. by apply or_null_ext, Hok.
  - apply rel_app.
    + apply (rel_bind env_eq); [by apply IHl|]. intros x y Hxy. by apply or_null_ext, Hok.
    + apply (rel_bind env_eq); [by apply IHr|]. intros x y Hxy. pose proof (Hok l IHl x y Hxy) as H.
      destruct H; [by apply rel_single, nullify_ext|constructor].
  - apply (rel_bind env_eq); [by apply IHr|]. intros x y Hxy. by apply or_null_ext, Hok.
Qed.

Lemma from_list_ext ns e e' :
  env_eq e e' → rowsL (from_list op_sem id mk rows null alias ns e) (from_list op_sem id mk rows null' alias' ns e').
Proof.
  revert e e'. induction ns as [|n ns IH]; intros e e' He; cbn [from_list]; [by apply rel_single|].
  apply (rel_bind env_eq); [by apply from_ext|]. intros x y Hxy. by apply IH.
Qed.

End from.

(** *** Grouping *)

Lemma group_key_ext q e e' : env_eq e e' → group_key op_sem q e = group_key op_sem q e'.
Proof. intros He. apply list_fmap_ext. intros k te _. by apply eval_expr_ext. Qed.

Lemma groups_ext q es es' : rowsL es es' → same_rows _ _ (same_rows _ _ env_eq) (groups op_sem q es) (groups op_sem q es').
Proof.
  intros H. unfold groups. destruct (groupClause q); [by apply rel_single|].
  rewrite (same_rows_map env_eq (group_key op_sem q) (group_key op_sem q) es es' H) by (intros; by apply group_key_ext).
  apply (rel_fmap same_rows (=)); [by apply Forall_Forall2_diag, Forall_true|]. intros k ? <-.
  clear -H. induction H as [|e e' es es' He _ IH]; [constructor|]. rewrite !filter_cons, (group_key_ext q e e' He).
  case_decide; [by constructor|done].
Qed.

Lemma agg_rows_ext q es es' : rowsL es es' → agg_rows op_sem q es = agg_rows op_sem q es'.
Proof.
  intros H. unfold agg_rows. apply (same_rows_map (same_rows _ _ env_eq)).
  - apply (rel_filter (same_rows _ _ env_eq)); [by apply groups_ext|]. intros g g' Hg. unfold having.
    destruct (havingQual q); [|done]. by rewrite (eval_agg_ext g g').
  - intros g g' Hg. apply list_fmap_ext. intros k te _. by apply eval_agg_ext.
Qed.

(** Queries that differ in their range tables, but not in the widths of the entries and the columns of the joins. *)
Lemma body_ext cat tabs q rtes :
  env_eq (null_tuple cat (set_rtable rtes q)) (null_tuple cat q) → (∀ i, aliases (set_rtable rtes q) i = aliases q i) →
  body op_sem cat tabs (set_rtable rtes q) = body op_sem cat tabs q.
Proof.
  intros Hn Ha. unfold body. cbn [setOperations set_rtable]. destruct (setOperations q); [done|].
  assert (rowsL (solve_plain op_sem cat tabs (set_rtable rtes q)) (solve_plain op_sem cat tabs q)) as H.
  { apply (rel_filter env_eq); [by apply from_list_ext|]. intros e e' He. by apply eval_qual_ext. }
  change (grouped (set_rtable rtes q)) with (grouped q). destruct (grouped q); [by apply (agg_rows_ext q)|].
  apply (same_rows_map env_eq); [done|]. intros e e' He. apply list_fmap_ext. intros k te _. by apply eval_expr_ext.
Qed.

End ext.

(** ** The columns the parser added *)

(** The columns before the first one with the name of a provenance attribute. *)
Fixpoint own_columns (tl : list TargetEntry) : list TargetEntry :=
  match tl with [] => [] | te :: tl => if AttrName.isProvAttr (resname te) then [] else te :: own_columns tl end.

Lemma truncate_done cells pos l : (length l ≤ pos)%nat → truncate_cells cells pos l = l.
Proof.
  revert pos. induction cells as [|te cells IH]; intros pos Hl; cbn [truncate_cells]; [done|].
  unfold list_truncate. rewrite take_ge by done. destruct (AttrName.isProvAttr _); apply IH; lia.
Qed.

Lemma truncate_cells_spec pre cells : truncate_cells cells (length pre) (pre ++ cells) = pre ++ own_columns cells.
Proof.
  revert pre. induction cells as [|te cells IH]; intros pre; cbn [truncate_cells own_columns]; [done|].
  destruct (AttrName.isProvAttr (resname te)).
  - unfold list_truncate. rewrite take_app_length, app_nil_r. apply truncate_done. lia.
  - specialize (IH (pre ++ [te])). rewrite length_app, Nat.add_comm, <- !(assoc_L (++)) in IH. exact IH.
Qed.

(** The query the user asked for. *)
Definition asked (q : Query) : Query := set_targetList (own_columns (targetList q)) q.

Lemma removeDummy_spec q : removeDummyProvenanceTEs q = asked q.
Proof. unfold removeDummyProvenanceTEs, asked. f_equal. exact (truncate_cells_spec [] (targetList q)). Qed.

(** ** The answer to a query with marked parts *)

Section driver.
Context (op_sem : operators) (cat : syscache) (fuel : nat).
Context `{Hagg : AggSublinks} {Hlaws : AggSublinksLaws} `{Hspj : SpjHelpers}.
Abbreviation evalQ := (evalQuery op_sem cat).

(** The marked parts are well-formed, and the parser added as many columns as their provenance has. *)
Fixpoint marked_ok (q : Query) : bool :=
  if shouldRewrite q then
    query_ok cat (asked q) && bool_decide (need (asked q) ≤ fuel)%nat &&
    bool_decide (out_width q = out_width (asked q) + prov_width cat (asked q))%nat
  else forallb marked_rte (rtable q)
with marked_rte (r : RangeTblEntry) : bool :=
  match rtekind r with
  | RTE_SUBQUERY => match subquery r with Some q => marked_ok q | None => false end
  | _ => true
  end.

(** A marked query returns its rows followed by their witnesses. *)
Fixpoint answers (db : Z → list tuple) (q : Query) : list tuple :=
  if shouldRewrite q then flatten <$> evalProv op_sem cat db (asked q)
  else limited op_sem q (visible q <$> distinct q (distinct_key q) (body op_sem cat (map (answers_rte db) (rtable q)) q))
with answers_rte (db : Z → list tuple) (r : RangeTblEntry) : list tuple :=
  match rtekind r with
  | RTE_RELATION => db (relid r)
  | RTE_SUBQUERY => match subquery r with Some q => answers db q | None => [] end
  | _ => []
  end.

Lemma answers_unmarked db q : hasProvenanceSubquery q = false → answers db q = evalQ db q.
Proof.
  revert q. apply (Query_tree_ind (λ q, hasProvenanceSubquery q = false → answers db q = evalQ db q)
    (λ r, provenance_rte r = false → answers_rte db r = evalRTE op_sem cat db r)).
  - intros ct ha hs rt IH fl qs tl gc hv dc sc lo lc so pr sr H. cbn in H. destruct sr; [done|]. cbn [answers shouldRewrite].
    rewrite evalQuery_unfold. do 4 f_equal. cbn [rtable]. apply map_all_eq.
    induction IH as [|r Hr l _ IHl]; [constructor|]. cbn in H. apply orb_false_iff in H as [H1 H2]. constructor; auto.
  - intros k rel sub IH ft vt jt av al er pb pa H. destruct k; try done. destruct sub as [q|]; [|done].
    apply option_all_Some in IH. by apply IH.
Qed.

(** One marked query. *)
Lemma marked_query_ok q st :
  query_ok cat q = true → (need q ≤ fuel)%nat →
  ∃ q' st', rewriteQueryNode cat true false fuel q st = Ok (q', st') ∧
    out_width q' = (out_width q + prov_width cat q)%nat ∧
    ∀ db, fits cat db → evalQ db q' = flatten <$> evalProv op_sem cat db q.
Proof.
  intros Hq Hf. edestruct (rewriteQueryNode_ok op_sem cat _ (empty_fits cat) q fuel Hq Hf st) as (q' & st' & pl & E & _ & Hr).
  exists q', st'. split; [done|]. split.
  - rewrite out_width_all; [by eapply rw_length|]. eapply Forall_impl; [exact (qr_shown _ _ _ _ _ _ Hr)|]. by intros te [].
  - intros db Hdb. by eapply rewritten_eval.
Qed.

(** Entries that look the same from outside. *)
Definition rte_done (r r' : RangeTblEntry) : Prop :=
  rte_width cat r' = rte_width cat r ∧ joinaliasvars r' = joinaliasvars r ∧
  ∀ db, fits cat db → evalRTE op_sem cat db r' = answers_rte db r.

Lemma rtable_done q rtes db :
  Forall2 rte_done (rtable q) rtes → fits cat db → shouldRewrite q = false →
  evalQ db (set_rtable rtes q) = answers db q.
Proof.
  intros H Hdb Hm. rewrite evalQuery_unfold.
  assert (answers db q = limited op_sem q (visible q <$> distinct q (distinct_key q)
    (body op_sem cat (map (answers_rte db) (rtable q)) q))) as -> by (destruct q; cbn in Hm |- *; by rewrite Hm).
  change (rtable (set_rtable rtes q)) with rtes.
  assert (map (evalRTE op_sem cat db) rtes = map (answers_rte db) (rtable q)) as ->.
  { clear -H Hdb. induction H as [|r r' l k (_ & _ & Hr) _ IH]; [done|]. cbn. by rewrite Hr, IH. }
  rewrite body_ext; [done|..]; intros i; unfold null_tuple, aliases; cbn [rtable set_rtable]; unfold rt_fetch;
    (case_decide; [|done]); destruct (rtable q !! Z.to_nat (i - 1)) as [r|] eqn:E.
  1,3: destruct (Forall2_lookup_l _ _ _ _ _ H E) as (r' & -> & Hw & Ha & _); congruence.
  all: rewrite lookup_ge_None in E; rewrite (Forall2_length _ _ _ H) in E; by rewrite lookup_ge_None_2.
Qed.

Lemma traverse_ok q st :
  marked_ok q = true →
  ∃ q' st', traverseQueryTree cat true false fuel q st = Ok (q', st') ∧ out_width q' = out_width q ∧
    ∀ db, fits cat db → evalQ db q' = answers db q.
Proof.
  revert q st. apply (Query_tree_ind
    (λ q, ∀ st, marked_ok q = true → ∃ q' st', traverseQueryTree cat true false fuel q st = Ok (q', st') ∧
      out_width q' = out_width q ∧ ∀ db, fits cat db → evalQ db q' = answers db q)
    (λ r, ∀ st, marked_rte r = true → ∃ r' st', traverse_rte cat true false fuel r st = Ok (r', st') ∧ rte_done r r')).
  - intros ct ha hs rt IH fl qs tl gc hv dc sc lo lc so pr sr st H. set (q := mkQuery ct ha hs rt fl qs tl gc hv dc sc lo lc so pr sr) in *.
    destruct sr.
    + change (query_ok cat (asked q) && bool_decide (need (asked q) ≤ fuel)%nat &&
        bool_decide (out_width q = out_width (asked q) + prov_width cat (asked q))%nat = true) in H.
      rewrite !andb_true_iff in H. destruct H as [[Hok Hf%bool_decide_eq_true_1] Hw%bool_decide_eq_true_1].
      destruct (marked_query_ok (asked q) (mkRw (pStack st) (baseRelStackActive st) (baseRelStack st) (AttrName.mkCounters [] [])
        ProvStack.resetUniqueNameGens) Hok Hf) as (q' & st' & E & Hw' & He). exists q', st'.
      split; [|split; [congruence|done]]. change (traverseQueryTree cat true false fuel q st) with
        (bind reset_names (λ _, rewriteQueryNode cat true false fuel (removeDummyProvenanceTEs q)) st).
      rewrite removeDummy_spec. by erewrite bind_ok by reflexivity.
    + change (forallb marked_rte rt = true) in H. apply forallb_Forall in H as Hm. apply list_all_Forall in IH.
      cbn [traverseQueryTree shouldRewrite q rtable]. match goal with |- context [bind (?go _)] => set (loop := go) end.
      assert (∃ rtes st', loop rt st = Ok (rtes, st') ∧ Forall2 rte_done rt rtes) as (rtes & st' & E & Hrt).
      { clear -IH Hm. revert st. induction IH as [|r l Hr _ IHl]; intros st; [by eexists _, _|]. inversion Hm; subst.
        destruct (Hr st) as (r' & st1 & E1 & Hd1); [done|]. cbn. hrun E1. destruct (IHl ltac:(done) st1) as (rtes & st2 & E2 & Hd2).
        hrun E2. eexists _, _. split; [done|by constructor]. }
      hrun E. eexists _, _. split; [done|]. split; [done|]. intros db Hdb.
      by apply (rtable_done q rtes db).
  - intros k rel sub IH ft vt jt av al er pb pa st H.
    destruct k; try (eexists _, _; split; [done|]; by split_and!). destruct sub as [q|]; [|done].
    apply option_all_Some in IH. destruct (IH st H) as (q' & st' & E & Hw & He). cbn [traverse_rte rtekind subquery]. hrun E.
    assert (∃ r', (if shouldRewrite q then correctRTEAlias else ret)
      (mkRangeTblEntry RTE_SUBQUERY rel (Some q') ft vt jt av al er pb pa) st' = Ok (r', st') ∧
      rtekind r' = RTE_SUBQUERY ∧ subquery r' = Some q' ∧ joinaliasvars r' = av) as (r' & E' & K & S & A).
    { destruct (shouldRewrite q); [|by eexists]. unfold correctRTEAlias. cbn [rtekind subquery]. rewrite bind_deref.
      by eexists. }
    exists r', st'. split; [by destruct (shouldRewrite q)|]. destruct r'. cbn in K, S, A. subst. by split_and!.
Qed.

(** ** The claim *)

Lemma provenanceRewriteQuery_ok q st :
  (commandType q = CMD_SELECT → marked_ok q = true) →
  ∃ q' st', provenanceRewriteQuery cat true false fuel q st = Ok (q', st') ∧
    (commandType q ≠ CMD_SELECT ∨ hasProvenanceSubquery q = false → q' = q) ∧
    (commandType q = CMD_SELECT → ∀ db, fits cat db → evalQ db q' = answers db q).
Proof.
  intros Hm. unfold provenanceRewriteQuery. rewrite bind_modify. case_decide as Hc; [|by eexists _, _].
  destruct (hasProvenanceSubquery q) eqn:Hp.
  - edestruct traverse_ok as (q' & st' & E & _ & He); [by apply Hm|]. exists q', st'. split; [exact E|].
    split; [by intros [?|?]|done].
  - eexists q, _. split; [done|]. split; [done|]. intros _ db _. by rewrite answers_unmarked.
Qed.

(** C8: The driver answers queries with PROVENANCE anywhere in them.  For every list of queries whose marked parts are
    well-formed, [provenanceRewriteQueryList] succeeds, whatever the state of the rewriter.  Commands other than SELECT
    and queries without marked parts stay as they are; in every SELECT each marked part returns its rows with their
    provenance, and everything around it (joins, conditions, aggregation and set operations over it) is evaluated as before, so the
    columns the parser added for the provenance attributes have the right values. *)
Theorem provenance_queries_answered queries st :
  Forall (λ q, commandType q = CMD_SELECT → marked_ok q = true) queries →
  ∃ queries' st', provenanceRewriteQueryList cat true false fuel queries st = Ok (queries', st') ∧
    Forall2 (λ q q',
      (commandType q ≠ CMD_SELECT ∨ hasProvenanceSubquery q = false → q' = q) ∧
      (commandType q = CMD_SELECT → ∀ db, fits cat db → evalQ db q' = answers db q)) queries queries'.
Proof.
  intros H. revert st. induction H as [|q queries Hq _ IH]; intros st; cbn [provenanceRewriteQueryList].
  { eexists _, _. by split; [|constructor]. }
  destruct (provenanceRewriteQuery_ok q st Hq) as (q' & st1 & E1 & Hq'). hrun E1.
  destruct (IH st1) as (queries' & st2 & E2 & Hqs). hrun E2. eexists _, _. by split; [|constructor].
Qed.

End driver.

(** ** Examples *)

(** [SELECT v.a, v.prov_public_r_b FROM (SELECT PROVENANCE a, b FROM r) AS v], with the columns the parser adds *)
Definition marked0 : Query :=
  mkQuery CMD_SELECT false false [rel0 1 "r"] [RangeTblRef 1] None
    [mkTE (EVar (col 1 1)) 1 (Some "a") 0 0 0 false; mkTE (EVar (col 1 2)) 2 (Some "b") 0 0 0 false;
     mkTE (EConst 23 (-1) None) 3 (Some "prov_public_r_a") 0 0 0 false;
     mkTE (EConst 23 (-1) None) 4 (Some "prov_public_r_b") 0 0 0 false]
    [] None [] [] None None None false true.

Definition query6 : Query :=
  mkQuery CMD_SELECT false false [subquery0 marked0 "v" ["a"; "b"; "prov_public_r_a"; "prov_public_r_b"]] [RangeTblRef 1] None
    [mkTE (EVar (col 1 1)) 1 (Some "a") 0 0 0 false; mkTE (EVar (col 1 4)) 2 (Some "prov_public_r_b") 0 0 0 false]
    [] None [] [] None None None false false.

Lemma provenance_queries_answered_witness :
  ∃ q' st', provenanceRewriteQueryList cat0 true false 10 [query6] start0 = Ok ([q'], st') ∧
    evalQuery ops0 cat0 db0 q' = (λ t, [attr 1 t; attr 2 t]) <$> db0 1%Z.
Proof.
  destruct (provenance_queries_answered ops0 cat0 10 [query6] start0) as (qs & st' & E & H).
  - constructor; [vm_compute; reflexivity|constructor].
  - inversion H as [|q q' l l' [_ Hq] Hl]; subst. inversion Hl; subst. exists q', st'. split; [exact E|].
    rewrite (Hq eq_refl db0 fits0). vm_compute. reflexivity.
Defined.

(** *** Columns that are called like provenance attributes *)

(** [SELECT PROVENANCE b AS prov_b FROM r] *)
Definition query7 : Query :=
  mkQuery CMD_SELECT false false [rel0 1 "r"] [RangeTblRef 1] None
    [mkTE (EVar (col 1 2)) 1 (Some "prov_b") 0 0 0 false] [] None [] [] None None None false true.

(** The column is taken for one that the parser added: the result has no column but the provenance attributes. *)
Theorem user_column_lost :
  match provenanceRewriteQuery cat0 true false 10 query7 start0 with
  | Ok (q', _) => resname <$> targetList q'
  | Err _ => []
  end = [Some "prov_public_r_a"; Some "prov_public_r_b"].
Proof. vm_compute. reflexivity. Qed.

End DriverProps.
