(* ===== verification/UnionFacts.v ===== *)
(** * The alternative semantics of unions

    With [prov_use_wl_union_semantics] a union is not joined with its inputs.  Every input gets NULLs for the
    provenance of the other inputs, and the union, made a UNION ALL, returns the rows of the inputs one input after
    the other. *)

From Stdlib Require Import ZArith Lia.
From stdpp Require Import base strings numbers list sets.
From S2P Require Import Prelude ProvStack AttrName QueryTree SqlSemantics SqlFacts Queries ProvWitness Sublevels.
From S2P Require Import RewriteSPJ JoinBuild RewriteLimit RewriteAggr RewriteSet RewriteNode RewriteFacts RewriteEval.
From S2P Require Import RewriteMain JoinChain SetTrees SetFacts NodeFacts.
Import QueryTree SqlSemantics SqlFacts Queries ProvWitness Sublevels RewriteSPJ JoinBuild RewriteLimit RewriteAggr RewriteSet.
Import RewriteNode RewriteFacts RewriteEval RewriteMain JoinChain SetTrees SetFacts NodeFacts.

Module UnionFacts.

(** ** Columns of NULLs *)

Definition null_te (te : TargetEntry) : Prop := (∃ ty tm, expr te = EConst ty tm None) ∧ resjunk te = false.

(** A tuple with NULLs before and behind the columns from [w] on. *)
Definition pad (w before after : nat) (t : tuple) : tuple := take w t ++ nulls before ++ drop w t ++ nulls after.

Lemma zip_app_eq {A B} (l1 l2 : list A) (k1 k2 : list B) :
  length l1 = length k1 → zip (l1 ++ l2) (k1 ++ k2) = zip l1 k1 ++ zip l2 k2.
Proof. apply zip_with_app. Qed.

Lemma null_values op_sem (e : Z → tuple) tes :
  Forall null_te tes → (λ te, eval_expr op_sem e (expr te)) <$> tes = nulls (length tes).
Proof. induction 1 as [|te tes [(ty & tm & E) _] _ IH]; [done|]. csimpl. by rewrite E, IH. Qed.

Section padding.
Context (op_sem : operators) (cat : syscache) (db : Z → list tuple).
Context (s : Query) (A B B' N1 N2 : list TargetEntry).
Context (Hs : open_select s) (HAB : targetList s = A ++ B).
Context (HN1 : Forall null_te N1) (HN2 : Forall null_te N2).
Context (HE : expr <$> B' = expr <$> B) (HJ : resjunk <$> B' = resjunk <$> B).
Context (HR : ressortgroupref <$> B' = ressortgroupref <$> B).

Definition padded : Query := set_targetList (A ++ N1 ++ B' ++ N2) s.
Abbreviation padt := (pad (length A) (length N1) (length N2)).
Abbreviation width_ok := (λ t : tuple, length t = length (targetList s)).

Lemma padded_targets e : targets op_sem id padded e = padt (targets op_sem id s e).
Proof.
  unfold targets, padded, pad. cbn [targetList set_targetList]. rewrite HAB, !fmap_app.
  rewrite (null_values op_sem _ N1 HN1), (null_values op_sem _ N2 HN2).
  rewrite take_app_length', drop_app_length' by by rewrite length_fmap.
  do 3 f_equal. pose proof (f_equal (fmap (eval_expr op_sem (vals_of id e))) HE) as E. by rewrite <- !list_fmap_compose in E.
Qed.

(** The columns of a padded tuple that satisfy a test. *)
Lemma padded_columns (P : TargetEntry → Prop) `{∀ q : TargetEntry * value, Decision (P q.1)} t :
  width_ok t → Forall P A → Forall P B' →
  snd <$> filter (λ p, P p.1) (zip (targetList padded) (padt t)) =
    take (length A) t ++ (snd <$> filter (λ p, P p.1) (zip N1 (nulls (length N1)))) ++
    drop (length A) t ++ (snd <$> filter (λ p, P p.1) (zip N2 (nulls (length N2)))).
Proof.
  intros Ht HA HB. rewrite HAB, length_app in Ht. pose proof (f_equal length HE) as HL. rewrite !length_fmap in HL.
  unfold padded, pad. cbn [targetList set_targetList].
  rewrite !zip_app_eq, !filter_app, !fmap_app, (zip_all P A), (zip_all P B'); try done; unfold nulls; rewrite ?length_take, ?length_drop, ?length_replicate; lia.
Qed.

Lemma B_forall (P : bool → Z → Prop) : Forall (λ te, P (resjunk te) (ressortgroupref te)) B → Forall (λ te, P (resjunk te) (ressortgroupref te)) B'.
Proof.
  intros HP. pose proof (f_equal length HE) as HL. rewrite !length_fmap in HL. apply Forall_lookup. intros k te Hk.
  assert ((resjunk <$> B') !! k = (resjunk <$> B) !! k) as J by by rewrite HJ.
  assert ((ressortgroupref <$> B') !! k = (ressortgroupref <$> B) !! k) as R by by rewrite HR.
  rewrite !list_lookup_fmap, Hk in J. rewrite !list_lookup_fmap, Hk in R. destruct (B !! k) as [b|] eqn:Eb; [|done].
  injection J as ->. injection R as ->. exact (Forall_lookup_1 _ _ _ _ HP Eb).
Qed.

Lemma padded_shown : Forall (shown s) A ∧ Forall (shown s) B'.
Proof.
  destruct Hs as (_ & _ & H). rewrite HAB in H. apply Forall_app in H as [H1 H2]. split; [done|].
  by apply (B_forall (λ j r, j = false ∧ (distinctClause s ≠ [] → r ∈ (tleSortGroupRef <$> distinctClause s)))).
Qed.

Lemma null_junk N : Forall null_te N → Forall (λ te, resjunk te = false) N.
Proof. intros H. eapply Forall_impl; [exact H|]. by intros te [_ ?]. Qed.

Lemma padded_visible t : width_ok t → visible padded (padt t) = padt t.
Proof.
  intros Ht. destruct padded_shown as [H1 H2]. unfold visible. rewrite (padded_columns (λ te, resjunk te = false)); [|done|..].
  - rewrite (zip_all (λ te, resjunk te = false) N1), (zip_all (λ te, resjunk te = false) N2); try (by apply null_junk);
      unfold nulls; by rewrite ?length_replicate.
  - eapply Forall_impl; [exact H1|]. by intros te [].
  - eapply Forall_impl; [exact H2|]. by intros te [].
Qed.

Lemma padded_key t t' :
  distinctClause s ≠ [] → width_ok t → width_ok t' → distinct_key s t = distinct_key s t' ↔ distinct_key padded (padt t) = distinct_key padded (padt t').
Proof.
  intros Hd Ht Ht'. destruct Hs as (_ & _ & Hsh). rewrite !distinct_key_all by done. split; [by intros ->|].
  destruct padded_shown as [H1 H2]. unfold distinct_key.
  set (P := λ te, ressortgroupref te ∈ (tleSortGroupRef <$> distinctClause s)).
  change (λ p : TargetEntry * value, ressortgroupref p.1 ∈ (tleSortGroupRef <$> distinctClause padded)) with (λ p : TargetEntry * value, P p.1).
  rewrite !(padded_columns P); try done.
  2-5: (eapply Forall_impl; [eassumption|]); intros te [_ ?]; unfold P; auto.
  intros E. apply app_inj_1 in E as [E1 E2]; [|by rewrite !length_take, Ht, Ht'].
  apply app_inj_1 in E2 as [_ E2]; [|done]. apply app_inj_1 in E2 as [E2 _]; [|by rewrite !length_drop, Ht, Ht'].
  rewrite <- (take_drop (length A) t), <- (take_drop (length A) t'). by rewrite E1, E2.
Qed.

Lemma padded_eval : evalQuery op_sem cat db padded = padt <$> evalQuery op_sem cat db s.
Proof.
  rewrite !evalQuery_unfold. destruct Hs as (Hso & Hg & Hsh). unfold body.
  change (setOperations padded) with (setOperations s). change (grouped padded) with (grouped s). rewrite Hso, Hg.
  change (solve_plain op_sem cat ?t padded) with (solve_plain op_sem cat t s).
  change (@limited op_sem tuple padded) with (@limited op_sem tuple s). change (rtable padded) with (rtable s).
  set (l := targets op_sem id s <$> _).
  assert (Forall width_ok l) as Hl.
  { apply Forall_fmap, Forall_forall. intros e _. apply length_fmap. }
  replace (targets op_sem id padded <$> _) with (padt <$> l).
  2:{ unfold l. rewrite <- list_fmap_compose. apply list_fmap_ext. intros k e _. exact (eq_sym (padded_targets e)). }
  rewrite <- limited_fmap. f_equal. rewrite <- list_fmap_compose. clearbody l.
  assert (∀ l', Forall width_ok l' → visible padded <$> (padt <$> l') = padt ∘ visible s <$> l') as Hv.
  { intros l' Hl'. rewrite <- list_fmap_compose. apply list_fmap_ext. intros k t Hk. pose proof (Forall_lookup_1 _ _ _ _ Hl' Hk).
    unfold compose. by rewrite padded_visible, visible_all. }
  unfold distinct. change (distinctClause padded) with (distinctClause s).
  destruct (distinctClause s) as [|d dc] eqn:Ed; [by apply Hv|].
  rewrite (dedup_on_fmap (distinct_key s) (distinct_key padded) padt width_ok [] []); [|intros x y ? ?; apply padded_key; by rewrite ?Ed|done..].
  apply Hv. apply Forall_forall. intros t Ht%dedup_on_in. by apply (proj1 (Forall_forall _ _) Hl).
Qed.

End padding.
(** ** The attributes of the inputs *)

Lemma renumber_fmap {C} (f : TargetEntry → C) n tes :
  (∀ m te, f (set_resno m te) = f te) → f <$> renumber n tes = f <$> tes.
Proof. intros H. unfold renumber. rewrite fmap_imap, <- imap_const. apply imap_ext. intros k te _. apply H. Qed.

Lemma null_entries_ok n tes : Forall null_te (null_entries n tes) ∧ length (null_entries n tes) = length tes.
Proof.
  unfold null_entries. split; [|apply length_imap]. apply Forall_lookup. intros k te Hk.
  rewrite list_lookup_imap in Hk. destruct (tes !! k); [|done]. injection Hk as <-. split; [by eexists _, _|done].
Qed.

(** Behind the input [pos]. *)
Lemma dummy_attrs_after subProv i pos own c :
  (pos < i)%nat →
  Forall null_te (dummy_attrs subProv i pos own c) ∧ length (dummy_attrs subProv i pos own c) = length (concat subProv).
Proof.
  revert i c. induction subProv as [|pl subProv IH]; intros i c Hi; cbn [dummy_attrs concat]; [done|].
  rewrite decide_False by lia. destruct (null_entries_ok c pl) as [H1 H2].
  destruct (IH (S i) (c + Z.of_nat (length (null_entries c pl)))%Z ltac:(lia)) as [H3 H4].
  split; [by apply Forall_app|]. rewrite !length_app. congruence.
Qed.

Lemma dummy_attrs_ok pre i pl post own c :
  ∃ n N1 N2, dummy_attrs (pre ++ pl :: post) i (i + length pre) own c = N1 ++ renumber n own ++ N2 ∧
    Forall null_te N1 ∧ Forall null_te N2 ∧ length N1 = length (concat pre) ∧ length N2 = length (concat post).
Proof.
  revert i c. induction pre as [|p pre IH]; intros i c; cbn [app length dummy_attrs concat].
  - rewrite decide_True by lia. eexists c, [], _. split; [done|].
    destruct (dummy_attrs_after post (S i) (i + 0) own (c + Z.of_nat (length (renumber c own)))%Z) as [? ?]; [lia|].
    by split_and!.
  - rewrite decide_False by lia. destruct (null_entries_ok c p) as [H1 H2].
    destruct (IH (S i) (c + Z.of_nat (length (null_entries c p)))%Z) as (n & N1 & N2 & E & F1 & F2 & L1 & L2).
    replace (S i + length pre)%nat with (i + S (length pre))%nat in E by lia. rewrite E.
    exists n, (null_entries c p ++ N1), N2. rewrite <- (assoc_L (++)), !length_app. split_and!; [done|by apply Forall_app|done|lia|done].
Qed.

(** ** The inputs *)

Section inputs.
Context (op_sem : operators) (cat : syscache) (db : Z → list tuple).
Abbreviation evalQ := (evalQuery op_sem cat db).
Abbreviation provQ := (evalProv op_sem cat db).
Abbreviation rw := (query_rw cat op_sem db).

Lemma rewrite_all_ok rec rtes ss st :
  Forall2 sub_rte rtes ss → Forall (rewrites cat op_sem db rec) ss →
  ∃ rtes' ss' pls st', rewrite_all rec rtes st = Ok ((rtes', pls), st') ∧ Forall2 sub_rte rtes' ss' ∧
    Forall3 rw ss ss' pls ∧ pStack st' = reverse pls ++ pStack st.
Proof.
  intros H2 Hr. revert st. induction H2 as [|r s rtes ss [[Hk Hpb] Hs] _ IH]; intros st; cbn [rewrite_all].
  { exists [], [], [], st. split_and!; [done|constructor|constructor|done]. }
  inversion Hr as [|? ? Hrs Hrss]; subst. rewrite Hs, bind_deref.
  destruct (Hrs st) as (s' & st1 & pl & E & P & Hrw). hrun E. rewrite bind_gets, P. cbn [head]. rewrite bind_deref.
  destruct (IH Hrss st1) as (rtes' & ss' & pls & st' & E' & H2' & H3 & P'). hrun E'.
  eexists _, (s' :: ss'), (pl :: pls), st'. split; [done|]. split_and!; [by constructor|by constructor|].
  rewrite P', P, reverse_cons, <- (assoc_L (++)). done.
Qed.

(** A row of an input in the rewritten union. *)
Definition wl_row (before after : nat) (p : row) : tuple := p.1 ++ nulls before ++ p.2 ++ nulls after.

Lemma addDummyProvAttrs_ok r s s' pre pl post st :
  sub_rte r s' → rw s s' pl → out_width s ≠ 0%nat →
  ∃ r' s'' n, addDummyProvAttrs r (pre ++ pl :: post) (length pre) st = Ok ((r', renumber n pl), st) ∧
    sub_rte r' s'' ∧ evalQ s'' = wl_row (length (concat pre)) (length (concat post)) <$> provQ s.
Proof.
  intros [Hk Hs] Hrw Hw. unfold addDummyProvAttrs. rewrite Hs, bind_deref, lookup_app_r, Nat.sub_diag by lia. cbn [lookup list_lookup].
  rewrite bind_deref. pose proof (f_equal length (qr_resno _ _ _ _ _ _ Hrw)) as Hl. rewrite length_fmap, length_seqZ in Hl.
  pose proof (rw_length _ _ _ _ _ _ Hrw) as Ht. set (w := out_width s) in *.
  replace (length (targetList s') - length pl)%nat with w by lia.
  assert (cut_after (targetList s') w = take w (targetList s')) as Ecut by by destruct w.
  rewrite Ecut. set (A := take w (targetList s')) in *. set (B := drop w (targetList s')).
  assert (targetList s' = A ++ B) as HAB by (symmetry; apply take_drop).
  assert (length A = w) as LA by (unfold A; rewrite length_take; lia).
  destruct (dummy_attrs_ok pre 0 pl post B (Z.of_nat (length A) + 1)) as (n & N1 & N2 & E & F1 & F2 & L1 & L2).
  cbn [Nat.add] in E. rewrite E. eexists _, (padded s' A (renumber n B) N1 N2), _. split; [done|]. split; [by split|].
  rewrite (padded_eval op_sem cat db s' A B (renumber n B) N1 N2 (qr_select _ _ _ _ _ _ Hrw) HAB F1 F2)
    by (by apply renumber_fmap).
  rewrite (qr_eval _ _ _ _ _ _ Hrw), <- list_fmap_compose. apply list_fmap_ext. intros k p Hp.
  destruct (Forall_lookup_1 _ _ _ _ (qr_widths _ _ _ _ _ _ Hrw) Hp) as [Hp1 _]. unfold compose, pad, wl_row, flatten.
  rewrite LA, take_app_length', drop_app_length' by done. by rewrite L1, L2.
Qed.

(** The rows of the inputs from [before] provenance columns on. *)
Fixpoint wl_tabs (before : nat) (inputs : list operand) : list (list tuple) :=
  match inputs with
  | [] => []
  | (rows, n) :: inputs => (wl_row before (sum_list (snd <$> inputs)) <$> rows) :: wl_tabs (before + n) inputs
  end.

Lemma rw_widths ss ss' pls :
  Forall3 rw ss ss' pls → length (concat pls) = sum_list (snd <$> (operand_of op_sem cat db <$> ss)).
Proof.
  induction 1 as [|s s' pl ss ss' pls H _ IH]; [done|]. cbn. rewrite length_app, IH. f_equal.
  pose proof (f_equal length (qr_resno _ _ _ _ _ _ H)) as Hl. rewrite length_fmap, length_seqZ in Hl. lia.
Qed.

Lemma add_dummies_ok rtes ss ss' pre pls st :
  Forall2 sub_rte rtes ss' → Forall3 rw ss ss' pls → Forall (λ s, out_width s ≠ 0%nat) ss →
  ∃ rtes' ss'' pls', add_dummies rtes (pre ++ pls) (length pre) st = Ok ((rtes', pls'), st) ∧ Forall2 sub_rte rtes' ss'' ∧
    evalQ <$> ss'' = wl_tabs (length (concat pre)) (operand_of op_sem cat db <$> ss) ∧
    Forall2 (λ pl' pl, length pl' = length pl ∧ Forall is_col pl') pls' pls.
Proof.
  intros H2 H3 Hw. revert pre rtes H2. induction H3 as [|s s' pl ss ss' pls Hrw H3 IH]; intros pre rtes H2.
  { inversion H2; subst. exists [], [], []. split_and!; by constructor. }
  inversion H2 as [|r ? rtes' ? Hr H2']; subst. inversion Hw as [|? ? Hw1 Hw2]; subst. cbn [add_dummies].
  destruct (addDummyProvAttrs_ok r s s' pre pl pls st Hr Hrw Hw1) as (r' & s'' & n & E & Hr' & Es). hrun E.
  destruct (IH Hw2 (pre ++ [pl]) rtes' H2') as (rs' & ss'' & pls' & E' & Hs & Ev & Hp).
  rewrite <- (assoc_L (++)), length_app, Nat.add_1_r in E'. cbn [app] in E'. hrun E'.
  eexists _, (s'' :: ss''), _. split; [done|]. split; [by constructor|]. split.
  - csimpl. rewrite Es, Ev, (rw_widths _ _ _ H3), concat_app, length_app. cbn [concat]. rewrite app_nil_r.
    pose proof (f_equal length (qr_resno _ _ _ _ _ _ Hrw)) as Hl. rewrite length_fmap, length_seqZ in Hl.
    unfold operand_of at 3. cbn [wl_tabs]. do 2 f_equal. lia.
  - constructor; [|done]. unfold renumber. split; [apply length_imap|]. apply Forall_lookup. intros k te Hk.
    rewrite list_lookup_imap in Hk. destruct (pl !! k) as [te'|] eqn:Ek; [|done]. injection Hk as <-.
    exact (Forall_lookup_1 _ _ _ _ (qr_cols _ _ _ _ _ _ Hrw) Ek).
Qed.

(** ** The union *)

Lemma prov_entries_plain q i pset k st :
  fromlist q = [] → Forall is_col pset →
  ∃ tes, prov_entries q i pset k st = Ok (tes, st) ∧ length tes = length pset ∧ fresh_entries k tes.
Proof.
  intros Hfl Hp. revert k. induction Hp as [|te pset (v & _ & _ & Hn) _ IH]; intros k; cbn [prov_entries].
  { exists []. split_and!; [done..|repeat constructor]. }
  destruct (IH (k + 1)%Z) as (tes & E & Hlen & Hfr). unfold getRTindexForProvTE. rewrite Hfl. cbn [find_join follow_joins].
  rewrite bind_ret. hrun E. eexists. split; [done|]. split; [by cbn; rewrite Hlen|]. apply fresh_entries_cons; try done. by eexists.
Qed.

Lemma prov_entries_all_plain q psets i k st :
  fromlist q = [] → Forall (Forall is_col) psets →
  ∃ tes, prov_entries_all q (seqZ i (Z.of_nat (length psets))) psets k st = Ok (tes, st) ∧
    length tes = length (concat psets) ∧ fresh_entries k tes.
Proof.
  intros Hfl Hp. revert i k. induction Hp as [|pset psets Hps _ IH]; intros i k.
  { exists []. split_and!; [done..|repeat constructor]. }
  cbn [length]. rewrite seqZ_cons by lia. cbn [prov_entries_all hd_error tl concat head]. rewrite bind_deref.
  replace (Z.pred (Z.of_nat (S (length psets)))) with (Z.of_nat (length psets)) by lia.
  destruct (prov_entries_plain q i pset k st Hfl Hps) as (t1 & E1 & L1 & F1). hrun E1.
  destruct (IH (Z.succ i) (k + Z.of_nat (length t1))%Z) as (t2 & E2 & L2 & F2). hrun E2.
  exists (t1 ++ t2). rewrite !length_app. split_and!; [done|congruence|by apply fresh_entries_app].
Qed.

Lemma adapt_targets_ok tl k st :
  Forall (λ te, ∃ v, expr te = EVar v) tl →
  ∃ tl', adapt_targets tl k st = Ok (tl', st) ∧ resno <$> tl' = resno <$> tl ∧ resjunk <$> tl' = resjunk <$> tl ∧
    resname <$> tl' = resname <$> tl.
Proof.
  intros H. revert k. induction H as [|te tl [v Hv] _ IH]; intros k; cbn [adapt_targets]; [by exists []|].
  destruct (IH (k + 1)%Z) as (tl' & E & H1 & H2 & H3). unfold var_of. rewrite Hv, bind_ret. hrun E.
  eexists. split; [done|]. csimpl. by rewrite H1, H2, H3.
Qed.

(** All operations of the tree made UNION ALL: the rows of the inputs, one input after the other. *)
Fixpoint all_kept (R : rtree) : rtree :=
  match R with Leaf r => Leaf r | Op op _ l r => Op op true (all_kept l) (all_kept r) end.

Lemma entries_all R : entries (all_kept R) = entries R.
Proof. induction R as [|op all l IHl r IHr]; cbn; congruence. Qed.

Lemma adapt_shape R k : adaptSetStmtCols (shape R k) = shape (all_kept R) k.
Proof. revert k. induction R as [|op all l IHl r IHr]; intros k; cbn; [done|]. by rewrite IHl, IHr, entries_all. Qed.

Lemma reval_all R k :
  one_operation SETOP_UNION (shape R k) = true →
  reval op_sem cat db (all_kept R) = concat (evalRTE op_sem cat db <$> entries R).
Proof.
  revert k. induction R as [r|op all l IHl r IHr]; intros k; cbn [all_kept reval entries shape one_operation].
  { intros _. csimpl. by rewrite app_nil_r. }
  intros H. checks. destr_all. rewrite (IHl k), (IHr (k + size l)%Z) by done. by rewrite fmap_app, concat_app.
Qed.

Lemma eval_union t rt :
  set_leaves t = seqZ 1 (Z.of_nat (length rt)) → one_operation SETOP_UNION t = true →
  eval_setop (map (evalRTE op_sem cat db) rt) (adaptSetStmtCols t) = concat (evalRTE op_sem cat db <$> rt).
Proof.
  intros Hl Ho. destruct (shape_of t 1 rt Hl) as (R & HR & <-). rewrite adapt_shape.
  rewrite (eval_shape op_sem cat db (all_kept R) 1 rt).
  - rewrite (reval_all R 1) by done. by rewrite HR.
  - rewrite entries_all, HR. apply at_pos_self.
Qed.

Lemma set_columns q t : set_query cat q t → Forall (λ te, ∃ v, expr te = EVar v) (targetList q).
Proof.
  intros Hq. eapply Forall_impl; [exact (set_targets _ _ _ Hq)|]. intros te Hte. unfold set_te_ok in Hte. checks.
  destruct (expr te); try done. by eexists.
Qed.

Lemma shown_named_of tl tl' :
  resjunk <$> tl' = resjunk <$> tl → resname <$> tl' = resname <$> tl → Forall shown_named tl → Forall shown_named tl'.
Proof.
  revert tl. induction tl' as [|te' tl' IH]; intros [|te tl]; try done. csimpl. intros [= E1 E2] [= E3 E4] [[H1 H2] H]%Forall_cons.
  constructor; [|by eapply IH]. unfold shown_named. by rewrite E1, E3.
Qed.

Lemma wl_tabs_width n before inputs :
  Forall (λ o : operand, Forall (λ p : row, length p.1 = n ∧ length p.2 = o.2) o.1) inputs →
  Forall (λ t, length t = n + (before + sum_list (snd <$> inputs)))%nat (concat (wl_tabs before inputs)).
Proof.
  intros H. revert before. induction H as [|[rows k] inputs Hr _ IH]; intros before; [constructor|]. cbn [wl_tabs concat].
  apply Forall_app. split.
  - apply Forall_fmap. eapply Forall_impl; [exact Hr|]. intros p [H1 H2]. unfold compose, wl_row, nulls. csimpl.
    rewrite !length_app, !length_replicate, H1, H2. cbn. lia.
  - eapply Forall_impl; [apply (IH (before + k)%nat)|]. intros t ->. cbn. lia.
Qed.

Lemma length_wl_tabs before inputs : length (wl_tabs before inputs) = length inputs.
Proof. revert before. induction inputs as [|[rows n] inputs IH]; intros before; cbn; congruence. Qed.

Lemma rw_widths_sum ss ss' pls : Forall3 rw ss ss' pls → length (concat pls) = sum_list (prov_width cat <$> ss).
Proof. intros H. rewrite (rw_widths _ _ _ H), <- list_fmap_compose. done. Qed.

Lemma operands_width n ss ss' pls :
  Forall3 rw ss ss' pls → Forall (λ s, out_width s = n) ss →
  Forall (λ o : operand, Forall (λ p : row, length p.1 = n ∧ length p.2 = o.2) o.1) (operand_of op_sem cat db <$> ss).
Proof.
  induction 1 as [|s s' pl ss ss' pls H _ IH]; [constructor|]. intros [Hn Hns]%Forall_cons. csimpl. constructor; [|by apply IH].
  rewrite <- Hn. exact (qr_widths _ _ _ _ _ _ H).
Qed.

(** The rows of the rewritten union [q], whose entries are the padded inputs. *)
Lemma union_eval q t ss ss' pls n :
  setOperations q = Some (adaptSetStmtCols t) → one_operation SETOP_UNION t = true → distinctClause q = [] →
  set_leaves t = seqZ 1 (Z.of_nat (length (rtable q))) → Forall shown_named (targetList q) →
  Forall3 rw ss ss' pls → Forall (λ s, out_width s = n) ss →
  evalRTE op_sem cat db <$> rtable q = wl_tabs 0 (operand_of op_sem cat db <$> ss) →
  length (targetList q) = (n + sum_list (prov_width cat <$> ss))%nat →
  evalQ q = limited op_sem q (concat (wl_tabs 0 (operand_of op_sem cat db <$> ss))).
Proof.
  intros Hs Ho Hd Hl Hsh H3 How Hrt Hw. rewrite evalQuery_unfold. unfold body, distinct. rewrite Hs, Hd. f_equal.
  rewrite eval_union, Hrt by done. rewrite <- (list_fmap_id (concat _)) at 2. apply list_fmap_ext. intros k v Hv.
  unfold visible. apply (zip_all (λ te, resjunk te = false)).
  { eapply Forall_impl; [exact Hsh|]. by intros te []. }
  pose proof (operands_width _ ss ss' pls H3 How) as Hwd.
  pose proof (Forall_lookup_1 _ _ _ _ (wl_tabs_width _ 0 _ Hwd) Hv) as Hlv. cbn beta in Hlv. unfold id. rewrite Hlv, Hw.
  f_equal. cbn. by rewrite <- list_fmap_compose.
Qed.

Lemma rewriteUnionWithWLCS_ok rec q t ss st :
  set_query cat q t → one_operation SETOP_UNION t = true → Forall2 sub_rte (rtable q) ss →
  Forall (λ s, out_width s = length (targetList q)) ss → Forall (rewrites cat op_sem db rec) ss →
  ∃ q' st' pl, rewriteUnionWithWLCS rec q st = Ok (q', st') ∧ pStack st' = pl :: pStack st ∧
    length pl = sum_list (prov_width cat <$> ss) ∧
    resno <$> targetList q' = cols_from 1 (length (targetList q) + sum_list (prov_width cat <$> ss)) ∧
    Forall shown_named (targetList q') ∧
    evalQ q' = limited op_sem q (concat (wl_tabs 0 (operand_of op_sem cat db <$> ss))).
Proof.
  intros Hq Ho H2 How Hrec. unfold rewriteUnionWithWLCS.
  destruct (rewrite_all_ok rec (rtable q) ss st H2 Hrec) as (rs & ss' & pls & st1 & E1 & H2' & H3 & P1). hrun E1.
  assert (length (targetList q) ≠ 0%nat) as Hw0 by (pose proof (set_nonempty _ _ _ Hq); by destruct (targetList q)).
  destruct (add_dummies_ok rs ss ss' [] pls st1 H2' H3) as (rs2 & ss2 & pls2 & E2 & H22 & Ev & Hp).
  { eapply Forall_impl; [exact How|]. cbn. congruence. }
  hrun E2. rewrite bind_gets. unfold set_pStack. rewrite bind_modify.
  pose proof (Forall2_length _ _ _ Hp) as Lp. rewrite P1, Lp, drop_app_length' by by rewrite length_reverse.
  set (st2 := mkRw _ _ _ _ _).
  unfold correctSubQueryAlias. cbn [rtable set_rtable].
  destruct (correct_subs_ok rs2 ss2 st2 H22) as (rs3 & E3 & H23). erewrite bind_ok by (hrun E3; reflexivity).
  cbn [rtable set_rtable]. set (q2 := set_rtable rs3 (set_rtable rs2 q)).
  assert (length rs3 = length pls2) as L3.
  { rewrite (Forall2_length _ _ _ H23), Lp, <- (Forall3_length_lr _ _ _ _ H3).
    by rewrite <- (length_fmap evalQ), Ev, length_wl_tabs, length_fmap. }
  unfold addProvenanceAttrsForRange, addProvenanceAttrs. change (rtable q2) with rs3.
  replace (Z.of_nat (length rs3) + 1 - 1)%Z with (Z.of_nat (length pls2)) by lia. rewrite length_seqZ, Nat2Z.id.
  destruct (prov_entries_all_plain q2 pls2 1 (Z.of_nat (length (targetList q2)) + 1)
    (mkRw (pStack st) (baseRelStackActive st2) (baseRelStack st2) (refs st2) (gens st2))) as (tes & E4 & L4 & F4 & C4 & J4).
  { exact (set_fromlist _ _ _ Hq). } { eapply Forall2_Forall_l; [exact Hp|]. apply Forall_true. by intros pl pl' []. }
  erewrite bind_ok by (hrun (pop_psets_ok pls2 (pStack st) st2 eq_refl); hrun E4; reflexivity). cbv iota beta.
  unfold adaptSetProvenanceAttrs. cbn [targetList set_targetList setOperations].
  destruct (adapt_targets_ok (targetList q2 ++ tes) 1
    (mkRw (pStack st) (baseRelStackActive st2) (baseRelStack st2) (refs st2) (gens st2))) as (tl' & E5 & R5 & J5 & N5).
  { apply Forall_app. split; [exact (set_columns q t Hq)|]. eapply Forall_impl; [exact C4|]. intros te (v & Hv & _). by exists v. }
  erewrite bind_ok by (hrun E5; change (setOperations q2) with (setOperations q); rewrite (set_tree _ _ _ Hq), bind_deref; reflexivity).
  unfold push_pset. rewrite bind_modify. cbn [targetList with_set set_targetList rtable app].
  assert (length tl' = length (targetList q) + length tes)%nat as L5 by (by rewrite <- (length_fmap resno), R5, length_fmap, length_app).
  assert (length (concat pls2) = sum_list (prov_width cat <$> ss)) as Lc.
  { rewrite <- (rw_widths_sum ss ss' pls H3). clear -Hp. induction Hp as [|? ? ? ? [H _] _ IH]; [done|]. cbn. by rewrite !length_app, IH, H. }
  assert (Forall shown_named tl') as Hsh.
  { eapply shown_named_of; [done..|]. apply Forall_app. split; [exact (set_shown_named cat q t Hq)|].
    apply Forall_forall. intros te Hte. rewrite Forall_forall in C4, J4. split; [by apply J4|]. by destruct (C4 te Hte) as (_ & _ & _ & ?). }
  eexists _, _, _. split; [reflexivity|]. split; [done|]. split_and!; [rewrite length_drop; lia| |done|].
  - cbn. rewrite R5, fmap_app, F4, L4, Lc, Nat2Z.inj_add, seqZ_app by lia. change (targetList q2) with (targetList q).
    rewrite (set_numbered _ _ _ Hq). f_equal. f_equal. lia.
  - etrans; [eapply (union_eval _ t ss ss' pls (length (targetList q))); try done; cbn|done]; [exact (set_distinct _ _ _ Hq)| | |lia].
    + rewrite (set_indexes _ _ _ Hq). f_equal. by rewrite L3, Lp, (Forall2_length _ _ _ H2), (Forall3_length_lr _ _ _ _ H3).
    + change (length (concat [])) with 0%nat in Ev. rewrite <- Ev. clear -H23. induction H23 as [|r s rs ss [H _] _ IH]; [done|].
      csimpl. by rewrite IH, (sub_rte_eval _ _ _ _ _ H).
Qed.

(** ** The node *)

Lemma collapse_same q op X k : one_operation op (shape X k) = true → collapse q op X = X.
Proof.
  revert k. induction X as [x|o a l IHl r IHr]; intros k; cbn [shape one_operation collapse]; [done|].
  intros H. checks. rewrite decide_True by done. by rewrite (IHl k), (IHr (k + size l)%Z).
Qed.

Lemma good_leaves q t : set_query cat q t → ∃ ss, Forall2 (good_input cat q) (rtable q) ss.
Proof.
  intros Hq. assert (Forall (λ r, ∃ s, good_input cat q r s) (rtable q)) as H
    by (apply Forall_forall; intros r; by eapply leaf_good).
  induction H as [|r rs [s Hs] _ (ss & IH)]; [by exists []|]. exists (s :: ss). by constructor.
Qed.

Lemma good_inputs_operands q rs ss :
  Forall2 (good_input cat q) rs ss → operand_of op_sem cat db <$> ss = input op_sem cat db <$> rs.
Proof.
  induction 1 as [|r s rs ss [[[Hk _] Hs] _] _ IH]; csimpl; [done|]. rewrite IH. f_equal. unfold input, operand_of.
  destruct r. cbn in *. by subst.
Qed.

(** What the rewriter makes of a union [q]. *)
Definition wl_union (q q' : Query) (pl : list TargetEntry) : Prop :=
  length pl = prov_width cat q ∧ resno <$> targetList q' = cols_from 1 (out_width q + prov_width cat q) ∧
  Forall shown_named (targetList q') ∧
  evalQ q' = limited op_sem q (concat (wl_tabs 0 (input op_sem cat db <$> rtable q))).

Lemma rewriteSetQuery_union rec q t st :
  set_query cat q t → level0 q = true → one_operation SETOP_UNION t = true →
  (∀ r s, r ∈ rtable q → good_input cat q r s → rewrites cat op_sem db rec s) →
  ∃ q' st' pl, rewriteSetQuery cat true true rec q st = Ok (q', st') ∧ pStack st' = pl :: pStack st ∧ wl_union q q' pl.
Proof.
  intros Hq Hl0 Ho Hrec. unfold rewriteSetQuery. destruct (shape_of t 1 (rtable q) (set_indexes _ _ _ Hq)) as (T & HT & Ht).
  destruct (set_stmt _ _ _ Hq) as (op & all & l & r & E). destruct T as [x|op' all' L R]; [by subst t|].
  assert (op' = SETOP_UNION) as -> by (rewrite <- Ht in Ho; cbn in Ho; checks; by destr_all).
  assert (set_op q st = Ok (SETOP_UNION, st)) as Eo by (unfold set_op; rewrite (set_tree _ _ _ Hq), <- Ht; done).
  hrun (no_dummy cat q t Hq _ _ L R HT Ht st). hrun Eo. rewrite (set_tree _ _ _ Hq), bind_deref, <- Ht, tree_height_shape.
  pose proof (restructure_ok q true SETOP_UNION all' L R st ltac:(done)) as E0.
  rewrite (state_self cat q t Hq Hl0 _ _ L R HT Ht) in E0. cbn [restructured] in E0. pose proof Ho as Ho'. rewrite <- Ht in Ho'.
  cbn in Ho'. checks. rewrite (collapse_same q SETOP_UNION L 1), (collapse_same q SETOP_UNION R (1 + size L)) in E0 by done.
  rewrite (state_self cat q t Hq Hl0 _ _ L R HT Ht) in E0. hrun E0.
  hrun Eo. cbn [andb]. rewrite bool_decide_eq_true_2 by done.
  destruct (good_leaves q t Hq) as [ss Hg].
  destruct (rewriteUnionWithWLCS_ok rec q t ss st Hq Ho) as (q' & st' & pl & E1 & P1 & L1 & R1 & S1 & V1).
  { eapply Forall2_impl; [exact Hg|]. by intros r0 s0 []. }
  { apply Forall_forall. intros s Hs. apply list_elem_of_lookup in Hs as [k Hk].
    by destruct (Forall2_lookup_r _ _ _ _ _ Hg Hk) as (x & _ & _ & _ & _ & ?). }
  { apply Forall_forall. intros s Hs. apply list_elem_of_lookup in Hs as [k Hk].
    destruct (Forall2_lookup_r _ _ _ _ _ Hg Hk) as (x & Hx & Hgx). apply (Hrec x s); [by eapply list_elem_of_lookup_2|done]. }
  assert (sum_list (prov_width cat <$> ss) = prov_width cat q) as Hsum.
  { rewrite prov_width_unfold. f_equal. pose proof (f_equal (fmap snd) (good_inputs_operands q _ _ Hg)) as Ho2.
    rewrite <- !list_fmap_compose in Ho2. exact Ho2. }
  exists q', st', pl. split; [done|]. split; [done|]. unfold wl_union.
  assert (out_width q = length (targetList q)) as ->.
  { apply out_width_all. eapply Forall_impl; [exact (set_shown _ _ _ Hq)|]. by intros te []. }
  rewrite <- Hsum, <- (good_inputs_operands q _ _ Hg). by split_and!.
Qed.

End inputs.
End UnionFacts.
