(* ===== verification/ExceptFacts.v ===== *)
(** * The alternative semantics of differences

    With [prov_use_wl_union_semantics] a difference is joined with its rewritten left argument; the
    provenance columns of the base relations below the right argument are NULL. *)

From Stdlib Require Import ZArith Lia.
From stdpp Require Import base strings numbers list sets.
From S2P Require Import Prelude ProvStack AttrName AttrNameProps QueryTree SqlSemantics SqlFacts Queries ProvWitness Sublevels.
From S2P Require Import RewriteSPJ JoinBuild RewriteLimit RewriteAggr RewriteSet RewriteNode RewriteFacts RewriteEval.
From S2P Require Import RewriteMain JoinChain AggrFacts SetTrees SetJoins SetFacts NodeFacts UnionFacts.
Import QueryTree SqlSemantics SqlFacts Queries ProvWitness Sublevels RewriteSPJ JoinBuild RewriteLimit RewriteAggr RewriteSet.
Import RewriteNode RewriteFacts RewriteEval RewriteMain JoinChain AggrFacts SetTrees SetJoins SetFacts NodeFacts UnionFacts.

Module ExceptFacts.

Section except.
Context (cat : syscache).

(** ** The base relations of the right argument *)

(** View expansion has left no view in the query. *)
Fixpoint view_free (q : Query) : bool := forallb view_free_rte (rtable q)
with view_free_rte (r : RangeTblEntry) : bool :=
  match rtekind r with
  | RTE_RELATION => is_none (view_relations cat (relid r))
  | RTE_SUBQUERY => match subquery r with Some q => view_free q | None => true end
  | _ => true
  end.

Definition base_rte (r : RangeTblEntry) : Prop := rte_ok cat r = true ∧ rtekind r = RTE_RELATION.

Lemma findBaseRelations_ok r st :
  rte_ok cat r = true → view_free_rte r = true →
  ∃ bs, findBaseRelationsForProvenanceRTE cat r st = Ok (bs, st) ∧ Forall base_rte bs ∧
    sum_list (rte_prov_width cat <$> bs) = rte_prov_width cat r.
Proof.
  revert r st. apply (RangeTblEntry_tree_ind
    (λ q, ∀ st, query_ok cat q = true → view_free q = true →
      ∃ bs, base_relations cat q st = Ok (bs, st) ∧ Forall base_rte bs ∧ sum_list (rte_prov_width cat <$> bs) = prov_width cat q)
    (λ r, ∀ st, rte_ok cat r = true → view_free_rte r = true →
      ∃ bs, findBaseRelationsForProvenanceRTE cat r st = Ok (bs, st) ∧ Forall base_rte bs ∧
        sum_list (rte_prov_width cat <$> bs) = rte_prov_width cat r)).
  - intros ct ha hs rt IH fl qs tl gc hv dc sc lo lc so pr sr st [Hrt _]%query_ok_spec Hv. cbn in Hrt, Hv. checks.
    apply list_all_Forall in IH. cbn [base_relations rtable prov_width]. revert st.
    induction IH as [|r rt Hr _ IHl]; intros st; [by exists []|].
    inversion Hrt as [|? ? Hr0 Hrt0]; subst. match goal with H : Forall _ (r :: rt) |- _ => inversion H as [|? ? Hv0 Hv1]; subst end.
    destruct (Hr st Hr0 Hv0) as (bs & E1 & B1 & W1). hrun E1. destruct (IHl Hrt0 Hv1 st) as (bs2 & E2 & B2 & W2). hrun E2.
    eexists. split; [done|]. split; [by apply Forall_app|]. cbn [map sum_list]. by rewrite fmap_app, sum_list_app, W1, W2.
  - intros k rel sub IH ft vt jt av al er pb pa st Hr Hv. pose proof Hr as Hr'.
    apply rte_ok_spec in Hr' as (Hb & _ & _ & _ & Hcase). cbn in Hb, Hcase. subst pb.
    destruct k; try (destruct Hcase as [(? & _)|[(? & _)|?]]; done).
    + cbn in Hv. cbn [findBaseRelationsForProvenanceRTE isProvBase rtekind relid].
      destruct (view_relations cat rel) as [bases|]; [done|]. eexists. split; [done|]. split; [by repeat constructor|].
      cbn. lia.
    + destruct Hcase as [(? & _)|[(_ & s & -> & Hs)|?]]; [done| |done]. cbn in Hv. apply option_all_Some in IH.
      exact (IH st Hs Hv).
    + by exists [].
Qed.

Lemma null_columns_ok r ns vs c st schema rel :
  rtekind r = RTE_RELATION → AttrName.get_rel_schema cat (relid r) = Some schema →
  AttrName.get_rel_name cat (relid r) = Some rel → length ns = length vs →
  ∃ tes st', null_columns cat r ns vs c st = Ok (tes, st') ∧ pStack st' = pStack st ∧
    Forall null_te tes ∧ resno <$> tes = cols_from (c + 1) (length vs).
Proof.
  intros Hk Hs Hn. revert vs c st. induction ns as [|name ns IH]; intros [|v vs] c st Hlen; try done; cbn [null_columns].
  { by exists [], st. }
  destruct (AttrNameProps.createProvAttrName_ok cat (attr_rte r) (relid r) name schema rel (refs st))
    as (n & l & _ & E); [unfold attr_rte; by rewrite Hk|done..|].
  hrun (with_refs_ok _ _ _ _ E).
  edestruct (IH vs (c + 1)%Z) as (tes & st' & E' & P & Ht & Hr); [by injection Hlen|]. hrun E'.
  eexists _, st'. split; [done|]. split; [done|]. split.
  - constructor; [|done]. split; [by eexists _, _|done].
  - csimpl. rewrite Hr, (seqZ_cons (c + 1)) by (cbn; lia). f_equal. f_equal; cbn; lia.
Qed.

(** Fresh columns of NULLs, numbered behind [c]. *)
Definition nulls_from (c : Z) (n : nat) (tes : list TargetEntry) : Prop :=
  Forall null_te tes ∧ resno <$> tes = cols_from (c + 1) n.

Lemma nulls_from_app c n n' tes tes' :
  nulls_from c n tes → nulls_from (c + Z.of_nat (length tes)) n' tes' → nulls_from c (n + n') (tes ++ tes').
Proof.
  intros [H1 H2] [H3 H4]. pose proof (f_equal length H2) as Hl. rewrite length_fmap, length_seqZ in Hl.
  split; [by apply Forall_app|]. rewrite fmap_app, H2, H4, Nat2Z.inj_add, seqZ_app by lia. f_equal. f_equal. lia.
Qed.

Lemma null_base_ok rec r c st :
  base_rte r → ∃ tes st', null_base cat rec r c st = Ok (tes, st') ∧ pStack st' = pStack st ∧
    nulls_from c (rte_prov_width cat r) tes.
Proof.
  intros [Hr Hk]. pose proof (rte_ok_spec cat r Hr) as (Hb & Hp & _ & _ & [H|[(Hk' & _)|Hk']]); [|congruence..].
  destruct H as (_ & [schema Hs] & [rel Hn] & Hd & Hc). unfold null_base. rewrite Hp.
  destruct (count_reference_ok cat r st Hk Hb) as (st1 & E1 & P1). hrun E1. unfold expandRTEWithParam. rewrite Hk.
  destruct (expandTupleDesc_ok (rd_att cat (relid r)) 0 (eref r) 1 st1 Hd Hc) as (ns & vs & E & Hns & Hvs & Hl). hrun E.
  destruct (null_columns_ok r ns vs c st1 schema rel Hk Hs Hn) as (tes & st2 & E2 & P2 & Ht & Hres); [congruence|].
  exists tes, st2. split; [done|]. split; [congruence|]. split; [done|]. rewrite Hres, Hvs.
  destruct r. cbn in Hk. by subst.
Qed.

Lemma null_bases_ok rec bs c st :
  Forall base_rte bs → ∃ tes st', null_bases cat rec bs c st = Ok (tes, st') ∧ pStack st' = pStack st ∧
    nulls_from c (sum_list (rte_prov_width cat <$> bs)) tes.
Proof.
  intros H. revert c st. induction H as [|b bs Hb _ IH]; intros c st; cbn [null_bases]; [by exists [], st|].
  destruct (null_base_ok rec b c st Hb) as (t1 & st1 & E1 & P1 & N1). hrun E1.
  destruct (IH (c + Z.of_nat (length t1))%Z st1) as (t2 & st2 & E2 & P2 & N2). hrun E2.
  eexists _, st2. split; [done|]. split; [congruence|]. by apply nulls_from_app.
Qed.

Lemma null_inputs_ok rec rs c st :
  Forall (λ r, rte_ok cat r = true ∧ view_free_rte r = true) rs →
  ∃ tes st', null_inputs cat rec rs c st = Ok (tes, st') ∧ pStack st' = pStack st ∧
    nulls_from c (sum_list (rte_prov_width cat <$> rs)) tes.
Proof.
  intros H. revert c st. induction H as [|r rs [Hr Hv] _ IH]; intros c st; cbn [null_inputs]; [by exists [], st|].
  destruct (findBaseRelations_ok r st Hr Hv) as (bs & E & Hbs & Hw). hrun E.
  destruct (null_bases_ok rec bs c st Hbs) as (t1 & st1 & E1 & P1 & N1). hrun E1. rewrite Hw in N1.
  destruct (IH (c + Z.of_nat (length t1))%Z st1) as (t2 & st2 & E2 & P2 & N2). hrun E2.
  eexists _, st2. split; [done|]. split; [congruence|]. by apply nulls_from_app.
Qed.

(** ** The join with the left argument *)

Context (op_sem : operators) (db : Z → list tuple).
Abbreviation evalQ := (evalQuery op_sem cat db).
Abbreviation provQ := (evalProv op_sem cat db).
Abbreviation top_of q rt := (mkQuery CMD_SELECT false false rt [] None (targetList q) [] None [] [] None None None true false).

Lemma join_left_ok q all l r s s' pl r1 r2 st st0 :
  set_query cat q (SetOperationStmt SETOP_EXCEPT all l r) → out_width s = length (targetList q) →
  query_rw cat op_sem db s s' pl → sub_rte r1 q → sub_rte r2 s' → pStack st = pl :: st0 →
  ∃ newTop tes, (newTop ← createJoinsForSetOp cat true (top_of q [r1; r2]) SETOP_EXCEPT;
      addProvenanceAttrsForRange newTop 2 3 []) st =
      Ok ((newTop, tes), mkRw st0 (baseRelStackActive st) (baseRelStack st) (refs st) (gens st)) ∧
    (∃ rs, rtable newTop = r1 :: rs) ∧ open_select newTop ∧ length tes = prov_width cat s ∧
    resno <$> targetList newTop = cols_from 1 (length (targetList q) + prov_width cat s) ∧
    evalQ newTop = evalQ q ≫= λ t, (λ w, t ++ w) <$> matching Same t (provQ s).
Proof.
  intros Hq How Hrw Hr1 Hr2 Hst. set (tq := targetList q) in *. set (tys := (λ te, exprType (expr te)) <$> targetList s').
  pose proof (rw_length _ _ _ _ _ _ Hrw) as Hl.
  destruct (createSetDiffJoin_left op_sem cat (length tq) [r1; r2] [(false, Same)]) with
    (top := top_of q [r1; r2]) (r1 := r1) (tys1 := (λ te, exprType (expr te)) <$> tq) (o := q) (all := all) (l := l) (r := r) (st := st)
    as (rt & steps & E & Hch & Hlen); try done.
  { intros [|k] p Hp; [|done]. exists r2, tys. split; [done|]. unfold tys. rewrite length_fmap. split; [|lia].
    apply sub_entry_ok; [done|exact (qr_shown _ _ _ _ _ _ Hrw)|]. by rewrite (qr_targets _ _ _ _ _ _ Hrw), Hl. }
  { intros E. pose proof (set_nonempty _ _ _ Hq). unfold tq in E. by destruct (targetList q). }
  { by eapply original_leading. }
  { apply Hr1. }
  { exact (set_tree _ _ _ Hq). }
  hrun E. assert (Forall3 (query_rw cat op_sem db) [s] [s'] [pl]) as H3 by (constructor; [done|constructor]).
  assert (Forall (λ t, length t = length tq) (evalQ q)) as Hrows by (apply Forall_forall; by eapply set_row_length).
  assert (Forall2 sub_rte [r2] [s']) as H2 by (constructor; [done|constructor]).
  assert (Forall (λ s, out_width s = length tq) [s]) as Hsw by (constructor; [done|constructor]).
  destruct (set_top_ok op_sem cat db q [s] [s'] [pl] (set_shown_named _ _ _ Hq) (set_numbered _ _ _ Hq) H3 Hsw r1 [r2] Hr1 H2
    (top_of q [r1; r2]) rt [(false, Same)] steps Hch) with (st := st) (st0 := st0) as (tes & E2 & Hfr & Htl & Hv); try done.
  eexists _, tes. split; [exact E2|]. destruct Hfr as (Hres & Hcol & Hj). cbn in Htl. rewrite Nat.add_0_r in Htl. unfold id in Htl.
  assert (Forall (λ te, resjunk te = false) (tq ++ tes)) as Hjs.
  { apply Forall_app. split; [eapply Forall_impl; [exact (set_shown_named _ _ _ Hq)|]|eapply Forall_impl; [exact Hj|]]; by intros te []. }
  split_and!; try done.
  - destruct (ch_rtable _ _ _ _ _ _ _ Hch) as (js & Ert & _). cbn in Ert. exists (r2 :: js). exact Ert.
  - split; [done|]. split; [done|]. eapply Forall_impl; [exact Hjs|]. by intros te.
  - cbn. fold tq. rewrite fmap_app, Hres, Htl, (set_numbered _ _ _ Hq : resno <$> tq = _), Nat2Z.inj_add, seqZ_app by lia.
    f_equal. f_equal. cbn. fold tq. lia.
  - etrans; [eapply (set_eval op_sem cat db q [s] [s'] [pl] (set_shown_named _ _ _ Hq) (set_numbered _ _ _ Hq) Hrows H3 Hsw r1 [r2]
      Hr1 H2 (top_of q [r1; r2]) rt [(false, Same)] steps Hch); try done|].
    + destruct (shape_of _ 1 (rtable q) (set_indexes _ _ _ Hq)) as ([x|op' all' L R] & _ & Ht); [done|].
      by apply (set_base cat q _ Hq op' all' L R).
    + apply bind_ext_elem. intros t _. cbn [zip_with fmap list_fmap foldl fst snd]. f_equal. unfold attach. csimpl.
      rewrite app_nil_r, list_fmap_id. cbn. by destruct (snd <$> filter _ _).
Qed.

(** Columns of NULLs behind the others. *)
Lemma nulls_behind q N :
  open_select q → Forall null_te N →
  evalQ (set_targetList (targetList q ++ N) q) = pad (length (targetList q)) (length N) 0 <$> evalQ q.
Proof.
  intros Hq HN. pose proof (padded_eval op_sem cat db q (targetList q) [] [] N [] Hq) as H.
  rewrite app_nil_r in H. specialize (H eq_refl HN (Forall_nil_2 _) eq_refl eq_refl eq_refl). unfold padded in H.
  by rewrite !app_nil_r in H.
Qed.

Lemma pad_full n m t : length t = n → pad n m 0 t = t ++ nulls m.
Proof. intros <-. unfold pad. by rewrite firstn_all, drop_all, !app_nil_r. Qed.

(** What the rewriter makes of a difference [q] with the left argument [s] and the entries [rs] below the right one. *)
Definition wl_except (q s : Query) (rs : list RangeTblEntry) (q' : Query) (pl : list TargetEntry) : Prop :=
  length pl = prov_width cat q ∧ resno <$> targetList q' = cols_from 1 (out_width q + prov_width cat q) ∧
  evalQ q' = evalQ q ≫= λ t, (λ w, t ++ w ++ nulls (sum_list (rte_prov_width cat <$> rs))) <$> matching Same t (provQ s).

Lemma null_below rec q all L R rl rs newTop tes st :
  set_query cat q (SetOperationStmt SETOP_EXCEPT all (SetOpRef 1) (shape R (1 + size L))) → entries (Op SETOP_EXCEPT all L R) = rtable q →
  shape L 1 = SetOpRef 1 → rtable q = rl :: rs → Forall (λ r, view_free_rte r = true) rs →
  ∃ nts st', createNullSetDiffProvAttrs cat rec newTop q tes st =
      Ok ((set_targetList (targetList newTop ++ nts) newTop, tes ++ nts), st') ∧ pStack st' = pStack st ∧
    nulls_from (Z.of_nat (length (targetList newTop))) (sum_list (rte_prov_width cat <$> rs)) nts.
Proof.
  intros Hq HT HL Hrt Hviews. unfold createNullSetDiffProvAttrs. rewrite (set_tree _ _ _ Hq), bind_ret.
  destruct L as [x|]; [|done]. cbn [entries app length] in *. rewrite Hrt in HT. injection HT as -> HR.
  destruct (find_shape R (1 + Z.of_nat 1) (rtable q) st) as (idx & E).
  { rewrite Hrt. change (rl :: rs) with ([rl] ++ rs). rewrite HR. apply (at_pos_app ([rl] ++ rs) 1 [rl] rs), at_pos_self. }
  hrun E. rewrite HR. destruct (null_inputs_ok rec rs (Z.of_nat (length (targetList newTop))) st) as (nts & st' & E2 & P2 & N2).
  { apply Forall_and. split; [|done]. pose proof (set_rtes _ _ _ Hq) as H. rewrite Hrt in H. by inversion H. }
  hrun E2. by exists nts, st'.
Qed.

(** The copy of the original query has no references to outer queries. *)
Lemma map_first_id q r1 rs o tl :
  rtable q = r1 :: rs → sub_rte r1 o → level0 o = true →
  map_subquery (increaseSublevelsUp (-1)) 1 (set_targetList tl q) = set_targetList tl q.
Proof.
  intros Hrt Hr Hl. unfold map_subquery. cbn [rtable set_targetList]. rewrite Hrt.
  change (rt_fetch 1 (r1 :: rs)) with (Some r1). cbv iota. rewrite (increase_sub r1 o Hr Hl).
  change (rt_update 1 r1 (r1 :: rs)) with (r1 :: rs). rewrite <- Hrt. by destruct q.
Qed.

Lemma wl_except_intro q t rl s rs newTop tes nts :
  set_query cat q t → rtable q = rl :: rs → sub_rte rl s →
  Forall (λ p, length p.2 = prov_width cat s) (provQ s) →
  open_select newTop → length tes = prov_width cat s →
  resno <$> targetList newTop = cols_from 1 (length (targetList q) + prov_width cat s) →
  evalQ newTop = (evalQ q ≫= λ t, (λ w, t ++ w) <$> matching Same t (provQ s)) →
  nulls_from (Z.of_nat (length (targetList newTop))) (sum_list (rte_prov_width cat <$> rs)) nts →
  wl_except q s rs (set_targetList (targetList newTop ++ nts) newTop) (tes ++ nts).
Proof.
  intros Hq Hrt Hsub Hws Hsel Ltes Hres Hev [HN HR]. pose proof (f_equal length HR) as LN. rewrite length_fmap, length_seqZ, Nat2Z.id in LN.
  pose proof (f_equal length Hres) as LT. rewrite length_fmap, length_seqZ, Nat2Z.id in LT.
  assert (prov_width cat q = prov_width cat s + sum_list (rte_prov_width cat <$> rs))%nat as Hpw.
  { rewrite prov_width_unfold, Hrt. cbn. f_equal. destruct Hsub as [[Hk _] Hs]. destruct rl. cbn in *. by subst. }
  unfold wl_except. rewrite length_app, Ltes, LN, Hpw, (set_out_width cat q t Hq). split_and!; [done| |].
  - cbn. rewrite fmap_app, Hres, HR, LT, (assoc_L (Nat.add)), (Nat2Z.inj_add (_ + _)), (seqZ_app _ (Z.of_nat (_ + _))) by lia.
    f_equal. f_equal. lia.
  - rewrite nulls_behind, Hev, fmap_of_bind by done. apply bind_ext_elem. intros v Hv. rewrite <- list_fmap_compose.
    apply list_fmap_ext. intros k w Hw%list_elem_of_lookup_2. unfold compose. rewrite pad_full, LN, <- (assoc_L (++)); [done|].
    rewrite length_app, LT, (set_row_length op_sem cat db q t Hq v Hv). f_equal.
    unfold matching in Hw. apply list_elem_of_fmap in Hw as (p & -> & [_ Hp]%list_elem_of_filter).
    by apply (proj1 (Forall_forall _ _) Hws).
Qed.

Lemma rewriteSetQuery_except rec q all r rl rs s st :
  set_query cat q (SetOperationStmt SETOP_EXCEPT all (SetOpRef 1) r) → level0 q = true → rtable q = rl :: rs →
  good_input cat q rl s → rewrites cat op_sem db rec s → Forall (λ r, view_free_rte r = true) rs →
  ∃ q' st' pl, rewriteSetQuery cat true true rec q st = Ok (q', st') ∧ pStack st' = pl :: pStack st ∧ wl_except q s rs q' pl.
Proof.
  intros Hq Hl0 Hrt (Hsub & Hoks & _ & How) Hrec Hviews. unfold rewriteSetQuery.
  destruct (shape_of _ 1 (rtable q) (set_indexes _ _ _ Hq)) as (T & HT & Ht). destruct T as [x|op' all' L R]; [done|].
  pose proof Ht as Ht'. cbn [shape] in Ht'. injection Ht' as -> -> HL HR.
  hrun (no_dummy cat q _ Hq _ _ L R HT Ht st).
  assert (set_op q st = Ok (SETOP_EXCEPT, st)) as Eo by (unfold set_op; by rewrite (set_tree _ _ _ Hq)).
  hrun Eo. rewrite (set_tree _ _ _ Hq), bind_deref.
  assert (replaceSetOperationSubTrees true true (S (tree_height (SetOperationStmt SETOP_EXCEPT all (SetOpRef 1) r))) q [] SETOP_EXCEPT st =
    Ok (q, st)) as E0.
  { cbn [replaceSetOperationSubTrees]. rewrite (set_tree _ _ _ Hq), bind_deref. cbn [subtree]. rewrite bind_deref, bind_ret, decide_True by done.
    unfold replace_stmt. rewrite (set_tree _ _ _ Hq). cbn. done. }
  hrun E0. hrun Eo. cbn [andb]. rewrite bool_decide_eq_false_2 by done.
  assert (addSetSubqueryRTEs true q st = Ok ([rl], st)) as E1.
  { unfold addSetSubqueryRTEs. rewrite (set_tree _ _ _ Hq). cbn [findSetOpRTEs]. rewrite Hrt. done. }
  hrun E1. destruct (rewrite_inputs_ok op_sem cat db rec [rl] [s] st) as (rs1 & ss1 & pls & st1 & E2 & H2 & H3 & P1).
  { by constructor; [|constructor]. } { by constructor; [|constructor]. }
  inversion H3 as [|? s' pl ? ? ? Hrw H3']; subst. inversion H3'; subst.
  unfold rewriteSetRTEs. cbn [rtable addSubqueryToRTWithParam set_rtable].
  erewrite bind_ok by (hrun E2; reflexivity). cbv zeta. cbn [rtable set_rtable].
  unfold correctSubQueryAlias. cbn [rtable set_rtable].
  destruct (correct_subs_ok (subquery_rte q "originalSet" :: rs1) [q; s'] st1) as (rs2 & E3 & HF); [by constructor|].
  erewrite bind_ok by (hrun E3; reflexivity). inversion HF as [|r1 ? rs' ? [Hr1 _] HF']; subst.
  inversion HF' as [|r2 ? ? ? [Hr2 _] HF'']; subst. inversion HF''; subst.
  inversion H2 as [|ra ? ? ? _ H2']; subst. inversion H2'; subst. cbn [length].
  destruct (join_left_ok q _ _ _ s s' pl r1 r2 st1 (pStack st) Hq How Hrw Hr1 Hr2 P1)
    as (newTop & tes & E4 & (rs4 & Hrt4) & Hsel & Ltes & Hres & Hev).
  apply bind_inv in E4 as (newTop0 & st2 & E4 & E5).
  change (set_rtable [r1; r2] _) with (top_of q [r1; r2]). change (2 + (Z.of_nat 2 - 1))%Z with 3%Z.
  hrun E4. hrun E5. rewrite bool_decide_eq_true_2 by done.
  destruct (null_below rec q all L R rl rs newTop tes) with
    (st := mkRw (pStack st) (baseRelStackActive st1) (baseRelStack st1) (refs st1) (gens st1)) as (nts & st3 & E6 & P6 & N6); [done..|].
  hrun E6. unfold push_pset. rewrite bind_modify. eexists _, _, _. split; [reflexivity|]. split; [cbn; by rewrite P6|].
  rewrite (map_first_id newTop r1 rs4 q) by done. eapply wl_except_intro; try done.
  eapply Forall_impl; [exact (qr_widths _ _ _ _ _ _ Hrw)|]. by intros p [].
Qed.

End except.
End ExceptFacts.
