(* ===== verification/UnionProps.v ===== *)
(** * Provenance of unions and differences under the alternative semantics

    What [rewriteQueryNode] makes of a union and of a difference when [prov_use_wl_union_semantics] is on, and where it fails. *)

From Stdlib Require Import ZArith Lia.
From stdpp Require Import base strings numbers list sets.
From S2P Require Import Prelude ProvStack AttrName QueryTree SqlSemantics SqlFacts Queries ProvWitness Sublevels.
From S2P Require Import RewriteSPJ RewriteAggr RewriteSet RewriteNode RewriteFacts JoinChain SetTrees SetFacts NodeFacts.
From S2P Require Import RewriteProps OperatorProps UnionFacts ExceptFacts.
Import QueryTree SqlSemantics SqlFacts Queries ProvWitness Sublevels RewriteSPJ RewriteAggr RewriteSet RewriteNode.
Import RewriteFacts JoinChain SetTrees SetFacts NodeFacts RewriteProps OperatorProps UnionFacts ExceptFacts.

Module UnionProps.

Section rewriter.
Context (op_sem : operators) (cat : syscache).
Context `{Hagg : AggSublinks} {Hlaws : AggSublinksLaws} `{Hspj : SpjHelpers}.

Abbreviation evalQ := (evalQuery op_sem cat).

(** The rewritten query; it does not depend on the database. *)
Lemma union_rewritten q all l r fuel st db :
  query_ok cat q = true → setOperations q = Some (SetOperationStmt SETOP_UNION all l r) →
  one_operation SETOP_UNION l = true → one_operation SETOP_UNION r = true → forallb set_free_rte (rtable q) = true →
  (need q ≤ fuel)%nat → fits cat db →
  ∃ q' st' pl, rewriteQueryNode cat true true fuel q st = Ok (q', st') ∧ pStack st' = pl :: pStack st ∧
    wl_union op_sem cat db q q' pl.
Proof.
  intros Hok Ho Hl Hr Hfree Hf Hdb. pose proof (query_ok_set _ _ _ Hok Ho) as Hq. pose proof (set_grouped _ _ _ Hq) as Hg.
  unfold grouped in Hg. rewrite !orb_false_iff in Hg. destruct Hg as [[Ha _] _].
  pose proof (need_unfold q) as Hn. destruct fuel as [|fuel]; [lia|]. cbn [rewriteQueryNode]. rewrite Ha, Ho.
  eapply (rewriteSetQuery_union op_sem cat db); [done|by eapply query_ok_level0| |].
  - cbn. by rewrite Hl, Hr.
  - intros x s Hx ([_ Hs] & Hoks & Hlt & _). apply (rewriteQueryNode_correct op_sem cat db Hdb true); [done| |lia].
    intros _. rewrite forallb_forall in Hfree. apply list_elem_of_In, Hfree in Hx. destruct x. cbn in *. by subst.
Qed.

(** The rows of a union of inputs, without duplicates or with them. *)
Lemma elem_of_union db R k v :
  one_operation SETOP_UNION (shape R k) = true →
  v ∈ reval op_sem cat db R ↔ ∃ r, r ∈ entries R ∧ v ∈ evalRTE op_sem cat db r.
Proof.
  revert k. induction R as [x|op all L IHL R IHR]; intros k; cbn [shape one_operation reval entries].
  { intros _. split; [intros H; exists x; by rewrite list_elem_of_singleton|by intros (r & ->%list_elem_of_singleton & ?)]. }
  intros H. checks. destr_all. subst. assert (v ∈ setop SETOP_UNION all (reval op_sem cat db L) (reval op_sem cat db R) ↔
    v ∈ reval op_sem cat db L ∨ v ∈ reval op_sem cat db R) as ->.
  { rewrite <- elem_of_app. destruct all; [done|]. cbn. split; [apply dedup_on_in|]. intros Hv.
    destruct (dedup_on_covers id [] _ v Hv) as [?%elem_of_nil|(y & Hy & E)]; [done|]. cbn in E. by subst. }
  rewrite (IHL k), (IHR (k + size L)%Z) by done. setoid_rewrite elem_of_app. naive_solver.
Qed.

Lemma elem_of_wl_tabs before (inputs : list operand) v :
  v ∈ concat (wl_tabs before inputs) ↔ ∃ pre o post p, inputs = pre ++ o :: post ∧ p ∈ o.1 ∧
    v = wl_row (before + sum_list (snd <$> pre)) (sum_list (snd <$> post)) p.
Proof.
  revert before. induction inputs as [|[rows n] inputs IH]; intros before; cbn [wl_tabs concat].
  { split; [by intros ?%elem_of_nil|]. intros ([] & ? & ? & ? & ? & _); done. }
  rewrite elem_of_app, IH. split.
  - intros [(p & -> & Hp)%list_elem_of_fmap|(pre & o & post & p & -> & Hp & ->)].
    + exists [], (rows, n), inputs, p. rewrite Nat.add_0_r. done.
    + exists ((rows, n) :: pre), o, post, p. split_and!; [done..|]. f_equal. cbn. lia.
  - intros ([|o' pre] & o & post & p & E & Hp & ->); injection E as <- ->.
    + left. cbn. rewrite Nat.add_0_r. by apply list_elem_of_fmap_2.
    + right. exists pre, o, post, p. split_and!; [done..|]. f_equal. cbn. lia.
Qed.

(** An input has the rows of its query, each with a witness. *)
Lemma union_input_rows db q r :
  set_query cat q r → fits cat db → query_ok cat q = true →
  ∀ x, x ∈ rtable q →
    Forall (λ p : row, length p.1 = out_width q) (input op_sem cat db x).1 ∧
    ∀ v, v ∈ evalRTE op_sem cat db x ↔ ∃ p, p ∈ (input op_sem cat db x).1 ∧ p.1 = v.
Proof.
  intros Hq Hdb Hok x Hx. destruct (leaf_good cat q r Hq x Hx) as (s & Hsub & Hoks & _ & Hw).
  assert (out_width q = length (targetList q)) as Ho.
  { apply out_width_all. eapply Forall_impl; [exact (set_shown _ _ _ Hq)|]. by intros te []. }
  assert ((input op_sem cat db x).1 = evalProv op_sem cat db s) as ->.
  { destruct Hsub as [[Hk _] Hs]. destruct x. cbn in *. by subst. }
  rewrite (sub_rte_eval _ _ _ _ _ Hsub). split.
  - eapply Forall_impl; [by apply (evalProv_widths op_sem cat db Hdb)|]. intros p [-> _]. congruence.
  - destruct (evalProv_covers op_sem cat db s Hoks) as [H1 H2]. intros v. split.
    + intros Hv. by destruct (H2 v Hv) as (p & Hp & <-); exists p.
    + intros (p & Hp & <-). by destruct (H1 p Hp) as (y & Hy & <-).
Qed.

Lemma wl_rows_projected db q t v :
  set_query cat q t → fits cat db → query_ok cat q = true →
  (∃ r, r ∈ rtable q ∧ v ∈ evalRTE op_sem cat db r) ↔
  ∃ v', v' ∈ concat (wl_tabs 0 (input op_sem cat db <$> rtable q)) ∧ take (out_width q) v' = v.
Proof.
  intros Hq Hdb Hok. setoid_rewrite elem_of_wl_tabs. split.
  - intros (x & Hx & Hv). destruct (union_input_rows db q t Hq Hdb Hok x Hx) as [Hw Hi]. apply Hi in Hv as (p & Hp & <-).
    destruct (list_elem_of_split _ _ Hx) as (pre & post & E). rewrite E, fmap_app.
    eexists. split; [by eexists _, _, _, p; split_and!|]. unfold wl_row. apply take_app_length'. symmetry.
    by apply (proj1 (Forall_forall _ _) Hw).
  - intros (v' & (pre & o & post & p & E & Hp & ->) & <-).
    assert (o ∈ input op_sem cat db <$> rtable q) as (x & -> & Hx)%list_elem_of_fmap
      by (rewrite E; apply elem_of_app; right; left).
    destruct (union_input_rows db q t Hq Hdb Hok x Hx) as [Hw Hi]. exists x. split; [done|]. apply Hi. exists p. split; [done|].
    unfold wl_row. symmetry. apply take_app_length'. symmetry. by apply (proj1 (Forall_forall _ _) Hw).
Qed.

(** C14: The alternative semantics of a union.  With [prov_use_wl_union_semantics], for a well-formed union of any number of
    queries without set operations the rewriter succeeds; the provenance columns are those of the inputs side by side.
    The rewritten query returns, one input after the other, the rows of every input with their witnesses in
    the columns of that input and NULL in the columns of the others (and then applies LIMIT to these rows).  Without
    LIMIT, every row of the union appears, and nothing else. *)
Theorem wl_union_provenance q all l r fuel st :
  query_ok cat q = true → setOperations q = Some (SetOperationStmt SETOP_UNION all l r) →
  one_operation SETOP_UNION l = true → one_operation SETOP_UNION r = true → forallb set_free_rte (rtable q) = true →
  (need q ≤ fuel)%nat →
  ∃ q' st' pl, rewriteQueryNode cat true true fuel q st = Ok (q', st') ∧ pStack st' = pl :: pStack st ∧
    length pl = prov_width cat q ∧ resno <$> targetList q' = cols_from 1 (out_width q + prov_width cat q) ∧
    ∀ db, fits cat db →
      evalQ db q' = limited op_sem q (concat (wl_tabs 0 (input op_sem cat db <$> rtable q))) ∧
      (has_limit q = false → ∀ v, v ∈ evalQ db q ↔ ∃ v', v' ∈ evalQ db q' ∧ take (out_width q) v' = v).
Proof.
  intros Hok Ho Hl Hr Hfree Hf.
  destruct (union_rewritten q all l r fuel st _ Hok Ho Hl Hr Hfree Hf (empty_fits cat)) as (q' & st' & pl & E & P & W1 & W2 & _).
  exists q', st', pl. split_and!; [done..|]. intros db Hdb.
  destruct (union_rewritten q all l r fuel st db Hok Ho Hl Hr Hfree Hf Hdb) as (q2 & st2 & pl2 & E2 & _ & _ & _ & _ & Ev).
  rewrite E in E2. injection E2 as <- <-. split; [exact Ev|]. intros Hlim v. apply has_limit_none in Hlim as Hnl.
  rewrite Ev, limited_none by apply Hnl. pose proof (query_ok_set _ _ _ Hok Ho) as Hq.
  destruct (shape_of _ 1 (rtable q) (set_indexes _ _ _ Hq)) as (T & HT & Ht). destruct T as [x|op a L R]; [done|].
  rewrite (evalQ_tree op_sem cat db q _ Hq op a L R HT Ht), limited_none by apply Hnl.
  rewrite (elem_of_union db (Op op a L R) 1) by (rewrite Ht; cbn; by rewrite Hl, Hr). rewrite HT.
  by apply (wl_rows_projected db q _ v Hq Hdb Hok).
Qed.

(** A row of a difference is a row of its left argument. *)
Lemma except_in all (l r : list tuple) v : v ∈ setop SETOP_EXCEPT all l r → v ∈ l.
Proof.
  destruct all; [apply bag_except_in|]. intros H%dedup_on_in. by apply list_elem_of_filter in H as [_ ?].
Qed.

Lemma except_rewritten q all r rl rs s fuel st db :
  query_ok cat q = true → setOperations q = Some (SetOperationStmt SETOP_EXCEPT all (SetOpRef 1) r) →
  rtable q = rl :: rs → subquery rl = Some s → set_free s = true → forallb (view_free_rte cat) rs = true →
  (need q ≤ fuel)%nat → fits cat db →
  ∃ q' st' pl, rewriteQueryNode cat true true fuel q st = Ok (q', st') ∧ pStack st' = pl :: pStack st ∧
    wl_except cat op_sem db q s rs q' pl.
Proof.
  intros Hok Ho Hrt Hs Hfree Hviews Hf Hdb. pose proof (query_ok_set _ _ _ Hok Ho) as Hq. pose proof (set_grouped _ _ _ Hq) as Hg.
  unfold grouped in Hg. rewrite !orb_false_iff in Hg. destruct Hg as [[Ha _] _].
  pose proof (need_unfold q) as Hn. destruct fuel as [|fuel]; [lia|]. cbn [rewriteQueryNode]. rewrite Ha, Ho.
  destruct (leaf_good cat q _ Hq rl) as (s0 & Hgood); [rewrite Hrt; left|]. pose proof Hgood as ([_ Hs0] & Hoks & Hlt & _).
  rewrite Hs in Hs0. injection Hs0 as <-.
  eapply (rewriteSetQuery_except cat op_sem db); [done|by eapply query_ok_level0|done..| |by apply forallb_Forall].
  apply (rewriteQueryNode_correct op_sem cat db Hdb true); [done..|lia].
Qed.

(** C15: The alternative semantics of a difference.  With [prov_use_wl_union_semantics], for a well-formed EXCEPT or
    EXCEPT ALL whose left argument is a query without set operations (the right one may be any tree of set operations)
    and with no view below its right argument, the rewritten query returns every row of the original
    query with each of its witnesses in the left argument, followed by NULL for every column of the base relations below
    the right argument; no row of the original query is lost. *)
Theorem wl_except_provenance q all r rl rs s fuel st :
  query_ok cat q = true → setOperations q = Some (SetOperationStmt SETOP_EXCEPT all (SetOpRef 1) r) →
  rtable q = rl :: rs → subquery rl = Some s → set_free s = true → forallb (view_free_rte cat) rs = true →
  (need q ≤ fuel)%nat →
  ∃ q' st' pl, rewriteQueryNode cat true true fuel q st = Ok (q', st') ∧ pStack st' = pl :: pStack st ∧
    length pl = prov_width cat q ∧ resno <$> targetList q' = cols_from 1 (out_width q + prov_width cat q) ∧
    ∀ db, fits cat db →
      evalQ db q' = (evalQ db q ≫= λ t, (λ w, t ++ w ++ nulls (sum_list (rte_prov_width cat <$> rs))) <$>
                       of_row t (evalProv op_sem cat db s)) ∧
      ∀ t, t ∈ evalQ db q → of_row t (evalProv op_sem cat db s) ≠ [].
Proof.
  intros Hok Ho Hrt Hs Hfree Hviews Hf.
  destruct (except_rewritten q all r rl rs s fuel st _ Hok Ho Hrt Hs Hfree Hviews Hf (empty_fits cat)) as (q' & st' & pl & E & P & W1 & W2 & _).
  exists q', st', pl. split_and!; [done..|]. intros db Hdb.
  destruct (except_rewritten q all r rl rs s fuel st db Hok Ho Hrt Hs Hfree Hviews Hf Hdb) as (q2 & st2 & pl2 & E2 & _ & _ & _ & Ev).
  rewrite E in E2. injection E2 as <- <-. split; [exact Ev|]. intros t Ht.
  pose proof (query_ok_set _ _ _ Hok Ho) as Hq. rewrite (evalQuery_set _ _ _ _ _ Hq) in Ht. apply limited_in in Ht.
  cbn [eval_setop] in Ht. apply except_in in Ht. rewrite Hrt in Ht. cbn in Ht.
  destruct (leaf_good cat q _ Hq rl) as (s0 & (Hsub & Hoks & _)); [rewrite Hrt; left|].
  pose proof Hsub as [_ Hs0]. rewrite Hs in Hs0. injection Hs0 as <-. change (t ∈ evalRTE op_sem cat db rl) in Ht.
  rewrite (sub_rte_eval _ _ _ _ _ Hsub) in Ht. destruct (evalProv_covers op_sem cat db s Hoks) as [_ H2].
  destruct (H2 t Ht) as (p & Hp & Et). intros Hn.
  assert (p.2 ∈ of_row t (evalProv op_sem cat db s)) as Hin.
  { unfold of_row. apply list_elem_of_fmap_2, list_elem_of_filter. done. }
  rewrite Hn in Hin. by apply elem_of_nil in Hin.
Qed.

End rewriter.

(** ** Examples *)

Definition three0 : Query :=
  set0 [scan0 1; scan0 2; scan0 2]
    (SetOperationStmt SETOP_UNION false (SetOperationStmt SETOP_UNION false (SetOpRef 1) (SetOpRef 2)) (SetOpRef 3)).

(** The rows of a query rewritten with the alternative semantics. *)
Definition wl_result (opt : bool) (q : Query) (db : Z → list tuple) : list tuple :=
  match rewriteQueryNode cat0 opt true (need q) q start0 with Ok (q', _) => evalQuery ops0 cat0 db q' | Err _ => [] end.

Lemma wl_union_provenance_witness :
  (∀ v, v ∈ evalQuery ops0 cat0 db0 three0 ↔ ∃ v', v' ∈ wl_result true three0 db0 ∧ take 2 v' = v) ∧
  [Some 5; Some 50; None; None; None; None; Some 5; Some 50]%Z ∈ wl_result true three0 db0.
Proof.
  unfold wl_result.
  destruct (wl_union_provenance ops0 cat0 three0 false (SetOperationStmt SETOP_UNION false (SetOpRef 1) (SetOpRef 2)) (SetOpRef 3)
    (need three0) start0) as (q' & st' & pl & E & _ & _ & _ & H).
  - vm_compute. reflexivity.
  - reflexivity.
  - reflexivity.
  - reflexivity.
  - reflexivity.
  - vm_compute. lia.
  - rewrite E. destruct (H db0 fits0) as [Ev Hrows]. split; [exact (Hrows eq_refl)|].
    rewrite Ev. apply (bool_decide_eq_true_1 (_ ∈ _)). vm_compute. reflexivity.
Defined.

Lemma wl_except_provenance_witness :
  [Some 2; Some 6; Some 2; Some 6; None; None]%Z ∈ wl_result true (binary0 SETOP_EXCEPT false 1 2) db0.
Proof.
  unfold wl_result.
  destruct (wl_except_provenance ops0 cat0 (binary0 SETOP_EXCEPT false 1 2) false (SetOpRef 2) (scan0 1) [scan0 2] (scan_query0 1)
    (need (binary0 SETOP_EXCEPT false 1 2)) start0) as (q' & st' & pl & E & _ & _ & _ & H).
  - vm_compute. reflexivity.
  - reflexivity.
  - reflexivity.
  - reflexivity.
  - reflexivity.
  - reflexivity.
  - vm_compute. lia.
  - rewrite E. destruct (H db0 fits0) as [Ev _]. rewrite Ev. apply (bool_decide_eq_true_1 (_ ∈ _)). vm_compute. reflexivity.
Defined.

(** ** LIMIT

    The union itself is rewritten, so its LIMIT counts the rows of the inputs. *)

(** [SELECT a, b FROM r UNION SELECT a, b FROM s LIMIT 2] *)
Definition limited_union0 : Query :=
  mkQuery CMD_SELECT false false [scan0 1; scan0 2] [] None
    [mkTE (EVar (col 1 1)) 1 (Some "a") 0 0 0 false; mkTE (EVar (col 1 2)) 2 (Some "b") 0 0 0 false]
    [] None [] [] None (Some (EConst 20 (-1) (Some 2%Z))) (Some (SetOperationStmt SETOP_UNION false (SetOpRef 1) (SetOpRef 2)))
    false true.

(** The second row of the result is missing if the first one is in both tables. *)
Theorem wl_union_limit_loses_row :
  evalQuery ops0 cat0 db4 limited_union0 = [[Some 1; Some 5]; [Some 2; Some 6]]%Z ∧
  take 2 <$> wl_result true limited_union0 db4 = [[Some 1; Some 5]; [Some 1; Some 5]]%Z.
Proof. split; vm_compute; reflexivity. Qed.

(** ** Unions below a union

    [addDummyProvAttrs] appends NULLs to the target list of the rewritten input.  If the input is itself a union, its rows
    come from its own inputs, which have no such columns. *)

(** With the set optimisation off, the union of three tables becomes a union below a union: the rewritten query has
    8 columns, and the rows of its first input 6 (PostgreSQL's planner refuses a set operation with more target entries
    than columns). *)
Theorem wl_nested_union_short_rows :
  match rewriteQueryNode cat0 false true (need three0) three0 start0 with
  | Ok (q', _) => (length (targetList q'), length <$> evalQuery ops0 cat0 db0 q')
  | Err _ => (0, [])
  end%nat = (8, [6; 6; 6; 6; 6; 6; 8; 8; 8])%nat.
Proof. vm_compute. reflexivity. Qed.

End UnionProps.
