(* ===== verification/CopyMap.v ===== *)
(** * Copy maps
      ([src/src/backend/provrewrite/copysem/prov_copy_map.c], the helpers of
       [src/src/backend/provrewrite/copysem/prov_copy_util.c], the nodes of [src/src/include/provrewrite/prov_nodes.h])

    Under copy contribution semantics only the tuples count whose attribute values are copied to the result.  A copy map records,
    for every query node, which attributes of the base relations below it are copied to which
    result attributes, and under which conditions.  A static analysis of the maps then tells for
    which base relations the conditions always or never hold.

    The map of a query node links each of its entries to an entry of the map of a range table entry ([child]).  Here a map contains
    the maps of its inputs, and the children of its entries are the entries of the inputs, in order.
    The constant folding of the optimizer ([eval_const_expressions]) is the operation of a class. *)

From Stdlib Require Import ZArith Lia.
From stdpp Require Import base strings numbers list gmap.
From S2P Require Import Prelude BubbleSort AttrName QueryTree RewriteSPJ RewriteAggr.
Import QueryTree RewriteSPJ RewriteAggr.

Module CopyMap.

(** ** Data *)

Inductive ContributionType :=
  | CONTR_COPY_COMPLETE_TRANSITIVE
  | CONTR_COPY_COMPLETE_NONTRANSITIVE
  | CONTR_COPY_PARTIAL_TRANSITIVE
  | CONTR_COPY_PARTIAL_NONTRANSITIVE.

Definition IS_TRANSC (c : ContributionType) : bool :=
  match c with CONTR_COPY_COMPLETE_TRANSITIVE | CONTR_COPY_PARTIAL_TRANSITIVE => true | _ => false end.
Definition IS_PARTIALC (c : ContributionType) : bool :=
  match c with CONTR_COPY_PARTIAL_NONTRANSITIVE | CONTR_COPY_PARTIAL_TRANSITIVE => true | _ => false end.

Inductive InclCondType := INCL_EXISTS | INCL_EQUAL | INCL_IF.

#[global] Instance InclCondType_eq_dec : EqDecision InclCondType.
Proof. solve_decision. Defined.

#[global] Instance Var_eq_dec : EqDecision Var.
Proof. solve_decision. Defined.

(** The conditions under which an attribute is copied to [incl_attr]; one of them has to hold.  A condition is about an attribute of the input, or
    about the inclusions of such an attribute. *)
Inductive AttrInclusions := mkIncl { incl_attr : Var; inclConds : list InclusionCond; incl_static : bool }
with InclusionCond := mkCond {
  inclType : InclCondType; existsAttr : Var + AttrInclusions; eqVars : list Var; cond : option Expr }.

Record CopyMapEntry := mkEntry {
  baseRelAttr : Var; provAttrName : string; outAttrIncls : list AttrInclusions;
  isStaticTrue : bool; isStaticFalse : bool }.

Record CopyMapRelEntry := mkRelEntry {
  relation : Z; refNum : Z; attrEntries : list CopyMapEntry; rtindex : Z;
  isStatic : bool; noRewrite : bool }.

(** [BaseMap]: the map of a base relation; [QueryMap]: the map of a query node, with the maps of its range table entries. *)
Inductive CopyMap :=
  | BaseMap (rel : CopyMapRelEntry)
  | QueryMap (map_rtindex : Z) (map_entries : list CopyMapRelEntry) (inputs : list (option CopyMap)).

Definition entries (m : CopyMap) : list CopyMapRelEntry :=
  match m with BaseMap rel => [rel] | QueryMap _ es _ => es end.

(** The entries the entries of a query node point to. *)
Definition children (inputs : list (option CopyMap)) : list CopyMapRelEntry :=
  inputs ≫= λ m, match m with Some m => entries m | None => [] end.

Definition MAKE_EXISTS_INCL (incl : Var + AttrInclusions) : InclusionCond := mkCond INCL_EXISTS incl [] None.
Definition MAKE_EQUAL_INCL (left : Var) (right : list Var) : InclusionCond := mkCond INCL_EQUAL (inl left) right None.
Definition MAKE_COND_INCL (incl : AttrInclusions) (condition : Expr) : InclusionCond :=
  mkCond INCL_IF (inr incl) [] (Some condition).

Definition set_outAttrIncls (l : list AttrInclusions) (a : CopyMapEntry) : CopyMapEntry :=
  mkEntry (baseRelAttr a) (provAttrName a) l (isStaticTrue a) (isStaticFalse a).
Definition set_attrEntries (l : list CopyMapEntry) (r : CopyMapRelEntry) : CopyMapRelEntry :=
  mkRelEntry (relation r) (refNum r) l (rtindex r) (isStatic r) (noRewrite r).
Definition set_rtindex (i : Z) (r : CopyMapRelEntry) : CopyMapRelEntry :=
  mkRelEntry (relation r) (refNum r) (attrEntries r) i (isStatic r) (noRewrite r).
Definition set_flags (static norewrite : bool) (r : CopyMapRelEntry) : CopyMapRelEntry :=
  mkRelEntry (relation r) (refNum r) (attrEntries r) (rtindex r) static norewrite.

(** [var->varno = i] *)
Definition set_varno (i : Z) (v : Var) : Var := move_var i (varattno v) v.

(** A new entry for the same relation, without inclusions. *)
Definition COPY_BASIC_COPYREL (r : CopyMapRelEntry) : CopyMapRelEntry :=
  mkRelEntry (relation r) (refNum r)
    ((λ a, mkEntry (baseRelAttr a) (provAttrName a) [] false false) <$> attrEntries r) (-1) false false.

(** [forboth]: update the elements of a list from those of another one, as far as the shorter reaches. *)
Fixpoint forboth {A B} (f : A → B → A) (l : list A) (k : list B) : list A :=
  match l, k with x :: l, y :: k => f x y :: forboth f l k | _, _ => l end.

(** Update the attributes of the entries selected by [p], from those of their children. *)
Definition update_rels (p : CopyMapRelEntry → CopyMapRelEntry → bool)
    (f : CopyMapRelEntry → CopyMapEntry → CopyMapEntry → CopyMapEntry) (es ch : list CopyMapRelEntry) : list CopyMapRelEntry :=
  forboth (λ rel child, if p rel child then set_attrEntries (forboth (f rel) (attrEntries rel) (attrEntries child)) rel
                        else rel) es ch.

(** Structural comparison of expressions ([equal]). *)
Fixpoint equal (x y : Expr) : bool :=
  let all := fix all (l k : list Expr) : bool :=
    match l, k with [], [] => true | x :: l, y :: k => equal x y && all l k | _, _ => false end in
  match x, y with
  | EVar v, EVar w => bool_decide (v = w)
  | EConst t m c, EConst t' m' c' => bool_decide ((t, m, c) = (t', m', c'))
  | EOpExpr o t l, EOpExpr o' t' l' => bool_decide ((o, t) = (o', t')) && all l l'
  | EBoolExpr b l, EBoolExpr b' l' =>
      match b, b' with AND_EXPR, AND_EXPR | OR_EXPR, OR_EXPR | NOT_EXPR, NOT_EXPR => all l l' | _, _ => false end
  | EDistinctExpr o t l, EDistinctExpr o' t' l' => bool_decide ((o, t) = (o', t')) && all l l'
  | EAggref f t l u s d, EAggref f' t' l' u' s' d' => bool_decide ((f, t, u, s, d) = (f', t', u', s', d')) && all l l'
  | EFuncExpr f t c l, EFuncExpr f' t' c' l' => bool_decide ((f, t, c) = (f', t', c')) && all l l'
  | ERelabelType x t m c, ERelabelType x' t' m' c' => bool_decide ((t, m, c) = (t', m', c')) && equal x x'
  | ENullTest n x, ENullTest n' x' => bool_decide (n = n') && equal x x'
  | ECaseExpr t l d, ECaseExpr t' l' d' =>
      bool_decide (t = t') && all l l' &&
      match d, d' with None, None => true | Some d, Some d' => equal d d' | _, _ => false end
  | ECaseWhen x r, ECaseWhen x' r' => equal x x' && equal r r'
  | _, _ => false
  end.

(** ** Columns *)

(** A column, possibly inside of casts. *)
Fixpoint getVarFromTeIfSimple (x : Expr) : option Var :=
  match x with
  | EVar v => Some v
  | EFuncExpr _ _ (COERCE_EXPLICIT_CAST | COERCE_IMPLICIT_CAST) [arg] => getVarFromTeIfSimple arg
  | _ => None
  end.

(** The column of a relation or subquery that a column of a join stands for.  Every step goes to an argument of the join, so
    the length of the range table bounds their number. *)
Fixpoint resolve_var (fuel : nat) (query : Query) (var : Var) : W Var :=
  match fuel with
  | O => throw Hang
  | S fuel =>
      rte ← deref (rt_fetch (varno var) (rtable query));
      if decide (rtekind rte = RTE_JOIN) then
        newVar ← deref (rt_fetch (varattno var) (joinaliasvars rte));
        resolve_var fuel query newVar
      else ret var
  end.

Definition resolveToRteVar (var : Var) (query : Query) : W Var := resolve_var (S (length (rtable query))) query var.

Fixpoint conditionOnRteVarsMutator (query : Query) (node : Expr) : W Expr :=
  let all := fix all (l : list Expr) : W (list Expr) :=
    match l with
    | [] => ret []
    | x :: l => x ← conditionOnRteVarsMutator query x; l ← all l; ret (x :: l)
    end in
  match node with
  | EVar v => v ← resolveToRteVar v query; ret (EVar v)
  | EConst _ _ _ => ret node
  | EOpExpr o t l => l ← all l; ret (EOpExpr o t l)
  | EBoolExpr b l => l ← all l; ret (EBoolExpr b l)
  | EDistinctExpr o t l => l ← all l; ret (EDistinctExpr o t l)
  | EAggref f t l u s d => l ← all l; ret (EAggref f t l u s d)
  | EFuncExpr f t c l => l ← all l; ret (EFuncExpr f t c l)
  | ERelabelType x t m c => x ← conditionOnRteVarsMutator query x; ret (ERelabelType x t m c)
  | ENullTest n x => x ← conditionOnRteVarsMutator query x; ret (ENullTest n x)
  | ECaseExpr t l d =>
      l ← all l;
      d ← match d with Some d => d ← conditionOnRteVarsMutator query d; ret (Some d) | None => ret None end;
      ret (ECaseExpr t l d)
  | ECaseWhen x r => x ← conditionOnRteVarsMutator query x; r ← conditionOnRteVarsMutator query r; ret (ECaseWhen x r)
  end.

(** ** Equality conditions *)

(** The nodes on the way from [node] to the last place where [target] occurs; [path] leads to [node], [found] is the result so far. *)
Fixpoint getPathToExprWalker (target : Expr) (path : list Expr) (node : Expr) (found : option (list Expr))
    : option (list Expr) :=
  let all := fix all (l : list Expr) (found : option (list Expr)) : option (list Expr) :=
    match l with [] => found | x :: l => all l (getPathToExprWalker target (path ++ [node]) x found) end in
  if equal node target then match path with [] => found | _ => Some path end
  else match node with
       | EVar _ | EConst _ _ _ => found
       | EOpExpr _ _ l | EBoolExpr _ l | EDistinctExpr _ _ l | EAggref _ _ l _ _ _ | EFuncExpr _ _ _ l => all l found
       | ERelabelType x _ _ _ | ENullTest _ x => getPathToExprWalker target (path ++ [node]) x found
       | ECaseExpr _ l d =>
           let found := all l found in
           match d with Some d => getPathToExprWalker target (path ++ [node]) d found | None => found end
       | ECaseWhen x r =>
           getPathToExprWalker target (path ++ [node]) r (getPathToExprWalker target (path ++ [node]) x found)
       end.

Definition is_and (x : Expr) : bool := match x with EBoolExpr AND_EXPR _ => true | _ => false end.

(** Is the expression the whole condition or an argument of its topmost ANDs? *)
Definition exprInAndOrTop (expr root : Expr) : bool :=
  if equal expr root then true
  else match getPathToExprWalker expr [] root None with Some path => forallb is_and path | None => false end.

(** The constant folding of the optimizer. *)
Class ConstFolding := { eval_const_expressions : Expr → Expr }.

Section copymap.
Context `{ConstFolding} (cat : syscache) (get_opcode : Z → Z).

(** The operator has the function of the equality operator of its left argument's type. *)
Definition isEqualityOper (opno : Z) (args : list Expr) : W bool :=
  arg ← deref (head args);
  match equality_oper cat (exprType arg) with
  | Some (eqop, _) => ret (bool_decide (get_opcode opno = get_opcode eqop))
  | None => throw (Elog "could not identify an equality operator for type %s")
  end.

(** The equalities between columns in a condition, each with [useEqual]: is it only one of several ways to satisfy the condition? *)
Fixpoint findVarEqualitiesWalker (root : Expr) (outerJoin : bool) (node : Expr) : W (list (Var * Var * bool)) :=
  let walk := fix walk (l : list Expr) : W (list (Var * Var * bool)) :=
    match l with
    | [] => ret []
    | x :: l => a ← findVarEqualitiesWalker root outerJoin x; b ← walk l; ret (a ++ b)
    end in
  match node with
  | EOpExpr opno _ args =>
      eq ← isEqualityOper opno args;
      if eq : bool then
        left ← deref (args !! 0); right ← deref (args !! 1);
        match getVarFromTeIfSimple left, getVarFromTeIfSimple right with
        | Some l, Some r => ret [(l, r, negb (negb outerJoin && exprInAndOrTop node root))]
        | _, _ => ret []
        end
      else walk args
  | EVar _ | EConst _ _ _ => ret []
  | EBoolExpr _ l | EDistinctExpr _ _ l | EAggref _ _ l _ _ _ | EFuncExpr _ _ _ l => walk l
  | ERelabelType x _ _ _ | ENullTest _ x => findVarEqualitiesWalker root outerJoin x
  | ECaseExpr _ l d =>
      a ← walk l;
      b ← match d with Some d => findVarEqualitiesWalker root outerJoin d | None => ret [] end;
      ret (a ++ b)
  | ECaseWhen x r => a ← findVarEqualitiesWalker root outerJoin x; b ← findVarEqualitiesWalker root outerJoin r; ret (a ++ b)
  end.

(** ** The graph of equal columns *)

(** A node of the graph; edges are positions of nodes.  Static edges are equalities that always hold. *)
Record EquiGraphNode := mkNode { nodeVar : Var; sEdges : list nat; nsEdges : list nat }.
Abbreviation EquiGraph := (list EquiGraphNode).

(** The last nodes for [left] and [right]; a node for [left] is not looked at again. *)
Fixpoint search_nodes (left right : Var) (k : nat) (g : EquiGraph) (l r : option nat) : option nat * option nat :=
  match g with
  | [] => (l, r)
  | cur :: g =>
      if decide (left = nodeVar cur) then search_nodes left right (S k) g (Some k) r
      else if decide (right = nodeVar cur) then search_nodes left right (S k) g l (Some k)
      else search_nodes left right (S k) g l r
  end.

(** [MAKE_EQUINODE] unless there is a node. *)
Definition ensure_node (o : option nat) (v : Var) (g : EquiGraph) : nat * EquiGraph :=
  match o with Some k => (k, g) | None => (length g, g ++ [mkNode v [] []]) end.

Definition hasEdge (g : EquiGraph) (left right : nat) (onlyS : bool) : bool :=
  match g !! left with
  | Some n => bool_decide (right ∈ sEdges n) || negb onlyS && bool_decide (right ∈ nsEdges n)
  | None => false
  end.

Definition add_ns (k : nat) (n : EquiGraphNode) : EquiGraphNode := mkNode (nodeVar n) (sEdges n) (nsEdges n ++ [k]).
Definition add_s (k : nat) (n : EquiGraphNode) : EquiGraphNode := mkNode (nodeVar n) (sEdges n ++ [k]) (nsEdges n).

(** [list_delete_ptr] removes the first occurrence. *)
Fixpoint delete_first (k : nat) (l : list nat) : list nat :=
  match l with [] => [] | x :: l => if decide (x = k) then l else x :: delete_first k l end.
Definition delete_ns (k : nat) (n : EquiGraphNode) : EquiGraphNode :=
  mkNode (nodeVar n) (sEdges n) (delete_first k (nsEdges n)).

Definition addEquiGraphEdge (eq : Var * Var * bool) (g : EquiGraph) : EquiGraph :=
  let '(lv, rv, useEqual) := eq in
  let '(l, r) := search_nodes lv rv 0 g None None in
  let '(l, g) := ensure_node l lv g in
  let '(r, g) := ensure_node r rv g in
  if useEqual : bool then
    if hasEdge g l r false then g else alter (add_ns l) r (alter (add_ns r) l g)
  else
    if hasEdge g l r true then g
    else alter (delete_ns l) r (alter (delete_ns r) l (alter (add_s l) r (alter (add_s r) l g))).

Definition analyzeConditionForCopy (query : Query) (condition : option Expr) (outerJoin : bool) (g : EquiGraph)
    : W EquiGraph :=
  match condition with
  | None => ret g
  | Some condition =>
      baseCondition ← conditionOnRteVarsMutator query condition;
      eqConds ← findVarEqualitiesWalker condition outerJoin baseCondition;
      ret (foldl (λ g eq, addEquiGraphEdge eq g) g eqConds)
  end.

(** Descending by entry and column. *)
Definition compareEquiNode (l r : EquiGraphNode) : Z :=
  if decide (varno (nodeVar l) < varno (nodeVar r))%Z then 1
  else if decide (varno (nodeVar l) > varno (nodeVar r))%Z then -1
  else if decide (varattno (nodeVar l) < varattno (nodeVar r))%Z then 1
  else if decide (varattno (nodeVar l) > varattno (nodeVar r))%Z then -1
  else 0.

(** The position of an element. *)
Fixpoint position (k : nat) (l : list nat) : nat :=
  match l with [] => 0 | x :: l => if decide (x = k) then 0 else S (position k l) end.

(** [sortList] and the numbering of the nodes: afterwards edges are positions in the sorted list. *)
Definition sort_graph (g : EquiGraph) : EquiGraph :=
  let swap := λ a b, match g !! a, g !! b with
                     | Some l, Some r => bool_decide (compareEquiNode l r = 1)%Z
                     | _, _ => false
                     end in
  let order := BubbleSort.bubble_sort swap (seq 0 (length g)) in
  omap (λ k, (λ n, mkNode (nodeVar n) ((λ e, position e order) <$> sEdges n) ((λ e, position e order) <$> nsEdges n))
             <$> g !! k) order.

(** [hasStatic] is the set of the cells of the matrix that are true.  Every call marks a cell in the row of
    [root], so their nesting is bounded by the number of nodes. *)
Fixpoint searchStaticPath (fuel : nat) (g : EquiGraph) (root node : nat) (hasStatic : gset (nat * nat))
    : W (gset (nat * nat)) :=
  match fuel with
  | O => throw Hang
  | S fuel =>
      n ← deref (g !! node);
      (fix go (es : list nat) (hasStatic : gset (nat * nat)) : W (gset (nat * nat)) :=
         match es with
         | [] => ret hasStatic
         | cur :: es =>
             if decide ((root, cur) ∈ hasStatic) then go es hasStatic
             else
               hasStatic ← searchStaticPath fuel g root cur ({[(root, cur); (cur, root)]} ∪ hasStatic);
               go es hasStatic
         end) (sEdges n) hasStatic
  end.

Fixpoint static_paths (g : EquiGraph) (roots : list nat) (hasStatic : gset (nat * nat)) : W (gset (nat * nat)) :=
  match roots with
  | [] => ret hasStatic
  | root :: roots =>
      hasStatic ← searchStaticPath (S (S (length g))) g root root hasStatic;
      static_paths g roots hasStatic
  end.

(** One condition for each path from [start] to [last]: the columns behind its edges that are not static equal that of [start].  The nodes
    on the current path are in [haveSeen], so its length is bounded by the number of nodes. *)
Fixpoint addEqualityForNonStaticPaths (fuel : nat) (g : EquiGraph) (start last cur : nat) (haveSeen : gset nat)
    (conds : list InclusionCond) (eqPath : list Var) (edgeIsStatic : bool) : W (gset nat * list InclusionCond) :=
  match fuel with
  | O => throw Hang
  | S fuel =>
      if decide (cur ∈ haveSeen) then ret (haveSeen, conds)
      else
        n ← deref (g !! cur); s ← deref (g !! start);
        let onPath := bool_decide (cur ≠ start) && negb edgeIsStatic in
        let eqPath := if onPath then eqPath ++ [nodeVar n] else eqPath in
        if decide (cur = last) then ret (haveSeen, conds ++ [MAKE_EQUAL_INCL (nodeVar s) eqPath])
        else
          let go := fix go (isStatic : bool) (es : list nat) (haveSeen : gset nat) (conds : list InclusionCond) :=
            match es with
            | [] => ret (haveSeen, conds)
            | e :: es =>
                '(haveSeen, conds) ← addEqualityForNonStaticPaths fuel g start last e haveSeen conds eqPath isStatic;
                go isStatic es haveSeen conds
            end in
          '(haveSeen, conds) ← go true (sEdges n) ({[cur]} ∪ haveSeen) conds;
          '(haveSeen, conds) ← go false (nsEdges n) haveSeen conds;
          ret (if onPath then haveSeen ∖ {[cur]} else haveSeen, conds)
  end.

(** The position of the first node for the column. *)
Fixpoint getNodePos (g : EquiGraph) (var : Var) : option nat :=
  match g with
  | [] => None
  | node :: g => if decide (varno (nodeVar node) = varno var ∧ varattno (nodeVar node) = varattno var) then Some 0
                 else S <$> getNodePos g var
  end.

(** The inclusions in the columns [js] equal to the column of [incl], which is node [nodePos]. *)
Fixpoint equal_incls (g : EquiGraph) (hasStatic : gset (nat * nat)) (incl : AttrInclusions) (nodePos : nat)
    (js : list nat) : W (list AttrInclusions) :=
  match js with
  | [] => ret []
  | j :: js =>
      n ← deref (g !! j);
      new ← (if decide (j = nodePos) then ret []
             else if decide ((nodePos, j) ∈ hasStatic) then
               ret [mkIncl (nodeVar n) [MAKE_EXISTS_INCL (inl (incl_attr incl))] false]
             else
               '(_, conds) ← addEqualityForNonStaticPaths (S (length g)) g nodePos j nodePos ∅ [] [] true;
               ret (match conds with [] => [] | _ => [mkIncl (nodeVar n) conds false] end));
      rest ← equal_incls g hasStatic incl nodePos js;
      ret (new ++ rest)
  end.

Fixpoint new_incls (g : EquiGraph) (hasStatic : gset (nat * nat)) (incls : list AttrInclusions)
    : W (list AttrInclusions) :=
  match incls with
  | [] => ret []
  | incl :: incls =>
      new ← match getNodePos g (incl_attr incl) with
            | None => ret []
            | Some nodePos => equal_incls g hasStatic incl nodePos (seq 0 (length g))
            end;
      rest ← new_incls g hasStatic incls;
      ret (new ++ rest)
  end.

Fixpoint map_attrs (f : CopyMapEntry → W CopyMapEntry) (l : list CopyMapEntry) : W (list CopyMapEntry) :=
  match l with [] => ret [] | a :: l => a ← f a; l ← map_attrs f l; ret (a :: l) end.

Fixpoint map_rels (f : CopyMapRelEntry → CopyMapEntry → W CopyMapEntry) (l : list CopyMapRelEntry)
    : W (list CopyMapRelEntry) :=
  match l with
  | [] => ret []
  | r :: l => a ← map_attrs (f r) (attrEntries r); l ← map_rels f l; ret (set_attrEntries a r :: l)
  end.

Definition addCondForEquiGraph (g : EquiGraph) (rels : list CopyMapRelEntry) : W (list CopyMapRelEntry) :=
  let g := sort_graph g in
  hasStatic ← static_paths g (seq 0 (length g)) ∅;
  map_rels (λ _ attr, new ← new_incls g hasStatic (outAttrIncls attr);
                      ret (set_outAttrIncls (outAttrIncls attr ++ new) attr)) rels.

(** ** Joins *)

Fixpoint getJoinTreeNodeWalker (node : Node) (rtindex : Z) : option Node :=
  match node with
  | RangeTblRef i => if decide (i = rtindex) then Some node else None
  | JoinExpr _ larg rarg _ i =>
      if decide (i = rtindex) then Some node
      else match getJoinTreeNodeWalker larg rtindex with
           | Some n => Some n
           | None => getJoinTreeNodeWalker rarg rtindex
           end
  end.

Fixpoint getJoinTreeNode (from : list Node) (rtindex : Z) : option Node :=
  match from with
  | [] => None
  | n :: from => match getJoinTreeNodeWalker n rtindex with Some r => Some r | None => getJoinTreeNode from rtindex end
  end.

Fixpoint getRTindicesForJoin (n : Node) : list Z :=
  match n with RangeTblRef i => [i] | JoinExpr _ l r _ _ => getRTindicesForJoin l ++ getRTindicesForJoin r end.

(** The indexes of the entries [getCopyRelsForRtindex] returns. *)
Definition getCopyRelsForRtindex (query : Query) (rtindex : Z) : W (list Z) :=
  rte ← deref (rt_fetch rtindex (rtable query));
  if decide (rtekind rte = RTE_JOIN) then
    node ← deref (getJoinTreeNode (fromlist query) rtindex);
    ret (getRTindicesForJoin node ++ [rtindex])
  else ret [rtindex].

(** The inclusions of an attribute in the columns of the entry it comes from. *)
Definition join_incls (rel : CopyMapRelEntry) (attr childAttr : CopyMapEntry) : CopyMapEntry :=
  set_outAttrIncls
    (outAttrIncls attr ++
     ((λ ci, mkIncl (set_varno (rtindex rel) (incl_attr ci)) [MAKE_EXISTS_INCL (inl (incl_attr ci))] (incl_static ci))
      <$> outAttrIncls childAttr)) attr.

Definition IS_OUTER_JOIN (jt : JoinType) : bool := match jt with JOIN_INNER => false | _ => true end.

Fixpoint handleJoinTreeItem (query : Query) (contr : ContributionType) (ch : list CopyMapRelEntry) (joinItem : Node)
    (es : list CopyMapRelEntry) (g : EquiGraph) : W (list CopyMapRelEntry * EquiGraph) :=
  match joinItem with
  | JoinExpr jt larg rarg quals i =>
      '(es, g) ← handleJoinTreeItem query contr ch larg es g;
      '(es, g) ← handleJoinTreeItem query contr ch rarg es g;
      getCopyRelsForRtindex query i;;
      if IS_TRANSC contr then g ← analyzeConditionForCopy query quals (IS_OUTER_JOIN jt) g; ret (es, g)
      else ret (es, g)
  | RangeTblRef i =>
      rels ← getCopyRelsForRtindex query i;
      ret (update_rels (λ rel _, bool_decide (rtindex rel ∈ rels)) join_incls es ch, g)
  end.

Fixpoint handle_items (query : Query) (contr : ContributionType) (ch : list CopyMapRelEntry) (from : list Node)
    (es : list CopyMapRelEntry) (g : EquiGraph) : W (list CopyMapRelEntry * EquiGraph) :=
  match from with
  | [] => ret (es, g)
  | n :: from => '(es, g) ← handleJoinTreeItem query contr ch n es g; handle_items query contr ch from es g
  end.

Definition handleJoins (query : Query) (contr : ContributionType) (ch es : list CopyMapRelEntry)
    : W (list CopyMapRelEntry) :=
  '(es, g) ← handle_items query contr ch (fromlist query) es [];
  g ← (if IS_TRANSC contr then analyzeConditionForCopy query (quals query) false g else ret g);
  addCondForEquiGraph g es.

(** ** Target lists *)

(** The conditions under which a CASE copies a column, with the column.  A cast in ELSE is read as if it were a column, with the identifier
    of its function as range table index; no range table is that long, and it is no column here. *)
Abbreviation CaseInfo := (list (Expr * option Var)).

(** The conditions of the branches and those of them that copy a column. *)
Fixpoint case_branches (query : Query) (args : list Expr) : W (list Expr * CaseInfo) :=
  match args with
  | [] => ret ([], [])
  | ECaseWhen whenCond result :: args =>
      info ← match getVarFromTeIfSimple result with
             | Some var => var ← resolveToRteVar var query; ret [(whenCond, Some var)]
             | None => ret []
             end;
      '(conds, infos) ← case_branches query args;
      ret (whenCond :: conds, info ++ infos)
  | _ => throw Segv
  end.

(** ELSE copies under the negation of the conjunction of all conditions. *)
Definition getCaseInfoIfSimple (query : Query) (expr : Expr) : W (option CaseInfo) :=
  match expr with
  | ECaseExpr _ args defresult =>
      '(conds, infos) ← case_branches query args;
      let elseInfo := match defresult with
                      | Some d =>
                          match getVarFromTeIfSimple d with
                          | Some _ => [(makeBoolExpr NOT_EXPR [makeBoolExpr AND_EXPR conds], match d with EVar v => Some v | _ => None end)]
                          | None => []
                          end
                      | None => []
                      end in
      ret (match infos ++ elseInfo with [] => None | infos => Some infos end)
  | _ => ret None
  end.

(** For each visible target entry the column it copies, if it is one, the columns it copies if it is a CASE, and its number. *)
Fixpoint simple_vars (query : Query) (tes : list TargetEntry) : W (list (option Var * option CaseInfo * Z)) :=
  match tes with
  | [] => ret []
  | te :: tes =>
      if resjunk te then simple_vars query tes
      else
        var ← match getVarFromTeIfSimple (expr te) with
              | Some var => var ← resolveToRteVar var query; ret (Some var)
              | None => ret None
              end;
        caseInfo ← getCaseInfoIfSimple query (expr te);
        rest ← simple_vars query tes;
        ret ((var, caseInfo, resno te) :: rest)
  end.

(** Add a condition to the inclusions for [var], which are new if there are none ([getInclForVar]). *)
Fixpoint add_projection (var : Var) (newCond : InclusionCond) (l : list AttrInclusions) : list AttrInclusions :=
  match l with
  | [] => [mkIncl var [newCond] false]
  | x :: l =>
      if decide (incl_attr x = var) then mkIncl (incl_attr x) (inclConds x ++ [newCond]) (incl_static x) :: l
      else x :: add_projection var newCond l
  end.

Definition same_column (v w : Var) : Prop := varno v = varno w ∧ varattno v = varattno w.
#[global] Instance same_column_dec v w : Decision (same_column v w).
Proof. apply _. Defined.

(** The target entries that copy the column of [incl]. *)
Fixpoint project_incl (rtindex : Z) (simpleVars : list (option Var * option CaseInfo * Z)) (incl : AttrInclusions)
    (acc : list AttrInclusions) : list AttrInclusions :=
  match simpleVars with
  | [] => acc
  | (teVar, _, pos) :: simpleVars =>
      project_incl rtindex simpleVars incl
        (match teVar with
         | Some v =>
             if decide (same_column v (incl_attr incl)) then
               add_projection (makeVar rtindex pos (vartype v) (vartypmod v) 0) (MAKE_EXISTS_INCL (inr incl)) acc
             else acc
         | None => acc
         end)
  end.

(** The branches of one CASE that copy the column of [incl]. *)
Definition project_branch (rtindex pos : Z) (incl : AttrInclusions) (acc : list AttrInclusions) (branch : Expr * option Var)
    : list AttrInclusions :=
  let '(caseCond, caseVar) := branch in
  match caseVar with
  | Some v =>
      if decide (same_column v (incl_attr incl)) then
        add_projection (makeVar rtindex pos (vartype v) (vartypmod v) 0) (MAKE_COND_INCL incl caseCond) acc
      else acc
  | None => acc
  end.

Fixpoint project_cases (rtindex : Z) (simpleVars : list (option Var * option CaseInfo * Z)) (incl : AttrInclusions)
    (acc : list AttrInclusions) : list AttrInclusions :=
  match simpleVars with
  | [] => acc
  | (_, caseInfo, pos) :: simpleVars =>
      project_cases rtindex simpleVars incl
        (match caseInfo with Some infos => foldl (project_branch rtindex pos incl) acc infos | None => acc end)
  end.

Definition mapChildVarsToTargetEntries (query : Query) (rtindex : Z) (tes : list TargetEntry)
    (es : list CopyMapRelEntry) : W (list CopyMapRelEntry) :=
  simpleVars ← simple_vars query tes;
  ret ((λ rel, set_attrEntries
                 ((λ attr, set_outAttrIncls
                            (foldl (λ acc incl, project_cases rtindex simpleVars incl (project_incl rtindex simpleVars incl acc)) []
                               (outAttrIncls attr)) attr) <$> attrEntries rel) rel) <$> es).

(** Of an aggregation only the GROUP BY columns are copied. *)
Definition generateAggCopyMap (query : Query) (rtindex : Z) (es : list CopyMapRelEntry) : W (list CopyMapRelEntry) :=
  mapChildVarsToTargetEntries query rtindex (getGroupByTLEs query) es.

Definition handleProjectionCopyMap (query : Query) (rtindex : Z) (es : list CopyMapRelEntry)
    : W (list CopyMapRelEntry) := mapChildVarsToTargetEntries query rtindex (targetList query) es.

(** ** Set operations *)

Definition set_incls (rel : CopyMapRelEntry) (attr childAttr : CopyMapEntry) : CopyMapEntry :=
  set_outAttrIncls
    (outAttrIncls attr ++
     ((λ ci, let childVar := set_varno (rtindex rel) (incl_attr ci) in
             let innerIncl := mkIncl childVar [MAKE_EXISTS_INCL (inl childVar)] (incl_static ci) in
             mkIncl (set_varno 1 (incl_attr ci)) [MAKE_EXISTS_INCL (inr innerIncl)] (incl_static ci))
      <$> outAttrIncls childAttr)) attr.

(** [getAllEntriesForRTE]: the entries whose child has the index. *)
Fixpoint handleSetOp (setOp : SetOpNode) (ch es : list CopyMapRelEntry) : list CopyMapRelEntry :=
  match setOp with
  | SetOpRef i => update_rels (λ _ child, bool_decide (rtindex child = i)) set_incls es ch
  | SetOperationStmt SETOP_EXCEPT _ larg _ => handleSetOp larg ch es
  | SetOperationStmt _ _ larg rarg => handleSetOp rarg ch (handleSetOp larg ch es)
  end.

(** ** The map of a query *)

Fixpoint base_attrs (rte : RangeTblEntry) (vars : list Var) (ns : list string) : W (list CopyMapEntry) :=
  match vars, ns with
  | var :: vars, name :: ns =>
      name ← with_refs (AttrName.createProvAttrName (names cat) (attr_rte rte) name);
      rest ← base_attrs rte vars ns;
      ret (mkEntry var name [mkIncl var [] true] true false :: rest)
  | _, _ => ret []
  end.

Definition generateBaseRelCopyMap (rte : RangeTblEntry) (rtindex : Z) : W CopyMap :=
  refNum ← with_refs (AttrName.getRelationRefNum (relid rte) true);
  '(ns, vars) ← expandRTEWithParam cat rte rtindex 0;
  attrs ← base_attrs rte vars ns;
  ret (BaseMap (mkRelEntry (relid rte) refNum attrs rtindex true false)).

Definition setCopyMapRTindices (m : CopyMap) (i : Z) : CopyMap :=
  match m with
  | BaseMap rel => BaseMap (set_rtindex i rel)
  | QueryMap k es inputs => QueryMap k (set_rtindex i <$> es) inputs
  end.

(** New entries for those of the inputs, which are numbered from [i + 1] on. *)
Fixpoint link_entries (inputs : list (option CopyMap)) (i : Z) : list CopyMapRelEntry :=
  match inputs with
  | [] => []
  | m :: inputs =>
      ((λ r, set_rtindex (i + 1) (COPY_BASIC_COPYREL r)) <$> match m with Some m => entries m | None => [] end)
      ++ link_entries inputs (i + 1)
  end.

Fixpoint generateCopyMapForQueryNode (contr : ContributionType) (query : Query) (rtindex : Z) : W CopyMap :=
  inputs ← (fix go (rtes : list RangeTblEntry) (i : Z) : W (list (option CopyMap)) :=
              match rtes with
              | [] => ret []
              | rte :: rtes => m ← input_map contr rte (i + 1); rest ← go rtes (i + 1)%Z; ret (m :: rest)
              end) (rtable query) 0%Z;
  let es := link_entries inputs 0 in
  match setOperations query with
  | Some setOp => ret (QueryMap rtindex (handleSetOp setOp (children inputs) es) inputs)
  | None =>
      es ← handleJoins query contr (children inputs) es;
      es ← (if hasAggs query then generateAggCopyMap query rtindex es else handleProjectionCopyMap query rtindex es);
      ret (QueryMap rtindex es inputs)
  end
with input_map (contr : ContributionType) (rte : RangeTblEntry) (i : Z) : W (option CopyMap) :=
  match rtekind rte with
  | RTE_SUBQUERY =>
      match subquery rte with
      | Some q => m ← generateCopyMapForQueryNode contr q i; ret (Some (setCopyMapRTindices m i))
      | None => throw Segv
      end
  | RTE_RELATION => m ← generateBaseRelCopyMap rte i; ret (Some m)
  | _ => ret None
  end.

(** ** Static analysis *)

Inductive StaticType := STATIC_TRUE | STATIC_FALSE | NOT_STATIC.

#[global] Instance StaticType_eq_dec : EqDecision StaticType.
Proof. solve_decision. Defined.

(** The entry of the attribute; the variable of the loop keeps the last entry if there is none. *)
Fixpoint find_attr (attno : Z) (l : list CopyMapEntry) (cur : option CopyMapEntry) : option CopyMapEntry :=
  match l with
  | [] => cur
  | a :: l => if decide (varattno (baseRelAttr a) = attno) then Some a else find_attr attno l (Some a)
  end.

Definition getInclusionStaticType (inclVar baseVar : Var) (rel : CopyMapRelEntry) : W StaticType :=
  attr ← deref (find_attr (varattno baseVar) (attrEntries rel) None);
  ret (if isStaticTrue attr then STATIC_TRUE
       else if isStaticFalse attr then STATIC_FALSE
       else if existsb (λ incl, bool_decide (varattno (incl_attr incl) = varattno inclVar) && incl_static incl)
                 (outAttrIncls attr) then STATIC_TRUE
       else NOT_STATIC).

(** Conditions on attributes of the child: does one always hold, can one hold? *)
Fixpoint static_conds (baseVar : Var) (child : CopyMapRelEntry) (conds : list InclusionCond) : W (bool * bool) :=
  match conds with
  | [] => ret (false, false)
  | c :: conds =>
      v ← match existsAttr c with inl v => ret v | inr _ => throw Segv end;
      ty ← getInclusionStaticType v baseVar child;
      '(always, may) ← static_conds baseVar child conds;
      ret (bool_decide (inclType c = INCL_EXISTS ∧ ty = STATIC_TRUE) || always, bool_decide (ty ≠ STATIC_FALSE) || may)
  end.

(** Is an expression constant?  NULL counts as false. *)
Definition getExprStaticType (expr : option Expr) : W StaticType :=
  expr ← deref expr;
  ret (match eval_const_expressions expr with
       | EConst _ _ v => if decide (v = Some 0%Z ∨ v = None) then STATIC_FALSE else STATIC_TRUE
       | _ => NOT_STATIC
       end).

(** The flags [attrIncl->isStatic], [attr->isStaticTrue] and [attr->isStaticFalse] during the analysis. *)
Abbreviation static_flags := (bool * bool * bool)%type.

Definition raise_flags (always may : bool) (fl : static_flags) : static_flags :=
  let '(incl, st, sf) := fl in (incl || always, st || always, sf && negb may).

(** The condition of a CASE. *)
Definition if_flags (ty : StaticType) (fl : static_flags) : static_flags :=
  let '(incl, st, sf) := fl in
  if bool_decide (ty ≠ STATIC_TRUE) && st then (false, false, sf)
  else if decide (ty = STATIC_FALSE) then (false, false, true)
  else fl.

(** The conditions of an inclusion, with the flags of nested inclusions set. *)
Fixpoint analyze_conds (baseVar : Var) (child : CopyMapRelEntry) (conds : list InclusionCond) (fl : static_flags)
    : W (list InclusionCond * static_flags) :=
  match conds with
  | [] => ret ([], fl)
  | c :: conds =>
      '(c, fl) ←
        match existsAttr c with
        | inr inner =>
            '(always, may) ← static_conds baseVar child (inclConds inner);
            let fl := raise_flags always may fl in
            fl ← (if decide (inclType c = INCL_IF) then ty ← getExprStaticType (cond c); ret (if_flags ty fl) else ret fl);
            ret (mkCond (inclType c) (inr (mkIncl (incl_attr inner) (inclConds inner) always)) (eqVars c) (cond c), fl)
        | inl _ => '(always, may) ← static_conds baseVar child [c]; ret (c, raise_flags always may fl)
        end;
      '(cs, fl) ← analyze_conds baseVar child conds fl;
      ret (c :: cs, fl)
  end.

Fixpoint analyze_incls (baseVar : Var) (child : CopyMapRelEntry) (incls : list AttrInclusions) (st sf : bool)
    : W (list AttrInclusions * bool * bool) :=
  match incls with
  | [] => ret ([], st, sf)
  | incl :: incls =>
      '(conds, (static, st, sf)) ← analyze_conds baseVar child (inclConds incl) (false, st, sf);
      '(rest, st, sf) ← analyze_incls baseVar child incls st sf;
      ret (mkIncl (incl_attr incl) conds static :: rest, st, sf)
  end.

Definition analyzeAttrPaths (child : CopyMapRelEntry) (attr : CopyMapEntry) : W CopyMapEntry :=
  '(incls, st, sf) ← analyze_incls (baseRelAttr attr) child (outAttrIncls attr) false true;
  ret (mkEntry (baseRelAttr attr) (provAttrName attr) incls st sf).

Fixpoint analyze_rels (es ch : list CopyMapRelEntry) : W (list CopyMapRelEntry) :=
  match es, ch with
  | [], _ => ret []
  | rel :: es, child :: ch =>
      attrs ← map_attrs (analyzeAttrPaths child) (attrEntries rel);
      rest ← analyze_rels es ch;
      ret (set_attrEntries attrs rel :: rest)
  | _ :: _, [] => throw Segv
  end.

Fixpoint inferStaticCopyQueryNode (m : CopyMap) : W CopyMap :=
  match m with
  | BaseMap _ => ret m
  | QueryMap i es inputs =>
      inputs ← (fix go (l : list (option CopyMap)) : W (list (option CopyMap)) :=
                  match l with
                  | [] => ret []
                  | None :: l => l ← go l; ret (None :: l)
                  | Some m :: l => m ← inferStaticCopyQueryNode m; l ← go l; ret (Some m :: l)
                  end) inputs;
      es ← analyze_rels es (children inputs);
      ret (QueryMap i es inputs)
  end.

(** Partial copy needs one attribute that is copied, complete copy all of them. *)
Definition infer_rel (contr : ContributionType) (rel : CopyMapRelEntry) : CopyMapRelEntry :=
  if noRewrite rel || isStatic rel then rel
  else
    let step := λ '(static, norewrite) attr,
      if IS_PARTIALC contr then
        if isStaticTrue attr then (true, false) else if isStaticFalse attr then (static, norewrite) else (static, false)
      else
        if isStaticFalse attr then (false, true) else if isStaticTrue attr then (static, norewrite) else (false, norewrite) in
    let '(static, norewrite) := foldl step (if IS_PARTIALC contr then (false, true) else (true, false)) (attrEntries rel) in
    set_flags static norewrite rel.

(** What an entry tells the entries below it. *)
Definition push_flags (parent rel : CopyMapRelEntry) : CopyMapRelEntry :=
  let rel := if noRewrite parent then set_flags false true rel else rel in
  if isStatic parent then set_flags true (noRewrite rel) rel else rel.

Fixpoint push_down (tops : list CopyMapRelEntry) (m : CopyMap) : CopyMap :=
  let below := fix below (tops : list CopyMapRelEntry) (l : list (option CopyMap)) : list (option CopyMap) :=
    match l with
    | [] => []
    | None :: l => None :: below tops l
    | Some m :: l => Some (push_down tops m) :: below (drop (length (entries m)) tops) l
    end in
  match m with
  | BaseMap rel => match tops with top :: _ => BaseMap (push_flags top rel) | [] => m end
  | QueryMap i es inputs => QueryMap i (forboth (λ rel top, push_flags top rel) es tops) (below tops inputs)
  end.

(** The flags of the entries of the top query go down to all entries below them. *)
Definition inferStaticCopy (contr : ContributionType) (m : CopyMap) : W CopyMap :=
  m ← inferStaticCopyQueryNode m;
  match m with
  | BaseMap _ => ret m
  | QueryMap i es inputs =>
      let es := infer_rel contr <$> es in
      ret (match push_down es (QueryMap i es inputs) with
           | QueryMap _ _ inputs => QueryMap i es inputs
           | m => m
           end)
  end.

Definition generateCopyMaps (contr : ContributionType) (query : Query) : W CopyMap :=
  m ← generateCopyMapForQueryNode contr query 1;
  inferStaticCopy contr m.

(** ** What to rewrite *)

Definition shouldRewriteQuery (m : CopyMap) : bool := existsb (λ e, negb (noRewrite e)) (entries m).

(** [rtindex == -1] stands for all entries.  The map of a base relation belongs to no query and is not asked. *)
Definition shouldRewriteRTEforMap (m : CopyMap) (i : Z) : bool :=
  match m with
  | QueryMap _ _ inputs =>
      existsb (λ e, (bool_decide (i = -1)%Z || bool_decide (rtindex e = i)) && negb (noRewrite e)) (children inputs)
  | BaseMap _ => false
  end.

End copymap.

End CopyMap.
