(* ===== verification/CopyGraph.v ===== *)
(** * The graph of equal columns

    The static edges of the graph, and the static connections found in it, stand for equalities that hold in every
    row that satisfies the conditions the graph was made from. *)

From Stdlib Require Import ZArith Lia.
From stdpp Require Import base strings numbers list sets gmap.
From S2P Require Import Prelude BubbleSort AttrName QueryTree SqlSemantics Queries RewriteSPJ CopyMap.
Import QueryTree SqlSemantics Queries RewriteSPJ CopyMap.

Module CopyGraph.

(** ** Conjuncts *)

(** [equal] is equality. *)
Lemma equal_true x y : equal x y = true → x = y.
Proof.
  revert y. assert (∀ l, list_all Expr (λ x, ∀ y, equal x y = true → x = y) l → ∀ k,
    (fix all (l k : list Expr) : bool :=
       match l, k with [], [] => true | x :: l, y :: k => equal x y && all l k | _, _ => false end) l k = true → l = k) as Hl.
  { induction 1 as [|z Hz l _ IH]; intros [|y k]; try done. rewrite andb_true_iff. intros [H1 H2]. f_equal; auto. }
  induction x as [v|t m c|o t l IH|b l IH|o t l IH|f t l IH u s d|f t c l IH|x IH t m c|n x IH|t l IH d IHd|x IHx r IHr];
    intros y; destruct y; try done; cbn [equal]; rewrite ?andb_true_iff; intros H.
  - apply bool_decide_eq_true_1 in H. by subst.
  - apply bool_decide_eq_true_1 in H. by simplify_eq.
  - destruct H as [H%bool_decide_eq_true_1 H2]. simplify_eq. f_equal. by apply Hl.
  - destruct b, boolop; try done; f_equal; by apply Hl.
  - destruct H as [H%bool_decide_eq_true_1 H2]. simplify_eq. f_equal. by apply Hl.
  - destruct H as [H%bool_decide_eq_true_1 H2]. simplify_eq. f_equal. by apply Hl.
  - destruct H as [H%bool_decide_eq_true_1 H2]. simplify_eq. f_equal. by apply Hl.
  - destruct H as [H%bool_decide_eq_true_1 H2]. simplify_eq. f_equal. by apply IH.
  - destruct H as [H%bool_decide_eq_true_1 H2]. simplify_eq. f_equal. by apply IH.
  - destruct H as [[H%bool_decide_eq_true_1 H2] H3]. simplify_eq. f_equal; [by apply Hl|].
    destruct d as [d|], defresult as [d'|]; try done. apply option_all_Some in IHd. f_equal. by apply IHd.
  - destruct H as [H1 H2]. f_equal; auto.
Qed.

(** [x] is [c] or an argument of its topmost ANDs. *)
Inductive conjunct (x : Expr) : Expr → Prop :=
  | conjunct_top : conjunct x x
  | conjunct_and l c : c ∈ l → conjunct x c → conjunct x (EBoolExpr AND_EXPR l).

Definition subexprs (x : Expr) : list Expr :=
  match x with
  | EVar _ | EConst _ _ _ => []
  | EOpExpr _ _ l | EBoolExpr _ l | EDistinctExpr _ _ l | EAggref _ _ l _ _ _ | EFuncExpr _ _ _ l => l
  | ERelabelType x _ _ _ | ENullTest _ x => [x]
  | ECaseExpr _ l d => l ++ option_list d
  | ECaseWhen x r => [x; r]
  end.

Lemma path_unfold target path node found :
  getPathToExprWalker target path node found =
    if equal node target then match path with [] => found | _ => Some path end
    else foldl (λ f x, getPathToExprWalker target (path ++ [node]) x f) found (subexprs node).
Proof.
  assert (∀ pt l found, (fix all (l : list Expr) (found : option (list Expr)) : option (list Expr) :=
       match l with [] => found | x :: l => all l (getPathToExprWalker target pt x found) end) l found =
     foldl (λ f x, getPathToExprWalker target pt x f) found l) as Hf.
  { intros pt l. induction l as [|x l IH]; intros f; [done|]. cbn. by rewrite IH. }
  destruct node as [| | | | | | | | |t l d|]; cbn [getPathToExprWalker subexprs]; rewrite ?Hf; try done.
  rewrite foldl_app. by destruct d.
Qed.

Lemma Expr_subexprs_ind (P : Expr → Prop) : (∀ x, Forall P (subexprs x) → P x) → ∀ x, P x.
Proof.
  intros H. induction x as [| | | | | | | | |t l IH d IHd|]; apply H; cbn; try (by apply list_all_Forall); repeat (constructor; try done).
  apply Forall_app. split; [by apply list_all_Forall|]. destruct d as [d|]; cbn; [|done].
  apply option_all_Some in IHd. by constructor.
Qed.

Lemma path_conjunct target node : ∀ path found p,
  getPathToExprWalker target path node found = Some p →
  found = Some p ∨ ∃ p', p = path ++ p' ∧ (forallb is_and p' = true → conjunct target node).
Proof.
  induction node as [node IH] using Expr_subexprs_ind. intros path found p. rewrite path_unfold.
  destruct (equal node target) eqn:Eq.
  { apply equal_true in Eq as ->. destruct path as [|x path]; [by left|]. intros [= <-]. right. exists [].
    split; [by rewrite app_nil_r|]. intros _. constructor. }
  assert (∀ c, c ∈ subexprs node → is_and node = true → conjunct target c → conjunct target node) as Hc.
  { intros c Hin Ha. destruct node as [| | |b l| | | | | | |]; try done. destruct b; try done. by apply conjunct_and. }
  revert found. induction IH as [|x l Hx _ IHl]; intros found; cbn [foldl]; [by left|]. intros H.
  apply IHl in H as [H|H]; [|by right|intros c Hin; apply Hc; by right].
  apply Hx in H as [H|(p' & -> & Hp)]; [by left|]. right. exists (node :: p'). rewrite <- app_assoc. split; [done|].
  cbn [forallb]. rewrite andb_true_iff. intros [H1 H2]. eapply Hc; [by left|done|auto].
Qed.

Lemma exprInAndOrTop_sound x c : exprInAndOrTop x c = true → conjunct x c.
Proof.
  unfold exprInAndOrTop. destruct (equal x c) eqn:E; [apply equal_true in E as ->; constructor|].
  destruct (getPathToExprWalker x [] c None) as [p|] eqn:Ep; [|done].
  apply path_conjunct in Ep as [?|(p' & -> & H)]; [done|exact H].
Qed.

(** Neither false nor NULL. *)
Definition holds (v : value) : Prop := ∃ z, v = Some z ∧ z ≠ 0%Z.

Lemma connect_and vs v : holds (connect 0 vs) → v ∈ vs → holds v.
Proof.
  intros (z & E & Hz). revert z E Hz. induction vs as [|u vs IH]; cbn; intros z; [by intros _ _ ?%elem_of_nil|].
  case_decide as H0; [naive_solver|]. destruct (connect 0 vs) as [r|]; [|done]. case_decide as H1; [naive_solver|].
  destruct u as [u|]; [|done]. intros [= ->] Hz [->|Hv]%elem_of_cons; [|by eapply IH]. exists u. split; [done|]. congruence.
Qed.

Section conditions.
Context (op_sem : operators).

Lemma conjunct_holds e x c : conjunct x c → holds (eval_expr op_sem e c) → holds (eval_expr op_sem e x).
Proof.
  induction 1 as [|l c Hc _ IH]; [done|]. cbn. intros H. apply IH. eapply connect_and; [exact H|].
  change (map ?f l) with (f <$> l). by apply list_elem_of_fmap_2.
Qed.

Lemma qual_conjunct e x c : conjunct x c → eval_qual op_sem e (Some c) = true → holds (eval_expr op_sem e x).
Proof.
  intros Hx Hc. eapply conjunct_holds; [done|]. cbn in Hc. apply bool_decide_eq_true_1 in Hc. by exists 1%Z.
Qed.

(** ** Equalities of a condition *)

Context (cat : syscache) (get_opcode : Z → Z).

(** Operators with the function of an equality operator hold only for equal values. *)
Definition equality_sound : Prop := ∀ ty eqop r op v w,
  equality_oper cat ty = Some (eqop, r) → get_opcode op = get_opcode eqop → 
  ∀ vs, holds (op_sem op (v :: w :: vs)) → v = w.

(** Two columns are compared by a conjunct of the condition. *)
Definition compared (c : Expr) (v w : Var) : Prop :=
  ∃ op ty args t eqop r, conjunct (EOpExpr op ty (EVar v :: EVar w :: args)) c ∧
    equality_oper cat t = Some (eqop, r) ∧ get_opcode op = get_opcode eqop.

Lemma compared_equal e c v w :
  equality_sound → compared c v w → eval_qual op_sem e (Some c) = true →
  eval_expr op_sem e (EVar v) = eval_expr op_sem e (EVar w).
Proof.
  intros Heq (op & ty & args & t & eqop & r & Hc & He & Ho) Hq. pose proof (qual_conjunct e _ c Hc Hq) as H.
  cbn [eval_expr map] in H. by eapply Heq.
Qed.

(** No casts and no CASE. *)
Fixpoint plain_expr (x : Expr) : bool :=
  match x with
  | EVar _ | EConst _ _ _ => true
  | EOpExpr _ _ l | EBoolExpr _ l | EDistinctExpr _ _ l | EAggref _ _ l _ _ _ | EFuncExpr _ _ COERCE_EXPLICIT_CALL l =>
      forallb plain_expr l
  | ERelabelType x _ _ _ | ENullTest _ x => plain_expr x
  | EFuncExpr _ _ _ _ | ECaseExpr _ _ _ | ECaseWhen _ _ => false
  end.

Lemma plain_var x v : plain_expr x = true → getVarFromTeIfSimple x = Some v → x = EVar v.
Proof. destruct x as [| | | | | |f t c l| | | |]; try done; [by intros _ [= ->]|]. by destruct c. Qed.

(** The walker over [node] with the arguments as a list. *)
Lemma find_equalities root outer node st eqs st' v w :
  plain_expr node = true →
  findVarEqualitiesWalker cat get_opcode root outer node st = Ok (eqs, st') → (v, w, false) ∈ eqs →
  outer = false ∧ compared root v w.
Proof.
  revert st eqs st'. induction node as [node IH] using Expr_subexprs_ind. intros st eqs st' Hp.
  assert (∀ l st eqs st', l = subexprs node → forallb plain_expr l = true →
    (fix walk (l : list Expr) : W (list (Var * Var * bool)) :=
      match l with
      | [] => ret []
      | x :: l => a ← findVarEqualitiesWalker cat get_opcode root outer x; b ← walk l; ret (a ++ b)
      end) l st = Ok (eqs, st') → (v, w, false) ∈ eqs → outer = false ∧ compared root v w) as Hl.
  { clear -IH. intros l st eqs st' ->. revert st eqs st'. induction IH as [|x l Hx _ IHl]; intros st eqs st'.
    - intros _ [= <- <-] ?%elem_of_nil; done.
    - cbn [forallb]. rewrite andb_true_iff. intros [H1 H2].
      intros (a & s1 & E1 & (b & s2 & E2 & [= <- <-])%bind_inv)%bind_inv [H|H]%elem_of_app; eauto. }
  destruct node as [| |o t l|b l|o t l|f t l u s d|f t c l|x t m c|n x|t l d|x r];
    try (intros [= <- <-] ?%elem_of_nil; done); try (intros H; exact (Hl _ _ _ _ eq_refl Hp H)); try (by cbn in Hp).
  - cbn [findVarEqualitiesWalker]. intros (eq & s1 & E1 & H)%bind_inv.
    destruct eq; [|exact (Hl _ _ _ _ eq_refl Hp H)].
    apply bind_inv in H as (lf & s2 & E2 & (rt & s3 & E3 & H)%bind_inv).
    destruct l as [|x [|y l]]; try done. cbn in E2, E3. injection E2 as <- <-. injection E3 as <- <-.
    cbn [plain_expr forallb] in Hp. rewrite !andb_true_iff in Hp. destruct Hp as (Hx & Hy & _).
    destruct (getVarFromTeIfSimple x) as [lv|] eqn:Elv; [|by injection H as <- <-; intros ?%elem_of_nil].
    destruct (getVarFromTeIfSimple y) as [rv|] eqn:Erv; [|by injection H as <- <-; intros ?%elem_of_nil].
    apply (plain_var _ _ Hx) in Elv as ->. apply (plain_var _ _ Hy) in Erv as ->.
    cbn in H. injection H as <- <-. intros [= -> -> Hu]%list_elem_of_singleton. symmetry in Hu.
    apply negb_false_iff, andb_true_iff in Hu as [Ho%negb_true_iff Hc%exprInAndOrTop_sound]. split; [done|].
    unfold isEqualityOper in E1. cbn in E1. destruct (equality_oper cat (vartype lv)) as [[eqop r]|] eqn:Eq; [|done].
    injection E1 as E1 _. apply bool_decide_eq_true_1 in E1.
    by exists o, t, l, (vartype lv), eqop, r.
  - intros H. cbn in Hp. destruct c; try done. exact (Hl _ _ _ _ eq_refl Hp H).
  - intros H. cbn in Hp. inversion_clear IH as [|? ? Hx _]. exact (Hx _ _ _ Hp H).
  - intros H. cbn in Hp. inversion_clear IH as [|? ? Hx _]. exact (Hx _ _ _ Hp H).
Qed.

End conditions.

(** ** Edges *)

(** All edges lead to nodes, and static edges connect columns that are related. *)
Definition graph_ok (P : Var → Var → Prop) (g : list EquiGraphNode) : Prop :=
  ∀ k n, g !! k = Some n →
    (∀ r, r ∈ sEdges n → ∃ m, g !! r = Some m ∧ P (nodeVar n) (nodeVar m)) ∧ (∀ r, r ∈ nsEdges n → is_Some (g !! r)).

Section edges.
Context (P : Var → Var → Prop) `{!Equivalence P}.

Lemma search_nodes_spec lv rv k g l r l' r' :
  search_nodes lv rv k g l r = (l', r') →
  (l' = l ∨ ∃ j n, l' = Some (k + j)%nat ∧ g !! j = Some n ∧ nodeVar n = lv) ∧
  (r' = r ∨ ∃ j n, r' = Some (k + j)%nat ∧ g !! j = Some n ∧ nodeVar n = rv).
Proof.
  revert k l r. induction g as [|n g IH]; intros k l r; cbn [search_nodes]; [intros [= <- <-]; auto|].
  assert (∀ v (o o0 : option nat), (o = o0 ∨ ∃ j m, o = Some (S k + j)%nat ∧ g !! j = Some m ∧ nodeVar m = v) →
    o = o0 ∨ ∃ j m, o = Some (k + j)%nat ∧ (n :: g) !! j = Some m ∧ nodeVar m = v) as Hs.
  { intros v o o0 [?|(j & m & -> & ? & ?)]; [by left|]. right. exists (S j), m. split; [f_equal; lia|done]. }
  assert (∀ v (o : option nat), v = nodeVar n →
    (o = Some k ∨ ∃ j m, o = Some (S k + j)%nat ∧ g !! j = Some m ∧ nodeVar m = v) → ∀ o0,
    o = o0 ∨ ∃ j m, o = Some (k + j)%nat ∧ (n :: g) !! j = Some m ∧ nodeVar m = v) as Hh.
  { intros v o Hv [->|(j & m & -> & ? & ?)] o0; right; [exists 0%nat, n|exists (S j), m]; (split; [f_equal; lia|done]). }
  case_decide as Hl; [|case_decide as Hr]; intros [H1 H2]%IH; split; eauto.
Qed.

Lemma graph_ok_app g v : graph_ok P g → graph_ok P (g ++ [mkNode v [] []]).
Proof.
  intros Hg k n Hk. apply lookup_app_Some in Hk as [Hk|[_ Hk]].
  - destruct (Hg k n Hk) as [H1 H2]. split.
    + intros r Hr. destruct (H1 r Hr) as (m & Hm & HP). exists m. split; [by apply lookup_app_l_Some|done].
    + intros r Hr. destruct (H2 r Hr) as [m Hm]. exists m. by apply lookup_app_l_Some.
  - apply list_lookup_singleton_Some in Hk as [_ <-]. by split; intros r ?%elem_of_nil.
Qed.

Lemma ensure_node_spec o v g k g' :
  ensure_node o v g = (k, g') → graph_ok P g → (∀ j, o = Some j → nodeVar <$> g !! j = Some v) →
  graph_ok P g' ∧ nodeVar <$> g' !! k = Some v ∧ ∀ j n, g !! j = Some n → g' !! j = Some n.
Proof.
  unfold ensure_node. destruct o as [j|]; intros [= <- <-] Hg Hj.
  - split; [done|]. split; [by apply Hj|done].
  - split; [by apply graph_ok_app|]. split; [by rewrite lookup_app_r, Nat.sub_diag by lia|].
    intros j n H. by apply lookup_app_l_Some.
Qed.

(** Changing a node without adding edges, and adding an edge. *)
Lemma graph_ok_alter f k g :
  (∀ n, nodeVar (f n) = nodeVar n) →
  (∀ n, g !! k = Some n → (∀ r, r ∈ sEdges (f n) → r ∈ sEdges n ∨ ∃ m, g !! r = Some m ∧ P (nodeVar n) (nodeVar m)) ∧
                          (∀ r, r ∈ nsEdges (f n) → r ∈ nsEdges n ∨ is_Some (g !! r))) →
  graph_ok P g → graph_ok P (alter f k g).
Proof.
  intros Hv He Hg. assert (∀ r m, g !! r = Some m → ∃ m', alter f k g !! r = Some m' ∧ nodeVar m' = nodeVar m) as Hlk.
  { intros r m Hm. destruct (decide (r = k)) as [->|Hne].
    - rewrite list_lookup_alter_eq, Hm. eexists. split; [done|apply Hv].
    - rewrite list_lookup_alter_ne by done. by exists m. }
  intros j n Hj.
  assert (∃ n0, g !! j = Some n0 ∧ nodeVar n = nodeVar n0 ∧
    (∀ r, r ∈ sEdges n → ∃ m, g !! r = Some m ∧ P (nodeVar n0) (nodeVar m)) ∧ (∀ r, r ∈ nsEdges n → is_Some (g !! r)))
    as (n0 & Hj0 & Hn & H1 & H2).
  { destruct (decide (j = k)) as [->|Hne].
    - rewrite list_lookup_alter_eq in Hj. destruct (g !! k) as [n0|] eqn:E; [|done]. injection Hj as <-. exists n0.
      destruct (He n0 eq_refl) as [E1 E2], (Hg k n0 E) as [G1 G2]. split_and!; [done|apply Hv|..].
      + intros r [Hr|Hr]%E1; auto.
      + intros r [Hr|Hr]%E2; auto.
    - rewrite list_lookup_alter_ne in Hj by done. destruct (Hg j n Hj). by exists n. }
  rewrite Hn. split.
  - intros r Hr. destruct (H1 r Hr) as (m & Hm & HP). destruct (Hlk r m Hm) as (m' & Hm' & Em). exists m'. by rewrite Em.
  - intros r Hr. destruct (H2 r Hr) as [m Hm]. destruct (Hlk r m Hm) as (m' & Hm' & _). by exists m'.
Qed.

Lemma delete_first_in k l x : x ∈ delete_first k l → x ∈ l.
Proof. induction l as [|y l IH]; cbn; [done|]. case_decide; rewrite ?elem_of_cons; tauto. Qed.

Lemma add_edge_ok g l r lv rv (u : bool) :
  graph_ok P g → nodeVar <$> g !! l = Some lv → nodeVar <$> g !! r = Some rv → (u = false → P lv rv) →
  graph_ok P (if u then alter (add_ns l) r (alter (add_ns r) l g)
              else alter (delete_ns l) r (alter (delete_ns r) l (alter (add_s l) r (alter (add_s r) l g)))).
Proof.
  intros Hg (nl & Hl & El)%fmap_Some (nr & Hr & Er)%fmap_Some HP.
  assert (∀ f k j n, g !! j = Some n → (∀ n, nodeVar (f n) = nodeVar n) →
    ∃ n', alter f k g !! j = Some n' ∧ nodeVar n' = nodeVar n) as Hlk.
  { intros f k j n Hj Hf. destruct (decide (j = k)) as [->|Hne].
    - rewrite list_lookup_alter_eq, Hj. eexists. split; [done|apply Hf].
    - rewrite list_lookup_alter_ne by done. by exists n. }
  destruct u.
  - destruct (Hlk (add_ns r) l l nl Hl ltac:(done)) as (nl' & Hl' & _).
    apply graph_ok_alter; [done| |apply graph_ok_alter; [done| |done]]; intros n Hn; cbn; (split; [by left|]);
      intros j [Hj|Hj%list_elem_of_singleton]%elem_of_app; auto; subst j; right; [by eexists|by eexists].
  - specialize (HP eq_refl). destruct (Hlk (add_s r) l l nl Hl ltac:(done)) as (nl' & Hl' & El').
    apply graph_ok_alter; [done| |apply graph_ok_alter; [done| |apply graph_ok_alter; [done| |apply graph_ok_alter; [done| |done]]]];
      intros n Hn; cbn.
    + split; [by left|]. intros j Hj%delete_first_in. by left.
    + split; [by left|]. intros j Hj%delete_first_in. by left.
    + split; [|by left]. intros j [Hj|Hj%list_elem_of_singleton]%elem_of_app; [by left|]. right. subst j.
      exists nl'. split; [done|]. rewrite El', <- El.
      assert (nodeVar n = rv) as ->; [|by symmetry].
      destruct (Hlk (add_s r) l r nr Hr ltac:(done)) as (nr' & Hr' & Er'). rewrite Hr' in Hn. injection Hn as <-. congruence.
    + split; [|by left]. intros j [Hj|Hj%list_elem_of_singleton]%elem_of_app; [by left|]. right. subst j.
      exists nr. split; [done|]. rewrite <- Er. assert (nodeVar n = lv) as -> by congruence. done.
Qed.

Lemma addEquiGraphEdge_ok lv rv (u : bool) g :
  graph_ok P g → (u = false → P lv rv) → graph_ok P (addEquiGraphEdge (lv, rv, u) g).
Proof.
  intros Hg HP. unfold addEquiGraphEdge. destruct (search_nodes lv rv 0 g None None) as [l r] eqn:Es.
  apply search_nodes_spec in Es as [Hl Hr]. destruct (ensure_node l lv g) as [l1 g1] eqn:E1.
  destruct (ensure_node_spec _ _ _ _ _ E1 Hg) as (Hg1 & Hl1 & Hext).
  { intros j ->. destruct Hl as [?|(k & n & [= ->] & Hn & <-)]; [done|]. cbn. by rewrite Hn. }
  destruct (ensure_node r rv g1) as [r2 g2] eqn:E2.
  destruct (ensure_node_spec _ _ _ _ _ E2 Hg1) as (Hg2 & Hr2 & Hext2).
  { intros j ->. destruct Hr as [?|(k & n & [= ->] & Hn & <-)]; [done|]. cbn. by rewrite (Hext _ _ Hn). }
  assert (nodeVar <$> g2 !! l1 = Some lv) as Hl2.
  { apply fmap_Some in Hl1 as (n & Hn & ->). by rewrite (Hext2 _ _ Hn). }
  pose proof (add_edge_ok g2 l1 r2 lv rv u Hg2 Hl2 Hr2 HP) as Hadd.
  destruct u; [destruct (hasEdge g2 l1 r2 false)|destruct (hasEdge g2 l1 r2 true)]; done.
Qed.

Lemma add_edges_ok eqs g :
  graph_ok P g → (∀ v w, (v, w, false) ∈ eqs → P v w) → graph_ok P (foldl (λ g eq, addEquiGraphEdge eq g) g eqs).
Proof.
  revert g. induction eqs as [|[[v w] u] eqs IH]; intros g Hg HP; cbn [foldl]; [done|].
  apply IH; [|intros v' w' H; apply HP; by right]. apply addEquiGraphEdge_ok; [done|]. intros ->. apply HP. by left.
Qed.

(** ** The sorted graph *)

Lemma omap_all {A B} (f : A → option B) l p : Forall (λ x, is_Some (f x)) l → omap f l !! p = (l !! p) ≫= f.
Proof.
  intros Hl. revert p. induction Hl as [|x l [y Hy] _ IH]; intros [|p]; cbn; rewrite ?Hy; [done..|]. cbn. apply IH.
Qed.

Lemma position_lookup k l : k ∈ l → l !! position k l = Some k.
Proof.
  induction l as [|x l IH]; cbn; [by intros ?%elem_of_nil|]. case_decide as Hx; [by subst|].
  intros [->|H]%elem_of_cons; [done|by apply IH].
Qed.

Lemma sort_graph_spec g :
  ∃ order, order ≡ₚ seq 0 (length g) ∧
    ∀ p, sort_graph g !! p =
      (order !! p) ≫= λ k, (λ n, mkNode (nodeVar n) ((λ e, position e order) <$> sEdges n)
                                        ((λ e, position e order) <$> nsEdges n)) <$> g !! k.
Proof.
  unfold sort_graph. set (swap := λ a b, _). set (order := BubbleSort.bubble_sort swap _).
  assert (order ≡ₚ seq 0 (length g)) as Ho by apply BubbleSort.bubble_sort_perm.
  exists order. split; [done|]. intros p. apply omap_all. apply Forall_forall. intros k Hk.
  rewrite Ho, elem_of_seq in Hk. apply fmap_is_Some, lookup_lt_is_Some. lia.
Qed.

Lemma sort_graph_ok g : graph_ok P g → graph_ok P (sort_graph g) ∧ length (sort_graph g) = length g.
Proof.
  intros Hg. destruct (sort_graph_spec g) as (order & Ho & Hs).
  assert (∀ k n, g !! k = Some n → ∃ n', sort_graph g !! position k order = Some n' ∧ nodeVar n' = nodeVar n) as Hlk.
  { intros k n Hk. rewrite Hs, position_lookup; [cbn; rewrite Hk; by eexists|].
    rewrite Ho, elem_of_seq. apply lookup_lt_Some in Hk. lia. }
  split.
  - intros p n Hp. rewrite Hs in Hp. destruct (order !! p) as [k|]; [|done]. cbn in Hp.
    destruct (g !! k) as [n0|] eqn:Hk; [|done]. injection Hp as <-. destruct (Hg k n0 Hk) as [H1 H2]. cbn. split.
    + intros r (r0 & -> & Hr)%list_elem_of_fmap. destruct (H1 r0 Hr) as (m & Hm & HP).
      destruct (Hlk r0 m Hm) as (m' & Hm' & Em). exists m'. by rewrite Em.
    + intros r (r0 & -> & Hr)%list_elem_of_fmap. destruct (H2 r0 Hr) as [m Hm].
      destruct (Hlk r0 m Hm) as (m' & Hm' & _). by exists m'.
  - assert (length order = length g) as Hlen by (rewrite Ho; apply length_seq).
    apply Nat.le_antisymm.
    + destruct (decide (length (sort_graph g) ≤ length g)%nat) as [|Hgt]; [done|].
      destruct (lookup_lt_is_Some_2 (sort_graph g) (length g)) as [n Hn]; [lia|].
      rewrite Hs, lookup_ge_None_2 in Hn by lia. done.
    + destruct (decide (length g ≤ length (sort_graph g))%nat) as [|Hlt]; [done|].
      destruct (lookup_lt_is_Some_2 order (length (sort_graph g))) as [k Hk]; [lia|].
      assert (k < length g)%nat as Hkl.
      { apply list_elem_of_lookup_2 in Hk. rewrite Ho, elem_of_seq in Hk. lia. }
      destruct (lookup_lt_is_Some_2 g k Hkl) as [n Hn].
      assert (sort_graph g !! length (sort_graph g) = None) as E by (apply lookup_ge_None_2; lia).
      rewrite Hs, Hk in E. cbn in E. by rewrite Hn in E.
Qed.

(** ** Static connections *)

Definition connected (g : list EquiGraphNode) (hs : gset (nat * nat)) : Prop :=
  ∀ a b, (a, b) ∈ hs → ∃ na nb, g !! a = Some na ∧ g !! b = Some nb ∧ P (nodeVar na) (nodeVar nb).

(** The cells of a row that are not marked yet. *)
Definition unmarked (n root : nat) (hs : gset (nat * nat)) : nat :=
  length (List.filter (λ c, bool_decide ((root, c) ∉ hs)) (seq 0 n)).

Lemma filter_mono {A} (p q : A → bool) l :
  (∀ x, p x = true → q x = true) → (length (List.filter p l) ≤ length (List.filter q l))%nat.
Proof.
  intros H. induction l as [|x l IH]; [done|]. cbn. destruct (p x) eqn:E; [rewrite (H x E); cbn; lia|].
  destruct (q x); cbn; lia.
Qed.

Lemma filter_lt {A} (p q : A → bool) l x :
  (∀ x, p x = true → q x = true) → x ∈ l → p x = false → q x = true →
  (length (List.filter p l) < length (List.filter q l))%nat.
Proof.
  intros H Hx Hp Hq. apply list_elem_of_split in Hx as (l1 & l2 & ->). rewrite !List.filter_app, !length_app. cbn.
  rewrite Hp, Hq. cbn. pose proof (filter_mono p q l1 H). pose proof (filter_mono p q l2 H). lia.
Qed.

Lemma unmarked_mono n root hs hs' : hs ⊆ hs' → (unmarked n root hs' ≤ unmarked n root hs)%nat.
Proof. intros H. apply filter_mono. intros c. rewrite !bool_decide_eq_true. set_solver. Qed.

Lemma unmarked_lt n root cur hs hs' :
  hs ⊆ hs' → (cur < n)%nat → (root, cur) ∉ hs → (root, cur) ∈ hs' → (unmarked n root hs' < unmarked n root hs)%nat.
Proof.
  intros H Hc Hn Hm. apply (filter_lt _ _ _ cur).
  - intros c. rewrite !bool_decide_eq_true. set_solver.
  - apply elem_of_seq. lia.
  - apply bool_decide_eq_false. tauto.
  - by apply bool_decide_eq_true.
Qed.

(** The search returns, and finds only connections that are there. *)
Lemma searchStaticPath_ok fuel g root node hs st nr nn :
  graph_ok P g → connected g hs → g !! root = Some nr → g !! node = Some nn → P (nodeVar nr) (nodeVar nn) →
  (unmarked (length g) root hs < fuel)%nat →
  ∃ hs', searchStaticPath fuel g root node hs st = Ok (hs', st) ∧ connected g hs' ∧ hs ⊆ hs'.
Proof.
  intros Hg. revert node hs nn. induction fuel as [|fuel IH]; intros node hs nn Hhs Hr Hn HP Hf; [lia|].
  cbn [searchStaticPath]. rewrite Hn, bind_deref. destruct (Hg node nn Hn) as [Hs _].
  match goal with |- context [?f (sEdges nn) hs] => set (go := f) end.
  assert (∀ es hs1, (∀ r, r ∈ es → r ∈ sEdges nn) → connected g hs1 → (unmarked (length g) root hs1 < S fuel)%nat →
    ∃ hs', go es hs1 st = Ok (hs', st) ∧ connected g hs' ∧ hs1 ⊆ hs') as Hgo; [|by apply Hgo].
  induction es as [|cur es IHes]; intros hs1 Hes H1 Hf1; cbn; [by exists hs1|].
  case_decide as Hin; [apply IHes; [intros r Hr'; apply Hes; by right|done..]|].
  destruct (Hs cur (Hes cur ltac:(by left))) as (nc & Hc & HPc).
  assert (P (nodeVar nr) (nodeVar nc)) as HPr by by transitivity (nodeVar nn).
  set (hs2 := {[(root, cur); (cur, root)]} ∪ hs1).
  assert (hs1 ⊆ hs2) as H12 by set_solver.
  destruct (IH cur hs2 nc) as (hs3 & E3 & H3 & H23); [|done..| |].
  { intros a b [[E|E]%elem_of_union|Hab]%elem_of_union; [| |by apply H1];
      apply elem_of_singleton in E; injection E as -> ->; eexists _, _; (split; [done|]); (split; [done|]); [done|by symmetry]. }
  { pose proof (unmarked_lt (length g) root cur hs1 hs2 H12) as Hlt. apply lookup_lt_Some in Hc. specialize (Hlt Hc Hin).
    assert ((root, cur) ∈ hs2) as Hm by set_solver. specialize (Hlt Hm). lia. }
  hrun E3. destruct (IHes hs3) as (hs4 & E4 & H4 & H34); [intros r Hr'; apply Hes; by right|done| |].
  { assert (hs1 ⊆ hs3) as H13 by set_solver. pose proof (unmarked_mono (length g) root _ _ H13). lia. }
  exists hs4. split; [exact E4|]. split; [done|set_solver].
Qed.

Lemma unmarked_bound n root hs : (unmarked n root hs ≤ n)%nat.
Proof. rewrite <- (length_seq n 0) at 2. apply List.filter_length_le. Qed.

Lemma static_paths_ok g roots hs st :
  graph_ok P g → connected g hs → Forall (λ r, r < length g)%nat roots →
  ∃ hs', static_paths g roots hs st = Ok (hs', st) ∧ connected g hs'.
Proof.
  intros Hg. revert hs. induction roots as [|r roots IH]; intros hs Hhs Hr; cbn [static_paths]; [by exists hs|].
  apply Forall_cons in Hr as [Hr0 Hr]. destruct (lookup_lt_is_Some_2 g r Hr0) as [nr Hnr].
  destruct (searchStaticPath_ok (S (S (length g))) g r r hs st nr nr) as (hs1 & E1 & H1 & _); try done.
  { pose proof (unmarked_bound (length g) r hs). lia. }
  hrun E1. by apply IH.
Qed.

(** ** Other connections *)

Definition unseen (n : nat) (hs : gset nat) : nat := length (List.filter (λ c, bool_decide (c ∉ hs)) (seq 0 n)).

Lemma unseen_mono n hs hs' : hs ⊆ hs' → (unseen n hs' ≤ unseen n hs)%nat.
Proof. intros H. apply filter_mono. intros c. rewrite !bool_decide_eq_true. set_solver. Qed.

Lemma unseen_lt n cur hs : (cur < n)%nat → cur ∉ hs → (unseen n ({[cur]} ∪ hs) < unseen n hs)%nat.
Proof.
  intros Hc Hn. apply (filter_lt _ _ _ cur).
  - intros c. rewrite !bool_decide_eq_true. set_solver.
  - apply elem_of_seq. lia.
  - apply bool_decide_eq_false. set_solver.
  - by apply bool_decide_eq_true.
Qed.

(** The enumeration of the paths returns; its conditions are equalities. *)
Lemma paths_ok fuel g start last cur hs conds eqPath (static : bool) st :
  graph_ok P g → (start < length g)%nat → (cur < length g)%nat → (unseen (length g) hs < fuel)%nat →
  ∃ hs' new, addEqualityForNonStaticPaths fuel g start last cur hs conds eqPath static st = Ok ((hs', conds ++ new), st) ∧
    hs ⊆ hs' ∧ Forall (λ c, inclType c = INCL_EQUAL) new.
Proof.
  intros Hg Hs. revert cur hs conds eqPath static.
  induction fuel as [|fuel IH]; intros cur hs conds eqPath static Hc Hf; [lia|]. cbn [addEqualityForNonStaticPaths].
  case_decide as Hin; [exists hs, []; rewrite app_nil_r; by split_and!|].
  destruct (lookup_lt_is_Some_2 g cur Hc) as [n Hn], (lookup_lt_is_Some_2 g start Hs) as [s Hst].
  rewrite Hn, Hst, !bind_deref. destruct (Hg cur n Hn) as [E1 E2]. cbv zeta. set (ep := if _ && _ then _ else _).
  case_decide as Hl; [exists hs, [MAKE_EQUAL_INCL (nodeVar s) ep]; split; [done|]; split; [done|by repeat constructor]|].
  match goal with |- context [bind (?f true (sEdges n) _ _)] => set (go := f) end.
  assert (∀ b es hs1 conds1, Forall (λ r, r < length g)%nat es → (unseen (length g) hs1 < fuel)%nat →
    ∃ hs' new, go b es hs1 conds1 st = Ok ((hs', conds1 ++ new), st) ∧ hs1 ⊆ hs' ∧
      Forall (λ c, inclType c = INCL_EQUAL) new) as Hgo.
  { intros b es. induction es as [|r es IHes]; intros hs1 conds1 Hes Hf1.
    { exists hs1, []. rewrite app_nil_r. by split_and!. }
    apply Forall_cons in Hes as [Hr Hes]. cbn.
    destruct (IH r hs1 conds1 ep b Hr Hf1) as (hs2 & new & E & H12 & Hnew). hrun E.
    destruct (IHes hs2 (conds1 ++ new) Hes) as (hs3 & new' & E' & H23 & Hnew').
    { pose proof (unseen_mono (length g) _ _ H12). lia. }
    exists hs3, (new ++ new'). rewrite app_assoc. split; [exact E'|]. split; [set_solver|by apply Forall_app]. }
  assert (Forall (λ r, r < length g)%nat (sEdges n) ∧ Forall (λ r, r < length g)%nat (nsEdges n)) as [Fs Fn].
  { split; apply Forall_forall; intros r Hr; eapply lookup_lt_is_Some_1;
      [destruct (E1 r Hr) as (m & -> & _); by eexists|by apply E2]. }
  pose proof (unseen_lt (length g) cur hs Hc Hin) as Hlt.
  destruct (Hgo true (sEdges n) ({[cur]} ∪ hs) conds Fs ltac:(lia)) as (hs1 & new1 & G1 & S1 & N1). hrun G1.
  destruct (Hgo false (nsEdges n) hs1 (conds ++ new1) Fn) as (hs2 & new2 & G2 & S2 & N2).
  { pose proof (unseen_mono (length g) _ _ S1). lia. }
  hrun G2. eexists _, (new1 ++ new2). rewrite app_assoc. split; [done|]. split; [|by apply Forall_app].
  destruct (_ && _); set_solver.
Qed.

(** ** Inclusions in equal columns *)

Context (P_col : ∀ v w, varno v = varno w → varattno v = varattno w → P v w).

(** An inclusion that follows from [incl] by an equality that always holds, or depends on one. *)
Definition follows (incl x : AttrInclusions) : Prop :=
  Forall (λ c, inclType c = INCL_EQUAL) (inclConds x) ∨
  inclConds x = [MAKE_EXISTS_INCL (inl (incl_attr incl))] ∧ P (incl_attr incl) (incl_attr x).

Lemma getNodePos_spec g v k :
  getNodePos g v = Some k → ∃ n, g !! k = Some n ∧ varno (nodeVar n) = varno v ∧ varattno (nodeVar n) = varattno v.
Proof.
  revert k. induction g as [|n g IH]; intros k; cbn; [done|]. case_decide as Hd; [intros [= <-]; by exists n|].
  destruct (getNodePos g v) as [k'|]; [|done]. intros [= <-]. by apply IH.
Qed.

Lemma equal_incls_ok g hs incl k js st :
  graph_ok P g → connected g hs → getNodePos g (incl_attr incl) = Some k → Forall (λ j, j < length g)%nat js →
  ∃ new, equal_incls g hs incl k js st = Ok (new, st) ∧ Forall (follows incl) new.
Proof.
  intros Hg Hhs (nk & Hnk & Ev & Ea)%getNodePos_spec.
  induction js as [|j js IH]; intros Hjs; cbn [equal_incls]; [by exists []|].
  apply Forall_cons in Hjs as [Hj Hjs]. destruct (lookup_lt_is_Some_2 g j Hj) as [n Hn]. rewrite Hn, bind_deref.
  destruct (IH Hjs) as (rest & Er & Hrest).
  assert (∃ new, (if decide (j = k) then ret []
             else if decide ((k, j) ∈ hs) then
               ret [mkIncl (nodeVar n) [MAKE_EXISTS_INCL (inl (incl_attr incl))] false]
             else
               '(_, conds) ← addEqualityForNonStaticPaths (S (length g)) g k j k ∅ [] [] true;
               ret (match conds with [] => [] | _ => [mkIncl (nodeVar n) conds false] end)) st = Ok (new, st) ∧
           Forall (follows incl) new) as (new & En & Hnew).
  { case_decide as Hk; [by exists []|]. case_decide as Hc.
    - eexists. split; [done|]. apply Forall_singleton. right. split; [done|]. cbn.
      destruct (Hhs k j Hc) as (na & nb & Ha & Hb & HP). simplify_eq. transitivity (nodeVar nk); [|done]. apply P_col; congruence.
    - destruct (paths_ok (S (length g)) g k j k ∅ [] [] true st Hg) as (hs' & conds & E & _ & Hcs).
      + by eapply lookup_lt_Some.
      + by eapply lookup_lt_Some.
      + apply (Nat.le_lt_trans _ (length (seq 0 (length g)))); [apply List.filter_length_le|rewrite length_seq; lia].
      + hrun E. eexists. split; [done|]. destruct conds as [|c conds]; [done|]. apply Forall_singleton. by left. }
  hrun En. hrun Er. eexists. split; [done|]. by apply Forall_app.
Qed.

Lemma new_incls_ok g hs incls st :
  graph_ok P g → connected g hs →
  ∃ new, new_incls g hs incls st = Ok (new, st) ∧ Forall (λ x, ∃ incl, incl ∈ incls ∧ follows incl x) new.
Proof.
  intros Hg Hhs. induction incls as [|incl incls IH]; cbn [new_incls]; [by exists []|].
  destruct IH as (rest & Er & Hrest).
  assert (∃ new, match getNodePos g (incl_attr incl) with
            | None => ret []
            | Some nodePos => equal_incls g hs incl nodePos (seq 0 (length g))
            end st = Ok (new, st) ∧ Forall (follows incl) new) as (new & En & Hnew).
  { destruct (getNodePos g (incl_attr incl)) as [k|] eqn:Ek; [|by exists []]. apply equal_incls_ok; try done.
    apply Forall_forall. intros j Hj%elem_of_seq. lia. }
  hrun En. hrun Er. eexists. split; [done|]. apply Forall_app. split.
  - eapply Forall_impl; [exact Hnew|]. intros x Hx. exists incl. split; [by left|done].
  - eapply Forall_impl; [exact Hrest|]. intros x (i & Hi & Hx). exists i. split; [by right|done].
Qed.

(** An attribute with more inclusions. *)
Definition extended (attr attr' : CopyMapEntry) : Prop :=
  ∃ new, attr' = set_outAttrIncls (outAttrIncls attr ++ new) attr ∧
    Forall (λ x, ∃ incl, incl ∈ outAttrIncls attr ∧ follows incl x) new.
Definition extended_rel (rel rel' : CopyMapRelEntry) : Prop :=
  ∃ attrs, rel' = set_attrEntries attrs rel ∧ Forall2 extended (attrEntries rel) attrs.

Lemma map_rels_ok (f : CopyMapRelEntry → CopyMapEntry → W CopyMapEntry) (Q : CopyMapEntry → CopyMapEntry → Prop) rels st :
  (∀ r a, ∃ a', f r a st = Ok (a', st) ∧ Q a a') →
  ∃ rels', map_rels f rels st = Ok (rels', st) ∧
    Forall2 (λ rel rel', ∃ attrs, rel' = set_attrEntries attrs rel ∧ Forall2 Q (attrEntries rel) attrs) rels rels'.
Proof.
  intros Hf. induction rels as [|r rels (rels' & E & H)]; cbn [map_rels]; [by exists []|].
  assert (∀ l, ∃ l', map_attrs (f r) l st = Ok (l', st) ∧ Forall2 Q l l') as Hm.
  { induction l as [|a l (l' & El & Hl)]; cbn [map_attrs]; [by exists []|]. destruct (Hf r a) as (a' & Ea & Ha).
    hrun Ea. hrun El. eexists. split; [done|]. by constructor. }
  destruct (Hm (attrEntries r)) as (attrs & Ea & Ha). hrun Ea. hrun E. eexists. split; [done|]. constructor; [by exists attrs|done].
Qed.

Lemma addCondForEquiGraph_ok g rels st :
  graph_ok P g → ∃ rels', addCondForEquiGraph g rels st = Ok (rels', st) ∧ Forall2 extended_rel rels rels'.
Proof.
  intros Hg. destruct (sort_graph_ok g Hg) as [Hs Hlen]. unfold addCondForEquiGraph.
  destruct (static_paths_ok (sort_graph g) (seq 0 (length (sort_graph g))) ∅ st Hs) as (hs & E & Hhs).
  { intros a b ?. set_solver. }
  { apply Forall_forall. intros j Hj%elem_of_seq. lia. }
  cbv zeta. hrun E. apply (map_rels_ok _ extended). intros r a.
  destruct (new_incls_ok (sort_graph g) hs (outAttrIncls a) st Hs Hhs) as (new & En & Hnew). hrun En. eexists.
  split; [done|]. by exists new.
Qed.

End edges.

End CopyGraph.
