(* ===== verification/CopyFacts.v ===== *)
(** * Columns, joins and witnesses

    What the copy maps rest on: a column of a join has the value of the column it resolves to, every row of a FROM clause is made of
    rows of the inputs or of NULLs, and the witness of a row is cut into the tuples of the base relations input by input. *)

From Stdlib Require Import ZArith Lia.
From stdpp Require Import base strings numbers list sets gmap.
From S2P Require Import Prelude ProvStack AttrName QueryTree SqlSemantics SqlFacts Queries ProvWitness RewriteSPJ RewriteFacts.
From S2P Require Import RewriteJoins RewriteMain NodeFacts ProvReplay CopyMap CopyGraph.
Import QueryTree SqlSemantics SqlFacts Queries ProvWitness RewriteSPJ RewriteFacts RewriteJoins RewriteMain NodeFacts.
Import ProvReplay CopyMap CopyGraph.

Module CopyFacts.

(** ** Rows of a FROM clause *)

Lemma leaves_in_ids n i : i ∈ leaves n → i ∈ ids n.
Proof. induction n; simpl; set_solver. Qed.

Lemma join_apart l r jt c J :
  NoDup (ids (JoinExpr jt l r c J)) → (J ∉ ids l) ∧ (J ∉ ids r) ∧ (J ∉ leaves l) ∧ (J ∉ leaves r).
Proof.
  simpl. intros (_ & H1 & H2)%NoDup_app. apply NoDup_app in H2 as (_ & H2 & _).
  pose proof (leaves_in_ids l J). pose proof (leaves_in_ids r J). set_solver.
Qed.

Section members.
Context (op_sem : operators).
Context {R : Type} (vals : R → tuple) (mk : tuple → R → R → R).
Context (rows : Z → list R) (null : Z → R) (alias : Z → list Var).

(** The rows of the leaves of [n] in [e] are rows of the entries or stand for a missing match. *)
Definition from_rows (n : Node) (e : Z → R) : Prop := ∀ i, i ∈ leaves n → e i ∈ rows i ∨ e i = null i.

Abbreviation fromR := (from op_sem vals mk rows null alias).
Abbreviation nullR := (nullify op_sem vals mk null alias).

Lemma from_rows_ext n e e' : (∀ i, i ∈ ids n → e' i = e i) → from_rows n e → from_rows n e'.
Proof. intros E H i Hi. rewrite E by by apply leaves_in_ids. by apply H. Qed.

Lemma nullify_leaves n e i : NoDup (ids n) → scoped alias n → i ∈ leaves n → nullR n e i = null i.
Proof.
  revert e. induction n as [j|jt l IHl r IHr c J]; intros e HN Hs Hi.
  { apply list_elem_of_singleton in Hi as ->. cbn. unfold bind_row. by rewrite decide_True. }
  pose proof (nodup_join _ _ _ _ _ HN) as (Nl & Nr & Hd). pose proof Hs as (Sl & Sr & _).
  destruct (join_apart _ _ _ _ _ HN) as (_ & _ & Jl & Jr).
  destruct (nullify_extends op_sem vals mk rows null alias r (nullR l e) Nr Sr) as [_ Hout].
  cbn [nullify]. unfold bind_join, bind_row. cbn [leaves] in Hi. rewrite decide_False by set_solver.
  apply elem_of_app in Hi as [Hi|Hi]; [|by apply IHr].
  rewrite Hout by (pose proof (leaves_in_ids l i Hi); set_solver). by apply IHl.
Qed.

Lemma nullify_rows n e : NoDup (ids n) → scoped alias n → from_rows n (nullR n e).
Proof. intros HN Hs i Hi. right. by apply nullify_leaves. Qed.

(** Two arguments of a join, in either order. *)
Lemma from_rows_two n1 n2 e1 e2 :
  ids n1 ## ids n2 → from_rows n1 e1 → extends op_sem vals mk alias n2 e1 e2 →
  from_rows n2 e2 → from_rows n1 e2 ∧ from_rows n2 e2.
Proof.
  intros Hd H1 [_ Hout] H2. split; [|done]. eapply from_rows_ext; [|exact H1]. intros i Hi. apply Hout. set_solver.
Qed.

Lemma from_members n e e' : NoDup (ids n) → scoped alias n → e' ∈ fromR n e → from_rows n e'.
Proof.
  revert e e'. induction n as [i|jt l IHl r IHr c J]; intros e e' HN Hs He.
  { apply list_elem_of_fmap in He as (x & -> & Hx). intros j ->%list_elem_of_singleton. left. unfold bind_row.
    by rewrite decide_True. }
  pose proof (nodup_join _ _ _ _ _ HN) as (Nl & Nr & Hd). pose proof Hs as (Sl & Sr & _).
  destruct (join_apart _ _ _ _ _ HN) as (_ & _ & Jl & Jr).
  cbn [from] in He. apply list_elem_of_fmap in He as (f & -> & Hf).
  set (ok := List.filter (λ e, eval_qual op_sem (vals_of vals e) c)) in *.
  assert (∀ es f, f ∈ ok es → f ∈ es) as Hok by (intros es g; unfold ok; rewrite elem_of_filter_bool; tauto).
  assert (∀ n1 n2 (IH1 : ∀ e e', NoDup (ids n1) → scoped alias n1 → e' ∈ fromR n1 e → from_rows n1 e')
    (IH2 : ∀ e e', NoDup (ids n2) → scoped alias n2 → e' ∈ fromR n2 e → from_rows n2 e') g,
    NoDup (ids n1) → NoDup (ids n2) → scoped alias n1 → scoped alias n2 → ids n1 ## ids n2 →
    g ∈ fromR n1 e → f ∈ fromR n2 g ∨ f = nullR n2 g → from_rows n1 f ∧ from_rows n2 f) as Htwo.
  { intros n1 n2 IH1 IH2 g N1 N2 S1 S2 D12 Hg Hc. eapply from_rows_two; [done..|by eapply IH1| |];
      destruct Hc as [Hc|Hc]; subst; [by eapply from_extends|by apply nullify_extends|by eapply IH2|by apply nullify_rows]. }
  assert (from_rows l f ∧ from_rows r f) as [Rl Rr].
  { assert (ids r ## ids l) as Hd' by set_solver.
    destruct jt; [| |apply elem_of_app in Hf as [Hf|Hf]|]; apply list_elem_of_bind in Hf as (g & Hf & Hg).
    - apply Hok in Hf. eapply (Htwo l r); eauto.
    - apply or_null_in in Hf as [Hf|Hf]; [apply Hok in Hf|]; eapply (Htwo l r); eauto.
    - apply or_null_in in Hf as [Hf|Hf]; [apply Hok in Hf|]; eapply (Htwo l r); eauto.
    - destruct (ok _) in Hf; [|by apply elem_of_nil in Hf]. apply list_elem_of_singleton in Hf.
      apply and_comm. eapply (Htwo r l); eauto.
    - apply and_comm. apply or_null_in in Hf as [Hf|Hf]; [apply Hok in Hf|]; eapply (Htwo r l); eauto. }
  intros i Hi. unfold bind_join, bind_row. cbn [leaves] in Hi. rewrite decide_False by set_solver. apply elem_of_app in Hi as [Hi|Hi]; auto.
Qed.

Lemma from_list_members ns e e' :
  NoDup (concat (ids <$> ns)) → Forall (scoped alias) ns → e' ∈ from_list op_sem vals mk rows null alias ns e →
  Forall (λ n, from_rows n e') ns.
Proof.
  revert e. induction ns as [|n ns IH]; intros e; csimpl; [by constructor|].
  intros (N1 & Hd & N2)%NoDup_app [S1 S2]%Forall_cons (f & Hf & Hf')%list_elem_of_bind.
  destruct (from_list_settled op_sem vals mk rows null alias ns f e' N2 S2 Hf) as [_ Hout].
  constructor; [|by eapply IH]. eapply from_rows_ext; [|by eapply from_members]. intros i Hi. apply Hout. auto.
Qed.

End members.

(** ** Columns of joins *)

Section resolve.
Context (op_sem : operators) (cat : syscache) (q : Query).

Abbreviation settledQ := (settled op_sem fst join_row (aliases q)).

(** A column in scope: of which entry it is. *)
Definition in_scope (D : list Z) (v : Var) : Prop :=
  varlevelsup v = 0%Z ∧ varno v ∈ D ∧ (1 ≤ varattno v ≤ Z.of_nat (width cat q (varno v)))%Z.

Lemma in_scope_spec D v : expr_ok (width cat q) D (EVar v) = true ↔ in_scope D v.
Proof. cbn. rewrite !andb_true_iff, !bool_decide_eq_true. unfold in_scope. tauto. Qed.

(** The value of a column. *)
Definition val (e : Z → row) (v : Var) : value := attr (varattno v) (e (varno v)).1.

(** [v'] is a column of a relation or subquery with the same value as [v] in every row. *)
Definition resolves (n : Node) (v v' : Var) : Prop :=
  in_scope (leaves n) v' ∧ ∀ e, settledQ e n → val e v = val e v'.

Lemma resolve_node n fuel v st :
  node_ok cat q n = true → in_scope (ids n) v → (length (ids n) ≤ fuel)%nat →
  ∃ v', resolve_var fuel q v st = Ok (v', st) ∧ resolves n v v'.
Proof.
  revert fuel v. induction n as [i|jt l IHl r IHr c J]; intros fuel v; cbn [node_ok ids leaves].
  { intros Hk%bool_decide_eq_true_1 (Hl & Hn & Ha) Hf. cbn in Hf. destruct fuel as [|fuel]; [lia|].
    apply list_elem_of_singleton in Hn. exists v. cbn [resolve_var]. split.
    - rewrite Hn. unfold kind_at in Hk. destruct (rt_fetch i (rtable q)) as [rte|]; [|by destruct Hk].
      rewrite bind_deref. rewrite decide_False; [done|]. cbn in Hk. destruct Hk; congruence.
    - split; [|done]. split; [done|]. split; [rewrite Hn; by left|done]. }
  repeat rewrite andb_true_iff. intros ((((Kl & Kr) & Hk%bool_decide_eq_true_1) & _) & Ha%forallb_Forall) Hv Hf.
  rewrite !length_app in Hf. cbn in Hf.
  assert (∀ fuel' v0, in_scope (ids l ++ ids r) v0 → (length (ids l) ≤ fuel' ∧ length (ids r) ≤ fuel')%nat →
    ∃ v', resolve_var fuel' q v0 st = Ok (v', st) ∧ resolves (JoinExpr jt l r c J) v0 v') as Hargs.
  { intros fuel' v0 (H1 & [H2|H2]%elem_of_app & H3) [F1 F2];
      [destruct (IHl fuel' v0 Kl) as (v' & E & (S1 & S2 & S3) & Hv')|destruct (IHr fuel' v0 Kr) as (v' & E & (S1 & S2 & S3) & Hv')];
      try done; exists v'; (split; [done|]); (split; [split; [done|split; [cbn; apply elem_of_app; auto|done]]|]);
      intros e (Hl & Hr & _); auto. }
  destruct Hv as (H1 & H2 & H3). rewrite app_assoc, elem_of_app in H2. destruct H2 as [H2|HJ%list_elem_of_singleton].
  { apply Hargs; [done|lia]. }
  destruct fuel as [|fuel]; [lia|]. cbn [resolve_var]. rewrite HJ in *. unfold kind_at, width in *.
  destruct (rt_fetch J (rtable q)) as [rte|] eqn:EJ; [|done]. injection Hk as Hk. rewrite bind_deref, decide_True by done.
  unfold aliases in Ha. rewrite EJ in Ha. unfold rte_width in H3. rewrite Hk in H3.
  destruct (rt_fetch (varattno v) (joinaliasvars rte)) as [v1|] eqn:Ev.
  2:{ unfold rt_fetch in Ev. rewrite decide_True in Ev by lia. apply lookup_ge_None in Ev. lia. }
  rewrite bind_deref. pose proof (rt_fetch_Forall _ _ _ _ Ha Ev) as Hv1. apply in_scope_spec in Hv1.
  destruct (Hargs fuel v1 Hv1 ltac:(lia)) as (v' & E & Hs & Hval). exists v'. split; [done|]. split; [done|].
  intros e He. rewrite <- Hval by done. destruct He as (_ & _ & Hj). unfold val. rewrite HJ, Hj.
  unfold join_value, join_row. cbn [fst]. unfold aliases. rewrite EJ. unfold attr at 1. rewrite decide_True by lia.
  unfold rt_fetch in Ev. rewrite decide_True in Ev by lia. rewrite list_lookup_fmap, Ev. cbn.
  destruct Hv1 as (-> & _). by rewrite decide_True.
Qed.

Lemma scope_bound : from_ok cat q → (length (scope q) ≤ length (rtable q))%nat.
Proof.
  intros Hq. assert (scope q ⊆ seqZ 1 (Z.of_nat (length (rtable q)))) as Hsub.
  { assert (∀ n i, node_ok cat q n = true → i ∈ ids n → is_Some (rt_fetch i (rtable q))) as Hn.
    { induction n as [j|jt l IHl r IHr c J]; intros i; cbn [node_ok ids].
      - intros Hk%bool_decide_eq_true_1 ->%list_elem_of_singleton. unfold kind_at in Hk.
        destruct (rt_fetch j (rtable q)); [by eexists|]. by destruct Hk.
      - repeat rewrite andb_true_iff. intros ((((Hl & Hr) & Hk%bool_decide_eq_true_1) & _) & _).
        rewrite !elem_of_app, list_elem_of_singleton. intros [Hi|[Hi| ->]]; [by apply IHl|by apply IHr|].
        unfold kind_at in Hk. destruct (rt_fetch J (rtable q)); [by eexists|done]. }
    intros i Hi. unfold scope in Hi. apply elem_of_concat in Hi as (l & Hl & (n & -> & Hn')%list_elem_of_fmap).
    pose proof (fo_nodes _ _ Hq) as Hns. rewrite Forall_forall in Hns. destruct (Hn n i (Hns n Hn') Hl) as [r Hr].
    unfold rt_fetch in Hr. case_decide; [|done]. apply lookup_lt_Some in Hr. apply elem_of_seqZ. lia. }
  pose proof (submseteq_length _ _ (NoDup_submseteq _ _ (fo_scope _ _ Hq) Hsub)) as H. rewrite length_seqZ in H. lia.
Qed.

(** [resolveToRteVar] finds for every column in scope the column it stands for. *)
Lemma resolveToRteVar_ok v st :
  from_ok cat q → in_scope (scope q) v →
  ∃ v', resolveToRteVar v q st = Ok (v', st) ∧ in_scope (concat (leaves <$> fromlist q)) v' ∧
    ∀ e, Forall (settledQ e) (fromlist q) → val e v = val e v'.
Proof.
  intros Hq (H1 & H2 & H3). unfold scope in H2. apply elem_of_concat in H2 as (l & Hl & (n & -> & Hn)%list_elem_of_fmap).
  pose proof (fo_nodes _ _ Hq) as Hns. rewrite Forall_forall in Hns.
  destruct (resolve_node n (S (length (rtable q))) v st (Hns n Hn)) as (v' & E & (S1 & S2 & S3) & Hv').
  { done. }
  { pose proof (scope_bound Hq) as Hb. unfold scope in Hb. apply (list_elem_of_fmap_2 ids) in Hn as Hi.
    assert (length (ids n) ≤ length (concat (ids <$> fromlist q)))%nat; [|lia]. clear -Hi.
    induction (ids <$> fromlist q) as [|x l IH]; [by apply elem_of_nil in Hi|]. cbn. rewrite length_app.
    apply elem_of_cons in Hi as [<-|Hi]; [lia|]. specialize (IH Hi). lia. }
  exists v'. split; [done|]. split.
  - split; [done|split; [|done]]. apply elem_of_concat. exists (leaves n). split; [done|by apply list_elem_of_fmap_2].
  - intros e He. apply Hv'. rewrite Forall_forall in He. auto.
Qed.

(** ** Equalities of inner joins *)

Context (get_opcode : Z → Z).

Abbreviation comparedC := (compared cat get_opcode).

(** The columns that a conjunct of an inner join's condition compares are equal. *)
Fixpoint joins_hold (e : Z → row) (n : Node) : Prop :=
  match n with
  | RangeTblRef _ => True
  | JoinExpr jt l r c J =>
      joins_hold e l ∧ joins_hold e r ∧
      (jt = JOIN_INNER → ∀ c0 v w, c = Some c0 → comparedC c0 v w →
        in_scope (ids l ++ ids r) v → in_scope (ids l ++ ids r) w → val e v = val e w)
  end.

Lemma joins_hold_ext n e e' : (∀ i, i ∈ ids n → e' i = e i) → joins_hold e n → joins_hold e' n.
Proof.
  induction n as [i|jt l IHl r IHr c J]; cbn [joins_hold ids]; [done|]. intros E (Hl & Hr & Hj).
  split; [apply IHl; [set_solver|done]|]. split; [apply IHr; [set_solver|done]|].
  intros Hjt c0 v w Hc Hcmp Hv Hw. pose proof Hv as (_ & Iv & _). pose proof Hw as (_ & Iw & _).
  unfold val. rewrite !E by set_solver. by apply (Hj Hjt c0).
Qed.

Context (rows : Z → list row).
Abbreviation fromQ := (from op_sem fst join_row rows (null_row cat q) (aliases q)).
Abbreviation nullQ := (nullify op_sem fst join_row (null_row cat q) (aliases q)).

Lemma val_null e v : e (varno v) = null_row cat q (varno v) → val e v = None.
Proof.
  intros E. unfold val. rewrite E. unfold null_row. destruct (rt_fetch _ _); cbn [fst]; [apply attr_nulls|apply (attr_nulls _ 0)].
Qed.

Lemma nullify_val n e v :
  node_ok cat q n = true → NoDup (ids n) → scoped (aliases q) n → in_scope (ids n) v → val (nullQ n e) v = None.
Proof.
  intros Hn HN Hs Hv. destruct (resolve_node n (length (ids n)) v (mkRw [] false [] (AttrName.mkCounters [] []) (ProvStack.mkGens 0 0)) Hn Hv)
    as (v' & _ & (_ & Hi & _) & H); [done|].
  rewrite H by (by apply (nullify_extends op_sem fst join_row rows)). apply val_null. by apply (nullify_leaves op_sem fst join_row rows).
Qed.

Lemma in_scope_mono D D' v : D ⊆ D' → in_scope D v → in_scope D' v.
Proof. intros HD (H1 & H2 & H3). split; [done|]. split; [by apply HD|done]. Qed.

Lemma nullify_joins_hold n e :
  node_ok cat q n = true → NoDup (ids n) → scoped (aliases q) n → joins_hold (nullQ n e) n.
Proof.
  intros Hn HN Hs. assert (∀ m, ids m ⊆ ids n → joins_hold (nullQ n e) m) as H; [|by apply H].
  induction m as [i|jt l IHl r IHr c J]; cbn [joins_hold ids]; [done|]. intros Hsub.
  split; [apply IHl; set_solver|]. split; [apply IHr; set_solver|].
  intros _ c0 v w _ _ Hv Hw. assert (ids l ++ ids r ⊆ ids n) as HD by set_solver.
  by rewrite !nullify_val by (done || by eapply in_scope_mono).
Qed.

Hypothesis eq_sound : equality_sound op_sem cat get_opcode.

Lemma from_joins_hold n e e' :
  node_ok cat q n = true → NoDup (ids n) → scoped (aliases q) n → e' ∈ fromQ n e → joins_hold e' n.
Proof using eq_sound.
  revert e e'. induction n as [i|jt l IHl r IHr c J]; intros e e' Hn HN Hs He; [done|].
  pose proof (nodup_join _ _ _ _ _ HN) as (Nl & Nr & Hd). pose proof Hs as (Sl & Sr & _).
  destruct (join_apart _ _ _ _ _ HN) as (Jl & Jr & _ & _). cbn [node_ok] in Hn. repeat rewrite andb_true_iff in Hn.
  destruct Hn as ((((Kl & Kr) & _) & _) & _).
  cbn [from] in He. apply list_elem_of_fmap in He as (f & -> & Hf).
  set (ok := List.filter (λ e, eval_qual op_sem (vals_of fst e) c)) in *.
  assert (∀ es f, f ∈ ok es → f ∈ es) as Hok by (intros es g; unfold ok; rewrite elem_of_filter_bool; tauto).
  assert (∀ i, i ∈ ids l ++ ids r → bind_join op_sem fst join_row (aliases q) (root l) (root r) J f i = f i) as Hb.
  { intros i Hi. unfold bind_join, bind_row. rewrite decide_False; [done|]. set_solver. }
  assert (∀ n1 n2 g, NoDup (ids n2) → scoped (aliases q) n2 → ids n1 ## ids n2 →
    joins_hold g n1 → f ∈ fromQ n2 g ∨ f = nullQ n2 g → joins_hold f n1) as Hkeep.
  { intros n1 n2 g N2 S2 D12 H1 Hc. eapply joins_hold_ext; [|exact H1]. intros i Hi.
    assert (extends op_sem fst join_row (aliases q) n2 g f) as [_ Hout];
      [destruct Hc as [Hc|Hc]; subst; [by eapply from_extends|by apply nullify_extends]|]. apply Hout. set_solver. }
  assert (∀ n2 g (IH : ∀ e e', node_ok cat q n2 = true → NoDup (ids n2) → scoped (aliases q) n2 → e' ∈ fromQ n2 e →
    joins_hold e' n2), node_ok cat q n2 = true → NoDup (ids n2) → scoped (aliases q) n2 → f ∈ fromQ n2 g ∨ f = nullQ n2 g → joins_hold f n2) as Hnew.
  { intros n2 g IH K2 N2 S2 [Hc|Hc]; [by eapply IH|]. subst. by apply nullify_joins_hold. }
  assert (joins_hold f l ∧ joins_hold f r) as [Rl Rr].
  { assert (ids r ## ids l) as Hd' by set_solver.
    destruct jt; [| |apply elem_of_app in Hf as [Hf|Hf]|]; apply list_elem_of_bind in Hf as (g & Hf & Hg).
    - apply Hok in Hf. split; [eapply (Hkeep l r); eauto|eapply Hnew; eauto].
    - apply or_null_in in Hf as [Hf|Hf]; [apply Hok in Hf|]; (split; [eapply (Hkeep l r); eauto|eapply Hnew; eauto]).
    - apply or_null_in in Hf as [Hf|Hf]; [apply Hok in Hf|]; (split; [eapply (Hkeep l r); eauto|eapply Hnew; eauto]).
    - destruct (ok _) in Hf; [|by apply elem_of_nil in Hf]. apply list_elem_of_singleton in Hf.
      split; [eapply Hnew; eauto|eapply (Hkeep r l); eauto].
    - apply or_null_in in Hf as [Hf|Hf]; [apply Hok in Hf|]; (split; [eapply Hnew; eauto|eapply (Hkeep r l); eauto]). }
  cbn [joins_hold]. split; [eapply joins_hold_ext; [|exact Rl]; intros i Hi; apply Hb; set_solver|].
  split; [eapply joins_hold_ext; [|exact Rr]; intros i Hi; apply Hb; set_solver|].
  intros -> c0 v w -> Hcmp (Lv & Hv & _) (Lw & Hw & _). unfold val. rewrite !Hb by done.
  apply list_elem_of_bind in Hf as (g & [_ Hq]%elem_of_filter_bool & _).
  pose proof (compared_equal op_sem cat get_opcode _ c0 v w eq_sound Hcmp Hq) as E. cbn in E. by rewrite !decide_True in E.
Qed.

Lemma from_list_joins_hold ns e e' :
  Forall (λ n, node_ok cat q n = true) ns → NoDup (concat (ids <$> ns)) → Forall (scoped (aliases q)) ns →
  e' ∈ from_list op_sem fst join_row rows (null_row cat q) (aliases q) ns e → Forall (joins_hold e') ns.
Proof using eq_sound.
  revert e. induction ns as [|n ns IH]; intros e; csimpl; [by constructor|].
  intros [K1 K2]%Forall_cons (N1 & Hd & N2)%NoDup_app [S1 S2]%Forall_cons (f & Hf & Hf')%list_elem_of_bind.
  destruct (from_list_settled op_sem fst join_row rows (null_row cat q) (aliases q) ns f e' N2 S2 Hf) as [_ Hout].
  constructor; [|by eapply IH]. eapply joins_hold_ext; [|by eapply from_joins_hold].
  intros i Hi. apply Hout. auto.
Qed.

End resolve.

End CopyFacts.
