(* ===== verification/CopySound.v ===== *)
(** * Copy maps are sound

    Where a copy map says that a column of a query always is a copy of an attribute of a base relation, every row of the query has
    there the value of that attribute in the tuple of its witness, unless the tuple is missing (a NULL
    tuple of an outer join or a set operation). *)

From Stdlib Require Import ZArith Lia.
From stdpp Require Import base strings numbers list sets gmap.
From S2P Require Import Prelude ProvStack AttrName QueryTree SqlSemantics SqlFacts Queries ProvWitness RewriteSPJ RewriteAggr.
From S2P Require Import RewriteFacts RewriteJoins RewriteMain NodeFacts ProvReplay CopyMap CopyGraph CopyFacts.
Import QueryTree SqlSemantics SqlFacts Queries ProvWitness RewriteSPJ RewriteAggr RewriteFacts RewriteJoins RewriteMain.
Import NodeFacts ProvReplay CopyMap CopyGraph CopyFacts.

Module CopySound.

(** ** What a map promises *)

(** A condition that holds whenever one of the columns [cc] of the input is a copy. *)
Definition direct_cond (cc : list Z) (c : InclusionCond) : bool :=
  bool_decide (inclType c = INCL_EXISTS) &&
  match existsAttr c with inl v => bool_decide (varattno v ∈ cc) | inr _ => false end.
Definition certain_cond (cc : list Z) (c : InclusionCond) : bool :=
  bool_decide (inclType c = INCL_EXISTS) &&
  match existsAttr c with
  | inl v => bool_decide (varattno v ∈ cc)
  | inr i => existsb (direct_cond cc) (inclConds i)
  end.

(** The columns an attribute always is copied to, if it always is copied to the columns [cc] of the input. *)
Definition certain_columns (attr : CopyMapEntry) (cc : list Z) : list Z :=
  (λ i, varattno (incl_attr i)) <$> List.filter (λ i, existsb (certain_cond cc) (inclConds i)) (outAttrIncls attr).

(** For each base relation and each of its attributes the columns it always is copied to. *)
Fixpoint certain (m : CopyMap) : list (list (list Z)) :=
  match m with
  | BaseMap rel => [(λ a, (λ i, varattno (incl_attr i)) <$> outAttrIncls a) <$> attrEntries rel]
  | QueryMap _ es inputs =>
      zip_with (λ rel ccs, zip_with certain_columns (attrEntries rel) ccs) es
        ((fix go (l : list (option CopyMap)) : list (list (list Z)) :=
            match l with [] => [] | None :: l => go l | Some m :: l => certain m ++ go l end) inputs)
  end.

Definition mentries (om : option CopyMap) : list CopyMapRelEntry := match om with Some m => entries m | None => [] end.
Definition mcertain (om : option CopyMap) : list (list (list Z)) := match om with Some m => certain m | None => [] end.

Lemma children_mentries inputs : children inputs = inputs ≫= mentries.
Proof. done. Qed.

Lemma certain_query i es inputs :
  certain (QueryMap i es inputs) =
    zip_with (λ rel ccs, zip_with certain_columns (attrEntries rel) ccs) es (inputs ≫= mcertain).
Proof. cbn [certain]. f_equal. induction inputs as [|[m|] l IH]; [done|..]; cbn; by rewrite IH. Qed.

Section sound.
Context (op_sem : operators) (cat : syscache) (get_opcode : Z → Z).

(** The columns of [t] are the attributes of the tuple [p] as [ccs] says, or [p] is missing. *)
Definition sound_rel (t : tuple) (ccs : list (list Z)) (p : Z * tuple) : Prop :=
  p.2 = nulls (length (rd_att cat p.1)) ∨
  ∀ a cc k, ccs !! a = Some cc → k ∈ cc → attr k t = attr (Z.of_nat a + 1) p.2.

(** An entry for a relation has its attributes in order. *)
Definition rel_shape (relid : Z) (rel : CopyMapRelEntry) : Prop :=
  relation rel = relid ∧ (λ a, varattno (baseRelAttr a)) <$> attrEntries rel = cols_from 1 (length (rd_att cat relid)).

Definition map_sound (rels : list Z) (rows : (Z → list tuple) → list row) (m : list (list (list Z))) : Prop :=
  length m = length rels ∧
  ∀ db, (∀ i t, t ∈ db i → length t = length (rd_att cat i)) → ∀ t w, (t, w) ∈ rows db →
    Forall2 (sound_rel t) m (cut cat rels w).

(** ** Base relations *)

Lemma expandTupleDesc_cols attrs k er i lv st ns vs st' :
  Forall (λ a, attisdropped a = false) attrs → expandTupleDesc attrs k er i lv st = Ok ((ns, vs), st') →
  length ns = length vs ∧ varattno <$> vs = cols_from (Z.of_nat k + 1) (length attrs).
Proof.
  intros Ha. revert k st ns vs st'. induction Ha as [|a attrs Hd _ IH]; intros k st ns vs st'; cbn [expandTupleDesc].
  { by intros [= <- <- <-]. }
  rewrite Hd. intros (label & s1 & _ & ([ns' vs'] & s2 & E & [= <- <- <-])%bind_inv)%bind_inv.
  apply IH in E as [H1 H2]. split; [cbn; congruence|]. csimpl. rewrite H2.
  rewrite (seqZ_cons (Z.of_nat k + 1)) by lia. f_equal. f_equal; lia.
Qed.

Lemma base_attrs_spec r vars ns st l st' :
  base_attrs cat r vars ns st = Ok (l, st') → length ns = length vars →
  baseRelAttr <$> l = vars ∧
  Forall (λ a, outAttrIncls a = [mkIncl (baseRelAttr a) [] true] ∧ isStaticTrue a = true ∧ isStaticFalse a = false) l.
Proof.
  revert ns st l st'. induction vars as [|v vars IH]; intros [|n ns] st l st'; cbn [base_attrs]; try done.
  - by intros [= <- <-].
  - intros (name & s1 & _ & (rest & s2 & E & [= <- <-])%bind_inv)%bind_inv [= Hlen].
    apply IH in E as [H1 H2]; [|done]. csimpl. rewrite H1. by repeat constructor.
Qed.

Lemma base_map_spec r i st m st' :
  rte_ok cat r = true → rtekind r = RTE_RELATION → generateBaseRelCopyMap cat r i st = Ok (m, st') →
  ∃ rel, m = BaseMap rel ∧ rtindex rel = i ∧ rel_shape (relid r) rel ∧
    Forall (λ a, outAttrIncls a = [mkIncl (baseRelAttr a) [] true] ∧ isStaticTrue a = true ∧ isStaticFalse a = false)
      (attrEntries rel).
Proof.
  intros Hr Hk E. pose proof (rte_ok_spec cat r Hr) as (_ & _ & _ & _ & [H|[(Hk' & _)|Hk']]); [|congruence..].
  destruct H as (_ & _ & _ & Hd & _). unfold generateBaseRelCopyMap, expandRTEWithParam in E. rewrite Hk in E.
  apply bind_inv in E as (n & s1 & _ & ([ns vars] & s2 & E1 & (l & s3 & E2 & [= <- <-])%bind_inv)%bind_inv).
  apply (expandTupleDesc_cols _ _ _ _ _ _ _ _ _ Hd) in E1 as [Hlen Hcols].
  apply base_attrs_spec in E2 as [Hb Ha]; [|done]. eexists. split; [done|]. split; [done|]. split; [|done].
  split; [done|]. cbn [attrEntries]. etrans; [|exact Hcols]. by rewrite <- Hb, <- list_fmap_compose.
Qed.

(** The attributes of a shape by number. *)
Lemma shape_attr relid rel a attr :
  rel_shape relid rel → attrEntries rel !! a = Some attr → varattno (baseRelAttr attr) = (Z.of_nat a + 1)%Z.
Proof.
  intros [_ H] Ha. assert ((λ a, varattno (baseRelAttr a)) <$> attrEntries rel !! a = Some (varattno (baseRelAttr attr))) as E
    by by rewrite Ha.
  rewrite <- list_lookup_fmap, H in E. apply lookup_seqZ in E as [-> _]. lia.
Qed.

Lemma base_map_sound r i st m st' :
  rte_ok cat r = true → rtekind r = RTE_RELATION → generateBaseRelCopyMap cat r i st = Ok (m, st') →
  map_sound [relid r] (λ db, (λ t, (t, t)) <$> db (relid r)) (certain m).
Proof.
  intros Hr Hk E. destruct (base_map_spec r i st m st' Hr Hk E) as (rel & -> & _ & Hs & Hb). split; [done|].
  intros db Hdb t w (t' & [= <- ->] & Ht)%list_elem_of_fmap. cbn [certain cut]. constructor; [|constructor]. right. cbn [snd].
  rewrite firstn_all2 by (rewrite (Hdb _ _ Ht); done). intros a cc k Ha Hin.
  apply list_lookup_fmap_Some in Ha as (attr & -> & Ha). destruct (Forall_lookup_1 _ _ _ _ Hb Ha) as (Eo & _).
  rewrite Eo in Hin. cbn in Hin. apply list_elem_of_singleton in Hin as ->. by rewrite (shape_attr _ _ _ _ Hs Ha).
Qed.

(** ** Range tables *)

Definition input_sound (i : Z) (r : RangeTblEntry) (om : option CopyMap) : Prop :=
  Forall2 rel_shape (rte_accesses r) (mentries om) ∧ Forall (λ rel, rtindex rel = i) (mentries om) ∧
  map_sound (rte_accesses r) (λ db, evalProvRTE op_sem cat db r) (mcertain om).

(** The maps of the entries of a range table, the first of which has index [i + 1]. *)
Fixpoint inputs_sound (i : Z) (rtes : list RangeTblEntry) (inputs : list (option CopyMap)) : Prop :=
  match rtes, inputs with
  | [], [] => True
  | r :: rtes, om :: inputs => input_sound (i + 1) r om ∧ inputs_sound (i + 1) rtes inputs
  | _, _ => False
  end.

Lemma children_shape i rtes inputs :
  inputs_sound i rtes inputs → Forall2 rel_shape (concat (map rte_accesses rtes)) (children inputs).
Proof.
  rewrite children_mentries. revert i inputs. induction rtes as [|r rtes IH]; intros i [|om inputs]; try done.
  intros [(Hs & _) H]. csimpl. apply Forall2_app; [done|]. by eapply IH.
Qed.

Lemma link_spec i rtes inputs :
  inputs_sound i rtes inputs →
  Forall2 (λ child rel, rel = set_rtindex (rtindex child) (COPY_BASIC_COPYREL child)) (children inputs) (link_entries inputs i).
Proof.
  rewrite children_mentries. revert i inputs. induction rtes as [|r rtes IH]; intros i [|om inputs]; try done.
  intros [(_ & Hi & _) H]. csimpl. apply Forall2_app; [|by eapply IH]. change (match om with Some m => entries m | None => [] end)
    with (mentries om). apply Forall2_fmap_r. apply Forall_Forall2_diag.
  eapply Forall_impl; [exact Hi|]. by intros rel ->.
Qed.

Lemma length_cut rels w : length (cut cat rels w) = length rels.
Proof. revert w. induction rels as [|i rels IH]; intros w; cbn; [done|]. by rewrite IH. Qed.

Lemma cut_nulls rels :
  Forall (λ p, p.2 = nulls (length (rd_att cat p.1))) (cut cat rels (nulls (sum_list (map (λ i, length (rd_att cat i)) rels)))).
Proof.
  induction rels as [|i rels IH]; cbn; [constructor|]. unfold nulls in *. rewrite take_replicate, drop_replicate.
  constructor; [cbn; f_equal; lia|]. by replace (length (rd_att cat i) + _ - _)%nat with (sum_list (map (λ i, length (rd_att cat i)) rels)) by lia.
Qed.

(** A missing row is sound. *)
Lemma sound_nulls t m rels :
  length m = length rels →
  Forall2 (sound_rel t) m (cut cat rels (nulls (sum_list (map (λ i, length (rd_att cat i)) rels)))).
Proof.
  intros Hlen. pose proof (cut_nulls rels) as Hn. rewrite <- (length_cut rels (nulls (sum_list (map (λ i, length (rd_att cat i)) rels)))) in Hlen.
  revert m Hlen. induction Hn as [|p l Hp _ IH]; intros [|x m] Hlen; try done; constructor; [by left|]. apply IH. by injection Hlen.
Qed.

(** The rows of the inputs in an environment, or their witnesses are missing. *)
Definition rows_of (db : Z → list tuple) (i : Z) (rtes : list RangeTblEntry) (e : Z → row) : Prop :=
  ∀ (k : nat) r, rtes !! k = Some r → contributes r = true →
    e (i + Z.of_nat k)%Z ∈ evalProvRTE op_sem cat db r ∨ (e (i + Z.of_nat k)%Z).2 = nulls (rte_prov_width cat r).

Lemma rows_of_cons db i r rtes e :
  rows_of db i (r :: rtes) e →
  (contributes r = true → e i ∈ evalProvRTE op_sem cat db r ∨ (e i).2 = nulls (rte_prov_width cat r)) ∧
  rows_of db (i + 1) rtes e.
Proof.
  intros H. split.
  - intros Hc. specialize (H 0%nat r eq_refl Hc). by rewrite Z.add_0_r in H.
  - intros k r' Hk Hc. specialize (H (S k) r' Hk Hc). by replace (i + 1 + Z.of_nat k)%Z with (i + Z.of_nat (S k))%Z by lia.
Qed.

Lemma inputs_rows db i rtes inputs e :
  (∀ i t, t ∈ db i → length t = length (rd_att cat i)) →
  Forall (λ r, rte_ok cat r = true) rtes → inputs_sound i rtes inputs → rows_of db (i + 1) rtes e →
  Forall3 (λ child ccs p, sound_rel (e (rtindex child)).1 ccs p) (children inputs) (inputs ≫= mcertain)
    (cut cat (concat (map rte_accesses rtes)) (concat ((λ j, (e j).2) <$> contrib_from (i + 1) rtes))).
Proof.
  intros Hdb. rewrite children_mentries. revert i inputs. induction rtes as [|r rtes IH]; intros i [|om inputs]; try done.
  { intros. constructor. }
  intros [Hr Hrs]%Forall_cons [(Hsh & Hi & Hlen & Hs) Hins] [He Hes]%rows_of_cons.
  specialize (IH (i + 1)%Z inputs Hrs Hins Hes). csimpl. cbn [map concat contrib_from].
  destruct (contributes r) eqn:Ec.
  - csimpl. specialize (He eq_refl).
    assert (length (e (i + 1)%Z).2 = rte_prov_width cat r) as Hw.
    { destruct He as [He| ->]; [|apply length_replicate]. by eapply (rte_witness_length op_sem cat db Hdb). }
    rewrite cut_app by (rewrite Hw; by apply rte_width_accesses). apply Forall3_app; [|done].
    assert (Forall2 (sound_rel (e (i + 1)%Z).1) (mcertain om) (cut cat (rte_accesses r) (e (i + 1)%Z).2)) as H2.
    { destruct He as [He|He]; [destruct (e (i + 1)%Z); by eapply Hs|]. rewrite He.
      rewrite rte_width_accesses by done. by apply sound_nulls. }
    pose proof (Forall2_length _ _ _ Hsh) as Hl. rewrite <- Hlen in Hl. clear -Hi H2 Hl.
    revert Hl. generalize (mentries om) Hi. clear Hi. induction H2 as [|ccs p m ps Hp _ IH]; intros [|rel l] Hi Hl; try done; [constructor|].
    apply Forall_cons in Hi as [Hi0 Hi]. constructor; [by rewrite Hi0|]. apply IH; [done|]. by injection Hl.
  - assert (rte_accesses r = []) as Ea by (destruct r as [k]; by destruct k).
    rewrite Ea in *. cbn [app]. apply Forall2_length in Hsh. destruct (mentries om); [|done]. by destruct (mcertain om).
Qed.

(** ** Joins *)

Lemma forboth_forboth {A B} (f g : A → B → A) l k :
  forboth f (forboth g l k) k = forboth (λ x y, f (g x y) y) l k.
Proof. revert k. induction l as [|x l IH]; intros [|y k]; cbn; [done..|]. by rewrite IH. Qed.

Lemma forboth_ext {A B} (f g : A → B → A) l k : (∀ x y, f x y = g x y) → forboth f l k = forboth g l k.
Proof. intros E. revert k. induction l as [|x l IH]; intros [|y k]; cbn; [done..|]. by rewrite IH, E. Qed.

Lemma forboth_id {A B} (l : list A) (k : list B) : forboth (λ x _, x) l k = l.
Proof. revert k. induction l as [|x l IH]; intros [|y k]; cbn; [done..|]. by rewrite IH. Qed.

(** The entries of the inputs [L] with the inclusions of their children. *)
Definition joined (L : list Z) (es ch : list CopyMapRelEntry) : list CopyMapRelEntry :=
  update_rels (λ rel _, bool_decide (rtindex rel ∈ L)) join_incls es ch.

Lemma joined_nil es ch : joined [] es ch = es.
Proof.
  unfold joined, update_rels. etrans; [|apply (forboth_id es ch)]. apply forboth_ext. intros rel child.
  by rewrite bool_decide_eq_false_2 by set_solver.
Qed.

Lemma joined_app L L' es ch : L ## L' → joined L' (joined L es ch) ch = joined (L ++ L') es ch.
Proof.
  intros Hd. unfold joined, update_rels. rewrite forboth_forboth. apply forboth_ext. intros rel child.
  destruct (decide (rtindex rel ∈ L)) as [H1|H1].
  - rewrite (bool_decide_eq_true_2 (rtindex rel ∈ L)) by done. cbn [rtindex set_attrEntries].
    rewrite bool_decide_eq_false_2 by set_solver. by rewrite bool_decide_eq_true_2 by set_solver.
  - rewrite (bool_decide_eq_false_2 (rtindex rel ∈ L)) by done. do 2 case_bool_decide; set_solver.
Qed.

Lemma leaves_nodup n : NoDup (ids n) → NoDup (leaves n).
Proof.
  induction n as [i|jt l IHl r IHr c J]; [done|]. intros HN. pose proof (nodup_join _ _ _ _ _ HN) as (Nl & Nr & Hd).
  cbn [leaves]. apply NoDup_app. split_and!; [by apply IHl| |by apply IHr].
  intros i H1%leaves_in_ids H2%leaves_in_ids. set_solver.
Qed.

Lemma conjunct_ok w D x c : conjunct x c → expr_ok w D c = true → expr_ok w D x = true.
Proof.
  induction 1 as [|l c Hc _ IH]; [done|]. cbn [expr_ok]. intros H%forallb_Forall. apply IH. rewrite Forall_forall in H. auto.
Qed.

Lemma compared_scope q D c v w :
  expr_ok (width cat q) D c = true → compared cat get_opcode c v w → in_scope cat q D v ∧ in_scope cat q D w.
Proof.
  intros Hc (op & ty & args & t & eqop & r & Hx & _). pose proof (conjunct_ok _ _ _ _ Hx Hc) as H.
  cbn [expr_ok forallb] in H. rewrite !andb_true_iff in H. destruct H as ([[H1 H2] H3] & ([H4 H5] & H6) & _).
  split; (split; [by eapply bool_decide_eq_true_1|split; by eapply bool_decide_eq_true_1]).
Qed.

Lemma expr_ok_plain w D x : expr_ok w D x = true → plain_expr x = true.
Proof.
  induction x as [x IH] using Expr_subexprs_ind. destruct x as [| |o t l|b l|o t l|f t l u s d|f t c l|x t m c|n x|t l d|x r];
    cbn [expr_ok plain_expr subexprs] in *; try done.
  1-3: intros H%forallb_Forall; apply forallb_forall; intros y Hy%list_elem_of_In; rewrite Forall_forall in H, IH; auto.
  - destruct c; try done. intros H%forallb_Forall. apply forallb_forall. intros y Hy%list_elem_of_In. rewrite Forall_forall in H, IH. auto.
  - inversion_clear IH. auto.
  - inversion_clear IH. auto.
Qed.

(** Columns of joins are replaced by columns. *)
Lemma mutator_plain q x st x' st' :
  plain_expr x = true → conditionOnRteVarsMutator q x st = Ok (x', st') → plain_expr x' = true.
Proof.
  revert st x' st'. induction x as [x IH] using Expr_subexprs_ind. intros st x' st' Hp.
  assert (∀ l st l' st', l = subexprs x → forallb plain_expr l = true →
    (fix all (l : list Expr) : W (list Expr) :=
      match l with
      | [] => ret []
      | x :: l => x ← conditionOnRteVarsMutator q x; l ← all l; ret (x :: l)
      end) l st = Ok (l', st') → forallb plain_expr l' = true) as Hl.
  { clear -IH. intros l st l' st' ->. revert st l' st'. induction IH as [|y l Hy _ IHl]; intros st l' st'.
    - by intros _ [= <- _].
    - cbn [forallb]. rewrite andb_true_iff. intros [H1 H2] (a & s1 & E1 & (b & s2 & E2 & [= <- _])%bind_inv)%bind_inv.
      cbn [forallb]. by rewrite (Hy _ _ _ H1 E1), (IHl _ _ _ H2 E2). }
  destruct x as [v| |o t l|b l|o t l|f t l u s d|f t c l|x t m c|n x|t l d|x r]; cbn [conditionOnRteVarsMutator]; try (by cbn in Hp).
  - by intros (v' & s1 & _ & [= <- _])%bind_inv.
  - by intros [= <- _].
  - intros (l' & s1 & E & [= <- _])%bind_inv. exact (Hl _ _ _ _ eq_refl Hp E).
  - intros (l' & s1 & E & [= <- _])%bind_inv. exact (Hl _ _ _ _ eq_refl Hp E).
  - intros (l' & s1 & E & [= <- _])%bind_inv. exact (Hl _ _ _ _ eq_refl Hp E).
  - intros (l' & s1 & E & [= <- _])%bind_inv. exact (Hl _ _ _ _ eq_refl Hp E).
  - intros (l' & s1 & E & [= <- _])%bind_inv. cbn in Hp |- *. destruct c; try done. exact (Hl _ _ _ _ eq_refl Hp E).
  - intros (y & s1 & E & [= <- _])%bind_inv. inversion_clear IH as [|? ? Hx _]. exact (Hx _ _ _ Hp E).
  - intros (y & s1 & E & [= <- _])%bind_inv. inversion_clear IH as [|? ? Hx _]. exact (Hx _ _ _ Hp E).
Qed.

Lemma analyze_condition_ok P `{!Equivalence P} q c outer g w D st g' st' :
  qual_ok w D c = true → analyzeConditionForCopy cat get_opcode q c outer g st = Ok (g', st') → graph_ok P g →
  (∀ c0 v w, c = Some c0 → outer = false → compared cat get_opcode c0 v w → P v w) → graph_ok P g'.
Proof.
  unfold analyzeConditionForCopy. destruct c as [c|]; [|by intros _ [= <- <-]].
  intros Hc%expr_ok_plain (base & s1 & Eb & (eqs & s2 & E & [= <- <-])%bind_inv)%bind_inv Hg HP. apply add_edges_ok; [done..|].
  apply (mutator_plain _ _ _ _ _ Hc) in Eb.
  intros v u Hvw. destruct (find_equalities cat get_opcode c outer base s1 eqs s2 v u Eb E Hvw) as [Ho Hcmp]. by eapply HP.
Qed.

Section joins.
Context (q : Query) (contr : ContributionType) (ch : list CopyMapRelEntry) (e : Z → row).

Definition same_val (v w : Var) : Prop := val e v = val e w.

#[global] Instance same_val_equiv : Equivalence same_val.
Proof. unfold same_val. split; [done|by intros v w|intros u v w; congruence]. Qed.

Lemma handle_item_ok n es g st es' g' st' :
  node_ok cat q n = true → NoDup (ids n) →
  handleJoinTreeItem cat get_opcode q contr ch n es g st = Ok ((es', g'), st') →
  es' = joined (leaves n) es ch ∧ (joins_hold cat q get_opcode e n → graph_ok same_val g → graph_ok same_val g').
Proof.
  revert es g st es' g' st'. induction n as [i|jt l IHl r IHr c J]; intros es g st es' g' st' Hn HN; cbn [handleJoinTreeItem].
  { intros (rels & s1 & E & [= <- <- <-])%bind_inv. cbn [node_ok] in Hn. apply bool_decide_eq_true_1 in Hn.
    unfold getCopyRelsForRtindex in E. unfold kind_at in Hn. destruct (rt_fetch i (rtable q)) as [rte|]; [|by destruct Hn].
    rewrite bind_deref, decide_False in E by (cbn in Hn; destruct Hn; congruence). by injection E as <- <-. }
  pose proof (nodup_join _ _ _ _ _ HN) as (Nl & Nr & Hd). cbn [node_ok] in Hn. repeat rewrite andb_true_iff in Hn.
  destruct Hn as ((((Kl & Kr) & _) & Hc) & _).
  intros ([es1 g1] & s1 & E1 & ([es2 g2] & s2 & E2 & (rels & s3 & _ & E)%bind_inv)%bind_inv)%bind_inv.
  apply IHl in E1 as [-> G1]; [|done..]. apply IHr in E2 as [-> G2]; [|done..].
  assert (leaves l ## leaves r) as HL by (intros i H1%leaves_in_ids H2%leaves_in_ids; set_solver).
  rewrite (joined_app _ _ es ch HL) in E.
  destruct (IS_TRANSC contr).
  - apply bind_inv in E as (g3 & s4 & E3 & [= <- <- <-]). split; [done|]. intros (Hl & Hr & Hj) Hg.
    eapply (analyze_condition_ok same_val); [exact Hc|exact E3|auto|]. intros c0 v w -> Ho Hcmp.
    destruct (compared_scope q _ c0 v w Hc Hcmp) as [Sv Sw]. apply (Hj ltac:(by destruct jt) c0); done.
  - injection E as <- <- <-. split; [done|]. intros (Hl & Hr & Hj) Hg. auto.
Qed.

Lemma handle_items_ok ns es g st es' g' st' :
  Forall (λ n, node_ok cat q n = true) ns → NoDup (concat (ids <$> ns)) →
  handle_items cat get_opcode q contr ch ns es g st = Ok ((es', g'), st') →
  es' = joined (concat (leaves <$> ns)) es ch ∧
  (Forall (joins_hold cat q get_opcode e) ns → graph_ok same_val g → graph_ok same_val g').
Proof.
  revert es g st es' g' st'. induction ns as [|n ns IH]; intros es g st es' g' st'; cbn [handle_items].
  { intros _ _ [= <- <- <-]. split; [by rewrite joined_nil|done]. }
  csimpl. intros [K1 K2]%Forall_cons (N1 & Hd & N2)%NoDup_app ([es1 g1] & s1 & E1 & E2)%bind_inv.
  destruct (handle_item_ok n es g st es1 g1 s1 K1 N1 E1) as [-> G1]. destruct (IH _ _ _ _ _ _ K2 N2 E2) as [-> G2].
  split; [|intros [H1 H2]%Forall_cons; auto]. apply joined_app.
  intros i H1%leaves_in_ids (l & Hl & (m & -> & Hm)%list_elem_of_fmap)%elem_of_concat. apply (Hd i H1), elem_of_concat.
  exists (ids m). split; [by apply leaves_in_ids|by apply list_elem_of_fmap_2].
Qed.

(** An inclusion in a column of the entry [i]. *)
Definition located (i : Z) (x : AttrInclusions) : Prop := varno (incl_attr x) = i.

(** Where an inclusion depends on a column of the entry [i] only, its column has the value of that column. *)
Definition traced (i : Z) (x : AttrInclusions) : Prop := ∀ c v,
  c ∈ inclConds x → inclType c = INCL_EXISTS → existsAttr c = inl v → val e (incl_attr x) = attr (varattno v) (e i).1.

(** An entry for the same relation, with inclusions that satisfy [Q]. *)
Definition linked (Q : Z → AttrInclusions → Prop) (child rel : CopyMapRelEntry) : Prop :=
  relation rel = relation child ∧ rtindex rel = rtindex child ∧
  Forall2 (λ ca a, baseRelAttr a = baseRelAttr ca ∧ Forall (Q (rtindex child)) (outAttrIncls a))
    (attrEntries child) (attrEntries rel).

Lemma linked_mono (Q Q' : Z → AttrInclusions → Prop) child rel :
  (∀ i x, Q i x → Q' i x) → linked Q child rel → linked Q' child rel.
Proof.
  intros H (Hr & Hi & Ha). split; [done|]. split; [done|]. eapply Forall2_impl; [exact Ha|]. intros ca a [Hb HF].
  split; [done|]. eapply Forall_impl; [exact HF|]. intros x. apply H.
Qed.

Lemma forboth_Forall2 {A B} (R R' : B → A → Prop) (f : A → B → A) l k :
  (∀ y x, R y x → R' y (f x y)) → Forall2 R k l → Forall2 R' k (forboth f l k).
Proof. intros Hf. induction 1; cbn; constructor; auto. Qed.

Lemma link_linked Q i rtes inputs :
  inputs_sound i rtes inputs → Forall2 (linked Q) (children inputs) (link_entries inputs i).
Proof.
  intros H%link_spec. eapply Forall2_impl; [exact H|]. intros child rel ->. split; [done|]. split; [done|].
  cbn [attrEntries set_rtindex COPY_BASIC_COPYREL]. apply Forall2_fmap_r, Forall_Forall2_diag, Forall_forall. by intros a _.
Qed.

Lemma joined_traced L es :
  Forall2 (linked (λ i x, located i x ∧ traced i x)) ch es →
  Forall2 (linked (λ i x, located i x ∧ traced i x)) ch (joined L es ch).
Proof.
  unfold joined, update_rels. apply forboth_Forall2. intros child rel (Hr & Hi & Ha). case_bool_decide; [|done].
  split; [done|]. split; [done|]. cbn [attrEntries set_attrEntries]. eapply forboth_Forall2; [|exact Ha].
  intros ca a [Hb HF]. split; [done|]. cbn [outAttrIncls join_incls set_outAttrIncls]. apply Forall_app. split; [done|].
  apply Forall_fmap, Forall_forall. intros ci _. split; [done|].
  intros c v ->%list_elem_of_singleton _ [= <-]. by rewrite <- Hi.
Qed.

Lemma extended_traced rels rels' :
  Forall2 (linked (λ i x, located i x ∧ traced i x)) ch rels → Forall2 (extended_rel same_val) rels rels' →
  Forall2 (linked traced) ch rels'.
Proof.
  intros H1 H2. revert rels' H2. induction H1 as [|child rel chs rels (Hr & Hi & Ha) _ IH]; intros rels' H2.
  { apply Forall2_nil_inv_l in H2 as ->. constructor. }
  apply Forall2_cons_inv_l in H2 as (rel' & rels'' & (attrs & -> & Hx) & H2 & ->). constructor; [|by apply IH].
  split; [done|]. split; [done|]. cbn [attrEntries set_attrEntries]. clear -Ha Hx. revert attrs Hx.
  induction Ha as [|ca a cas as' [Hb HF] _ IH]; intros attrs Hx.
  { apply Forall2_nil_inv_l in Hx as ->. constructor. }
  apply Forall2_cons_inv_l in Hx as (a' & attrs' & (new & -> & Hnew) & Hx & ->). constructor; [|by apply IH].
  split; [done|]. cbn [outAttrIncls set_outAttrIncls]. apply Forall_app. split; [eapply Forall_impl; [exact HF|]; by intros x []|].
  rewrite Forall_forall in HF. eapply Forall_impl; [exact Hnew|]. intros x (incl & Hin & [He|[Hc HP]]) c v Hcx Ht Hv.
  - rewrite Forall_forall in He. rewrite (He c Hcx) in Ht. done.
  - rewrite Hc in Hcx. apply list_elem_of_singleton in Hcx as ->. injection Hv as <-. rewrite <- HP.
    destruct (HF incl Hin) as [Hl _]. unfold val. by rewrite Hl.
Qed.

(** What holds in a row of the FROM clause that satisfies the WHERE clause. *)
Record solution (db : Z → list tuple) : Prop := {
  sol_rows : rows_of db 1 (rtable q) e;
  sol_settled : Forall (settled op_sem fst join_row (aliases q) e) (fromlist q);
  sol_joins : Forall (joins_hold cat q get_opcode e) (fromlist q);
  sol_quals : eval_qual op_sem (vals_of fst e) (quals q) = true }.

Lemma handleJoins_linked es st es' st' :
  from_ok cat q → Forall (joins_hold cat q get_opcode e) (fromlist q) →
  (∀ c v w, quals q = Some c → compared cat get_opcode c v w → in_scope cat q (scope q) v → in_scope cat q (scope q) w →
    val e v = val e w) →
  Forall2 (linked (λ i x, located i x ∧ traced i x)) ch es →
  handleJoins cat get_opcode q contr ch es st = Ok (es', st') → Forall2 (linked traced) ch es'.
Proof.
  intros Hq Hj Hw Hes ([es1 g1] & s1 & E1 & (g2 & s2 & E2 & E3)%bind_inv)%bind_inv.
  apply handle_items_ok in E1 as [-> Hg]; [|apply (fo_nodes _ _ Hq)|apply (fo_scope _ _ Hq)].
  assert (graph_ok same_val g1) as Hg1 by (apply Hg; [done|by intros k n Hk]).
  assert (graph_ok same_val g2) as Hg2.
  { destruct (IS_TRANSC contr); [|by injection E2 as <- <-].
    eapply (analyze_condition_ok same_val); [exact (fo_quals _ _ Hq)|exact E2|done|]. intros c0 v w Hc _ Hcmp.
    pose proof (fo_quals _ _ Hq) as Hok. rewrite Hc in Hok. destruct (compared_scope q _ c0 v w Hok Hcmp) as [Sv Sw].
    by apply (Hw c0). }
  destruct (addCondForEquiGraph_ok same_val ltac:(intros v w; unfold same_val, val; congruence) g2
    (joined (concat (leaves <$> fromlist q)) es ch) s2 Hg2) as (rels' & E & Hx).
  rewrite E in E3. injection E3 as <- <-. eapply extended_traced; [|exact Hx]. by apply joined_traced.
Qed.

Lemma handleJoins_traced db es st es' st' :
  equality_sound op_sem cat get_opcode → from_ok cat q → solution db →
  Forall2 (linked (λ i x, located i x ∧ traced i x)) ch es →
  handleJoins cat get_opcode q contr ch es st = Ok (es', st') → Forall2 (linked traced) ch es'.
Proof.
  intros Heq Hq [_ _ Hj Hw] Hes. apply handleJoins_linked; [done..| |done].
  intros c v w Hc Hcmp [Lv _] [Lw _]. rewrite Hc in Hw.
  pose proof (compared_equal op_sem cat get_opcode _ c v w Heq Hcmp Hw) as E. cbn in E. by rewrite !decide_True in E.
Qed.

End joins.

(** The entries of a query node are for the relations of the entries of its inputs. *)
Lemma linked_shape Q rels ch es : Forall2 rel_shape rels ch → Forall2 (linked Q) ch es → Forall2 rel_shape rels es.
Proof.
  intros H1. revert es. induction H1 as [|i child rels ch [Hr Hs] _ IH]; intros es H2.
  { apply Forall2_nil_inv_l in H2 as ->. constructor. }
  apply Forall2_cons_inv_l in H2 as (rel & es' & (Er & _ & Ha) & H2 & ->). constructor; [|by apply IH]. split; [congruence|].
  rewrite <- Hs. clear -Ha. induction Ha as [|ca a cas l [E _] _ IH]; [done|]. csimpl. by rewrite IH, E.
Qed.

Lemma handleJoins_shape q contr inputs st es' st' :
  from_ok cat q → inputs_sound 0 (rtable q) inputs →
  handleJoins cat get_opcode q contr (children inputs) (link_entries inputs 0) st = Ok (es', st') →
  Forall2 (linked (λ _ _, True)) (children inputs) es'.
Proof.
  intros Hq Hin E. set (e := (λ _, ([], [])) : Z → row).
  assert (∀ v w, val e v = val e w) as He by (intros v w; unfold val, e; cbn; by rewrite !(attr_nulls _ 0)).
  eapply Forall2_impl; [|intros child rel; by apply (linked_mono (traced e))].
  eapply (handleJoins_linked q contr _ e); [exact Hq| |auto|by eapply link_linked|exact E].
  apply Forall_forall. intros n _. induction n; cbn [joins_hold]; auto.
Qed.

End sound.

End CopySound.
