(* ===== verification/CopyQuery.v ===== *)
(** * Copy maps of query nodes are sound

    Target lists, aggregations and set operations: from the maps of the inputs of a query node to the map of the node, and
    by induction on the query to the map of a whole query. *)

From Stdlib Require Import ZArith Lia.
From stdpp Require Import base strings numbers list sets gmap.
From S2P Require Import Prelude ProvStack AttrName QueryTree SqlSemantics SqlFacts Queries ProvWitness RewriteSPJ RewriteAggr.
From S2P Require Import RewriteFacts RewriteJoins RewriteMain AggrFacts NodeFacts ProvReplay CopyMap CopyGraph CopyFacts CopySound.
Import QueryTree SqlSemantics SqlFacts Queries ProvWitness RewriteSPJ RewriteAggr RewriteFacts RewriteJoins RewriteMain.
Import AggrFacts NodeFacts ProvReplay CopyMap CopyGraph CopyFacts CopySound.

Module CopyQuery.

(** ** Target lists *)

(** The inclusions of a projected attribute: each condition is an inclusion of the attribute in a column that [Q] relates to the
    number of the target entry. *)
Definition projected (Q : Z → AttrInclusions → Prop) (x : AttrInclusions) : Prop :=
  Forall (λ c, ∃ incl, c = MAKE_EXISTS_INCL (inr incl) ∧ Q (varattno (incl_attr x)) incl) (inclConds x).

Lemma add_projection_ok Q var incl l :
  Q (varattno var) incl → Forall (projected Q) l →
  Forall (projected Q) (add_projection var (MAKE_EXISTS_INCL (inr incl)) l).
Proof.
  intros HQ. induction 1 as [|x l Hx Hl IH]; cbn [add_projection].
  { apply Forall_singleton, Forall_singleton. by exists incl. }
  case_decide as Hv; [|by constructor]. constructor; [|done]. apply Forall_app. cbn [inclConds incl_attr]. split; [done|].
  apply Forall_singleton. exists incl. split; [done|]. cbn. by rewrite Hv.
Qed.

Lemma project_incl_ok Q i sv incl acc :
  (∀ v ci pos, (Some v, ci, pos) ∈ sv → varno v = varno (incl_attr incl) → varattno v = varattno (incl_attr incl) → Q pos incl) →
  Forall (projected Q) acc → Forall (projected Q) (project_incl i sv incl acc).
Proof.
  revert acc. induction sv as [|[[[v|] ci] pos] sv IH]; intros acc HQ Hacc; cbn [project_incl]; [done|..].
  - apply IH; [intros v' ci' pos' H; eapply HQ; by right|]. case_decide as Hv; [|done]. apply add_projection_ok; [|done].
    apply (HQ v ci pos); [by left|apply Hv..].
  - apply IH; [intros v' ci' pos' H; eapply HQ; by right|done].
Qed.

(** Without CASE no column is copied under a condition. *)
Lemma project_cases_none i sv incl acc : Forall (λ x, x.1.2 = None) sv → project_cases i sv incl acc = acc.
Proof. intros H. revert acc. induction H as [|[[v ci] pos] sv Hx _ IH]; intros acc; [done|]. cbn in Hx |- *. by rewrite Hx, IH. Qed.

Lemma case_info_plain q x st : plain_expr x = true → getCaseInfoIfSimple q x st = Ok (None, st).
Proof. by destruct x. Qed.

Lemma simple_vars_plain q tes st sv st' :
  Forall (λ te, plain_expr (expr te) = true) tes → simple_vars q tes st = Ok (sv, st') → Forall (λ x, x.1.2 = None) sv.
Proof.
  intros H. revert st sv. induction H as [|te tes Hte _ IH]; intros st sv; cbn [simple_vars]; [by intros [= <- _]|].
  destruct (resjunk te); [by apply IH|].
  intros (ov & s1 & _ & (ci & s2 & E1 & (rest & s3 & E2 & [= <- <-])%bind_inv)%bind_inv)%bind_inv.
  rewrite (case_info_plain q _ s1 Hte) in E1. injection E1 as <- <-. constructor; [done|by eapply IH].
Qed.

(** Columns that are not part of the result are the last ones, here and below. *)
Fixpoint hidden_last (tl : list TargetEntry) : bool :=
  match tl with [] => true | te :: tl => if resjunk te then forallb resjunk tl else hidden_last tl end.
Fixpoint junk_last (q : Query) : bool := hidden_last (targetList q) && forallb junk_last_rte (rtable q)
with junk_last_rte (r : RangeTblEntry) : bool := match subquery r with Some q => junk_last q | None => true end.

Lemma hidden_last_split tl : hidden_last tl = true → ∃ junk, tl = filter (λ te, resjunk te = false) tl ++ junk.
Proof.
  induction tl as [|te tl IH]; cbn [hidden_last]; [by exists []|]. destruct (resjunk te) eqn:E.
  - intros H%forallb_Forall. exists (te :: tl). rewrite filter_cons_False by congruence.
    assert (filter (λ te, resjunk te = false) tl = []) as ->; [|done].
    clear -H. induction H as [|x l Hx _ IH]; [done|]. rewrite filter_cons_False by congruence. exact IH.
  - intros [junk Hj]%IH. exists junk. rewrite filter_cons_True by done. cbn. by rewrite <- Hj.
Qed.

(** The number of a target entry is its position. *)
Lemma numbered_lookup tl te :
  resno <$> tl = seqZ 1 (Z.of_nat (length tl)) → te ∈ tl → ∃ n, tl !! n = Some te ∧ resno te = (Z.of_nat n + 1)%Z.
Proof.
  intros Hn (n & Hte)%list_elem_of_lookup. exists n. split; [done|]. apply (f_equal (λ l, l !! n)) in Hn.
  rewrite list_lookup_fmap, Hte in Hn. symmetry in Hn. apply lookup_seqZ in Hn as [-> _]. lia.
Qed.

Lemma attr_fmap {A} (f : A → value) l n x : l !! n = Some x → attr (Z.of_nat n + 1) (f <$> l) = f x.
Proof. intros H. unfold attr. rewrite decide_True by lia. replace (Z.to_nat _) with n by lia. by rewrite list_lookup_fmap, H. Qed.

Lemma attach_in optional n ws acc x :
  x ∈ attach optional n ws acc → ∃ u w, x = u ++ w ∧ u ∈ acc ∧ (w ∈ ws ∨ optional = true ∧ w = nulls n).
Proof.
  intros (u & (w & -> & Hw)%list_elem_of_fmap & Hu)%list_elem_of_bind. exists u, w. split; [done|]. split; [done|].
  destruct ws as [|w0 ws]; [|by left]. destruct optional; [|by apply elem_of_nil in Hw]. right. by apply list_elem_of_singleton in Hw.
Qed.

(** Target entries without casts and CASE; those that are columns have a column in scope. *)
Definition column_ok (cat : syscache) (q : Query) (te : TargetEntry) : Prop :=
  plain_expr (expr te) = true ∧ ∀ u, expr te = EVar u → in_scope cat q (scope q) u.

Lemma columns_plain cat q tes : Forall (column_ok cat q) tes → Forall (λ te, plain_expr (expr te) = true) tes.
Proof. intros H. eapply Forall_impl; [exact H|]. by intros te []. Qed.

Lemma agg_ok_plain w D x : agg_ok w D x = true → plain_expr x = true.
Proof.
  induction x as [x IH] using Expr_subexprs_ind. destruct x as [| |o t l|b l|o t l|f t l u s d|f t c l|x t m c|n x|t l d|x r];
    cbn [agg_ok plain_expr subexprs] in *; try done.
  1-3: intros H%forallb_Forall; apply forallb_forall; intros y Hy%list_elem_of_In; rewrite Forall_forall in H, IH; auto.
  - intros [_ H%forallb_Forall]%andb_true_iff. apply forallb_forall. intros y Hy%list_elem_of_In. rewrite Forall_forall in H.
    by eapply expr_ok_plain, H.
  - destruct c; try done. intros H%forallb_Forall. apply forallb_forall. intros y Hy%list_elem_of_In. rewrite Forall_forall in H, IH. auto.
  - inversion_clear IH. auto.
  - inversion_clear IH. auto.
Qed.

Lemma spj_scope cat q :
  spj_query cat q → Forall (column_ok cat q) (targetList q).
Proof.
  intros Hs. eapply Forall_impl; [apply (spj_targets _ _ Hs)|]. intros te Ht. unfold te_ok in Ht. rewrite !andb_true_iff in Ht.
  split; [by eapply expr_ok_plain, Ht|]. intros u Hu. rewrite Hu in Ht. apply in_scope_spec. apply Ht.
Qed.

Lemma agg_scope cat q :
  agg_query cat q → Forall (column_ok cat q) (getGroupByTLEs q).
Proof.
  intros Ha. apply Forall_forall. intros te [_ Hte]%group_by_in%list_elem_of_filter.
  pose proof (agg_targets _ _ Ha) as Ht. rewrite Forall_forall in Ht. specialize (Ht te Hte). unfold agg_te_ok in Ht.
  split.
  { checks. destruct (has_agg (expr te)); checks; [by eapply agg_ok_plain|by eapply expr_ok_plain]. }
  intros u Hu. rewrite Hu in Ht. cbn [has_agg] in Ht. rewrite !andb_true_iff in Ht. apply in_scope_spec. apply Ht.
Qed.

Section query.
Context (op_sem : operators) (cat : syscache) (get_opcode : Z → Z).

Section node.
Context (q : Query) (Hq : from_ok cat q).

Lemma simple_vars_spec tes st sv st' :
  Forall (column_ok cat q) tes →
  simple_vars q tes st = Ok (sv, st') → ∀ v ci pos, (Some v, ci, pos) ∈ sv →
  ∃ te u, te ∈ tes ∧ resjunk te = false ∧ resno te = pos ∧ expr te = EVar u ∧
    ∀ e, Forall (settled op_sem fst join_row (aliases q) e) (fromlist q) → val e u = val e v.
Proof using Hq.
  intros Ht. revert st sv. induction Ht as [|te tes [Hpl Hte] _ IH]; intros st sv; cbn [simple_vars].
  { by intros [= <- <-] v ci pos ?%elem_of_nil. }
  destruct (resjunk te) eqn:Ej.
  { intros E v ci pos Hv. destruct (IH st sv E v ci pos Hv) as (te' & u & Hin & H). exists te', u. split; [by right|done]. }
  intros (ov & s1 & E1 & (ci1 & s2 & E3 & (rest & s3 & E2 & [= <- <-])%bind_inv)%bind_inv)%bind_inv v ci pos [Hv|Hv]%elem_of_cons.
  - injection Hv as <- -> ->. destruct (getVarFromTeIfSimple (expr te)) as [u|] eqn:Eu; [|done].
    apply (plain_var _ _ Hpl) in Eu as Ee. rewrite Ee in Hte.
    destruct (resolveToRteVar_ok op_sem cat q u st Hq (Hte u eq_refl)) as (v' & E & _ & Hval). rewrite (bind_ok _ _ _ _ _ E) in E1.
    injection E1 as -> ->. exists te, u. split_and!; try done. by left.
  - destruct (IH s2 rest E2 v ci pos Hv) as (te' & u & Hin & H). exists te', u. split; [by right|done].
Qed.

(** The conditions lead to columns with the value that the row [t] has at the target entry. *)
Definition copied (e : Z → row) (t : tuple) (i : Z) : AttrInclusions → Prop :=
  projected (λ pos incl, attr pos t = val e (incl_attr incl) ∧ traced e i incl).

Lemma map_targets_copied tes i ch es st es' st' e t :
  Forall (column_ok cat q) tes →
  Forall (settled op_sem fst join_row (aliases q) e) (fromlist q) →
  (∀ te u, te ∈ tes → resjunk te = false → expr te = EVar u → attr (resno te) t = val e u) →
  Forall2 (linked (traced e)) ch es →
  mapChildVarsToTargetEntries q i tes es st = Ok (es', st') → Forall2 (linked (copied e t)) ch es'.
Proof using Hq.
  intros Hs He Ht Hes (sv & s1 & E & [= <- <-])%bind_inv. pose proof (simple_vars_spec tes st sv s1 Hs E) as Hsv.
  pose proof (simple_vars_plain _ _ _ _ _ (columns_plain _ _ _ Hs) E) as Hnc.
  apply Forall2_fmap_r. eapply Forall2_impl; [exact Hes|]. intros child rel (Hr & Hi & Ha). split; [done|]. split; [done|].
  cbn [attrEntries set_attrEntries]. apply Forall2_fmap_r. eapply Forall2_impl; [exact Ha|]. intros ca a [Hb HF].
  split; [done|]. cbn [outAttrIncls set_outAttrIncls].
  assert (∀ acc, Forall (copied e t (rtindex child)) acc → Forall (copied e t (rtindex child))
    (foldl (λ acc incl, project_cases i sv incl (project_incl i sv incl acc)) acc (outAttrIncls a))) as H; [|by apply H].
  induction HF as [|incl l Hincl _ IH]; intros acc Hacc; cbn [foldl]; [done|]. rewrite (project_cases_none _ _ _ _ Hnc).
  apply IH, project_incl_ok; [|done].
  intros v ci pos Hv E1 E2. split; [|done]. destruct (Hsv v ci pos Hv) as (te & u & Hin & Hj & <- & Hu & Hval).
  rewrite (Ht te u Hin Hj Hu), (Hval e He). unfold val. by rewrite E1, E2.
Qed.

End node.

(** The entries of a query node are sound if the columns of their inclusions have the values of columns of the inputs. *)
Lemma linked_sound (Q : Z → AttrInclusions → Prop) (e : Z → row) t ch ccss ps es :
  (∀ i x cc, Q i x → existsb (certain_cond cc) (inclConds x) = true →
    ∃ k, k ∈ cc ∧ attr (varattno (incl_attr x)) t = attr k (e i).1) →
  Forall3 (λ child ccs p, sound_rel cat (e (rtindex child)).1 ccs p) ch ccss ps → Forall2 (linked Q) ch es →
  Forall2 (sound_rel cat t) (zip_with (λ rel ccs, zip_with certain_columns (attrEntries rel) ccs) es ccss) ps.
Proof.
  intros HQ H3. revert es. induction H3 as [|child ccs p ch ccss ps Hp _ IH]; intros es H2.
  { apply Forall2_nil_inv_l in H2 as ->. constructor. }
  apply Forall2_cons_inv_l in H2 as (rel & es' & (_ & _ & Ha) & H2 & ->). cbn [zip_with]. constructor; [|by apply IH].
  destruct Hp as [Hp|Hp]; [by left|]. right. intros n cc k Hn Hk.
  apply lookup_zip_with_Some in Hn as (a & cc0 & -> & Hna & Hcc). apply (Forall2_lookup_r _ _ _ _ _ Ha) in Hna as (ca & _ & _ & HF).
  apply list_elem_of_fmap in Hk as (x & -> & [Hx Hc]%elem_of_filter_bool).
  rewrite Forall_forall in HF. destruct (HQ _ x cc0 (HF x Hx) Hc) as (k & Hk & ->). by eapply Hp.
Qed.

(** A condition about an inclusion with conditions [cs] certainly holds. *)
Lemma certain_inner cc c incl :
  c = MAKE_EXISTS_INCL (inr incl) → certain_cond cc c = true →
  ∃ c' v, c' ∈ inclConds incl ∧ inclType c' = INCL_EXISTS ∧ existsAttr c' = inl v ∧ varattno v ∈ cc.
Proof.
  intros ->. unfold certain_cond. cbn. intros (c' & Hc'%list_elem_of_In & Hd)%existsb_exists. unfold direct_cond in Hd.
  apply andb_true_iff in Hd as [Hty%bool_decide_eq_true_1 Hd]. exists c'. destruct (existsAttr c') as [v|]; [|done].
  exists v. by apply bool_decide_eq_true_1 in Hd.
Qed.

Lemma copied_sound e t ch ccss ps es :
  Forall3 (λ child ccs p, sound_rel cat (e (rtindex child)).1 ccs p) ch ccss ps → Forall2 (linked (copied e t)) ch es →
  Forall2 (sound_rel cat t) (zip_with (λ rel ccs, zip_with certain_columns (attrEntries rel) ccs) es ccss) ps.
Proof.
  apply linked_sound. intros i x cc HF (c & Hc%list_elem_of_In & Hcert)%existsb_exists.
  unfold copied, projected in HF. rewrite Forall_forall in HF. destruct (HF c Hc) as (incl & E & Hval & Htr).
  destruct (certain_inner cc c incl E Hcert) as (c' & v & Hc' & Hty & Ev & Hv). exists (varattno v). split; [done|].
  by rewrite Hval, (Htr c' v Hc' Hty Ev).
Qed.

(** ** Rows of a query node *)

(** The rows of the inputs in a row of the FROM clause. *)
Lemma solve_rows db q e :
  from_ok cat q → e ∈ solve_prov op_sem cat (map (evalProvRTE op_sem cat db) (rtable q)) q → rows_of op_sem cat db 1 (rtable q) e.
Proof.
  intros Hq [He _]%elem_of_filter_bool k r Hk Hc. pose proof (fo_nodes _ _ Hq) as Hn. pose proof (fo_scope _ _ Hq) as HN.
  assert (Forall (scoped (aliases q)) (fromlist q)) as Hsc by (eapply Forall_impl; [exact Hn|]; apply scoped_plain).
  pose proof (from_list_members op_sem fst join_row _ (null_row cat q) (aliases q) _ _ _ HN Hsc He) as Hm.
  assert ((1 + Z.of_nat k)%Z ∈ contributors q) as Hi by (rewrite contributors_from; by eapply contributes_in).
  apply (leaves_contributors cat q _ Hq) in Hi. apply elem_of_concat in Hi as (l & Hl & (n & -> & Hin)%list_elem_of_fmap).
  rewrite Forall_forall in Hm. specialize (Hm n Hin _ Hl).
  assert (rt_fetch (1 + Z.of_nat k) (rtable q) = Some r) as Hf.
  { unfold rt_fetch. rewrite decide_True by lia. by replace (Z.to_nat (1 + Z.of_nat k - 1)) with k by lia. }
  unfold null_row in Hm. rewrite rt_fetch_map, Hf in Hm. destruct Hm as [Hm| ->]; [by left|by right].
Qed.

Section node_rows.
Context (db : Z → list tuple) (db_ok : ∀ i t, t ∈ db i → length t = length (rd_att cat i)).
Context (eq_sound : equality_sound op_sem cat get_opcode).
Context (contr : ContributionType) (q : Query) (Hq : from_ok cat q).

Lemma solve_solution e :
  e ∈ solve_prov op_sem cat (map (evalProvRTE op_sem cat db) (rtable q)) q → solution op_sem cat get_opcode q e db.
Proof using eq_sound Hq.
  intros Hin. pose proof (solve_rows db q e Hq Hin) as Hrows. apply elem_of_filter_bool in Hin as [He Hw].
  pose proof (fo_nodes _ _ Hq) as Hn. pose proof (fo_scope _ _ Hq) as HN.
  assert (Forall (scoped (aliases q)) (fromlist q)) as Hsc by (eapply Forall_impl; [exact Hn|]; apply scoped_plain).
  pose proof (from_list_settled op_sem fst join_row _ (null_row cat q) (aliases q) _ _ _ HN Hsc He) as [Hset _].
  pose proof (from_list_joins_hold op_sem cat q get_opcode _ eq_sound _ _ _ Hn HN Hsc He) as Hj. by split.
Qed.

Lemma select_sound inputs i tes e t s0 es s1 es' s2 :
  inputs_sound op_sem cat 0 (rtable q) inputs → solution op_sem cat get_opcode q e db →
  handleJoins cat get_opcode q contr (children inputs) (link_entries inputs 0) s0 = Ok (es, s1) →
  mapChildVarsToTargetEntries q i tes es s1 = Ok (es', s2) →
  Forall (column_ok cat q) tes →
  (∀ te u, te ∈ tes → resjunk te = false → expr te = EVar u → attr (resno te) t = val e u) →
  Forall2 (sound_rel cat t) (certain (QueryMap i es' inputs)) (cut cat (accesses q) (witness q e)).
Proof using db_ok eq_sound Hq.
  intros Hin Hsol E1 E2 Hs Ht. rewrite certain_query.
  replace (accesses q) with (concat (map rte_accesses (rtable q))) by by destruct q. unfold witness. rewrite contributors_from.
  eapply copied_sound.
  - apply (inputs_rows op_sem cat db 0 (rtable q) inputs e db_ok (fo_rtes _ _ Hq) Hin). apply Hsol.
  - eapply map_targets_copied; [exact Hq|exact Hs|apply Hsol|exact Ht| |exact E2].
    eapply handleJoins_traced; [exact eq_sound|exact Hq|exact Hsol| |exact E1]. by eapply link_linked.
Qed.

(** A row of a selection. *)
Lemma spj_row x :
  spj_query cat q → x ∈ evalProv op_sem cat db q →
  x ∈ raw_prov op_sem cat (map (evalProvRTE op_sem cat db) (rtable q)) q.
Proof.
  intros Hs Hx. assert (∀ l : list row, x ∈ dedup_if q l → x ∈ l) as Hd.
  { intros l. unfold dedup_if. destruct (distinctClause q); [done|]. apply dedup_on_in. }
  rewrite evalProv_select in Hx by (by eapply spj_select || by eapply te_ok_shown, (spj_targets _ _ Hs)). cbv zeta in Hx.
  destruct (limit_joins q); [|by apply Hd; eapply limited_in].
  apply list_elem_of_bind in Hx as (t & (w & -> & Hw)%list_elem_of_fmap & _). unfold matching in Hw.
  apply list_elem_of_fmap in Hw as ([t' w'] & -> & [<- Hin]%list_elem_of_filter). by apply Hd.
Qed.

Lemma spj_sound inputs i s0 es s1 es' s2 t w :
  spj_query cat q → inputs_sound op_sem cat 0 (rtable q) inputs →
  handleJoins cat get_opcode q contr (children inputs) (link_entries inputs 0) s0 = Ok (es, s1) →
  handleProjectionCopyMap q i es s1 = Ok (es', s2) → (t, w) ∈ evalProv op_sem cat db q →
  Forall2 (sound_rel cat t) (certain (QueryMap i es' inputs)) (cut cat (accesses q) w).
Proof using db_ok eq_sound Hq.
  intros Hs Hin E1 E2 (e & [= -> ->] & He)%spj_row%list_elem_of_fmap; [|done].
  pose proof (spj_scope cat q Hs) as Hsc. eapply select_sound; [done|by apply solve_solution|exact E1|exact E2|done|].
  rewrite Forall_forall in Hsc.
  intros te u Hte _ Hu. destruct (numbered_lookup _ _ (spj_numbered _ _ Hs) Hte) as (n & Hn & ->).
  unfold targets. rewrite (attr_fmap _ _ _ _ Hn), Hu. destruct (proj2 (Hsc te Hte) u Hu) as [Hl _]. cbn. by rewrite decide_True.
Qed.

(** A visible column of a row of an aggregation. *)
Lemma visible_attr t te :
  agg_query cat q → hidden_last (targetList q) = true → length t = length (targetList q) →
  te ∈ targetList q → resjunk te = false → attr (resno te) (visible q t) = attr (resno te) t.
Proof.
  intros Ha [junk Hj]%hidden_last_split Hlen Hte Hv. rewrite (visible_attrs cat q Ha t Hlen).
  set (vis := filter _ (targetList q)) in *. assert (te ∈ vis) as (n & Hn)%list_elem_of_lookup by by apply list_elem_of_filter.
  assert (resno te = (Z.of_nat n + 1)%Z) as E.
  { pose proof (agg_numbered _ _ Ha) as Hnum. rewrite Hj in Hnum at 1. apply (f_equal (λ l, l !! n)) in Hnum.
    rewrite list_lookup_fmap, (lookup_app_l_Some _ _ _ _ Hn) in Hnum. symmetry in Hnum. apply lookup_seqZ in Hnum as [-> _]. lia. }
  rewrite E. rewrite (attr_fmap _ _ _ _ Hn), E. done.
Qed.

Lemma agg_sound inputs i s0 es s1 es' s2 t w :
  agg_query cat q → hidden_last (targetList q) = true → query_ok cat q = true → inputs_sound op_sem cat 0 (rtable q) inputs →
  length (certain (QueryMap i es' inputs)) = length (accesses q) →
  handleJoins cat get_opcode q contr (children inputs) (link_entries inputs 0) s0 = Ok (es, s1) →
  generateAggCopyMap q i es s1 = Ok (es', s2) → (t, w) ∈ evalProv op_sem cat db q →
  Forall2 (sound_rel cat t) (certain (QueryMap i es' inputs)) (cut cat (accesses q) w).
Proof using db_ok eq_sound Hq.
  intros Ha Hh Hok Hin Hlen E1 E2 Hx. rewrite evalProv_unfold in Hx. unfold body_prov in Hx.
  rewrite (agg_setops _ _ Ha), (agg_grouped _ _ Ha) in Hx.
  apply list_elem_of_bind in Hx as (t0 & (w' & [= -> ->] & Hw)%list_elem_of_fmap & Ht0%limited_in%agg_rows_length).
  apply attach_in in Hw as (u & w & -> & ->%list_elem_of_singleton & [Hw|[_ ->]]); cbn [app].
  2:{ rewrite (prov_width_accesses cat q Hok). by apply sound_nulls. }
  apply list_elem_of_fmap in Hw as (e & -> & [Hkey He]%list_elem_of_filter).
  assert (∀ te, te ∈ getGroupByTLEs q → te ∈ filter (is_group q) (targetList q)) as Hg by apply group_by_in.
  pose proof (agg_scope cat q Ha) as Hsc. eapply select_sound; [done|by apply solve_solution|exact E1|exact E2|done|].
  rewrite Forall_forall in Hsc.
  intros te u Hte Hj Hu. pose proof (Hg te Hte) as Hf. apply list_elem_of_filter in Hf as Hf'. destruct Hf' as [_ Htl].
  rewrite (visible_attr t0 te Ha Hh Ht0 Htl Hj). rewrite (row_key_attrs cat q Ha t0 Ht0) in Hkey.
  apply list_elem_of_lookup in Hf as (n & Hn). apply (f_equal (λ l, l !! n)) in Hkey. unfold group_key in Hkey.
  rewrite !list_lookup_fmap, Hn in Hkey. injection Hkey as <-. rewrite Hu. destruct (proj2 (Hsc te Hte) u Hu) as [Hl _]. cbn. by rewrite decide_True.
Qed.

End node_rows.

(** ** Set operations *)

(** The inputs, and whether their rows have the values of the result; the rows of the right side of a difference have not. *)
Fixpoint set_kept (t : SetOpNode) : list (Z * bool) :=
  match t with
  | SetOpRef i => [(i, true)]
  | SetOperationStmt SETOP_EXCEPT _ l r => set_kept l ++ ((λ p, (p.1, false)) <$> set_kept r)
  | SetOperationStmt _ _ l r => set_kept l ++ set_kept r
  end.

Lemma set_kept_leaves t : fst <$> set_kept t = set_leaves t.
Proof.
  induction t as [i|op all l IHl r IHr]; [done|]. cbn [set_leaves]. rewrite <- IHl, <- IHr.
  destruct op; cbn [set_kept]; rewrite fmap_app; [done..|]. f_equal. rewrite <- list_fmap_compose. by apply list_fmap_ext.
Qed.

(** The columns of an operation are the columns with the same number of its inputs. *)
Definition same_col (x : AttrInclusions) : Prop :=
  Forall (λ c, ∃ inner, c = MAKE_EXISTS_INCL (inr inner) ∧
    Forall (λ c', ∃ v, c' = MAKE_EXISTS_INCL (inl v) ∧ varattno v = varattno (incl_attr x)) (inclConds inner)) (inclConds x).

Lemma handleSetOp_linked t ch es (K : Z → Prop) :
  Forall2 (linked (λ i x, same_col x ∧ K i)) ch es →
  Forall2 (linked (λ i x, same_col x ∧ (K i ∨ (i, true) ∈ set_kept t))) ch (handleSetOp t ch es).
Proof.
  revert es K. induction t as [j|op all l IHl r IHr]; intros es K Hes.
  - cbn [handleSetOp set_kept]. unfold update_rels. eapply forboth_Forall2; [|exact Hes]. intros child rel (Hr & Hi & Ha).
    assert (linked (λ i x, same_col x ∧ (K i ∨ (i, true) ∈ [(j, true)])) child rel) as Hl
      by (apply (linked_mono (λ i x, same_col x ∧ K i)); [naive_solver|done]).
    case_bool_decide as Hj; [|done]. destruct Hl as (_ & _ & Hl). split; [done|]. split; [done|].
    cbn [attrEntries set_attrEntries]. eapply forboth_Forall2; [|exact Hl]. intros ca a [Hb HF]. split; [done|].
    cbn [outAttrIncls set_incls set_outAttrIncls]. apply Forall_app. split; [done|]. apply Forall_fmap, Forall_forall.
    intros ci _. split; [|right; rewrite Hj; by left]. apply Forall_singleton. eexists. split; [done|].
    apply Forall_singleton. by eexists.
  - assert (∀ es, Forall2 (linked (λ i x, same_col x ∧ K i)) ch es →
      Forall2 (linked (λ i x, same_col x ∧ (K i ∨ (i, true) ∈ set_kept l ++ set_kept r))) ch (handleSetOp r ch (handleSetOp l ch es))) as Hboth.
    { intros es0 H0. eapply Forall2_impl; [apply IHr, IHl, H0|]. intros child rel. apply linked_mono. intros i x.
      rewrite elem_of_app. tauto. }
    destruct op; cbn [handleSetOp set_kept]; [by apply Hboth..|].
    eapply Forall2_impl; [apply IHl, Hes|]. intros child rel. apply linked_mono. intros i x. rewrite elem_of_app. tauto.
Qed.

Section witnesses.
Context (rows : Z → list row) (pw : Z → nat).

(** A witness made of rows of the inputs [F], those with the values of the result marked. *)
Definition split (F : list (Z * bool)) (v w : tuple) : Prop :=
  ∃ ys : list row, w = concat (snd <$> ys) ∧
    Forall2 (λ p y, (y ∈ rows p.1 ∨ y.2 = nulls (pw p.1)) ∧ (p.2 = true → y.1 = v)) F ys.

Lemma split_start v : Forall (split [] v) [[]].
Proof. apply Forall_singleton. exists []. by split. Qed.

Lemma split_app F F' v w w' : split F v w → split F' v w' → split (F ++ F') v (w ++ w').
Proof.
  intros (ys & -> & H) (ys' & -> & H'). exists (ys ++ ys'). rewrite fmap_app, concat_app. split; [done|]. by apply Forall2_app.
Qed.

Definition widths_of (F : list (Z * bool)) : nat := sum_list ((λ p, pw p.1) <$> F).

Lemma split_nulls F v : split F v (nulls (widths_of F)).
Proof.
  exists ((λ p, (v, nulls (pw p.1))) <$> F). split.
  - unfold widths_of. induction F as [|p F IH]; csimpl; [done|]. rewrite <- IH. unfold nulls. by rewrite replicate_add.
  - apply Forall2_fmap_r, Forall_Forall2_diag, Forall_forall. intros p _. cbn. auto.
Qed.

(** Rows with other values. *)
Lemma split_other F v v' w : split F v' w → split ((λ p, (p.1, false)) <$> F) v w.
Proof.
  intros (ys & -> & H). exists ys. split; [done|]. apply Forall2_fmap_l. eapply Forall2_impl; [exact H|]. by intros p y [].
Qed.

(** The rows of an operand come from the inputs [F]. *)
Definition operand_of (o : operand) (F : list (Z * bool)) : Prop :=
  o.2 = widths_of F ∧ ∀ v w, (v, w) ∈ o.1 → split F v w.

Lemma attach_split o F (b : bool) F0 v acc :
  operand_of o F → Forall (split F0 v) acc → Forall (split (F0 ++ F) v) (attach b o.2 (matching Same v o.1) acc).
Proof.
  intros [Hw Ho] Hacc. rewrite Forall_forall in Hacc. apply Forall_forall.
  intros x (u & w & -> & Hu & [Hin|[_ ->]])%attach_in; (apply split_app; [by apply Hacc|]).
  - apply list_elem_of_fmap in Hin as ([v' w'] & -> & [<- Hin]%list_elem_of_filter). by apply Ho.
  - rewrite Hw. apply split_nulls.
Qed.

Lemma same_split os Fs (b : bool) v w :
  Forall2 operand_of os Fs →
  w ∈ foldl (λ acc p, attach p.1.1 p.2.2 (matching p.1.2 v p.2.1) acc) [[]] (zip (replicate (length os) (b, Same)) os) →
  split (concat Fs) v w.
Proof.
  intros Hos. assert (∀ F0 acc, Forall (split F0 v) acc → Forall (split (F0 ++ concat Fs) v)
    (foldl (λ acc p, attach p.1.1 p.2.2 (matching p.1.2 v p.2.1) acc) acc (zip (replicate (length os) (b, Same)) os))) as H.
  { induction Hos as [|o F os Fs Ho _ IH]; intros F0 acc Hacc; cbn [length replicate zip zip_with foldl concat fst snd].
    { by rewrite app_nil_r. }
    rewrite app_assoc. apply IH. by apply attach_split. }
  intros Hw. specialize (H [] [[]] (split_start v)). rewrite Forall_forall in H. by apply H.
Qed.

Lemma set_witnesses_split op (all : bool) l r ol or_ v w Fl Fr :
  Forall2 operand_of ol Fl → Forall2 operand_of or_ Fr → concat Fl = set_kept l → concat Fr = set_kept r →
  (op = SETOP_EXCEPT → (∃ o, ol = [o]) ∧ ∃ o, or_ = [o]) →
  w ∈ set_witnesses op all (ol ++ or_) v → split (set_kept (SetOperationStmt op all l r)) v w.
Proof.
  intros Hl Hr El Er Hx. unfold set_witnesses. destruct op; cbn [set_steps set_kept].
  - rewrite <- El, <- Er, <- concat_app. apply same_split. by apply Forall2_app.
  - rewrite <- El, <- Er, <- concat_app. apply same_split. by apply Forall2_app.
  - destruct (Hx eq_refl) as [[a ->] [c ->]]. apply Forall2_cons_inv_l in Hl as (F & ? & Ha & ->%Forall2_nil_inv_l & ->).
    apply Forall2_cons_inv_l in Hr as (G & ? & Hc & ->%Forall2_nil_inv_l & ->). cbn in El, Er. rewrite app_nil_r in El, Er. subst F G.
    cbn [app zip zip_with foldl fst snd]. intros (u & w' & -> & Hu & Hw)%attach_in.
    pose proof (attach_split a (set_kept l) false [] v [[]] Ha (split_start v)) as H1. rewrite Forall_forall in H1.
    apply split_app; [by apply H1|].
    destruct Hc as [Hcw Hc]. destruct Hw as [Hw|[_ ->]].
    + assert (∃ v', (v', w') ∈ c.1) as [v' Hin].
      { apply list_elem_of_fmap in Hw as ([v' w''] & -> & Hin). exists v'. destruct all; [|done].
        by apply list_elem_of_filter in Hin as [_ Hin]. }
      by eapply split_other, Hc.
    + rewrite Hcw. apply (split_other _ v v), split_nulls.
Qed.

(** The operands of a tree of set operations. *)
Lemma operands_split tabs inputs t :
  (∀ i, i ∈ set_leaves t → default ([], 0) (rt_fetch i inputs) = (rows i, pw i)) →
  ∀ op, ∃ Fs, Forall2 operand_of (operands tabs inputs op t) Fs ∧ concat Fs = set_kept t.
Proof.
  induction t as [i|op' all l IHl r IHr]; intros Hin op; cbn [operands].
  { rewrite (Hin i) by by left. exists [[(i, true)]]. split; [|done]. constructor; [|constructor]. split; [cbn; lia|].
    intros v w Hv. exists [(v, w)]. cbn. rewrite app_nil_r. split; [done|]. constructor; [|constructor]. auto. }
  cbn [set_leaves] in Hin.
  destruct (IHl ltac:(intros i Hi; apply Hin, elem_of_app; by left) op') as (Fl & Hl & El).
  destruct (IHr ltac:(intros i Hi; apply Hin, elem_of_app; by right) op') as (Fr & Hr & Er).
  case_decide as Hop.
  - destruct Hop as [-> Hop]. exists (Fl ++ Fr). split; [by apply Forall2_app|]. rewrite concat_app, El, Er. by destruct op.
  - exists [set_kept (SetOperationStmt op' all l r)]. split; [|by rewrite concat_cons, app_nil_r].
    constructor; [|constructor]. split; cbn [fst snd].
    + assert (∀ os Fs, Forall2 operand_of os Fs → sum_list (snd <$> os) = widths_of (concat Fs)) as Hsum.
      { induction 1 as [|o F os Fs [Ho _] _ IH]; csimpl; [done|]. unfold widths_of in *. rewrite fmap_app, sum_list_with_app. lia. }
      rewrite fmap_app, sum_list_with_app, (Hsum _ _ Hl), (Hsum _ _ Hr), El, Er. unfold widths_of.
      destruct op'; cbn [set_kept]; rewrite fmap_app, sum_list_with_app; [done..|]. by rewrite <- list_fmap_compose.
    + intros v w (v' & (w' & [= -> ->] & Hw)%list_elem_of_fmap & _)%list_elem_of_bind. 
      apply (set_witnesses_split op' all l r _ _ v' w' Fl Fr Hl Hr El Er); [|exact Hw].
      intros ->. split; apply operands_except.
Qed.

End witnesses.

Lemma same_col_sound e t ch ccss ps es :
  Forall3 (λ child ccs p, sound_rel cat (e (rtindex child)).1 ccs p) ch ccss ps →
  Forall2 (linked (λ i x, same_col x ∧ (e i : row).1 = t)) ch es →
  Forall2 (sound_rel cat t) (zip_with (λ rel ccs, zip_with certain_columns (attrEntries rel) ccs) es ccss) ps.
Proof.
  apply linked_sound. intros i x cc [HS <-] (c & Hc%list_elem_of_In & Hcert)%existsb_exists.
  unfold same_col in HS. rewrite Forall_forall in HS. destruct (HS c Hc) as (inner & E & HI).
  destruct (certain_inner cc c inner E Hcert) as (c' & v & Hc' & _ & Ev & Hv). rewrite Forall_forall in HI.
  destruct (HI c' Hc') as (v' & -> & <-). injection Ev as ->. by exists (varattno v).
Qed.

Lemma all_contribute i rtes :
  Forall (λ r, contributes r = true) rtes → contrib_from i rtes = seqZ i (Z.of_nat (length rtes)).
Proof.
  intros H. revert i. induction H as [|r rtes Hr _ IH]; intros i; [done|]. cbn [contrib_from]. rewrite Hr. cbn [length app].
  rewrite IH, (seqZ_cons i) by lia. f_equal. f_equal; lia.
Qed.

Lemma rt_fetch_nth {A} (l : list A) (k : nat) : rt_fetch (1 + Z.of_nat k) l = l !! k.
Proof. unfold rt_fetch. rewrite decide_True by lia. f_equal. lia. Qed.

(** A row of a set operation is made of rows of the inputs. *)
Lemma set_row db q T t w :
  set_query cat q T → (t, w) ∈ evalProv op_sem cat db q →
  split (λ i, default [] (rt_fetch i (map (evalProvRTE op_sem cat db) (rtable q))))
    (λ i, default 0 (rt_fetch i (map (rte_prov_width cat) (rtable q)))) (set_kept T) t w.
Proof.
  intros Hs Hx. rewrite evalProv_unfold in Hx. unfold body_prov in Hx. rewrite (set_tree _ _ _ Hs) in Hx.
  destruct (set_stmt _ _ _ Hs) as (op & all & l & r & ->).
  apply list_elem_of_bind in Hx as (v & (w' & [= -> ->] & Hw)%list_elem_of_fmap & _).
  set (inputs := zip _ _) in Hw. set (rows := λ i, default [] _). set (pw := λ i, default 0 _).
  assert (∀ i, i ∈ set_leaves (SetOperationStmt op all l r) → default ([], 0) (rt_fetch i inputs) = (rows i, pw i)) as Hin.
  { intros i Hi. rewrite (set_indexes _ _ _ Hs), elem_of_seqZ in Hi. unfold inputs, rows, pw, rt_fetch. rewrite !decide_True by lia.
    destruct (lookup_lt_is_Some_2 (rtable q) (Z.to_nat (i - 1))) as [rte Hr]; [lia|].
    rewrite lookup_zip_with, !list_lookup_fmap, Hr. done. }
  cbn [set_leaves] in Hin.
  destruct (operands_split rows pw (map (evalRTE op_sem cat db) (rtable q)) inputs l ltac:(intros i Hi; apply Hin, elem_of_app; by left) op) as (Fl & Hl & El).
  destruct (operands_split rows pw (map (evalRTE op_sem cat db) (rtable q)) inputs r ltac:(intros i Hi; apply Hin, elem_of_app; by right) op) as (Fr & Hr & Er).
  apply (set_witnesses_split rows pw op all l r _ _ v w' Fl Fr Hl Hr El Er); [|exact Hw]. intros ->. split; apply operands_except.
Qed.

Lemma set_sound db q T inputs i t w :
  (∀ i t, t ∈ db i → length t = length (rd_att cat i)) →
  set_query cat q T → inputs_sound op_sem cat 0 (rtable q) inputs → (t, w) ∈ evalProv op_sem cat db q →
  Forall2 (sound_rel cat t) (certain (QueryMap i (handleSetOp T (children inputs) (link_entries inputs 0)) inputs))
    (cut cat (accesses q) w).
Proof.
  intros Hdb Hs Hin (ys & -> & Hys)%(set_row db q T t w Hs). rewrite certain_query.
  replace (accesses q) with (concat (map rte_accesses (rtable q))) by by destruct q.
  pose proof (set_kept_leaves T) as HF. rewrite (set_indexes _ _ _ Hs) in HF.
  assert (length (set_kept T) = length (rtable q)) as HlenF by (rewrite <- (length_fmap fst), HF, length_seqZ; lia).
  pose proof (Forall2_length _ _ _ Hys) as Hlen. set (e := λ i, default ([], []) (rt_fetch i ys) : row).
  assert (∀ k p y, set_kept T !! k = Some p → ys !! k = Some y → p.1 = (1 + Z.of_nat k)%Z ∧ e (1 + Z.of_nat k)%Z = y) as He.
  { intros k p y Hp Hy. split; [|unfold e; by rewrite rt_fetch_nth, Hy]. apply (f_equal (λ l, l !! k)) in HF.
    rewrite list_lookup_fmap, Hp in HF. symmetry in HF. by apply lookup_seqZ in HF as [-> _]. }
  assert (concat (snd <$> ys) = concat ((λ j, (e j).2) <$> contrib_from 1 (rtable q))) as ->.
  { rewrite all_contribute.
    2:{ eapply Forall_impl; [apply (set_inputs _ _ _ Hs)|]. intros r Hr. unfold set_input_ok in Hr. checks. unfold contributes.
        apply negb_true_iff, bool_decide_eq_false. congruence. }
    f_equal. apply list_eq. intros k. rewrite !list_lookup_fmap. destruct (ys !! k) as [y|] eqn:Ey.
    - rewrite (proj2 (lookup_seqZ 1 _ k (1 + Z.of_nat k))) by (apply lookup_lt_Some in Ey; lia). cbn. unfold e. by rewrite rt_fetch_nth, Ey.
    - rewrite lookup_seqZ_ge; [done|]. apply lookup_ge_None in Ey. lia. }
  eapply (same_col_sound e).
  - apply (inputs_rows op_sem cat db 0 (rtable q) inputs e Hdb (set_rtes _ _ _ Hs) Hin). intros k r Hk _.
    destruct (lookup_lt_is_Some_2 (set_kept T) k) as [p Hp]; [apply lookup_lt_Some in Hk; lia|].
    destruct (Forall2_lookup_l _ _ _ _ _ Hys Hp) as (y & Hy & [Hrow _]). destruct (He k p y Hp Hy) as [E1 E2].
    cbn [Z.add]. replace (0 + 1 + Z.of_nat k)%Z with (1 + Z.of_nat k)%Z by lia. rewrite E2. rewrite E1, !rt_fetch_map, rt_fetch_nth, Hk in Hrow. done.
  - eapply Forall2_impl; [apply (handleSetOp_linked T _ _ (λ _, False)); by eapply link_linked|].
    intros child rel. apply linked_mono. intros j x [Hx [[]|Hj]]. split; [done|].
    apply list_elem_of_lookup in Hj as (k & Hp). destruct (Forall2_lookup_l _ _ _ _ _ Hys Hp) as (y & Hy & [_ Hv]).
    destruct (He k _ y Hp Hy) as [E1 E2]. cbn in E1. rewrite E1, E2. by apply Hv.
Qed.

(** ** Whole queries *)

Section tree.
Context (contr : ContributionType) (eq_sound : equality_sound op_sem cat get_opcode).

(** The map [m] of a query: its entries are for the relations the query reads, and it is sound. *)
Definition query_map (q : Query) (m : CopyMap) : Prop :=
  Forall2 (rel_shape cat) (accesses q) (entries m) ∧
  map_sound cat (accesses q) (λ db, evalProv op_sem cat db q) (certain m).

Fixpoint input_maps (rtes : list RangeTblEntry) (i : Z) : W (list (option CopyMap)) :=
  match rtes with
  | [] => ret []
  | rte :: rtes => m ← input_map cat get_opcode contr rte (i + 1); rest ← input_maps rtes (i + 1)%Z; ret (m :: rest)
  end.

Lemma generate_unfold q i :
  generateCopyMapForQueryNode cat get_opcode contr q i =
    (inputs ← input_maps (rtable q) 0;
     match setOperations q with
     | Some setOp => ret (QueryMap i (handleSetOp setOp (children inputs) (link_entries inputs 0)) inputs)
     | None =>
         es ← handleJoins cat get_opcode q contr (children inputs) (link_entries inputs 0);
         es ← (if hasAggs q then generateAggCopyMap q i es else handleProjectionCopyMap q i es);
         ret (QueryMap i es inputs)
     end).
Proof. by destruct q. Qed.

Lemma input_maps_sound rtes i st inputs st' :
  Forall (λ r, ∀ i st om st', input_map cat get_opcode contr r i st = Ok (om, st') → input_sound op_sem cat i r om) rtes →
  input_maps rtes i st = Ok (inputs, st') → inputs_sound op_sem cat i rtes inputs.
Proof.
  intros H. revert i st inputs. induction H as [|r rtes Hr _ IH]; intros i st inputs; cbn [input_maps]; [by intros [= <- _]|].
  intros (m & s1 & E1 & (rest & s2 & E2 & [= <- <-])%bind_inv)%bind_inv. split; [by eapply Hr|by eapply IH].
Qed.

Lemma inputs_length i rtes inputs :
  inputs_sound op_sem cat i rtes inputs → length (inputs ≫= mcertain) = length (concat (map rte_accesses rtes)).
Proof.
  revert i inputs. induction rtes as [|r rtes IH]; intros i [|om inputs]; try done.
  intros [(_ & _ & Hl & _) H]. csimpl. cbn [map concat]. rewrite !length_app, Hl. f_equal. by eapply IH.
Qed.

(** The shape of a map whose entries are linked to those of the inputs. *)
Lemma linked_map Q q i inputs es :
  inputs_sound op_sem cat 0 (rtable q) inputs → Forall2 (linked Q) (children inputs) es →
  Forall2 (rel_shape cat) (accesses q) es ∧ length (certain (QueryMap i es inputs)) = length (accesses q).
Proof.
  intros Hin Hes. replace (accesses q) with (concat (map rte_accesses (rtable q))) by by destruct q.
  pose proof (linked_shape cat Q _ _ es (children_shape op_sem cat 0 _ _ Hin) Hes) as Hs. split; [done|].
  rewrite certain_query, length_zip_with, (inputs_length _ _ _ Hin), <- (Forall2_length _ _ _ Hs). lia.
Qed.

Lemma map_targets_shape q i tes ch es st es' st' :
  mapChildVarsToTargetEntries q i tes es st = Ok (es', st') → Forall2 (linked (λ _ _, True)) ch es →
  Forall2 (linked (λ _ _, True)) ch es'.
Proof.
  intros (sv & s1 & _ & [= <- <-])%bind_inv H. apply Forall2_fmap_r. eapply Forall2_impl; [exact H|].
  intros child rel (Hr & Hi & Ha). split; [done|]. split; [done|]. cbn [attrEntries set_attrEntries]. apply Forall2_fmap_r.
  eapply Forall2_impl; [exact Ha|]. intros ca a [Hb _]. split; [done|]. by apply Forall_forall.
Qed.

Lemma node_map q i st m st' inputs :
  query_ok cat q = true → hidden_last (targetList q) = true → inputs_sound op_sem cat 0 (rtable q) inputs →
  match setOperations q with
  | Some setOp => ret (QueryMap i (handleSetOp setOp (children inputs) (link_entries inputs 0)) inputs)
  | None =>
      es ← handleJoins cat get_opcode q contr (children inputs) (link_entries inputs 0);
      es ← (if hasAggs q then generateAggCopyMap q i es else handleProjectionCopyMap q i es);
      ret (QueryMap i es inputs)
  end st = Ok (m, st') → query_map q m.
Proof using eq_sound.
  intros Hok Hh Hin E. pose proof (query_ok_spec _ _ Hok) as [_ Hs].
  assert (from_ok cat q → setOperations q = None → ∀ tes es s1 es' s2,
    handleJoins cat get_opcode q contr (children inputs) (link_entries inputs 0) st = Ok (es, s1) →
    mapChildVarsToTargetEntries q i tes es s1 = Ok (es', s2) →
    Forall2 (rel_shape cat) (accesses q) es' ∧ length (certain (QueryMap i es' inputs)) = length (accesses q)) as Hshape.
  { intros Hq _ tes es s1 es' s2 E1 E2. apply (linked_map (λ _ _, True)); [done|]. eapply map_targets_shape; [exact E2|].
    by eapply handleJoins_shape. }
  destruct Hs as [Hs|[Hs|[T Hs]]].
  - rewrite (spj_setops _ _ Hs) in E. assert (hasAggs q = false) as Ha.
    { pose proof (spj_grouped _ _ Hs) as Hg. unfold grouped in Hg. by destruct (hasAggs q). }
    rewrite Ha in E. apply bind_inv in E as (es & s1 & E1 & (es' & s2 & E2 & [= <- <-])%bind_inv).
    destruct (Hshape (spj_from _ _ Hs) (spj_setops _ _ Hs) _ _ _ _ _ E1 E2) as [H1 H2]. split; [done|]. split; [done|].
    intros db Hdb t w Hx. eapply spj_sound; [exact Hdb|exact eq_sound|apply Hs|exact Hs|exact Hin|exact E1|exact E2|exact Hx].
  - rewrite (agg_setops _ _ Hs), (agg_aggs _ _ Hs) in E. apply bind_inv in E as (es & s1 & E1 & (es' & s2 & E2 & [= <- <-])%bind_inv).
    destruct (Hshape (agg_from _ _ Hs) (agg_setops _ _ Hs) _ _ _ _ _ E1 E2) as [H1 H2]. split; [done|]. split; [done|].
    intros db Hdb t w Hx. eapply agg_sound; [exact Hdb|exact eq_sound|apply Hs|exact Hs|exact Hh|exact Hok|exact Hin|exact H2|exact E1|exact E2|exact Hx].
  - rewrite (set_tree _ _ _ Hs) in E. injection E as <- <-.
    destruct (linked_map (λ i x, same_col x ∧ (False ∨ (i, true) ∈ set_kept T)) q i inputs
      (handleSetOp T (children inputs) (link_entries inputs 0)) Hin) as [H1 H2].
    { apply (handleSetOp_linked T _ _ (λ _, False)). by eapply link_linked. }
    split; [done|]. split; [done|]. intros db Hdb t w. by apply set_sound.
Qed.

Lemma setCopyMapRTindices_spec rels rows m i :
  Forall2 (rel_shape cat) rels (entries m) ∧ map_sound cat rels rows (certain m) →
  Forall2 (rel_shape cat) rels (entries (setCopyMapRTindices m i)) ∧
  Forall (λ rel, rtindex rel = i) (entries (setCopyMapRTindices m i)) ∧
  map_sound cat rels rows (certain (setCopyMapRTindices m i)).
Proof.
  intros [H1 H2]. destruct m as [rel|k es inputs]; cbn [setCopyMapRTindices entries] in *.
  - apply Forall2_cons_inv_r in H1 as (r & ? & Hr & ->%Forall2_nil_inv_r & ->). split; [apply Forall2_cons; by split|].
    split; [by apply Forall_singleton|exact H2].
  - split; [by apply Forall2_fmap_r|]. split; [by apply Forall_fmap, Forall_forall|].
    rewrite certain_query in *. by rewrite zip_with_fmap_l.
Qed.

Lemma generate_sound q :
  query_ok cat q = true → junk_last q = true → ∀ i st m st',
  generateCopyMapForQueryNode cat get_opcode contr q i st = Ok (m, st') → query_map q m.
Proof using eq_sound.
  revert q. apply (Query_tree_ind
    (λ q, query_ok cat q = true → junk_last q = true → ∀ i st m st',
      generateCopyMapForQueryNode cat get_opcode contr q i st = Ok (m, st') → query_map q m)
    (λ r, rte_ok cat r = true → junk_last_rte r = true → ∀ i st om st',
      input_map cat get_opcode contr r i st = Ok (om, st') → input_sound op_sem cat i r om)).
  - intros ct ha hs rt IH fl qs tl gc hv dc sc lo lc so pr sr Hok Hj i st m st'.
    set (q := mkQuery ct ha hs rt fl qs tl gc hv dc sc lo lc so pr sr) in *. rewrite generate_unfold.
    assert (hidden_last (targetList q) = true ∧ Forall (λ r, junk_last_rte r = true) (rtable q)) as [Hh Hjr].
    { unfold q in *. cbn [junk_last] in Hj. by checks. }
    intros (inputs & s1 & E1 & E2)%bind_inv. apply list_all_Forall in IH. eapply node_map; [done..| |exact E2].
    eapply input_maps_sound; [|exact E1]. pose proof (query_ok_spec _ _ Hok) as [Hrt _].
    rewrite Forall_forall in IH, Hrt, Hjr |- *. intros r Hr. exact (IH r Hr (Hrt r Hr) (Hjr r Hr)).
  - intros k rel sub IH ft vt jt av al er pb pa Hr Hj i st om st' E.
    pose proof (rte_ok_spec cat _ Hr) as (_ & _ & _ & _ & [(Hk & _)|[(Hk & s & Hs & Hsp)|Hk]]);
      cbn [rtekind subquery] in *; subst; cbn [input_map rtekind subquery] in E.
    + apply bind_inv in E as (m & s1 & E & [= <- <-]).
      pose proof (base_map_sound cat _ _ _ _ _ Hr eq_refl E) as Hm.
      destruct (base_map_spec cat _ _ _ _ _ Hr eq_refl E) as (rl & -> & Hi & Hsh & _).
      split; [apply Forall2_cons; by split|]. split; [by apply Forall_singleton|exact Hm].
    + apply option_all_Some in IH. apply bind_inv in E as (m & s1 & E & [= <- <-]).
      apply (setCopyMapRTindices_spec (accesses s) (λ db, evalProv op_sem cat db s)). by eapply IH.
    + injection E as <- <-. split; [constructor|]. split; [constructor|]. split; [done|]. intros db _ t w ?%elem_of_nil. done.
Qed.

End tree.

End query.

End CopyQuery.
