(* ===== verification/CopyExact.v ===== *)
(** * Copy maps without transitivity

    Without equality conditions the maps are generated for every well-formed query, every inclusion always holds, and the static
    analysis decides for every base relation whether its tuples contribute. *)

From Stdlib Require Import ZArith Lia.
From stdpp Require Import base strings numbers list sets gmap.
From S2P Require Import Prelude ProvStack AttrName AttrNameProps QueryTree SqlSemantics SqlFacts Queries RewriteSPJ RewriteAggr.
From S2P Require Import RewriteFacts RewriteJoins RewriteMain NodeFacts AggrFacts ProvReplay CopyMap CopyGraph CopyFacts CopySound CopyQuery.
Import QueryTree SqlSemantics SqlFacts Queries RewriteSPJ RewriteAggr RewriteFacts RewriteJoins RewriteMain.
Import AggrFacts NodeFacts ProvReplay CopyMap CopyGraph CopyFacts CopySound CopyQuery.

Module CopyExact.

(** The columns of the inclusions of an attribute. *)
Definition columns (a : CopyMapEntry) : list Z := (λ i, varattno (incl_attr i)) <$> outAttrIncls a.

(** ** Inclusions without equalities *)

(** An inclusion because the attribute is included in a column of the input. *)
Definition base_incl (ca : CopyMapEntry) (x : AttrInclusions) : Prop :=
  ∃ v, inclConds x = [MAKE_EXISTS_INCL (inl v)] ∧ varattno v ∈ columns ca.

(** An inclusion because of such inclusions. *)
Definition plain_incl (ca : CopyMapEntry) (x : AttrInclusions) : Prop :=
  inclConds x ≠ [] ∧ Forall (λ c, ∃ inner, c = MAKE_EXISTS_INCL (inr inner) ∧ base_incl ca inner) (inclConds x).

(** An entry for the attributes of [child], with inclusions that satisfy [Q] and without a decision. *)
Definition made_from (Q : CopyMapEntry → AttrInclusions → Prop) (child rel : CopyMapRelEntry) : Prop :=
  isStatic rel = false ∧ noRewrite rel = false ∧
  Forall2 (λ ca a, baseRelAttr a = baseRelAttr ca ∧ Forall (Q ca) (outAttrIncls a)) (attrEntries child) (attrEntries rel).

Lemma link_made Q inputs i : Forall2 (made_from Q) (children inputs) (link_entries inputs i).
Proof.
  rewrite children_mentries. revert i. induction inputs as [|om inputs IH]; intros i; csimpl; [done|]. apply Forall2_app; [|done].
  change (match om with Some m => entries m | None => [] end) with (mentries om). apply Forall2_fmap_r, Forall_Forall2_diag, Forall_forall.
  intros child _. split; [done|]. split; [done|]. cbn [attrEntries set_rtindex COPY_BASIC_COPYREL].
  apply Forall2_fmap_r, Forall_Forall2_diag, Forall_forall. by intros a _.
Qed.

(** Updating the attributes of some entries. *)
Lemma update_made (Q Q' : CopyMapEntry → AttrInclusions → Prop) p f es ch :
  (∀ ca x, Q ca x → Q' ca x) → (∀ rel a ca, baseRelAttr (f rel a ca) = baseRelAttr a) →
  (∀ rel a ca, Forall (Q ca) (outAttrIncls a) → Forall (Q' ca) (outAttrIncls (f rel a ca))) →
  Forall2 (made_from Q) ch es → Forall2 (made_from Q') ch (update_rels p f es ch).
Proof.
  intros HQ Hb Hf. unfold update_rels. apply forboth_Forall2. intros child rel (H1 & H2 & Ha). destruct (p rel child).
  - split; [done|]. split; [done|]. cbn [attrEntries set_attrEntries]. eapply forboth_Forall2; [|exact Ha].
    intros ca a [Hba HF]. rewrite Hb. auto.
  - split; [done|]. split; [done|]. eapply Forall2_impl; [exact Ha|]. intros ca a [Hba HF]. split; [done|].
    eapply Forall_impl; [exact HF|]. auto.
Qed.

Lemma joined_made L es ch : Forall2 (made_from base_incl) ch es → Forall2 (made_from base_incl) ch (joined L es ch).
Proof.
  apply update_made; [done..|]. intros rel a ca HF. cbn [outAttrIncls join_incls set_outAttrIncls]. apply Forall_app.
  split; [done|]. apply Forall_fmap, Forall_forall. intros ci Hci. eexists. split; [done|]. by apply (list_elem_of_fmap_2 (λ i, varattno (incl_attr i))).
Qed.

Lemma setop_made t es ch : Forall2 (made_from plain_incl) ch es → Forall2 (made_from plain_incl) ch (handleSetOp t ch es).
Proof.
  revert es. induction t as [i|op all l IHl r IHr]; intros es Hes.
  - cbn [handleSetOp]. revert Hes. apply update_made; [done..|]. intros rel a ca HF.
    cbn [outAttrIncls set_incls set_outAttrIncls]. apply Forall_app. split; [done|]. apply Forall_fmap, Forall_forall.
    intros ci Hci. split; [done|]. apply Forall_singleton. eexists. split; [done|]. eexists. split; [done|].
    by apply (list_elem_of_fmap_2 (λ i, varattno (incl_attr i))).
  - destruct op; cbn [handleSetOp]; auto.
Qed.

Lemma add_projection_plain ca var incl l :
  base_incl ca incl → Forall (plain_incl ca) l → Forall (plain_incl ca) (add_projection var (MAKE_EXISTS_INCL (inr incl)) l).
Proof.
  intros Hi. induction 1 as [|x l [Hne Hx] Hl IH]; cbn [add_projection].
  { apply Forall_singleton. split; [done|]. apply Forall_singleton. by exists incl. }
  case_decide; [|by constructor]. constructor; [|done]. split; [by destruct (inclConds x)|]. apply Forall_app. split; [done|].
  apply Forall_singleton. by exists incl.
Qed.

Lemma project_plain ca i sv incl acc :
  base_incl ca incl → Forall (plain_incl ca) acc → Forall (plain_incl ca) (project_incl i sv incl acc).
Proof.
  intros Hi. revert acc. induction sv as [|[[[v|] ci] pos] sv IH]; intros acc Hacc; cbn [project_incl]; [done|..]; [|by apply IH].
  apply IH. case_decide; [|done]. by apply add_projection_plain.
Qed.

Lemma map_targets_made q i tes ch es st es' st' :
  Forall (λ te, plain_expr (expr te) = true) tes → mapChildVarsToTargetEntries q i tes es st = Ok (es', st') → Forall2 (made_from base_incl) ch es →
  Forall2 (made_from plain_incl) ch es'.
Proof.
  intros Hp (sv & s1 & E & [= <- <-])%bind_inv H. apply (simple_vars_plain _ _ _ _ _ Hp) in E. apply Forall2_fmap_r. eapply Forall2_impl; [exact H|].
  intros child rel (H1 & H2 & Ha). split; [done|]. split; [done|]. cbn [attrEntries set_attrEntries]. apply Forall2_fmap_r.
  eapply Forall2_impl; [exact Ha|]. intros ca a [Hb HF]. split; [done|]. cbn [outAttrIncls set_outAttrIncls].
  assert (∀ acc, Forall (plain_incl ca) acc → Forall (plain_incl ca) 
    (foldl (λ acc incl, project_cases i sv incl (project_incl i sv incl acc)) acc (outAttrIncls a))) as Hfold; [|by apply Hfold].
  induction HF as [|incl l Hi _ IH]; intros acc Hacc; cbn [foldl]; [done|]. rewrite (project_cases_none _ _ _ _ E).
  by apply IH, project_plain.
Qed.

(** ** Plain maps *)

Definition numbers (rel : CopyMapRelEntry) : list Z := (λ a, varattno (baseRelAttr a)) <$> attrEntries rel.

(** Only inclusions without equalities, here and below. *)
Fixpoint plain_map (m : CopyMap) : Prop :=
  match m with
  | BaseMap rel =>
      isStatic rel = true ∧ noRewrite rel = false ∧ NoDup (numbers rel) ∧
      Forall (λ a, outAttrIncls a ≠ [] ∧ isStaticTrue a = true ∧ isStaticFalse a = false ∧
                   Forall (λ x, incl_static x = true) (outAttrIncls a)) (attrEntries rel)
  | QueryMap _ es inputs =>
      Forall2 (made_from plain_incl) (children inputs) es ∧
      (fix all (l : list (option CopyMap)) : Prop :=
         match l with [] => True | None :: l => all l | Some m :: l => plain_map m ∧ all l end) inputs
  end.

Definition plain_opt (om : option CopyMap) : Prop := match om with Some m => plain_map m | None => True end.

Lemma plain_query i es inputs :
  plain_map (QueryMap i es inputs) ↔ Forall2 (made_from plain_incl) (children inputs) es ∧ Forall plain_opt inputs.
Proof.
  cbn [plain_map]. apply and_iff_compat_l. induction inputs as [|[m|] l IH]; [done|..]; rewrite Forall_cons, IH; [done|].
  cbn. tauto.
Qed.

Lemma plain_rtindex m i : plain_map m → plain_map (setCopyMapRTindices m i).
Proof.
  destruct m as [rel|k es inputs]; [done|]. cbn [setCopyMapRTindices]. rewrite !plain_query. intros [H1 H2]. split; [|done].
  apply Forall2_fmap_r. eapply Forall2_impl; [exact H1|]. done.
Qed.

Section generation.
Context (cat : syscache) (get_opcode : Z → Z) (contr : ContributionType) (nontrans : IS_TRANSC contr = false).

Lemma base_attrs_ok r vars ns st schema rel :
  rtekind r = RTE_RELATION → AttrName.get_rel_schema cat (relid r) = Some schema →
  AttrName.get_rel_name cat (relid r) = Some rel → ∃ l st', base_attrs cat r vars ns st = Ok (l, st').
Proof.
  intros Hk Hs Hn. revert ns st. induction vars as [|v vars IH]; intros [|name ns] st; cbn [base_attrs]; try by eexists _, _.
  destruct (AttrNameProps.createProvAttrName_ok cat (attr_rte r) (relid r) name schema rel (refs st))
    as (n & l & _ & E); [unfold attr_rte; by rewrite Hk|done..|].
  hrun (with_refs_ok _ _ _ _ E). destruct (IH ns (mkRw (pStack st) (baseRelStackActive st) (baseRelStack st)
    (AttrName.mkCounters l (AttrName.queryRefCount (refs st))) (gens st))) as (rest & st' & E'). hrun E'. by eexists _, _.
Qed.

Lemma base_map_ok r i st :
  rte_ok cat r = true → rtekind r = RTE_RELATION →
  ∃ m st', generateBaseRelCopyMap cat r i st = Ok (m, st') ∧ plain_map m.
Proof.
  intros Hr Hk. pose proof (rte_ok_spec cat r Hr) as (Hb & _ & _ & _ & [H|[(Hk' & _)|Hk']]); [|congruence..].
  destruct H as (_ & [schema Hs] & [rel Hn] & Hd & Hc).
  assert (∃ m st', generateBaseRelCopyMap cat r i st = Ok (m, st')) as (m & st' & E).
  { unfold generateBaseRelCopyMap, expandRTEWithParam. rewrite Hk.
    assert (∃ n st', with_refs (AttrName.getRelationRefNum (relid r) true) st = Ok (n, st')) as (n & s1 & E1).
    { unfold with_refs, AttrName.getRelationRefNum. destruct (AttrName.ref_num _ _ _). by eexists _, _. }
    hrun E1. destruct (expandTupleDesc_ok (rd_att cat (relid r)) 0 (eref r) i s1 Hd Hc) as (ns & vs & E & _). hrun E.
    destruct (base_attrs_ok r vs ns s1 schema rel Hk Hs Hn) as (l & s2 & E2). hrun E2. by eexists _, _. }
  exists m, st'. split; [done|]. pose proof E as E'.
  destruct (base_map_spec cat r i st m st' Hr Hk E) as (rl & -> & _ & [_ Hnum] & Hall).
  unfold generateBaseRelCopyMap in E'. apply bind_inv in E' as (n & s1 & _ & ([ns vs] & s2 & _ & (l & s3 & _ & [= <- <-])%bind_inv)%bind_inv).
  split; [done|]. split; [done|]. split; [unfold numbers; rewrite Hnum; apply NoDup_seqZ|].
  eapply Forall_impl; [exact Hall|]. intros a (-> & H1 & H2). by repeat constructor.
Qed.

(** ** Joins *)

Lemma walker_found n i : i ∈ ids n → ∃ m, getJoinTreeNodeWalker n i = Some m.
Proof.
  induction n as [j|jt l IHl r IHr c J]; cbn [ids getJoinTreeNodeWalker].
  - intros ->%list_elem_of_singleton. rewrite decide_True by done. by eexists.
  - case_decide as HJ; [by eexists|]. rewrite !elem_of_app, list_elem_of_singleton. intros [Hi|[Hi|Hi]]; [| |congruence].
    + destruct (IHl Hi) as [m ->]. by eexists.
    + destruct (getJoinTreeNodeWalker l i); [by eexists|]. by apply IHr.
Qed.

Lemma tree_node_found ns n i : n ∈ ns → i ∈ ids n → ∃ m, getJoinTreeNode ns i = Some m.
Proof.
  intros Hn Hi. induction ns as [|x ns IH]; [by apply elem_of_nil in Hn|]. cbn [getJoinTreeNode].
  destruct (getJoinTreeNodeWalker x i) eqn:E; [by eexists|]. apply elem_of_cons in Hn as [->|Hn]; [|by apply IH].
  destruct (walker_found x i Hi) as [m Hm]. congruence.
Qed.

Lemma copy_rels_ok q root i st :
  is_Some (kind_at q i) → root ∈ fromlist q → i ∈ ids root → ∃ rels, getCopyRelsForRtindex q i st = Ok (rels, st).
Proof.
  unfold kind_at, getCopyRelsForRtindex. intros [k Hk] Hr Hi. destruct (rt_fetch i (rtable q)) as [rte|]; [|done].
  rewrite bind_deref. case_decide; [|by eexists]. destruct (tree_node_found _ _ _ Hr Hi) as [m ->]. rewrite bind_deref. by eexists.
Qed.

Lemma handle_item_runs q ch n root es g st :
  node_ok cat q n = true → root ∈ fromlist q → ids n ⊆ ids root →
  ∃ es', handleJoinTreeItem cat get_opcode q contr ch n es g st = Ok ((es', g), st).
Proof using nontrans.
  intros Hn Hr. revert es. induction n as [i|jt l IHl r IHr c J]; intros es Hsub; cbn [handleJoinTreeItem node_ok ids] in *.
  - apply bool_decide_eq_true_1 in Hn. destruct (copy_rels_ok q root i st) as [rels E]; [|done|set_solver|hrun E; by eexists].
    destruct Hn as [-> | ->]; by eexists.
  - repeat rewrite andb_true_iff in Hn. destruct Hn as ((((Kl & Kr) & HJ%bool_decide_eq_true_1) & _) & _).
    destruct (IHl Kl es ltac:(set_solver)) as [es1 E1]. hrun E1. destruct (IHr Kr es1 ltac:(set_solver)) as [es2 E2]. hrun E2.
    destruct (copy_rels_ok q root J st) as [rels E]; [rewrite HJ; by eexists|done|set_solver|]. hrun E. rewrite nontrans. by eexists.
Qed.

Lemma handle_items_run q ch ns es g st :
  Forall (λ n, node_ok cat q n = true) ns → ns ⊆ fromlist q →
  ∃ es', handle_items cat get_opcode q contr ch ns es g st = Ok ((es', g), st).
Proof using nontrans.
  intros Hn. revert es. induction Hn as [|n ns Hn _ IH]; intros es Hsub; cbn [handle_items]; [by eexists|].
  destruct (handle_item_runs q ch n n es g st Hn) as [es1 E1]; [set_solver|done|]. hrun E1. apply IH. set_solver.
Qed.

(** Without equalities nothing is added. *)
Lemma no_equalities rels st : addCondForEquiGraph [] rels st = Ok (rels, st).
Proof.
  unfold addCondForEquiGraph. change (sort_graph []) with ([] : list EquiGraphNode). cbn [length seq static_paths]. cbv zeta. rewrite bind_ret.
  assert (∀ hs l, new_incls [] hs l st = Ok ([], st)) as Hnew.
  { intros hs l. induction l as [|x l IH]; [done|]. cbn [new_incls getNodePos]. rewrite bind_ret. by hrun IH. }
  induction rels as [|r rels IH]; [done|]. cbn [map_rels].
  assert (∀ l, map_attrs (λ attr, new ← new_incls [] ∅ (outAttrIncls attr);
    ret (set_outAttrIncls (outAttrIncls attr ++ new) attr)) l st = Ok (l, st)) as Hattrs.
  { induction l as [|a l IHl]; [done|]. cbn [map_attrs]. rewrite bind_assoc. hrun (Hnew ∅ (outAttrIncls a)).
    rewrite bind_ret. hrun IHl. rewrite app_nil_r. by destruct a. }
  hrun (Hattrs (attrEntries r)). hrun IH. by destruct r.
Qed.

Lemma handleJoins_made q inputs st :
  from_ok cat q →
  ∃ es, handleJoins cat get_opcode q contr (children inputs) (link_entries inputs 0) st = Ok (es, st) ∧
    Forall2 (made_from base_incl) (children inputs) es.
Proof using nontrans.
  intros Hq. destruct (handle_items_run q (children inputs) (fromlist q) (link_entries inputs 0) [] st (fo_nodes _ _ Hq)) as [es E]; [done|].
  destruct (handle_items_ok cat get_opcode q contr (children inputs) (λ _, ([], [])) _ _ _ _ _ _ _ (fo_nodes _ _ Hq) (fo_scope _ _ Hq) E)
    as [Hes _].
  exists es. unfold handleJoins. hrun E. rewrite nontrans, bind_ret. split; [apply no_equalities|]. rewrite Hes. apply joined_made, link_made.
Qed.

(** ** Target lists *)

Lemma simple_vars_run q tes st :
  from_ok cat q → Forall (column_ok cat q) tes →
  ∃ sv, simple_vars q tes st = Ok (sv, st).
Proof.
  intros Hq. induction 1 as [|te tes [Hp Hte] _ [sv E]]; cbn [simple_vars]; [by eexists|]. destruct (resjunk te); [by eexists|].
  assert (∃ ov, match getVarFromTeIfSimple (expr te) with
              | Some var => var ← resolveToRteVar var q; ret (Some var)
              | None => ret None
              end st = Ok (ov, st)) as [ov Eo].
  { destruct (getVarFromTeIfSimple (expr te)) as [u|] eqn:Eu; [|by eexists]. apply (plain_var _ _ Hp) in Eu. rewrite Eu in Hte.
    destruct (resolveToRteVar_ok (mkOps (λ _ _, None) (λ _ _, None) (λ _ _, None)) cat q u st Hq (Hte u eq_refl)) as (v & Ev & _). hrun Ev. by eexists. }
  hrun Eo. hrun (case_info_plain q _ st Hp). hrun E. by eexists.
Qed.

Lemma map_targets_run q i tes es st :
  from_ok cat q → Forall (column_ok cat q) tes →
  ∃ es', mapChildVarsToTargetEntries q i tes es st = Ok (es', st).
Proof. intros Hq Ht. unfold mapChildVarsToTargetEntries. destruct (simple_vars_run q tes st Hq Ht) as [sv E]. hrun E. by eexists. Qed.

(** ** Whole queries *)

Lemma node_plain q i st inputs :
  query_ok cat q = true →
  ∃ es, match setOperations q with
        | Some setOp => ret (QueryMap i (handleSetOp setOp (children inputs) (link_entries inputs 0)) inputs)
        | None =>
            es ← handleJoins cat get_opcode q contr (children inputs) (link_entries inputs 0);
            es ← (if hasAggs q then generateAggCopyMap q i es else handleProjectionCopyMap q i es);
            ret (QueryMap i es inputs)
        end st = Ok (QueryMap i es inputs, st) ∧ Forall2 (made_from plain_incl) (children inputs) es.
Proof using nontrans.
  intros Hok. pose proof (query_ok_spec _ _ Hok) as [_ Hs].
  assert (from_ok cat q → setOperations q = None → ∀ tes, Forall (column_ok cat q) tes →
    ∃ es es', handleJoins cat get_opcode q contr (children inputs) (link_entries inputs 0) st = Ok (es, st) ∧
      mapChildVarsToTargetEntries q i tes es st = Ok (es', st) ∧ Forall2 (made_from plain_incl) (children inputs) es') as Hsel.
  { intros Hq _ tes Ht. destruct (handleJoins_made q inputs st Hq) as (es & E & Hes).
    destruct (map_targets_run q i tes es st Hq Ht) as [es' E']. exists es, es'. split; [done|]. split; [done|].
    eapply map_targets_made; [by eapply columns_plain|done..]. }
  destruct Hs as [Hs|[Hs|[T Hs]]].
  - rewrite (spj_setops _ _ Hs). assert (hasAggs q = false) as ->.
    { pose proof (spj_grouped _ _ Hs) as Hg. unfold grouped in Hg. by destruct (hasAggs q). }
    destruct (Hsel (spj_from _ _ Hs) (spj_setops _ _ Hs) _ (spj_scope _ _ Hs)) as (es & es' & E1 & E2 & H). exists es'.
    hrun E1. unfold handleProjectionCopyMap. by hrun E2.
  - rewrite (agg_setops _ _ Hs), (agg_aggs _ _ Hs).
    destruct (Hsel (agg_from _ _ Hs) (agg_setops _ _ Hs) _ (agg_scope _ _ Hs)) as (es & es' & E1 & E2 & H). exists es'.
    hrun E1. unfold generateAggCopyMap. by hrun E2.
  - rewrite (set_tree _ _ _ Hs). eexists. split; [done|]. apply setop_made, link_made.
Qed.

Lemma input_maps_run rtes i st :
  Forall (λ r, ∀ i st, ∃ om st', input_map cat get_opcode contr r i st = Ok (om, st') ∧ plain_opt om) rtes →
  ∃ inputs st', input_maps cat get_opcode contr rtes i st = Ok (inputs, st') ∧ Forall plain_opt inputs.
Proof.
  intros H. revert i st. induction H as [|r rtes Hr _ IH]; intros i st; cbn [input_maps]; [by eexists _, _|].
  destruct (Hr (i + 1)%Z st) as (om & s1 & E1 & H1). hrun E1. destruct (IH (i + 1)%Z s1) as (inputs & s2 & E2 & H2). hrun E2.
  eexists _, _. split; [done|]. by constructor.
Qed.

Lemma generate_plain q :
  query_ok cat q = true → ∀ i st, ∃ es inputs st',
  generateCopyMapForQueryNode cat get_opcode contr q i st = Ok (QueryMap i es inputs, st') ∧ plain_map (QueryMap i es inputs).
Proof using nontrans.
  revert q. apply (Query_tree_ind
    (λ q, query_ok cat q = true → ∀ i st, ∃ es inputs st',
      generateCopyMapForQueryNode cat get_opcode contr q i st = Ok (QueryMap i es inputs, st') ∧ plain_map (QueryMap i es inputs))
    (λ r, rte_ok cat r = true → ∀ i st, ∃ om st', input_map cat get_opcode contr r i st = Ok (om, st') ∧ plain_opt om)).
  - intros ct ha hs rt IH fl qs tl gc hv dc sc lo lc so pr sr Hok i st.
    set (q := mkQuery ct ha hs rt fl qs tl gc hv dc sc lo lc so pr sr) in *. rewrite generate_unfold.
    apply list_all_Forall in IH. pose proof (query_ok_spec _ _ Hok) as [Hrt _].
    destruct (input_maps_run (rtable q) 0 st) as (inputs & s1 & E1 & H1).
    { rewrite Forall_forall in IH, Hrt |- *. intros r Hr. exact (IH r Hr (Hrt r Hr)). }
    hrun E1. destruct (node_plain q i s1 inputs Hok) as (es & E2 & H2). rewrite E2. eexists _, _, _. split; [done|].
    by apply plain_query.
  - intros k rel sub IH ft vt jt av al er pb pa Hr i st.
    pose proof (rte_ok_spec cat _ Hr) as (_ & _ & _ & _ & [(Hk & _)|[(Hk & s & Hs & Hsp)|Hk]]);
      cbn [rtekind subquery] in *; subst; cbn [input_map rtekind subquery].
    + destruct (base_map_ok _ i st Hr eq_refl) as (m & s1 & E & H). hrun E. by eexists _, _.
    + apply option_all_Some in IH. destruct (IH Hsp i st) as (es & inputs & s1 & E & H). hrun E. eexists _, _. split; [done|].
      by apply plain_rtindex.
    + by eexists _, _.
Qed.

End generation.

(** ** Analysis *)

Section tree_ind.
Context (P : CopyMap → Prop) (P_base : ∀ rel, P (BaseMap rel)).
Context (P_query : ∀ i es inputs, Forall (λ om, ∀ m, om = Some m → P m) inputs → P (QueryMap i es inputs)).

Fixpoint CopyMap_tree_ind (m : CopyMap) : P m :=
  match m with
  | BaseMap rel => P_base rel
  | QueryMap i es inputs =>
      P_query i es inputs
        ((fix go (l : list (option CopyMap)) : Forall (λ om, ∀ m, om = Some m → P m) l :=
            match l with
            | [] => Forall_nil_2 _
            | om :: l =>
                Forall_cons_2 _ om l
                  (match om return ∀ m, om = Some m → P m with
                   | Some m => λ m' E, eq_ind m P (CopyMap_tree_ind m) m' (f_equal (default m) E)
                   | None => λ m' E, match E with end
                   end) (go l)
            end) inputs)
  end.

End tree_ind.

Lemma plain_base ca a : Forall (plain_incl ca) (outAttrIncls a) → certain_columns a (columns ca) = columns a.
Proof.
  unfold certain_columns, columns. induction 1 as [|x l [Hne Hx] _ IH]; [done|]. cbn [List.filter].
  assert (existsb (certain_cond ((λ i, varattno (incl_attr i)) <$> outAttrIncls ca)) (inclConds x) = true) as ->; [|csimpl; by rewrite IH].
  destruct (inclConds x) as [|c cs]; [done|]. apply Forall_cons in Hx as [(inner & -> & v & Hi & Hv) _].
  cbn [existsb]. apply orb_true_iff. left. unfold certain_cond. cbn [existsAttr MAKE_EXISTS_INCL inclType]. rewrite Hi.
  cbn [existsb]. unfold direct_cond. cbn. apply orb_true_iff. left. by apply bool_decide_eq_true.
Qed.

Definition all_columns (rel : CopyMapRelEntry) : list (list Z) := columns <$> attrEntries rel.

(** In a plain map all inclusions are certain. *)
Lemma certain_plain m : plain_map m → certain m = all_columns <$> entries m.
Proof.
  induction m as [rel|i es inputs IH] using CopyMap_tree_ind; [done|]. rewrite plain_query, certain_query. intros [Hes Hin].
  assert (inputs ≫= mcertain = all_columns <$> children inputs) as ->.
  { rewrite children_mentries. clear Hes. induction inputs as [|om inputs IHl]; [done|]. apply Forall_cons in IH as [H1 IH], Hin as [H2 Hin].
    csimpl. rewrite fmap_app, IHl by done. f_equal. destruct om as [m|]; [by apply H1|done]. }
  cbn [entries]. induction Hes as [|child rel ch es (_ & _ & Ha) _ IHes]; [done|]. csimpl. rewrite IHes. f_equal.
  unfold all_columns. clear -Ha. induction Ha as [|ca a cas l [_ HF] _ IH]; [done|]. csimpl. by rewrite IH, plain_base.
Qed.

(** An attribute after the analysis. *)
Definition decided (a a' : CopyMapEntry) : Prop :=
  baseRelAttr a' = baseRelAttr a ∧ columns a' = columns a ∧
  isStaticTrue a' = negb (is_nil (columns a)) ∧ isStaticFalse a' = is_nil (columns a) ∧
  Forall (λ x, incl_static x = true) (outAttrIncls a').
Definition decided_rel (rel rel' : CopyMapRelEntry) : Prop :=
  ∃ attrs, rel' = set_attrEntries attrs rel ∧ Forall2 decided (attrEntries rel) attrs.

Lemma find_attr_spec l cur a :
  NoDup ((λ a, varattno (baseRelAttr a)) <$> l) → a ∈ l → find_attr (varattno (baseRelAttr a)) l cur = Some a.
Proof.
  revert cur. induction l as [|x l IH]; intros cur; csimpl; [by intros _ ?%elem_of_nil|].
  intros [Hx HN]%NoDup_cons [->|Ha]%elem_of_cons; cbn [find_attr]; [by rewrite decide_True|].
  rewrite decide_False; [by apply IH|]. intros E. apply Hx. rewrite E. by apply (list_elem_of_fmap_2 (λ a, varattno (baseRelAttr a))).
Qed.

(** A condition on an attribute that has inclusions always holds. *)
Lemma static_conds_true ca' bv child inner st :
  NoDup (numbers child) → ca' ∈ attrEntries child → varattno (baseRelAttr ca') = varattno bv → isStaticTrue ca' = true →
  (∃ v, inclConds inner = [MAKE_EXISTS_INCL (inl v)]) → static_conds bv child (inclConds inner) st = Ok ((true, true), st).
Proof.
  intros HN Hin Eb Ht [v ->]. cbn [static_conds existsAttr MAKE_EXISTS_INCL]. rewrite bind_ret. unfold getInclusionStaticType.
  rewrite <- Eb, find_attr_spec by done. rewrite bind_assoc, bind_deref, bind_ret, Ht, bind_ret. cbn [inclType].
  by rewrite (bool_decide_eq_true_2 (INCL_EXISTS = INCL_EXISTS ∧ STATIC_TRUE = STATIC_TRUE)) by done.
Qed.

Section analysis.
Context {folding : ConstFolding}.

Section attribute.
Context (ca ca' : CopyMapEntry) (bv : Var) (child : CopyMapRelEntry).
Context (HN : NoDup (numbers child)) (Hin : ca' ∈ attrEntries child) (Hb : varattno (baseRelAttr ca') = varattno bv).
Context (Hstatic : columns ca ≠ [] → isStaticTrue ca' = true).

Lemma base_incl_columns inner : base_incl ca inner → isStaticTrue ca' = true ∧ ∃ v, inclConds inner = [MAKE_EXISTS_INCL (inl v)].
Proof using Hstatic.
  intros (v & E & Hv). split; [|by exists v]. apply Hstatic. intros E'. rewrite E' in Hv. by apply elem_of_nil in Hv.
Qed.

Lemma analyze_conds_true cs st :
  Forall (λ c, ∃ inner, c = MAKE_EXISTS_INCL (inr inner) ∧ base_incl ca inner) cs →
  ∀ fl, ∃ cs', analyze_conds bv child cs fl st = Ok ((cs', raise_flags (negb (is_nil cs)) (negb (is_nil cs)) fl), st).
Proof using HN Hin Hb Hstatic.
  induction 1 as [|c cs (inner & -> & Hi) _ IH]; intros fl; cbn [analyze_conds].
  { exists []. destruct fl as [[incl t] f]. cbn. by rewrite !orb_false_r, andb_true_r. }
  destruct (base_incl_columns inner Hi) as [Ht Hv]. cbn [existsAttr inclType cond eqVars MAKE_EXISTS_INCL].
  rewrite bind_assoc. hrun (static_conds_true ca' bv child inner st HN Hin Hb Ht Hv). rewrite decide_False by done. rewrite bind_assoc, !bind_ret.
  destruct (IH (raise_flags true true fl)) as [cs' E]. hrun E. eexists. do 3 f_equal. destruct fl as [[incl t] f], cs; cbn;
    by rewrite ?orb_true_r, ?andb_false_r.
Qed.

Lemma analyze_incls_true l st :
  Forall (plain_incl ca) l →
  ∀ t f, ∃ l', analyze_incls bv child l t f st = Ok ((l', t || negb (is_nil l), f && is_nil l), st) ∧
    incl_attr <$> l' = incl_attr <$> l ∧ Forall (λ x, incl_static x = true) l'.
Proof using HN Hin Hb Hstatic.
  induction 1 as [|x l [Hne Hx] _ IH]; intros t f; cbn [analyze_incls].
  { exists []. by rewrite orb_false_r, andb_true_r. }
  destruct (analyze_conds_true _ st Hx (false, t, f)) as [cs' Ec].
  assert (is_nil (inclConds x) = false) as Hn by by destruct (inclConds x).
  rewrite Hn in Ec. hrun Ec. cbn [raise_flags]. destruct (IH (t || negb false) (f && negb (negb false))) as (l' & E & El & Hs). hrun E.
  cbn [is_nil negb]. rewrite !orb_true_r, !andb_false_r. eexists. split; [done|]. csimpl. rewrite El. split; [done|]. by constructor.
Qed.

Lemma analyzeAttrPaths_ok a st :
  baseRelAttr a = bv → Forall (plain_incl ca) (outAttrIncls a) → ∃ a', analyzeAttrPaths child a st = Ok (a', st) ∧ decided a a'.
Proof using HN Hin Hb Hstatic.
  intros Ea Ha. unfold analyzeAttrPaths. destruct (analyze_incls_true (outAttrIncls a) st Ha false true) as (l' & E & El & Hs). rewrite Ea.
  hrun E. eexists. split; [done|]. split; [done|].
  assert (is_nil (columns a) = is_nil (outAttrIncls a)) as -> by (unfold columns; by destruct (outAttrIncls a)).
  split; [|done]. unfold columns. cbn.
  by rewrite !(list_fmap_compose incl_attr varattno), El.
Qed.

End attribute.

Lemma numbers_decided rel rel' : decided_rel rel rel' → numbers rel' = numbers rel.
Proof.
  intros (attrs & -> & H). unfold numbers. cbn [attrEntries set_attrEntries].
  induction H as [|a a' l l' (E & _) _ IH]; [done|]. csimpl. by rewrite IH, E.
Qed.

Lemma numbers_made Q child rel : made_from Q child rel → numbers rel = numbers child.
Proof.
  intros (_ & _ & H). unfold numbers. induction H as [|ca a l l' [E _] _ IH]; [done|]. csimpl. by rewrite IH, E.
Qed.

Lemma map_attrs_analyze child child' rel st :
  NoDup (numbers child) → decided_rel child child' → made_from plain_incl child rel →
  ∃ attrs, map_attrs (analyzeAttrPaths child') (attrEntries rel) st = Ok (attrs, st) ∧ Forall2 decided (attrEntries rel) attrs.
Proof.
  intros HN Hd (_ & _ & Ha). pose proof (numbers_decided _ _ Hd) as En. destruct Hd as (cattrs & Ec & Hd).
  assert (NoDup (numbers child')) as HN' by by rewrite En.
  assert (∀ ca', ca' ∈ cattrs → ca' ∈ attrEntries child') as Hsub by (rewrite Ec; done). clear Ec En HN.
  revert cattrs Hd Hsub. induction Ha as [|ca a cas l [Eb Hi] _ IH]; intros cattrs Hd Hsub; cbn [map_attrs]; [by exists []|].
  apply Forall2_cons_inv_l in Hd as (ca' & cattrs' & (E1 & E2 & E3 & _) & Hd & ->).
  destruct (analyzeAttrPaths_ok ca ca' (baseRelAttr a) child' HN') with (a := a) (st := st) as (a' & Ea & Da); [..|done|done|].
  - apply Hsub. by left.
  - congruence.
  - rewrite E3. by destruct (columns ca).
  - hrun Ea. destruct (IH cattrs' Hd) as (attrs & E & H); [intros x Hx; apply Hsub; by right|]. hrun E. eexists. split; [done|].
    by constructor.
Qed.

Lemma analyze_rels_ok ch ch' es st :
  Forall (λ rel, NoDup (numbers rel)) ch → Forall2 decided_rel ch ch' → Forall2 (made_from plain_incl) ch es →
  ∃ es', analyze_rels es ch' st = Ok (es', st) ∧ Forall2 decided_rel es es'.
Proof.
  intros HN Hd Hes. revert ch' HN Hd. induction Hes as [|child rel ch es Hr _ IH]; intros ch' HN Hd; cbn [analyze_rels]; [by exists []|].
  apply Forall_cons in HN as [N1 HN]. apply Forall2_cons_inv_l in Hd as (child' & ch'' & Hc & Hd & ->).
  destruct (map_attrs_analyze child child' rel st N1 Hc Hr) as (attrs & E1 & H1). hrun E1.
  destruct (IH ch'' HN Hd) as (es' & E2 & H2). hrun E2. eexists. split; [done|]. constructor; [by exists attrs|done].
Qed.

Lemma plain_numbers m : plain_map m → Forall (λ rel, NoDup (numbers rel)) (entries m).
Proof.
  induction m as [rel|i es inputs IH] using CopyMap_tree_ind; [intros (_ & _ & H & _); by apply Forall_singleton|].
  rewrite plain_query. intros [Hes Hin]. assert (Forall (λ rel, NoDup (numbers rel)) (children inputs)) as Hch.
  { rewrite children_mentries. clear Hes. induction inputs as [|om inputs IHl]; [constructor|].
    apply Forall_cons in IH as [H1 IH], Hin as [H2 Hin]. csimpl. apply Forall_app. split; [|by apply IHl].
    destruct om as [m|]; [by apply H1|constructor]. }
  cbn [entries]. revert Hch. clear -Hes. induction Hes as [|child rel ch es Hr _ IH]; [done|]. intros [N1 HN]%Forall_cons.
  constructor; [by rewrite (numbers_made _ _ _ Hr)|by apply IH].
Qed.

(** Maps before the decision about rewriting: base relations are static, nothing else is decided. *)
Fixpoint fresh (m : CopyMap) : Prop :=
  match m with
  | BaseMap rel => isStatic rel = true ∧ noRewrite rel = false
  | QueryMap _ es inputs =>
      Forall (λ rel, isStatic rel = false ∧ noRewrite rel = false) es ∧ length es = length (children inputs) ∧
      (fix all (l : list (option CopyMap)) : Prop :=
         match l with [] => True | None :: l => all l | Some m :: l => fresh m ∧ all l end) inputs
  end.

Definition fresh_opt (om : option CopyMap) : Prop := match om with Some m => fresh m | None => True end.

Lemma fresh_query i es inputs :
  fresh (QueryMap i es inputs) ↔
  Forall (λ rel, isStatic rel = false ∧ noRewrite rel = false) es ∧ length es = length (children inputs) ∧ Forall fresh_opt inputs.
Proof.
  cbn [fresh]. do 2 apply and_iff_compat_l. induction inputs as [|[m|] l IH]; [done|..]; rewrite Forall_cons, IH; [done|].
  cbn. tauto.
Qed.

Fixpoint infer_inputs (l : list (option CopyMap)) : W (list (option CopyMap)) :=
  match l with
  | [] => ret []
  | None :: l => l ← infer_inputs l; ret (None :: l)
  | Some m :: l => m ← inferStaticCopyQueryNode m; l ← infer_inputs l; ret (Some m :: l)
  end.

Lemma infer_unfold i es inputs :
  inferStaticCopyQueryNode (QueryMap i es inputs) =
    (inputs ← infer_inputs inputs; es ← analyze_rels es (children inputs); ret (QueryMap i es inputs)).
Proof. done. Qed.

Lemma infer_query_ok m st :
  plain_map m →
  ∃ m', inferStaticCopyQueryNode m st = Ok (m', st) ∧ Forall2 decided_rel (entries m) (entries m') ∧ fresh m' ∧
    match m with QueryMap i _ _ => ∃ es inputs, m' = QueryMap i es inputs | _ => True end.
Proof.
  induction m as [rel|i es inputs IH] using CopyMap_tree_ind.
  { intros (H1 & H2 & _ & Ha). exists (BaseMap rel). split; [done|]. split; [|done]. constructor; [|constructor].
    exists (attrEntries rel). split; [by destruct rel|]. apply Forall_Forall2_diag. eapply Forall_impl; [exact Ha|].
    intros a (Hne & H3 & H4 & H5). split; [done|]. split; [done|]. unfold columns. by destruct (outAttrIncls a). }
  rewrite plain_query, infer_unfold. intros [Hes Hin].
  assert (∃ inputs', infer_inputs inputs st = Ok (inputs', st) ∧ Forall2 decided_rel (children inputs) (children inputs') ∧
    Forall fresh_opt inputs') as (inputs' & E1 & Hd & Hf).
  { clear Hes. induction inputs as [|om inputs IHl]; [by exists []|]. apply Forall_cons in IH as [H1 IH], Hin as [H2 Hin].
    destruct (IHl IH Hin) as (l' & El & Hl & Fl). cbn [infer_inputs]. destruct om as [m|].
    - destruct (H1 m eq_refl H2) as (m' & Em & Hm & Fm & _). hrun Em. hrun El. eexists. split; [done|]. split; [|by constructor].
      rewrite !children_mentries. csimpl. rewrite <- !children_mentries. by apply Forall2_app.
    - hrun El. eexists. split; [done|]. split; [|by constructor]. done. }
  hrun E1. assert (Forall (λ rel, NoDup (numbers rel)) (children inputs)) as HN.
  { rewrite children_mentries. apply Forall_forall. intros rel (om & Hr & Hom)%list_elem_of_bind. rewrite Forall_forall in Hin.
    specialize (Hin om Hom). destruct om as [m|]; [|by apply elem_of_nil in Hr]. pose proof (plain_numbers m Hin) as H.
    rewrite Forall_forall in H. by apply H. }
  destruct (analyze_rels_ok _ _ es st HN Hd Hes) as (es' & E2 & He). hrun E2. eexists. split; [done|]. split; [done|].
  split; [|by eexists _, _]. apply fresh_query. split; [|split; [|done]].
  - clear -Hes He. revert es' He. induction Hes as [|child rel ch es (H1 & H2 & _) _ IH]; intros es' He.
    { apply Forall2_nil_inv_l in He as ->. constructor. }
    apply Forall2_cons_inv_l in He as (rel' & es'' & (attrs & -> & _) & He & ->). constructor; [done|by apply IH].
  - rewrite <- (Forall2_length _ _ _ He), <- (Forall2_length _ _ _ Hes). by apply Forall2_length in Hd.
Qed.

(** ** Decisions *)

Definition flags (rel : CopyMapRelEntry) : bool * bool := (isStatic rel, noRewrite rel).

(** The decisions at the base relations a query reads, in order. *)
Fixpoint base_flags (m : CopyMap) : list (bool * bool) :=
  match m with
  | BaseMap rel => [flags rel]
  | QueryMap _ _ inputs =>
      (fix go (l : list (option CopyMap)) : list (bool * bool) :=
         match l with [] => [] | None :: l => go l | Some m :: l => base_flags m ++ go l end) inputs
  end.

Definition opt_flags (om : option CopyMap) : list (bool * bool) := match om with Some m => base_flags m | None => [] end.

Lemma base_flags_query i es inputs : base_flags (QueryMap i es inputs) = inputs ≫= opt_flags.
Proof. cbn [base_flags]. induction inputs as [|[m|] l IH]; [done|..]; csimpl; by rewrite IH. Qed.

(** What the entries of a relation with the columns [ccs] of its attributes decide: a tuple contributes if one (partial) or
    all (complete) of its attributes are copied. *)
Definition contributes_copy (contr : ContributionType) (ccs : list (list Z)) : bool :=
  if IS_PARTIALC contr then existsb (λ cc, negb (is_nil cc)) ccs else forallb (λ cc, negb (is_nil cc)) ccs.

Lemma infer_rel_ok contr rel rel' :
  decided_rel rel rel' → isStatic rel = false → noRewrite rel = false →
  flags (infer_rel contr rel') = (contributes_copy contr (all_columns rel), negb (contributes_copy contr (all_columns rel))).
Proof.
  intros (attrs & -> & Hd) H1 H2. unfold infer_rel. cbn [isStatic noRewrite set_attrEntries attrEntries]. rewrite H1, H2. cbn [orb].
  unfold contributes_copy, all_columns. destruct (IS_PARTIALC contr); cbv zeta.
  - match goal with |- context [foldl ?f _ _] => set (step := f) end.
    assert (∀ b, foldl step (b, negb b) attrs =
      (b || existsb (λ cc, negb (is_nil cc)) (columns <$> attrEntries rel),
       negb (b || existsb (λ cc, negb (is_nil cc)) (columns <$> attrEntries rel)))) as Hf.
    { assert (∀ b a a', decided a a' → step (b, negb b) a' = let b := b || negb (is_nil (columns a)) in (b, negb b)) as Hstep.
      { intros b a a' (_ & _ & Et & Ef & _). unfold step. rewrite Et, Ef. by destruct (is_nil (columns a)), b. }
      clearbody step. induction Hd as [|a a' l l' Ha _ IH]; intros b; csimpl; [by rewrite orb_false_r|].
      rewrite (Hstep b a a' Ha). cbv zeta. by rewrite IH, orb_assoc. }
    change (false, true) with (false, negb false). by rewrite Hf.
  - match goal with |- context [foldl ?f _ _] => set (step := f) end.
    assert (∀ b, foldl step (b, negb b) attrs =
      (b && forallb (λ cc, negb (is_nil cc)) (columns <$> attrEntries rel),
       negb (b && forallb (λ cc, negb (is_nil cc)) (columns <$> attrEntries rel)))) as Hf.
    { assert (∀ b a a', decided a a' → step (b, negb b) a' = let b := b && negb (is_nil (columns a)) in (b, negb b)) as Hstep.
      { intros b a a' (_ & _ & Et & Ef & _). unfold step. rewrite Et, Ef. by destruct (is_nil (columns a)), b. }
      clearbody step. induction Hd as [|a a' l l' Ha _ IH]; intros b; csimpl; [by rewrite andb_true_r|].
      rewrite (Hstep b a a' Ha). cbv zeta. by rewrite IH, andb_assoc. }
    change (true, false) with (true, negb true). by rewrite Hf.
Qed.

Fixpoint push_inputs (tops : list CopyMapRelEntry) (l : list (option CopyMap)) : list (option CopyMap) :=
  match l with
  | [] => []
  | None :: l => None :: push_inputs tops l
  | Some m :: l => Some (push_down tops m) :: push_inputs (drop (length (entries m)) tops) l
  end.

Lemma push_unfold tops i es inputs :
  push_down tops (QueryMap i es inputs) = QueryMap i (forboth (λ rel top, push_flags top rel) es tops) (push_inputs tops inputs).
Proof. done. Qed.

(** The decisions arrive at the base relations. *)
Lemma push_down_flags m tops :
  fresh m → (length (entries m) ≤ length tops)%nat → Forall (λ top, noRewrite top = negb (isStatic top)) tops →
  base_flags (push_down tops m) = flags <$> take (length (entries m)) tops.
Proof.
  revert tops. induction m as [rel|i es inputs IH] using CopyMap_tree_ind; intros tops.
  { intros [H1 H2] Hl Ht. destruct tops as [|top tops]; [cbn in Hl; lia|]. apply Forall_cons in Ht as [Ht _]. cbn.
    rewrite take_0. f_equal. unfold push_flags, flags. rewrite Ht. destruct (isStatic top); cbn; [by rewrite H2|done]. }
  rewrite fresh_query, push_unfold, base_flags_query. intros (_ & El & Hf). cbn [entries]. rewrite El. clear El.
  rewrite children_mentries. revert tops. induction inputs as [|om inputs IHl]; intros tops; csimpl.
  { done. }
  apply Forall_cons in IH as [H1 IH], Hf as [H2 Hf]. rewrite length_app. intros Hl Ht. destruct om as [m|]; csimpl.
  - rewrite (H1 m eq_refl) by (done || cbn in Hl; lia). rewrite IHl; [|done|done|rewrite length_drop; cbn in Hl; lia|by apply Forall_drop].
    cbn. by rewrite <- fmap_app, take_take_drop.
  - by apply IHl.
Qed.

(** The analysis of a plain map returns, with the decisions for the columns of its attributes. *)
Lemma inferStaticCopy_ok contr i es inputs st :
  plain_map (QueryMap i es inputs) →
  ∃ m', inferStaticCopy contr (QueryMap i es inputs) st = Ok (m', st) ∧
    relation <$> entries m' = relation <$> es ∧
    flags <$> entries m' = (λ rel, let c := contributes_copy contr (all_columns rel) in (c, negb c)) <$> es ∧
    base_flags m' = flags <$> entries m'.
Proof.
  intros Hp. destruct (infer_query_ok _ st Hp) as (m' & E & Hd & Hf & es' & inputs' & ->). unfold inferStaticCopy. hrun E.
  cbn [entries] in Hd. rewrite push_unfold. eexists. split; [done|]. cbn [entries]. rewrite base_flags_query.
  apply plain_query in Hp as [Hes _]. split.
  { clear -Hd. induction Hd as [|rel rel' es es' (attrs & -> & _) _ IH]; [done|]. csimpl. rewrite IH. f_equal.
    unfold infer_rel. destruct (_ || _); [done|]. by destruct (foldl _ _ _). }
  assert (flags <$> (infer_rel contr <$> es') = (λ rel, let c := contributes_copy contr (all_columns rel) in (c, negb c)) <$> es) as Efl.
  { clear -Hd Hes. revert es' Hd. induction Hes as [|child rel ch es (H1 & H2 & _) _ IH]; intros es' Hd.
    { by apply Forall2_nil_inv_l in Hd as ->. }
    apply Forall2_cons_inv_l in Hd as (rel' & es'' & Hr & Hd & ->). csimpl. rewrite IH by done. f_equal. by apply infer_rel_ok. }
  split; [done|]. apply fresh_query in Hf as (_ & El & Hf).
  set (tops := infer_rel contr <$> es') in *. assert (Forall (λ top, noRewrite top = negb (isStatic top)) tops) as Ht.
  { apply Forall_forall. intros top Htop. apply (list_elem_of_fmap_2 flags) in Htop. rewrite Efl in Htop.
    apply list_elem_of_fmap in Htop as (rel & Hrel & _). unfold flags in Hrel. by injection Hrel as -> ->. }
  pose proof (push_down_flags (QueryMap i (replicate (length (children inputs')) (mkRelEntry 0 0 [] 0 false false)) inputs') tops) as H.
  rewrite push_unfold, base_flags_query in H. rewrite H; [|apply fresh_query; split; [by apply Forall_replicate|by rewrite length_replicate]|..|done].
  - cbn [entries]. rewrite length_replicate, <- El. rewrite take_ge; [done|]. unfold tops. by rewrite length_fmap.
  - cbn [entries]. rewrite length_replicate, <- El. unfold tops. by rewrite length_fmap.
Qed.

End analysis.

End CopyExact.
