(* ===== verification/CopyTerm.v ===== *)
(** * The generation of copy maps ends

    For well-formed queries and every contribution semantics the generation of a copy map and its analysis return or report an error: the
    resolution of join columns ends, and so do the two searches in the graph of equal columns, whatever
    the conditions are. *)

From Stdlib Require Import ZArith Lia.
From stdpp Require Import base strings numbers list sets gmap.
From S2P Require Import Prelude ProvStack AttrName QueryTree SqlSemantics SqlFacts Queries RewriteSPJ RewriteAggr.
From S2P Require Import RewriteFacts RewriteJoins RewriteMain AggrFacts ProvReplay CopyMap CopyGraph CopyFacts CopySound CopyQuery CopyExact.
Import QueryTree SqlSemantics SqlFacts Queries RewriteSPJ RewriteAggr RewriteFacts RewriteJoins RewriteMain.
Import AggrFacts ProvReplay CopyMap CopyGraph CopyFacts CopySound CopyQuery CopyExact.

Module CopyTerm.

(** The computation ends from [st]. *)
Definition ends {A} (m : W A) (st : rewriter) : Prop := m st ≠ Err Hang.

Lemma ends_ok {A} (m : W A) st a st' : m st = Ok (a, st') → ends m st.
Proof. unfold ends. by intros ->. Qed.

Lemma ends_bind {A B} (m : W A) (k : A → W B) st :
  ends m st → (∀ a st', m st = Ok (a, st') → ends (k a) st') → ends (bind m k) st.
Proof. unfold ends, bind. intros Hm Hk. destruct (m st) as [[a st']|e]; [by apply Hk|congruence]. Qed.

Lemma ends_ret {A} (a : A) st : ends (ret a) st.
Proof. done. Qed.

Lemma ends_deref {A} (o : option A) st : ends (deref o) st.
Proof. by destruct o. Qed.

Lemma ends_elog {A} e st : e ≠ Hang → ends (throw e : W A) st.
Proof. unfold ends, throw. congruence. Qed.

#[local] Hint Resolve ends_ret ends_deref : core.

(** Split a sequence into its statements. *)
Ltac ends := repeat (apply ends_bind; [auto|intros ? ? ?]); auto.

Section ends.
Context (cat : syscache) (get_opcode : Z → Z) (contr : ContributionType).

Lemma equalities_end root outer x st : ends (findVarEqualitiesWalker cat get_opcode root outer x) st.
Proof.
  revert st. induction x as [x IH] using Expr_subexprs_ind. intros st.
  assert (∀ l st, Forall (λ x, ∀ st, ends (findVarEqualitiesWalker cat get_opcode root outer x) st) l →
    ends ((fix walk (l : list Expr) : W (list (Var * Var * bool)) :=
      match l with
      | [] => ret []
      | x :: l => a ← findVarEqualitiesWalker cat get_opcode root outer x; b ← walk l; ret (a ++ b)
      end) l) st) as Hl.
  { clear. intros l st H. revert st. induction H as [|x l Hx _ IHl]; intros st; [done|]. ends. }
  destruct x as [v|t m c|o t l|b l|o t l|f t l u s d|f t c l|x t m c|n x|t l d|x r]; cbn [findVarEqualitiesWalker subexprs] in *; auto.
  - apply ends_bind.
    + unfold isEqualityOper. ends. destruct (equality_oper cat _) as [[]|]; [done|by apply ends_elog].
    + intros [] st' _; [|by apply Hl]. ends. by repeat case_match.
  - inversion_clear IH. auto.
  - inversion_clear IH. auto.
  - apply Forall_app in IH as [IHl IHd]. apply ends_bind; [by apply Hl|]. intros a s1 _. apply ends_bind; [|by intros b s2 _].
    destruct d as [d|]; [|done]. inversion_clear IHd. auto.
  - inversion_clear IH as [|? ? Hx Hr]. inversion_clear Hr. ends.
Qed.

Lemma on_rte_vars_ok q D x st :
  from_ok cat q → D ⊆ scope q → expr_ok (width cat q) D x = true → ∃ x', conditionOnRteVarsMutator q x st = Ok (x', st).
Proof.
  intros Hq HD. induction x as [x IH] using Expr_subexprs_ind.
  assert (∀ l, Forall (λ x, expr_ok (width cat q) D x = true → ∃ x', conditionOnRteVarsMutator q x st = Ok (x', st)) l →
    forallb (expr_ok (width cat q) D) l = true →
    ∃ l', (fix all (l : list Expr) : W (list Expr) :=
      match l with
      | [] => ret []
      | x :: l => x ← conditionOnRteVarsMutator q x; l ← all l; ret (x :: l)
      end) l st = Ok (l', st)) as Hl.
  { clear. induction 1 as [|x l Hx _ IHl]; [by eexists|]. cbn [forallb]. rewrite andb_true_iff. intros [H1 H2].
    destruct (Hx H1) as [x' E]. destruct (IHl H2) as [l' E']. hrun E. hrun E'. by eexists. }
  destruct x as [v|t m c|o t l|b l|o t l|f t l u s d|f t c l|x t m c|n x|t l d|x r];
    cbn [conditionOnRteVarsMutator subexprs expr_ok] in *; intros Hx; try done.
  - destruct (resolveToRteVar_ok (mkOps (λ _ _, None) (λ _ _, None) (λ _ _, None)) cat q v st Hq) as (v' & E & _); [|hrun E; by eexists].
    apply (in_scope_mono cat q D); [done|]. by apply in_scope_spec.
  - by eexists.
  - destruct (Hl l IH Hx) as [l' E]. hrun E. by eexists.
  - destruct (Hl l IH Hx) as [l' E]. hrun E. by eexists.
  - destruct (Hl l IH Hx) as [l' E]. hrun E. by eexists.
  - destruct c; try done. destruct (Hl l IH Hx) as [l' E]. hrun E. by eexists.
  - inversion_clear IH as [|? ? Hi _]. destruct (Hi Hx) as [x' E]. hrun E. by eexists.
  - inversion_clear IH as [|? ? Hi _]. destruct (Hi Hx) as [x' E]. hrun E. by eexists.
Qed.

Lemma condition_ends q D c outer g st :
  from_ok cat q → D ⊆ scope q → qual_ok (width cat q) D c = true → ends (analyzeConditionForCopy cat get_opcode q c outer g) st.
Proof.
  intros Hq HD Hc. destruct c as [c|]; [|done]. cbn [analyzeConditionForCopy]. destruct (on_rte_vars_ok q D c st Hq HD Hc) as [x E].
  apply ends_bind; [by eapply ends_ok|]. intros base s1 _. apply ends_bind; [apply equalities_end|auto].
Qed.

Lemma copy_rels_end q i st : ends (getCopyRelsForRtindex q i) st.
Proof. unfold getCopyRelsForRtindex. ends. case_decide; ends. Qed.

#[local] Hint Resolve copy_rels_end : core.

Lemma handle_item_ends q ch n es g st :
  from_ok cat q → node_ok cat q n = true → ids n ⊆ scope q → ends (handleJoinTreeItem cat get_opcode q contr ch n es g) st.
Proof.
  intros Hq. revert es g st. induction n as [i|jt l IHl r IHr c J]; intros es g st Hn Hsub; cbn [handleJoinTreeItem node_ok ids] in *; [ends|].
  repeat rewrite andb_true_iff in Hn. destruct Hn as ((((Kl & Kr) & _) & Hc) & _).
  apply ends_bind; [apply IHl; [done|set_solver]|]. intros [es1 g1] s1 _. apply ends_bind; [apply IHr; [done|set_solver]|].
  intros [es2 g2] s2 _. ends. destruct (IS_TRANSC contr); [|done]. apply ends_bind; [|auto]. eapply condition_ends; [done| |exact Hc]. set_solver.
Qed.

Lemma handle_items_end q ch ns es g st :
  from_ok cat q → Forall (λ n, node_ok cat q n = true) ns → ns ⊆ fromlist q → ends (handle_items cat get_opcode q contr ch ns es g) st.
Proof.
  intros Hq Hn. revert es g st. induction Hn as [|n ns Hn _ IH]; intros es g st Hsub; cbn [handle_items]; [done|].
  apply ends_bind; [apply handle_item_ends; [done..|]|intros [] ? _; apply IH; set_solver].
  intros i Hi. unfold scope. apply elem_of_concat. exists (ids n). split; [done|]. apply list_elem_of_fmap_2. set_solver.
Qed.

(** In the row without values all columns are equal. *)
Lemma no_values v w : same_val (λ _, ([], [])) v w.
Proof. unfold same_val, val. cbn. by rewrite !(attr_nulls _ 0). Qed.

Lemma handleJoins_ends q ch es st : from_ok cat q → ends (handleJoins cat get_opcode q contr ch es) st.
Proof.
  intros Hq. unfold handleJoins. apply ends_bind; [apply handle_items_end; [done|apply (fo_nodes _ _ Hq)|done]|]. intros [es1 g1] s1 E1.
  set (e := (λ _, ([], [])) : Z → row).
  destruct (handle_items_ok cat get_opcode q contr ch e _ _ _ _ _ _ _ (fo_nodes _ _ Hq) (fo_scope _ _ Hq) E1) as [_ Hg].
  assert (graph_ok (same_val e) g1) as Hg1.
  { apply Hg; [|by intros k n Hk]. apply Forall_forall. intros n _. induction n as [|jt l IHl r IHr c J]; cbn [joins_hold]; [done|].
    split; [done|]. split; [done|]. intros _ c0 v w _ _ _ _. apply no_values. }
  apply ends_bind.
  - destruct (IS_TRANSC contr); [|done]. eapply condition_ends; [done| |apply (fo_quals _ _ Hq)]. done.
  - intros g2 s2 E2. assert (graph_ok (same_val e) g2) as Hg2.
    { destruct (IS_TRANSC contr); [|by injection E2 as <- <-]. eapply (analyze_condition_ok cat get_opcode (same_val e)); [exact (fo_quals _ _ Hq)|exact E2|done|].
      intros c0 v w _ _ _. apply no_values. }
    destruct (addCondForEquiGraph_ok (same_val e) ltac:(intros v w _ _; apply no_values) g2 es1 s2 Hg2) as (rels' & E & _).
    by eapply ends_ok.
Qed.

Lemma node_ends q i inputs st :
  query_ok cat q = true →
  ends match setOperations q with
       | Some setOp => ret (QueryMap i (handleSetOp setOp (children inputs) (link_entries inputs 0)) inputs)
       | None =>
           es ← handleJoins cat get_opcode q contr (children inputs) (link_entries inputs 0);
           es ← (if hasAggs q then generateAggCopyMap q i es else handleProjectionCopyMap q i es);
           ret (QueryMap i es inputs)
       end st.
Proof.
  intros Hok. pose proof (query_ok_spec _ _ Hok) as [_ Hs].
  assert (∀ tes es st, from_ok cat q → Forall (column_ok cat q) tes →
    ends (mapChildVarsToTargetEntries q i tes es) st) as Hmap.
  { intros tes es s Hq Ht. destruct (map_targets_run cat q i tes es s Hq Ht) as [es' E]. by eapply ends_ok. }
  destruct Hs as [Hs|[Hs|[T Hs]]].
  - rewrite (spj_setops _ _ Hs). assert (hasAggs q = false) as ->.
    { pose proof (spj_grouped _ _ Hs) as Hg. unfold grouped in Hg. by destruct (hasAggs q). }
    apply ends_bind; [apply handleJoins_ends, Hs|]. intros es s1 _. apply ends_bind; [|auto]. apply Hmap; [apply Hs|by apply spj_scope].
  - rewrite (agg_setops _ _ Hs), (agg_aggs _ _ Hs).
    apply ends_bind; [apply handleJoins_ends, Hs|]. intros es s1 _. apply ends_bind; [|auto]. apply Hmap; [apply Hs|by apply agg_scope].
  - by rewrite (set_tree _ _ _ Hs).
Qed.

Lemma generate_ends q : query_ok cat q = true → ∀ i st, ends (generateCopyMapForQueryNode cat get_opcode contr q i) st.
Proof.
  revert q. apply (Query_tree_ind
    (λ q, query_ok cat q = true → ∀ i st, ends (generateCopyMapForQueryNode cat get_opcode contr q i) st)
    (λ r, rte_ok cat r = true → ∀ i st, ends (input_map cat get_opcode contr r i) st)).
  - intros ct ha hs rt IH fl qs tl gc hv dc sc lo lc so pr sr Hok i st.
    set (q := mkQuery ct ha hs rt fl qs tl gc hv dc sc lo lc so pr sr) in *. rewrite generate_unfold.
    apply list_all_Forall in IH. pose proof (query_ok_spec _ _ Hok) as [Hrt _].
    apply ends_bind; [|intros inputs s1 _; by apply node_ends]. change rt with (rtable q) in IH. generalize 0%Z. clear -IH Hrt. revert st.
    induction IH as [|r rtes Hr _ IHl]; intros st k; cbn [input_maps]; [done|]. apply Forall_cons in Hrt as [H1 Hrt]. ends.
  - intros k rel sub IH ft vt jt av al er pb pa Hr i st.
    pose proof (rte_ok_spec cat _ Hr) as (_ & _ & _ & _ & [(Hk & _)|[(Hk & s & Hs & Hsp)|Hk]]);
      cbn [rtekind subquery] in *; subst; cbn [input_map rtekind subquery].
    + destruct (base_map_ok cat _ i st Hr eq_refl) as (m & s1 & E & _). apply ends_bind; [by eapply ends_ok|auto].
    + apply option_all_Some in IH. apply ends_bind; auto.
    + done.
Qed.

End ends.

(** ** The analysis *)

Lemma static_conds_end bv child cs st : ends (static_conds bv child cs) st.
Proof.
  revert st. induction cs as [|c cs IH]; intros st; cbn [static_conds]; [done|]. apply ends_bind.
  - destruct (existsAttr c); [done|by apply ends_elog].
  - intros v s1 _. apply ends_bind; [unfold getInclusionStaticType; ends|]. intros ty s2 _. apply ends_bind; [auto|]. by intros [] s3 _.
Qed.

#[local] Hint Resolve static_conds_end : core.

Lemma analyze_conds_end `{ConstFolding} bv child cs fl st : ends (analyze_conds bv child cs fl) st.
Proof.
  revert fl st. induction cs as [|c cs IH]; intros fl st; cbn [analyze_conds]; [done|]. apply ends_bind.
  - destruct (existsAttr c); (apply ends_bind; [auto|intros [] s1 _]); [done|]. apply ends_bind; [|done].
    case_decide; [|done]. unfold getExprStaticType. ends.
  - intros [] s1 _. apply ends_bind; [auto|]. by intros [] s2 _.
Qed.

#[local] Hint Resolve analyze_conds_end : core.

Lemma analyze_incls_end `{ConstFolding} bv child l t f st : ends (analyze_incls bv child l t f) st.
Proof.
  revert t f st. induction l as [|x l IH]; intros t f st; cbn [analyze_incls]; [done|]. apply ends_bind; [auto|].
  intros [? [[]]] s1 _. apply ends_bind; [auto|]. by intros [[]] s2 _.
Qed.

Lemma analyze_rels_end `{ConstFolding} es ch st : ends (analyze_rels es ch) st.
Proof.
  revert ch st. induction es as [|rel es IH]; intros ch st; cbn [analyze_rels]; [by destruct ch|]. destruct ch as [|child ch]; [by apply ends_elog|].
  apply ends_bind; [|intros attrs s1 _; ends]. revert st. induction (attrEntries rel) as [|a l IHl]; intros st; cbn [map_attrs]; [done|].
  apply ends_bind; [|intros a' s1 _; ends]. unfold analyzeAttrPaths. apply ends_bind; [apply analyze_incls_end|]. by intros [[]] s1 _.
Qed.

Lemma infer_ends `{ConstFolding} m st : ends (inferStaticCopyQueryNode m) st.
Proof.
  revert st. induction m as [rel|i es inputs IH] using CopyMap_tree_ind; intros st; [done|]. rewrite infer_unfold.
  apply ends_bind; [|intros l s1 _; apply ends_bind; [apply analyze_rels_end|auto]].
  revert st. induction IH as [|om l Hm _ IHl]; intros st; cbn [infer_inputs]; [done|]. destruct om as [m|]; ends.
Qed.

End CopyTerm.
