(* ===== verification/CopyCase.v ===== *)
(** * CASE expressions in copy maps

    [getCaseInfoIfSimple] records for the columns a CASE copies the conditions under which it does.  No copy is missed: where the CASE returns
    a column, a condition recorded for it holds.  The converse is wrong: a recorded condition can hold while another branch is taken. *)

From Stdlib Require Import ZArith Lia.
From stdpp Require Import base strings numbers list sets.
From S2P Require Import Prelude QueryTree SqlSemantics Queries RewriteSPJ RewriteProps CopyMap.
Import QueryTree SqlSemantics Queries RewriteSPJ RewriteProps CopyMap.

Module CopyCase.

(** The first branch whose condition is true. *)
Fixpoint taken (ev : Expr → value) (args : list Expr) : option (Expr * Expr) :=
  match args with
  | ECaseWhen c r :: args => if is_true (ev c) then Some (c, r) else taken ev args
  | _ => None
  end.

Lemma case_value_taken ev d args :
  case_value ev d args = match taken ev args with Some (_, r) => ev r | None => d end.
Proof. induction args as [|x args IH]; [done|]. destruct x; try done. cbn. by destruct (is_true _). Qed.

Lemma resolve_pure fuel q v st v' st' : resolve_var fuel q v st = Ok (v', st') → st' = st.
Proof.
  revert v st. induction fuel as [|fuel IH]; intros v st; [done|]. cbn [resolve_var]. intros (rte & s1 & E1 & E)%bind_inv.
  unfold deref in E1. destruct (rt_fetch _ _); [|done]. injection E1 as <- <-. case_decide; [|by injection E as <- <-].
  apply bind_inv in E as (nv & s2 & E2 & E). unfold deref in E2. destruct (rt_fetch _ _); [|done]. injection E2 as <- <-. by apply IH in E.
Qed.

Definition conditions (args : list Expr) : list Expr := (λ x, match x with ECaseWhen c _ => c | _ => x end) <$> args.

(** A branch that is a column is recorded with its own condition. *)
Lemma case_branches_ok q args st conds infos st' :
  case_branches q args st = Ok ((conds, infos), st') →
  st' = st ∧ conds = conditions args ∧
  ∀ c r v, ECaseWhen c r ∈ args → getVarFromTeIfSimple r = Some v →
    ∃ v', resolveToRteVar v q st = Ok (v', st) ∧ (c, Some v') ∈ infos.
Proof.
  revert conds infos st. induction args as [|x args IH]; intros conds infos st.
  { intros [= <- <- <-]. split_and!; [done..|]. intros ? ? ? []%elem_of_nil. }
  destruct x; try done. cbn [case_branches]. intros (info & s1 & E1 & E)%bind_inv. apply bind_inv in E as ([cs ci] & s2 & E2 & [= <- <- <-]).
  assert (s1 = st ∧ ∀ v, getVarFromTeIfSimple x2 = Some v → ∃ v', resolveToRteVar v q st = Ok (v', st) ∧ (x1, Some v') ∈ info) as [-> Hi].
  { destruct (getVarFromTeIfSimple x2) as [v|]; [|by injection E1 as <- <-]. apply bind_inv in E1 as (v' & s & Er & [= <- <-]).
    pose proof (resolve_pure _ _ _ _ _ _ Er) as ->. split; [done|]. intros w [= <-]. exists v'. split; [done|]. set_solver. }
  apply IH in E2 as (-> & -> & IH2). split_and!; [done..|]. intros c r v [[= -> ->]|Hin]%elem_of_cons Hv.
  - destruct (Hi v Hv) as (v' & ? & ?). exists v'. set_solver.
  - destruct (IH2 c r v Hin Hv) as (v' & ? & ?). exists v'. set_solver.
Qed.

Lemma taken_spec ev args c r : taken ev args = Some (c, r) → ECaseWhen c r ∈ args ∧ is_true (ev c) = true.
Proof.
  induction args as [|x args IH]; [done|]. destruct x; try done. cbn [taken]. destruct (is_true (ev x1)) eqn:Ht; intros E.
  - injection E as <- <-. split; [set_solver|done].
  - apply IH in E as [? ?]. set_solver.
Qed.

Lemma all_false vs : vs ≠ [] → Forall (λ v : value, v = Some 0%Z) vs → connect 0 vs = Some 0%Z.
Proof. intros Hne Hv. destruct Hv as [|v vs -> _]; [done|]. cbn [connect]. by rewrite decide_True. Qed.

(** C19: the conditions recorded for a CASE cover its copies.  In every row, if the CASE takes a branch whose result is a column, the column, traced
    through the joins to the entry it comes from, is recorded with the condition of the branch, and this condition holds in the
    row; and if all conditions are false and ELSE is a column, a condition that holds is recorded for that column. *)
Theorem case_copies_recorded op_sem q ty args d st infos st' e :
  getCaseInfoIfSimple q (ECaseExpr ty args d) st = Ok (Some infos, st') →
  (∀ c r v, taken (eval_expr op_sem e) args = Some (c, r) → getVarFromTeIfSimple r = Some v →
     eval_expr op_sem e (ECaseExpr ty args d) = eval_expr op_sem e r ∧
     ∃ v', resolveToRteVar v q st = Ok (v', st) ∧ (c, Some v') ∈ infos ∧ eval_qual op_sem e (Some c) = true) ∧
  (∀ v, args ≠ [] → Forall (λ c, eval_expr op_sem e c = Some 0%Z) (conditions args) → d = Some (EVar v) →
     ∃ c, (c, Some v) ∈ infos ∧ eval_qual op_sem e (Some c) = true).
Proof.
  cbn [getCaseInfoIfSimple]. intros ([conds ci] & s1 & E1 & E)%bind_inv. apply case_branches_ok in E1 as (-> & -> & Hin). split.
  - intros c r v Ht Hv. cbn [eval_expr]. rewrite case_value_taken, Ht. split; [done|]. apply taken_spec in Ht as [Hi Hc].
    destruct (Hin c r v Hi Hv) as (v' & Er & Hi'). exists v'. split_and!; [done| |done].
    destruct ci as [|x ci]; [by apply elem_of_nil in Hi'|]. injection E as <- <-. set_solver.
  - intros v Hne Hall ->. cbn in E. exists (EBoolExpr NOT_EXPR [EBoolExpr AND_EXPR (conditions args)]). split.
    + destruct ci as [|x ci]; injection E as <- <-; set_solver.
    + cbn. rewrite all_false; [done| |by apply Forall_map]. by destruct args.
Qed.

(** ** Examples *)

(** [CASE WHEN 1.a = 1.b THEN 1.a WHEN 2.a = 2.b THEN 1.b ELSE 2.a END] *)
Definition case0 : Expr :=
  ECaseExpr 23 [ECaseWhen (eq0 (col 1 1) (col 1 2)) (EVar (col 1 1)); ECaseWhen (eq0 (col 2 1) (col 2 2)) (EVar (col 1 2))]
    (Some (EVar (col 2 1))).
Definition row0 (a b c d : value) (i : Z) : tuple := if decide (i = 1)%Z then [a; b] else [c; d].

Lemma case_copies_recorded_witness :
  ∃ infos v', getCaseInfoIfSimple (query0 JOIN_LEFT true) case0 start0 = Ok (Some infos, start0) ∧
    eval_expr ops0 (row0 (Some 1) (Some 2) (Some 3) (Some 3))%Z case0 = Some 2%Z ∧
    (eq0 (col 2 1) (col 2 2), Some v') ∈ infos ∧
    eval_qual ops0 (row0 (Some 1) (Some 2) (Some 3) (Some 3))%Z (Some (eq0 (col 2 1) (col 2 2))) = true.
Proof.
  destruct (case_copies_recorded ops0 (query0 JOIN_LEFT true) 23
    [ECaseWhen (eq0 (col 1 1) (col 1 2)) (EVar (col 1 1)); ECaseWhen (eq0 (col 2 1) (col 2 2)) (EVar (col 1 2))]
    (Some (EVar (col 2 1))) start0 _ start0 (row0 (Some 1) (Some 2) (Some 3) (Some 3))%Z ltac:(vm_compute; reflexivity)) as [H _].
  destruct (H (eq0 (col 2 1) (col 2 2)) (EVar (col 1 2)) (col 1 2) ltac:(vm_compute; reflexivity) ltac:(reflexivity)) as (Ev & v' & Hr & Hi & Hq).
  eexists _, v'. split; [vm_compute; reflexivity|]. split; [exact Ev|]. split; [exact Hi|exact Hq].
Defined.

(** The condition recorded for ELSE is NOT (both conditions): it holds although the first branch is taken; and it is not true, although
    ELSE is taken, if a condition is unknown. *)
Example case_else_condition_wrong :
  let else_cond := EBoolExpr NOT_EXPR [EBoolExpr AND_EXPR [eq0 (col 1 1) (col 1 2); eq0 (col 2 1) (col 2 2)]] in
  ∃ infos, getCaseInfoIfSimple (query0 JOIN_LEFT true) case0 start0 = Ok (Some infos, start0) ∧ (else_cond, Some (col 2 1)) ∈ infos ∧
    (eval_expr ops0 (row0 (Some 1) (Some 1) (Some 5) (Some 6)) case0, eval_qual ops0 (row0 (Some 1) (Some 1) (Some 5) (Some 6)) (Some else_cond))%Z
      = (Some 1%Z, true) ∧
    (eval_expr ops0 (row0 None (Some 1) (Some 5) None) case0, eval_qual ops0 (row0 None (Some 1) (Some 5) None) (Some else_cond))%Z
      = (Some 5%Z, false).
Proof.
  eexists. split; [vm_compute; reflexivity|]. split; [set_solver|]. split; vm_compute; reflexivity.
Qed.

End CopyCase.
