(* ===== verification/CopyProps.v ===== *)
(** * Properties of the copy maps

    What the generation and the analysis of copy maps guarantee for well-formed queries, and two conditions under which the analysis
    is wrong. *)

From Stdlib Require Import ZArith Lia.
From stdpp Require Import base strings numbers list sets gmap.
From S2P Require Import Prelude ProvStack AttrName QueryTree SqlSemantics SqlFacts Queries RewriteSPJ RewriteAggr RewriteMain.
From S2P Require Import ProvReplay RewriteProps CopyMap CopyGraph CopyFacts CopySound CopyQuery CopyExact CopyTerm.
Import QueryTree SqlSemantics SqlFacts Queries RewriteSPJ RewriteAggr RewriteMain ProvReplay RewriteProps.
Import CopyMap CopyGraph CopyFacts CopySound CopyQuery CopyExact CopyTerm.

Module CopyProps.

(** C16: copy maps are sound, under all four copy contribution semantics.  Where the map of a query says that an attribute of a base relation always
    is copied to a column of the query, through any number of subqueries, joins of every kind, equalities that always hold, GROUP BY
    columns and set operations, every row of the query has in this column the value of that attribute in the tuple of
    the relation that its witness has, unless the relation has no tuple in the witness (an outer join without match or
    the other side of a union). *)
Theorem copy_map_sound op_sem cat get_opcode contr q i st m st' db t w :
  equality_sound op_sem cat get_opcode → query_ok cat q = true → junk_last q = true →
  generateCopyMapForQueryNode cat get_opcode contr q i st = Ok (m, st') →
  fits cat db → (t, w) ∈ evalProv op_sem cat db q →
  Forall2 (sound_rel cat t) (certain m) (cut cat (accesses q) w).
Proof.
  intros Heq Hq Hj E Hdb Hx. destruct (generate_sound op_sem cat get_opcode contr Heq q Hq Hj i st m st' E) as [_ [_ H]].
  exact (H db Hdb t w Hx).
Qed.

(** Constants stay as they are. *)
#[export] Instance no_folding : ConstFolding := {| eval_const_expressions := id |}.

(** [=] on equal values. *)
Lemma equality_sound0 : equality_sound ops0 cat0 id.
Proof.
  intros ty eqop r op v w _ _ vs (z & E & Hz). destruct v as [a|], vs as [|? ?], w as [b|]; try done. cbn in E.
  unfold of_bool in E. case_bool_decide; [by subst|]. cbn in E. congruence.
Defined.

Definition map0 (contr : ContributionType) (q : Query) : CopyMap :=
  match generateCopyMapForQueryNode cat0 id contr q 1 start0 with Ok (m, _) => m | Err _ => QueryMap 0 [] [] end.
Definition end0 (contr : ContributionType) (q : Query) : rewriter :=
  match generateCopyMapForQueryNode cat0 id contr q 1 start0 with Ok (_, st) => st | Err _ => start0 end.

(** [x.a] is copied to the result, and [r.a] because of [x.a = sub.a]. *)
Lemma copy_map_sound_witness :
  certain (map0 CONTR_COPY_PARTIAL_TRANSITIVE (query0 JOIN_LEFT true)) = [[[1]; []]; [[1]; []]; [[]; []]]%Z ∧
  Forall2 (sound_rel cat0 [Some 2]%Z) [[[1]; []]; [[1]; []]; [[]; []]]%Z
    [(1, [Some 2; Some 6]); (1, [Some 2; Some 6]); (2, [None; None])]%Z.
Proof.
  split; [vm_compute; reflexivity|].
  apply (copy_map_sound ops0 cat0 id CONTR_COPY_PARTIAL_TRANSITIVE (query0 JOIN_LEFT true) 1 start0
    (map0 CONTR_COPY_PARTIAL_TRANSITIVE (query0 JOIN_LEFT true)) (end0 CONTR_COPY_PARTIAL_TRANSITIVE (query0 JOIN_LEFT true)) db0
    [Some 2]%Z [Some 2; Some 6; Some 2; Some 6; None; None]%Z).
  - exact equality_sound0.
  - vm_compute; reflexivity.
  - vm_compute; reflexivity.
  - vm_compute; reflexivity.
  - exact fits0.
  - apply (bool_decide_unpack _). vm_compute. exact I.
Defined.

(** C17: without transitivity the maps of every well-formed query are generated and analysed without an error, with an entry for each base
    relation the query reads, in order.  The analysis decides every entry: the relation's tuples contribute if one of its attributes (partial
    copy) or all of them (complete copy) always are copied to a column, and the relation is not rewritten otherwise.  The maps of the
    base relations, deep inside the query, get the same decisions. *)
Theorem copy_analysis_exact `{ConstFolding} cat get_opcode contr q st :
  IS_TRANSC contr = false → query_ok cat q = true → junk_last q = true →
  ∃ m m' s1, generateCopyMapForQueryNode cat get_opcode contr q 1 st = Ok (m, s1) ∧
    generateCopyMaps cat get_opcode contr q st = Ok (m', s1) ∧
    relation <$> entries m' = accesses q ∧
    flags <$> entries m' = (λ ccs, let c := contributes_copy contr ccs in (c, negb c)) <$> certain m ∧
    base_flags m' = flags <$> entries m'.
Proof.
  intros Hc Hq Hj. destruct (generate_plain cat get_opcode contr Hc q Hq 1 st) as (es & inputs & s1 & E & Hp).
  destruct (inferStaticCopy_ok contr 1 es inputs s1 Hp) as (m' & E' & Hrel & Hfl & Hb).
  exists (QueryMap 1 es inputs), m', s1. unfold generateCopyMaps. hrun E. split_and!; [done|exact E'| | |done].
  - rewrite Hrel. destruct (generate_sound (mkOps (λ _ _, None) (λ _ _, None) (λ _ _, None)) cat get_opcode contr) with (q := q) (i := 1%Z) (st := st)
      (m := QueryMap 1 es inputs) (st' := s1) as [Hs _]; [by intros ????????? (z & ? & _)|done..|].
    cbn [entries] in Hs. clear -Hs. induction Hs as [|i rel l es [E _] _ IH]; [done|]. csimpl. by rewrite IH, E.
  - rewrite Hfl, (certain_plain _ Hp). cbn [entries]. by rewrite <- list_fmap_compose.
Qed.

(** In [(r UNION s) EXCEPT ALL s], grouped by [a], the first two relations are copied in part and no relation completely. *)
Lemma copy_analysis_exact_witness :
  certain (map0 CONTR_COPY_PARTIAL_NONTRANSITIVE query3) = [[[1]; []]; [[1]; []]; [[]; []]]%Z ∧
  ∃ m m' s1, generateCopyMapForQueryNode cat0 id CONTR_COPY_PARTIAL_NONTRANSITIVE query3 1 start0 = Ok (m, s1) ∧
    generateCopyMaps cat0 id CONTR_COPY_PARTIAL_NONTRANSITIVE query3 start0 = Ok (m', s1) ∧
    relation <$> entries m' = accesses query3 ∧
    flags <$> entries m' = (λ ccs, let c := contributes_copy CONTR_COPY_PARTIAL_NONTRANSITIVE ccs in (c, negb c)) <$> certain m ∧
    base_flags m' = flags <$> entries m'.
Proof. split; [vm_compute; reflexivity|]. apply copy_analysis_exact; vm_compute; reflexivity. Defined.

(** C18: for every well-formed query and all four copy contribution semantics the generation and the analysis of the copy maps end, also where columns are
    compared in cycles: the resolution of columns through joins, the search for static connections in the graph of equal
    columns and the enumeration of the other paths never run forever. *)
Theorem copy_maps_end `{ConstFolding} cat get_opcode contr q st :
  query_ok cat q = true → generateCopyMaps cat get_opcode contr q st ≠ Err Hang.
Proof.
  intros Hq. apply (ends_bind (generateCopyMapForQueryNode cat get_opcode contr q 1) (inferStaticCopy contr)); [by apply generate_ends|].
  intros m s1 _. unfold inferStaticCopy. apply ends_bind; [apply infer_ends|]. by intros [] s2 _.
Qed.

(** [SELECT s.a FROM r, s, u WHERE r.a = s.a AND s.a = u.a AND u.a = r.a] has a cycle. *)
Definition where0 (cond : Expr) (sel : Var) : Query :=
  mkQuery CMD_SELECT false false [rel0 1 "r"; rel0 2 "s"; rel0 2 "u"] [RangeTblRef 1; RangeTblRef 2; RangeTblRef 3] (Some cond)
    [mkTE (EVar sel) 1 (Some "a") 0 0 0 false] [] None [] [] None None None false true.

Definition cycle0 : Query :=
  where0 (EBoolExpr AND_EXPR [eq0 (col 1 1) (col 2 1); eq0 (col 2 1) (col 3 1); eq0 (col 3 1) (col 1 1)]) (col 2 1).

Lemma copy_maps_end_witness :
  query_ok cat0 cycle0 = true ∧ generateCopyMaps cat0 id CONTR_COPY_PARTIAL_TRANSITIVE cycle0 start0 ≠ Err Hang.
Proof. split; [vm_compute; reflexivity|]. apply copy_maps_end. vm_compute; reflexivity. Defined.

(** ** Wrong decisions *)

Definition decisions (contr : ContributionType) (q : Query) : option (list (bool * bool)) :=
  match generateCopyMaps cat0 id contr q start0 with Ok (m, _) => Some (flags <$> entries m) | Err _ => None end.

(** the static connections depend on the order of the tables.  Where two columns are compared with a third one, all three are equal in every
    row.  If the third one is in the first table ([2.a = 1.a AND 3.a = 1.a], selecting [3.a]), the analysis finds that the column of table 2 always is copied
    to the result; if it is in the last table ([1.a = 3.a AND 2.a = 3.a], selecting [2.a]), it does not find this for table 1: the search
    from [3.a] marks the edges in both directions, and the search from [2.a] stops at the marked edge to [3.a] and never
    reaches [1.a]. *)
Theorem static_connection_missed :
  decisions CONTR_COPY_PARTIAL_TRANSITIVE
    (where0 (EBoolExpr AND_EXPR [eq0 (col 2 1) (col 1 1); eq0 (col 3 1) (col 1 1)]) (col 3 1)) =
    Some [(true, false); (true, false); (true, false)] ∧
  decisions CONTR_COPY_PARTIAL_TRANSITIVE
    (where0 (EBoolExpr AND_EXPR [eq0 (col 1 1) (col 3 1); eq0 (col 2 1) (col 3 1)]) (col 2 1)) =
    Some [(false, false); (true, false); (true, false)].
Proof. split; vm_compute; reflexivity. Qed.

(** [SELECT x FROM (SELECT r.a, s.a AS x FROM r, s WHERE r.a = s.a OR s.b = s.a) AS v] *)
Definition either0 : Query :=
  mkQuery CMD_SELECT false false [rel0 1 "r"; rel0 2 "s"] [RangeTblRef 1; RangeTblRef 2]
    (Some (EBoolExpr OR_EXPR [eq0 (col 1 1) (col 2 1); eq0 (col 2 2) (col 2 1)]))
    [mkTE (EVar (col 1 1)) 1 (Some "a") 0 0 0 false; mkTE (EVar (col 2 1)) 2 (Some "x") 0 0 0 false]
    [] None [] [] None None None false true.
Definition leak0 : Query :=
  mkQuery CMD_SELECT false false [subquery0 either0 "v" ["a"; "x"]] [RangeTblRef 1] None
    [mkTE (EVar (col 1 2)) 1 (Some "x") 0 0 0 false] [] None [] [] None None None false true.
Definition db1 (i : Z) : list tuple :=
  if decide (i = 1)%Z then [[Some 1; Some 2]]%Z else if decide (i = 2)%Z then [[Some 5; Some 5]]%Z else [].

(** A copy that depends on a condition is reported as one that always happens.  Inside the subquery [r.a] always is copied to column 1, and to
    column [x] only where [r.a = s.a]; outside only [x] is selected, and the analysis takes the mark "copied somewhere" of the
    attribute for its copy in [x]: it decides that [r] contributes to every row.  The row with [x = 5] has a witness
    with the tuple [(1, 2)] of [r], no value of which was copied. *)
Example conditional_copy_reported_static :
  decisions CONTR_COPY_PARTIAL_TRANSITIVE leak0 = Some [(true, false); (true, false)] ∧
  certain (map0 CONTR_COPY_PARTIAL_TRANSITIVE leak0) = [[[]; []]; [[1]; []]]%Z ∧
  evalProv ops0 cat0 db1 leak0 = [([Some 5], [Some 1; Some 2; Some 5; Some 5])]%Z.
Proof. split_and!; vm_compute; reflexivity. Qed.

End CopyProps.
