(* ===== verification/TransInfo.v ===== *)
(** * Static analysis for transformation provenance
      ([src/src/backend/provrewrite/transformationp/prov_trans_staticana.c],
       [src/src/backend/provrewrite/util/prov_algmap.c], the nodes of [src/src/include/provrewrite/prov_nodes.h])

    Transformation provenance tells which parts of a query (selections, projections, joins, accesses to relations, set operations, ...) took
    part in the computation of a result tuple.  The analysis numbers the parts, decides which of
    them are static, that is, take part in every tuple or in none, and computes the bit set of
    each part.

    The code hangs a [TransProvInfo] on every query node and links it into the tree of the query around it.  Here the infos of
    the subqueries are nodes of that tree; they are found by their range table index, as [getParentPointer] does. *)

From Stdlib Require Import ZArith Lia.
From stdpp Require Import base strings numbers list.
From S2P Require Import Prelude VarBit AttrName QueryTree RewriteSPJ CopyMap.
Import QueryTree RewriteSPJ CopyMap.

Module TransInfo.

(** ** Data *)

Inductive SubOperationType :=
  | SUBOP_Aggregation | SUBOP_Projection | SUBOP_Having | SUBOP_Selection
  | SUBOP_Join_Inner | SUBOP_Join_Left | SUBOP_Join_Right | SUBOP_Join_Full | SUBOP_Join_Cross
  | SUBOP_BaseRel | SUBOP_SetOp_Union | SUBOP_SetOp_Diff | SUBOP_SetOp_Intersect.

#[global] Instance SubOperationType_eq_dec : EqDecision SubOperationType.
Proof. solve_decision. Defined.

(** Annotations are not part of the model. *)
Inductive TransNode :=
  | TransSubInfo (id : Z) (isStatic : bool) (opType : SubOperationType) (children : list TransNode)
      (setForNode : option VarBit.VarBit) (rtIndex : Z)
  | TransProvInfo (isStatic : bool) (root : TransNode) (transProvAttrNum rtIndex : Z).

Definition TRANS_NO_RTINDEX : Z := -1.

Definition makeTransSubInfo (id : Z) (opType : SubOperationType) (children : list TransNode) (rtIndex : Z) : TransNode :=
  TransSubInfo id false opType children None rtIndex.

Definition TRANS_GET_RTINDEX (n : TransNode) : Z :=
  match n with TransSubInfo _ _ _ _ _ i => i | TransProvInfo _ _ _ i => i end.
Definition TRANS_GET_STATIC (n : TransNode) : bool :=
  match n with TransSubInfo _ b _ _ _ _ => b | TransProvInfo b _ _ _ => b end.

(** The bit set of the part at the root of a query. *)
Fixpoint root_set (n : TransNode) : option VarBit.VarBit :=
  match n with TransSubInfo _ _ _ _ s _ => s | TransProvInfo _ root _ _ => root_set root end.

(** ** Projections *)

Section analysis.
Context (cat : syscache).

Definition isVarRenamed (query : Query) (te : TargetEntry) (var : Var) : W bool :=
  rte ← deref (rt_fetch (varno var) (rtable query));
  '(names, _) ← expandRTEWithParam cat rte 0 0;
  resultname ← deref (resname te);
  origname ← deref (rt_fetch (varattno var) names);
  ret (negb (bool_decide (resultname = origname))).

(** The columns of the target list, or nothing if one of them is not a column, is there twice or has a new name. *)
Fixpoint kept_columns (query : Query) (tl : list TargetEntry) (vars : list Var) : W (option (list Var)) :=
  match tl with
  | [] => ret (Some vars)
  | te :: tl =>
      match getVarFromTeIfSimple (expr te) with
      | None => ret None
      | Some var =>
          if decide (var ∈ vars) then ret None
          else
            renamed ← isVarRenamed query te var;
            if renamed : bool then ret None
            else var ← resolveToRteVar var query; kept_columns query tl (vars ++ [var])
      end
  end.

(** Is a column of an entry missing? *)
Fixpoint column_missing (rtes : list RangeTblEntry) (i : Z) (vars : list Var) : W bool :=
  match rtes with
  | [] => ret false
  | rte :: rtes =>
      if decide (rtekind rte = RTE_JOIN) then column_missing rtes (i + 1) vars
      else
        '(_, rteVars) ← expandRTEWithParam cat rte (i + 1) 0;
        if forallb (λ v, bool_decide (v ∈ vars)) rteVars then column_missing rtes (i + 1) vars else ret true
  end.

Definition isProjection (query : Query) : W bool :=
  vars ← kept_columns query (targetList query) [];
  match vars with None => ret true | Some vars => column_missing (rtable query) 0 vars end.

Fixpoint getAggrExprs (node : Expr) : list Expr :=
  match node with
  | EVar _ | EConst _ _ _ => []
  | EOpExpr _ _ args | EBoolExpr _ args | EDistinctExpr _ _ args | EFuncExpr _ _ _ args => concat (map getAggrExprs args)
  | EAggref _ _ _ _ _ _ => [node]
  | ERelabelType x _ _ _ | ENullTest _ x => getAggrExprs x
  | ECaseExpr _ args d => concat (map getAggrExprs args) ++ match d with Some d => getAggrExprs d | None => [] end
  | ECaseWhen c r => getAggrExprs c ++ getAggrExprs r
  end.

(** An aggregate of something other than a column. *)
Fixpoint computed_argument (aggs : list Expr) : W bool :=
  match aggs with
  | EAggref _ _ args _ aggstar _ :: aggs =>
      if aggstar : bool then computed_argument aggs
      else arg ← deref (head args); match arg with EVar _ => computed_argument aggs | _ => ret true end
  | _ => ret false
  end.

Definition isProjectionUnderAgg (query : Query) : W bool :=
  computed_argument (concat ((λ te, getAggrExprs (expr te)) <$> targetList query)).

Definition isProjectionOverAgg (query : Query) : bool :=
  existsb (λ te, match expr te with EAggref _ _ _ _ _ _ | EVar _ => false | _ => true end) (targetList query).

(** ** The tree of a query *)

(** The part of a subquery, given its range table index and the next free number. *)
Abbreviation subtree := (Z → Z → W (TransNode * Z)).

Definition analyseRte (rte : RangeTblEntry) (sub : option subtree) (curId rtIndex : Z) : W (option TransNode * Z) :=
  match rtekind rte with
  | RTE_RELATION => ret (Some (makeTransSubInfo curId SUBOP_BaseRel [] rtIndex), curId + 1)%Z
  | RTE_SUBQUERY => sub ← deref sub; '(info, curId) ← sub rtIndex curId; ret (Some info, curId)
  | _ => ret (None, curId)
  end.

Definition join_op (jt : JoinType) : SubOperationType :=
  match jt with
  | JOIN_INNER => SUBOP_Join_Inner | JOIN_LEFT => SUBOP_Join_Left
  | JOIN_RIGHT => SUBOP_Join_Right | JOIN_FULL => SUBOP_Join_Full
  end.

Fixpoint analyseJoinTreeNode (rt : list RangeTblEntry) (subs : list (option subtree)) (join : Node) (curId : Z)
    : W (option TransNode * Z) :=
  match join with
  | JoinExpr jt larg rarg _ i =>
      '(l, id1) ← analyseJoinTreeNode rt subs larg (curId + 1);
      '(r, id2) ← analyseJoinTreeNode rt subs rarg id1;
      ret (Some (makeTransSubInfo curId (join_op jt) (option_list l ++ option_list r) i), id2)
  | RangeTblRef i =>
      rte ← deref (rt_fetch i rt);
      sub ← deref (rt_fetch i subs);
      analyseRte rte sub curId i
  end.

Fixpoint analyse_items (rt : list RangeTblEntry) (subs : list (option subtree)) (from : list Node) (curId : Z)
    : W (list TransNode * Z) :=
  match from with
  | [] => ret ([], curId)
  | n :: from =>
      '(t, curId) ← analyseJoinTreeNode rt subs n curId;
      '(ts, curId) ← analyse_items rt subs from curId;
      ret (option_list t ++ ts, curId)
  end.

Definition setop_op (op : SetOperation) : SubOperationType :=
  match op with
  | SETOP_UNION => SUBOP_SetOp_Union | SETOP_INTERSECT => SUBOP_SetOp_Intersect | SETOP_EXCEPT => SUBOP_SetOp_Diff
  end.

Fixpoint analyseOneSetOp (rt : list RangeTblEntry) (subs : list (option subtree)) (node : SetOpNode) (curId : Z)
    : W (option TransNode * Z) :=
  match node with
  | SetOperationStmt op _ larg rarg =>
      '(l, id1) ← analyseOneSetOp rt subs larg (curId + 1);
      '(r, id2) ← analyseOneSetOp rt subs rarg id1;
      ret (Some (makeTransSubInfo curId (setop_op op) (option_list l ++ option_list r) TRANS_NO_RTINDEX), id2)
  | SetOpRef i =>
      rte ← deref (rt_fetch i rt);
      sub ← deref (rt_fetch i subs);
      analyseRte rte sub curId i
  end.

(** The parts above the joins are a chain, from the root down; [ADD_NODE_TO_TRANS] puts a new part under the last one. *)
Abbreviation chain := (list (Z * SubOperationType)).

Definition ADD_NODE_TO_TRANS (add : bool) (op : SubOperationType) (c : chain * Z) : chain * Z :=
  if add then (c.1 ++ [(c.2, op)], c.2 + 1)%Z else c.

Definition analyseSelection (query : Query) (c : chain * Z) : chain * Z :=
  ADD_NODE_TO_TRANS (match quals query with None | Some (EConst _ _ _) => false | _ => true end) SUBOP_Selection c.

Definition analyseProjection (query : Query) (c : chain * Z) : W (chain * Z) :=
  p ← (if hasAggs query then ret false else isProjection query);
  p ← (if p : bool then ret true else isProjectionUnderAgg query);
  ret (analyseSelection query (ADD_NODE_TO_TRANS p SUBOP_Projection c)).

Definition analyseAgg (query : Query) (curId : Z) : W (chain * Z) :=
  let c := ([], curId) in
  let c := if hasAggs query then
             let c := ADD_NODE_TO_TRANS (isProjectionOverAgg query) SUBOP_Projection c in
             let c := ADD_NODE_TO_TRANS (match havingQual query with None => false | Some _ => true end) SUBOP_Having c in
             ADD_NODE_TO_TRANS true SUBOP_Aggregation c
           else c in
  analyseProjection query c.

Fixpoint close_chain (c : chain) (last : TransNode) : TransNode :=
  match c with [] => last | (id, op) :: c => makeTransSubInfo id op [close_chain c last] TRANS_NO_RTINDEX end.

(** The root of a query without a part of its own is the info of the subquery it reads, which has to be the first entry of the range
    table ([handleDummyQueryNode]); every other entry has no info. *)
Definition root_of (parts : list TransNode) : W TransNode :=
  match parts with
  | [TransSubInfo _ _ _ _ _ _ as n] => ret n
  | [TransProvInfo _ _ _ i as n] => if decide (i = 1)%Z then ret n else throw Segv
  | _ => throw Segv
  end.

Definition analyseJoinTree (query : Query) (subs : list (option subtree)) (c : chain * Z) : W (TransNode * Z) :=
  let c := ADD_NODE_TO_TRANS (match c.1, fromlist query with [], _ :: _ :: _ => true | _, _ => false end) SUBOP_Join_Cross c in
  '(parts, curId) ← analyse_items (rtable query) subs (fromlist query) c.2;
  match reverse c.1 with
  | [] => root ← root_of parts; ret (root, curId)
  | (id, op) :: above => ret (close_chain (reverse above) (makeTransSubInfo id op parts TRANS_NO_RTINDEX), curId)
  end.

Fixpoint analyseOneQueryNode (query : Query) : subtree := λ rtIndex curId,
  let subs := map (λ rte, match subquery rte with Some q => Some (analyseOneQueryNode q) | None => None end) (rtable query) in
  '(root, curId) ←
    match setOperations query with
    | Some t =>
        '(part, curId) ← analyseOneSetOp (rtable query) subs t curId;
        root ← root_of (option_list part); ret (root, curId)
    | None => c ← analyseAgg query curId; analyseJoinTree query subs c
    end;
  ret (TransProvInfo false root 0 rtIndex, curId).

(** ** Static parts *)

(** Parts that take part in every tuple, if the parts below do. *)
Definition static_op (op : SubOperationType) : bool :=
  match op with
  | SUBOP_Selection | SUBOP_Projection | SUBOP_Join_Inner | SUBOP_Aggregation | SUBOP_Having | SUBOP_BaseRel
  | SUBOP_SetOp_Intersect | SUBOP_Join_Cross => true
  | _ => false
  end.

(** A difference has two children; it is static if the left one is. *)
Fixpoint checkStatic (n : TransNode) : TransNode :=
  match n with
  | TransProvInfo _ root a i =>
      let root := checkStatic root in TransProvInfo (TRANS_GET_STATIC root) root a i
  | TransSubInfo id _ op children s i =>
      let children := map checkStatic children in
      let isStatic := match op, children with
                      | SUBOP_SetOp_Diff, l :: _ => TRANS_GET_STATIC l
                      | _, _ => static_op op && forallb TRANS_GET_STATIC children
                      end in
      TransSubInfo id isStatic op children s i
  end.

(** ** Bit sets *)

Definition lift {A} (o : outcome A) : W A := match o with Ok a => ret a | Err e => throw e end.

(** The set of a static part contains the sets of its children; of a difference only the first child. *)
Fixpoint computeSets (numNodes : Z) (n : TransNode) : W (TransNode * VarBit.VarBit) :=
  match n with
  | TransProvInfo b root a i => '(root, set) ← computeSets numNodes root; ret (TransProvInfo b root a i, set)
  | TransSubInfo id isStatic op children _ i =>
      set ← lift (VarBit.generateVarbitSetElem numNodes id);
      '(children, set) ←
        (fix go (first : bool) (l : list TransNode) (set : VarBit.VarBit) : W (list TransNode * VarBit.VarBit) :=
           match l with
           | [] => ret ([], set)
           | c :: l =>
               '(c, childSet) ← computeSets numNodes c;
               set ← (if isStatic && (negb (bool_decide (op = SUBOP_SetOp_Diff)) || first)
                      then lift (VarBit.varBitOr set childSet) else ret set);
               '(l, set) ← go false l set;
               ret (c :: l, set)
           end) true children set;
      ret (TransSubInfo id isStatic op children (Some set) i, set)
  end.

Definition analyseStaticTransProv (query : Query) : W TransNode :=
  '(info, numNodes) ← analyseOneQueryNode query TRANS_NO_RTINDEX 1;
  '(info, _) ← computeSets (numNodes - 1) (checkStatic info);
  ret info.

End analysis.

End TransInfo.
