(* ===== verification/TransRewrite.v ===== *)
(** * The rewriter for transformation provenance
      ([src/src/backend/provrewrite/transformationp/prov_trans_main.c],
       [src/src/backend/provrewrite/transformationp/prov_trans_aggr.c],
       [src/src/backend/provrewrite/transformationp/prov_trans_util.c],
       [src/src/backend/provrewrite/transformationp/prov_trans_set.c])

    Every query node gets one more column, the bit set of the parts that took part in the row.  The column of a static
    query is a constant; otherwise it is computed from the columns of the subqueries and the sets of the
    parts of the node, with a CASE that leaves out the side of an outer join that has no match.

    A query node is changed in place or replaced; the functions return what becomes of their argument, the new query and its info.  The
    functions that register the query for the display of bit sets are operations of a class. *)

From Stdlib Require Import ZArith Lia.
From stdpp Require Import base strings numbers list countable.
From S2P Require Import Prelude VarBit AttrName QueryTree Sublevels RewriteSPJ JoinBuild RewriteAggr RewriteSet CopyMap TransInfo.
Import QueryTree Sublevels RewriteSPJ JoinBuild RewriteAggr RewriteSet CopyMap TransInfo.

Module TransRewrite.

Definition VARBITOID : Z := 1562.
Definition BITOID : Z := 1560.
Definition TEXTOID : Z := 25.
Definition F_BITOR : Z := 1674.
Definition F_BITOR_WITH_NULL : Z := 3776.
Definition F_RECONSTRUCTTRANSTOSQL : Z := 3778.
Definition F_RECONSTRUCTMAP : Z := 3780.

(** ** Bit sets in expressions *)

(** Data are numbers; a bit set is encoded as one. *)
Definition varbit_datum (v : VarBit.VarBit) : Z := Z.pos (encode (VarBit.bit_len v, VarBit.bit_dat v)).
Definition datum_varbit (d : Z) : option VarBit.VarBit :=
  match d with
  | Z.pos p => '(l, b) ← (decode p : option (Z * list Z)); Some (VarBit.mkVarBit l b)
  | _ => None
  end%stdpp.

Definition MAKE_VARBIT_CONST (set : option VarBit.VarBit) : W Expr :=
  set ← deref set;
  ret (ERelabelType (EConst BITOID (-1) (Some (varbit_datum set))) VARBITOID (-1) COERCE_EXPLICIT_CAST).

Definition MAKE_SETOR_FUNC (args : list Expr) : Expr := EFuncExpr F_BITOR_WITH_NULL VARBITOID COERCE_EXPLICIT_CALL args.

Definition MAKE_SETOR_FUNC_NO_NULL (args : list Expr) : Expr := EFuncExpr F_BITOR VARBITOID COERCE_EXPLICIT_CALL args.

Definition MAKE_TRANS_PROV_ATTR (query : Query) (bitComp : Expr) : W TargetEntry :=
  name ← uniqueAttrName "trans_prov";
  ret (makeTargetEntry bitComp (Z.of_nat (length (targetList query)) + 1) (Some name) false).

(** [bitor_with_null(arg1, bitor_with_null(arg2, ...))] *)
Fixpoint createBitorExpr (args : list Expr) : Expr :=
  match args with
  | a :: ((_ :: _ :: _) as rest) => MAKE_SETOR_FUNC [a; createBitorExpr rest]
  | _ => MAKE_SETOR_FUNC args
  end.

Definition set_attrNum (n : Z) (info : TransNode) : TransNode :=
  match info with TransProvInfo b root _ i => TransProvInfo b root n i | _ => info end.

(** Append the column to the target list and note its number. *)
Definition add_trans_attr (query : Query) (bitComp : Expr) (info : TransNode) : W (Query * TransNode) :=
  newTarget ← MAKE_TRANS_PROV_ATTR query bitComp;
  let tl := targetList query ++ [newTarget] in
  ret (set_targetList tl query, set_attrNum (Z.of_nat (length tl)) info).

Definition addStaticTransProvAttr (query : Query) (info : TransNode) : W (Query * TransNode) :=
  c ← MAKE_VARBIT_CONST (root_set info);
  add_trans_attr query c info.

(** ** Infos of subqueries *)

(** The info with the range table index, without looking below other infos ([getParentPointer]). *)
Fixpoint find_info (i : Z) (n : TransNode) : option TransNode :=
  match n with
  | TransProvInfo _ _ _ j => if decide (j = i) then Some n else None
  | TransSubInfo _ _ _ children _ _ =>
      (fix go (l : list TransNode) : option TransNode :=
         match l with [] => None | c :: l => match find_info i c with Some r => Some r | None => go l end end) children
  end.

Fixpoint replace_info (i : Z) (new n : TransNode) : TransNode :=
  match n with
  | TransProvInfo _ _ _ j => if decide (j = i) then new else n
  | TransSubInfo id b op children s k => TransSubInfo id b op (map (replace_info i new) children) s k
  end.

(** The column of a subquery, or its constant set. *)
Definition getSubqueryTransProvAttr (query : Query) (info : TransNode) : W Expr :=
  match info with
  | TransProvInfo isStatic _ attrNum rtIndex =>
      rte ← deref (rt_fetch rtIndex (rtable query));
      sub ← deref (subquery rte);
      if isStatic then MAKE_VARBIT_CONST (root_set info)
      else
        te ← deref (rt_fetch attrNum (targetList sub));
        ret (EVar (makeVar rtIndex attrNum (exprType (expr te)) (exprTypmod (expr te)) 0))
  | TransSubInfo _ _ _ _ _ _ => throw Segv
  end.

Definition getSubqueryTransProvUnionSet (query : Query) (info : TransNode) (bitset : option VarBit.VarBit) : W Expr :=
  var ← getSubqueryTransProvAttr query info;
  c ← MAKE_VARBIT_CONST bitset;
  ret (MAKE_SETOR_FUNC [c; var]).

(** ** Select-project-join *)

Section rewriter.
Context (cat : syscache) (prov_use_set_optimization prov_use_wl_union_semantics : bool).

(** [CASE WHEN first column IS NULL THEN NULL ELSE comp END] *)
Definition wrapElementComp (query : Query) (child : TransNode) (comp : Expr) : W Expr :=
  let rtIndex := TRANS_GET_RTINDEX child in
  rte ← deref (rt_fetch rtIndex (rtable query));
  '(_, rteVars) ← expandRTEWithParam cat rte rtIndex 0;
  childVar ← deref (head rteVars);
  ret (ECaseExpr VARBITOID [ECaseWhen (ENullTest IS_NULL (EVar childVar)) (makeNullConst VARBITOID (-1))] (Some comp)).

(** Wrap the computation at a position. *)
Definition wrap_at (query : Query) (elem : nat) (children : list TransNode) (comps : list Expr) : W (list Expr) :=
  child ← deref (children !! elem);
  comp ← deref (comps !! elem);
  comp ← wrapElementComp query child comp;
  ret (<[elem := comp]> comps).

Definition wrapChildComps (query : Query) (op : SubOperationType) (children : list TransNode) (comps : list Expr) : W (list Expr) :=
  match op with
  | SUBOP_Join_Left => wrap_at query 1 children comps
  | SUBOP_Join_Right => wrap_at query 0 children comps
  | SUBOP_Join_Full => comps ← wrap_at query 0 children comps; wrap_at query 1 children comps
  | _ => ret comps
  end.

Fixpoint buildBitsetComputationForQueryNode (query : Query) (node : TransNode) : W Expr :=
  match node with
  | TransProvInfo _ _ _ _ => getSubqueryTransProvAttr query node
  | TransSubInfo _ isStatic op children set _ =>
      if isStatic then MAKE_VARBIT_CONST set
      else
        comps ← (fix go (l : list TransNode) : W (list Expr) :=
                   match l with
                   | [] => ret []
                   | c :: l => comp ← buildBitsetComputationForQueryNode query c; rest ← go l; ret (comp :: rest)
                   end) children;
        c ← MAKE_VARBIT_CONST set;
        args ← wrapChildComps query op children (comps ++ [c]);
        ret (match args with [a] => a | _ => createBitorExpr args end)
  end.

(** What becomes of the argument, the result and its info. *)
Abbreviation result := (Query * Query * TransNode)%type.

(** An info of a subquery that is no longer part of the tree of the query around it. *)
Fixpoint find_lost (i : Z) (lost : list TransNode) : option TransNode :=
  match lost with [] => None | n :: lost => match find_info i n with Some r => Some r | None => find_lost i lost end end.

(** Rewrite a subquery, with its own info: [correctRTEAlias] runs while the entry still refers to the old query node. *)
Definition rewrite_sub (rewrite : bool → Query → TransNode → W result) (lost : list TransNode) (rte : RangeTblEntry) (rtindex : Z)
    (root : TransNode) : W (RangeTblEntry * TransNode) :=
  match rtekind rte with
  | RTE_SUBQUERY =>
      sub ← deref (subquery rte);
      '(link, info) ← deref (match find_info rtindex root with
                             | Some info => Some (true, info)
                             | None => pair false <$> find_lost rtindex lost
                             end);
      '(arg, new, info) ← rewrite link sub info;
      rte ← correctRTEAlias (set_subquery (Some arg) rte);
      ret (set_subquery (Some new) rte, replace_info rtindex info root)
  | _ => ret (rte, root)
  end.

Fixpoint rewrite_subs (rewrite : bool → Query → TransNode → W result) (lost : list TransNode) (rtes : list RangeTblEntry) (i : Z)
    (root : TransNode) : W (list RangeTblEntry * TransNode) :=
  match rtes with
  | [] => ret ([], root)
  | rte :: rtes =>
      '(rte, root) ← rewrite_sub rewrite lost rte i root;
      '(rtes, root) ← rewrite_subs rewrite lost rtes (i + 1) root;
      ret (rte :: rtes, root)
  end.

Definition rewriteTransSPJ (rewrite : bool → Query → TransNode → W result) (lost : list TransNode) (query : Query) (info : TransNode)
    : W result :=
  match info with
  | TransProvInfo b root a i =>
      '(rtes, root) ← rewrite_subs rewrite lost (rtable query) 1 root;
      let query := set_rtable rtes query in
      bitSetComp ← buildBitsetComputationForQueryNode query root;
      '(query, info) ← add_trans_attr query bitSetComp (TransProvInfo b root a i);
      ret (query, query, info)
  | TransSubInfo _ _ _ _ _ _ => throw Segv
  end.

(** ** Static set operations *)

(** The new top query has the set operation in its range table; the columns of its first input are appended to the set
    operation itself. *)
Definition rewriteStaticSetOp (query : Query) (info : TransNode) : W result :=
  match info with
  | TransProvInfo b root a i =>
      name ← uniqueRelName "originalSet";
      query ← addSubqueryTargetListToTargetList query 1;
      let newTop := addSubqueryToRT makeQuery query name in
      let topInfo := TransProvInfo b (TransProvInfo b root a 1) 0 i in
      '(newTop, topInfo) ← addStaticTransProvAttr newTop topInfo;
      ret (query, newTop, topInfo)
  | TransSubInfo _ _ _ _ _ _ => throw Segv
  end.

(** ** Aggregation *)

(** The top part of the query becomes the root of a new top query; of the parts below it the first one stays with the query without
    aggregation, the others are lost.  The original query is entry 1 and the query without aggregation entry 2. *)
Definition rewriteTransAgg (rewrite : list TransNode → Query → TransNode → W result) (query : Query) (info : TransNode) : W result :=
  match info with
  | TransProvInfo b (TransSubInfo aid ab aop (first :: lost) aset ai) a i =>
      let groupByTles := getGroupByTLEs query in
      '(newRewriteQuery, _) ← rewriteAggrSubqueryForRewrite
        (mkQuery (commandType query) (hasAggs query) (hasSubLinks query) (rtable query) (fromlist query) (quals query)
           (targetList query) (groupClause query) (havingQual query) (distinctClause query) (sortClause query) None None
           (setOperations query) (provSublinkRewritten query) (shouldRewrite query)) false;
      newTopQuery ← checkOrderClause makeQuery query;
      name ← uniqueRelName "originalAggr";
      newTopQuery ← addSubqueryTargetListToTargetList (addSubqueryToRT newTopQuery query name) 1;
      '(newTopQuery, newRewriteQuery) ← addJoinOnAttributes cat newTopQuery groupByTles newRewriteQuery;
      '(_, newRewriteQuery, subInfo) ← rewrite lost newRewriteQuery (TransProvInfo b first a 2);
      name ← uniqueRelName "rewrittenAggrSubquery";
      newTopQuery ← correctSubQueryAlias (addSubqueryToRT newTopQuery newRewriteQuery name);
      let newTopQuery := set_rtable (rtable newTopQuery ++ [set_jointype JOIN_LEFT (makeRte RTE_JOIN)]) newTopQuery in
      let newTopQuery := map_subquery (with_rewrite false) 1 (map_subquery (with_rewrite false) 2 newTopQuery) in
      join ← deref (head (fromlist newTopQuery));
      newTopQuery ← adaptRTEsForJoins cat [join] newTopQuery "joinAggAndRewrite";
      comp ← getSubqueryTransProvUnionSet newTopQuery subInfo aset;
      '(newTopQuery, topInfo) ←
        add_trans_attr newTopQuery comp (TransProvInfo b (TransSubInfo aid ab aop [subInfo] aset ai) 0 i);
      query ← (rte ← deref (rt_fetch 1 (rtable newTopQuery)); deref (subquery rte));
      ret (query, newTopQuery, topInfo)
  | _ => throw Segv
  end.

(** ** Set operations that are not static *)

(** *** The layout of the two structs

    The code writes the new range table indexes of the infos through pointers of the wrong type, so the layout matters: 64-bit pointers, every field at the
    next multiple of its size. *)

Abbreviation layout := (list (string * Z)).

Definition TransSubInfo_layout : layout :=
  [("type", 4); ("id", 4); ("isStatic", 1); ("opType", 4); ("children", 8); ("setForNode", 8); ("rtIndex", 4); ("annot", 8)]%Z.
Definition TransProvInfo_layout : layout :=
  [("type", 4); ("isStatic", 1); ("root", 8); ("transProvAttrNum", 4); ("rtIndex", 4)]%Z.

Definition align (n size : Z) : Z := ((n + size - 1) / size * size)%Z.

Fixpoint offset_from (o : Z) (fs : layout) (f : string) : option Z :=
  match fs with
  | [] => None
  | (name, size) :: fs => if decide (name = f) then Some (align o size) else offset_from (align o size + size)%Z fs f
  end.
Definition offset_of : layout → string → option Z := offset_from 0.

(** The end of the last field; both structs have pointers. *)
Definition size_of (fs : layout) : Z := align (foldl (λ o f, align o f.2 + f.2)%Z 0%Z fs) 8.

Definition layout_of (n : TransNode) : layout :=
  match n with TransSubInfo _ _ _ _ _ _ => TransSubInfo_layout | TransProvInfo _ _ _ _ => TransProvInfo_layout end.

Definition with_rtIndex (i : Z) (n : TransNode) : TransNode :=
  match n with
  | TransSubInfo id b op children s _ => TransSubInfo id b op children s i
  | TransProvInfo b root a _ => TransProvInfo b root a i
  end.

(** [((cast * ) n)->rtIndex = i]: beyond the end of the node, or in its own field; a node whose other fields are overwritten cannot be used any more. *)
Definition write_rtIndex (cast : layout) (n : TransNode) (i : Z) : W TransNode :=
  off ← deref (offset_of cast "rtIndex");
  if decide (size_of (layout_of n) < off + 4)%Z then throw Overflow
  else if decide (offset_of (layout_of n) "rtIndex" = Some off) then ret (with_rtIndex i n)
  else throw Segv.

(** [if (IsA(setOpInfo, TransSubInfo)) ((TransProvInfo * ) setOpInfo)->rtIndex = ...]: the casts are the wrong way round. *)
Definition write_rtIndex_swapped (n : TransNode) : Z → W TransNode :=
  write_rtIndex (match n with TransSubInfo _ _ _ _ _ _ => TransProvInfo_layout | TransProvInfo _ _ _ _ => TransSubInfo_layout end) n.
Definition TRANS_SET_RTINDEX (n : TransNode) : Z → W TransNode := write_rtIndex (layout_of n) n.

(** *** Spreading a set operation over several query nodes *)

(** [findSetOpInfo]: the infos under the operations, from left to right. *)
Fixpoint set_infos (n : TransNode) : list TransNode :=
  match n with TransSubInfo _ _ _ children _ _ => concat (map set_infos children) | TransProvInfo _ _ _ _ => [n] end.

Definition findSetOpInfo (n : TransNode) : W (list TransNode) :=
  match n with TransSubInfo _ _ _ _ _ _ => ret (set_infos n) | TransProvInfo _ _ _ _ => throw Segv end.

(** Write the numbers from [k] up to [last] to these infos; the next number is returned. *)
Fixpoint number_infos (write : TransNode → Z → W TransNode) (last : Z) (n : TransNode) (k : Z) : W (TransNode * Z) :=
  match n with
  | TransProvInfo _ _ _ _ => if decide (k ≤ last)%Z then n ← write n k; ret (n, k + 1)%Z else ret (n, k)
  | TransSubInfo id b op children s i =>
      '(children, k) ←
        (fix go (l : list TransNode) (k : Z) : W (list TransNode * Z) :=
           match l with
           | [] => ret ([], k)
           | c :: l => '(c, k) ← number_infos write last c k; '(l, k) ← go l k; ret (c :: l, k)
           end) children k;
      ret (TransSubInfo id b op children s i, k)
  end.

(** The numbers from [k] up to [last] for the references. *)
Fixpoint number_refs_to (last : Z) (t : SetOpNode) (k : Z) : SetOpNode * Z :=
  match t with
  | SetOpRef i => if decide (k ≤ last)%Z then (SetOpRef k, k + 1)%Z else (t, k)
  | SetOperationStmt op all l r =>
      let '(l, k) := number_refs_to last l k in
      let '(r, k) := number_refs_to last r k in
      (SetOperationStmt op all l r, k)
  end.

(** The part of the operation at a path, and another one in its place. *)
Fixpoint info_at (p : path) (n : TransNode) : option TransNode :=
  match p, n with
  | [], _ => Some n
  | b :: p, TransSubInfo _ _ _ (l :: r :: _) _ _ => info_at p (if b then r else l)
  | _, _ => None
  end.

Fixpoint replace_part (p : path) (new n : TransNode) : TransNode :=
  match p, n with
  | [], _ => new
  | b :: p, TransSubInfo id st op (l :: r :: rest) s i =>
      TransSubInfo id st op (if b then l :: replace_part p new r :: rest else replace_part p new l :: r :: rest) s i
  | _, _ => n
  end.

(** Move the subtree at [p], with its parts, to a query node of its own.  The lists of references and infos are traversed in parallel, up to the end of the shorter one. *)
Definition replaceSetOperatorSubtree (query : Query) (info : TransNode) (p : path) : W (Query * TransNode) :=
  match info with
  | TransProvInfo b root a i =>
      tree ← deref (setOperations query);
      setOp ← deref (subtree p tree);
      nodeInfo ← deref (info_at p root);
      '(subTreeRTEs, _) ← findSetOpRTEs (rtable query) setOp;
      subTreeInfos ← findSetOpInfo nodeInfo;
      let last := Z.min (Z.of_nat (length (getSetOpRTRefs setOp))) (Z.of_nat (length subTreeInfos)) in
      '(nodeInfo, _) ← number_infos write_rtIndex_swapped last nodeInfo 1;
      let newSub := increaseSublevelsUp (-1) (with_set subTreeRTEs (number_refs_to last setOp 1).1 query) in
      let query := addSubqueryToRTWithParam query newSub "newSub" true in
      let tree := replace p (SetOpRef (Z.of_nat (length (rtable query)))) tree in
      let root := replace_part p (TransProvInfo b nodeInfo a i) root in
      queryInfos ← findSetOpInfo root;
      let queryRTrefs := getSetOpRTRefs tree in
      let last := Z.min (Z.of_nat (length queryRTrefs)) (Z.of_nat (length queryInfos)) in
      newRtable ← fetch_all (rtable query) (take (Z.to_nat last) queryRTrefs);
      '(root, _) ← number_infos TRANS_SET_RTINDEX last root 1;
      ret (with_set newRtable (number_refs_to last tree 1).1 query, TransProvInfo b root a i)
  | TransSubInfo _ _ _ _ _ _ => throw Segv
  end.

Definition replace_if_stmt (p : path) (s : Query * TransNode) : W (Query * TransNode) :=
  if is_stmt (setOperations s.1 ≫= subtree p) then replaceSetOperatorSubtree s.1 s.2 p else ret s.

(** One unit of fuel per level of the tree. *)
Fixpoint restructureSetOperationQueryNode (fuel : nat) (s : Query * TransNode) (p : path) (rootType : SetOperation) : W (Query * TransNode) :=
  match fuel with
  | O => throw Hang
  | S fuel =>
      tree ← deref (setOperations s.1);
      node ← deref (subtree p tree);
      match node with
      | SetOpRef _ => ret s
      | SetOperationStmt op _ _ _ =>
          s ← (if prov_use_set_optimization then ret s else s ← replace_if_stmt (p ++ [false]) s; replace_if_stmt (p ++ [true]) s);
          match op with
          | SETOP_UNION | SETOP_INTERSECT =>
              if decide (op = rootType) then
                s ← restructureSetOperationQueryNode fuel s (p ++ [false]) rootType;
                restructureSetOperationQueryNode fuel s (p ++ [true]) rootType
              else replaceSetOperatorSubtree s.1 s.2 p
          | SETOP_EXCEPT =>
              if decide (rootType = SETOP_EXCEPT) then
                s ← replace_if_stmt (p ++ [false]) s; replace_if_stmt (p ++ [true]) s
              else replaceSetOperatorSubtree s.1 s.2 p
          end
      end
  end.

(** [Index] is unsigned: a missing index is the largest one. *)
Definition reduce_index (i : Z) : Z := if decide (1 < wrap_u 32 i)%Z then (i - 2)%Z else i.

Fixpoint reduceRtindexForTrans (n : TransNode) : TransNode :=
  match n with
  | TransSubInfo id b op children s i => TransSubInfo id b op (map reduceRtindexForTrans children) s (reduce_index i)
  | TransProvInfo b root a i => TransProvInfo b root a (reduce_index i)
  end.

(** Rewrite the inputs; of a difference only the left one if the alternative semantics is on. *)
Fixpoint rewriteUsingSubInfo (rewrite : Query → TransNode → W result) (offset : Z) (setInfo : TransNode) (query : Query)
    : W (Query * TransNode) :=
  match setInfo with
  | TransProvInfo b root a i =>
      let rtIndex := (i + offset)%Z in
      rte ← deref (rt_fetch rtIndex (rtable query));
      sub ← deref (subquery rte);
      '(arg, new, info) ← rewrite sub (TransProvInfo b root a rtIndex);
      rte ← correctRTEAlias (set_subquery (Some arg) rte);
      ret (set_rtable (rt_update rtIndex (set_subquery (Some new) rte) (rtable query)) query, info)
  | TransSubInfo id b op children s i =>
      '(query, children) ←
        (fix go (first : bool) (l : list TransNode) (query : Query) : W (Query * list TransNode) :=
           match l with
           | [] => ret (query, [])
           | child :: l =>
               if bool_decide (op = SUBOP_SetOp_Diff) && prov_use_wl_union_semantics && negb first then ret (query, child :: l)
               else
                 '(query, child) ← rewriteUsingSubInfo rewrite offset child query;
                 '(query, l) ← go false l query;
                 ret (query, child :: l)
           end) true children query;
      ret (query, TransSubInfo id b op children s i)
  end.

(** Add the sets of the unions to the columns of the inputs. *)
Fixpoint addBitsetsToChildren (n : TransNode) (bitset : option VarBit.VarBit) (query : Query) : W Query :=
  match n with
  | TransSubInfo _ _ _ children set _ =>
      set ← deref set;
      newBitSet ← match bitset with None => ret set | Some bitset => lift (VarBit.varBitOr set bitset) end;
      (fix go (l : list TransNode) (query : Query) : W Query :=
         match l with
         | [] => ret query
         | child :: l => query ← addBitsetsToChildren child (Some newBitSet) query; go l query
         end) children query
  | TransProvInfo _ _ attrNum i =>
      rte ← deref (rt_fetch i (rtable query));
      sub ← deref (subquery rte);
      te ← deref (rt_fetch attrNum (targetList sub));
      c ← MAKE_VARBIT_CONST bitset;
      let te := mkTE (MAKE_SETOR_FUNC [expr te; c]) (resno te) (resname te) (ressortgroupref te) (resorigtbl te) (resorigcol te)
                  (resjunk te) in
      let sub := set_targetList (rt_update attrNum te (targetList sub)) sub in
      ret (set_rtable (rt_update i (set_subquery (Some sub) rte) (rtable query)) query)
  end.

(** The name of the new column is appended to the entry of the query. *)
Definition rewriteUnionWithWlCS (rewrite : Query → TransNode → W result) (entry : bool) (query : Query) (info : TransNode) : W result :=
  match info with
  | TransProvInfo b root a i =>
      '(query, root) ← rewriteUsingSubInfo rewrite 0 root query;
      query ← addBitsetsToChildren root None query;
      query ← correctSubQueryAlias query;
      let var := makeVar 1 (Z.of_nat (length (targetList query)) + 1) VARBITOID (-1) 0 in
      '(query, info) ← add_trans_attr query (EVar var) (TransProvInfo b root a i);
      (if entry then ret tt else throw Segv);;
      ret (query, query, info)
  | TransSubInfo _ _ _ _ _ _ => throw Segv
  end.

(** Join the original query, entry 1, with the entries [i], [i + 1], ... *)
Fixpoint create_joins (joinType : JoinType) (n : nat) (i : Z) (top : Query) (from : Node) : W (Query * Node) :=
  match n with
  | O => ret (top, from)
  | S n =>
      let rtindex := (Z.of_nat (length (rtable top)) + 1)%Z in
      let top := set_rtable (rtable top ++ [set_jointype joinType (makeRte RTE_JOIN)]) top in
      quals ← createSetJoinCondition cat top 0 (i - 1) false;
      create_joins joinType n (i + 1) top (JoinExpr joinType from (RangeTblRef i) quals rtindex)
  end.

Fixpoint recreateJoinRTE (join : Node) (query : Query) : W Query :=
  match join with
  | RangeTblRef _ => ret query
  | JoinExpr _ larg rarg _ _ =>
      query ← recreateJoinRTE larg query;
      query ← recreateJoinRTE rarg query;
      adaptRTEsForJoins cat [join] query "newJoin"
  end.

Definition createJoins (op : SetOperation) (top : Query) : W Query :=
  let joinType := match op with SETOP_UNION => JOIN_LEFT | _ => JOIN_INNER end in
  '(top, from) ← create_joins joinType (length (rtable top) - 1) 2 top (RangeTblRef 1);
  recreateJoinRTE from (with_fromlist [from] top).

(** The column of a subquery, even if it is static; its info is found by the index. *)
Definition getRealSubqueryTransProvAttr (query : Query) (root : TransNode) (rtIndex : Z) : W Expr :=
  rte ← deref (rt_fetch rtIndex (rtable query));
  sub ← deref (subquery rte);
  info ← deref (find_info rtIndex root);
  match info with
  | TransProvInfo _ _ attrNum _ =>
      te ← deref (rt_fetch attrNum (targetList sub));
      ret (EVar (makeVar rtIndex attrNum (exprType (expr te)) (exprTypmod (expr te)) 0))
  | TransSubInfo _ _ _ _ _ _ => throw Segv
  end.

Fixpoint buildComputationForSetOps (query : Query) (root setInfo : TransNode) : W Expr :=
  match setInfo with
  | TransProvInfo _ _ _ i => getRealSubqueryTransProvAttr query root i
  | TransSubInfo _ _ op (larg :: rarg :: _) set _ =>
      l ← buildComputationForSetOps query root larg;
      r ← buildComputationForSetOps query root rarg;
      c ← MAKE_VARBIT_CONST set;
      match op with
      | SUBOP_SetOp_Union => ret (MAKE_SETOR_FUNC_NO_NULL [MAKE_SETOR_FUNC [l; r]; c])
      | SUBOP_SetOp_Intersect | SUBOP_SetOp_Diff => ret (MAKE_SETOR_FUNC [MAKE_SETOR_FUNC [l; r]; c])
      | _ => throw Segv
      end
  | TransSubInfo _ _ _ _ _ _ => throw Segv
  end.

Definition rewriteTransSet (rewrite : Query → TransNode → W result) (entry link : bool) (orig : Query) (info : TransNode) : W result :=
  match info with
  | TransProvInfo b root a i =>
      query ← removeDummyRewriterRTEs orig;
      let root := if decide (length (rtable query) = length (rtable orig)) then root else reduceRtindexForTrans root in
      op ← set_op query;
      tree ← deref (setOperations query);
      '(query, info) ← restructureSetOperationQueryNode (S (tree_height tree)) (query, TransProvInfo b root a i) [] op;
      let root := match info with TransProvInfo _ root _ _ => root | _ => root end in
      if prov_use_wl_union_semantics && bool_decide (op = SETOP_UNION) then
        rewriteUnionWithWlCS rewrite entry query (TransProvInfo b root a i)
      else
        rtes ← match op with SETOP_EXCEPT => r ← deref (head (rtable query)); ret [r] | _ => ret (rtable query) end;
        let newTop := mkQuery CMD_SELECT false false rtes [] None (targetList query) [] None [] [] None None None true false in
        let newTop := addSubqueryToRTWithParam newTop orig "originalSet" false in
        '(newTop, root) ← rewriteUsingSubInfo rewrite 1 root newTop;
        newTop ← correctSubQueryAlias newTop;
        newTop ← createJoins op newTop;
        comp ← buildComputationForSetOps newTop root root;
        '(newTop, topInfo) ← add_trans_attr newTop comp (TransProvInfo false (TransProvInfo b root a 1) 0 i);
        (if link then ret tt else throw Segv);;
        ret (query, newTop, topInfo)
  | TransSubInfo _ _ _ _ _ _ => throw Segv
  end.

(** ** Query nodes *)

(** [entry]: the query is the subquery of a range table entry; [link]: its info is part of the tree of the query around it.  [fuel] bounds
    the nesting of subqueries; [lost] are infos of the subqueries that are not part of the tree. *)
Fixpoint rewriteQueryNodeTrans (fuel : nat) (entry link : bool) (lost : list TransNode) (query : Query) (info : TransNode)
    : W result :=
  match fuel with
  | O => throw Hang
  | S fuel =>
      if TRANS_GET_STATIC info then
        match setOperations query with
        | Some _ => rewriteStaticSetOp query info
        | None => '(query, info) ← addStaticTransProvAttr query info; ret (query, query, info)
        end
      else if hasAggs query then rewriteTransAgg (rewriteQueryNodeTrans fuel false true) query info
      else match setOperations query with
           | Some _ => rewriteTransSet (rewriteQueryNodeTrans fuel true true []) entry link query info
           | None => rewriteTransSPJ (λ link, rewriteQueryNodeTrans fuel true link []) lost query info
           end
  end.

(** ** The result column *)

Inductive TransType := CONTR_TRANS_SET | CONTR_TRANS_SQL | CONTR_TRANS_XML | CONTR_TRANS_XML_SIMPLE | CONTR_MAP.

(** Register the query for the functions that display its bit sets. *)
Class TransDisplay := {
  generateTransProvQueryIndex : Query → TransNode → W Z;
  generateTransXmlQueryIndex : Query → TransNode → W Z;
  generateMapQueryIndex : Query → TransNode → W Z }.
Context `{TransDisplay}.

Definition result_entry (f : Z) (queryId : Z) (te : TargetEntry) : Expr :=
  EFuncExpr f TEXTOID COERCE_EXPLICIT_CALL [expr te; EConst INT4OID (-1) (Some queryId)].

Definition addResultConstruction (query : Query) (info : TransNode) (queryId : Z) (ty : TransType) : W Query :=
  match info with
  | TransProvInfo _ _ attrNum _ =>
      te ← deref (rt_fetch attrNum (targetList query));
      let e := match ty with
               | CONTR_TRANS_XML | CONTR_TRANS_SQL => result_entry F_RECONSTRUCTTRANSTOSQL queryId te
               | CONTR_MAP => result_entry F_RECONSTRUCTMAP queryId te
               | _ => expr te
               end in
      let te := mkTE e (resno te) (Some "trans_prov") (ressortgroupref te) (resorigtbl te) (resorigcol te) (resjunk te) in
      ret (set_targetList (rt_update attrNum te (targetList query)) query)
  | TransSubInfo _ _ _ _ _ _ => throw Segv
  end.

Definition rewriteQueryTransProv (fuel : nat) (ty : TransType) (query : Query) : W Query :=
  info ← analyseStaticTransProv cat query;
  queryId ← match ty with
            | CONTR_TRANS_SET => ret 0%Z
            | CONTR_TRANS_SQL => generateTransProvQueryIndex query info
            | CONTR_TRANS_XML | CONTR_TRANS_XML_SIMPLE => generateTransXmlQueryIndex query info
            | CONTR_MAP => generateMapQueryIndex query info
            end;
  '(_, query, info) ← rewriteQueryNodeTrans fuel false false [] query info;
  addResultConstruction query info queryId ty.

End rewriter.

End TransRewrite.
