(* ===== verification/CopyRewrite.v ===== *)
(** * The rewriter for copy contribution semantics
      ([src/src/backend/provrewrite/copysem/prov_copy_spj.c], [src/src/backend/provrewrite/copysem/prov_copy_agg.c],
       [src/src/backend/provrewrite/copysem/prov_copy_inclattr.c], [src/src/backend/provrewrite/copysem/prov_copy_util.c],
       [rewriteQueryNodeCopy] of [src/src/backend/provrewrite/main/provrewrite.c])

    The rewriter follows the copy maps.  The provenance attributes of the base relations that can contribute are passed on from subquery to
    query.  For a relation whose contribution is not decided statically, a query also gets a column with a bit set of the copies
    that hold in the row; at the top it decides between the tuple and NULL.

    The code keeps the provenance attributes and the bit set of a relation in its entry of the copy map; here a rewritten query comes
    with a list of them ([RelProv]), one for each entry of its map.  The rewriter of set operations is an operation of a class. *)

From Stdlib Require Import ZArith Lia.
From stdpp Require Import base strings numbers list.
From S2P Require Import Prelude VarBit ProvStack AttrName QueryTree Sublevels RewriteSPJ JoinBuild RewriteLimit RewriteAggr RewriteSet RewriteNode.
From S2P Require Import CopyMap TransInfo TransRewrite.
Import QueryTree Sublevels RewriteSPJ JoinBuild RewriteLimit RewriteAggr RewriteSet RewriteNode CopyMap TransInfo TransRewrite.

Module CopyRewrite.

Record CopyProvAttrInfo := mkInfo { outAttrNum : Z; bitSetComposition : option Expr; provVar : option Var }.

(** [provAttrs] and [provAttrInfo] of a [CopyMapRelEntry]. *)
Record RelProv := mkProv { relProvAttrs : list TargetEntry; provAttrInfo : option CopyProvAttrInfo }.

Definition no_prov : RelProv := mkProv [] None.

Definition F_BITEQ : Z := 1581.
Definition F_BITSET_CONTAINS : Z := 3781.
Definition F_BITSET_NONZERO_REPEAT : Z := 3782.

Definition MAKE_EMPTY_BITSET_CONST (n : Z) : W Expr := MAKE_VARBIT_CONST (Some (VarBit.generateEmptyBitset n)).
Definition MAKE_SETCONT_FUNC (args : list Expr) : Expr := EFuncExpr F_BITSET_CONTAINS BOOLOID COERCE_EXPLICIT_CALL args.
Definition MAKE_SETNEQ_FUNC (argl argr : Expr) : Expr :=
  makeBoolExpr NOT_EXPR [EFuncExpr F_BITEQ BOOLOID COERCE_EXPLICIT_CALL [argl; argr]].
Definition MAKE_SETREPEAT_FUNC (argl argr : Expr) : Expr :=
  EFuncExpr F_BITSET_NONZERO_REPEAT BOOLOID COERCE_EXPLICIT_CALL [argl; argr].

(** The operators of the parser for arguments of different types. *)
Class Comparisons := { compare_coerced : Expr → Expr → W Expr }.

(** The [ProvInfo] of a rewritten node: the one of the query itself, with its copy map and contribution type; the one of a node
    [makeQuery] made, whose contribution type is [CONTR_INFLUENCE], with the map of the query; or such a one without a map. *)
Inductive NodeInfo := OwnInfo | NewInfo | NoMap.

(** [IS_PARTIALC(ContributionType(query))] of the rewritten node. *)
Definition info_partial (contr : ContributionType) (info : NodeInfo) : bool :=
  match info with OwnInfo => IS_PARTIALC contr | NewInfo | NoMap => false end.

(** The rewriter of set operations. *)
Class CopySetOps := {
  rewriteCopySetQuery : (CopyMap → Query → W (Query * NodeInfo * list RelProv)) → CopyMap → Query → W (Query * NodeInfo * list RelProv) }.

Section copyrewrite.
Context `{AggSublinks} `{SpjHelpers} `{ConstFolding} `{Comparisons} `{CopySetOps}.
Context (cat : syscache) (get_opcode : Z → Z) (prov_use_set_optimization prov_use_wl_union_semantics : bool).

Definition createEqualityConditionForVars (left right : Var) : W Expr :=
  if decide (vartype left = vartype right) then
    match equality_oper cat (vartype left) with
    | Some (opno, oprresult) => ret (EOpExpr opno oprresult [EVar left; EVar right])
    | None => throw (Elog "could not identify an equality operator for type %s")
    end
  else compare_coerced (EVar left) (EVar right).

(** ** Bit sets of copies *)

(** The position of the attribute in the entry of the input, or behind the last one. *)
Fixpoint attr_position (baseVar : Var) (l : list CopyMapEntry) : Z :=
  match l with
  | [] => 0
  | entry :: l => if decide (baseRelAttr entry = baseVar) then 0 else (1 + attr_position baseVar l)%Z
  end.

Definition getInputBitset (rel child : CopyMapRelEntry) (childProv : RelProv) (attr : CopyMapEntry) (outAttr : Z) : W Expr :=
  info ← deref (provAttrInfo childProv);
  let numQAttrs := outAttrNum info in
  let bitLength := (numQAttrs * Z.of_nat (length (attrEntries rel)))%Z in
  let bitSingleton := (numQAttrs * attr_position (baseRelAttr attr) (attrEntries child) + outAttr)%Z in
  set ← lift (VarBit.generateVarbitSetElem bitLength bitSingleton);
  MAKE_VARBIT_CONST (Some set).

Definition and_then (condition : option Expr) (c : Expr) : option Expr :=
  Some (match condition with Some condition => makeBoolExpr AND_EXPR [condition; c] | None => c end).

Fixpoint equal_conds (inclVar : Var) (eqVars : list Var) (condition : option Expr) : W (option Expr) :=
  match eqVars with
  | [] => ret condition
  | eqVar :: eqVars => c ← createEqualityConditionForVars inclVar eqVar; equal_conds inclVar eqVars (and_then condition c)
  end.

(** [CASE WHEN condition THEN bit ELSE no bit END].  Where no condition was collected the code builds the expression with a NULL
    pointer as its condition; the model stops there. *)
Definition generateBitInclusionCond (rel child : CopyMapRelEntry) (childProv : RelProv) (attr : CopyMapEntry)
    (incl outIncl : InclusionCond) (bitLength bitNum : Z) : W Expr :=
  set ← lift (VarBit.generateVarbitSetElem bitLength bitNum);
  cons ← MAKE_VARBIT_CONST (Some set);
  inclVar ← match existsAttr incl with inl v => ret v | inr _ => throw Segv end;
  if isStatic child && bool_decide (inclType incl = INCL_EXISTS ∧ inclType outIncl = INCL_EXISTS) then ret cons
  else
    condition ← (if isStatic child then ret None
                 else
                   info ← deref (provAttrInfo childProv);
                   inProvAttr ← deref (provVar info);
                   inputBitset ← getInputBitset rel child childProv attr (varattno inclVar);
                   ret (Some (MAKE_SETCONT_FUNC [EVar inProvAttr; inputBitset])));
    condition ← (if decide (inclType incl = INCL_EQUAL) then equal_conds inclVar (eqVars incl) condition else ret condition);
    condition ← (if decide (inclType outIncl = INCL_IF) then c ← deref (cond outIncl); ret (and_then condition c) else ret condition);
    condition ← deref condition;
    empty ← MAKE_EMPTY_BITSET_CONST bitLength;
    ret (ECaseExpr VARBITOID [ECaseWhen condition cons] (Some empty)).

(** The last of the conditions of a nested inclusion; [last] is the value of the variable before. *)
Fixpoint last_cond (rel child : CopyMapRelEntry) (childProv : RelProv) (attr : CopyMapEntry) (outIncl : InclusionCond)
    (bitLength bitNum : Z) (conds : list InclusionCond) (last : option Expr) : W (option Expr) :=
  match conds with
  | [] => ret last
  | c :: conds =>
      e ← generateBitInclusionCond rel child childProv attr c outIncl bitLength bitNum;
      last_cond rel child childProv attr outIncl bitLength bitNum conds (Some e)
  end.

(** One expression for each condition of an inclusion. *)
Fixpoint cond_exprs (rel child : CopyMapRelEntry) (childProv : RelProv) (attr : CopyMapEntry) (bitLength bitNum : Z)
    (conds : list InclusionCond) (condition : option Expr) : W (list Expr * option Expr) :=
  match conds with
  | [] => ret ([], condition)
  | c :: conds =>
      inner ← match existsAttr c with inr inner => ret inner | inl _ => throw Segv end;
      condition ← last_cond rel child childProv attr c bitLength bitNum (inclConds inner) condition;
      e ← deref condition;
      '(rest, condition) ← cond_exprs rel child childProv attr bitLength bitNum conds condition;
      ret (e :: rest, condition)
  end.

Fixpoint incl_exprs (rel child : CopyMapRelEntry) (childProv : RelProv) (attr : CopyMapEntry) (bitLength base : Z)
    (incls : list AttrInclusions) (condition : option Expr) : W (list Expr * option Expr) :=
  match incls with
  | [] => ret ([], condition)
  | incl :: incls =>
      let bitSingleton := (base + varattno (incl_attr incl))%Z in
      '(es, condition) ←
        (if incl_static incl then
           set ← lift (VarBit.generateVarbitSetElem bitLength bitSingleton);
           c ← MAKE_VARBIT_CONST (Some set);
           ret ([c], Some c)
         else cond_exprs rel child childProv attr bitLength bitSingleton (inclConds incl) condition);
      '(rest, condition) ← incl_exprs rel child childProv attr bitLength base incls condition;
      ret (es ++ rest, condition)
  end.

(** The set of all columns an attribute is copied to, on top of [bitset]. *)
Fixpoint fixed_set (bitLength base : Z) (incls : list AttrInclusions) (bitset : VarBit.VarBit) : W VarBit.VarBit :=
  match incls with
  | [] => ret bitset
  | incl :: incls =>
      set ← lift (VarBit.generateVarbitSetElem bitLength (base + varattno (incl_attr incl)));
      bitset ← lift (VarBit.varBitOr set bitset);
      fixed_set bitLength base incls bitset
  end.

Fixpoint attr_exprs (rel child : CopyMapRelEntry) (childProv : RelProv) (numAttrs bitLength inAtt : Z) (attrs : list CopyMapEntry)
    (condition : option Expr) : W (list Expr) :=
  match attrs with
  | [] => ret []
  | attr :: attrs =>
      let base := (inAtt * numAttrs)%Z in
      '(es, condition) ←
        (if isStaticTrue attr then
           bitset ← lift (VarBit.generateVarbitSetElem bitLength 0);
           if forallb incl_static (outAttrIncls attr) then
             bitset ← fixed_set bitLength base (outAttrIncls attr) bitset;
             c ← MAKE_VARBIT_CONST (Some bitset);
             ret ([c], Some c)
           else if isStaticFalse attr then ret ([], condition)
           else incl_exprs rel child childProv attr bitLength base (outAttrIncls attr) condition
         else if isStaticFalse attr then ret ([], condition)
         else incl_exprs rel child childProv attr bitLength base (outAttrIncls attr) condition);
      rest ← attr_exprs rel child childProv numAttrs bitLength (inAtt + 1) attrs condition;
      ret (es ++ rest)
  end.

Definition generateVarBitConstruction (rel child : CopyMapRelEntry) (childProv : RelProv) (numAttrs : Z) : W Expr :=
  let bitLength := (numAttrs * Z.of_nat (length (attrEntries rel)))%Z in
  exprs ← attr_exprs rel child childProv numAttrs bitLength 0 (attrEntries rel) None;
  match exprs with
  | [] => MAKE_EMPTY_BITSET_CONST bitLength
  | e :: exprs => ret (foldl (λ result e, MAKE_SETOR_FUNC [result; e]) e exprs)
  end.

(** ** Provenance attributes of a query *)

(** The provenance attributes of the entries that are rewritten, taken from those of their children. *)
Fixpoint add_rel_attrs (query : Query) (es ch : list CopyMapRelEntry) (cps : list RelProv) : W (Query * list (list TargetEntry)) :=
  match es, ch, cps with
  | [], _, _ => ret (query, [])
  | rel :: es, child :: ch, cp :: cps =>
      tes ← (if noRewrite rel then ret []
             else prov_entries query (rtindex child) (relProvAttrs cp) (Z.of_nat (length (targetList query)) + 1));
      '(query, rest) ← add_rel_attrs (set_targetList (targetList query ++ tes) query) es ch cps;
      ret (query, tes :: rest)
  | _, _, _ => throw Segv
  end.

(** The columns with the bit sets of the relations that are not decided; [i] is the counter of their names. *)
Fixpoint generateCopyMapAttributs (query : Query) (numQAttrs map_rtindex i : Z) (es ch : list CopyMapRelEntry) (cps : list RelProv)
    : W (Query * list CopyProvAttrInfo) :=
  match es, ch, cps with
  | [], _, _ => ret (query, [])
  | rel :: es, child :: ch, cp :: cps =>
      bits ← (if noRewrite rel then ret None else e ← generateVarBitConstruction rel child cp numQAttrs; ret (Some e));
      '(query, var, i) ←
        (if negb (noRewrite rel) && negb (isStatic rel) then
           let copyAttrPos := (Z.of_nat (length (targetList query)) + 1)%Z in
           let '(name, i) := ProvStack.appendIdToString "copymap_" (i + 1) in
           e ← deref bits;
           ret (set_targetList (targetList query ++ [makeTargetEntry e copyAttrPos (Some name) false]) query,
                Some (makeVar map_rtindex copyAttrPos VARBITOID (-1) 0), i)
         else ret (query, None, i));
      '(query, rest) ← generateCopyMapAttributs query numQAttrs map_rtindex i es ch cps;
      ret (query, mkInfo numQAttrs bits var :: rest)
  | _, _, _ => throw Segv
  end.

Definition copyAddProvAttrs (query : Query) (map_rtindex : Z) (es ch : list CopyMapRelEntry) (cps : list RelProv)
    : W (Query * list RelProv) :=
  let origAttrNum := Z.of_nat (length (targetList query)) in
  '(query, attrs) ← add_rel_attrs query es ch cps;
  '(query, infos) ← generateCopyMapAttributs query origAttrNum map_rtindex 0 es ch cps;
  ret (query, zip_with (λ a i, mkProv a (Some i)) attrs infos).

(** ** Select-project-join *)

Fixpoint base_prov_attrs (rte : RangeTblEntry) (attrs : list CopyMapEntry) (curResno : Z) : list TargetEntry :=
  match attrs with
  | [] => []
  | attr :: attrs =>
      mkTE (EVar (baseRelAttr attr)) (curResno + 1) (Some (provAttrName attr)) 0 (relid rte) (varattno (baseRelAttr attr)) false
      :: base_prov_attrs rte attrs (curResno + 1)
  end.

Definition getEntryForBaseRel (ch : list CopyMapRelEntry) (i : Z) : option CopyMapRelEntry :=
  List.find (λ e, bool_decide (rtindex e = i)) ch.

(** The attributes go to the first entry with the index, which is the one of the relation itself. *)
Definition rewriteCopyBaseRel (rte : RangeTblEntry) (i : Z) (ch : list CopyMapRelEntry) : W (list RelProv) :=
  entry ← deref (getEntryForBaseRel ch i);
  modify (λ s, if baseRelStackActive s
               then mkRw (pStack s) (baseRelStackActive s) (rte :: baseRelStack s) (refs s) (gens s) else s);;
  ret [mkProv (base_prov_attrs rte (attrEntries entry) 0) None].

Definition rteShouldRewrite (m : CopyMap) (i : Z) : bool := shouldRewriteRTEforMap m i.

(** What becomes of an entry, and the attributes for the entries of its map. *)
Definition rewrite_copy_rte (rewrite : CopyMap → Query → W (Query * NodeInfo * list RelProv)) (m : CopyMap) (ch : list CopyMapRelEntry)
    (i : Z) (rte : RangeTblEntry) (om : option CopyMap) : W (RangeTblEntry * list RelProv) :=
  let none := (λ _, no_prov) <$> match om with Some m => entries m | None => [] end in
  if decide (aliasname (eref rte) ≠ "*NEW*" ∧ aliasname (eref rte) ≠ "*OLD*" ∧ ignoreRTE rte = false ∧ rteShouldRewrite m i = true) then
    match provAttrs rte with
    | _ :: _ => ret (rte, none)
    | [] =>
        if decide (rtekind rte = RTE_SUBQUERY) then
          sub ← deref (subquery rte);
          subMap ← deref om;
          '(sub, _, provs) ← rewrite subMap sub;
          ret (set_subquery (Some sub) rte, provs)
        else if decide (rtekind rte = RTE_RELATION ∨ isProvBase rte = true) then
          provs ← rewriteCopyBaseRel rte i ch; ret (rte, provs)
        else ret (rte, none)
    end
  else ret (rte, none).

Fixpoint rewrite_copy_rtes (rewrite : CopyMap → Query → W (Query * NodeInfo * list RelProv)) (m : CopyMap) (ch : list CopyMapRelEntry)
    (i : Z) (rtes : list RangeTblEntry) (inputs : list (option CopyMap)) : W (list RangeTblEntry * list RelProv) :=
  match rtes, inputs with
  | [], _ => ret ([], [])
  | rte :: rtes, om :: inputs =>
      '(rte, provs) ← rewrite_copy_rte rewrite m ch i rte om;
      '(rtes, rest) ← rewrite_copy_rtes rewrite m ch (i + 1) rtes inputs;
      ret (rte :: rtes, provs ++ rest)
  | _ :: _, [] => throw Segv
  end.

(** [list_concat] links the lists of the entries: afterwards each of them runs on into those of the entries behind it. *)
Fixpoint linked (attrs : list (list TargetEntry)) : list (list TargetEntry) :=
  match attrs with
  | [] => []
  | a :: attrs => (match a with [] => [] | _ => a ++ concat attrs end) :: linked attrs
  end.

(** Cut a list into pieces of the lengths of those of another list. *)
Fixpoint cut_like {A} (shape : list (list A)) (l : list A) : list (list A) :=
  match shape with [] => [] | s :: shape => take (length s) l :: cut_like shape (drop (length s) l) end.

(** The attributes are entries of the target list, which their numbers refer to. *)
Definition rewriteCopyDistinctClause (query : Query) (provs : list RelProv) : Query * list RelProv :=
  let attrs := relProvAttrs <$> provs in
  let '(tes, scs) := distinct_items cat (concat attrs) (max_groupref (targetList query) 0) in
  (set_distinctClause (distinctClause query ++ scs)
     (set_targetList (foldl (λ tl te, rt_update (resno te) te tl) (targetList query) tes) query),
   zip_with (λ a p, mkProv a (provAttrInfo p)) (linked (cut_like attrs tes)) provs).

(** The rewriter for LIMIT returns a new node without the map. *)
Definition rewriteSPJQueryCopy (rewrite : CopyMap → Query → W (Query * NodeInfo * list RelProv)) (rewriteSPJQuery : Query → W Query)
    (m : CopyMap) (query : Query) : W (Query * NodeInfo * list RelProv) :=
  match m with
  | QueryMap map_rtindex es inputs =>
      if checkLimit query then
        query ← handleLimit cat rewriteSPJQuery query; ret (query, NoMap, (λ _, no_prov) <$> es)
      else
        let ch := children inputs in
        '(rtes, cps) ← rewrite_copy_rtes rewrite m ch 1 (rtable query) inputs;
        query ← correctSubQueryAlias (set_rtable rtes query);
        '(query, provs) ← copyAddProvAttrs query map_rtindex es ch cps;
        let '(query, provs) := match distinctClause query with
                               | [] => (query, provs)
                               | _ => rewriteCopyDistinctClause query provs
                               end in
        ret (query, OwnInfo, provs)
  | BaseMap _ => throw Segv
  end.

(** ** Aggregation *)

Fixpoint position_of (x : Z) (l : list Z) (count : Z) : Z :=
  match l with [] => -1 | y :: l => if decide (y = x) then count else position_of x l (count + 1) end.

(** The inclusion for the query without aggregation, and the one of the new top query that copies its column. *)
Definition strip_incl (attrMap : list Z) (incl : AttrInclusions) : AttrInclusions * AttrInclusions :=
  let topVar := incl_attr incl in
  let subVar := move_var (varno topVar) (position_of (varattno topVar) attrMap 0 + 1) topVar in
  let aggSubVar := set_varno 2 subVar in
  (mkIncl subVar (inclConds incl) (incl_static incl),
   mkIncl topVar [MAKE_EXISTS_INCL (inr (mkIncl aggSubVar [MAKE_EXISTS_INCL (inl aggSubVar)] false))] (incl_static incl)).

(** Only the attribute, its name and the inclusions of the new entry are set. *)
Definition strip_attr (attrMap : list Z) (attr : CopyMapEntry) : CopyMapEntry * CopyMapEntry :=
  let incls := strip_incl attrMap <$> outAttrIncls attr in
  (mkEntry (baseRelAttr attr) (provAttrName attr) (fst <$> incls) false false, set_outAttrIncls (snd <$> incls) attr).

Definition strip_rel (attrMap : list Z) (rel : CopyMapRelEntry) : CopyMapRelEntry * CopyMapRelEntry :=
  let attrs := strip_attr attrMap <$> attrEntries rel in
  (set_flags (isStatic rel) (noRewrite rel) (set_rtindex 2 (set_attrEntries (fst <$> attrs) (COPY_BASIC_COPYREL rel))),
   set_attrEntries (snd <$> attrs) rel).

(** The map of the query without aggregation is a layer between the map of the query and those of its inputs. *)
Definition createWithoutAggCopyMap (attrMap : list Z) (es : list CopyMapRelEntry) (inputs : list (option CopyMap))
    : CopyMap * list CopyMapRelEntry :=
  let rels := strip_rel attrMap <$> es in
  (QueryMap 2 (fst <$> rels) inputs, snd <$> rels).

Definition rewriteCopyAggregateQuery (rewrite : CopyMap → Query → W (Query * NodeInfo * list RelProv)) (m : CopyMap) (query : Query)
    : W (Query * NodeInfo * list RelProv) :=
  match m with
  | QueryMap map_rtindex es inputs =>
      if negb (shouldRewriteQuery m) then ret (query, OwnInfo, (λ _, no_prov) <$> es)
      else
        let groupByTLEs := getGroupByTLEs query in
        '(newRewriteQuery, attrMap) ← rewriteAggrSubqueryForRewrite (aggregation_input query) true;
        let '(subMap, es) := createWithoutAggCopyMap attrMap es inputs in
        newTopQuery ← checkOrderClause makeQuery query;
        newTopQuery ← addSubqueryTargetListToTargetList (addSubqueryToRT newTopQuery query "originalAggr") 1;
        '(newTopQuery, newRewriteQuery) ← addJoinOnAttributes cat newTopQuery groupByTLEs newRewriteQuery;
        '(newRewriteQuery, _, cps) ← rewrite subMap newRewriteQuery;
        newTopQuery ← correctSubQueryAlias (addSubqueryToRT newTopQuery newRewriteQuery "rewrittenAggrSubquery");
        let newTopQuery := set_rtable (rtable newTopQuery ++ [set_jointype JOIN_LEFT (makeRte RTE_JOIN)]) newTopQuery in
        let newTopQuery := map_subquery (with_rewrite false) 1 (map_subquery (with_rewrite false) 2 newTopQuery) in
        first ← deref (head (fromlist newTopQuery));
        newTopQuery ← adaptRTEsForJoins cat [first] newTopQuery "joinAggAndRewrite";
        '(newTopQuery, provs) ← copyAddProvAttrs newTopQuery map_rtindex es (entries subMap) cps;
        ret (map_subquery (increaseSublevelsUp (-1)) 1 (map_subquery (increaseSublevelsUp (-1)) 2 newTopQuery), NewInfo, provs)
  | BaseMap _ => throw Segv
  end.

(** ** Query nodes *)

(** Aggregation takes one unit more. *)
Fixpoint rewriteQueryNodeCopy (fuel : nat) (m : CopyMap) (query : Query) : W (Query * NodeInfo * list RelProv) :=
  match fuel with
  | O => throw Hang
  | S fuel =>
      if hasAggs query then rewriteCopyAggregateQuery (rewriteQueryNodeCopy fuel) m query
      else match setOperations query with
           | Some _ => rewriteCopySetQuery (rewriteQueryNodeCopy fuel) m query
           | None => rewriteSPJQueryCopy (rewriteQueryNodeCopy fuel)
                       (rewriteSPJQuery cat prov_use_set_optimization prov_use_wl_union_semantics fuel) m query
           end
  end.

(** ** The top query *)

(** [CASE WHEN condition THEN result END] *)
Definition makeCaseForProvAttr (condition result : Expr) : Expr :=
  ECaseExpr (exprType result) [ECaseWhen condition result] (Some (makeNullConst (exprType result) (exprTypmod result))).

Definition final_bits (prov : RelProv) : W Expr := info ← deref (provAttrInfo prov); deref (bitSetComposition info).

Definition createPartialFinalInclConds (rel : CopyMapRelEntry) (prov : RelProv) (origAttrNum : Z) : W Expr :=
  copymapValue ← final_bits prov;
  empty ← MAKE_EMPTY_BITSET_CONST (Z.of_nat (length (attrEntries rel)) * origAttrNum);
  ret (MAKE_SETNEQ_FUNC copymapValue empty).

Definition createCompleteFinalInclConds (prov : RelProv) (origAttrNum : Z) : W Expr :=
  copymapValue ← final_bits prov;
  ret (MAKE_SETREPEAT_FUNC copymapValue (EConst INT4OID (-1) (Some origAttrNum))).

(** The new target list refers to a target entry by its old number: entries that are in it several times change together. *)
Inductive slot := Fresh (te : TargetEntry) | Shared (id : Z).

Definition change_entry (f : TargetEntry → TargetEntry) (id : Z) (tl : list TargetEntry) : W (list TargetEntry) :=
  te ← deref (rt_fetch id tl); ret (rt_update id (f te) tl).

Definition with_expr (e : Expr) (te : TargetEntry) : TargetEntry :=
  mkTE e (resno te) (resname te) (ressortgroupref te) (resorigtbl te) (resorigcol te) (resjunk te).

(** NULL for every attribute. *)
Fixpoint null_attrs (attrs : list CopyMapEntry) (tlPos : Z) : list slot :=
  match attrs with
  | [] => []
  | attr :: attrs =>
      Fresh (makeTargetEntry (makeNullConst (vartype (baseRelAttr attr)) (vartypmod (baseRelAttr attr))) (tlPos + 1)
               (Some (provAttrName attr)) false)
      :: null_attrs attrs (tlPos + 1)
  end.

(** The attributes as they are, or under a condition. *)
Fixpoint take_attrs (f : TargetEntry → TargetEntry) (attrs : list TargetEntry) (tlPos : Z) (tl : list TargetEntry)
    : W (list slot * list TargetEntry) :=
  match attrs with
  | [] => ret ([], tl)
  | te :: attrs =>
      tl ← change_entry (λ te, set_resno (tlPos + 1) (f te)) (resno te) tl;
      '(slots, tl) ← take_attrs f attrs (tlPos + 1) tl;
      ret (Shared (resno te) :: slots, tl)
  end.

(** [list_nth] over the attributes of the entry. *)
Fixpoint nth_attrs (attrs : list CopyMapEntry) (provs : list TargetEntry) : W (list TargetEntry) :=
  match attrs, provs with
  | [], _ => ret []
  | _ :: attrs, te :: provs => rest ← nth_attrs attrs provs; ret (te :: rest)
  | _ :: _, [] => throw Segv
  end.

Fixpoint final_slots (partial : bool) (origAttrNum : Z) (es : list CopyMapRelEntry) (provs : list RelProv) (tlPos : Z)
    (tl : list TargetEntry) : W (list slot * list TargetEntry) :=
  match es, provs with
  | [], _ => ret ([], tl)
  | rel :: es, prov :: provs =>
      '(slots, tl) ←
        (if noRewrite rel then ret (null_attrs (attrEntries rel) tlPos, tl)
         else if isStatic rel then take_attrs id (relProvAttrs prov) tlPos tl
         else
           condition ← (if partial then createPartialFinalInclConds rel prov origAttrNum
                        else createCompleteFinalInclConds prov origAttrNum);
           attrs ← nth_attrs (attrEntries rel) (relProvAttrs prov);
           take_attrs (λ te, with_expr (makeCaseForProvAttr condition (expr te)) te) attrs tlPos tl);
      '(rest, tl) ← final_slots partial origAttrNum es provs (tlPos + Z.of_nat (length slots)) tl;
      ret (slots ++ rest, tl)
  | _ :: _, [] => throw Segv
  end.

Fixpoint fill_slots (tl : list TargetEntry) (slots : list slot) : W (list TargetEntry) :=
  match slots with
  | [] => ret []
  | s :: slots =>
      te ← match s with Fresh te => ret te | Shared id => deref (rt_fetch id tl) end;
      rest ← fill_slots tl slots;
      ret (te :: rest)
  end.

Definition addTopCopyInclExpr (contr : ContributionType) (m : CopyMap) (query : Query) (info : NodeInfo) (provs : list RelProv)
    (origAttrNum : Z) : W Query :=
  match info with
  | NoMap => throw Segv
  | OwnInfo | NewInfo =>
      let n := Z.to_nat origAttrNum in
      '(slots, tl) ← final_slots (info_partial contr info) origAttrNum (entries m) provs
                       (Z.min origAttrNum (Z.of_nat (length (targetList query)))) (targetList query);
      new ← fill_slots tl slots;
      ret (set_targetList (take n tl ++ new) query)
  end.

(** The part of [traverseQueryTree] for copy contribution semantics. *)
Definition rewriteQueryCopy (fuel : nat) (contr : ContributionType) (query : Query) : W Query :=
  let numQAttrs := Z.of_nat (length (targetList query)) in
  m ← generateCopyMaps cat get_opcode contr query;
  '(query, info, provs) ← rewriteQueryNodeCopy fuel m query;
  addTopCopyInclExpr contr m query info provs numQAttrs.

End copyrewrite.

End CopyRewrite.
