(* ===== verification/CopyShape.v ===== *)
(** * Copy maps of nested queries

    The analysed map of a select-project-join query, level by level: which map belongs to which range table entry, that the decision
    about a relation is the same on all levels, and that the inclusions of the relations that are rewritten are static and within the
    columns of the query. *)

From Stdlib Require Import ZArith Lia.
From stdpp Require Import base strings numbers list sets gmap.
From S2P Require Import Prelude ProvStack AttrName QueryTree SqlSemantics SqlFacts Queries RewriteSPJ RewriteAggr ProvWitness.
From S2P Require Import RewriteFacts RewriteJoins ProvReplay CopyMap CopyGraph CopyFacts CopySound CopyQuery CopyExact.
Import QueryTree SqlSemantics SqlFacts Queries RewriteSPJ RewriteAggr ProvWitness ProvReplay CopyMap CopyGraph CopyFacts.
Import RewriteFacts RewriteJoins CopySound CopyQuery CopyExact.

Module CopyShape.

(** ** The queries *)

Section queries.
Context (cat : syscache).

(** The columns of entry [i] are columns of the join [J]. *)
Definition shows_columns (q : Query) (J i : Z) : bool :=
  forallb (λ k, existsb (λ v, bool_decide (varno v = i ∧ varattno v = k)) (aliases q J)) (seqZ 1 (Z.of_nat (width cat q i))).

(** The entries under a join are relations, and a join has all columns of its arguments. *)
Fixpoint joins_show (q : Query) (n : Node) : bool :=
  match n with
  | RangeTblRef i => bool_decide (kind_at q i = Some RTE_RELATION)
  | JoinExpr _ l r _ J => joins_show q l && joins_show q r && shows_columns q J (root l) && shows_columns q J (root r)
  end.

(** The columns a rewritten subquery gets are not columns of a join above it. *)
Definition joins_relations (q : Query) (n : Node) : bool :=
  match n with RangeTblRef _ => true | JoinExpr _ _ _ _ _ => joins_show q n end.

(** Select-project-join queries without DISTINCT and LIMIT, here and below. *)
Fixpoint copy_spj (q : Query) : bool :=
  negb (grouped q) && is_none (setOperations q) && is_nil (distinctClause q) && negb (has_limit q) &&
  forallb (joins_relations q) (fromlist q) && forallb copy_spj_rte (rtable q)
with copy_spj_rte (r : RangeTblEntry) : bool :=
  match rtekind r with
  | RTE_SUBQUERY => match subquery r with Some q => copy_spj q | None => true end
  | _ => true
  end.

Lemma copy_spj_spec q :
  copy_spj q = true →
  grouped q = false ∧ setOperations q = None ∧ distinctClause q = [] ∧ has_limit q = false ∧
  Forall (λ n, joins_relations q n = true) (fromlist q) ∧ Forall (λ r, copy_spj_rte r = true) (rtable q).
Proof. destruct q. cbn [copy_spj]. intros H. checks. by split_and!. Qed.

Lemma copy_spj_query q : query_ok cat q = true → copy_spj q = true → spj_query cat q.
Proof.
  intros Hok (Hg & Hso & _)%copy_spj_spec. pose proof (query_ok_spec _ _ Hok) as [_ [Hs|[Hs|[T Hs]]]]; [done|..].
  - pose proof (agg_aggs _ _ Hs) as Ha. unfold grouped in Hg. by rewrite Ha in Hg.
  - pose proof (set_tree _ _ _ Hs). congruence.
Qed.

End queries.

(** ** Shapes *)

Section shape.
Context (cat : syscache) (P : nat → CopyMapRelEntry → CopyMapRelEntry → Prop).

(** [P] is a property of an entry and its child, which may depend on the number of columns of the query. *)
Inductive shape : Query → CopyMap → Prop :=
  | shape_query q k es inputs :
      Forall2 (P (length (targetList q))) es (children inputs) → inputs_shape 1 (rtable q) inputs → shape q (QueryMap k es inputs)
with inputs_shape : Z → list RangeTblEntry → list (option CopyMap) → Prop :=
  | no_shape i : inputs_shape i [] []
  | relation_shape i r rel rtes inputs :
      rtekind r = RTE_RELATION → rtindex rel = i → length (attrEntries rel) = length (rd_att cat (relid r)) →
      inputs_shape (i + 1) rtes inputs → inputs_shape i (r :: rtes) (Some (BaseMap rel) :: inputs)
  | subquery_shape i r q m rtes inputs :
      rtekind r = RTE_SUBQUERY → subquery r = Some q → shape q m → Forall (λ rel, rtindex rel = i) (entries m) →
      inputs_shape (i + 1) rtes inputs → inputs_shape i (r :: rtes) (Some m :: inputs)
  | join_shape i r rtes inputs :
      rtekind r = RTE_JOIN → inputs_shape (i + 1) rtes inputs → inputs_shape i (r :: rtes) (None :: inputs).

End shape.

Scheme shape_tree_ind := Induction for shape Sort Prop
  with inputs_shape_tree_ind := Induction for inputs_shape Sort Prop.

Lemma accesses_unfold q : accesses q = concat (map rte_accesses (rtable q)).
Proof. by destruct q. Qed.

(** The entries have an attribute for every column of their relation. *)
Definition attr_count (rel : CopyMapRelEntry) : nat := length (attrEntries rel).

Lemma shape_counts cat P q m :
  (∀ n rel child, P n rel child → attr_count rel = attr_count child) → shape cat P q m →
  attr_count <$> entries m = (λ i, length (rd_att cat i)) <$> accesses q.
Proof.
  intros HP. revert q m. apply (shape_tree_ind cat P
    (λ q m _, attr_count <$> entries m = (λ i, length (rd_att cat i)) <$> accesses q)
    (λ i rtes inputs _, attr_count <$> children inputs = (λ i, length (rd_att cat i)) <$> concat (map rte_accesses rtes))).
  - intros q k es inputs He _ IH. rewrite accesses_unfold, <- IH.
    cbn [entries]. clear -He HP. induction He as [|rel child es ch H _ IHe]; [done|]. csimpl. by rewrite IHe, (HP _ _ _ H).
  - done.
  - intros i r rel rtes inputs Hk _ Hl _ IH. rewrite children_mentries in *. csimpl. cbn [map concat]. rewrite fmap_app, IH.
    destruct r; cbn in *; subst; cbn. by f_equal.
  - intros i r q m rtes inputs Hk Hs _ IHm _ _ IH. rewrite children_mentries in *. csimpl. cbn [map concat]. rewrite !fmap_app, IH.
    f_equal. etrans; [exact IHm|]. destruct r; cbn in *; by subst.
  - intros i r rtes inputs Hk _ IH. rewrite children_mentries in *. csimpl. cbn [map concat]. rewrite IH. by destruct r; cbn in *; subst.
Qed.

(** ** Generation *)

Definition in_range (n : nat) (a : CopyMapEntry) : Prop := Forall (λ k, 1 ≤ k ≤ Z.of_nat n)%Z (columns a).

Lemma add_projection_columns Q var c l :
  Q (varattno var) → Forall (λ x, Q (varattno (incl_attr x))) l → Forall (λ x, Q (varattno (incl_attr x))) (add_projection var c l).
Proof.
  intros Hv. induction 1 as [|x l Hx Hl IH]; cbn [add_projection]; [by constructor|]. case_decide; by constructor.
Qed.

Lemma project_columns Q i sv incl acc :
  Forall (λ x, Q x.2) sv → Forall (λ x, Q (varattno (incl_attr x))) acc →
  Forall (λ x, Q (varattno (incl_attr x))) (project_incl i sv incl acc).
Proof.
  intros Hs. revert acc. induction Hs as [|[[[v|] ci] pos] sv Hx _ IH]; intros acc Hacc; cbn [project_incl]; [done|..]; [|by apply IH].
  apply IH. case_decide; [|done]. by apply add_projection_columns.
Qed.

Lemma simple_vars_positions q tes st sv st' :
  simple_vars q tes st = Ok (sv, st') → Forall (λ x, x.2 ∈ (resno <$> tes)) sv.
Proof.
  revert st sv. induction tes as [|te tes IH]; intros st sv; cbn [simple_vars]; [by intros [= <- _]|].
  destruct (resjunk te).
  - intros H. eapply Forall_impl; [by eapply IH|]. intros x Hx. csimpl. by right.
  - intros (v & s1 & _ & E)%bind_inv. apply bind_inv in E as (ci & s2 & _ & E). apply bind_inv in E as (rest & s3 & E & [= <- <-]).
    constructor; [csimpl; by left|]. eapply Forall_impl; [by eapply IH|]. intros x Hx. csimpl. by right.
Qed.

Lemma projection_in_range q i es st es' st' :
  Forall (λ te, plain_expr (expr te) = true) (targetList q) →
  resno <$> targetList q = seqZ 1 (Z.of_nat (length (targetList q))) →
  handleProjectionCopyMap q i es st = Ok (es', st') → Forall (λ rel, Forall (in_range (length (targetList q))) (attrEntries rel)) es'.
Proof.
  intros Hp Hn (sv & s1 & E & [= <- <-])%bind_inv. pose proof (simple_vars_plain _ _ _ _ _ Hp E) as Hc.
  apply simple_vars_positions in E. rewrite Hn in E. apply Forall_fmap, Forall_forall. intros rel _. cbn [compose attrEntries set_attrEntries].
  apply Forall_fmap, Forall_forall. intros a _. unfold compose, in_range, columns. cbn [outAttrIncls set_outAttrIncls]. apply Forall_fmap. unfold compose.
  set (Q := λ k, (1 ≤ k ≤ Z.of_nat (length (targetList q)))%Z). change (Forall (λ x, Q (varattno (incl_attr x)))
    (foldl (λ acc incl, project_cases i sv incl (project_incl i sv incl acc)) [] (outAttrIncls a))).
  assert (∀ l acc, Forall (λ x, Q (varattno (incl_attr x))) acc →
    Forall (λ x, Q (varattno (incl_attr x))) (foldl (λ acc incl, project_cases i sv incl (project_incl i sv incl acc)) acc l)) as H; [|by apply H].
  induction l as [|x l IH]; intros acc Hacc; cbn [foldl]; [done|]. rewrite (project_cases_none _ _ _ _ Hc). apply IH, project_columns; [|done].
  eapply Forall_impl; [exact E|]. intros y ?%elem_of_seqZ. unfold Q. lia.
Qed.

Definition ranged (n : nat) (rel child : CopyMapRelEntry) : Prop :=
  Forall (in_range n) (attrEntries rel) ∧ length (attrEntries rel) = length (attrEntries child).

Section generation.
Context (cat : syscache) (get_opcode : Z → Z) (contr : ContributionType) (nontrans : IS_TRANSC contr = false).

Lemma node_ranged q i st inputs :
  spj_query cat q → 
  ∃ es, (es ← handleJoins cat get_opcode q contr (children inputs) (link_entries inputs 0);
         es ← handleProjectionCopyMap q i es;
         ret (QueryMap i es inputs)) st = Ok (QueryMap i es inputs, st) ∧
    Forall2 (ranged (length (targetList q))) es (children inputs).
Proof using nontrans.
  intros Hs. destruct (handleJoins_made cat get_opcode contr nontrans q inputs st (spj_from _ _ Hs)) as (es & E & Hes). hrun E.
  destruct (map_targets_run cat q i (targetList q) es st (spj_from _ _ Hs) (spj_scope _ _ Hs)) as [es' E'].
  exists es'. unfold handleProjectionCopyMap in *. hrun E'. split; [done|]. pose proof (columns_plain _ _ _ (spj_scope _ _ Hs)) as Hp.
  pose proof (map_targets_made _ _ _ _ _ _ _ _ Hp E' Hes) as Hm.
  apply (projection_in_range _ _ _ _ _ _ Hp (spj_numbered _ _ Hs)) in E'. apply Forall2_flip. clear -Hm E'.
  induction Hm as [|child rel ch es (_ & _ & Ha) _ IH]; [constructor|]. apply Forall_cons in E' as [H1 E'].
  constructor; [|by apply IH]. split; [done|]. symmetry. by eapply Forall2_length.
Qed.

Lemma input_maps_shape rtes i st inputs st' :
  Forall (λ r, ∀ i st om st', input_map cat get_opcode contr r i st = Ok (om, st') → inputs_shape cat ranged i [r] [om]) rtes →
  input_maps cat get_opcode contr rtes i st = Ok (inputs, st') → inputs_shape cat ranged (i + 1) rtes inputs.
Proof.
  intros H. revert i st inputs. induction H as [|r rtes Hr _ IH]; intros i st inputs; cbn [input_maps]; [intros [= <- _]; constructor|].
  intros (om & s1 & E1 & E)%bind_inv. apply bind_inv in E as (rest & s2 & E2 & [= <- <-]). apply Hr in E1. apply IH in E2.
  inversion E1; subst; econstructor; eauto.
Qed.

Lemma generate_shape q :
  query_ok cat q = true → copy_spj cat q = true → ∀ i st m st',
  generateCopyMapForQueryNode cat get_opcode contr q i st = Ok (m, st') → shape cat ranged q m.
Proof using nontrans.
  revert q. apply (Query_tree_ind
    (λ q, query_ok cat q = true → copy_spj cat q = true → ∀ i st m st',
      generateCopyMapForQueryNode cat get_opcode contr q i st = Ok (m, st') → shape cat ranged q m)
    (λ r, rte_ok cat r = true → copy_spj_rte cat r = true → ∀ i st om st',
      input_map cat get_opcode contr r i st = Ok (om, st') → inputs_shape cat ranged i [r] [om])).
  - intros ct ha hs rt IH fl qs tl gc hv dc sc lo lc so pr sr Hok Hc i st m st'.
    set (q := mkQuery ct ha hs rt fl qs tl gc hv dc sc lo lc so pr sr) in *. rewrite generate_unfold.
    apply list_all_Forall in IH. pose proof (query_ok_spec _ _ Hok) as [Hrt _]. pose proof (copy_spj_query _ _ Hok Hc) as Hq.
    pose proof (copy_spj_spec _ _ Hc) as (Hg & Hso & _ & _ & _ & Hcr).
    intros (inputs & s1 & E1 & E2)%bind_inv. rewrite Hso in E2. assert (hasAggs q = false) as Ha by (unfold grouped in Hg; by destruct (hasAggs q)).
    rewrite Ha in E2. destruct (node_ranged q i s1 inputs Hq) as (es & E3 & He). rewrite E3 in E2. injection E2 as <- _.
    constructor; [done|]. apply (input_maps_shape (rtable q) 0 st inputs s1); [|done].
    rewrite Forall_forall in IH, Hrt, Hcr |- *. intros r Hr. exact (IH r Hr (Hrt r Hr) (Hcr r Hr)).
  - intros k rel sub IH ft vt jt av al er pb pa Hr Hc i st om st' E.
    pose proof (rte_ok_spec cat _ Hr) as (_ & _ & _ & _ & [(Hk & _)|[(Hk & s & Hs & Hsp)|Hk]]);
      cbn [rtekind subquery] in *; subst; cbn [input_map rtekind subquery copy_spj_rte] in *.
    + apply bind_inv in E as (m & s1 & E & [= <- <-]).
      destruct (base_map_spec cat _ _ _ _ _ Hr eq_refl E) as (rl & -> & Hi & [_ Hnum] & _). constructor; [done|done| |constructor].
      apply (f_equal length) in Hnum. by rewrite length_fmap, length_seqZ, Nat2Z.id in Hnum.
    + apply bind_inv in E as (m & s1 & E & [= <- <-]). apply option_all_Some in IH. apply (IH Hsp Hc) in E.
      destruct E as [q0 k es inputs H1 H2]. eapply subquery_shape; [done|done| | |constructor]; cbn [entries setCopyMapRTindices].
      * constructor; [|done]. apply Forall2_fmap_l. eapply Forall2_impl; [exact H1|]. done.
      * apply Forall_fmap, Forall_forall. by intros x _.
    + injection E as <- <-. constructor; [done|constructor].
Qed.

End generation.

(** ** Analysis *)

(** The bits of an attribute can be computed: it is copied to columns in range, each time statically, or never. *)
Definition bits_attr (n : nat) (a : CopyMapEntry) : Prop :=
  in_range n a ∧
  (isStaticTrue a = true ∧ columns a ≠ [] ∧ forallb incl_static (outAttrIncls a) = true ∨ isStaticTrue a = false ∧ isStaticFalse a = true).
Definition bits_ok (n : nat) (rel child : CopyMapRelEntry) : Prop := Forall (bits_attr n) (attrEntries rel).

Lemma decided_bits n rel rel' child child' : ranged n rel child → decided_rel rel rel' → bits_ok n rel' child'.
Proof.
  intros [Hr _] (attrs & -> & Hd). unfold bits_ok in *. cbn [attrEntries set_attrEntries]. revert Hr.
  induction Hd as [|a a' l l' (_ & Ec & Et & Ef & Hs) _ IH]; [constructor|]. intros [Hr1 Hr]%Forall_cons. constructor; [|by apply IH].
  split; [unfold in_range; by rewrite Ec|]. rewrite Et, Ef, Ec. destruct (columns a); cbn; [by right|]. left. split; [done|]. split; [done|].
  apply forallb_forall. intros x Hx%list_elem_of_In. rewrite Forall_forall in Hs. by apply Hs.
Qed.

Section analysis.
Context {folding : ConstFolding} (cat : syscache).

Lemma decided_children inputs inputs' : Forall2 (λ om om', Forall2 decided_rel (mentries om) (mentries om')) inputs inputs' →
  Forall2 decided_rel (children inputs) (children inputs').
Proof. rewrite !children_mentries. induction 1; csimpl; [constructor|]. by apply Forall2_app. Qed.

Lemma decided_rtindex rel rel' : decided_rel rel rel' → rtindex rel' = rtindex rel.
Proof. by intros (attrs & -> & _). Qed.

Lemma infer_shape q m :
  shape cat ranged q m → plain_map m → ∀ st m', inferStaticCopyQueryNode m st = Ok (m', st) → shape cat bits_ok q m'.
Proof.
  revert q m. apply (shape_tree_ind cat ranged
    (λ q m _, plain_map m → ∀ st m', inferStaticCopyQueryNode m st = Ok (m', st) → shape cat bits_ok q m')
    (λ i rtes inputs _, Forall plain_opt inputs → ∀ st inputs', infer_inputs inputs st = Ok (inputs', st) →
      inputs_shape cat bits_ok i rtes inputs')).
  - intros q k es inputs He _ IH Hp st m' E. destruct (infer_query_ok _ st Hp) as (m2 & E2 & Hd & Hf & es' & inputs' & ->).
    rewrite E2 in E. injection E as <-. cbn [entries] in Hd. pose proof Hp as [_ Hin]%plain_query. pose proof Hf as (_ & El & _)%fresh_query.
    rewrite infer_unfold in E2. apply bind_inv in E2 as (in2 & s1 & E1 & E2). apply bind_inv in E2 as (es2 & s2 & _ & E2).
    assert (s1 = st) as ->.
    { clear -E1 Hin. revert st in2 E1. induction Hin as [|[m|] inputs Hm _ IH]; intros st in2; cbn [infer_inputs]; [by intros [= _ <-]|..].
      - intros (m' & s2 & Em & E)%bind_inv. destruct (infer_query_ok m st Hm) as (m2 & Em2 & _). rewrite Em in Em2. injection Em2 as <- <-.
        apply bind_inv in E as (l & s3 & E & [= _ <-]). by eapply IH.
      - intros (l & s3 & E & [= _ <-])%bind_inv. by eapply IH. }
    injection E2 as -> -> _. constructor; [|by eapply IH]. clear -He Hd El. revert es' Hd El.
    generalize (children inputs'). induction He as [|rel child es ch Hr _ IH]; intros ch' es' Hd El.
    { apply Forall2_nil_inv_l in Hd as ->. destruct ch'; [constructor|done]. }
    apply Forall2_cons_inv_l in Hd as (rel' & es2 & Hd1 & Hd & ->). destruct ch' as [|c' ch']; [done|]. injection El as El.
    constructor; [by eapply decided_bits|by apply IH].
  - intros i _ st inputs' [= <-]. constructor.
  - intros i r rel rtes inputs Hk Hi Hl _ IH [Hm Hp]%Forall_cons st inputs'. cbn [infer_inputs inferStaticCopyQueryNode]. rewrite bind_ret.
    intros (l & s2 & E & [= <- <-])%bind_inv. constructor; [done..|]. by eapply IH.
  - intros i r q m rtes inputs Hk Hs Hsh IHm Hi _ IH [Hm Hp]%Forall_cons st inputs'. cbn [infer_inputs].
    destruct (infer_query_ok m st Hm) as (m2 & E2 & Hd & _). hrun E2. intros (l & s2 & E & [= <- <-])%bind_inv.
    eapply subquery_shape; [done|done|by eapply IHm| |by eapply IH]. clear -Hi Hd.
    induction Hd as [|rel rel' l l' H1 _ IHd]; [constructor|]. apply Forall_cons in Hi as [H2 Hi].
    constructor; [by rewrite (decided_rtindex _ _ H1)|by apply IHd].
  - intros i r rtes inputs Hk _ IH [_ Hp]%Forall_cons st inputs'. cbn [infer_inputs].
    intros (l & s2 & E & [= <- <-])%bind_inv. constructor; [done|]. by eapply IH.
Qed.

(** ** Decisions on all levels *)

Definition agreed (n : nat) (rel child : CopyMapRelEntry) : Prop :=
  flags child = flags rel ∧ isStatic rel = negb (noRewrite rel) ∧ bits_ok n rel child.

Lemma push_flags_fresh top rel :
  noRewrite top = negb (isStatic top) → isStatic rel || negb (noRewrite rel) = true → noRewrite rel = false →
  flags (push_flags top rel) = flags top.
Proof.
  intros Ht _ Hn. unfold push_flags, flags. rewrite Ht. destruct (isStatic top); cbn; [by rewrite Hn|done].
Qed.

Lemma push_flags_keeps top rel : attrEntries (push_flags top rel) = attrEntries rel ∧ rtindex (push_flags top rel) = rtindex rel.
Proof. unfold push_flags. by destruct (noRewrite top), (isStatic top). Qed.

(** The flags of the entries of a map after the decisions of [tops] were pushed down. *)
Lemma push_entries m tops :
  fresh m → (length (entries m) ≤ length tops)%nat → Forall (λ top, noRewrite top = negb (isStatic top)) tops →
  Forall2 (λ rel rel', attrEntries rel' = attrEntries rel ∧ rtindex rel' = rtindex rel) (entries m) (entries (push_down tops m)) ∧
  flags <$> entries (push_down tops m) = flags <$> take (length (entries m)) tops.
Proof.
  intros Hf Hl Ht.
  assert (∀ es tops, Forall (λ rel, noRewrite rel = false) es → (length es ≤ length tops)%nat →
    Forall (λ top, noRewrite top = negb (isStatic top)) tops →
    Forall2 (λ rel rel', attrEntries rel' = attrEntries rel ∧ rtindex rel' = rtindex rel) es (forboth (λ rel top, push_flags top rel) es tops) ∧
    flags <$> forboth (λ rel top, push_flags top rel) es tops = flags <$> take (length es) tops) as H.
  { clear. induction es as [|rel es IH]; intros tops Hn Hl Ht; [by destruct tops|]. destruct tops as [|top tops]; [cbn in Hl; lia|].
    apply Forall_cons in Hn as [H1 Hn], Ht as [H2 Ht]. cbn in Hl. destruct (IH tops Hn ltac:(lia) Ht) as [I1 I2]. csimpl. rewrite I2. split.
    - constructor; [apply push_flags_keeps|done].
    - f_equal. apply push_flags_fresh; [done| |done]. rewrite H1. by destruct (isStatic rel). }
  destruct m as [rel|k es inputs].
  - destruct Hf as [H1 H2]. destruct tops as [|top tops]; [cbn in Hl; lia|]. cbn in Hl. apply Forall_cons in Ht as [Ht _]. cbn. rewrite take_0.
    split; [constructor; [apply push_flags_keeps|constructor]|]. f_equal. apply push_flags_fresh; [done|by rewrite H1|done].
  - apply fresh_query in Hf as [Hf _]. rewrite push_unfold. cbn [entries] in *. apply H; [|done..].
    eapply Forall_impl; [exact Hf|]. by intros x [_ ?].
Qed.

Lemma push_shape q m :
  shape cat bits_ok q m → fresh m → ∀ tops, (length (entries m) ≤ length tops)%nat →
  Forall (λ top, noRewrite top = negb (isStatic top)) tops → shape cat agreed q (push_down tops m).
Proof.
  revert q m. apply (shape_tree_ind cat bits_ok
    (λ q m _, fresh m → ∀ tops, (length (entries m) ≤ length tops)%nat →
      Forall (λ top, noRewrite top = negb (isStatic top)) tops → shape cat agreed q (push_down tops m))
    (λ i rtes inputs _, Forall fresh_opt inputs → ∀ tops, (length (children inputs) ≤ length tops)%nat →
      Forall (λ top, noRewrite top = negb (isStatic top)) tops →
      inputs_shape cat agreed i rtes (push_inputs tops inputs) ∧
      flags <$> children (push_inputs tops inputs) = flags <$> take (length (children inputs)) tops)).
  - intros q k es inputs He _ IH Hf tops Hl Ht. destruct (push_entries _ tops Hf Hl Ht) as [Hk Hfl].
    apply fresh_query in Hf as (_ & El & Hf). rewrite push_unfold in *. cbn [entries] in *.
    destruct (IH Hf tops ltac:(lia) Ht) as [I1 I2]. constructor; [|done]. rewrite El, <- I2 in Hfl.
    assert (Forall (λ rel, isStatic rel = negb (noRewrite rel)) (forboth (λ rel top, push_flags top rel) es tops)) as Hs.
    { apply Forall_forall. intros rel Hr. apply (list_elem_of_fmap_2 flags) in Hr. rewrite Hfl, I2 in Hr.
      apply list_elem_of_fmap in Hr as (top & Etop & Hin). injection Etop as -> ->. rewrite Forall_forall in Ht.
      apply elem_of_take in Hin as (j & Hj & _). rewrite (Ht top) by by eapply list_elem_of_lookup_2. by rewrite negb_involutive. }
    revert Hfl Hk Hs. generalize (forboth (λ rel top, push_flags top rel) es tops) as es'. generalize (children (push_inputs tops inputs)) as ch'.
    clear -He. induction He as [|rel child es ch Hb _ IH]; intros ch' es' Hfl Hk Hs.
    { apply Forall2_nil_inv_l in Hk as ->. destruct ch'; [constructor|done]. }
    apply Forall2_cons_inv_l in Hk as (rel' & es2 & [K1 _] & Hk & ->). destruct ch' as [|c' ch']; [done|]. injection Hfl as F1 F2 Hfl.
    apply Forall_cons in Hs as [S1 Hs]. constructor; [|by apply IH]. split; [unfold flags; by rewrite F1, F2|]. split; [done|].
    unfold bits_ok in *. by rewrite K1.
  - intros i _ tops _ _. split; [constructor|]. by rewrite take_0.
  - intros i r rel rtes inputs Hk Hi Hl _ IH [Hf1 Hf]%Forall_cons tops Hlen Ht. pose proof Hlen as Hlen'. rewrite children_mentries in Hlen'.
    csimpl in Hlen'. destruct (push_entries (BaseMap rel) tops Hf1 ltac:(cbn in *; lia) Ht) as [Hk1 Hfl]. cbn [push_inputs].
    destruct (IH Hf (drop 1 tops)) as [I1 I2].
    { rewrite length_drop, children_mentries. lia. }
    { by apply Forall_drop. }
    destruct tops as [|top tops]; [cbn in Hlen'; lia|]. cbn [push_down entries] in *. apply Forall2_cons in Hk1 as [[K1 K2] _]. split.
    + constructor; [done|by rewrite K2|by rewrite K1|done].
    + rewrite !children_mentries in *. csimpl. cbn [drop] in I2. rewrite drop_0 in *. rewrite I2. f_equal. exact (f_equal (hd (true, true)) Hfl).
  - intros i r q m rtes inputs Hk Hs Hsh IHm Hi _ IH [Hf1 Hf]%Forall_cons tops Hlen Ht. pose proof Hlen as Hlen'.
    rewrite children_mentries in Hlen'. csimpl in Hlen'. rewrite length_app in Hlen'.
    destruct (push_entries m tops Hf1 ltac:(cbn in *; lia) Ht) as [Hk1 Hfl]. cbn [push_inputs].
    destruct (IH Hf (drop (length (entries m)) tops)) as [I1 I2].
    { rewrite length_drop, children_mentries. cbn in Hlen'. lia. }
    { by apply Forall_drop. }
    split.
    + eapply subquery_shape; [done|done|apply IHm; [done|cbn in Hlen'; lia|done]| |done]. clear -Hk1 Hi.
      induction Hk1 as [|rel rel' l l' [_ K] _ IHk]; [constructor|]. apply Forall_cons in Hi as [<- Hi]. constructor; [done|by apply IHk].
    + rewrite !children_mentries in *. csimpl. rewrite !fmap_app, Hfl, I2, length_app, <- fmap_app, take_take_drop. done.
  - intros i r rtes inputs Hk _ IH [_ Hf]%Forall_cons tops Hlen Ht. destruct (IH Hf tops Hlen Ht) as [I1 I2]. split; [by constructor|done].
Qed.

Lemma same_attrs es l k :
  Forall2 (λ rel rel', attrEntries rel' = attrEntries rel ∧ rtindex rel' = rtindex rel) es l →
  Forall2 (λ rel rel', attrEntries rel' = attrEntries rel) es k → Forall2 (λ rel rel', attrEntries rel' = attrEntries rel) l k.
Proof.
  intros H. revert k. induction H as [|x y es l [E _] _ IH]; intros k Hk.
  - apply Forall2_nil_inv_l in Hk as ->. constructor.
  - apply Forall2_cons_inv_l in Hk as (z & k' & E' & Hk & ->). constructor; [congruence|by apply IH].
Qed.

Lemma infer_rel_attrs contr rel : attrEntries (infer_rel contr rel) = attrEntries rel.
Proof. unfold infer_rel. destruct (_ || _); [done|]. by destruct (foldl _ _ _). Qed.

(** The analysed map of a query, and its decisions. *)
Lemma generateCopyMaps_shape get_opcode contr q st :
  IS_TRANSC contr = false → query_ok cat q = true → copy_spj cat q = true →
  ∃ m m' st', generateCopyMapForQueryNode cat get_opcode contr q 1 st = Ok (m, st') ∧
    generateCopyMaps cat get_opcode contr q st = Ok (m', st') ∧ shape cat agreed q m' ∧
    (λ rel, negb (noRewrite rel)) <$> entries m' = contributes_copy contr <$> certain m ∧
    attr_count <$> entries m' = (λ i, length (rd_att cat i)) <$> accesses q.
Proof.
  intros Hc Hq Hs. destruct (generate_plain cat get_opcode contr Hc q Hq 1 st) as (es & inputs & s1 & E & Hp).
  destruct (inferStaticCopy_ok contr 1 es inputs s1 Hp) as (m' & E' & _ & Hfl & _).
  pose proof (generate_shape cat get_opcode contr Hc q Hq Hs 1 st _ s1 E) as Hsh.
  exists (QueryMap 1 es inputs), m', s1. split; [done|]. unfold generateCopyMaps. hrun E. split; [exact E'|].
  rewrite (certain_plain _ Hp). cbn [entries].
  assert (attr_count <$> entries m' = (λ i, length (rd_att cat i)) <$> accesses q) as Hcnt.
  { rewrite <- (shape_counts cat ranged q _ (λ _ _ _ H, proj2 H) Hsh). unfold inferStaticCopy in E'. destruct (infer_query_ok _ s1 Hp) as (m2 & E2 & Hd & _ & es' & inputs' & ->). rewrite (bind_ok _ _ _ _ _ E2) in E'.
    rewrite push_unfold in E'. injection E' as <-. cbn [entries] in *. clear -Hd. induction Hd as [|rel rel' l l' H _ IH]; [done|].
    csimpl. rewrite IH. f_equal. unfold attr_count. rewrite infer_rel_attrs. destruct H as (attrs & -> & H). cbn. symmetry.
    by eapply Forall2_length. }
  split; [|split; [|done]].
  2:{ rewrite <- list_fmap_compose. apply (f_equal (fmap (λ p : bool * bool, negb p.2))) in Hfl. rewrite <- !list_fmap_compose in Hfl.
      etrans; [exact Hfl|]. apply list_fmap_ext. intros k rel _. cbn. by rewrite negb_involutive. }
  destruct (infer_query_ok _ s1 Hp) as (m2 & E2 & _ & Hf & es' & inputs' & ->). unfold inferStaticCopy in E'. rewrite (bind_ok _ _ _ _ _ E2) in E'.
  rewrite push_unfold in E'. injection E' as <-. apply (infer_shape _ _ Hsh Hp) in E2. cbn [entries] in Hfl.
  set (tops := infer_rel contr <$> es') in *.
  assert (Forall (λ top, noRewrite top = negb (isStatic top)) tops) as Ht.
  { apply Forall_forall. intros top Htop. apply (list_elem_of_fmap_2 flags) in Htop. rewrite Hfl in Htop.
    apply list_elem_of_fmap in Htop as (rel & Hrel & _). unfold flags in Hrel. by injection Hrel as -> ->. }
  pose proof (push_shape _ _ E2 Hf tops) as H3. cbn [entries] in H3. specialize (H3 ltac:(unfold tops; by rewrite length_fmap) Ht).
  destruct (push_entries _ tops Hf ltac:(cbn; unfold tops; by rewrite length_fmap) Ht) as [Hk Hpf]. rewrite push_unfold in *. cbn [entries] in *.
  rewrite take_ge in Hpf by (unfold tops; by rewrite length_fmap).
  inversion H3 as [q0 k0 es0 in0 HF HI]; subst. constructor; [|done].
  assert (Forall2 (λ rel rel', attrEntries rel' = attrEntries rel) (forboth (λ rel top, push_flags top rel) es' tops) tops) as Hat.
  { clear -Hk. unfold tops in *. assert (Forall2 (λ rel rel', attrEntries rel' = attrEntries rel) es' (infer_rel contr <$> es')) as Hi.
    { apply Forall2_fmap_r, Forall_Forall2_diag, Forall_forall. intros rel _. apply infer_rel_attrs. }
    by eapply same_attrs. }
  clear -HF Hat Hpf. revert HF Hat Hpf. generalize (forboth (λ rel top, push_flags top rel) es' tops) as l, (children (push_inputs tops inputs')) as ch.
  generalize tops as k. induction k as [|top k IH]; intros l ch HF Hat Hpf.
  - apply Forall2_nil_inv_r in Hat as ->. by apply Forall2_nil_inv_l in HF as ->.
  - apply Forall2_cons_inv_r in Hat as (rel & l' & A & Hat & ->). apply Forall2_cons_inv_l in HF as (c & ch' & (F1 & F2 & F3) & HF & ->).
    injection Hpf as P1 P2 Hpf. constructor; [|by eapply IH]. unfold agreed, flags in *. rewrite <- P1, <- P2. split; [done|]. split; [done|].
    unfold bits_ok in *. by rewrite A.
Qed.

End analysis.

End CopyShape.
