(* ===== verification/TransTree.v ===== *)
(** * The tree of the parts of a query

    Facts about the static analysis for transformation provenance: the parts are numbered from the root down, each
    number once, and the bit sets stand for the sets of parts they are meant to stand for. *)

From Stdlib Require Import ZArith Lia.
From stdpp Require Import base strings numbers list sets gmap.
From S2P Require Import Prelude VarBit VarBitFacts AttrName QueryTree Queries RewriteSPJ CopyMap TransInfo.
Import VarBitFacts QueryTree RewriteSPJ CopyMap TransInfo.

Module TransTree.

(** ** Induction on trees *)

Section tree_ind.
Context (P : TransNode → Prop).
Context (HSub : ∀ id b op children s i, Forall P children → P (TransSubInfo id b op children s i)).
Context (HInfo : ∀ b root a i, P root → P (TransProvInfo b root a i)).

Fixpoint TransNode_tree_ind (n : TransNode) : P n :=
  match n with
  | TransSubInfo id b op children s i =>
      HSub id b op children s i
        ((fix go (l : list TransNode) : Forall P l :=
            match l with [] => Forall_nil_2 P | c :: l => Forall_cons_2 P c l (TransNode_tree_ind c) (go l) end) children)
  | TransProvInfo b root a i => HInfo b root a i (TransNode_tree_ind root)
  end.

End tree_ind.

(** The numbers of the parts, a part before the parts below it. *)
Fixpoint numbers (n : TransNode) : list Z :=
  match n with
  | TransSubInfo id _ _ children _ _ => id :: concat (map numbers children)
  | TransProvInfo _ root _ _ => numbers root
  end.

(** ** Numbering *)

(** The numbers from [a] up to but not including [b]. *)
Definition upto (a b : Z) : list Z := seqZ a (b - a).

Lemma upto_app a b c : (a ≤ b)%Z → (b ≤ c)%Z → upto a b ++ upto b c = upto a c.
Proof.
  intros. unfold upto. replace (c - a)%Z with ((b - a) + (c - b))%Z by lia. rewrite seqZ_app by lia. do 2 f_equal. lia.
Qed.

Lemma upto_cons a b : (a < b)%Z → a :: upto (a + 1) b = upto a b.
Proof. intros. unfold upto. rewrite (seqZ_cons a) by lia. do 2 f_equal; lia. Qed.

Lemma upto_nil a : upto a a = [].
Proof. unfold upto. by rewrite Z.sub_diag. Qed.

Lemma upto_one a : upto a (a + 1) = [a].
Proof. unfold upto. by replace (a + 1 - a)%Z with 1%Z by lia. Qed.

(** A step of the analysis that uses up the numbers of the parts it makes. *)
Definition numbering {A} (parts : A → list Z) (m : Z → W (A * Z)) : Prop :=
  ∀ cur s a cur' s', m cur s = Ok ((a, cur'), s') → (cur ≤ cur')%Z ∧ parts a = upto cur cur'.

Definition opt_numbers (o : option TransNode) : list Z := match o with Some n => numbers n | None => [] end.
Definition list_numbers (l : list TransNode) : list Z := concat (map numbers l).

Lemma option_list_numbers o : list_numbers (option_list o) = opt_numbers o.
Proof. destruct o; [apply app_nil_r|done]. Qed.

Lemma list_numbers_app l k : list_numbers (l ++ k) = list_numbers l ++ list_numbers k.
Proof. unfold list_numbers. by rewrite map_app, concat_app. Qed.

Lemma numbering_bind {A B} (f : A → list Z) (m : Z → W (A * Z)) cur (k : A * Z → W B) s b s' :
  numbering f m → bind (m cur) k s = Ok (b, s') →
  ∃ a cur' s1, (cur ≤ cur')%Z ∧ f a = upto cur cur' ∧ k (a, cur') s1 = Ok (b, s').
Proof.
  intros Hm ([a cur'] & s1 & E & E')%bind_inv. destruct (Hm _ _ _ _ _ E). by eexists _, _, _.
Qed.

Section analysis.
Context (cat : syscache).

Lemma analyseRte_numbering rte sub i :
  (∀ f, sub = Some f → ∀ i, numbering numbers (f i)) → numbering opt_numbers (λ cur, analyseRte rte sub cur i).
Proof.
  intros Hsub cur s t cur' s'. unfold analyseRte. destruct (rtekind rte).
  - intros [= <- <- <-]. split; [lia|]. cbn. by rewrite upto_one.
  - destruct sub as [f|]; [|done]. rewrite bind_deref.
    intros (a & c & s1 & H1 & H2 & [= <- <- <-])%(numbering_bind numbers (f i)); [done|auto].
  - intros [= <- <- <-]. by rewrite upto_nil.
  - intros [= <- <- <-]. by rewrite upto_nil.
  - intros [= <- <- <-]. by rewrite upto_nil.
  - intros [= <- <- <-]. by rewrite upto_nil.
Qed.

Definition subs_numbering (subs : list (option (Z → Z → W (TransNode * Z)))) : Prop :=
  Forall (λ sub, ∀ f, sub = Some f → ∀ i, numbering numbers (f i)) subs.

(** A part with two arguments. *)
Lemma two_numbering (f g : Z → W (option TransNode * Z)) op i :
  numbering opt_numbers f → numbering opt_numbers g →
  numbering opt_numbers (λ cur,
    '(l, id1) ← f (cur + 1)%Z; '(r, id2) ← g id1;
    ret (Some (makeTransSubInfo cur op (option_list l ++ option_list r) i), id2)).
Proof.
  intros Hf Hg cur s t cur' s' E.
  apply (numbering_bind _ _ _ _ _ _ _ Hf) in E as (l & c1 & s1 & H1 & El & E).
  apply (numbering_bind _ _ _ _ _ _ _ Hg) in E as (r & c2 & s2 & H2 & Er & [= <- <- <-]).
  split; [lia|]. cbn. change (concat (map numbers ?l)) with (list_numbers l).
  rewrite list_numbers_app, !option_list_numbers, El, Er, upto_app by lia. apply upto_cons. lia.
Qed.

Lemma entry_numbering rt subs i : subs_numbering subs → numbering opt_numbers (λ cur,
  rte ← deref (rt_fetch i rt); sub ← deref (rt_fetch i subs); analyseRte rte sub cur i).
Proof.
  intros Hs cur s t cur' s'. destruct (rt_fetch i rt) as [rte|]; [|done]. rewrite bind_deref.
  destruct (rt_fetch i subs) as [sub|] eqn:E; [|done]. rewrite bind_deref. apply analyseRte_numbering.
  unfold rt_fetch in E. case_decide; [|done]. by apply (Forall_lookup_1 _ _ _ _ Hs E).
Qed.

Lemma analyseJoinTreeNode_numbering rt subs n : subs_numbering subs → numbering opt_numbers (analyseJoinTreeNode rt subs n).
Proof. intros Hs. induction n as [i|jt l IHl r IHr c J]; [by apply entry_numbering|by apply two_numbering]. Qed.

Lemma analyseOneSetOp_numbering rt subs t : subs_numbering subs → numbering opt_numbers (analyseOneSetOp rt subs t).
Proof. intros Hs. induction t as [i|op all l IHl r IHr]; [by apply entry_numbering|by apply two_numbering]. Qed.

Lemma analyse_items_numbering rt subs ns : subs_numbering subs → numbering list_numbers (analyse_items rt subs ns).
Proof.
  intros Hs. induction ns as [|n ns IH]; intros cur s ts cur' s' E.
  { injection E as <- <- <-. by rewrite upto_nil. }
  apply (numbering_bind _ _ _ _ _ _ _ (analyseJoinTreeNode_numbering rt subs n Hs)) in E as (t & c1 & s1 & H1 & Et & E).
  apply (numbering_bind _ _ _ _ _ _ _ IH) in E as (ts' & c2 & s2 & H2 & Ets & [= <- <- <-]).
  split; [lia|]. rewrite list_numbers_app, option_list_numbers, Et, Ets. apply upto_app; lia.
Qed.

(** The chain of the parts above the joins: its numbers are the next ones. *)
Definition chain_ok (cur : Z) (c : list (Z * SubOperationType) * Z) : Prop := (cur ≤ c.2)%Z ∧ c.1.*1 = upto cur c.2.

Lemma add_node_ok cur add op c : chain_ok cur c → chain_ok cur (ADD_NODE_TO_TRANS add op c).
Proof.
  intros [H1 H2]. unfold ADD_NODE_TO_TRANS. destruct add; [|done]. split; cbn; [lia|].
  rewrite fmap_app, H2. cbn. by rewrite <- (upto_app cur c.2 (c.2 + 1)), upto_one by lia.
Qed.

Lemma analyseAgg_ok query cur s c s' : analyseAgg cat query cur s = Ok (c, s') → chain_ok cur c.
Proof.
  unfold analyseAgg, analyseProjection, analyseSelection.
  intros (p & s1 & _ & (p' & s2 & _ & [= <- <-])%bind_inv)%bind_inv. apply add_node_ok, add_node_ok.
  assert (chain_ok cur ([], cur)) by (split; cbn; [lia|by rewrite upto_nil]).
  destruct (hasAggs query); [|done]. apply (add_node_ok cur true). by apply add_node_ok, add_node_ok.
Qed.

Lemma close_chain_numbers c last : numbers (close_chain c last) = c.*1 ++ numbers last.
Proof. induction c as [|[id op] c IH]; [done|]. cbn. by rewrite app_nil_r, IH. Qed.

Lemma root_of_numbers parts s root s' : root_of parts s = Ok (root, s') → numbers root = list_numbers parts.
Proof.
  unfold root_of. destruct parts as [|[]  [|]]; try done; [|case_decide; [|done]]; intros [= <- <-]; cbn; by rewrite app_nil_r.
Qed.

Lemma analyseJoinTree_numbering query subs cur c s root cur' s' :
  subs_numbering subs → chain_ok cur c → analyseJoinTree query subs c s = Ok ((root, cur'), s') →
  (cur ≤ cur')%Z ∧ numbers root = upto cur cur'.
Proof.
  intros Hs Hc. unfold analyseJoinTree. set (c' := ADD_NODE_TO_TRANS _ _ c).
  assert (chain_ok cur c') as [H1 H2] by (subst c'; by apply add_node_ok). clearbody c'. clear Hc.
  intros (ts & c2 & s1 & H3 & Ets & E)%(numbering_bind list_numbers (analyse_items (rtable query) subs (fromlist query)));
    [|by apply analyse_items_numbering].
  destruct (reverse c'.1) as [|[id op] above] eqn:Er.
  - apply bind_inv in E as (r & s2 & E & [= <- <- <-]). split; [lia|]. rewrite (root_of_numbers _ _ _ _ E), Ets.
    apply (f_equal reverse) in Er. rewrite reverse_involutive in Er. rewrite Er in H2. cbn in H2.
    unfold upto in H2. apply (f_equal length) in H2. rewrite length_seqZ in H2. cbn in H2. by replace cur with c'.2 by lia.
  - injection E as <- <- <-. split; [lia|]. rewrite close_chain_numbers. cbn. fold (list_numbers ts). rewrite Ets.
    apply (f_equal reverse) in Er. rewrite reverse_involutive, reverse_cons in Er. rewrite Er in H2.
    rewrite fmap_app in H2. cbn in H2. rewrite <- (upto_app cur c'.2 c2) by lia. by rewrite <- H2, <- app_assoc.
Qed.

Lemma analyseOneQueryNode_unfold query i cur :
  analyseOneQueryNode cat query i cur =
    let subs := map (λ rte, match subquery rte with Some q => Some (analyseOneQueryNode cat q) | None => None end) (rtable query) in
    '(root, curId) ←
      match setOperations query with
      | Some t =>
          '(part, curId) ← analyseOneSetOp (rtable query) subs t cur;
          root ← root_of (option_list part); ret (root, curId)
      | None => c ← analyseAgg cat query cur; analyseJoinTree query subs c
      end;
    ret (TransProvInfo false root 0 i, curId).
Proof. by destruct query. Qed.

(** The parts of a query are numbered from the root down with consecutive numbers. *)
Lemma analysis_numbering query i : numbering numbers (analyseOneQueryNode cat query i).
Proof.
  revert i. revert query.
  apply (Query_tree_ind (λ q, ∀ i, numbering numbers (analyseOneQueryNode cat q i))
    (λ r, ∀ q, subquery r = Some q → ∀ i, numbering numbers (analyseOneQueryNode cat q i))).
  - intros ct ag sl rt Hrt fl qu tl gc hq dc sc lo lc so ps sr i cur s info cur' s'.
    rewrite analyseOneQueryNode_unfold. cbn [setOperations rtable]. set (subs := map _ rt). set (query := mkQuery _ _ _ _ _ _ _ _ _ _ _ _ _ _ _ _).
    assert (subs_numbering subs) as Hs.
    { subst subs. apply Forall_fmap, Queries.list_all_Forall. clear -Hrt. induction Hrt as [|r Hr rt _ IH]; constructor; [|done].
      cbn. intros f. destruct (subquery r) as [q|] eqn:E; [|done]. intros [= <-]. by apply Hr. }
    clearbody subs. cbv zeta. intros ([root c1] & s1 & E & [= <- <- <-])%bind_inv. cbn [numbers]. destruct so as [t|].
    + apply (numbering_bind _ _ _ _ _ _ _ (analyseOneSetOp_numbering rt subs t Hs)) in E as (p & c2 & s2 & H1 & Ep & E).
      apply bind_inv in E as (r & s3 & E & [= <- <- <-]). by rewrite (root_of_numbers _ _ _ _ E), option_list_numbers.
    + apply bind_inv in E as (c & s2 & Ec%analyseAgg_ok & E). by apply (analyseJoinTree_numbering query subs cur c s2 root c1 s1 Hs Ec E).
  - intros k rel sub Hsub ft vt jt av al er pb pa q. cbn. intros ->. by inversion Hsub.
Qed.

End analysis.

(** ** Static parts and bit sets *)

(** The bit string [v] of [n] bits stands for the set [S] of numbers. *)
Definition represents (n : Z) (v : VarBit.VarBit) (S : gset Z) : Prop :=
  VarBit.wf_varbit v ∧ VarBit.bit_len v = n ∧ ∀ i, VarBit.bit v i = bool_decide (Z.of_nat i + 1 ∈ S)%Z.

Lemma represents_unique n v S S' : (∀ i, i ∈ S ∪ S' → (1 ≤ i)%Z) → represents n v S → represents n v S' → S = S'.
Proof.
  intros HS (_ & _ & H1) (_ & _ & H2). apply set_eq. intros i.
  destruct (decide (1 ≤ i)%Z) as [Hi|Hi]; [|split; intros; exfalso; apply Hi, HS; set_solver].
  pose proof (H1 (Z.to_nat (i - 1))) as E. rewrite H2 in E. replace (Z.of_nat (Z.to_nat (i - 1)) + 1)%Z with i in E by lia.
  revert E. repeat case_bool_decide; naive_solver.
Qed.

Lemma represents_inj n v v' S : represents n v S → represents n v' S → v = v'.
Proof.
  intros (W1 & L1 & H1) (W2 & L2 & H2). destruct v as [l1 b1], v' as [l2 b2]. cbn in *. subst l1. f_equal; [done|].
  apply (bits_ext (VarBit.mkVarBit l2 b1) (VarBit.mkVarBit l2 b2)); subst.
  - by apply wf_same_bytes.
  - apply W1.
  - apply W2.
  - intros i. by rewrite H1, H2.
Qed.

Lemma represents_single n id : (1 ≤ id ≤ n)%Z →
  ∃ v, VarBit.generateVarbitSetElem n id = Ok v ∧ represents n v {[id]}.
Proof.
  intros H. destruct (generateVarbitSetElem_ok n id H) as (v & E & Hl & W & Hb). exists v. split; [done|].
  split_and!; try done. intros i. rewrite Hb. apply bool_decide_ext. rewrite elem_of_singleton. lia.
Qed.

(** The bytewise or of two strings of the same size. *)
Lemma or_represents n a b S T :
  represents n a S → represents n b T →
  ∃ r, VarBit.or_loop (VarBit.bit_dat a) (VarBit.bit_dat b) = Ok r ∧ represents n (VarBit.mkVarBit n r) (S ∪ T).
Proof.
  intros (Wa & La & Ha) (Wb & Lb & Hb). destruct a as [la da], b as [lb db]. cbn in *. subst la lb.
  pose proof (wf_same_bytes _ _ Wa Wb eq_refl) as Hl. destruct (or_loop_ok da db Hl) as (r & E & _).
  exists r. split; [done|]. split; [by apply (or_wf n da db r)|]. split; [done|]. intros i.
  rewrite (or_bits da db r n i E Hl), Ha, Hb, <- bool_decide_or. apply bool_decide_ext. set_solver.
Qed.

Lemma varBitOr_represents n a b S T :
  represents n a S → represents n b T → ∃ r, VarBit.varBitOr a b = Ok r ∧ represents n r (S ∪ T).
Proof.
  intros Ha Hb. destruct (or_represents n a b S T Ha Hb) as (r & E & Hr). unfold VarBit.varBitOr. rewrite E.
  eexists. split; [done|]. by replace (VarBit.bit_len a) with n by (symmetry; apply Ha).
Qed.

Lemma bitor_represents n a b S T :
  represents n a S → represents n b T → ∃ r, VarBit.bitor_with_null (Some a) (Some b) = Ok (Some r) ∧ represents n r (S ∪ T).
Proof.
  intros Ha Hb. destruct (or_represents n a b S T Ha Hb) as (r & E & Hr). unfold VarBit.bitor_with_null.
  destruct Ha as (_ & La & _), Hb as (_ & Lb & _). rewrite decide_True by congruence. rewrite E, La.
  rewrite pad_result_id by apply Hr. by eexists.
Qed.

Lemma bitor_null_represents n a S :
  represents n a S →
  VarBit.bitor_with_null (Some a) None = Ok (Some a) ∧ VarBit.bitor_with_null None (Some a) = Ok (Some a).
Proof. intros (W & _ & _). cbn. by rewrite pad_result_id. Qed.

(** Does the set of a part contain the set of its child at this position? *)
Definition counts (isStatic : bool) (op : SubOperationType) (first : bool) : bool :=
  isStatic && (negb (bool_decide (op = SUBOP_SetOp_Diff)) || first).

Fixpoint union_counted (isStatic : bool) (op : SubOperationType) (first : bool) (sets : list (gset Z)) : gset Z :=
  match sets with
  | [] => ∅
  | X :: sets => (if counts isStatic op first then X else ∅) ∪ union_counted isStatic op false sets
  end.

(** The set of a part: of a static one the part and all the parts below it that contribute, otherwise the part alone. *)
Fixpoint static_set (n : TransNode) : gset Z :=
  match n with
  | TransSubInfo id b op children _ _ => {[id]} ∪ union_counted b op true (map static_set children)
  | TransProvInfo _ root _ _ => static_set root
  end.

Definition all_of (l : list Prop) : Prop := foldr and True l.

Lemma all_of_Forall {A} (P : A → Prop) l : all_of (map P l) ↔ Forall P l.
Proof. induction l as [|x l IH]; cbn; [by rewrite Forall_nil|]. by rewrite Forall_cons, <- IH. Qed.

(** Every part has its set. *)
Fixpoint sets_ok (n : Z) (t : TransNode) : Prop :=
  match t with
  | TransSubInfo id b op children s i =>
      (∃ v, s = Some v ∧ represents n v (static_set t)) ∧ all_of (map (sets_ok n) children)
  | TransProvInfo _ root _ _ => sets_ok n root
  end.

(** The equation of the flag of a part, as [checkStatic] computes it: a property of the result of the analysis for proofs, not its specification, which is
    [TransFacts.static_exact]. *)
Definition static_flag (op : SubOperationType) (children : list TransNode) : bool :=
  match op, children with
  | SUBOP_SetOp_Diff, l :: _ => TRANS_GET_STATIC l
  | _, _ => static_op op && forallb TRANS_GET_STATIC children
  end.

Fixpoint static_ok (t : TransNode) : Prop :=
  match t with
  | TransSubInfo _ b op children _ _ => b = static_flag op children ∧ all_of (map static_ok children)
  | TransProvInfo b root _ _ => b = TRANS_GET_STATIC root ∧ static_ok root
  end.

(** The tree without bit sets, and without static flags too. *)
Fixpoint unset (t : TransNode) : TransNode :=
  match t with
  | TransSubInfo id b op children _ i => TransSubInfo id b op (map unset children) None i
  | TransProvInfo b root a i => TransProvInfo b (unset root) a i
  end.

Fixpoint skeleton (t : TransNode) : TransNode :=
  match t with
  | TransSubInfo id _ op children _ i => TransSubInfo id false op (map skeleton children) None i
  | TransProvInfo _ root a i => TransProvInfo false (skeleton root) a i
  end.

Lemma checkStatic_ok t : static_ok (checkStatic t) ∧ skeleton (checkStatic t) = skeleton t.
Proof.
  induction t as [id b op cs s i IH|b root a i IH] using TransNode_tree_ind; cbn.
  - split; [split; [done|]|].
    + rewrite all_of_Forall, Forall_fmap. eapply Forall_impl; [exact IH|]. by intros c [].
    + f_equal. rewrite map_map. apply map_ext_in. intros c Hc%list_elem_of_In. by apply (proj1 (Forall_forall _ _) IH c Hc).
  - destruct IH as [H1 H2]. by rewrite H2.
Qed.

Lemma map_eq_Forall {A B} (f g : A → B) l : Forall (λ x, f x = g x) l → map f l = map g l.
Proof. induction 1; cbn; congruence. Qed.

Lemma skeleton_unset t : skeleton (unset t) = skeleton t.
Proof.
  induction t as [id b op cs s i IH|b root a i IH] using TransNode_tree_ind; cbn; [|by rewrite IH].
  f_equal. rewrite map_map. by apply map_eq_Forall.
Qed.

Lemma numbers_skeleton t : numbers (skeleton t) = numbers t.
Proof.
  induction t as [id b op cs s i IH|b root a i IH] using TransNode_tree_ind; cbn; [|done].
  do 2 f_equal. rewrite map_map. by apply map_eq_Forall.
Qed.

Lemma static_set_unset t : static_set (unset t) = static_set t.
Proof.
  induction t as [id b op cs s i IH|b root a i IH] using TransNode_tree_ind; cbn; [|done].
  do 2 f_equal. rewrite map_map. by apply map_eq_Forall.
Qed.

Lemma get_static_unset t : TRANS_GET_STATIC (unset t) = TRANS_GET_STATIC t.
Proof. by destruct t. Qed.

Lemma static_flag_unset op cs : static_flag op (map unset cs) = static_flag op cs.
Proof.
  assert (forallb TRANS_GET_STATIC (map unset cs) = forallb TRANS_GET_STATIC cs) as E.
  { induction cs as [|c cs IH]; [done|]. cbn. by rewrite get_static_unset, IH. }
  unfold static_flag. rewrite E. by destruct op, cs; cbn; rewrite ?get_static_unset.
Qed.

Lemma static_ok_unset t : static_ok (unset t) ↔ static_ok t.
Proof.
  induction t as [id b op cs s i IH|b root a i IH] using TransNode_tree_ind; cbn; [|by rewrite get_static_unset, IH].
  rewrite static_flag_unset, !all_of_Forall, Forall_fmap. f_equiv. rewrite !Forall_forall. rewrite Forall_forall in IH.
  split; intros H c Hc; by apply IH, H.
Qed.
(** The loop over the children of a part. *)
Section children.
Context (compute : TransNode → W (TransNode * VarBit.VarBit)) (isStatic : bool) (op : SubOperationType).

Fixpoint compute_children (first : bool) (l : list TransNode) (set : VarBit.VarBit) : W (list TransNode * VarBit.VarBit) :=
  match l with
  | [] => ret ([], set)
  | c :: l =>
      '(c, childSet) ← compute c;
      set ← (if counts isStatic op first then lift (VarBit.varBitOr set childSet) else ret set);
      '(l, set) ← compute_children false l set;
      ret (c :: l, set)
  end.

End children.

Lemma computeSets_sub numNodes id b op cs s i :
  computeSets numNodes (TransSubInfo id b op cs s i) =
    (set ← lift (VarBit.generateVarbitSetElem numNodes id);
     '(cs, set) ← compute_children (computeSets numNodes) b op true cs set;
     ret (TransSubInfo id b op cs (Some set) i, set)).
Proof. reflexivity. Qed.

(** What [computeSets] does to a tree. *)
Definition computes (n : Z) (t : TransNode) : Prop :=
  ∃ t' v, (∀ s, computeSets n t s = Ok ((t', v), s)) ∧ represents n v (static_set t) ∧ root_set t' = Some v ∧
    sets_ok n t' ∧ unset t' = unset t.

Lemma compute_children_ok n b op first cs set S :
  Forall (computes n) cs → represents n set S →
  ∃ cs' v, (∀ s, compute_children (computeSets n) b op first cs set s = Ok ((cs', v), s)) ∧
    represents n v (S ∪ union_counted b op first (map static_set cs)) ∧ Forall (sets_ok n) cs' ∧ map unset cs' = map unset cs.
Proof.
  intros Hcs. revert first set S. induction Hcs as [|c cs (c' & v & E & Hv & Hr & Hc & Hu) _ IH]; intros first set S HS.
  { exists [], set. cbn. rewrite union_empty_r_L. by split_and!. }
  assert (∃ set', (∀ s, (if counts b op first then lift (VarBit.varBitOr set v) else ret set) s = Ok (set', s)) ∧
    represents n set' (S ∪ if counts b op first then static_set c else ∅)) as (set' & E' & HS').
  { destruct (counts b op first); [|exists set; by rewrite union_empty_r_L].
    destruct (varBitOr_represents n set v S (static_set c) HS Hv) as (r & Er & Hr'). exists r. by rewrite Er. }
  destruct (IH false set' _ HS') as (cs' & w & E'' & Hw & Hall & Hus). exists (c' :: cs'), w. split.
  - intros s. cbn [compute_children]. hrun (E s). hrun (E' s). by hrun (E'' s).
  - cbn. rewrite (assoc_L (∪)). split_and!; [done|by constructor|]. by rewrite Hu, Hus.
Qed.

Lemma computeSets_ok n t : Forall (λ i, 1 ≤ i ≤ n)%Z (numbers t) → computes n t.
Proof.
  induction t as [id b op cs s i IH|b root a i IH] using TransNode_tree_ind; cbn [numbers].
  - intros [Hid Hcs]%Forall_cons. destruct (represents_single n id Hid) as (v & Ev & Hv).
    assert (Forall (computes n) cs) as Hall.
    { clear -IH Hcs. induction IH as [|c cs Hc _ IH]; [done|]. cbn in Hcs. apply Forall_app in Hcs as [H1 H2]. constructor; auto. }
    destruct (compute_children_ok n b op true cs v {[id]} Hall Hv) as (cs' & w & E & Hw & Hs & Hu).
    exists (TransSubInfo id b op cs' (Some w) i), w. split_and!; [|done|done| |].
    + intros st. rewrite computeSets_sub, Ev. unfold lift. rewrite bind_ret. by hrun (E st).
    + assert (map static_set cs' = map static_set cs) as Hss.
      { apply (f_equal (map static_set)) in Hu. rewrite !map_map in Hu. by rewrite !(map_ext _ _ static_set_unset) in Hu. }
      cbn. rewrite all_of_Forall, Hss. split; [by eexists|done].
    + cbn. by rewrite Hu.
  - intros H. destruct (IH H) as (root' & v & E & Hv & Hr & Hs & Hu). exists (TransProvInfo b root' a i), v.
    split_and!; [|done..|]; [|cbn; by rewrite Hu]. intros st. cbn [computeSets]. by hrun (E st).
Qed.

End TransTree.
