(* ===== verification/TransSemantics.v ===== *)
(** * Evaluation with transformation provenance

    The reference for the transformation provenance rewriter: the evaluation of select-project-join queries over tuples
    annotated with the set of the parts of the query that took part in their computation.  A part takes part in a row unless it
    belongs to the side of an outer join that has no match in the row.  [evalTrans] knows nothing about static
    parts, bit strings or NULL tests; it uses the tree of the analysis only for the numbers of the parts.

    [spj_tree] is the fragment of the theorems (besides [query_ok]), [distinguishable] the condition on the data under which the rewriter
    can tell a missing match from a match. *)

From Stdlib Require Import ZArith Lia.
From stdpp Require Import base strings numbers list sets gmap.
From S2P Require Import Prelude VarBit AttrName QueryTree SqlSemantics Queries TransInfo TransRewrite.
Import QueryTree SqlSemantics Queries TransInfo TransRewrite.

Module TransSemantics.

(** A tuple with the parts that took part in it, or nothing if it stands for a missing match. *)
Abbreviation trow := (tuple * option (gset Z))%type.

Definition present (r : trow) : bool := match r.2 with Some _ => true | None => false end.

(** A joined row is there if one of its arguments is. *)
Definition join_trow (t : tuple) (l r : trow) : trow := (t, if present l || present r then Some ∅ else None).

(** The parts of a tree that took part in a row: those whose own row is there; the parts of a subquery come with its row. *)
Fixpoint parts (e : Z → trow) (t : TransNode) : gset Z :=
  match t with
  | TransSubInfo id _ _ children _ i =>
      if bool_decide (i = TRANS_NO_RTINDEX) || present (e i) then {[id]} ∪ union_list (map (parts e) children) else ∅
  | TransProvInfo _ _ _ i => default ∅ (e i).2
  end.

Definition info_root (info : TransNode) : TransNode := match info with TransProvInfo _ root _ _ => root | _ => info end.

Section eval.
Context (op_sem : operators) (cat : syscache) (db : Z → list tuple).

Definition null_trow (q : Query) (i : Z) : trow := (null_tuple cat q i, None).

Definition solve_trans (rows : Z → list trow) (q : Query) : list (Z → trow) :=
  solve op_sem fst join_trow rows (null_trow q) (aliases q) q.

Definition body_trans (rows : Z → list trow) (q : Query) (root : TransNode) : list trow :=
  limited op_sem q ((λ p, (visible q p.1, p.2)) <$> distinct q (λ p, distinct_key q p.1)
    ((λ e, (targets op_sem fst q e, Some (parts e root))) <$> solve_trans rows q)).

(** The rows of the entry at an index, given the tree of the query around it. *)
Definition rows_at (tabs : list (Z → TransNode → list trow)) (root : TransNode) (i : Z) : list trow :=
  match rt_fetch i tabs with Some f => f i root | None => [] end.

Fixpoint evalTrans (q : Query) (info : TransNode) : list trow :=
  body_trans (rows_at (map evalTransRTE (rtable q)) (info_root info)) q (info_root info)
with evalTransRTE (r : RangeTblEntry) (i : Z) (root : TransNode) : list trow :=
  match rtekind r with
  | RTE_RELATION => (λ t, (t, Some ∅)) <$> db (relid r)
  | RTE_SUBQUERY =>
      match subquery r, find_info i root with Some q, Some info => evalTrans q info | _, _ => [] end
  | _ => []
  end.

(** ** Missing matches *)

(** The sides of outer joins that may be missing. *)
Fixpoint optional_sides (n : Node) : list Z :=
  match n with
  | RangeTblRef _ => []
  | JoinExpr jt l r _ _ =>
      match jt with
      | JOIN_INNER => [] | JOIN_LEFT => [root r] | JOIN_RIGHT => [root l] | JOIN_FULL => [root l; root r]
      end ++ optional_sides l ++ optional_sides r
  end.

(** The first column of a row that is there is not NULL. *)
Definition shows_presence (r : trow) : bool := negb (present r) || negb (is_none (attr 1 r.1)).

(** In every row of every query, the optional sides that are there show it in their first column. *)
Fixpoint distinguishable (q : Query) (info : TransNode) : bool :=
  let root := info_root info in
  forallb (λ e, forallb (λ i, shows_presence (e i)) (concat (map optional_sides (fromlist q))))
    (solve_trans (rows_at (map evalTransRTE (rtable q)) root) q) &&
  forallb id (imap (λ k f, f (Z.of_nat k + 1)%Z root) (map distinguishable_rte (rtable q)))
with distinguishable_rte (r : RangeTblEntry) (i : Z) (root : TransNode) : bool :=
  match subquery r, find_info i root with Some q, Some info => distinguishable q info | _, _ => true end.

End eval.

(** The function [bitor_with_null] of the catalog is the one of prov_trans_bitset.c. *)
Definition enc (v : option VarBit.VarBit) : value := match v with Some v => Some (varbit_datum v) | None => None end.
Definition bitor_ops (op_sem : operators) : Prop :=
  ∀ a b, func_sem op_sem F_BITOR_WITH_NULL [enc a; enc b] =
    match VarBit.bitor_with_null a b with Ok r => enc r | Err _ => None end.

(** ** The queries of the theorems *)

(** Every entry has at least one column, and its columns have names. *)
Definition columns_named (cat : syscache) (r : RangeTblEntry) : bool :=
  bool_decide (0 < rte_width cat r)%nat &&
  match rtekind r with
  | RTE_RELATION => true
  | _ => bool_decide (length (colnames (eref r)) = rte_width cat r) && forallb (λ c, negb (is_none c)) (colnames (eref r))
  end.

(** Select-project-join at every level; a query that only passes on a subquery reads the first entry of its range table. *)
Fixpoint spj_tree (cat : syscache) (q : Query) : bool :=
  negb (grouped q) && is_none (setOperations q) && forallb (columns_named cat) (rtable q) &&
  forallb (λ s, negb (bool_decide (tleSortGroupRef s = 0%Z))) (distinctClause q) &&
  match fromlist q with
  | [] => negb (is_nil (targetList q))
  | [RangeTblRef i] => bool_decide (i = 1%Z)
  | _ => true
  end && forallb (spj_tree_rte cat) (rtable q)
with spj_tree_rte (cat : syscache) (r : RangeTblEntry) : bool :=
  match subquery r with Some q => spj_tree cat q | None => true end.

End TransSemantics.
