(* ===== verification/TransShape.v ===== *)
(** * The analysis of select-project-join queries

    On the queries of the fragment the static analysis for transformation provenance succeeds and its tree has the shape of the
    query: a chain of parts for projection and selection above the tree of the FROM clause, with an
    info for every subquery. *)

From Stdlib Require Import ZArith Lia.
From stdpp Require Import base strings numbers list sets gmap.
From S2P Require Import Prelude VarBit AttrName QueryTree SqlSemantics SqlFacts Queries RewriteSPJ CopyMap CopyFacts TransInfo TransRewrite.
From S2P Require Import CopyGraph CopyQuery.
From S2P Require Import TransTree TransSemantics.
Import QueryTree SqlSemantics SqlFacts Queries RewriteSPJ CopyMap CopyFacts CopyGraph CopyQuery TransInfo TransRewrite TransTree TransSemantics.

Module TransShape.

(** ** Shape *)

Section shape.
Context (sub_ok : Z → TransNode → Prop) (q : Query).

(** The tree of an item of the FROM clause. *)
Fixpoint item_of (n : Node) (t : TransNode) : Prop :=
  match n with
  | RangeTblRef i =>
      (kind_at q i = Some RTE_RELATION ∧ ∃ id b s, t = TransSubInfo id b SUBOP_BaseRel [] s i) ∨
      (kind_at q i = Some RTE_SUBQUERY ∧ sub_ok i t ∧ ∃ b root a, t = TransProvInfo b root a i)
  | JoinExpr jt l r _ J =>
      ∃ id b tl tr s, t = TransSubInfo id b (join_op jt) [tl; tr] s J ∧ item_of l tl ∧ item_of r tr
  end.

(** A chain of parts above the items. *)
Inductive chained (ts : list TransNode) : TransNode → Prop :=
  | chained_last id b op s : static_op op = true → chained ts (TransSubInfo id b op ts s TRANS_NO_RTINDEX)
  | chained_cons id b op t s : static_op op = true → chained ts t → chained ts (TransSubInfo id b op [t] s TRANS_NO_RTINDEX).

Definition rooted (root : TransNode) : Prop :=
  ∃ ts, Forall2 item_of (fromlist q) ts ∧ (chained ts root ∨ ts = [root]).

End shape.

Definition sub_tree (subs : list (TransNode → Prop)) (i : Z) (t : TransNode) : Prop :=
  match rt_fetch i subs with Some P => P t | None => False end.

Fixpoint tree_of (q : Query) (info : TransNode) : Prop :=
  rooted (sub_tree (map (λ r, match subquery r with Some q => tree_of q | None => λ _, False end) (rtable q))) q (info_root info).

Definition sub_of (q : Query) (i : Z) (t : TransNode) : Prop :=
  ∃ r s, rt_fetch i (rtable q) = Some r ∧ subquery r = Some s ∧ tree_of s t.

Lemma item_of_mono (P P' : Z → TransNode → Prop) q n t : (∀ i t, P i t → P' i t) → item_of P q n t → item_of P' q n t.
Proof.
  intros HP. revert t. induction n as [i|jt l IHl r IHr c J]; intros t; cbn; [naive_solver|].
  intros (id & b & tl & tr & s & -> & Hl & Hr). exists id, b, tl, tr, s. auto.
Qed.

Lemma tree_of_unfold q info : tree_of q info ↔ rooted (sub_of q) q (info_root info).
Proof.
  transitivity (rooted (sub_tree (map (λ r, match subquery r with Some q => tree_of q | None => λ _, False end) (rtable q))) q (info_root info));
    [by destruct q|]. unfold rooted.
  assert (∀ i t, sub_tree (map (λ r, match subquery r with Some q => tree_of q | None => λ _, False end) (rtable q)) i t ↔ sub_of q i t) as H.
  { intros i t. unfold sub_tree, sub_of. rewrite rt_fetch_map. destruct (rt_fetch i (rtable q)) as [r|]; cbn; [|naive_solver].
    destruct (subquery r) as [s|] eqn:Es; naive_solver. }
  split; intros (ts & H1 & H2); exists ts; (split; [|done]); (eapply Forall2_impl; [exact H1|]); intros n t Hnt;
    (eapply item_of_mono; [|exact Hnt]); intros i t'; apply H.
Qed.

(** The shape does not depend on flags and sets. *)
Lemma skeleton_sub t id b op cs s i :
  skeleton t = TransSubInfo id b op cs s i → ∃ b' cs' s', t = TransSubInfo id b' op cs' s' i ∧ map skeleton cs' = cs.
Proof. destruct t; [|done]. cbn. intros [= <- <- <- <- <- <-]. by eexists _, _, _. Qed.

Lemma skeleton_info t b root a i :
  skeleton t = TransProvInfo b root a i → ∃ b' root', t = TransProvInfo b' root' a i ∧ skeleton root' = root.
Proof. destruct t; [done|]. cbn. intros [= <- <- <- <-]. by eexists _, _. Qed.

Lemma item_of_skeleton (P P' : Z → TransNode → Prop) q n t t' :
  (∀ i t t', skeleton t = skeleton t' → P i t → P' i t') → skeleton t = skeleton t' → item_of P q n t → item_of P' q n t'.
Proof.
  intros HP. revert t t'. induction n as [i|jt l IHl r IHr c J]; intros t t' E; cbn.
  - intros [[Hk (id & b & s & ->)]|(Hk & Hs & b & root & a & ->)].
    + left. split; [done|]. symmetry in E. apply skeleton_sub in E as (b' & cs' & s' & -> & Hcs).
      destruct cs'; [|done]. by eexists _, _, _.
    + right. split; [done|]. split; [by eapply HP|]. symmetry in E. apply skeleton_info in E as (b' & root' & -> & _). by eexists _, _, _.
  - intros (id & b & tl & tr & s & -> & Hl & Hr). symmetry in E. apply skeleton_sub in E as (b' & cs' & s' & -> & Hcs).
    destruct cs' as [|tl' [|tr' [|]]]; try done. cbn in Hcs. injection Hcs as El Er.
    exists id, b', tl', tr', s'. split; [done|]. split; [by eapply IHl|by eapply IHr].
Qed.

Lemma chained_skeleton ts t t' :
  chained ts t → skeleton t = skeleton t' → ∃ ts', map skeleton ts = map skeleton ts' ∧ chained ts' t'.
Proof.
  intros H. revert t'. induction H as [id b op s Hop|id b op t s Hop Ht IH]; intros t' E; symmetry in E.
  - apply skeleton_sub in E as (b' & cs' & s' & -> & Hcs). exists cs'. split; [done|by constructor].
  - apply skeleton_sub in E as (b' & cs' & s' & -> & Hcs). destruct cs' as [|c [|]]; try done. cbn in Hcs. injection Hcs as Hc.
    destruct (IH c (eq_sym Hc)) as (ts' & H1 & H2). exists ts'. split; [done|by constructor].
Qed.

Lemma items_skeleton (P P' : Z → TransNode → Prop) q ns ts ts' :
  (∀ i t t', skeleton t = skeleton t' → P i t → P' i t') → map skeleton ts = map skeleton ts' →
  Forall2 (item_of P q) ns ts → Forall2 (item_of P' q) ns ts'.
Proof.
  intros HP E H. revert ts' E. induction H as [|n t ns ts Hn _ IH]; intros [|t' ts'] E; try done; cbn in E.
  injection E as Et Ets. constructor; [by eapply item_of_skeleton|by apply IH].
Qed.

Lemma rooted_skeleton (P P' : Z → TransNode → Prop) q t t' :
  (∀ i t t', skeleton t = skeleton t' → P i t → P' i t') → skeleton t = skeleton t' → rooted P q t → rooted P' q t'.
Proof.
  intros HP E (ts & H1 & [H2| ->]).
  - destruct (chained_skeleton ts t t' H2 E) as (ts' & Hs & Hc). exists ts'. split; [by eapply items_skeleton|by left].
  - exists [t']. split; [eapply items_skeleton; [done| |exact H1]; cbn; congruence|by right].
Qed.

Lemma root_skeleton info info' : skeleton info = skeleton info' → skeleton (info_root info) = skeleton (info_root info').
Proof. destruct info, info'; cbn; congruence. Qed.

Lemma tree_of_skeleton q info info' : skeleton info = skeleton info' → tree_of q info → tree_of q info'.
Proof.
  revert info info'. revert q. apply (Query_tree_ind
    (λ q, ∀ info info', skeleton info = skeleton info' → tree_of q info → tree_of q info')
    (λ r, ∀ q, subquery r = Some q → ∀ info info', skeleton info = skeleton info' → tree_of q info → tree_of q info')).
  - intros ct ag sl rt Hrt fl qu tl gc hq dc sc lo lc so ps sr info info' E. rewrite !tree_of_unfold.
    apply rooted_skeleton; [|by apply root_skeleton]. intros i t t' Et (r & s & Hr & Hs & Ht). exists r, s. split_and!; try done.
    apply list_all_Forall in Hrt. exact (rt_fetch_Forall _ _ _ _ Hrt Hr s Hs t t' Et Ht).
  - intros k rel sub Hsub ft vt jt av al er pb pa q. cbn. intros ->. by inversion Hsub.
Qed.

(** ** Columns *)

Section columns.
Context (cat : syscache).

Definition first_column (i : Z) (vs : list Var) : Prop :=
  ∃ v, head vs = Some v ∧ varno v = i ∧ varattno v = 1%Z ∧ varlevelsup v = 0%Z.

Lemma expandTupleDesc_first atts k er i st :
  Forall (λ a, attisdropped a = false) atts → Forall is_Some (colnames er) →
  ∃ ns vs, expandTupleDesc atts k er i 0 st = Ok ((ns, vs), st) ∧ length ns = length atts ∧
    (k = 0%nat → atts ≠ [] → first_column i vs).
Proof.
  intros Ha Hc. revert k. induction Ha as [|a atts Ha _ IH]; intros k; cbn [expandTupleDesc]; [by eexists [], []|].
  rewrite Ha. destruct (IH (S k)) as (ns & vs & E & Hl & _).
  assert (∃ label, (if decide (k < length (colnames er))%nat then deref (mjoin (colnames er !! k)) else ret (attname a)) st = Ok (label, st))
    as (label & El).
  { case_decide as Hk; [|by eexists]. destruct (lookup_lt_is_Some_2 _ _ Hk) as [x Hx]. rewrite Hx.
    destruct (Forall_lookup_1 _ _ _ _ Hc Hx) as [y ->]. by eexists. }
  hrun El. hrun E. eexists _, _. split; [done|]. cbn. split; [by rewrite Hl|]. intros -> _. by eexists.
Qed.

Lemma expand_targets_ok tl names k i st :
  length names = length (filter (λ te, resjunk te = false) tl) → Forall is_Some names →
  ∃ ns vs, expand_targets tl names k i 0 st = Ok ((ns, vs), st) ∧ length ns = length names ∧
    (k = 0%Z → names ≠ [] → first_column i vs).
Proof.
  revert names k. induction tl as [|te tl IH]; intros names k Hl Hn; cbn [expand_targets].
  { destruct names; [|done]. by eexists [], []. }
  destruct (resjunk te) eqn:Ej.
  - rewrite filter_cons_False in Hl by congruence. by apply IH.
  - rewrite filter_cons_True in Hl by done. destruct names as [|n names]; [done|]. apply Forall_cons in Hn as [[x ->] Hn].
    destruct (IH names (k + 1)%Z ltac:(cbn in Hl; lia) Hn) as (ns & vs & E & Hns & _).
    change (mjoin (head (Some x :: names))) with (Some x). rewrite bind_deref. cbn [tail]. hrun E. eexists _, _. split; [done|].
    cbn. split; [lia|]. intros -> _. by eexists.
Qed.

Lemma expand_join_ok names avs k i st :
  length names = length avs → Forall is_Some names →
  ∃ ns vs, expand_join names avs k i 0 st = Ok ((ns, vs), st) ∧ length ns = length names ∧
    (k = 0%Z → names ≠ [] → first_column i vs).
Proof.
  revert avs k. induction names as [|n names IH]; intros [|v avs] k Hl Hn; try done; [by eexists [], []|].
  apply Forall_cons in Hn as [[x ->] Hn]. destruct (IH avs (k + 1)%Z ltac:(cbn in Hl; lia) Hn) as (ns & vs & E & Hns & _).
  cbn [expand_join]. rewrite bind_deref. hrun E. eexists _, _. split; [done|]. cbn. split; [lia|]. intros -> _. by eexists.
Qed.

(** The columns of an entry with names. *)
Lemma expand_named r i st :
  rte_ok cat r = true → columns_named cat r = true →
  ∃ ns vs, expandRTEWithParam cat r i 0 st = Ok ((ns, vs), st) ∧ length ns = rte_width cat r ∧ first_column i vs.
Proof.
  intros Hok Hn. apply rte_ok_spec in Hok as (_ & _ & _ & _ & Hk). unfold columns_named in Hn. checks.
  unfold expandRTEWithParam, rte_width in *. destruct Hk as [(Hk & _ & _ & Hd & Hc)|[(Hk & s & Hs & _)|Hk]]; rewrite Hk in *.
  - destruct (expandTupleDesc_first (rd_att cat (relid r)) 0 (eref r) i st Hd Hc) as (ns & vs & E & Hl & Hf).
    exists ns, vs. split_and!; try done. apply Hf; [done|]. intros Hnil. rewrite Hnil in *. cbn in *. lia.
  - rewrite Hs in *. rewrite bind_deref. checks.
    destruct (expand_targets_ok (targetList s) (colnames (eref r)) 0 i st) as (ns & vs & E & Hl & Hf); [done| |].
    { eapply Forall_impl; [eassumption|]. intros o. cbn. destruct o; [by eexists|done]. }
    exists ns, vs. split_and!; [done|lia|]. apply Hf; [done|]. intros Hnil. rewrite Hnil in *. cbn in *. lia.
  - checks. destruct (expand_join_ok (colnames (eref r)) (joinaliasvars r) 0 i st) as (ns & vs & E & Hl & Hf); [done| |].
    { eapply Forall_impl; [eassumption|]. intros o. cbn. destruct o; [by eexists|done]. }
    exists ns, vs. split_and!; [done|lia|]. apply Hf; [done|]. intros Hnil. rewrite Hnil in *. cbn in *. lia.
Qed.

End columns.

(** ** The analysis succeeds *)

(** What [spj_tree] says. *)
Record spj_parts (cat : syscache) (q : Query) : Prop := {
  sp_spj :> spj_query cat q;
  sp_named : Forall (λ r, columns_named cat r = true) (rtable q);
  sp_refs : Forall (λ s, tleSortGroupRef s ≠ 0%Z) (distinctClause q);
  sp_root : match fromlist q with [] => targetList q ≠ [] | [RangeTblRef i] => i = 1%Z | _ => True end;
  sp_subs : ∀ r s, r ∈ rtable q → subquery r = Some s → spj_tree cat s = true }.

Lemma spj_tree_spec cat q : query_ok cat q = true → spj_tree cat q = true → spj_parts cat q.
Proof.
  intros Hq Ht. assert (negb (grouped q) && is_none (setOperations q) && forallb (columns_named cat) (rtable q) &&
    forallb (λ s, negb (bool_decide (tleSortGroupRef s = 0%Z))) (distinctClause q) &&
    match fromlist q with [] => negb (is_nil (targetList q)) | [RangeTblRef i] => bool_decide (i = 1%Z) | _ => true end &&
    forallb (spj_tree_rte cat) (rtable q) = true) as H by (by destruct q). clear Ht. checks.
  apply query_ok_spec in Hq as [_ [Hs|[Ha|[t Hs]]]].
  - split; try done.
    + eapply Forall_impl; [eassumption|]. intros s. cbn. rewrite negb_true_iff. apply bool_decide_eq_false.
    + destruct (fromlist q) as [|[i|] [|]]; checks; try done. by destruct (targetList q).
    + intros r s Hr Hrs. match goal with H : Forall _ (rtable q) |- _ =>
        rewrite Forall_forall in H; specialize (H r Hr); revert H end. unfold spj_tree_rte. destruct r. cbn in *. by subst.
  - unfold grouped in *. rewrite (agg_aggs _ _ Ha) in *. done.
  - rewrite (set_tree _ _ _ Hs) in *. done.
Qed.

Section success.
Context (cat : syscache) (q : Query) (Hq : spj_parts cat q).

Lemma scope_entry i : i ∈ scope q → ∃ r, rt_fetch i (rtable q) = Some r.
Proof.
  intros Hi. unfold scope in Hi. apply elem_of_concat in Hi as (l & Hl & (n & -> & Hn)%list_elem_of_fmap).
  pose proof (fo_nodes _ _ Hq) as Hns. rewrite Forall_forall in Hns. specialize (Hns n Hn). clear Hn. revert Hl Hns.
  induction n as [j|jt l IHl r IHr c J]; cbn [node_ok ids].
  - intros ->%list_elem_of_singleton Hk%bool_decide_eq_true_1. unfold kind_at in Hk.
    destruct (rt_fetch j (rtable q)); [by eexists|]. by destruct Hk.
  - rewrite !elem_of_app, list_elem_of_singleton. intros Hi H. checks. destruct Hi as [Hi|[Hi| ->]]; [auto..|].
    unfold kind_at in *. destruct (rt_fetch J (rtable q)); [by eexists|done].
Qed.

Lemma entry_expand i r k st :
  rt_fetch i (rtable q) = Some r →
  ∃ ns vs, expandRTEWithParam cat r k 0 st = Ok ((ns, vs), st) ∧ length ns = width cat q i ∧ first_column k vs.
Proof.
  intros Hr. unfold width. rewrite Hr. apply expand_named.
  - exact (rt_fetch_Forall _ _ _ _ (fo_rtes _ _ Hq) Hr).
  - exact (rt_fetch_Forall _ _ _ _ (sp_named _ _ Hq) Hr).
Qed.

Lemma isVarRenamed_ok te v st :
  is_Some (resname te) → in_scope cat q (scope q) v → ∃ b, isVarRenamed cat q te v st = Ok (b, st).
Proof.
  intros [name Hname] (_ & Hv & Ha). destruct (scope_entry _ Hv) as [r Hr]. unfold isVarRenamed. rewrite Hr, bind_deref.
  destruct (entry_expand _ r 0 st Hr) as (ns & vs & E & Hl & _). hrun E. rewrite Hname, bind_deref.
  destruct (rt_fetch (varattno v) ns) as [x|] eqn:Ex; [rewrite bind_deref; by eexists|].
  unfold rt_fetch in Ex. case_decide; [|lia]. apply lookup_ge_None in Ex. lia.
Qed.

Lemma kept_columns_ok tes vars st :
  Forall (column_ok cat q) tes → Forall (λ te, is_Some (resname te)) tes →
  ∃ o, kept_columns cat q tes vars st = Ok (o, st) ∧ (fromlist q = [] → tes ≠ [] → o = None).
Proof.
  intros Ht Hn. revert vars. induction Ht as [|te tes [Hp Hc] _ IH]; intros vars; cbn [kept_columns]; [by eexists|].
  apply Forall_cons in Hn as [Hn Hns]. destruct (getVarFromTeIfSimple (expr te)) as [v|] eqn:Ev; [|by eexists].
  apply (plain_var _ _ Hp) in Ev. pose proof (Hc v Ev) as Hv. case_decide; [by eexists|].
  destruct (isVarRenamed_ok te v st Hn Hv) as (b & E). hrun E. destruct b; [by eexists|].
  destruct (resolveToRteVar_ok (mkOps (λ _ _, None) (λ _ _, None) (λ _ _, None)) cat q v st) as (v' & E' & _); [apply Hq|done|].
  hrun E'. destruct (IH Hns (vars ++ [v'])) as (o & Eo & _). exists o. split; [done|]. intros Hf.
  destruct Hv as (_ & Hv & _). unfold scope in Hv. rewrite Hf in Hv. by apply elem_of_nil in Hv.
Qed.

Lemma column_missing_ok rtes k vars st :
  (∀ r, r ∈ rtes → r ∈ rtable q) → ∃ b, column_missing cat rtes k vars st = Ok (b, st).
Proof.
  revert k. induction rtes as [|r rtes IH]; intros k Hr; cbn [column_missing]; [by eexists|].
  destruct (IH (k + 1)%Z) as (b & Eb); [intros r' Hr'; apply Hr; by right|]. case_decide; [by eexists|].
  destruct (expand_named cat r (k + 1) st) as (ns & vs & E & _).
  - apply (proj1 (Forall_forall _ _) (fo_rtes _ _ Hq)), Hr. left.
  - apply (proj1 (Forall_forall _ _) (sp_named _ _ Hq)), Hr. left.
  - hrun E. destruct (forallb _ vs); by eexists.
Qed.

Lemma expr_ok_no_aggs w D x : expr_ok w D x = true → getAggrExprs x = [].
Proof.
  induction x as [x IH] using Expr_subexprs_ind.
  assert (∀ l, Forall (λ x, expr_ok w D x = true → getAggrExprs x = []) l → forallb (expr_ok w D) l = true →
    concat (map getAggrExprs l) = []) as Hl.
  { clear. induction 1 as [|x l Hx _ IH]; [done|]. cbn. intros [H1 H2]%andb_true_iff. by rewrite Hx, IH. }
  destruct x as [| |o t l|b l|o t l|f t l u s d|f t c l|x t m c|n x|t l d|x r]; cbn [expr_ok getAggrExprs subexprs] in *; try done.
  1-3: by apply Hl.
  - destruct c; try done. by apply Hl.
  - by inversion_clear IH.
  - by inversion_clear IH.
Qed.

Lemma analyseAgg_spj cur st :
  ∃ c, analyseAgg cat q cur st = Ok (c, st) ∧ Forall (λ x, static_op x.2 = true) c.1 ∧ (fromlist q = [] → c.1 ≠ []).
Proof.
  pose proof (spj_grouped _ _ Hq) as Hg. unfold grouped in Hg. apply orb_false_iff in Hg as [[Hagg _]%orb_false_iff _].
  unfold analyseAgg, analyseProjection. rewrite Hagg. unfold isProjection.
  destruct (kept_columns_ok (targetList q) [] st) as (o & E & Ho).
  { apply spj_scope. apply Hq. }
  { eapply Forall_impl; [apply (spj_targets _ _ Hq)|]. intros te Hte. unfold te_ok in Hte. by checks. }
  assert (∃ p, (vars ← kept_columns cat q (targetList q) [];
     match vars with None => ret true | Some vars => column_missing cat (rtable q) 0 vars end) st = Ok (p, st) ∧
     (fromlist q = [] → p = true)) as (p & Ep & Hp).
  { hrun E. destruct o as [vars|].
    - destruct (column_missing_ok (rtable q) 0 vars st) as (b & Eb); [done|]. exists b. split; [done|]. intros Hf.
      pose proof (sp_root _ _ Hq) as Hr. rewrite Hf in Hr. by specialize (Ho Hf Hr).
    - by exists true. }
  hrun Ep. assert (isProjectionUnderAgg q = ret false) as ->.
  { unfold isProjectionUnderAgg. replace (concat _) with (@nil Expr); [done|]. symmetry.
    pose proof (spj_targets _ _ Hq) as Ht. clear -Ht. induction Ht as [|te tes Hte _ IH]; [done|]. csimpl. rewrite IH.
    unfold te_ok in Hte. checks. by rewrite (expr_ok_no_aggs (width cat q) (scope q)). }
  assert (∀ b op c, static_op op = true → Forall (λ x, static_op x.2 = true) c.1 →
    Forall (λ x : Z * _, static_op x.2 = true) (ADD_NODE_TO_TRANS b op c).1) as Hadd.
  { intros b op c Hop Hc. unfold ADD_NODE_TO_TRANS. destruct b; [|done]. apply Forall_app. split; [done|]. by constructor. }
  eexists. split; [destruct p; reflexivity|]. split; [by apply Hadd, Hadd|].
  intros Hf. rewrite (Hp Hf). unfold analyseSelection, ADD_NODE_TO_TRANS. by destruct (quals q) as [[]|].
Qed.

(** The analysis of a subquery. *)
Definition analysed (s : Query) : Prop :=
  ∀ j cur st, ∃ info cur', analyseOneQueryNode cat s j cur st = Ok ((info, cur'), st) ∧ tree_of s info ∧
    ∃ root, info = TransProvInfo false root 0 j.

Context (Hsub : ∀ r s, r ∈ rtable q → rtekind r = RTE_SUBQUERY → subquery r = Some s → analysed s).

Abbreviation subs := (map (λ rte, match subquery rte with Some q => Some (analyseOneQueryNode cat q) | None => None end) (rtable q)).

Lemma rt_fetch_in {A} i (l : list A) x : rt_fetch i l = Some x → x ∈ l.
Proof. unfold rt_fetch. case_decide; [|done]. apply list_elem_of_lookup_2. Qed.

Lemma analyseJoinTreeNode_ok n cur st :
  node_ok cat q n = true →
  ∃ t cur', analyseJoinTreeNode (rtable q) subs n cur st = Ok ((Some t, cur'), st) ∧ item_of (sub_of q) q n t.
Proof.
  revert cur. induction n as [i|jt l IHl r IHr c J]; intros cur; cbn [node_ok analyseJoinTreeNode].
  - unfold kind_at. intros Hk%bool_decide_eq_true_1. rewrite rt_fetch_map.
    destruct (rt_fetch i (rtable q)) as [r|] eqn:Er; [|by destruct Hk]. cbn [fmap option_fmap option_map] in Hk |- *.
    rewrite !bind_deref. unfold analyseRte. cbn [item_of]. unfold kind_at. rewrite Er. cbn.
    destruct Hk as [[= Hk]|[= Hk]]; rewrite Hk.
    + eexists _, _. split; [done|]. left. split; [done|]. by eexists _, _, _.
    + pose proof (rt_fetch_Forall _ _ _ _ (fo_rtes _ _ Hq) Er) as Hr. cbn in Hr.
      apply rte_ok_spec in Hr as (_ & _ & _ & _ & [(? & _)|[(_ & s & Hs & _)|?]]); [congruence| |congruence].
      rewrite Hs, bind_deref. destruct (Hsub r s (rt_fetch_in _ _ _ Er) Hk Hs i cur st) as (info & cur' & E & Ht & root & ->).
      hrun E. eexists _, _. split; [done|]. right. split; [done|]. split; [|by eexists _, _, _]. by exists r, s.
  - intros H. checks. destruct (IHl (cur + 1)%Z ltac:(done)) as (tl & c1 & El & Hl). hrun El.
    destruct (IHr c1 ltac:(done)) as (tr & c2 & Er & Hr). hrun Er. eexists _, _. split; [done|]. cbn [item_of option_list app].
    eexists _, _, _, _, _. split; [done|]. by split.
Qed.

Lemma analyse_items_ok ns cur st :
  Forall (λ n, node_ok cat q n = true) ns →
  ∃ ts cur', analyse_items (rtable q) subs ns cur st = Ok ((ts, cur'), st) ∧ Forall2 (item_of (sub_of q) q) ns ts.
Proof.
  intros Hns. revert cur. induction Hns as [|n ns Hn _ IH]; intros cur; cbn [analyse_items]; [by eexists _, _|].
  destruct (analyseJoinTreeNode_ok n cur st Hn) as (t & c1 & E & Ht). hrun E.
  destruct (IH c1) as (ts & c2 & E' & Hts). hrun E'. eexists _, _. split; [done|]. by constructor.
Qed.

Lemma close_chain_ok ts c last :
  Forall (λ x, static_op x.2 = true) c → chained ts last → chained ts (close_chain c last).
Proof. intros Hc Hl. induction Hc as [|[id op] c Hop _ IH]; [done|]. by constructor. Qed.

Lemma analyseJoinTree_ok c st :
  Forall (λ x, static_op x.2 = true) c.1 → (fromlist q = [] → c.1 ≠ []) →
  ∃ root cur', analyseJoinTree q subs c st = Ok ((root, cur'), st) ∧ rooted (sub_of q) q root.
Proof.
  intros Hc Hne. unfold analyseJoinTree. set (c' := ADD_NODE_TO_TRANS _ _ c).
  assert (Forall (λ x, static_op x.2 = true) c'.1 ∧ (c'.1 = [] → ∃ n, fromlist q = [n])) as [Hc' Hone].
  { subst c'. unfold ADD_NODE_TO_TRANS. destruct c as [[|x c] cur]; cbn in *.
    - destruct (fromlist q) as [|n [|n' ns]]; cbn; [by destruct Hne|by split; [|eauto]|split; [by constructor|done]].
    - destruct (fromlist q) as [|n [|n' ns]]; done. }
  clearbody c'. destruct (analyse_items_ok (fromlist q) c'.2 st (fo_nodes _ _ Hq)) as (ts & c2 & E & Hts). hrun E.
  destruct (reverse c'.1) as [|[id op] above] eqn:Er; apply (f_equal reverse) in Er; rewrite reverse_involutive in Er.
  - destruct (Hone Er) as [n Hn]. pose proof (sp_root _ _ Hq) as Hroot. rewrite Hn in Hts, Hroot.
    inversion Hts as [|? t ? ? Ht Hnil]; subst. inversion Hnil; subst.
    assert (root_of [t] st = Ok (t, st)) as Et.
    { destruct n as [i|jt l r cnd J]; cbn [item_of] in Ht.
      - subst i. destruct Ht as [[_ (? & ? & ? & ->)]|(_ & _ & ? & ? & ? & ->)]; [done|]. cbn. by rewrite decide_True.
      - by destruct Ht as (? & ? & ? & ? & ? & -> & _). }
    hrun Et. eexists _, _. split; [done|]. exists [t]. rewrite Hn. split; [done|by right].
  - eexists _, _. split; [done|]. exists ts. split; [done|]. left. rewrite reverse_cons in Er. rewrite Er in Hc'.
    apply Forall_app in Hc' as [H1 [H2 _]%Forall_cons]. apply close_chain_ok; [done|]. by constructor.
Qed.

End success.

(** The analysis of a query of the fragment succeeds, and its tree has the shape of the query. *)
Lemma analysis_succeeds cat q : query_ok cat q = true → spj_tree cat q = true → analysed cat q.
Proof.
  revert q. apply (Query_tree_ind (λ q, query_ok cat q = true → spj_tree cat q = true → analysed cat q)
    (λ r, rte_ok cat r = true → spj_tree_rte cat r = true → ∀ s, rtekind r = RTE_SUBQUERY → subquery r = Some s → analysed cat s)).
  - intros ct ag sl rt Hrt fl qu tl gc hq dc sc lo lc so ps sr Hok Ht. pose proof (spj_tree_spec cat _ Hok Ht) as Hq.
    set (q := mkQuery _ _ _ _ _ _ _ _ _ _ _ _ _ _ _ _) in *. intros j cur st. rewrite analyseOneQueryNode_unfold.
    rewrite (spj_setops _ _ Hq). cbv zeta. destruct (analyseAgg_spj cat q Hq cur st) as (c & Ec & Hc & Hne).
    destruct (λ Hsub, analyseJoinTree_ok cat q Hq Hsub c st Hc Hne) as (root & cur' & E & Hr).
    { intros r s Hr Hk Hs. apply list_all_Forall in Hrt. rewrite Forall_forall in Hrt. apply (Hrt r Hr); [| |done|done].
      - exact (proj1 (Forall_forall _ _) (fo_rtes _ _ Hq) r Hr).
      - pose proof (sp_subs _ _ Hq r s Hr Hs) as H. destruct r. cbn in *. by subst. }
    eexists _, _. split; [erewrite bind_ok by (hrun Ec; exact E); reflexivity|]. split; [by apply tree_of_unfold|by eexists].
  - intros k rel sub Hsub ft vt jt av al er pb pa Hok Ht s. cbn. intros -> ->. apply option_all_Some in Hsub. cbn in *. checks. auto.
Qed.

End TransShape.
