(* ===== verification/TransEnv.v ===== *)
(** * Present and missing rows

    In every row of a FROM clause, the rows of the inputs are there or missing as the kinds of the joins allow; a missing row consists of
    NULLs. *)

From Stdlib Require Import ZArith Lia.
From stdpp Require Import base strings numbers list sets gmap.
From S2P Require Import Prelude AttrName QueryTree SqlSemantics SqlFacts Queries ProvReplay RewriteJoins CopyFacts TransInfo TransRewrite.
From S2P Require Import RewriteFacts TransSemantics.
Import QueryTree SqlSemantics SqlFacts Queries ProvReplay RewriteJoins CopyFacts TransInfo TransRewrite TransSemantics.

Module TransEnv.

(** Which arguments of a join can be missing. *)
Definition may_miss (jt : JoinType) (l r : bool) : Prop :=
  match jt with
  | JOIN_INNER => l = r | JOIN_LEFT => r = true → l = true | JOIN_RIGHT => l = true → r = true | JOIN_FULL => True
  end.

Fixpoint coherent (e : Z → trow) (n : Node) : Prop :=
  match n with
  | RangeTblRef _ => True
  | JoinExpr jt l r _ _ => coherent e l ∧ coherent e r ∧ may_miss jt (present (e (root l))) (present (e (root r)))
  end.

Lemma coherent_ext n e e' : (∀ i, i ∈ ids n → e' i = e i) → coherent e n → coherent e' n.
Proof.
  induction n as [i|jt l IHl r IHr c J]; cbn [coherent ids]; [done|]. intros E (Hl & Hr & Hm).
  pose proof (root_in_ids l). pose proof (root_in_ids r). rewrite !E by set_solver.
  split; [apply IHl; [set_solver|done]|]. split; [apply IHr; [set_solver|done]|done].
Qed.

Section env.
Context (op_sem : operators) (cat : syscache) (q : Query) (rows : Z → list trow).
Context (Hrows : ∀ i r, r ∈ rows i → present r = true).

Abbreviation fromT := (from op_sem fst join_trow rows (null_trow cat q) (aliases q)).
Abbreviation nullT := (nullify op_sem fst join_trow (null_trow cat q) (aliases q)).
Abbreviation bindT := (bind_join op_sem fst join_trow (aliases q)).
Abbreviation settledT := (settled op_sem fst join_trow (aliases q)).

Lemma bind_coherent jt l r c J f :
  NoDup (ids (JoinExpr jt l r c J)) → coherent f l → coherent f r → may_miss jt (present (f (root l))) (present (f (root r))) →
  coherent (bindT (root l) (root r) J f) (JoinExpr jt l r c J) ∧
  present (bindT (root l) (root r) J f J) = present (f (root l)) || present (f (root r)).
Proof.
  intros HN Hl Hr Hm. destruct (join_apart _ _ _ _ _ HN) as (Jl & Jr & _).
  assert (∀ i, i ≠ J → bindT (root l) (root r) J f i = f i) as E.
  { intros i Hi. unfold bind_join, bind_row. by rewrite decide_False. }
  split.
  - apply (coherent_ext _ _ (bindT (root l) (root r) J f)) in Hl; [|intros i Hi; apply E; by intros ->].
    apply (coherent_ext _ _ (bindT (root l) (root r) J f)) in Hr; [|intros i Hi; apply E; by intros ->].
    cbn [coherent]. rewrite !E; [done|..]; intros <-; [by apply Jr, root_in_ids|by apply Jl, root_in_ids].
  - unfold bind_join, bind_row. rewrite decide_True by done. unfold join_trow, present at 1. by destruct (present _ || present _).
Qed.

Lemma nullify_coherent n e :
  NoDup (ids n) → scoped (aliases q) n → coherent (nullT n e) n ∧ present (nullT n e (root n)) = false.
Proof.
  revert e. induction n as [i|jt l IHl r IHr c J]; intros e HN Hs.
  { cbn. unfold bind_row. by rewrite decide_True. }
  pose proof (nodup_join _ _ _ _ _ HN) as (Nl & Nr & Hd). pose proof Hs as (Sl & Sr & _). cbn [nullify root].
  destruct (IHl e Nl Sl) as [Cl Pl]. destruct (IHr (nullT l e) Nr Sr) as [Cr Pr]. set (f := nullT r (nullT l e)) in *.
  destruct (nullify_extends op_sem fst join_trow rows (null_trow cat q) (aliases q) r (nullT l e) Nr Sr) as [_ Hout]. fold f in Hout.
  assert (∀ i, i ∈ ids l → f i = nullT l e i) as E by (intros i Hi; apply Hout; set_solver).
  apply (coherent_ext _ _ f E) in Cl. rewrite <- (E (root l) (root_in_ids l)) in Pl.
  destruct (bind_coherent jt l r c J f HN Cl Cr) as [H1 H2]; [rewrite Pl, Pr; by destruct jt|]. by rewrite H2, Pl, Pr.
Qed.

(** The first argument of a join, then the second one, which may be missing. *)
Lemma two_coherent n1 n2 e g f :
  (∀ e e', NoDup (ids n1) → scoped (aliases q) n1 → e' ∈ fromT n1 e → coherent e' n1 ∧ present (e' (root n1)) = true) →
  (∀ e e', NoDup (ids n2) → scoped (aliases q) n2 → e' ∈ fromT n2 e → coherent e' n2 ∧ present (e' (root n2)) = true) →
  NoDup (ids n1) → NoDup (ids n2) → scoped (aliases q) n1 → scoped (aliases q) n2 → ids n1 ## ids n2 →
  g ∈ fromT n1 e → f ∈ fromT n2 g ∨ f = nullT n2 g →
  coherent f n1 ∧ coherent f n2 ∧ present (f (root n1)) = true ∧ (f ∈ fromT n2 g → present (f (root n2)) = true).
Proof.
  intros IH1 IH2 N1 N2 S1 S2 Hd Hg Hf. destruct (IH1 e g N1 S1 Hg) as [C1 P1].
  assert (∀ i, i ∈ ids n1 → f i = g i) as E.
  { intros i Hi. destruct Hf as [Hf| ->].
    - destruct (from_extends op_sem fst join_trow rows (null_trow cat q) (aliases q) n2 g f N2 S2 Hf) as [_ H]. apply H. set_solver.
    - destruct (nullify_extends op_sem fst join_trow rows (null_trow cat q) (aliases q) n2 g N2 S2) as [_ H]. apply H. set_solver. }
  split; [by apply (coherent_ext _ g)|]. rewrite (E (root n1) (root_in_ids n1)).
  split; [|split; [done|intros Hf'; by apply (IH2 g f)]].
  destruct Hf as [Hf| ->]; [by apply (IH2 g f)|]. by apply nullify_coherent.
Qed.

Lemma from_coherent n e e' :
  NoDup (ids n) → scoped (aliases q) n → e' ∈ fromT n e → coherent e' n ∧ present (e' (root n)) = true.
Proof using Hrows.
  revert e e'. induction n as [i|jt l IHl r IHr c J]; intros e e' HN Hs He.
  { cbn in He. apply list_elem_of_fmap in He as (x & -> & Hx). cbn. unfold bind_row. rewrite decide_True by done.
    split; [done|]. by eapply Hrows. }
  pose proof (nodup_join _ _ _ _ _ HN) as (Nl & Nr & Hd). pose proof Hs as (Sl & Sr & _). assert (ids r ## ids l) as Hd' by set_solver.
  cbn [from] in He. apply list_elem_of_fmap in He as (f & -> & Hf). cbn [root].
  set (ok := List.filter (λ e, eval_qual op_sem (vals_of fst e) c)) in *.
  assert (∀ es f, f ∈ ok es → f ∈ es) as Hok by (intros es g; unfold ok; rewrite elem_of_filter_bool; tauto).
  pose proof (λ g f, two_coherent l r e g f IHl IHr Nl Nr Sl Sr Hd) as Hlr.
  pose proof (λ g f, two_coherent r l e g f IHr IHl Nr Nl Sr Sl Hd') as Hrl.
  assert (coherent f l ∧ coherent f r ∧ may_miss jt (present (f (root l))) (present (f (root r))) ∧
    present (f (root l)) || present (f (root r)) = true) as (Cl & Cr & Hm & Hp).
  2:{ destruct (bind_coherent jt l r c J f HN Cl Cr Hm) as [H1 H2]. by rewrite H2. }
  destruct jt; [| |apply elem_of_app in Hf as [Hf|Hf]|]; apply list_elem_of_bind in Hf as (g & Hf & Hg).
  - apply Hok in Hf. destruct (Hlr g f Hg (or_introl Hf)) as (H1 & H2 & H3 & H4). cbn. rewrite H3, H4 by done. done.
  - apply or_null_in in Hf as [Hf|Hf]; [apply Hok in Hf|]; destruct (Hlr g f Hg ltac:(auto)) as (H1 & H2 & H3 & H4); cbn; by rewrite H3.
  - apply or_null_in in Hf as [Hf|Hf]; [apply Hok in Hf|]; destruct (Hlr g f Hg ltac:(auto)) as (H1 & H2 & H3 & H4); cbn; by rewrite H3.
  - destruct (ok _) in Hf; [|by apply elem_of_nil in Hf]. apply list_elem_of_singleton in Hf.
    destruct (Hrl g f Hg ltac:(auto)) as (H1 & H2 & H3 & H4); cbn; by rewrite H3, orb_true_r.
  - apply or_null_in in Hf as [Hf|Hf]; [apply Hok in Hf|]; destruct (Hrl g f Hg ltac:(auto)) as (H1 & H2 & H3 & H4); cbn; by rewrite H3, orb_true_r.
Qed.

Lemma from_list_coherent ns e e' :
  NoDup (concat (ids <$> ns)) → Forall (scoped (aliases q)) ns →
  e' ∈ from_list op_sem fst join_trow rows (null_trow cat q) (aliases q) ns e →
  Forall (λ n, coherent e' n ∧ present (e' (root n)) = true) ns.
Proof using Hrows.
  revert e. induction ns as [|n ns IH]; intros e; csimpl; [by constructor|].
  intros (N1 & Hd & N2)%NoDup_app [S1 S2]%Forall_cons (f & Hf & Hf')%list_elem_of_bind.
  destruct (from_list_settled op_sem fst join_trow rows (null_trow cat q) (aliases q) ns f e' N2 S2 Hf) as [_ Hout].
  constructor; [|by eapply IH]. destruct (from_coherent n e f N1 S1 Hf') as [H1 H2].
  split; [by apply (coherent_ext _ f); [intros i Hi; apply Hout; auto|]|]. rewrite Hout; [done|]. apply Hd, root_in_ids.
Qed.

(** ** Rows of a FROM clause *)

(** What is known of a row: joins are computed, the rows of the entries come from their tables or are missing, and the missing ones
    are where the joins allow it. *)
Definition fine (e : Z → trow) (n : Node) : Prop :=
  settledT e n ∧ coherent e n ∧ from_rows rows (null_trow cat q) n e.

Lemma fine_join e jt l r c J : fine e (JoinExpr jt l r c J) →
  fine e l ∧ fine e r ∧ may_miss jt (present (e (root l))) (present (e (root r))) ∧
  present (e J) = present (e (root l)) || present (e (root r)).
Proof using Type.
  clear Hrows. intros ((Sl & Sr & SJ) & (Cl & Cr & Hm) & Hf).
  split; [split; [done|split; [done|intros i Hi; apply Hf; cbn; set_solver]]|].
  split; [split; [done|split; [done|intros i Hi; apply Hf; cbn; set_solver]]|]. split; [done|].
  rewrite SJ. unfold join_value, join_trow, present at 1. by destruct (present _ || present _).
Qed.

Lemma absent_all e n : fine e n → present (e (root n)) = false → ∀ i, i ∈ ids n → present (e i) = false.
Proof using Type.
  clear Hrows. induction n as [i|jt l IHl r IHr c J]; intros Hf Hp j; cbn [ids root] in *.
  - by intros ->%list_elem_of_singleton.
  - apply fine_join in Hf as (Fl & Fr & _ & E). rewrite E in Hp. apply orb_false_iff in Hp as [Pl Pr].
    rewrite !elem_of_app, list_elem_of_singleton. intros [Hj|[Hj| ->]]; [by apply IHl|by apply IHr|]. by rewrite E, Pl, Pr.
Qed.

(** A missing row consists of NULLs. *)
Lemma absent_null e n i k :
  scoped (aliases q) n → fine e n → i ∈ ids n → present (e i) = false → attr k (e i).1 = None.
Proof using Hrows.
  revert i k. induction n as [j|jt l IHl r IHr c J]; intros i k Hs Hf Hi Hp.
  - apply list_elem_of_singleton in Hi as ->. destruct Hf as (_ & _ & Hf). destruct (Hf j) as [Hr| ->]; [cbn; set_solver| |].
    + by rewrite (Hrows _ _ Hr) in Hp.
    + unfold null_trow, null_tuple. cbn. destruct (rt_fetch j (rtable q)); [apply RewriteFacts.attr_nulls|]. apply (RewriteFacts.attr_nulls _ 0).
  - pose proof Hs as (Sl & Sr & Ha). pose proof Hf as ((_ & _ & EJ) & _). apply fine_join in Hf as (Fl & Fr & _ & E). cbn [ids] in Hi.
    rewrite !elem_of_app, list_elem_of_singleton in Hi. destruct Hi as [Hi|[Hi| ->]]; [by apply IHl|by apply IHr|].
    rewrite E in Hp. apply orb_false_iff in Hp as [Pl Pr]. rewrite EJ. unfold join_value, join_trow. cbn [fst].
    unfold attr. case_decide; [|done]. rewrite list_lookup_fmap. destruct (aliases q J !! Z.to_nat (k - 1)) as [v|] eqn:Ev; [|done].
    apply list_elem_of_lookup_2 in Ev. rewrite Forall_forall in Ha. specialize (Ha v Ev). cbn. case_decide; [|done]. unfold vals_of.
    apply elem_of_app in Ha as [Hv|Hv]; [apply IHl|apply IHr]; try done; [by apply (absent_all e l)|by apply (absent_all e r)].
Qed.

(** Every row of FROM and WHERE. *)
Lemma solve_fine e :
  from_ok cat q → e ∈ solve_trans op_sem cat rows q →
  Forall (λ n, fine e n ∧ present (e (root n)) = true) (fromlist q).
Proof using Hrows.
  intros Hq He. unfold solve_trans, solve in He. apply elem_of_filter_bool in He as [He _].
  assert (Forall (scoped (aliases q)) (fromlist q)) as Hsc.
  { eapply Forall_impl; [apply (fo_nodes _ _ Hq)|]. intros n. apply scoped_plain. }
  pose proof (from_list_settled op_sem fst join_trow rows (null_trow cat q) (aliases q) _ _ _ (fo_scope _ _ Hq) Hsc He) as [H1 _].
  pose proof (from_list_members op_sem fst join_trow rows (null_trow cat q) (aliases q) _ _ _ (fo_scope _ _ Hq) Hsc He) as H2.
  pose proof (from_list_coherent _ _ _ (fo_scope _ _ Hq) Hsc He) as H3. unfold fine. rewrite !Forall_forall in *.
  intros n Hn. destruct (H3 n Hn). split_and!; auto.
Qed.

End env.

End TransEnv.
