(* ===== verification/TransBuild.v ===== *)
(** * The expression for the bit set

    [buildBitsetComputationForQueryNode] succeeds on the tree of a query of the fragment, and in every row of the FROM clause its
    expression evaluates to the set of the parts that took part in the row. *)

From Stdlib Require Import ZArith Lia.
From stdpp Require Import base strings numbers list sets gmap.
From S2P Require Import Prelude VarBit AttrName QueryTree SqlSemantics SqlFacts Queries RewriteSPJ ProvReplay CopyFacts TransInfo TransRewrite.
From S2P Require Import TransTree TransSemantics TransShape TransEnv.
Import QueryTree SqlSemantics SqlFacts Queries RewriteSPJ ProvReplay CopyFacts TransInfo TransRewrite.
Import TransTree TransSemantics TransShape TransEnv.

Module TransBuild.

(** ** Flags and sets above the infos of the subqueries *)

Fixpoint local_ok (N : Z) (t : TransNode) : Prop :=
  match t with
  | TransSubInfo id b op children s i =>
      b = static_flag op children ∧ (∃ v, s = Some v ∧ represents N v (static_set t)) ∧ all_of (map (local_ok N) children)
  | TransProvInfo b root _ _ => b = true → ∃ v, root_set root = Some v ∧ represents N v (static_set root)
  end.

Lemma sets_ok_root N t : sets_ok N t → ∃ v, root_set t = Some v ∧ represents N v (static_set t).
Proof. induction t as [id b op cs s i _|b root a i IH] using TransNode_tree_ind; [by intros [H _]|done]. Qed.

Lemma local_ok_intro N t : static_ok t → sets_ok N t → local_ok N t.
Proof.
  induction t as [id b op cs s i IH|b root a i IH] using TransNode_tree_ind; cbn [static_ok sets_ok local_ok].
  - rewrite !all_of_Forall. intros [Hb Hs] [Hv Hcs]. split_and!; try done. rewrite Forall_forall in *. auto.
  - intros _ Hs _. by apply sets_ok_root.
Qed.

Lemma union_counted_false op first l : union_counted false op first l = ∅.
Proof. revert first. induction l as [|X l IH]; intros first; [done|]. cbn. rewrite IH. set_solver. Qed.

Lemma union_counted_all op first l : op ≠ SUBOP_SetOp_Diff → union_counted true op first l = ⋃ l.
Proof.
  intros Hop. revert first. induction l as [|X l IH]; intros first; [done|]. cbn. rewrite IH. unfold counts.
  by rewrite bool_decide_eq_false_2.
Qed.

Lemma static_flag_plain op cs : op ≠ SUBOP_SetOp_Diff → static_flag op cs = static_op op && forallb TRANS_GET_STATIC cs.
Proof. by destruct op. Qed.

Lemma static_op_plain op : static_op op = true → op ≠ SUBOP_SetOp_Diff.
Proof. by destruct op. Qed.

Lemma join_op_plain jt : join_op jt ≠ SUBOP_SetOp_Diff.
Proof. by destruct jt. Qed.

(** ** Parts *)

Section parts.
Context (op_sem : operators) (cat : syscache) (q : Query) (rows : Z → list trow).
Context (Hrows : ∀ i r, r ∈ rows i → present r = true).
Context (P : Z → TransNode → Prop).

(** The rows of a static subquery have all its parts. *)
Context (Hstat : ∀ i t r, P i t → TRANS_GET_STATIC t = true → r ∈ rows i → r.2 = Some (static_set t)).

Abbreviation fineT := (fine op_sem cat q rows).

Lemma node_index n : node_ok cat q n = true → root n ≠ TRANS_NO_RTINDEX.
Proof.
  intros H. assert (is_Some (kind_at q (root n))) as [k Hk].
  { destruct n; cbn [node_ok root] in *; checks; [|by eexists]. destruct H as [H|H]; by eexists. }
  unfold kind_at, rt_fetch in Hk. case_decide; [|done]. unfold TRANS_NO_RTINDEX. lia.
Qed.

Lemma item_index n t : item_of P q n t → TRANS_GET_RTINDEX t = root n.
Proof.
  destruct n as [i|jt l r c J]; cbn; [intros [[_ (? & ? & ? & ->)]|(_ & _ & ? & ? & ? & ->)]|intros (? & ? & ? & ? & ? & -> & _)]; done.
Qed.

Lemma parts_sub e id b op cs s i :
  parts e (TransSubInfo id b op cs s i) =
    if bool_decide (i = TRANS_NO_RTINDEX) || present (e i) then {[id]} ∪ ⋃ (map (parts e) cs) else ∅.
Proof. done. Qed.

Lemma parts_absent e n t :
  node_ok cat q n = true → item_of P q n t → fineT e n → present (e (root n)) = false → parts e t = ∅.
Proof.
  intros Hn Ht _ Hp. apply node_index in Hn. destruct n as [i|jt l r c J]; cbn [item_of root] in *.
  - destruct Ht as [[_ (id & b & s & ->)]|(_ & _ & b & root & a & ->)].
    + by rewrite parts_sub, bool_decide_eq_false_2, Hp.
    + cbn. unfold present in Hp. by destruct (e i).2.
  - destruct Ht as (id & b & tl & tr & s & -> & _). by rewrite parts_sub, bool_decide_eq_false_2, Hp.
Qed.

Lemma parts_static N e n t :
  node_ok cat q n = true → item_of P q n t → local_ok N t → TRANS_GET_STATIC t = true → fineT e n →
  present (e (root n)) = true → parts e t = static_set t.
Proof using Hrows Hstat.
  revert t. induction n as [i|jt l IHl r IHr c J]; intros t Hn Ht Hl Hs Hf Hp; pose proof (node_index _ Hn) as Hi.
  - cbn [item_of root] in *. destruct Ht as [[_ (id & b & s & ->)]|(_ & HP & b & root & a & ->)].
    + rewrite parts_sub, Hp, orb_true_r. done.
    + destruct Hf as (_ & _ & Hf). destruct (Hf i) as [Hr|Hr]; [cbn; set_solver| |].
      * cbn. by rewrite (Hstat _ _ _ HP Hs Hr).
      * by rewrite Hr in Hp.
  - cbn [item_of root node_ok] in *. destruct Ht as (id & b & tl & tr & s & -> & Il & Ir). checks. cbn [TRANS_GET_STATIC] in Hs. subst b.
    destruct Hl as (Hflag & _ & Ll & Lr & _).
    rewrite static_flag_plain in Hflag by apply join_op_plain. symmetry in Hflag. cbn in Hflag. checks.
    apply fine_join in Hf as (Fl & Fr & Hm & E). destruct jt; try done. cbn in Hm.
    rewrite parts_sub, Hp, orb_true_r. rewrite Hm, orb_diag, Hp in E.
    cbn [map static_set]. rewrite union_counted_all by done. rewrite (IHl tl), (IHr tr) by (done || congruence). done.
Qed.

Lemma items_static N e ns ts :
  Forall (λ n, node_ok cat q n = true) ns → Forall2 (item_of P q) ns ts → Forall (local_ok N) ts →
  forallb TRANS_GET_STATIC ts = true → Forall (λ n, fineT e n ∧ present (e (root n)) = true) ns →
  map (parts e) ts = map static_set ts.
Proof using Hrows Hstat.
  intros Hns Hts. induction Hts as [|n t ns ts Ht _ IH]; [done|].
  intros [L1 L2]%Forall_cons_1 Hs [[Hf Hp] Hall]%Forall_cons_1. apply Forall_cons_1 in Hns as [Hn Hns]. cbn in Hs |- *.
  apply andb_true_iff in Hs as [Hs1 Hs2]. by rewrite (parts_static N e n t), IH by done.
Qed.

(** A static query: every row has all the parts. *)
Lemma root_static_fine N e t :
  from_ok cat q → rooted P q t → local_ok N t → TRANS_GET_STATIC t = true →
  Forall (λ n, fineT e n ∧ present (e (root n)) = true) (fromlist q) → parts e t = static_set t.
Proof using Hrows Hstat.
  intros Hq (ts & Hts & Hroot) Hl Hs Hf.
  destruct Hroot as [Hc| ->].
  - induction Hc as [id b op s Hop|id b op t s Hop Hc IH]; pose proof (static_op_plain op Hop) as Hd; cbn [TRANS_GET_STATIC] in Hs; subst b;
      destruct Hl as (Hflag & _ & Lc); rewrite static_flag_plain in Hflag by done; symmetry in Hflag; rewrite Hop in Hflag; cbn in Hflag;
      rewrite all_of_Forall in Lc; rewrite parts_sub, bool_decide_eq_true_2 by done; cbn [static_set orb]; rewrite union_counted_all by done.
    + by rewrite (items_static N e (fromlist q) ts (fo_nodes _ _ Hq) Hts).
    + checks. apply Forall_cons_1 in Lc as [Lc _]. cbn. by rewrite IH.
  - inversion Hts as [|n t' ns ts' Ht Hnil Efl]; subst. inversion Hnil; subst.
    pose proof (fo_nodes _ _ Hq) as Hns. rewrite <- Efl in Hf, Hns. apply Forall_cons_1 in Hns as [Hn _].
    apply Forall_cons_1 in Hf as [[Hf Hp] _]. by apply (parts_static N e n).
Qed.

End parts.

(** ** Values *)

(** The value of a bit set, NULL for the set of a missing side. *)
Definition value_rep (N : Z) (v : value) (o : option (gset Z)) : Prop :=
  match o with None => v = None | Some X => ∃ b, v = Some (varbit_datum b) ∧ represents N b X end.

Definition opt_union (a b : option (gset Z)) : option (gset Z) :=
  match a, b with Some X, Some Y => Some (X ∪ Y) | Some X, None => Some X | None, b => b end.

Section values.
Context (op_sem : operators) (Hor : bitor_ops op_sem) (N : Z) (e : Z → tuple).

Abbreviation evaluates := (λ x o, value_rep N (eval_expr op_sem e x) o).

Lemma setor_eval x y o o' : evaluates x o → evaluates y o' → evaluates (MAKE_SETOR_FUNC [x; y]) (opt_union o o').
Proof using Hor.
  intros Hx Hy. cbn [eval_expr MAKE_SETOR_FUNC map]. destruct o as [X|], o' as [Y|]; cbn in Hx, Hy.
  - destruct Hx as (a & -> & Ha), Hy as (b & -> & Hb). destruct (bitor_represents N a b X Y Ha Hb) as (r & Er & Hr).
    pose proof (Hor (Some a) (Some b)) as H. rewrite Er in H. cbn [enc] in H. rewrite H. by exists r.
  - destruct Hx as (a & -> & Ha). rewrite Hy. pose proof (Hor (Some a) None) as H.
    rewrite (proj1 (bitor_null_represents N a X Ha)) in H. cbn [enc] in H. rewrite H. by exists a.
  - destruct Hy as (b & -> & Hb). rewrite Hx. pose proof (Hor None (Some b)) as H.
    rewrite (proj2 (bitor_null_represents N b Y Hb)) in H. cbn [enc] in H. rewrite H. by exists b.
  - rewrite Hx, Hy. exact (Hor None None).
Qed.

Lemma bitor_eval args os :
  Forall2 evaluates args os → (2 ≤ length args)%nat → evaluates (createBitorExpr args) (foldr opt_union None os).
Proof using Hor.
  induction 1 as [|x o args os Hx Hargs IH]; cbn [length]; [lia|]. intros Hl.
  destruct args as [|y [|z args]]; [cbn in Hl; lia| |].
  - inversion Hargs as [|? o' ? ? Hy Hnil]; subst. inversion Hnil; subst. cbn [createBitorExpr foldr].
    replace (opt_union o' None) with o' by (by destruct o'). by apply setor_eval.
  - cbn [createBitorExpr foldr] in *. apply setor_eval; [done|]. apply IH. cbn. lia.
Qed.

Lemma const_eval v X st :
  represents N v X → ∃ x, MAKE_VARBIT_CONST (Some v) st = Ok (x, st) ∧ ∀ e, value_rep N (eval_expr op_sem e x) (Some X).
Proof. intros Hv. eexists. split; [done|]. intros e'. by exists v. Qed.

End values.

Lemma union_all (l : list (gset Z)) : l ≠ [] → foldr opt_union None (Some <$> l) = Some (⋃ l).
Proof.
  induction l as [|X l IH]; [done|]. intros _. destruct l as [|Y l]; [cbn; f_equal; set_solver|].
  change (foldr opt_union None (Some <$> X :: Y :: l)) with (opt_union (Some X) (foldr opt_union None (Some <$> Y :: l))).
  by rewrite IH.
Qed.

(** ** Building *)

(** The loop over the children. *)
Section loop.
Context (build : TransNode → W Expr).

Fixpoint build_all (l : list TransNode) : W (list Expr) :=
  match l with [] => ret [] | c :: l => comp ← build c; rest ← build_all l; ret (comp :: rest) end.

Lemma build_all_ok ts xs st : Forall2 (λ t x, build t st = Ok (x, st)) ts xs → build_all ts st = Ok (xs, st).
Proof. induction 1 as [|t x ts xs E _ IH]; [done|]. cbn [build_all]. hrun E. by hrun IH. Qed.

End loop.

Lemma build_sub cat q id b op cs s i :
  buildBitsetComputationForQueryNode cat q (TransSubInfo id b op cs s i) =
    if b then MAKE_VARBIT_CONST s
    else
      (comps ← build_all (buildBitsetComputationForQueryNode cat q) cs;
       c ← MAKE_VARBIT_CONST s;
       args ← wrapChildComps cat q op cs (comps ++ [c]);
       ret (match args with [a] => a | _ => createBitorExpr args end)).
Proof. reflexivity. Qed.

Section build.
Context (op_sem : operators) (Hor : bitor_ops op_sem) (cat : syscache) (N : Z).

(** [q] is the original query, [q'] the one with rewritten subqueries; [rows] are the rows of the entries of [q]. *)
Context (q q' : Query) (rows : Z → list trow) (Hq : from_ok cat q).
Context (Hrows : ∀ i r, r ∈ rows i → present r = true).

(** The columns of the entries of [q']. *)
Context (Hexp : ∀ i st, i ∈ scope q → ∃ r ns vs, rt_fetch i (rtable q') = Some r ∧
  expandRTEWithParam cat r i 0 st = Ok ((ns, vs), st) ∧ first_column i vs).

(** The info of a rewritten subquery: the number of the column with its bit set. *)
Definition leaf_ok (i : Z) (t : TransNode) : Prop :=
  ∃ b root a r s te, t = TransProvInfo b root a i ∧ kind_at q i = Some RTE_SUBQUERY ∧ rt_fetch i (rtable q') = Some r ∧ subquery r = Some s ∧
    rt_fetch a (targetList s) = Some te ∧ a = (Z.of_nat (width cat q i) + 1)%Z ∧
    (b = true → ∀ r, r ∈ rows i → r.2 = Some (static_set t)).

(** A row of [q'] and the row of [q] it shows; column [a] of a rewritten subquery is its bit set. *)
Definition shows (e1 : Z → tuple) (e2 : Z → trow) : Prop :=
  (∀ i, i ∈ scope q → attr 1 (e1 i) = attr 1 (e2 i).1) ∧
  (∀ i b root a, i ∈ scope q → leaf_ok i (TransProvInfo b root a i) → present (e2 i) = true →
     value_rep N (attr a (e1 i)) (e2 i).2).

Abbreviation build := (buildBitsetComputationForQueryNode cat q').
Abbreviation fineT := (fine op_sem cat q rows).

Lemma leaf_static i t r : leaf_ok i t → TRANS_GET_STATIC t = true → r ∈ rows i → r.2 = Some (static_set t).
Proof using Type. clear. intros (b & root & a & r0 & s & te & -> & _ & _ & _ & _ & _ & H) Hs Hr. by apply H. Qed.

(** The expression of a tree, in the rows where its own row is there. *)
Definition computes_parts (ns : list Node) (t : TransNode) (x : Expr) : Prop :=
  ∀ e1 e2, shows e1 e2 → Forall (λ n, fineT e2 n ∧ present (e2 (root n)) = true) ns →
    Forall (λ i, shows_presence (e2 i) = true) (concat (optional_sides <$> ns)) →
    value_rep N (eval_expr op_sem e1 x) (Some (parts e2 t)).

(** A part with a constant set. *)
Lemma build_static n t st :
  node_ok cat q n = true → item_of leaf_ok q n t → local_ok N t → TRANS_GET_STATIC t = true →
  (∃ id op cs s i, t = TransSubInfo id true op cs s i) →
  ∃ x, build t st = Ok (x, st) ∧ computes_parts [n] t x.
Proof using Hor Hq Hrows Hexp.
  intros Hn Ht Hl Hs (id & op & cs & s & i & ->). pose proof Hl as (_ & (v & -> & Hv) & _).
  destruct (const_eval op_sem N v _ st Hv) as (x & E & Hx). exists x. rewrite build_sub. split; [done|].
  intros e1 e2 _ [[Hf Hp] _]%Forall_cons_1 _.
  rewrite (parts_static op_sem cat q rows Hrows leaf_ok leaf_static N e2 n _ Hn Ht Hl Hs Hf Hp). apply Hx.
Qed.

(** The column of a subquery. *)
Lemma build_leaf i t st :
  i ∈ scope q → leaf_ok i t → local_ok N t → ∃ x, build t st = Ok (x, st) ∧ computes_parts [RangeTblRef i] t x.
Proof using Hor Hq Hrows Hexp.
  intros Hi Ht Hl. pose proof Ht as (b & rt0 & a & r & s & te & -> & _ & Hr & Hs & Hte & Ha & Hb).
  cbn [buildBitsetComputationForQueryNode getSubqueryTransProvAttr]. rewrite Hr, bind_deref, Hs, bind_deref. destruct b.
  - destruct (Hl eq_refl) as (v & Ev & Hv). cbn [root_set]. rewrite Ev. destruct (const_eval op_sem N v _ st Hv) as (x & E & Hx).
    exists x. split; [done|]. intros e1 e2 _ [[Hf Hp] _]%Forall_cons_1 _. cbn [parts root] in *.
    destruct Hf as (_ & _ & Hf). destruct (Hf i) as [H|H]; [cbn; set_solver| |by rewrite H in Hp].
    rewrite (Hb eq_refl _ H). apply Hx.
  - rewrite Hte, bind_deref. eexists. split; [done|]. intros e1 e2 [_ Hsh] [[Hf Hp] _]%Forall_cons_1 _.
    cbn [eval_expr makeVar varno varattno varlevelsup]. rewrite decide_True by done.
    pose proof (Hsh i false rt0 a Hi Ht Hp) as H. cbn [parts root] in *. unfold present in Hp.
    by destruct (e2 i).2.
Qed.

(** The test for a missing match. *)
Lemma wrap_ok i child comp st :
  i ∈ scope q → TRANS_GET_RTINDEX child = i →
  ∃ x, wrapElementComp cat q' child comp st = Ok (x, st) ∧ ∀ e1 e2 o, shows e1 e2 → shows_presence (e2 i) = true →
    (present (e2 i) = false → attr 1 (e2 i).1 = None) → (present (e2 i) = true → value_rep N (eval_expr op_sem e1 comp) o) →
    value_rep N (eval_expr op_sem e1 x) (if present (e2 i) then o else None).
Proof using Hor Hq Hrows Hexp.
  intros Hi <-. unfold wrapElementComp. destruct (Hexp _ st Hi) as (r & ns & vs & Hr & E & v & Hv & Hvn & Hva & Hvl).
  rewrite Hr, bind_deref. hrun E. rewrite Hv, bind_deref. eexists. split; [done|].
  intros e1 e2 o [Hsh _] Hpres Habs Ho. set (i := TRANS_GET_RTINDEX child) in *.
  cbn [eval_expr case_value]. rewrite decide_True, Hva, Hvn, (Hsh i Hi) by done.
  unfold shows_presence in Hpres. destruct (present (e2 i)).
  - destruct (attr 1 (e2 i).1); [|done]. cbn. by apply Ho.
  - rewrite Habs by done. done.
Qed.

(** The side of a join: its parts, or nothing if its row is missing. *)
Definition side (e : Z → trow) (n : Node) (t : TransNode) : option (gset Z) :=
  if present (e (root n)) then Some (parts e t) else None.

(** The expression [x] for one side of a join. *)
Definition computes_side (n : Node) (t : TransNode) (wrapped : bool) (x : Expr) : Prop :=
  ∀ e1 e2, shows e1 e2 → fineT e2 n → Forall (λ i, shows_presence (e2 i) = true) (optional_sides n) →
    (if wrapped then shows_presence (e2 (root n)) = true else present (e2 (root n)) = true) →
    value_rep N (eval_expr op_sem e1 x) (side e2 n t).

Lemma side_plain n t x : computes_parts [n] t x → computes_side n t false x.
Proof using Type.
  clear. intros Hx e1 e2 Hsh Hf Hopt Hp. unfold side. rewrite Hp. apply Hx; [done|by constructor|]. csimpl. by rewrite app_nil_r.
Qed.

Lemma side_wrapped n t x st :
  node_ok cat q n = true → ids n ⊆ scope q → item_of leaf_ok q n t → computes_parts [n] t x →
  ∃ x', wrapElementComp cat q' t x st = Ok (x', st) ∧ computes_side n t true x'.
Proof using Hor Hq Hrows Hexp.
  intros Hn Hsub Ht Hx. pose proof (root_in_ids n) as Hr. destruct (wrap_ok (root n) t x st) as (x' & E & Hx'); [by apply Hsub| |].
  { by eapply item_index. }
  exists x'. split; [done|]. intros e1 e2 Hsh Hf Hopt Hp. apply (Hx' e1 e2); try done.
  - intros Habs. apply (absent_null op_sem cat q rows Hrows e2 n); try done. by eapply scoped_plain.
  - intros Hp'. apply Hx; [done|by constructor|]. csimpl. by rewrite app_nil_r.
Qed.

(** Which sides [wrapChildComps] wraps. *)
Definition wraps (jt : JoinType) : bool * bool :=
  match jt with JOIN_INNER => (false, false) | JOIN_LEFT => (false, true) | JOIN_RIGHT => (true, false) | JOIN_FULL => (true, true) end.

Lemma wrapChildComps_join jt tl tr xl xr c st :
  wrapChildComps cat q' (join_op jt) [tl; tr] [xl; xr; c] st =
    (xl ← (if (wraps jt).1 then wrapElementComp cat q' tl xl else ret xl);
     xr ← (if (wraps jt).2 then wrapElementComp cat q' tr xr else ret xr);
     ret [xl; xr; c]) st.
Proof using Type.
  clear. destruct jt; cbn [wraps fst snd]; [done| | |]; unfold wrapChildComps, wrap_at; cbn [join_op]; rewrite !bind_deref || cbn.
  - unfold bind. cbn. by destruct (wrapElementComp cat q' tr xr st) as [[]|].
  - unfold bind. cbn. destruct (wrapElementComp cat q' tl xl st) as [[x1 s1]|]; [|done]. cbn. by destruct (wrapElementComp cat q' tr xr s1) as [[]|].
  - unfold bind. cbn. by destruct (wrapElementComp cat q' tl xl st) as [[]|].
Qed.

Lemma optional_join jt l r c J (Q : Z → Prop) :
  Forall Q (optional_sides (JoinExpr jt l r c J)) →
  Forall Q (optional_sides l) ∧ Forall Q (optional_sides r) ∧ ((wraps jt).1 = true → Q (root l)) ∧ ((wraps jt).2 = true → Q (root r)).
Proof using Type.
  clear. cbn [optional_sides]. rewrite !Forall_app. intros (Hj & Hl & Hr). rewrite Forall_forall in Hj.
  split_and!; try done; intros Hw; apply Hj; destruct jt; try done; set_solver.
Qed.

(** A join: each side counts if its row is there. *)
Lemma join_computes jt l r c J id tl tr s xl xr xc :
  node_ok cat q (JoinExpr jt l r c J) = true → item_of leaf_ok q l tl → item_of leaf_ok q r tr →
  computes_side l tl (wraps jt).1 xl → computes_side r tr (wraps jt).2 xr →
  (∀ e, value_rep N (eval_expr op_sem e xc) (Some {[id]})) →
  computes_parts [JoinExpr jt l r c J] (TransSubInfo id false (join_op jt) [tl; tr] s J) (createBitorExpr [xl; xr; xc]).
Proof using Hor Hq Hrows Hexp.
  intros Hn Il Ir Hl Hr Hc e1 e2 Hsh [[Hf Hp] _]%Forall_cons_1 Hopt. csimpl in Hopt. rewrite app_nil_r in Hopt.
  apply (optional_join jt l r c J) in Hopt as (Ol & Or & Wl & Wr). pose proof (fine_join _ _ _ _ _ _ _ _ _ _ Hf) as (Fl & Fr & Hm & E).
  cbn [root] in Hp. rewrite E in Hp. pose proof (node_index cat q _ Hn) as HJ. cbn [node_ok root] in *. checks.
  rewrite parts_sub, E, Hp, orb_true_r.
  assert (if (wraps jt).1 then shows_presence (e2 (root l)) = true else present (e2 (root l)) = true) as Cl.
  { destruct (wraps jt).1 eqn:Ew; [by apply Wl|]. destruct jt; try done; cbn in Hm; destruct (present (e2 (root l))), (present (e2 (root r))); naive_solver. }
  assert (if (wraps jt).2 then shows_presence (e2 (root r)) = true else present (e2 (root r)) = true) as Cr.
  { destruct (wraps jt).2 eqn:Ew; [by apply Wr|]. destruct jt; try done; cbn in Hm; destruct (present (e2 (root l))), (present (e2 (root r))); naive_solver. }
  specialize (Hl e1 e2 Hsh Fl Ol Cl). specialize (Hr e1 e2 Hsh Fr Or Cr).
  pose proof (bitor_eval op_sem Hor N e1 [xl; xr; xc] [side e2 l tl; side e2 r tr; Some {[id]}]) as Hv.
  assert (foldr opt_union None [side e2 l tl; side e2 r tr; Some {[id]}] = Some ({[id]} ∪ ⋃ map (parts e2) [tl; tr])) as <-.
  { unfold side. cbn. destruct (present (e2 (root l))) eqn:Pl, (present (e2 (root r))) eqn:Pr; cbn; f_equal;
      rewrite ?(parts_absent op_sem cat q rows leaf_ok e2 l tl), ?(parts_absent op_sem cat q rows leaf_ok e2 r tr) by done; set_solver. }
  apply Hv; [|cbn; lia]. by repeat constructor.
Qed.

Lemma build_item n t st :
  node_ok cat q n = true → ids n ⊆ scope q → item_of leaf_ok q n t → local_ok N t →
  ∃ x, build t st = Ok (x, st) ∧ computes_parts [n] t x.
Proof using Hor Hq Hrows Hexp.
  revert t. induction n as [i|jt l IHl r IHr c J]; intros t Hn Hsub Ht Hl; pose proof Hn as Hn'; pose proof Ht as Ht'.
  - destruct Ht as [[_ (id & b & s & ->)]|(_ & Hi & b & root & a & ->)].
    + apply build_static; try done; [by apply Hl|]. destruct Hl as [-> _]. by eexists _, _, _, _, _.
    + apply build_leaf; [|done..]. apply Hsub. cbn. set_solver.
  - destruct Ht as (id & b & tl & tr & s & -> & Il & Ir). pose proof Hl as Hl'. destruct Hl as (Hb & (v & -> & Hv) & Ll & Lr & _).
    destruct b; [apply build_static; try done; by eexists _, _, _, _, _|]. rewrite build_sub. cbn [node_ok ids] in Hn, Hsub. checks.
    destruct (IHl tl) as (xl & El & Hxl); [done|set_solver|done..|]. destruct (IHr tr) as (xr & Er & Hxr); [done|set_solver|done..|].
    cbn [static_set] in Hv. rewrite union_counted_false, union_empty_r_L in Hv.
    destruct (const_eval op_sem N v _ st Hv) as (xc & Ec & Hxc).
    assert (∃ yl, (if (wraps jt).1 then wrapElementComp cat q' tl xl else ret xl) st = Ok (yl, st) ∧ computes_side l tl (wraps jt).1 yl)
      as (yl & Eyl & Hyl).
    { destruct (wraps jt).1; [apply side_wrapped; [done|set_solver|done..]|]. exists xl. split; [done|]. by apply side_plain. }
    assert (∃ yr, (if (wraps jt).2 then wrapElementComp cat q' tr xr else ret xr) st = Ok (yr, st) ∧ computes_side r tr (wraps jt).2 yr)
      as (yr & Eyr & Hyr).
    { destruct (wraps jt).2; [apply side_wrapped; [done|set_solver|done..]|]. exists xr. split; [done|]. by apply side_plain. }
    exists (createBitorExpr [yl; yr; xc]). split; [|by apply join_computes].
    erewrite bind_ok by (apply build_all_ok; repeat constructor; eassumption). hrun Ec. cbn [app].
    unfold bind at 1. rewrite wrapChildComps_join. hrun Eyl. by hrun Eyr.
Qed.

Lemma build_items ns ts st :
  Forall (λ n, node_ok cat q n = true ∧ ids n ⊆ scope q) ns → Forall2 (item_of leaf_ok q) ns ts → Forall (local_ok N) ts →
  ∃ xs, Forall2 (λ t x, build t st = Ok (x, st)) ts xs ∧
    ∀ e1 e2, shows e1 e2 → Forall (λ n, fineT e2 n ∧ present (e2 (root n)) = true) ns →
      Forall (λ i, shows_presence (e2 i) = true) (concat (optional_sides <$> ns)) →
      Forall2 (λ x o, value_rep N (eval_expr op_sem e1 x) o) xs (Some <$> map (parts e2) ts).
Proof using Hor Hq Hrows Hexp.
  intros Hns Hts. induction Hts as [|n t ns ts Ht _ IH]; intros Hl; [exists []; split; [constructor|by constructor]|].
  apply Forall_cons_1 in Hns as [[Hn Hsub] Hns]. apply Forall_cons_1 in Hl as [Hl Hls].
  destruct (build_item n t st Hn Hsub Ht Hl) as (x & E & Hx). destruct (IH Hns Hls) as (xs & Es & Hxs).
  exists (x :: xs). split; [by constructor|]. intros e1 e2 Hsh [Hf Hfs]%Forall_cons_1. csimpl. rewrite Forall_app. intros [Ho Hos].
  constructor; [|by apply Hxs]. apply Hx; [done|by constructor|]. csimpl. by rewrite app_nil_r.
Qed.

(** A part above the FROM clause, with the expressions of its children. *)
Lemma chain_computes id op cs s v xs st :
  static_op op = true → local_ok N (TransSubInfo id false op cs s TRANS_NO_RTINDEX) →
  Forall2 (λ t x, build t st = Ok (x, st)) cs xs → s = Some v → cs ≠ [] →
  ∃ x, build (TransSubInfo id false op cs s TRANS_NO_RTINDEX) st = Ok (x, st) ∧
    ∀ e1 e2, Forall2 (λ x o, value_rep N (eval_expr op_sem e1 x) o) xs (Some <$> map (parts e2) cs) →
      value_rep N (eval_expr op_sem e1 x) (Some (parts e2 (TransSubInfo id false op cs s TRANS_NO_RTINDEX))).
Proof using Hor Hq Hrows Hexp.
  intros Hop (_ & (v' & -> & Hv) & _) Hxs [= ->] Hne. cbn [static_set] in Hv. rewrite union_counted_false, union_empty_r_L in Hv.
  rewrite build_sub. rewrite (bind_ok _ _ _ _ _ (build_all_ok _ cs xs st Hxs)).
  destruct (const_eval op_sem N v _ st Hv) as (xc & Ec & Hxc). hrun Ec.
  assert (wrapChildComps cat q' op cs (xs ++ [xc]) st = Ok (xs ++ [xc], st)) as Ew by (by destruct op). hrun Ew.
  exists (createBitorExpr (xs ++ [xc])). pose proof Hxs as Hlen. apply Forall2_length in Hlen.
  assert (2 ≤ length (xs ++ [xc]))%nat as Hl2 by (rewrite length_app; destruct cs; [done|]; cbn in *; lia). split.
  - unfold ret. destruct (xs ++ [xc]) as [|y [|z l]]; cbn in Hl2; [lia|lia|done].
  - intros e1 e2 Hvals. rewrite parts_sub, bool_decide_eq_true_2 by done. cbn [orb].
    pose proof (bitor_eval op_sem Hor N e1 (xs ++ [xc]) ((Some <$> map (parts e2) cs) ++ [Some {[id]}])) as H.
    replace (Some ({[id]} ∪ ⋃ map (parts e2) cs)) with (foldr opt_union None ((Some <$> map (parts e2) cs) ++ [Some {[id]}])).
    { apply H; [|done]. apply Forall2_app; [done|]. by repeat constructor. }
    change [Some {[id]}] with (Some <$> [{[id]} : gset Z]). rewrite <- fmap_app, union_all by (by destruct (map (parts e2) cs)).
    f_equal. rewrite union_list_app_L. cbn. set_solver.
Qed.

Lemma root_items_ok : Forall (λ n, node_ok cat q n = true ∧ ids n ⊆ scope q) (fromlist q).
Proof using Hq.
  clear -Hq. rewrite Forall_forall. intros n Hn. split; [by apply (proj1 (Forall_forall _ _) (fo_nodes _ _ Hq))|].
  intros i Hi. unfold scope. apply elem_of_concat. exists (ids n). split; [done|by apply list_elem_of_fmap_2].
Qed.

(** The expression of a query. *)
Lemma build_root t st :
  rooted leaf_ok q t → local_ok N t → ∃ x, build t st = Ok (x, st) ∧ computes_parts (fromlist q) t x.
Proof using Hor Hq Hrows Hexp.
  intros (ts & Hts & Hroot) Hl. destruct Hroot as [Hc| ->].
  - assert (∀ t, chained ts t → TRANS_GET_STATIC t = true → local_ok N t →
      ∃ x, build t st = Ok (x, st) ∧ computes_parts (fromlist q) t x) as Hstat.
    { clear t Hc Hl. intros t Hc Hs Hl. assert (∃ id op cs s, t = TransSubInfo id true op cs s TRANS_NO_RTINDEX) as (id & op & cs & s & ->).
      { destruct Hc; cbn in Hs; subst; by eexists _, _, _, _. }
      pose proof Hl as (_ & (v & -> & Hv) & _). destruct (const_eval op_sem N v _ st Hv) as (x & E & Hx).
      exists x. rewrite build_sub. split; [done|]. intros e1 e2 _ Hf _.
      rewrite (root_static_fine op_sem cat q rows Hrows leaf_ok leaf_static N e2 _ Hq (ex_intro _ ts (conj Hts (or_introl Hc))) Hl Hs Hf).
      apply Hx. }
    induction Hc as [id b op s Hop|id b op t s Hop Hc IH].
    + destruct b; [apply Hstat; [by constructor|done|done]|]. pose proof Hl as (Hb & (v & Es & _) & Lc). rewrite all_of_Forall in Lc.
      destruct (build_items (fromlist q) ts st root_items_ok Hts Lc) as (xs & Exs & Hxs).
      destruct (chain_computes id op ts s v xs st Hop Hl Exs Es) as (x & E & Hx).
      { intros ->. rewrite static_flag_plain in Hb by by apply static_op_plain. by rewrite Hop in Hb. }
      exists x. split; [done|]. intros e1 e2 Hsh Hf Ho. apply Hx. by apply Hxs.
    + destruct b; [apply Hstat; [by constructor|done|done]|]. pose proof Hl as (_ & (v & Es & _) & Lc & _).
      destruct (IH Lc) as (x1 & E1 & Hx1).
      destruct (chain_computes id op [t] s v [x1] st Hop Hl) as (x & E & Hx); [by constructor|done|done|].
      exists x. split; [done|]. intros e1 e2 Hsh Hf Ho. apply Hx. constructor; [|done]. by apply Hx1.
  - pose proof root_items_ok as Hok. inversion Hts as [|n t' ns ts' Ht Hnil Efl]; subst. inversion Hnil; subst.
    rewrite <- Efl in Hok. apply Forall_cons_1 in Hok as [[Hn Hsub] _]. by apply build_item.
Qed.

End build.

End TransBuild.
