(* ===== verification/TransFacts.v ===== *)
(** * Facts about the evaluation with transformation provenance

    Rewritten and annotated rows correspond one by one; the infos of the subqueries are found in the tree; the values of the annotated rows are the rows of the query; every row of a
    static query has all its parts; and the parts below a static part took part in a row together or not at all. *)

From Stdlib Require Import ZArith Lia.
From stdpp Require Import base strings numbers list sets gmap.
From S2P Require Import Prelude VarBit AttrName QueryTree SqlSemantics SqlFacts Queries ProvReplay RewriteJoins RewriteMain CopyFacts TransInfo TransRewrite.
From S2P Require Import TransTree TransSemantics TransShape TransEnv TransBuild ExtendSim.
Import QueryTree SqlSemantics SqlFacts Queries ProvReplay RewriteJoins RewriteMain CopyFacts TransInfo TransRewrite.
Import TransTree TransSemantics TransShape TransEnv TransBuild ExtendSim.

Module TransFacts.

(** ** Rewritten and annotated rows *)

Lemma attr_snoc t x : attr (Z.of_nat (length t) + 1) (t ++ [x]) = x.
Proof.
  unfold attr. rewrite decide_True by lia. rewrite lookup_app_r by lia. by replace (Z.to_nat _ - length t)%nat with 0%nat by lia.
Qed.

Section sim.
Context (op_sem : operators) (cat : syscache) (q q2 : Query) (Hq : from_ok cat q).
Context (Hfl : fromlist q2 = fromlist q) (Hqu : quals q2 = quals q).
Context (rows : Z → list trow) (tabs : list (list tuple)).

(** The further columns of the rows of an entry. *)
Context (X : Z → tuple → option (gset Z) → Prop).

Definition row_sim : Z → tuple → trow → Prop := row_ext cat q fst (λ i c r, X i c r.2).

Context (Hleaf : ∀ i, kind_at q i = Some RTE_RELATION ∨ kind_at q i = Some RTE_SUBQUERY →
  Forall2 (row_sim i) (default [] (rt_fetch i tabs)) (rows i) ∧ row_sim i (null_tuple cat q2 i) (null_trow cat q i)).
Context (Hjoin : ∀ J, kind_at q J = Some RTE_JOIN → aliases q2 J = aliases q J ∧ ∀ o, X J [] o).

(** The rows of FROM and WHERE. *)
Lemma solve_sim :
  Forall2 (λ e1 e2, env_rel row_sim (scope q) e1 e2 ∧ e2 ∈ solve_trans op_sem cat rows q)
    (solve_plain op_sem cat tabs q2) (solve_trans op_sem cat rows q).
Proof using Hq Hfl Hqu Hleaf Hjoin.
  apply solve_ext; try done. intros J HJ. destruct (Hjoin J HJ) as [Ea Hx]. split; [done|]. intros. apply Hx.
Qed.

End sim.

(** ** Finding infos *)

Section first.
Context (f : TransNode → option TransNode).

Fixpoint find_first (l : list TransNode) : option TransNode :=
  match l with [] => None | c :: l => match f c with Some r => Some r | None => find_first l end end.

End first.

Lemma find_sub i id b op cs s k : find_info i (TransSubInfo id b op cs s k) = find_first (find_info i) cs.
Proof. reflexivity. Qed.

Section find.
Context (P : Z → TransNode → Prop) (q : Query).

(** What [find_info] returns. *)
Lemma find_item n t i :
  item_of P q n t →
  match find_info i t with
  | Some info => i ∈ leaves n ∧ P i info ∧ (∃ b r a, info = TransProvInfo b r a i) ∧ kind_at q i = Some RTE_SUBQUERY
  | None => i ∈ leaves n → kind_at q i = Some RTE_RELATION
  end.
Proof.
  revert t. induction n as [j|jt l IHl r IHr c J]; intros t; cbn [item_of leaves].
  - intros [[Hk (id & b & s & ->)]|(Hk & Hp & b & r & a & ->)]; cbn.
    + by intros ->%list_elem_of_singleton.
    + case_decide as E; [subst j; split_and!; try done; [set_solver|by eexists _, _, _]|]. by intros ->%list_elem_of_singleton.
  - intros (id & b & tl & tr & s & -> & Hl & Hr). rewrite find_sub. cbn [find_first].
    specialize (IHl tl Hl). specialize (IHr tr Hr). destruct (find_info i tl); [split_and!; try naive_solver; set_solver|].
    destruct (find_info i tr); [split_and!; try naive_solver; set_solver|]. rewrite elem_of_app. naive_solver.
Qed.

Lemma find_items ns ts i :
  Forall2 (item_of P q) ns ts →
  match find_first (find_info i) ts with
  | Some info => i ∈ concat (leaves <$> ns) ∧ P i info ∧ (∃ b r a, info = TransProvInfo b r a i) ∧ kind_at q i = Some RTE_SUBQUERY
  | None => i ∈ concat (leaves <$> ns) → kind_at q i = Some RTE_RELATION
  end.
Proof.
  induction 1 as [|n t ns ts Ht _ IH]; csimpl; [by intros ?%elem_of_nil|]. pose proof (find_item n t i Ht) as H.
  destruct (find_info i t); [split_and!; try naive_solver; set_solver|].
  destruct (find_first (find_info i) ts); [split_and!; try naive_solver; set_solver|]. rewrite elem_of_app. naive_solver.
Qed.

(** Every info of the tree is the one that is found by its index. *)
Lemma item_unique n t :
  NoDup (ids n) → item_of P q n t → item_of (λ i u, P i u ∧ find_info i t = Some u) q n t.
Proof.
  revert t. induction n as [j|jt l IHl r IHr c J]; intros t HN; cbn [item_of].
  - intros [H|(Hk & Hp & b & rt & a & ->)]; [by left|]. right. split; [done|]. split; [|by eexists _, _, _].
    split; [done|]. cbn. by rewrite decide_True.
  - intros (id & b & tl & tr & s & -> & Hl & Hr). pose proof (nodup_join _ _ _ _ _ HN) as (Nl & Nr & Hd).
    exists id, b, tl, tr, s. split; [done|]. split.
    + eapply item_of_mono; [|exact (IHl tl Nl Hl)]. intros i u [Hp E]. split; [done|]. rewrite find_sub. cbn. by rewrite E.
    + eapply item_of_mono; [|exact (IHr tr Nr Hr)]. intros i u [Hp E]. split; [done|]. rewrite find_sub. cbn.
      pose proof (find_item r tr i Hr) as H. rewrite E in H. destruct H as [Hi _]. pose proof (find_item l tl i Hl) as H.
      destruct (find_info i tl); [|by rewrite E]. destruct H as [Hi' _]. apply leaves_in_ids in Hi, Hi'. set_solver.
Qed.

Lemma items_unique ns ts :
  NoDup (concat (ids <$> ns)) → Forall2 (item_of P q) ns ts →
  Forall2 (item_of (λ i u, P i u ∧ find_first (find_info i) ts = Some u) q) ns ts.
Proof.
  intros HN Hts. induction Hts as [|n t ns ts Ht Hts IH]; [constructor|]. csimpl in HN. apply NoDup_app in HN as (N1 & Hd & N2).
  constructor.
  - eapply item_of_mono; [|exact (item_unique n t N1 Ht)]. intros i u [Hp E]. split; [done|]. cbn. by rewrite E.
  - eapply Forall2_impl; [exact (IH N2)|]. intros n' t' H'. eapply item_of_mono; [|exact H']. intros i u [Hp E]. split; [done|].
    cbn. pose proof (find_items ns ts i Hts) as H. rewrite E in H. destruct H as [Hi _]. pose proof (find_item n t i Ht) as H.
    destruct (find_info i t); [|done]. destruct H as [Hi' _]. apply leaves_in_ids in Hi'. exfalso. apply (Hd i Hi').
    clear -Hi. apply elem_of_concat in Hi as (l & Hl & (m & -> & Hm)%list_elem_of_fmap). apply elem_of_concat. exists (ids m).
    split; [by apply leaves_in_ids|by apply list_elem_of_fmap_2].
Qed.

Lemma find_rooted ts t i : chained ts t ∨ ts = [t] → find_info i t = find_first (find_info i) ts.
Proof.
  intros [Hc| ->]; [|cbn; by destruct (find_info i t)].
  induction Hc as [|id b op t s Hop Hc IH]; [done|]. rewrite find_sub. cbn. rewrite IH. by destruct (find_first _ ts).
Qed.

Lemma root_unique t :
  NoDup (scope q) → rooted P q t → rooted (λ i u, P i u ∧ find_info i t = Some u) q t.
Proof.
  intros HN (ts & Hts & Hr). exists ts. split; [|done]. eapply Forall2_impl; [exact (items_unique _ _ HN Hts)|].
  intros n u Hu. eapply item_of_mono; [|exact Hu]. intros i v [Hp E]. split; [done|]. by rewrite (find_rooted ts t i Hr).
Qed.

(** A property of trees that is inherited by the parts below. *)
Lemma rooted_inherit (Q : TransNode → Prop) t :
  (∀ id b op cs s i, Q (TransSubInfo id b op cs s i) → Forall Q cs) → Q t → rooted P q t → rooted (λ i u, P i u ∧ Q u) q t.
Proof.
  intros HQ Hq (ts & Hts & Hr). exists ts. split; [|done].
  assert (∀ n u, Q u → item_of P q n u → item_of (λ i u, P i u ∧ Q u) q n u) as Hitem.
  { induction n as [j|jt l IHl r IHr c J]; intros u Hu; cbn [item_of]; [naive_solver|].
    intros (id & b & tl & tr & s & -> & Hl & Hr'). pose proof (HQ _ _ _ _ _ _ Hu) as [H1 [H2 _]%Forall_cons]%Forall_cons.
    exists id, b, tl, tr, s. auto. }
  assert (Forall Q ts) as Hall.
  { destruct Hr as [Hc| ->]; [|by constructor]. induction Hc as [id b op s Hop|id b op t s Hop Hc IH]; [by eapply HQ|].
    apply IH. by apply HQ in Hq as [H _]%Forall_cons. }
  clear Hr. induction Hts as [|n u ns us Hu _ IH]; [constructor|]. apply Forall_cons in Hall as [H1 H2]. constructor; auto.
Qed.

Lemma find_root root i :
  rooted P q root →
  match find_info i root with
  | Some info => P i info ∧ (∃ b r a, info = TransProvInfo b r a i) ∧ kind_at q i = Some RTE_SUBQUERY
  | None => i ∈ concat (leaves <$> fromlist q) → kind_at q i = Some RTE_RELATION
  end.
Proof.
  intros (ts & Hts & Hr). pose proof (find_items _ _ i Hts) as H.
  rewrite (find_rooted ts root i Hr).
  destruct (find_first _ ts); naive_solver.
Qed.

End find.

(** Every subquery has its info. *)
Lemma find_subquery cat q root i :
  from_ok cat q → rooted (sub_of q) q root → kind_at q i = Some RTE_SUBQUERY →
  ∃ info r s, find_info i root = Some info ∧ rt_fetch i (rtable q) = Some r ∧ rtekind r = RTE_SUBQUERY ∧ subquery r = Some s ∧
    tree_of s info ∧ query_ok cat s = true ∧ ∃ b rt a, info = TransProvInfo b rt a i.
Proof.
  intros Hq Hr Hk. pose proof (find_root _ _ _ i Hr) as H.
  assert (i ∈ concat (leaves <$> fromlist q)) as Hi.
  { apply (leaves_contributors cat); [done|]. by eapply contributor_of_kind. }
  destruct (find_info i root) as [info|]; [|specialize (H Hi); congruence]. destruct H as ((r & s & Er & Es & Ht) & Hinfo & _).
  exists info, r, s. unfold kind_at in Hk. rewrite Er in Hk. cbn in Hk. injection Hk as Hk. split_and!; try done.
  pose proof (rt_fetch_Forall _ _ _ _ (fo_rtes _ _ Hq) Er) as Ho. cbn in Ho. apply rte_ok_spec in Ho as (_ & _ & _ & _ & H).
  destruct H as [(? & _)|[(_ & s' & Es' & Hs')|?]]; congruence.
Qed.

(** ** DISTINCT and LIMIT *)

Lemma dedup_sim {A B K} `{EqDecision K} (R : A → B → Prop) (f : A → K) (g : B → K) seen l k :
  (∀ x y, R x y → f x = g y) → Forall2 R l k → Forall2 R (dedup_on f seen l) (dedup_on g seen k).
Proof.
  intros Hk H. revert seen. induction H as [|x y l k Hxy _ IH]; intros seen; cbn [dedup_on]; [constructor|].
  rewrite (Hk x y Hxy). case_decide; [apply IH|]. by constructor.
Qed.

Lemma distinct_sim {A B K} `{EqDecision K} q q2 (R : A → B → Prop) (f : A → K) (g : B → K) l k :
  distinctClause q2 = distinctClause q → (∀ x y, R x y → f x = g y) → Forall2 R l k → Forall2 R (distinct q2 f l) (distinct q g k).
Proof. intros Ed Hk H. unfold distinct. rewrite Ed. destruct (distinctClause q); [done|]. by apply dedup_sim. Qed.

Lemma limited_sim op_sem {A B} q q2 (R : A → B → Prop) l k :
  limitOffset q2 = limitOffset q → limitCount q2 = limitCount q → Forall2 R l k → Forall2 R (limited op_sem q2 l) (limited op_sem q k).
Proof.
  intros Eo Ec H. unfold limited. rewrite Eo, Ec.
  destruct (limitOffset q ≫= const_nat op_sem), (limitCount q ≫= const_nat op_sem); auto using Forall2_take, Forall2_drop.
Qed.

Lemma in_limited op_sem {A} q (l : list A) x : x ∈ limited op_sem q l → x ∈ l.
Proof.
  assert (∀ n l, x ∈ take n l → x ∈ l) as Ht by (intros n k (? & H & _)%elem_of_take; by eapply list_elem_of_lookup_2).
  assert (∀ n l, x ∈ drop n l → x ∈ l) as Hd by (intros n k H; rewrite <- (take_drop n k); set_solver).
  unfold limited. destruct (limitOffset q ≫= const_nat op_sem), (limitCount q ≫= const_nat op_sem); eauto.
Qed.

Section rows.
Context (op_sem : operators) (cat : syscache) (db : Z → list tuple).

Abbreviation evalT := (evalTrans op_sem cat db).
Abbreviation rowsT q root := (rows_at (map (evalTransRTE op_sem cat db) (rtable q)) root).

Lemma evalTrans_unfold q info :
  evalT q info = body_trans op_sem cat (rowsT q (info_root info)) q (info_root info).
Proof. by destruct q. Qed.

(** A row of the result: the columns and the parts of a row of FROM and WHERE. *)
Lemma evalTrans_in q info r :
  spj_query cat q → r ∈ evalT q info →
  ∃ e, e ∈ solve_trans op_sem cat (rowsT q (info_root info)) q ∧ r = (targets op_sem fst q e, Some (parts e (info_root info))).
Proof.
  intros Hq. rewrite evalTrans_unfold. intros (p & -> & Hp)%in_limited%list_elem_of_fmap.
  assert (p ∈ (λ e, (targets op_sem fst q e, Some (parts e (info_root info)))) <$> solve_trans op_sem cat (rowsT q (info_root info)) q) as H.
  { revert Hp. unfold distinct. destruct (distinctClause q); [done|]. apply dedup_on_in. }
  apply list_elem_of_fmap in H as (e & -> & He). exists e. split; [done|]. cbn.
  rewrite visible_all; [done|by eapply te_ok_shown, Hq|apply targets_length].
Qed.

Lemma evalTrans_row q info r : spj_query cat q → r ∈ evalT q info → present r = true ∧ length r.1 = out_width q.
Proof.
  intros Hq (e & _ & ->)%evalTrans_in; [|done]. split; [done|]. cbn. rewrite targets_length. symmetry. apply out_width_all.
  eapply Forall_impl; [apply (te_ok_shown cat), Hq|]. by intros te [].
Qed.

Context (Hdb : ∀ i t, t ∈ db i → length t = length (rd_att cat i)).

(** The rows of the entries are there, and have all columns. *)
Lemma rowsT_ok q root i r :
  (∀ r s, r ∈ rtable q → rtekind r = RTE_SUBQUERY → subquery r = Some s → spj_query cat s) →
  r ∈ rowsT q root i → present r = true ∧ length r.1 = width cat q i.
Proof using Hdb.
  intros Hsub. unfold rows_at, width. rewrite rt_fetch_map. destruct (rt_fetch i (rtable q)) as [e|] eqn:Ee; cbn; [|by intros ?%elem_of_nil].
  apply rt_fetch_in in Ee. specialize (Hsub e). destruct e as [k rel sub ft vt jt av al er pb pa]. cbn in *.
  destruct k; cbn; try (by intros ?%elem_of_nil).
  - intros (t & -> & Ht)%list_elem_of_fmap. cbn. split; [done|]. by apply Hdb.
  - destruct sub as [s|]; [|by intros ?%elem_of_nil]. destruct (find_info i root) as [info|]; [|by intros ?%elem_of_nil].
    apply evalTrans_row. by apply (Hsub s).
Qed.

(** From the rows of FROM and WHERE to the result. *)
Lemma body_sim q q2 tabs rows t (R : tuple → trow → Prop) :
  setOperations q2 = None → grouped q2 = false → distinctClause q2 = distinctClause q →
  limitOffset q2 = limitOffset q → limitCount q2 = limitCount q →
  (∀ u r, R u r → distinct_key q2 u = distinct_key q r.1 ∧ R (visible q2 u) (visible q r.1, r.2)) →
  Forall2 (λ e1 e2, R (targets op_sem id q2 e1) (targets op_sem fst q e2, Some (parts e2 t)))
    (solve_plain op_sem cat tabs q2) (solve_trans op_sem cat rows q) →
  Forall2 R (limited op_sem q2 (visible q2 <$> distinct q2 (distinct_key q2) (body op_sem cat tabs q2)))
    (body_trans op_sem cat rows q t).
Proof using Type.
  clear Hdb. intros Hs Hg Hd Ho Hc HR H. unfold body, body_trans. rewrite Hs, Hg. apply limited_sim; [done..|].
  apply Forall2_fmap. eapply Forall2_impl; [apply (distinct_sim q q2 R); [done| |]|].
  - intros u r Hur. by apply HR.
  - by apply Forall2_fmap.
  - intros u r Hur. by apply HR.
Qed.

Lemma subqueries_spj q :
  spj_parts cat q → ∀ r s, r ∈ rtable q → rtekind r = RTE_SUBQUERY → subquery r = Some s →
  query_ok cat s = true ∧ spj_tree cat s = true ∧ spj_query cat s.
Proof using Type.
  clear Hdb. intros Hq r s Hr Hk Hs. pose proof (sp_subs _ _ Hq r s Hr Hs) as Ht.
  pose proof (proj1 (Forall_forall _ _) (fo_rtes _ _ Hq) r Hr) as Ho. cbn in Ho. apply rte_ok_spec in Ho as (_ & _ & _ & _ & H).
  destruct H as [(? & _)|[(_ & s' & Es' & Hs')|?]]; [congruence| |congruence]. rewrite Hs in Es'. injection Es' as <-.
  split_and!; try done. by apply spj_tree_spec.
Qed.

Lemma rowsT_present q t i r : spj_parts cat q → r ∈ rowsT q t i → present r = true ∧ length r.1 = width cat q i.
Proof using Hdb. intros Hq. apply rowsT_ok. intros e s He Hk Hs. by apply (subqueries_spj q Hq e s). Qed.

(** The values are the rows of the query. *)
Lemma evalTrans_plain q info :
  query_ok cat q = true → spj_tree cat q = true → tree_of q info → fst <$> evalT q info = evalQuery op_sem cat db q.
Proof using Hdb.
  revert info. revert q. apply (Query_tree_ind
    (λ q, ∀ info, query_ok cat q = true → spj_tree cat q = true → tree_of q info → fst <$> evalT q info = evalQuery op_sem cat db q)
    (λ r, ∀ s, subquery r = Some s → ∀ info, query_ok cat s = true → spj_tree cat s = true → tree_of s info →
       fst <$> evalT s info = evalQuery op_sem cat db s)).
  2:{ intros k rel sub Hsub ft vt jt av al er pb pa s. cbn. intros ->. by apply option_all_Some in Hsub. }
  intros ct ag sl rt Hrt fl qu tl gc hq dc sc lo lc so ps sr info Hok Ht Htree. apply list_all_Forall in Hrt.
  pose proof (spj_tree_spec cat _ Hok Ht) as Hq. set (q := mkQuery _ _ _ _ _ _ _ _ _ _ _ _ _ _ _ _) in *. apply tree_of_unfold in Htree.
  set (t := info_root info) in *.
  assert (Forall2 (λ u r, length r.1 = length (targetList q) ∧ u = r.1) (evalQuery op_sem cat db q) (evalT q info)) as H.
  2:{ clear -H. induction H as [|u r l k [_ ->] _ IH]; [done|]. csimpl. by rewrite IH. }
  rewrite evalQuery_unfold, evalTrans_unfold. fold t.
  apply body_sim; try done; [apply Hq|apply Hq| |].
  { intros u r [Hl ->]. split; [done|]. cbn [fst snd]. by rewrite visible_all by (done || by eapply te_ok_shown, Hq). }
  eapply Forall2_impl; [apply (solve_sim op_sem cat q q Hq eq_refl eq_refl (rowsT q t) _ (λ _ c _, c = []))|].
  - intros i Hk. unfold row_sim. split; [|split; [cbn; unfold null_tuple, width, nulls|]].
    + unfold rows_at. rewrite !rt_fetch_map. destruct (rt_fetch i (rtable q)) as [r|] eqn:Er; [|unfold kind_at in Hk; rewrite Er in Hk; by destruct Hk].
      cbn [fmap option_fmap option_map default].
      assert (Forall (λ x, length x.1 = width cat q i) (evalTransRTE op_sem cat db r i t)) as Hlen.
      { apply Forall_forall. intros x Hx. apply (rowsT_present q t i x Hq). unfold rows_at. by rewrite rt_fetch_map, Er. }
      assert (fst <$> evalTransRTE op_sem cat db r i t = evalRTE op_sem cat db r) as <-.
      { unfold kind_at in Hk. rewrite Er in Hk. cbn in Hk. destruct Hk as [[= Hk]|[= Hk]].
        - destruct r. cbn in *. subst. cbn. by rewrite <- list_fmap_compose, list_fmap_id.
        - destruct (find_subquery cat q t i Hq Htree) as (inf & r' & s & Ef & Er' & _ & Es & Hs & Hsok & _).
          { unfold kind_at. rewrite Er. cbn. by rewrite Hk. }
          rewrite Er in Er'. injection Er' as <-. pose proof (rt_fetch_Forall _ _ _ _ Hrt Er s Es inf Hsok) as IH.
          destruct (subqueries_spj q Hq r s (rt_fetch_in _ _ _ Er) Hk Es) as (_ & Hst & _). specialize (IH Hst Hs).
          destruct r. cbn in *. subst. cbn. by rewrite Ef. }
      clear -Hlen. induction Hlen as [|x l Hx _ IH]; csimpl; constructor; [|done]. split; [done|]. exists []. by rewrite app_nil_r.
    + destruct (rt_fetch i (rtable q)); [by rewrite length_replicate|done].
    + exists []. by rewrite app_nil_r.
  - done.
  - intros e1 e2 [He _]. cbn [fst]. split; [apply targets_length|]. unfold targets. eapply targets_ext; [exact He|].
    eapply Forall_impl; [apply (spj_targets _ _ Hq)|]. intros te. unfold te_ok. intros. by checks.
Qed.

(** Every row of a static query has all parts. *)
Lemma evalTrans_static N q info r :
  query_ok cat q = true → spj_tree cat q = true → tree_of q info → static_ok info → sets_ok N info →
  TRANS_GET_STATIC info = true → r ∈ evalT q info → r.2 = Some (static_set info).
Proof using Hdb.
  revert info r. revert q. apply (Query_tree_ind
    (λ q, ∀ info r, query_ok cat q = true → spj_tree cat q = true → tree_of q info → static_ok info → sets_ok N info →
       TRANS_GET_STATIC info = true → r ∈ evalT q info → r.2 = Some (static_set info))
    (λ e, ∀ s, subquery e = Some s → ∀ info r, query_ok cat s = true → spj_tree cat s = true → tree_of s info → static_ok info →
       sets_ok N info → TRANS_GET_STATIC info = true → r ∈ evalT s info → r.2 = Some (static_set info))).
  2:{ intros k rel sub Hsub ft vt jt av al er pb pa s. cbn. intros ->. by apply option_all_Some in Hsub. }
  intros ct ag sl rt Hrt fl qu tl gc hq dc sc lo lc so ps sr info r Hok Ht Htree Hst Hset Hs Hr. apply list_all_Forall in Hrt.
  pose proof (spj_tree_spec cat _ Hok Ht) as Hq. set (q := mkQuery _ _ _ _ _ _ _ _ _ _ _ _ _ _ _ _) in *. apply tree_of_unfold in Htree.
  apply evalTrans_in in Hr as (e & He & ->); [|apply Hq]. cbn [snd]. f_equal.
  transitivity (static_set (info_root info)); [|by destruct info].
  assert (static_ok (info_root info) ∧ sets_ok N (info_root info) ∧ TRANS_GET_STATIC (info_root info) = true) as (H1 & H2 & H3).
  { destruct info; [done|]. cbn in *. destruct Hst as [-> Hst]. done. }
  pose proof (root_unique _ _ _ (fo_scope _ _ Hq) Htree) as Hu. apply (rooted_inherit _ _ (λ u, static_ok u ∧ sets_ok N u)) in Hu; [| |done].
  2:{ intros id b op cs s i [[_ Ha] [_ Hb]]. rewrite all_of_Forall in Ha, Hb. rewrite Forall_forall in *. auto. }
  assert (∀ i x, x ∈ rowsT q (info_root info) i → present x = true) as Hpres.
  { intros i x Hx. by apply (rowsT_present q (info_root info) i x Hq). }
  eapply (root_static_fine op_sem cat q (rowsT q (info_root info)) Hpres _ _ N);
    [apply Hq|exact Hu|by apply local_ok_intro|done|by apply solve_fine; [..|apply Hq|]].
  Unshelve. intros i u x [[Hsub Hf] [Hu1 Hu2]] Hus Hx. pose proof (find_root _ _ _ i Htree) as Hfr. rewrite Hf in Hfr.
  destruct Hfr as (_ & _ & Hk). destruct (find_subquery cat q _ i Hq Htree Hk) as (inf & r & s & Ef & Er & Hkr & Es & Htr & Hsok & _).
  rewrite Hf in Ef. injection Ef as <-. destruct (subqueries_spj q Hq r s (rt_fetch_in _ _ _ Er) Hkr Es) as (_ & Hst' & _).
  apply (rt_fetch_Forall _ _ _ _ Hrt Er s Es u x); try done. revert Hx. unfold rows_at. rewrite rt_fetch_map, Er. cbn.
  destruct r. cbn in *. subst. cbn. by rewrite Hf.
Qed.

End rows.

(** ** Static parts *)

(** The parts and infos of a tree. *)
Fixpoint nodes (t : TransNode) : list TransNode :=
  t :: match t with
       | TransSubInfo _ _ _ children _ _ => concat (map nodes children)
       | TransProvInfo _ root _ _ => nodes root
       end.

Definition outer_op (op : SubOperationType) : bool :=
  match op with SUBOP_Join_Left | SUBOP_Join_Right | SUBOP_Join_Full => true | _ => false end.

Definition outer_join (t : TransNode) : bool :=
  match t with TransSubInfo _ _ op _ _ _ => outer_op op | TransProvInfo _ _ _ _ => false end.

(** No outer join at or below a part. *)
Definition outer_free (t : TransNode) : bool := negb (existsb outer_join (nodes t)).

(** A part and all the parts below it. *)
Definition all_parts (t : TransNode) : gset Z := list_to_set (numbers t).

(** All of them took part in a row, or none of them. *)
Definition whole_or_none (S : gset Z) (t : TransNode) : Prop := all_parts t ⊆ S ∨ all_parts t ## S.

Lemma all_parts_sub id b op cs s i : all_parts (TransSubInfo id b op cs s i) = {[id]} ∪ ⋃ (map all_parts cs).
Proof.
  unfold all_parts. cbn. f_equal. induction cs as [|c cs IH]; [done|]. cbn. by rewrite list_to_set_app_L, IH.
Qed.

Lemma outer_free_sub id b op cs s i :
  outer_free (TransSubInfo id b op cs s i) = negb (outer_op op) && forallb outer_free cs.
Proof.
  unfold outer_free. cbn [nodes existsb outer_join]. rewrite negb_orb. f_equal.
  induction cs as [|c cs IH]; [done|]. cbn. by rewrite existsb_app, negb_orb, IH.
Qed.

Lemma node_parts t w : w ∈ nodes t → all_parts w ⊆ all_parts t.
Proof.
  revert w. induction t as [id b op cs s i IH|b root a i IH] using TransNode_tree_ind; intros w; cbn [nodes];
    (intros [->|Hw]%elem_of_cons; [done|]); [|by apply IH].
  apply elem_of_concat in Hw as (l & Hl & (c & -> & Hc)%list_elem_of_fmap). rewrite Forall_forall in IH.
  rewrite all_parts_sub. pose proof (IH c Hc w Hl). intros x Hx. apply elem_of_union_r, elem_of_union_list.
  exists (all_parts c). split; [by apply list_elem_of_fmap_2|auto].
Qed.

(** What is known of the set [S] of the parts of the tree [t] that took part in a row, if the row of [t] is there ([p]) or not. *)
Record settles (S : gset Z) (t : TransNode) (p : bool) : Prop := {
  se_sub : S ⊆ all_parts t;
  se_absent : p = false → S = ∅;
  se_free : outer_free t = true → p = true → all_parts t ⊆ S;
  se_nodes : NoDup (numbers t) → ∀ w, w ∈ nodes t → outer_free w = true → whole_or_none S w }.

Lemma settles_info S b root a i p : settles S root p → settles S (TransProvInfo b root a i) p.
Proof.
  intros [H1 H2 H3 H4]. split; [done|done|done|]. cbn [nodes numbers]. intros HN w [->|Hw]%elem_of_cons Ho; [|by apply H4].
  apply (H4 HN root); [by destruct root; left|done].
Qed.

(** The set of a part is made of those of its children. *)
Lemma settles_sub (e : Z → trow) id b op cs s i :
  let p := bool_decide (i = TRANS_NO_RTINDEX) || present (e i) in
  Forall (λ c, ∃ pc, settles (parts e c) c pc ∧ (outer_op op = false → p = true → pc = true)) cs →
  settles (parts e (TransSubInfo id b op cs s i)) (TransSubInfo id b op cs s i) p.
Proof.
  intros p Hcs. set (t := TransSubInfo id b op cs s i). assert (parts e t = if p then {[id]} ∪ ⋃ (map (parts e) cs) else ∅) as E by done.
  assert (outer_free t = true → p = true → all_parts t ⊆ parts e t) as Hfree.
  { unfold t at 1. rewrite outer_free_sub. intros [Ho Hc]%andb_true_iff Hp. rewrite E, Hp. unfold t. rewrite all_parts_sub.
    apply union_mono_l. clear E. apply negb_true_iff in Ho. revert Hc. clear t.
    induction Hcs as [|c cs (pc & Hc1 & Hpc) _ IH]; cbn [map union_list foldr forallb]; [done|].
    intros [Hc Hcs]%andb_true_iff. apply union_mono; [|by apply IH]. apply (se_free _ _ _ Hc1); auto. }
  assert (∀ c, c ∈ cs → parts e c ⊆ all_parts c) as Hsub.
  { intros c Hc. rewrite Forall_forall in Hcs. destruct (Hcs c Hc) as (pc & Hpc & _). apply Hpc. }
  split; [|by rewrite E; intros ->|done|].
  - rewrite E. unfold t. rewrite all_parts_sub. destruct p; [|set_solver]. apply union_mono_l.
    intros x (X & (c & -> & Hc)%list_elem_of_fmap & Hx)%elem_of_union_list. apply elem_of_union_list.
    exists (all_parts c). split; [by apply list_elem_of_fmap_2|]. by apply (Hsub c).
  - intros HN w Hw Ho. destruct p eqn:Hp; [|right; rewrite E; set_solver].
    apply elem_of_cons in Hw as [->|Hw]; [left; auto|].
    apply elem_of_concat in Hw as (l & Hl & (c & -> & Hc)%list_elem_of_fmap). pose proof (node_parts _ _ Hl) as Hwc.
    apply list_elem_of_split in Hc as (l1 & l2 & ->).
    assert ((id ∉ all_parts c) ∧ NoDup (numbers c) ∧ ∀ d, d ∈ l1 ++ l2 → all_parts d ## all_parts c) as (Hid & Nc & Hd).
    { unfold t in HN. cbn [numbers] in HN. rewrite map_app, concat_app in HN. cbn in HN. apply NoDup_cons in HN as [H1 H2].
      apply NoDup_app in H2 as (_ & H2 & H3). apply NoDup_app in H3 as (H3 & H4 & _). unfold all_parts.
      assert (∀ d l x, d ∈ l → x ∈ numbers d → x ∈ concat (map numbers l)) as Hin.
      { intros d k x Hd Hx. apply elem_of_concat. exists (numbers d). split; [done|by apply list_elem_of_fmap_2]. }
      split; [rewrite elem_of_list_to_set; set_solver|]. split; [done|].
      intros d [Hd|Hd]%elem_of_app x; rewrite !elem_of_list_to_set; intros Hx Hx'.
      - apply (H2 x); [by eapply Hin|]. apply elem_of_app. by left.
      - apply (H4 x Hx'). by eapply Hin. }
    rewrite Forall_forall in Hcs. destruct (Hcs c ltac:(set_solver)) as (pc & Hpc & _).
    destruct (se_nodes _ _ _ Hpc Nc w Hl Ho) as [Hall|Hnone].
    + left. rewrite E. intros x Hx. apply elem_of_union_r, elem_of_union_list. exists (parts e c).
      split; [apply list_elem_of_fmap_2; set_solver|auto].
    + right. intros x Hx. rewrite E. intros [->%elem_of_singleton|Hx']%elem_of_union; [auto|].
      apply elem_of_union_list in Hx' as (X & (d & -> & Hin)%list_elem_of_fmap & HX).
      assert (d = c ∨ d ∈ l1 ++ l2) as [->|Hin'] by (revert Hin; rewrite !elem_of_app, elem_of_cons; tauto); [by apply (Hnone x)|].
      apply (Hd d Hin' x); [by apply (Hsub d)|auto].
Qed.

Section static.
Context (op_sem : operators) (cat : syscache) (q : Query) (rows : Z → list trow) (P : Z → TransNode → Prop).
Context (Hsub : ∀ i u r, P i u → r ∈ rows i → ∃ S, r.2 = Some S ∧ settles S u true).

Lemma settles_absent t : settles ∅ t false.
Proof. split; [set_solver|done|done|]. intros _ w _ _. right. set_solver. Qed.

Lemma item_settles e n t :
  node_ok cat q n = true → item_of P q n t → fine op_sem cat q rows e n → settles (parts e t) t (present (e (root n))).
Proof using Hsub.
  revert t. induction n as [i|jt l IHl r IHr c J]; intros t Hn Ht Hf; pose proof (node_index cat q _ Hn) as Hi; cbn [item_of root] in *.
  - destruct Ht as [[_ (id & b & s & ->)]|(_ & HP & b & rt & a & ->)].
    + pose proof (settles_sub e id b SUBOP_BaseRel [] s i (Forall_nil_2 _)) as H. by rewrite bool_decide_eq_false_2 in H.
    + destruct Hf as (_ & _ & Hf). destruct (Hf i) as [Hr|Hr]; [cbn; set_solver| |].
      * destruct (Hsub i _ _ HP Hr) as (S & ES & HS). unfold present. cbn. by rewrite ES.
      * cbn [parts]. rewrite Hr. apply settles_absent.
  - destruct Ht as (id & b & tl & tr & s & -> & Il & Ir). cbn [node_ok] in Hn. checks. apply fine_join in Hf as (Fl & Fr & Hm & E).
    pose proof (settles_sub e id b (join_op jt) [tl; tr] s J) as H. cbv zeta in H. rewrite bool_decide_eq_false_2 in H by done. apply H.
    assert (outer_op (join_op jt) = false → present (e J) = true → present (e (root l)) = true ∧ present (e (root r)) = true) as Hin.
    { destruct jt; try done. cbn in Hm. rewrite E, Hm, orb_diag. done. }
    constructor; [eexists; split; [by apply IHl|by intros; apply Hin]|]. constructor; [eexists; split; [by apply IHr|by intros; apply Hin]|done].
Qed.

Lemma root_settles e t :
  from_ok cat q → rooted P q t → Forall (λ n, fine op_sem cat q rows e n ∧ present (e (root n)) = true) (fromlist q) →
  settles (parts e t) t true.
Proof using Hsub.
  intros Hq (ts & Hts & Hroot) Hf.
  assert (Forall (λ c, settles (parts e c) c true) ts) as Hall.
  { pose proof (fo_nodes _ _ Hq) as Hns. clear Hroot. induction Hts as [|n u ns us Hu _ IH]; [constructor|].
    apply Forall_cons in Hf as [[Hf1 Hp] Hf], Hns as [Hn Hns]. constructor; [|by apply IH]. rewrite <- Hp. by apply item_settles. }
  destruct Hroot as [Hc| ->]; [|by apply Forall_cons in Hall as [H _]].
  induction Hc as [id b op s Hop|id b op t s Hop Hc IH].
  - apply (settles_sub e id b op ts s TRANS_NO_RTINDEX). eapply Forall_impl; [exact Hall|]. intros c H. by exists true.
  - apply (settles_sub e id b op [t] s TRANS_NO_RTINDEX). constructor; [|done]. by exists true.
Qed.

End static.

(** The parts of the rows of a query. *)
Lemma evalTrans_settles op_sem cat db q info r :
  (∀ i t, t ∈ db i → length t = length (rd_att cat i)) →
  query_ok cat q = true → spj_tree cat q = true → tree_of q info → r ∈ evalTrans op_sem cat db q info →
  ∃ S, r.2 = Some S ∧ settles S info true.
Proof.
  intros Hdb. revert info r. revert q. apply (Query_tree_ind
    (λ q, ∀ info r, query_ok cat q = true → spj_tree cat q = true → tree_of q info → r ∈ evalTrans op_sem cat db q info →
       ∃ S, r.2 = Some S ∧ settles S info true)
    (λ e, ∀ s, subquery e = Some s → ∀ info r, query_ok cat s = true → spj_tree cat s = true → tree_of s info →
       r ∈ evalTrans op_sem cat db s info → ∃ S, r.2 = Some S ∧ settles S info true)).
  2:{ intros k rel sub Hsub ft vt jt av al er pb pa s. cbn. intros ->. by apply option_all_Some in Hsub. }
  intros ct ag sl rt Hrt fl qu tl gc hq dc sc lo lc so ps sr info r Hok Ht Htree Hr. apply list_all_Forall in Hrt.
  pose proof (spj_tree_spec cat _ Hok Ht) as Hq. set (q := mkQuery _ _ _ _ _ _ _ _ _ _ _ _ _ _ _ _) in *. apply tree_of_unfold in Htree.
  apply evalTrans_in in Hr as (e & He & ->); [|apply Hq]. cbn [snd]. eexists. split; [done|].
  pose proof (root_unique _ _ _ (fo_scope _ _ Hq) Htree) as Hu. set (rows := rows_at _ (info_root info)) in He.
  assert (∀ i x, x ∈ rows i → present x = true) as Hpres by (intros i x Hx; by apply (rowsT_present op_sem cat db Hdb q (info_root info) i x Hq)).
  assert (settles (parts e (info_root info)) (info_root info) true) as H.
  { eapply (root_settles op_sem cat q rows _); [|apply Hq|exact Hu|by apply solve_fine; [..|apply Hq|]].
    intros i u x [Hsub Hf] Hx. pose proof (find_root _ _ _ i Htree) as Hfr. rewrite Hf in Hfr.
    destruct Hfr as (_ & _ & Hk). destruct (find_subquery cat q _ i Hq Htree Hk) as (inf & r & s & Ef & Er & Hkr & Es & Htr & Hsok & _).
    rewrite Hf in Ef. injection Ef as <-. destruct (subqueries_spj cat q Hq r s (rt_fetch_in _ _ _ Er) Hkr Es) as (_ & Hst' & _).
    apply (rt_fetch_Forall _ _ _ _ Hrt Er s Es u x); try done. revert Hx. unfold rows, rows_at. rewrite rt_fetch_map, Er. cbn.
    destruct r. cbn in *. subst. cbn. by rewrite Hf. }
  destruct info; [done|]. by apply settles_info.
Qed.

(** Set operations that are not in the trees of the fragment. *)
Definition plain_node (t : TransNode) : Prop :=
  match t with TransSubInfo _ _ op _ _ _ => op ≠ SUBOP_SetOp_Diff ∧ op ≠ SUBOP_SetOp_Union | _ => True end.

Lemma plain_nodes_sub id b op cs s i :
  op ≠ SUBOP_SetOp_Diff → op ≠ SUBOP_SetOp_Union → Forall (λ c, Forall plain_node (nodes c)) cs →
  Forall plain_node (nodes (TransSubInfo id b op cs s i)).
Proof.
  intros H1 H2 Hcs. cbn [nodes]. constructor; [done|]. apply Forall_concat, Forall_fmap. exact Hcs.
Qed.

Lemma rooted_plain (P : Z → TransNode → Prop) q t :
  (∀ i u, P i u → Forall plain_node (nodes u)) → rooted P q t → Forall plain_node (nodes t).
Proof.
  intros HP (ts & Hts & Hr).
  assert (∀ n u, item_of P q n u → Forall plain_node (nodes u)) as Hitem.
  { induction n as [i|jt l IHl r IHr c J]; intros u; cbn [item_of].
    - intros [[_ (id & b & s & ->)]|(_ & Hp & _)]; [by repeat constructor|by eapply HP].
    - intros (id & b & tl & tr & s & -> & Hl & Hr'). apply plain_nodes_sub; [by destruct jt|by destruct jt|]. repeat constructor; auto. }
  assert (Forall (λ c, Forall plain_node (nodes c)) ts) as Hall.
  { clear Hr. induction Hts; constructor; eauto. }
  destruct Hr as [Hc| ->]; [|by apply Forall_cons in Hall as [H _]].
  induction Hc as [id b op s Hop|id b op t s Hop Hc IH]; apply plain_nodes_sub; try (by destruct op); try done. by repeat constructor.
Qed.

Lemma tree_plain q info : tree_of q info → Forall plain_node (nodes info).
Proof.
  revert info. revert q. apply (Query_tree_ind
    (λ q, ∀ info, tree_of q info → Forall plain_node (nodes info))
    (λ e, ∀ s, subquery e = Some s → ∀ info, tree_of s info → Forall plain_node (nodes info))).
  2:{ intros k rel sub Hsub ft vt jt av al er pb pa s. cbn. intros ->. by apply option_all_Some in Hsub. }
  intros ct ag sl rt Hrt fl qu tl gc hq dc sc lo lc so ps sr info Htree. apply list_all_Forall in Hrt.
  apply tree_of_unfold in Htree. apply rooted_plain in Htree; [destruct info; [done|by constructor]|].
  intros i u (r & s & Er & Es & Ht). by apply (rt_fetch_Forall _ _ _ _ Hrt Er s Es u).
Qed.

Lemma child_plain cs c : Forall plain_node (concat (map nodes cs)) → c ∈ cs → Forall plain_node (nodes c).
Proof.
  rewrite !Forall_forall. intros H Hc w Hw. apply H, elem_of_concat. exists (nodes c). split; [done|by apply list_elem_of_fmap_2].
Qed.

(** Exactly the parts without an outer join are marked, and the set of a part is what it should be. *)
Lemma static_exact N t u :
  Forall plain_node (nodes t) → static_ok t → sets_ok N t → u ∈ nodes t →
  TRANS_GET_STATIC u = outer_free u ∧
  match u with
  | TransSubInfo id b _ _ s _ => ∃ v, s = Some v ∧ represents N v (if b then all_parts u else {[id]})
  | TransProvInfo _ _ _ _ => True
  end.
Proof.
  intros Hp Hst Hset.
  assert (∀ t, Forall plain_node (nodes t) → static_ok t → TRANS_GET_STATIC t = outer_free t ∧ (TRANS_GET_STATIC t = true → static_set t = all_parts t)) as Hflag.
  { clear. induction t as [id b op cs s i IH|b root a i IH] using TransNode_tree_ind; cbn [nodes].
    - intros [[H1 H2] Hcs]%Forall_cons [Hb Ha]. rewrite all_of_Forall in Ha.
      assert (Forall (λ c, TRANS_GET_STATIC c = outer_free c ∧ (TRANS_GET_STATIC c = true → static_set c = all_parts c)) cs) as Hc.
      { rewrite Forall_forall in IH, Ha |- *. intros c Hc. apply IH; [done|by apply (child_plain cs)|by apply Ha]. }
      rewrite static_flag_plain in Hb by done. rewrite outer_free_sub. cbn [TRANS_GET_STATIC]. split.
      + subst b. f_equal; [by destruct op|]. clear -Hc. induction Hc as [|c cs [E _] _ IH]; [done|]. cbn. by rewrite E, IH.
      + intros ->. cbn [static_set]. rewrite union_counted_all, all_parts_sub by done. do 2 f_equal.
        symmetry in Hb. apply andb_true_iff in Hb as [_ Hb]. clear -Hc Hb.
        induction Hc as [|c cs [_ E] _ IH]; [done|]. cbn in *. apply andb_true_iff in Hb as [Hb1 Hb2]. by rewrite E, IH.
    - intros [_ Hr]%Forall_cons [-> Hs]. destruct (IH Hr Hs) as [E1 E2]. by split. }
  revert u. induction t as [id b op cs s i IH|b root a i IH] using TransNode_tree_ind; intros u Hu; pose proof (Hflag _ Hp Hst) as [Hf Hs];
    cbn [nodes] in Hu; apply elem_of_cons in Hu as [->|Hu].
  - split; [done|]. destruct Hset as [(v & -> & Hv) _]. exists v. split; [done|]. destruct b; [by rewrite <- Hs|].
    cbn [static_set] in Hv. by rewrite union_counted_false, union_empty_r_L in Hv.
  - apply elem_of_concat in Hu as (l & Hl & (c & -> & Hc)%list_elem_of_fmap). rewrite Forall_forall in IH. destruct Hst as [_ Ha], Hset as [_ Hb].
    rewrite all_of_Forall in Ha, Hb. cbn [nodes] in Hp. apply Forall_cons in Hp as [_ Hp].
    rewrite Forall_forall in Ha, Hb. by apply (IH c Hc); [apply (child_plain cs)|apply Ha|apply Hb|].
  - done.
  - destruct Hst as [_ Hst]. apply Forall_cons in Hp as [_ Hp]. by apply IH.
Qed.

End TransFacts.
