(* ===== verification/TransMain.v ===== *)
(** * Correctness of the transformation provenance rewriter

    Rewriting a query of the fragment succeeds, and the rewritten query returns the rows of the original one, each with the
    bit set of the parts that took part in it. *)

From Stdlib Require Import ZArith Lia.
From stdpp Require Import base strings numbers list sets gmap.
From S2P Require Import Prelude VarBit AttrName QueryTree SqlSemantics SqlFacts Queries ProvReplay RewriteSPJ RewriteJoins RewriteMain.
From S2P Require Import RewriteAggr AggrFacts JoinChain CopyFacts TransInfo TransRewrite.
From S2P Require Import TransTree TransSemantics TransShape TransEnv TransBuild ExtendSim TransFacts.
Import QueryTree SqlSemantics SqlFacts Queries ProvReplay RewriteSPJ RewriteJoins RewriteMain RewriteAggr AggrFacts JoinChain CopyFacts.
Import TransInfo TransRewrite TransTree TransSemantics TransShape TransEnv TransBuild ExtendSim TransFacts.

Module TransMain.

(** ** Replacing infos *)

Fixpoint subst (G : Z → option TransNode) (t : TransNode) : TransNode :=
  match t with
  | TransSubInfo id b op cs s i => TransSubInfo id b op (map (subst G) cs) s i
  | TransProvInfo _ _ _ j => default t (G j)
  end.

(** The infos have the index they are used for. *)
Definition indexed (G : Z → option TransNode) : Prop := ∀ j m, G j = Some m → ∃ b r a, m = TransProvInfo b r a j.

Definition upd (i : Z) (new : TransNode) (G : Z → option TransNode) : Z → option TransNode :=
  λ j, if decide (j = i) then Some new else G j.

Lemma subst_none t : subst (λ _, None) t = t.
Proof.
  induction t as [id b op cs s i IH|b r a i IH] using TransNode_tree_ind; cbn; [|done]. f_equal.
  induction IH as [|c cs Hc _ IH]; [done|]. cbn. by rewrite Hc, IH.
Qed.

Lemma replace_subst i new G t : indexed G → replace_info i new (subst G t) = subst (upd i new G) t.
Proof.
  intros HG. induction t as [id b op cs s k IH|b r a j IH] using TransNode_tree_ind; cbn.
  - f_equal. rewrite map_map. by apply map_eq_Forall.
  - unfold upd. destruct (G j) as [m|] eqn:E; cbn.
    + destruct (HG j m E) as (b' & r' & a' & ->). cbn. by case_decide.
    + by case_decide.
Qed.

Lemma find_subst i G t : indexed G → G i = None → find_info i (subst G t) = find_info i t.
Proof.
  intros HG Hi. induction t as [id b op cs s k IH|b r a j IH] using TransNode_tree_ind; cbn [subst].
  - rewrite !find_sub. induction IH as [|c cs Hc _ IH]; [done|]. cbn. by rewrite Hc, IH.
  - destruct (G j) as [m|] eqn:E; cbn; [|done]. destruct (HG j m E) as (b' & r' & a' & ->). cbn. case_decide; [congruence|done].
Qed.

Lemma parts_subst G e t : indexed G → parts e (subst G t) = parts e t.
Proof.
  intros HG. induction t as [id b op cs s k IH|b r a j IH] using TransNode_tree_ind; cbn [subst].
  - rewrite !parts_sub, map_map. by rewrite (map_eq_Forall _ _ _ IH).
  - destruct (G j) as [m|] eqn:E; [|done]. destruct (HG j m E) as (b' & r' & a' & ->). done.
Qed.

(** The info of a rewritten subquery. *)
Definition same_info (u m : TransNode) : Prop :=
  ∃ b r a r' a' j, u = TransProvInfo b r a j ∧ m = TransProvInfo b r' a' j ∧ (b = true → r' = r).

Section subst.
Context (N : Z) (q : Query) (P P' : Z → TransNode → Prop) (G : Z → option TransNode).
Context (HG : ∀ i u, P i u → ∃ m, G i = Some m ∧ P' i m ∧ same_info u m).

(** What replacing the infos keeps. *)
Definition kept (t t' : TransNode) : Prop :=
  local_ok N t' ∧ TRANS_GET_STATIC t' = TRANS_GET_STATIC t ∧ (TRANS_GET_STATIC t = true → static_set t' = static_set t).

Lemma subst_sub id b op cs s i :
  op ≠ SUBOP_SetOp_Diff → Forall (λ c, kept c (subst G c)) cs → local_ok N (TransSubInfo id b op cs s i) →
  kept (TransSubInfo id b op cs s i) (subst G (TransSubInfo id b op cs s i)).
Proof using Type.
  clear HG. intros Hop Hcs (Hb & (v & Ev & Hv) & _). cbn [subst].
  assert (forallb TRANS_GET_STATIC (map (subst G) cs) = forallb TRANS_GET_STATIC cs) as Hst.
  { clear -Hcs. induction Hcs as [|c cs (_ & E & _) _ IH]; [done|]. cbn. by rewrite E, IH. }
  assert (b = static_flag op (map (subst G) cs)) as Hb' by (rewrite Hb, !static_flag_plain by done; by rewrite Hst).
  assert (static_set (TransSubInfo id b op (map (subst G) cs) s i) = static_set (TransSubInfo id b op cs s i)) as Hset.
  { cbn [static_set]. destruct b; [|by rewrite !union_counted_false]. rewrite !union_counted_all, map_map by done.
    rewrite static_flag_plain in Hb by done. symmetry in Hb. apply andb_true_iff in Hb as [_ Hall%forallb_Forall].
    do 2 f_equal. apply map_eq_Forall. rewrite Forall_forall in *. intros c Hc. by apply (Hcs c Hc), Hall. }
  split; [|done]. split; [done|]. rewrite Hset. split; [by exists v|]. rewrite all_of_Forall, Forall_fmap.
  eapply Forall_impl; [exact Hcs|]. by intros c [].
Qed.

Lemma subst_item n t : item_of P q n t → local_ok N t → item_of P' q n (subst G t) ∧ kept t (subst G t).
Proof using HG.
  revert t. induction n as [j|jt l IHl r IHr c J]; intros t; cbn [item_of].
  - intros [[Hk (id & b & s & ->)]|(Hk & Hp & b & rt & a & ->)] Hl.
    + split; [left; split; [done|]; by eexists _, _, _|]. by apply subst_sub.
    + destruct (HG _ _ Hp) as (m & Em & Hm & b' & r0 & a0 & r' & a' & j' & [= <- <- <- <-] & -> & Hr).
      cbn [subst]. rewrite Em. cbn [default]. split; [right; split_and!; try done; by eexists _, _, _|].
      split; [|split; [done|]]; cbn; intros Hb; rewrite (Hr Hb); [by apply Hl|done].
  - intros (id & b & tl & tr & s & -> & Il & Ir) Hl. pose proof Hl as (_ & _ & Ll & Lr & _).
    destruct (IHl tl Il Ll) as [Il' Kl]. destruct (IHr tr Ir Lr) as [Ir' Kr]. split.
    + cbn [subst map]. exists id, b, (subst G tl), (subst G tr), s. done.
    + apply subst_sub; [apply join_op_plain|constructor; [done|by constructor]|done].
Qed.

Lemma subst_items ns ts :
  Forall2 (item_of P q) ns ts → Forall (local_ok N) ts →
  Forall2 (item_of P' q) ns (map (subst G) ts) ∧ Forall (λ c, kept c (subst G c)) ts.
Proof using HG.
  induction 1 as [|n t ns ts Ht _ IH]; [by constructor|]. intros [H1 H2]%Forall_cons. destruct (IH H2), (subst_item n t Ht H1).
  split; by constructor.
Qed.

Lemma subst_rooted t : rooted P q t → local_ok N t → rooted P' q (subst G t) ∧ kept t (subst G t).
Proof using HG.
  intros (ts & Hts & [Hc| ->]) Hl.
  - assert (Forall (local_ok N) ts) as Hall.
    { clear Hts. induction Hc as [id b op s Hop|id b op t s Hop Hc IH]; destruct Hl as (_ & _ & Hl).
      - by rewrite all_of_Forall in Hl.
      - apply IH, Hl. }
    destruct (subst_items _ _ Hts Hall) as [Hts' Hk].
    assert (chained (map (subst G) ts) (subst G t) ∧ kept t (subst G t)) as [Hc' Hkt].
    { clear Hts Hts'. induction Hc as [id b op s Hop|id b op t s Hop Hc IH].
      - split; [by constructor|]. apply subst_sub; [by apply static_op_plain|done..].
      - pose proof Hl as (_ & _ & Hl' & _). destruct (IH Hl') as [H1 H2]. split; [by constructor|].
        apply subst_sub; [by apply static_op_plain|by constructor|done]. }
    split; [|done]. exists (map (subst G) ts). by split; [|left].
  - destruct (subst_items _ _ Hts) as [Hts' Hk]; [by constructor|]. apply Forall_cons in Hk as [Hk _]. split; [|done].
    exists [subst G t]. by split; [|right].
Qed.

End subst.

(** ** One more column *)

Section column.
Context (q q2 : Query) (te : TargetEntry).
Context (Htl : targetList q2 = targetList q ++ [te]) (Hd : distinctClause q2 = distinctClause q).
Context (Hte : resjunk te = false) (Href : ressortgroupref te ∉ (tleSortGroupRef <$> distinctClause q)).

Lemma visible_snoc u c : length u = length (targetList q) → visible q2 (u ++ [c]) = visible q u ++ [c].
Proof using Htl Hte.
  intros Hl. unfold visible. rewrite Htl, zip_with_app by done. rewrite filter_app, fmap_app. f_equal. cbn [zip_with].
  by rewrite filter_cons_True.
Qed.

Lemma distinct_key_snoc u c : length u = length (targetList q) → distinct_key q2 (u ++ [c]) = distinct_key q u.
Proof using Htl Hd Href.
  intros Hl. unfold distinct_key. rewrite Htl, Hd, zip_with_app by done. rewrite filter_app, fmap_app. cbn [zip_with].
  rewrite filter_cons_False by done. apply app_nil_r.
Qed.

End column.

(** ** Rewriting *)

Section rewriting.
Context (op_sem : operators) (Hor : bitor_ops op_sem) (cat : syscache) (opt wl : bool) (N : Z).

(** A row of the rewritten query and the annotated row it shows. *)
Definition row_rep (u : tuple) (r : trow) : Prop := ∃ c, u = r.1 ++ [c] ∧ value_rep N c r.2.

Record rewritten (q : Query) (info : TransNode) (new : Query) (info' : TransNode) : Prop := {
  rw_info : ∃ b r a r' i, info = TransProvInfo b r a i ∧
    info' = TransProvInfo b r' (Z.of_nat (length (targetList q)) + 1) i ∧ (b = true → r' = r);
  rw_targets : ∃ te, targetList new = targetList q ++ [te] ∧ shown_named te;
  rw_plain : setOperations new = None ∧ grouped new = false;
  rw_eval db : (∀ i t, t ∈ db i → length t = length (rd_att cat i)) → distinguishable op_sem cat db q info = true →
    Forall2 row_rep (evalQuery op_sem cat db new) (evalTrans op_sem cat db q info) }.

(** The query and its info as the analysis leaves them. *)
Record ready (q : Query) (info : TransNode) : Prop := {
  rd_ok : query_ok cat q = true;
  rd_spj : spj_tree cat q = true;
  rd_tree : tree_of q info;
  rd_static : static_ok info;
  rd_sets : sets_ok N info;
  rd_info : ∃ b r a i, info = TransProvInfo b r a i }.

Lemma trans_attr_ok query x info st :
  ∃ te st', add_trans_attr query x info st =
      Ok ((set_targetList (targetList query ++ [te]) query, set_attrNum (Z.of_nat (length (targetList query)) + 1) info), st') ∧
    shown_named te ∧ ressortgroupref te = 0%Z ∧ expr te = x.
Proof using Type.
  clear. unfold add_trans_attr, MAKE_TRANS_PROV_ATTR. destruct (uniqueAttrName_ok "trans_prov" st) as (name & st' & E & _).
  exists (makeTargetEntry x (Z.of_nat (length (targetList query)) + 1) (Some name) false), st'.
  split; [|split; [split; [done|by eexists]|done]]. erewrite bind_ok by (hrun E; reflexivity). cbn [targetList]. rewrite length_app. cbn [length]. unfold ret. do 4 f_equal. lia.
Qed.

(** The new column is not compared by DISTINCT. *)
Lemma new_ref q te : spj_parts cat q → ressortgroupref te = 0%Z → ressortgroupref te ∉ (tleSortGroupRef <$> distinctClause q).
Proof using Type.
  clear. intros Hq -> (s & E & Hs)%list_elem_of_fmap. pose proof (sp_refs _ _ Hq) as HF. rewrite Forall_forall in HF.
  by apply (HF s Hs).
Qed.

(** A static query gets a constant column. *)
Lemma rewrite_static fuel entry link lost q info st :
  ready q info → TRANS_GET_STATIC info = true →
  ∃ new info' st', rewriteQueryNodeTrans cat opt wl (S fuel) entry link lost q info st = Ok ((new, new, info'), st') ∧ rewritten q info new info'.
Proof using Hor.
  intros [Hok Ht Htree Hst Hset (b & r & a & i & ->)] Hs. cbn [TRANS_GET_STATIC] in Hs. subst b.
  pose proof (spj_tree_spec cat q Hok Ht) as Hq. cbn [rewriteQueryNodeTrans TRANS_GET_STATIC]. rewrite (spj_setops _ _ Hq).
  destruct (sets_ok_root N _ Hset) as (v & Ev & Hv). unfold addStaticTransProvAttr. rewrite Ev.
  destruct (const_eval op_sem N v _ st Hv) as (x & Ex & Hx).
  destruct (trans_attr_ok q x (TransProvInfo true r a i) st) as (te & st' & Ea & Hte & Href & He).
  eexists _, _, st'. split; [erewrite bind_ok by (hrun Ex; exact Ea); reflexivity|]. split.
  - cbn. by eexists _, _, _, _, _.
  - by eexists.
  - split; [apply Hq|apply (spj_grouped _ _ Hq)].
  - intros db Hdb _. set (new := set_targetList _ q).
    assert (Forall2 (λ u t, length t = length (targetList q) ∧ ∃ c, u = t ++ [c] ∧ value_rep N c (Some (static_set (TransProvInfo true r a i))))
      (evalQuery op_sem cat db new) (evalQuery op_sem cat db q)) as HF.
    { rewrite !evalQuery_unfold. apply limited_sim; [done..|]. apply Forall2_fmap.
      assert (grouped new = false) as Hg by apply (spj_grouped _ _ Hq). unfold body.
      rewrite Hg, (spj_grouped _ _ Hq), (spj_setops _ _ Hq : setOperations new = None), (spj_setops _ _ Hq).
      eapply Forall2_impl; [apply (distinct_sim q new (λ u t, length t = length (targetList q) ∧ ∃ c, u = t ++ [c] ∧
        value_rep N c (Some (static_set (TransProvInfo true r a i))))); [done| |]|].
      - intros u t [Hl (c & -> & _)]. eapply distinct_key_snoc; try done. by apply new_ref.
      - apply Forall2_fmap. change (solve_plain op_sem cat (map (evalRTE op_sem cat db) (rtable new)) new)
          with (solve_plain op_sem cat (map (evalRTE op_sem cat db) (rtable q)) q).
        apply Forall2_same_length_lookup_2; [done|]. intros k e e' E E'. rewrite E in E'. injection E' as <-.
        split; [apply targets_length|]. unfold targets. subst new. cbn [targetList set_targetList]. rewrite fmap_app. eexists.
        split; [done|]. rewrite He. apply Hx.
      - intros u t [Hl (c & -> & Hc)].
        rewrite (visible_snoc q new te), (visible_all q t); try done; [|by eapply te_ok_shown, Hq|apply Hte]. split; [done|]. by exists c. }
    rewrite <- (evalTrans_plain op_sem cat db Hdb q _ Hok Ht Htree) in HF. apply Forall2_fmap_r in HF.
    eapply Forall2_impl; [apply (Forall2_with_r _ (λ x', x' ∈ evalTrans op_sem cat db q (TransProvInfo true r a i)) _ _ HF);
      by apply Forall_forall|].
    intros u x' [[_ (c & -> & Hc)] Hin]. exists c. split; [done|].
    by rewrite (evalTrans_static op_sem cat db Hdb N q _ x' Hok Ht Htree Hst Hset eq_refl Hin).
Qed.

(** ** Subqueries *)

(** An entry of the range table before and after. *)
Definition entry_rw (t : TransNode) (i : Z) (r r' : RangeTblEntry) (g : option TransNode) : Prop :=
  (rtekind r = RTE_SUBQUERY ∧ ∃ s info new info', subquery r = Some s ∧ find_info i t = Some info ∧ ready s info ∧
     rewritten s info new info' ∧ g = Some info' ∧ named_rte r' new) ∨
  (rtekind r ≠ RTE_SUBQUERY ∧ r' = r ∧ g = None).

Lemma rewrite_sub_represents rw lost r i t G st :
  indexed G → G i = None →
  (rtekind r = RTE_SUBQUERY → isProvBase r = false ∧ ∃ s info, subquery r = Some s ∧ find_info i t = Some info ∧ ready s info ∧
     (∃ b rt a, info = TransProvInfo b rt a i) ∧
     ∀ st, ∃ new info' st', rw true s info st = Ok ((new, new, info'), st') ∧ rewritten s info new info') →
  ∃ r' G' st', rewrite_sub rw lost r i (subst G t) st = Ok ((r', subst G' t), st') ∧ indexed G' ∧ (∀ j, j ≠ i → G' j = G j) ∧
    entry_rw t i r r' (G' i).
Proof using Type.
  intros HG Hi Hsub. unfold rewrite_sub. destruct (decide (rtekind r = RTE_SUBQUERY)) as [Hk|Hk].
  - destruct (Hsub Hk) as (Hb & s & info & Es & Ef & Hrd & (b & rt & a & ->) & Hrw). rewrite Hk, Es, bind_deref.
    rewrite (find_subst i G t HG Hi), Ef. cbn [fmap option_fmap option_map]. rewrite bind_deref. destruct (Hrw st) as (new & info' & st' & E & Hnew). hrun E.
    destruct (correct_sub_ok (set_subquery (Some new) r) new st') as (r' & E' & Hr'); [by split; [|destruct r]|].
    hrun E'. rewrite (replace_subst i info' G t HG). eexists _, (upd i info' G), st'. split; [done|]. split; [|split].
    + intros j m. unfold upd. case_decide; [|apply HG]. intros [= <-]. subst j.
      destruct (rw_info _ _ _ _ Hnew) as (? & ? & ? & ? & ? & [= _ _ _ <-] & -> & _). by eexists _, _, _.
    + intros j Hj. unfold upd. by rewrite decide_False.
    + left. split; [done|]. exists s, (TransProvInfo b rt a i), new, info'. unfold upd. rewrite decide_True by done.
      split_and!; try done. destruct Hr' as [[[? ?] ?] ?]. destruct r'. cbn in *. by repeat split.
  - exists r, G, st. split; [by destruct (rtekind r)|]. split; [done|]. split; [done|]. right. done.
Qed.

Lemma rewrite_subs_ok rw lost rtes k t G st :
  indexed G → (∀ j, (k ≤ j)%Z → G j = None) →
  (∀ j r, rtes !! j = Some r → rtekind r = RTE_SUBQUERY →
     isProvBase r = false ∧ ∃ s info, subquery r = Some s ∧ find_info (k + Z.of_nat j) t = Some info ∧ ready s info ∧
     (∃ b rt a, info = TransProvInfo b rt a (k + Z.of_nat j)%Z) ∧
     ∀ st, ∃ new info' st', rw true s info st = Ok ((new, new, info'), st') ∧ rewritten s info new info') →
  ∃ rtes' G' st', rewrite_subs rw lost rtes k (subst G t) st = Ok ((rtes', subst G' t), st') ∧ indexed G' ∧
    (∀ j, (j < k)%Z → G' j = G j) ∧ length rtes' = length rtes ∧
    (∀ j r r', rtes !! j = Some r → rtes' !! j = Some r' → entry_rw t (k + Z.of_nat j) r r' (G' (k + Z.of_nat j)%Z)).
Proof using Type.
  revert k G st. induction rtes as [|r rtes IH]; intros k G st HG Hk Hsub; [by exists [], G, st|].
  destruct (rewrite_sub_represents rw lost r k t G st HG (Hk k (Z.le_refl k))) as (r' & G1 & st1 & E & HG1 & Hsame & Hr).
  { intros Hkind. destruct (Hsub 0%nat r eq_refl Hkind) as (Hb & s & info & H1 & H2 & H3 & H4 & H5).
    rewrite Z.add_0_r in H2, H4. split; [done|]. by exists s, info. }
  destruct (IH (k + 1)%Z G1 st1 HG1) as (rtes' & G' & st' & E' & HG' & Hlow & Hlen & Hall).
  { intros j Hj. rewrite Hsame by lia. apply Hk. lia. }
  { intros j x Hx Hkind. destruct (Hsub (S j) x Hx Hkind) as (Hb & s & info & H1 & H2 & H3 & H4 & H5).
    replace (k + Z.of_nat (S j))%Z with (k + 1 + Z.of_nat j)%Z in H2, H4 by lia. split; [done|]. by exists s, info. }
  exists (r' :: rtes'), G', st'. split; [cbn [rewrite_subs]; hrun E; by hrun E'|]. split; [done|]. split; [|split].
  - intros j Hj. rewrite Hlow, Hsame by lia. done.
  - cbn. by rewrite Hlen.
  - intros [|j] x x'; cbn.
    + intros [= <-] [= <-]. rewrite Z.add_0_r, (Hlow k) by lia. done.
    + intros Hx Hx'. replace (k + Z.of_nat (S j))%Z with (k + 1 + Z.of_nat j)%Z by lia. by apply Hall.
Qed.

(** ** Select-project-join *)

Lemma distinguishable_spec db q info :
  distinguishable op_sem cat db q info = true →
  (∀ e, e ∈ solve_trans op_sem cat (rows_at (map (evalTransRTE op_sem cat db) (rtable q)) (info_root info)) q →
     Forall (λ i, shows_presence (e i) = true) (concat (optional_sides <$> fromlist q))) ∧
  (∀ i r, rt_fetch i (rtable q) = Some r → distinguishable_rte op_sem cat db r i (info_root info) = true).
Proof using Type.
  clear. intros Hd. set (t := info_root info).
  assert (forallb (λ e, forallb (λ i, shows_presence (e i)) (concat (map optional_sides (fromlist q))))
      (solve_trans op_sem cat (rows_at (map (evalTransRTE op_sem cat db) (rtable q)) t) q) &&
    forallb id (imap (λ k f, f (Z.of_nat k + 1)%Z t) (map (distinguishable_rte op_sem cat db) (rtable q))) = true) as H by (by destruct q).
  apply andb_true_iff in H as [H1%forallb_Forall H2%forallb_Forall]. split.
  - intros e He. rewrite Forall_forall in H1. by apply forallb_Forall, H1.
  - intros i r Hr. unfold rt_fetch in Hr. case_decide as Hi; [|done]. rewrite Forall_forall in H2.
    apply (H2 (distinguishable_rte op_sem cat db r i t)). apply list_elem_of_lookup. exists (Z.to_nat (i - 1)).
    rewrite list_lookup_imap. change (map ?f ?l) with (f <$> l). rewrite list_lookup_fmap, Hr. cbn. do 2 f_equal. lia.
Qed.

Section spj.
Context (q : Query) (b : bool) (t : TransNode) (a i0 : Z) (rtes' : list RangeTblEntry) (G : Z → option TransNode).
Context (Hrd : ready q (TransProvInfo b t a i0)) (HG : indexed G).
Context (Hent : ∀ i r, rt_fetch i (rtable q) = Some r → ∃ r', rt_fetch i rtes' = Some r' ∧ entry_rw t i r r' (G i)).

Abbreviation info := (TransProvInfo b t a i0).
Abbreviation q1 := (set_rtable rtes' q).
Abbreviation rowsQ db := (rows_at (map (evalTransRTE op_sem cat db) (rtable q)) t).
Abbreviation fits := (λ db : Z → list tuple, ∀ i t, t ∈ db i → length t = length (rd_att cat i)).

Lemma spj_ok : spj_parts cat q.
Proof using Hrd. apply spj_tree_spec; apply Hrd. Qed.

Lemma spj_rooted : rooted (sub_of q) q t.
Proof using Hrd. pose proof (rd_tree _ _ Hrd) as H1. by apply tree_of_unfold in H1. Qed.

(** A rewritten subquery: its columns. *)
Lemma new_query_columns s inf new inf' :
  rewritten s inf new inf' → spj_query cat s → Forall shown_named (targetList new) ∧ length (targetList new) = S (length (targetList s)).
Proof using Type.
  clear. intros Hnew Hs. destruct (rw_targets _ _ _ _ Hnew) as (te & -> & Hte). rewrite length_app. split; [|cbn; lia].
  apply Forall_app. split; [|by constructor]. eapply Forall_impl; [apply (spj_targets _ _ Hs)|].
  intros x. unfold te_ok. intros. checks. by split.
Qed.

Lemma spj_expand i st : i ∈ scope q → ∃ r ns vs, rt_fetch i (rtable q1) = Some r ∧
  expandRTEWithParam cat r i 0 st = Ok ((ns, vs), st) ∧ first_column i vs.
Proof using Hrd Hent.
  intros Hi. pose proof spj_ok as Hq. destruct (scope_entry cat q Hq i Hi) as [r Hr]. destruct (Hent i r Hr) as (r' & Hr' & Hrw).
  cbn [rtable set_rtable]. rewrite Hr'. destruct Hrw as [(Hk & s & inf & new & inf' & Es & _ & _ & Hnew & _ & Hnamed)|(Hk & -> & _)].
  - destruct (subqueries_spj cat q Hq r s (rt_fetch_in _ _ _ Hr) Hk Es) as (_ & _ & Hs).
    destruct (new_query_columns s inf new inf' Hnew Hs) as [Hshown Hlen].
    destruct (expand_ok cat r' new i st Hnamed Hshown) as (ns & vs & E & Hv & Hl & _). exists r', ns, vs. split_and!; try done.
    rewrite Hlen in Hv. rewrite seqZ_cons in Hv by lia. destruct vs as [|v vs]; [done|]. csimpl in Hv. injection Hv as <- Hva _.
    apply Forall_cons in Hl as [Hl _]. by exists v.
  - destruct (entry_expand cat q Hq i r i st Hr) as (ns & vs & E & _ & Hf). by exists r, ns, vs.
Qed.

(** The infos of the rewritten subqueries. *)
Lemma spj_leaf db i u :
  fits db → sub_of q i u ∧ find_info i t = Some u →
  ∃ m, G i = Some m ∧ leaf_ok cat q q1 (rowsQ db) i m ∧ same_info u m.
Proof using Hrd Hent.
  intros Hdb [_ Hf]. pose proof spj_ok as Hq. pose proof (find_root _ _ _ i spj_rooted) as Hfr. rewrite Hf in Hfr.
  destruct Hfr as (_ & _ & Hk). destruct (find_subquery cat q t i Hq spj_rooted Hk) as (u' & r & s & Ef & Er & Hkr & Es & _).
  rewrite Hf in Ef. injection Ef as <-. destruct (Hent i r Er) as (r' & Er' & Hrw).
  destruct Hrw as [(_ & s' & inf & new & inf' & Es' & Ef' & Hready & Hnew & Hg & Hnamed)|(Hk' & _)]; [|done].
  rewrite Es in Es'. injection Es' as <-. rewrite Hf in Ef'. injection Ef' as <-.
  destruct (subqueries_spj cat q Hq r s (rt_fetch_in _ _ _ Er) Hkr Es) as (_ & _ & Hs).
  destruct (rw_info _ _ _ _ Hnew) as (b1 & r1 & a1 & r2 & i1 & -> & -> & Hb). exists (TransProvInfo b1 r2 (Z.of_nat (length (targetList s)) + 1) i1).
  assert (i1 = i) as ->. { pose proof (find_root _ _ _ i spj_rooted) as H1. rewrite Hf in H1. by destruct H1 as (_ & (? & ? & ? & [= _ _ _ ->]) & _). }
  split; [done|]. split; [|by eexists _, _, _, _, _, _]. destruct (rw_targets _ _ _ _ Hnew) as (te & Etl & _).
  exists b1, r2, (Z.of_nat (length (targetList s)) + 1)%Z, r', new, te. pose proof Hnamed as [[[_ _] Esub] _]. split_and!; try done.
  - rewrite Etl. unfold rt_fetch. rewrite decide_True by lia. rewrite lookup_app_r by lia.
    by replace (Z.to_nat _ - _)%nat with 0%nat by lia.
  - unfold width. rewrite Er. unfold rte_width. rewrite Hkr, Es. f_equal. f_equal. symmetry. apply out_width_all.
    eapply Forall_impl; [apply (te_ok_shown cat), Hs|]. by intros x [].
  - intros -> x Hx. rewrite (Hb eq_refl).
    replace (static_set (TransProvInfo true r1 (Z.of_nat (length (targetList s)) + 1) i)) with (static_set (TransProvInfo true r1 a1 i)) by done.
    destruct Hready as [Hok Hspj Htree Hst Hset _].
    apply (evalTrans_static op_sem cat db Hdb N s _ x Hok Hspj Htree Hst Hset eq_refl). revert Hx. unfold rows_at. rewrite rt_fetch_map, Er.
    cbn. destruct r. cbn in *. subst. cbn. by rewrite Hf.
Qed.

(** The further columns of the rewritten entries. *)
Definition bit_column (i : Z) (c : tuple) (o : option (gset Z)) : Prop :=
  if decide (kind_at q i = Some RTE_SUBQUERY) then ∃ v, c = [v] ∧ value_rep N v o else c = [].

Lemma bit_sub i v o : kind_at q i = Some RTE_SUBQUERY → value_rep N v o → bit_column i [v] o.
Proof using Type. clear. intros Hk Hv. unfold bit_column. rewrite decide_True by done. by exists v. Qed.

Lemma bit_other i o : kind_at q i ≠ Some RTE_SUBQUERY → bit_column i [] o.
Proof using Type. clear. intros Hk. unfold bit_column. by rewrite decide_False. Qed.

Lemma nulls_snoc n : nulls (S n) = nulls n ++ [None].
Proof using Type. clear. unfold nulls. by rewrite replicate_S_end. Qed.

Lemma spj_entries db i :
  fits db → distinguishable op_sem cat db q info = true →
  kind_at q i = Some RTE_RELATION ∨ kind_at q i = Some RTE_SUBQUERY →
  Forall2 (row_sim cat q bit_column i) (default [] (rt_fetch i (map (evalRTE op_sem cat db) rtes'))) (rowsQ db i) ∧
  row_sim cat q bit_column i (null_tuple cat q1 i) (null_trow cat q i).
Proof using Hrd Hent.
  intros Hdb Hd Hk. pose proof spj_ok as Hq. destruct (rt_fetch i (rtable q)) as [r|] eqn:Er; [|unfold kind_at in Hk; rewrite Er in Hk; by destruct Hk].
  destruct (Hent i r Er) as (r' & Er' & Hrw). rewrite rt_fetch_map, Er'. cbn [fmap option_fmap option_map default].
  assert (Forall (λ x, length x.1 = width cat q i) (rowsQ db i)) as Hlen.
  { apply Forall_forall. intros x Hx. by apply (rowsT_present op_sem cat db Hdb q t i x Hq). }
  assert (rowsQ db i = evalTransRTE op_sem cat db r i t) as Erows by (unfold rows_at; by rewrite rt_fetch_map, Er). rewrite Erows in *.
  assert (∀ w, null_tuple cat q1 i = nulls w ↔ nulls (rte_width cat r') = nulls w) as Hnull.
  { intros w. unfold null_tuple. cbn [rtable set_rtable]. by rewrite Er'. }
  unfold row_sim. assert (length (null_trow cat q i).1 = width cat q i) as Hnl.
  { cbn. unfold null_tuple, width, nulls. rewrite Er. by rewrite length_replicate. }
  assert ((null_trow cat q i).1 = nulls (width cat q i)) as Hn by (cbn; unfold null_tuple, width; by rewrite Er).
  assert (kind_at q i = Some (rtekind r)) as Hki by (unfold kind_at; by rewrite Er).
  destruct Hrw as [(Hkr & s & inf & new & inf' & Es & Ef & Hready & Hnew & _ & Hnamed)|(Hkr & -> & _)].
  - rewrite Hkr in Hki. destruct (subqueries_spj cat q Hq r s (rt_fetch_in _ _ _ Er) Hkr Es) as (_ & _ & Hs).
    assert (distinguishable op_sem cat db s inf = true) as Hds.
    { destruct (distinguishable_spec db q info Hd) as [_ H2]. specialize (H2 i r Er). destruct r. cbn in *. subst. cbn in H2. by rewrite Ef in H2. }
    destruct (new_query_columns s inf new inf' Hnew Hs) as [Hshown Hl]. pose proof Hnamed as [Hsubr _]. split.
    + rewrite (sub_rte_eval op_sem cat db r' new Hsubr).
      assert (evalTransRTE op_sem cat db r i t = evalTrans op_sem cat db s inf) as E2 by (destruct r; cbn in *; subst; cbn; by rewrite Ef).
      rewrite E2 in Hlen |- *. pose proof (rw_eval _ _ _ _ Hnew db Hdb Hds) as HF.
      eapply Forall2_impl; [exact (Forall2_with_r _ _ _ _ HF Hlen)|]. intros u x [(c & -> & Hc) Hx]. split; [done|]. exists [c].
      split; [done|]. by apply bit_sub.
    + split; [done|]. exists [None]. rewrite Hn. split; [|by apply bit_sub]. rewrite <- nulls_snoc. apply Hnull.
      rewrite (sub_rte_width cat r' new Hsubr Hshown), Hl. unfold width. rewrite Er. unfold rte_width. rewrite Hkr, Es. do 2 f_equal.
      symmetry. apply out_width_all. eapply Forall_impl; [apply (te_ok_shown cat), Hs|]. by intros x [].
  - assert (rtekind r = RTE_RELATION) as Hrel by (rewrite Hki in Hk; destruct Hk as [[= ->]|[= ?]]; done).
    assert (kind_at q i ≠ Some RTE_SUBQUERY) as Hns by congruence. split.
    + assert (evalRTE op_sem cat db r = fst <$> evalTransRTE op_sem cat db r i t) as ->.
      { destruct r. cbn in *. subst. cbn. by rewrite <- list_fmap_compose, list_fmap_id. }
      clear -Hlen Hns. induction Hlen as [|x l Hx _ IH]; csimpl; constructor; [|done]. split; [done|]. exists [].
      rewrite app_nil_r. split; [done|]. by apply bit_other.
    + split; [done|]. exists []. rewrite app_nil_r, Hn. split; [|by apply bit_other]. apply Hnull. unfold width. by rewrite Er.
Qed.

Lemma spj_joins J : kind_at q J = Some RTE_JOIN → aliases q1 J = aliases q J ∧ ∀ o, bit_column J [] o.
Proof using Hent.
  intros Hk. split; [|intros o; apply bit_other; congruence].
  unfold aliases, kind_at in *. cbn [rtable set_rtable]. destruct (rt_fetch J (rtable q)) as [r|] eqn:Er; [|done].
  destruct (Hent J r Er) as (r' & -> & [(Hkr & _)|(_ & -> & _)]); [|done]. cbn in Hk. congruence.
Qed.

(** A row of the rewritten FROM clause shows the annotated row. *)
Lemma spj_shows db e1 e2 :
  fits db → env_rel (row_sim cat q bit_column) (scope q) e1 e2 → shows cat N q q1 (rowsQ db) (vals_of id e1) e2.
Proof using Hrd.
  intros Hdb He. pose proof spj_ok as Hq. split.
  - intros i Hi. destruct (He i Hi) as [Hl (c & E & _)]. unfold vals_of. cbn. rewrite E. apply attr_app. rewrite Hl.
    destruct (scope_entry cat q Hq i Hi) as [r Hr]. pose proof (rt_fetch_Forall _ _ _ _ (sp_named _ _ Hq) Hr) as Hc. cbn in Hc.
    unfold columns_named in Hc. checks. unfold width. rewrite Hr. lia.
  - intros i b' rt a' Hi (? & ? & ? & ? & ? & ? & [= <- <- <-] & Hk & _ & _ & _ & -> & _) Hp. destruct (He i Hi) as [Hl (c & E & Hc)].
    unfold bit_column in Hc. rewrite decide_True in Hc by done. destruct Hc as (v & -> & Hv). unfold vals_of. cbn. rewrite E, <- Hl.
    by rewrite attr_snoc.
Qed.

(** The expression of the new column. *)
Lemma spj_build_db db st :
  fits db → ∃ x, buildBitsetComputationForQueryNode cat q1 (subst G t) st = Ok (x, st) ∧
    computes_parts op_sem cat N q q1 (rowsQ db) (fromlist q) (subst G t) x.
Proof using Hor Hrd Hent.
  intros Hdb. pose proof spj_ok as Hq.
  assert (∀ i r, r ∈ rowsQ db i → present r = true) as Hpres.
  { intros i r Hr. by apply (rowsT_present op_sem cat db Hdb q t i r Hq). }
  destruct (subst_rooted N q (λ i u, sub_of q i u ∧ find_info i t = Some u) (leaf_ok cat q q1 (rowsQ db)) G
    (λ i u Hu, spj_leaf db i u Hdb Hu) t) as [Hr [Hl _]].
  { apply root_unique; [apply (fo_scope _ _ Hq)|apply spj_rooted]. }
  { apply local_ok_intro; [apply (rd_static _ _ Hrd)|apply (rd_sets _ _ Hrd)]. }
  exact (build_root op_sem Hor cat N q q1 (rowsQ db) Hq Hpres spj_expand (subst G t) st Hr Hl).
Qed.

Lemma spj_build st :
  ∃ x, buildBitsetComputationForQueryNode cat q1 (subst G t) st = Ok (x, st) ∧
    ∀ db e1 e2, fits db → distinguishable op_sem cat db q info = true → e2 ∈ solve_trans op_sem cat (rowsQ db) q →
      env_rel (row_sim cat q bit_column) (scope q) e1 e2 → value_rep N (eval_expr op_sem (vals_of id e1) x) (Some (parts e2 t)).
Proof using Hor Hrd Hent HG.
  destruct (spj_build_db (λ _, []) st) as (x & E & _); [by intros ? ? ?%elem_of_nil|]. exists x. split; [done|].
  intros db e1 e2 Hdb Hd Hin He. destruct (spj_build_db db st Hdb) as (x' & E' & Hx). rewrite E in E'. injection E' as <-.
  rewrite <- (parts_subst G e2 t HG). pose proof spj_ok as Hq. apply Hx; [by apply spj_shows| |].
  - apply solve_fine; [|apply Hq|done]. intros i r Hr. by apply (rowsT_present op_sem cat db Hdb q t i r Hq).
  - by apply (distinguishable_spec db q info Hd).
Qed.

(** The query with the new column. *)
Lemma spj_eval te x :
  (∀ db e1 e2, fits db → distinguishable op_sem cat db q info = true → e2 ∈ solve_trans op_sem cat (rowsQ db) q →
     env_rel (row_sim cat q bit_column) (scope q) e1 e2 → value_rep N (eval_expr op_sem (vals_of id e1) x) (Some (parts e2 t))) →
  shown_named te → ressortgroupref te = 0%Z → expr te = x →
  ∀ db, fits db → distinguishable op_sem cat db q info = true →
    Forall2 row_rep (evalQuery op_sem cat db (set_targetList (targetList q ++ [te]) q1)) (evalTrans op_sem cat db q info).
Proof using Hrd Hent.
  intros Hx [Hj Hnm] Href He db Hdb Hd. pose proof spj_ok as Hq. set (new := set_targetList _ _).
  assert (Forall2 (λ u r, length r.1 = length (targetList q) ∧ row_rep u r) (evalQuery op_sem cat db new) (evalTrans op_sem cat db q info)) as H2.
  2:{ eapply Forall2_impl; [exact H2|]. by intros u r []. }
  rewrite evalQuery_unfold, evalTrans_unfold. cbn [info_root]. apply body_sim; try done; [apply Hq|apply (spj_grouped _ _ Hq)| |].
  - intros u r [Hl (c & -> & Hc)]. split; [eapply distinct_key_snoc; try done; by apply new_ref|]. cbn [fst snd].
    rewrite (visible_snoc q new te), (visible_all q r.1); try done; [|by eapply te_ok_shown, Hq]. split; [done|]. by exists c.
  - eapply Forall2_impl; [apply (solve_sim op_sem cat q new Hq eq_refl eq_refl (rowsQ db) _ bit_column)|].
    + intros i Hk. exact (spj_entries db i Hdb Hd Hk).
    + intros J HJ. exact (spj_joins J HJ).
    + intros e1 e2 [Hee Hin]. split; [apply targets_length|]. unfold targets. subst new. cbn [targetList set_targetList fst snd].
      rewrite fmap_app. exists (eval_expr op_sem (vals_of id e1) x). rewrite <- He. split; [|rewrite He; by apply (Hx db)].
      f_equal. eapply targets_ext; [exact Hee|]. eapply Forall_impl; [apply (spj_targets _ _ Hq)|]. intros y. unfold te_ok. intros. by checks.
Qed.

End spj.

(** The rewriter on a query of the fragment. *)
Lemma rewriteQueryNodeTrans_ok fuel entry link lost q info st :
  ready q info → (nesting q ≤ fuel)%nat →
  ∃ new info' st', rewriteQueryNodeTrans cat opt wl fuel entry link lost q info st = Ok ((new, new, info'), st') ∧ rewritten q info new info'.
Proof using Hor.
  revert entry link lost q info st. induction fuel as [|fuel IH]; intros entry link lost q info st Hrd Hf.
  { assert (0 < nesting q)%nat by (destruct q; cbn; lia). lia. }
  destruct (TRANS_GET_STATIC info) eqn:Hs; [by apply rewrite_static|].
  destruct (rd_info _ _ Hrd) as (b & t & a & i0 & ->). cbn in Hs. subst b. pose proof (spj_tree_spec cat q (rd_ok _ _ Hrd) (rd_spj _ _ Hrd)) as Hq.
  cbn [rewriteQueryNodeTrans TRANS_GET_STATIC]. pose proof (spj_grouped _ _ Hq) as Hg. unfold grouped in Hg.
  apply orb_false_iff in Hg as [[Hagg _]%orb_false_iff _]. rewrite Hagg, (spj_setops _ _ Hq). unfold rewriteTransSPJ.
  pose proof (spj_rooted q false t a i0 Hrd) as Hroot.
  assert (rooted (λ i u, sub_of q i u ∧ (static_ok u ∧ sets_ok N u)) q t) as Hinh.
  { destruct Hrd as [_ _ _ Hst Hset _]. apply rooted_inherit; [|by split; [apply Hst|]|done].
    intros id b op cs s i [[_ Ha] [_ Hb]]. rewrite all_of_Forall in Ha, Hb. rewrite Forall_forall in *. auto. }
  destruct (rewrite_subs_ok (λ link, rewriteQueryNodeTrans cat opt wl fuel true link []) lost (rtable q) 1 t (λ _, None) st) as (rtes' & G & st1 & E & HG & _ & Hlen & Hall); [done|done| |].
  { intros j r Hr Hk. assert (rt_fetch (1 + Z.of_nat j) (rtable q) = Some r) as Er.
    { unfold rt_fetch. rewrite decide_True by lia. by replace (Z.to_nat (1 + Z.of_nat j - 1)) with j by lia. }
    destruct (find_subquery cat q t (1 + Z.of_nat j) Hq Hroot) as (u & r' & s & Ef & Er' & _ & Es & Htree & Hok & Hu).
    { unfold kind_at. rewrite Er. cbn. by rewrite Hk. }
    rewrite Er in Er'. injection Er' as <-. pose proof (rt_fetch_in _ _ _ Er) as Hin.
    destruct (subqueries_spj cat q Hq r s Hin Hk Es) as (_ & Hspj & _).
    pose proof (find_root _ _ _ (1 + Z.of_nat j) Hinh) as Hfr. rewrite Ef in Hfr. destruct Hfr as ((_ & Hst & Hset) & _ & _).
    assert (ready s u) as Hready by (destruct Hu as (? & ? & ? & ->); split; try done; by eexists _, _, _, _).
    split. { pose proof (proj1 (Forall_forall _ _) (fo_rtes _ _ Hq) r Hin) as Hro. cbn in Hro. by apply rte_ok_spec in Hro as (? & _). }
    exists s, u. split_and!; try done. intros st'. apply IH; [done|]. pose proof (nesting_sub q r s Hin Es). lia. }
  rewrite subst_none in E. hrun E.
  assert (∀ i r, rt_fetch i (rtable q) = Some r → ∃ r', rt_fetch i rtes' = Some r' ∧ entry_rw t i r r' (G i)) as Hent.
  { intros i r Hr. unfold rt_fetch in Hr |- *. case_decide as Hi; [|done]. destruct (lookup_lt_is_Some_2 rtes' (Z.to_nat (i - 1))) as [r' Hr'].
    { rewrite Hlen. by eapply lookup_lt_Some. }
    exists r'. split; [done|]. pose proof (Hall _ _ _ Hr Hr') as He. by replace (1 + Z.of_nat (Z.to_nat (i - 1)))%Z with i in He by lia. }
  destruct (spj_build q false t a i0 rtes' G Hrd HG Hent st1) as (x & Ex & Hx). hrun Ex.
  destruct (trans_attr_ok (set_rtable rtes' q) x (TransProvInfo false (subst G t) a i0) st1) as (te & st' & Ea & Hte & Href & He). hrun Ea.
  eexists _, _, st'. split; [reflexivity|]. split.
  - cbn. by eexists _, _, _, _, _.
  - by exists te.
  - split; [apply Hq|apply (spj_grouped _ _ Hq)].
  - intros db Hdb Hd. by apply (spj_eval q false t a i0 rtes' G Hrd Hent te x).
Qed.

End rewriting.

(** ** The name of the result column *)

(** The same entry with another name. *)
Definition renamed (te te' : TargetEntry) : Prop :=
  expr te' = expr te ∧ resjunk te' = resjunk te ∧ ressortgroupref te' = ressortgroupref te.

Lemma renamed_filter (p : TargetEntry → Prop) `{∀ x : TargetEntry * value, Decision (p x.1)} tl tl' (u : tuple) :
  (∀ te te', renamed te te' → p te' ↔ p te) → Forall2 renamed tl tl' →
  snd <$> filter (λ x, p x.1) (zip tl' u) = snd <$> filter (λ x, p x.1) (zip tl u).
Proof.
  intros Hp H1. revert u. induction H1 as [|te te' tl tl' Hte _ IH]; intros [|c u]; try done. cbn [zip_with].
  pose proof (Hp te te' Hte) as Hiff. destruct (decide (p (te, c).1)) as [Ht|Ht]; cbn in Ht.
  - rewrite !filter_cons_True by (cbn; tauto). csimpl. by rewrite IH.
  - rewrite !filter_cons_False by (cbn; tauto). apply IH.
Qed.

Lemma eval_renamed op_sem cat db q tl :
  setOperations q = None → grouped q = false → Forall2 renamed (targetList q) tl →
  evalQuery op_sem cat db (set_targetList tl q) = evalQuery op_sem cat db q.
Proof.
  intros Hs Hg H1. rewrite !evalQuery_unfold. set (q' := set_targetList tl q). unfold body.
  rewrite Hs, Hg, (Hs : setOperations q' = None), (Hg : grouped q' = false).
  assert (∀ u, visible q' u = visible q u) as Hv.
  { intros u. apply (renamed_filter (λ te, resjunk te = false)); [|done]. by intros te te' (_ & -> & _). }
  assert (∀ u, distinct_key q' u = distinct_key q u) as Hd.
  { intros u. apply (renamed_filter (λ te, ressortgroupref te ∈ (tleSortGroupRef <$> distinctClause q))); [|done]. by intros te te' (_ & _ & ->). }
  assert (∀ e, targets op_sem id q' e = targets op_sem id q e) as Ht.
  { intros e. unfold targets. cbn [targetList q' set_targetList]. clear -H1. induction H1 as [|te te' l k (E & _) _ IH]; [done|]. csimpl. by rewrite E, IH. }
  change (@limited op_sem tuple q') with (@limited op_sem tuple q). f_equal.
  assert (∀ l : list tuple, distinct q' (distinct_key q') l = distinct q (distinct_key q) l) as ->.
  { intros l. unfold distinct. cbn [distinctClause q' set_targetList]. destruct (distinctClause q); [done|]. generalize (@nil tuple).
    induction l as [|u l IH]; intros seen; [done|]. cbn [dedup_on]. rewrite Hd. case_decide; [apply IH|]. by rewrite IH. }
  change (solve_plain op_sem cat (map (evalRTE op_sem cat db) (rtable q')) q')
    with (solve_plain op_sem cat (map (evalRTE op_sem cat db) (rtable q)) q).
  rewrite (list_fmap_ext (targets op_sem id q') (targets op_sem id q)) by (intros; apply Ht). apply list_fmap_ext. intros k u _. apply Hv.
Qed.

Lemma result_renamed op_sem cat N q info new info' id st :
  rewritten op_sem cat N q info new info' →
  ∃ q', addResultConstruction new info' id CONTR_TRANS_SET st = Ok (q', st) ∧
    ∀ db, evalQuery op_sem cat db q' = evalQuery op_sem cat db new.
Proof.
  intros [(b & r & a & r' & i & -> & -> & _) (te & Etl & _) [Hs Hg] _]. cbn [addResultConstruction].
  assert (rt_fetch (Z.of_nat (length (targetList q)) + 1) (targetList new) = Some te) as Ete.
  { rewrite Etl. unfold rt_fetch. rewrite decide_True by lia. rewrite lookup_app_r by lia. by replace (Z.to_nat _ - _)%nat with 0%nat by lia. }
  rewrite Ete, bind_deref. eexists. split; [done|]. intros db. apply eval_renamed; [done..|]. unfold rt_update. rewrite Etl.
  replace (Z.to_nat _) with (length (targetList q) + 0)%nat by lia. rewrite insert_app_r. cbn. apply Forall2_app; [|by repeat constructor].
  clear. induction (targetList q); constructor; [by split_and!|done].
Qed.

End TransMain.
