(* ===== verification/TransProps.v ===== *)
(** * What the transformation provenance rewriter guarantees

    The analysis numbers the parts of a query and computes their bit sets; the rewritten query returns the rows of the original one, each with
    the set of the parts that took part in it.  Mixed set operations that are not static are not rewritten, and examples show where
    information is lost. *)

From Stdlib Require Import ZArith Lia.
From stdpp Require Import base strings numbers list sets gmap.
From S2P Require Import Prelude VarBit AttrName QueryTree SqlSemantics Queries RewriteSPJ RewriteSet RewriteProps TransInfo TransRewrite.
From S2P Require Import TransTree TransSemantics TransShape TransBuild ExtendSim TransFacts TransMain.
Import QueryTree SqlSemantics Queries RewriteSPJ RewriteSet RewriteProps TransInfo TransRewrite.
Import TransTree TransSemantics TransShape TransBuild ExtendSim TransFacts TransMain.

Module TransProps.

(** [analyseStaticTransProv] after the tree has been built. *)
Lemma analyse_sets cat q st info0 n st' :
  analyseOneQueryNode cat q TRANS_NO_RTINDEX 1%Z st = Ok ((info0, n), st') →
  numbers info0 = seqZ 1 (n - 1) ∧
  ∃ info, analyseStaticTransProv cat q st = Ok (info, st') ∧ skeleton info = skeleton info0 ∧
    numbers info = seqZ 1 (n - 1) ∧ static_ok info ∧ sets_ok (n - 1) info.
Proof.
  intros E. destruct (analysis_numbering cat q TRANS_NO_RTINDEX 1%Z st info0 n st' E) as [Hn Hnum]. split; [done|].
  unfold analyseStaticTransProv. hrun E. destruct (checkStatic_ok info0) as [Hst Hsk].
  assert (numbers (checkStatic info0) = seqZ 1 (n - 1)) as Hnc by (by rewrite <- numbers_skeleton, Hsk, numbers_skeleton).
  destruct (computeSets_ok (n - 1) (checkStatic info0)) as (info & v & Ec & _ & _ & Hs & Hu).
  { rewrite Hnc. apply Forall_forall. intros i ?%elem_of_seqZ. lia. }
  hrun (Ec st'). exists info. split; [done|].
  assert (skeleton info = skeleton (checkStatic info0)) as Hsk' by (by rewrite <- (skeleton_unset info), Hu, skeleton_unset).
  split_and!; [congruence| |by apply static_ok_unset; rewrite Hu; apply static_ok_unset|done].
  by rewrite <- numbers_skeleton, Hsk', numbers_skeleton.
Qed.

Lemma analyse_ready cat q st :
  query_ok cat q = true → spj_tree cat q = true →
  ∃ info n, analyseStaticTransProv cat q st = Ok (info, st) ∧ numbers info = seqZ 1 n ∧ ready cat n q info.
Proof.
  intros Hq Ht. destruct (analysis_succeeds cat q Hq Ht TRANS_NO_RTINDEX 1%Z st) as (info0 & n & E & Htree & root & ->).
  destruct (analyse_sets cat q st _ n st E) as (_ & info & Ea & Hsk & Hnum & Hst & Hset).
  exists info, (n - 1)%Z. split; [done|]. split; [done|]. split; try done.
  - by eapply tree_of_skeleton.
  - destruct info; [done|]. by eexists _, _, _, _.
Qed.

(** C20: The static analysis of transformation provenance.  For every well-formed query of base relations, nested subqueries and inner and outer
    joins, the analysis succeeds and numbers the parts of the query 1, 2, ... from the root down, each part once, the parts of subqueries
    included.  It marks exactly those parts static that have no outer join at or below them; over every database, a static part takes part in a row of the result together
    with all the parts below it, or none of them does, and every row of a static query has all its parts.  The bit set of a static part stands
    for the part and all the parts below it, the bit set of any other part for the part alone. *)
Theorem analysis_numbers_and_sets cat q st :
  query_ok cat q = true → spj_tree cat q = true →
  ∃ info n, analyseStaticTransProv cat q st = Ok (info, st) ∧ numbers info = seqZ 1 n ∧
    (∀ u, u ∈ nodes info →
       TRANS_GET_STATIC u = negb (existsb outer_join (nodes u)) ∧
       (TRANS_GET_STATIC u = true → ∀ op_sem db t S, fits cat db → (t, Some S) ∈ evalTrans op_sem cat db q info →
          all_parts u ⊆ S ∨ all_parts u ## S) ∧
       match u with
       | TransSubInfo id b _ _ s _ => ∃ v, s = Some v ∧ represents n v (if b then all_parts u else {[id]})
       | TransProvInfo _ _ _ _ => True
       end) ∧
    (TRANS_GET_STATIC info = true → ∀ op_sem db r, fits cat db → r ∈ evalTrans op_sem cat db q info → r.2 = Some (all_parts info)).
Proof.
  intros Hq Ht. destruct (analyse_ready cat q st Hq Ht) as (info & n & Ea & Hnum & [Hok Hspj Htree Hst Hset _]).
  exists info, n. split; [done|]. split; [done|]. pose proof (tree_plain q info Htree) as Hp. split.
  - intros u Hu. destruct (static_exact n info u Hp Hst Hset Hu) as [Hf Hs]. split; [done|]. split; [|done].
    intros Hus op_sem db t S Hdb Hin. destruct (evalTrans_settles op_sem cat db q info _ Hdb Hq Ht Htree Hin) as (S' & [= <-] & H).
    apply (se_nodes _ _ _ H); [rewrite Hnum; apply NoDup_seqZ|done|congruence].
  - intros Hs op_sem db r Hdb Hin. destruct (evalTrans_settles op_sem cat db q info _ Hdb Hq Ht Htree Hin) as (S & -> & H). f_equal.
    apply (anti_symm (⊆)); [apply H|]. apply (se_free _ _ _ H); [|done].
    destruct (static_exact n info info Hp Hst Hset) as [Hf _]; [by destruct info; left|congruence].
Qed.

(** C6: The rewriter for transformation provenance is correct on select-project-join queries.  For every well-formed query of base relations,
    nested subqueries and inner and outer joins of any shape, with or without DISTINCT, LIMIT and OFFSET, the analysis and the rewriting
    succeed.  Over every database, the evaluation with annotated rows returns the rows of the original query; and if the optional sides of the
    outer joins show their presence in their first column, the rewritten query returns the same rows in the same order, each with one more
    column: the bit string of exactly the parts of the query that took part in the row. *)
Theorem transformation_provenance op_sem cat opt wl `{TransDisplay} q fuel st :
  bitor_ops op_sem → query_ok cat q = true → spj_tree cat q = true → (nesting q ≤ fuel)%nat →
  ∃ info n q' st', analyseStaticTransProv cat q st = Ok (info, st) ∧ numbers info = seqZ 1 n ∧
    rewriteQueryTransProv cat opt wl fuel CONTR_TRANS_SET q st = Ok (q', st') ∧
    ∀ db, fits cat db →
      fst <$> evalTrans op_sem cat db q info = evalQuery op_sem cat db q ∧
      (distinguishable op_sem cat db q info = true →
       Forall2 (λ t r, ∃ parts v, r.2 = Some parts ∧ represents n v parts ∧ t = r.1 ++ [Some (varbit_datum v)])
         (evalQuery op_sem cat db q') (evalTrans op_sem cat db q info)).
Proof.
  intros Hor Hq Ht Hf. destruct (analyse_ready cat q st Hq Ht) as (info & n & Ea & Hnum & Hrd).
  destruct (rewriteQueryNodeTrans_ok op_sem Hor cat opt wl n fuel false false [] q info st Hrd Hf) as (new & info' & st' & E & Hnew).
  destruct (result_renamed op_sem cat n q info new info' 0 st' Hnew) as (q' & E' & Hev).
  exists info, n, q', st'. split; [done|]. split; [done|]. split.
  { unfold rewriteQueryTransProv. hrun Ea. rewrite bind_ret. by hrun E. }
  intros db Hdb. split; [by apply evalTrans_plain; try apply Hrd|]. intros Hd. rewrite Hev.
  pose proof (rw_eval _ _ _ _ _ _ _ Hnew db Hdb Hd) as HF.
  eapply Forall2_impl; [apply (Forall2_with_r _ (λ r, r ∈ evalTrans op_sem cat db q info) _ _ HF); by apply Forall_forall|].
  intros u r [(c & -> & Hc) Hin]. apply evalTrans_in in Hin as (e & _ & ->); [|by apply spj_tree_spec; apply Hrd].
  cbn in Hc. destruct Hc as (v & -> & Hv). by eexists _, v.
Qed.

(** ** Set operations *)









Section restructuring.
Context (opt : bool) (op : SetOperation) (q : Query) (tree : SetOpNode) (b : bool) (root : TransNode) (a i : Z).
Context (Hs : setOperations q = Some tree) (Hk : ∀ i, i ∈ getSetOpRTRefs tree → is_Some (rt_fetch i (rtable q))).

Abbreviation state := (q, TransProvInfo b root a i).










End restructuring.



(** ** Examples *)

#[export] Instance VarBit_eq_dec : EqDecision VarBit.VarBit.
Proof. solve_decision. Defined.

Definition value_bits (v : value) : option VarBit.VarBit := match v with Some d => datum_varbit d | None => None end.

(** The operators of the other examples, with the two functions on bit strings; [bitor] is strict. *)
Definition bits_ops : operators := mkOps (op_fun ops0) (agg_fun ops0)
  (λ f args, match args with
             | [a; b] =>
                 if decide (f = F_BITOR ∧ (value_bits a = None ∨ value_bits b = None)) then None
                 else match VarBit.bitor_with_null (value_bits a) (value_bits b) with Ok r => enc r | Err _ => None end
             | _ => None
             end).

Lemma datum_roundtrip v : datum_varbit (varbit_datum v) = Some v.
Proof. destruct v as [l b]. unfold datum_varbit, varbit_datum. cbn [VarBit.bit_len VarBit.bit_dat]. by rewrite decode_encode. Qed.

Lemma bits_ops_or : bitor_ops bits_ops.
Proof.
  intros a b. cbn [func_sem bits_ops]. rewrite decide_False by (by intros [? _]).
  assert (∀ v, value_bits (enc v) = v) as H by (intros [v|]; [apply datum_roundtrip|done]). by rewrite !H.
Qed.

#[export] Instance no_display : TransDisplay :=
  {| generateTransProvQueryIndex := λ _ _, ret 0%Z; generateTransXmlQueryIndex := λ _ _, ret 0%Z; generateMapQueryIndex := λ _ _, ret 0%Z |}.

Definition rewriteT (wl : bool) (q : Query) : outcome (Query * rewriter) :=
  rewriteQueryTransProv cat0 true wl 5 CONTR_TRANS_SET q start0.

(** A query with an outer join in a subquery. *)
Lemma analysis_numbers_and_sets_witness :
  let q := query0 JOIN_LEFT true in
  ∃ info n, analyseStaticTransProv cat0 q start0 = Ok (info, start0) ∧ numbers info = seqZ 1 n ∧
    (∀ u, u ∈ nodes info →
       TRANS_GET_STATIC u = negb (existsb outer_join (nodes u)) ∧
       (TRANS_GET_STATIC u = true → ∀ op_sem db t S, fits cat0 db → (t, Some S) ∈ evalTrans op_sem cat0 db q info →
          all_parts u ⊆ S ∨ all_parts u ## S) ∧
       match u with
       | TransSubInfo id b _ _ s _ => ∃ v, s = Some v ∧ represents n v (if b then all_parts u else {[id]})
       | TransProvInfo _ _ _ _ => True
       end) ∧
    (TRANS_GET_STATIC info = true → ∀ op_sem db r, fits cat0 db → r ∈ evalTrans op_sem cat0 db q info → r.2 = Some (all_parts info)).
Proof.
  intros q. apply (analysis_numbers_and_sets cat0 q start0); vm_compute; reflexivity.
Defined.

(** [SELECT x.a FROM r AS x, (SELECT DISTINCT a FROM r LEFT JOIN s ON r.b = s.a) AS sub WHERE x.a = sub.a] *)
Lemma transformation_provenance_witness :
  ∃ info n q' st', analyseStaticTransProv cat0 (query0 JOIN_LEFT true) start0 = Ok (info, start0) ∧ numbers info = seqZ 1 n ∧
    rewriteT false (query0 JOIN_LEFT true) = Ok (q', st') ∧
    ∀ db, fits cat0 db →
      fst <$> evalTrans bits_ops cat0 db (query0 JOIN_LEFT true) info = evalQuery bits_ops cat0 db (query0 JOIN_LEFT true) ∧
      (distinguishable bits_ops cat0 db (query0 JOIN_LEFT true) info = true →
       Forall2 (λ t r, ∃ parts v, r.2 = Some parts ∧ represents n v parts ∧ t = r.1 ++ [Some (varbit_datum v)])
         (evalQuery bits_ops cat0 db q') (evalTrans bits_ops cat0 db (query0 JOIN_LEFT true) info)).
Proof.
  unfold rewriteT. apply (transformation_provenance bits_ops cat0 true false (query0 JOIN_LEFT true) 5 start0);
    [exact bits_ops_or|vm_compute; reflexivity|vm_compute; reflexivity|vm_compute; lia].
Defined.

(** [SELECT r.a, r.b FROM r LEFT JOIN s ON r.b = s.c] *)
Definition left0 (c : Z) : Query :=
  mkQuery CMD_SELECT false false [rel0 1 "r"; rel0 2 "s"; join0 JOIN_LEFT]
    [JoinExpr JOIN_LEFT (RangeTblRef 1) (RangeTblRef 2) (Some (eq0 (col 1 2) (col 2 c))) 3] None
    [mkTE (EVar (col 3 1)) 1 (Some "a") 0 0 0 false; mkTE (EVar (col 3 2)) 2 (Some "b") 0 0 0 false]
    [] None [] [] None None None false true.

(** Two rows of [s] match; the first column of one of them is NULL. *)
Definition null_db (i : Z) : list tuple :=
  if decide (i = 1)%Z then [[Some 1; Some 5]]%Z else if decide (i = 2)%Z then [[Some 9; Some 5]; [None; Some 5]]%Z else [].

(** The rewriter takes a match whose first column is NULL for a missing match.  In a left join with two matching rows that differ only in their
    first column, both result rows are computed from all four parts of the query; the bit set of the row whose match
    starts with NULL lacks the access to the right relation. *)
Example null_column_loses_part :
  ∃ info q' st', analyseStaticTransProv cat0 (left0 2) start0 = Ok (info, start0) ∧ rewriteT false (left0 2) = Ok (q', st') ∧
    evalTrans bits_ops cat0 null_db (left0 2) info =
      [([Some 1; Some 5], Some {[1; 2; 3; 4]}); ([Some 1; Some 5], Some {[1; 2; 3; 4]})]%Z ∧
    (λ t, (take 2 t, value_bits (attr 3 t))) <$> evalQuery bits_ops cat0 null_db q' =
      [([Some 1; Some 5], Some (VarBit.mkVarBit 4 [240])); ([Some 1; Some 5], Some (VarBit.mkVarBit 4 [224]))]%Z ∧
    distinguishable bits_ops cat0 null_db (left0 2) info = false.
Proof. do 3 eexists. do 4 (split; [vm_compute; reflexivity|]). vm_compute. reflexivity. Qed.

(** [SELECT x.a, count(x.b) FROM (...) AS x, s GROUP BY x.a], with the left join above as [x]. *)
Definition count_left0 : Query :=
  mkQuery CMD_SELECT true false [subquery0 (left0 1) "x" ["a"; "b"]; rel0 2 "s"] [RangeTblRef 1; RangeTblRef 2] None
    [mkTE (EVar (col 1 1)) 1 (Some "a") 1 0 0 false; mkTE count0 2 (Some "count") 0 0 0 false]
    [mkSort 1 97 false] None [] [] None None None false true.

(** [SELECT a, b FROM r INTERSECT SELECT a, b FROM s] *)
Definition intersect0 : Query := set0 [scan0 1; scan0 2] (SetOperationStmt SETOP_INTERSECT false (SetOpRef 1) (SetOpRef 2)).

(** Set operations with the left join above as the first input: [EXCEPT], and [UNION] of an [INTERSECT]. *)
Definition left_except0 : Query :=
  set0 [subquery0 (left0 1) "l" ["a"; "b"]; scan0 2] (SetOperationStmt SETOP_EXCEPT false (SetOpRef 1) (SetOpRef 2)).


(** A set operation that is not static is not rewritten at the top level, where there is no parent entry to write to, and a difference in a subquery is
    rewritten only with [prov_use_wl_union_semantics]. *)
Example set_operation_without_parent :
  rewriteT false left_except0 = Err Segv ∧ rewriteT true left_except0 = Err Segv ∧
  (∃ info, analyseStaticTransProv cat0 left_except0 start0 = Ok (info, start0) ∧
     rewriteQueryNodeTrans cat0 true false 5 true true [] left_except0 info start0 = Err Segv).
Proof. do 2 (split; [vm_compute; reflexivity|]). eexists. split; [vm_compute; reflexivity|]. vm_compute. reflexivity. Qed.

(** Two rewrites that lose information.  The aggregation of a cross product keeps only the parts of the first item of the FROM clause: of the
    six parts of the query, the access to the second item, part 6, is in no bit set although every row depends on it.
    The rewritten form of a static set operation does not contain the set operation: it returns one row with
    the constant bit set, whatever the tables contain, instead of the rows of the set operation. *)
Example rewrite_loses_information :
  (∃ info q' st', analyseStaticTransProv cat0 count_left0 start0 = Ok (info, start0) ∧ numbers info = [1; 2; 3; 4; 5; 6]%Z ∧
     rewriteT false count_left0 = Ok (q', st') ∧
     dedup_on id [] ((λ t, (take 2 t, value_bits (attr 3 t))) <$> evalQuery bits_ops cat0 db0 q') =
       [([Some 1; Some 9], Some (VarBit.mkVarBit 6 [248])); ([Some 1; Some 9], Some (VarBit.mkVarBit 6 [240]));
        ([Some 2; Some 3], Some (VarBit.mkVarBit 6 [240]))]%Z) ∧
  (∃ q' st', rewriteT false intersect0 = Ok (q', st') ∧
     ∀ db, (λ t, value_bits (attr 1 t)) <$> evalQuery bits_ops cat0 db q' = [Some (VarBit.mkVarBit 3 [224%Z])] ∧
       length <$> evalQuery bits_ops cat0 db q' = [1%nat]).
Proof.
  split.
  - do 3 eexists. do 3 (split; [vm_compute; reflexivity|]). vm_compute. reflexivity.
  - do 2 eexists. split; [vm_compute; reflexivity|]. intros db. split; vm_compute; reflexivity.
Qed.

End TransProps.
