(* ===== verification/CopyEval.v ===== *)
(** * Evaluating a query with the copied tuples

    What a query evaluates to whose subqueries and relations show the tuples of the relations that contribute in further
    columns, when its target list is extended by these columns. *)

From Stdlib Require Import ZArith Lia.
From stdpp Require Import base strings numbers list sets gmap.
From S2P Require Import Prelude AttrName QueryTree SqlSemantics SqlFacts Queries ExtendSim RewriteSPJ RewriteFacts RewriteJoins RewriteEval.
From S2P Require Import ProvWitness RewriteMain NodeFacts ProvReplay CopyMap CopyFacts CopySound CopyQuery CopyRewrite CopyShape.
Import QueryTree SqlSemantics SqlFacts Queries ExtendSim RewriteSPJ RewriteFacts RewriteJoins RewriteEval.
Import ProvWitness RewriteMain NodeFacts ProvReplay CopyMap CopyFacts CopySound CopyQuery CopyRewrite CopyShape.

Module CopyEval.

(** ** Columns *)

(** The tuples of a witness that are kept. *)
Definition kept (ks : list bool) (parts : list (Z * tuple)) : list tuple := zip_with (λ (k : bool) p, if k then p.2 else []) ks parts.

(** The values of the columns [attrs] of a row. *)
Definition picks (attrs : list TargetEntry) (t : tuple) : tuple := (λ n, attr n t) <$> (resno <$> attrs).

Definition attr_length (p : RelProv) : nat := length (relProvAttrs p).

Lemma kept_app ks ks' parts parts' : length ks = length parts → kept (ks ++ ks') (parts ++ parts') = kept ks parts ++ kept ks' parts'.
Proof. intros H. unfold kept. by rewrite zip_with_app. Qed.

(** Consecutive columns behind those of [t]. *)
Lemma picks_parts attrs parts t :
  resno <$> concat attrs = cols_from (Z.of_nat (length t) + 1) (length (concat attrs)) →
  length <$> attrs = length <$> parts → (λ a, picks a (t ++ concat parts)) <$> attrs = parts.
Proof.
  revert parts t. induction attrs as [|a attrs IH]; intros [|p parts] t; try done. cbn [concat]. csimpl. intros Hn [= Ha Hl].
  rewrite fmap_app, length_app, Nat2Z.inj_add, seqZ_app in Hn by lia.
  apply app_inj_1 in Hn as [H1 H2]; [|by rewrite length_fmap, length_seqZ, Nat2Z.id]. f_equal.
  - unfold picks. rewrite H1, Ha. rewrite <- (attrs_app t p) at 2. apply list_fmap_ext.
    intros k n [-> Hk]%lookup_seqZ. rewrite app_assoc. apply attr_app_l. rewrite length_app. lia.
  - rewrite app_assoc. apply IH; [|done]. rewrite H2, length_app. f_equal. lia.
Qed.

Lemma picks_nulls attrs n : picks attrs (nulls n) = nulls (length attrs).
Proof. unfold picks, nulls. induction attrs as [|a l IH]; csimpl; [done|]. rewrite IH. f_equal. apply attr_nulls. Qed.

Section columns.
Context (cat : syscache).

(** The widths of the tuples that are kept. *)
Definition widths_of (ks : list bool) (rels : list Z) : list nat := zip_with (λ (k : bool) i, if k then length (rd_att cat i) else 0%nat) ks rels.

Lemma kept_lengths ks rels w :
  length w = sum_list (map (λ i, length (rd_att cat i)) rels) → length <$> kept ks (cut cat rels w) = widths_of ks rels.
Proof.
  revert rels w. induction ks as [|k ks IH]; intros [|i rels] w; try done. cbn. intros Hw. rewrite IH by (rewrite length_drop; lia).
  f_equal. destruct k; [|done]. rewrite length_take. lia.
Qed.

Lemma kept_nulls ks rels :
  kept ks (cut cat rels (nulls (sum_list (map (λ i, length (rd_att cat i)) rels)))) = nulls <$> widths_of ks rels.
Proof.
  pose proof (cut_nulls cat rels) as H. set (w := nulls _) in *. clearbody w. revert w H. revert ks.
  induction rels as [|i rels IH]; intros [|k ks] w H; try done. cbn [cut] in *. apply Forall_cons in H as [H1 H]. cbn.
  f_equal; [|by apply IH]. cbn in H1. destruct k; [done|done].
Qed.

(** ** Entries *)

(** A row of the rewritten entry: the row, and what it shows of its witness. *)
Definition row_copied (r : RangeTblEntry) (ks : list bool) (provs : list RelProv) (c : tuple) (x : row) : Prop :=
  (λ p, picks (relProvAttrs p) (x.1 ++ c)) <$> provs = kept ks (cut cat (rte_accesses r) x.2).

Definition fits_db (db : Z → list tuple) : Prop := ∀ i t, t ∈ db i → length t = length (rd_att cat i).

(** An entry and what became of it. *)
Record copied_rte (op_sem : operators) (r r' : RangeTblEntry) (ks : list bool) (provs : list RelProv) : Prop := {
  cr_kind : rtekind r' = rtekind r;
  cr_join : rtekind r = RTE_JOIN → r' = r;
  cr_sub : rtekind r = RTE_SUBQUERY → is_Some (subquery r');
  cr_flags : length ks = length (rte_accesses r);
  cr_widths : attr_length <$> provs = widths_of ks (rte_accesses r);
  cr_cols : rtekind r = RTE_RELATION → Forall (λ p, Forall (λ te, (1 ≤ resno te ≤ Z.of_nat (rte_width cat r))%Z) (relProvAttrs p)) provs;
  cr_named : Forall (λ p, Forall (λ te, is_Some (resname te)) (relProvAttrs p)) provs;
  cr_wide : ∃ n, rte_width cat r' = (rte_width cat r + n)%nat;
  cr_rows : ∀ db, fits_db db → Forall2 (λ t x, length x.1 = rte_width cat r ∧ ∃ c, t = x.1 ++ c ∧ row_copied r ks provs c x)
    (evalRTE op_sem cat db r') (evalProvRTE op_sem cat db r) }.

Lemma copied_null op_sem r r' ks provs :
  rte_ok cat r = true → copied_rte op_sem r r' ks provs →
  ∃ c, nulls (rte_width cat r') = nulls (rte_width cat r) ++ c ∧ row_copied r ks provs c (nulls (rte_width cat r), nulls (rte_prov_width cat r)).
Proof.
  intros Hr H. destruct (cr_wide _ _ _ _ _ H) as [n Hn]. exists (nulls n). unfold nulls at 1 2 3. rewrite Hn, replicate_add. split; [done|].
  unfold row_copied. cbn [fst snd]. unfold nulls at 1 2. rewrite <- replicate_add, rte_width_accesses, kept_nulls, <- (cr_widths _ _ _ _ _ H) by done.
  rewrite <- list_fmap_compose. apply list_fmap_ext. intros k p _. apply picks_nulls.
Qed.

(** Joins and relations that are not rewritten stay as they are. *)
Lemma copied_join op_sem r : rtekind r = RTE_JOIN → copied_rte op_sem r r [] [].
Proof. intros Hk. destruct r; cbn in Hk; subst. split; try done. exists 0%nat. lia. Qed.

Lemma kept_none ks parts : length ks = length parts → Forall (λ k, k = false) ks → kept ks parts = (λ _, []) <$> ks.
Proof.
  intros Hl Hk. revert parts Hl. induction Hk as [|k ks -> _ IH]; intros [|p parts] Hl; try done. cbn. f_equal. apply IH. by injection Hl.
Qed.

Lemma copy_spj_single q : copy_spj cat q = true → single_witness q = true.
Proof.
  revert q. apply (Query_tree_ind (λ q, copy_spj cat q = true → single_witness q = true)
    (λ r, copy_spj_rte cat r = true → single_witness_rte r = true)).
  - intros ct ha hs rt IH fl qs tl gc hv dc sc lo lc so pr sr Hc. apply list_all_Forall in IH.
    set (q := mkQuery ct ha hs rt fl qs tl gc hv dc sc lo lc so pr sr) in *.
    destruct (copy_spj_spec _ _ Hc) as (Hg & Hs & Hd & _ & _ & Hr). 
    change (is_nil (distinctClause q) && negb (grouped q) && is_none (setOperations q) && forallb single_witness_rte (rtable q) = true).
    rewrite Hd, Hg, Hs. cbn [negb is_nil is_none andb].
    apply forallb_forall. intros r Hin%list_elem_of_In. rewrite Forall_forall in IH, Hr. by apply IH, Hr.
  - intros k rel sub IH ft vt jt av al er pb pa. destruct k; try done. destruct sub; [|done]. by apply option_all_Some in IH.
Qed.

(** Nothing is shown of the witnesses. *)
Lemma copied_same op_sem r ks :
  rte_ok cat r = true → copy_spj_rte cat r = true → length ks = length (rte_accesses r) → Forall (λ k, k = false) ks →
  copied_rte op_sem r r ks ((λ _, no_prov) <$> ks).
Proof.
  intros Hr Hc Hl Hk.
  assert (Forall (λ k, k = false) ks → (λ _ : bool, 0%nat) <$> ks = widths_of ks (rte_accesses r)) as Hw.
  { revert Hl. unfold widths_of. clear. generalize (rte_accesses r). induction ks as [|k ks IH]; intros [|i l] Hl; try done.
    intros [-> H]%Forall_cons. cbn. f_equal. apply IH; [by injection Hl|done]. }
  assert (∀ t x, row_copied r ks ((λ _, no_prov) <$> ks) t x) as Hrow.
  { intros c x. unfold row_copied. rewrite kept_none by (done || by rewrite length_cut). by rewrite <- list_fmap_compose. }
  split; try done.
  - by intros Hs; destruct (rte_ok_spec cat _ Hr) as (_ & _ & _ & _ & [(? & _)|[(_ & s & -> & _)|?]]); [congruence| |congruence].
  - rewrite <- Hw by done. by rewrite <- list_fmap_compose.
  - intros _. apply Forall_fmap, Forall_forall. intros k _. constructor.
  - apply Forall_fmap, Forall_forall. intros k _. constructor.
  - exists 0%nat. lia.
  - intros db Hdb. destruct r as [k rel sub ft vt jt av al er pb pa].
    pose proof (rte_ok_spec cat _ Hr) as (_ & _ & _ & _ & [(Hkd & _)|[(Hkd & s & Hs & Hsp)|Hkd]]);
      cbn [rtekind subquery] in *; subst; [| |constructor].
    + cbn. apply Forall2_fmap_r, Forall_Forall2_diag, Forall_forall. intros t Ht. split; [by apply Hdb|]. exists []. by rewrite app_nil_r.
    + change (evalRTE _ _ _ _) with (evalQuery op_sem cat db s). change (evalProvRTE _ _ _ _) with (evalProv op_sem cat db s).
      rewrite <- (evalProv_values op_sem cat db s Hsp) by by apply copy_spj_single. apply Forall2_fmap_l, Forall_Forall2_diag.
      eapply Forall_impl; [by apply (evalProv_widths op_sem cat db)|]. intros x [Hx _]. split; [done|]. exists []. by rewrite app_nil_r.
Qed.

(** A relation shows its own columns. *)
Lemma copied_relation op_sem r attrs info :
  rte_ok cat r = true → rtekind r = RTE_RELATION → resno <$> attrs = cols_from 1 (length (rd_att cat (relid r))) →
  Forall (λ te, is_Some (resname te)) attrs → copied_rte op_sem r r [true] [mkProv attrs info].
Proof.
  intros Hr Hk Hn Hnm. assert (length attrs = length (rd_att cat (relid r))) as Hl.
  { apply (f_equal length) in Hn. by rewrite length_fmap, length_seqZ, Nat2Z.id in Hn. }
  destruct r as [k rel sub ft vt jt av al er pb pa]. cbn in Hk, Hn, Hl. subst k. split; try done.
  - cbn. unfold widths_of. cbn. by rewrite <- Hl.
  - intros _. constructor; [|constructor]. cbn [relProvAttrs]. apply Forall_forall. intros te Hte.
    apply (list_elem_of_fmap_2 resno) in Hte. rewrite Hn in Hte. apply elem_of_seqZ in Hte. cbn. lia.
  - by constructor.
  - exists 0%nat. lia.
  - intros db Hdb. cbn. apply Forall2_fmap_r, Forall_Forall2_diag, Forall_forall. intros t Ht. split; [by apply Hdb|]. exists [].
    rewrite app_nil_r. split; [done|]. unfold row_copied. cbn. rewrite app_nil_r. unfold kept. cbn. f_equal.
    unfold picks. rewrite Hn, <- (Hdb _ _ Ht), take_ge by lia. exact (attrs_app [] t).
Qed.

(** A query and what became of it. *)
Record copied (op_sem : operators) (q q' : Query) (ks : list bool) (provs : list RelProv) : Prop := {
  cq_targets : targetList q' = targetList q ++ concat (relProvAttrs <$> provs);
  cq_fresh : fresh_entries (Z.of_nat (length (targetList q)) + 1) (concat (relProvAttrs <$> provs));
  cq_flags : length ks = length (accesses q);
  cq_widths : attr_length <$> provs = widths_of ks (accesses q);
  cq_plain : plain_select q' ∧ distinctClause q' = [];
  cq_eval : ∀ db, fits_db db →
    evalQuery op_sem cat db q' = (λ x, x.1 ++ concat (kept ks (cut cat (accesses q) x.2))) <$> evalProv op_sem cat db q }.

Lemma copied_sub op_sem r q q' ks provs :
  rte_ok cat r = true → rtekind r = RTE_SUBQUERY → subquery r = Some q → spj_query cat q → copied op_sem q q' ks provs →
  copied_rte op_sem r (set_subquery (Some q') r) ks provs.
Proof.
  intros Hr Hk Hs Hq [Ht Hf Hfl Hw _ He].
  assert (query_ok cat q = true) as Hok.
  { pose proof (rte_ok_spec cat _ Hr) as (_ & _ & _ & _ & [(? & _)|[(_ & s & Hs' & Hok)|?]]); congruence. }
  pose proof (te_ok_shown _ _ (spj_targets _ _ Hq)) as Hsh.
  assert (out_width q = length (targetList q)) as Ho by (apply out_width_all; eapply Forall_impl; [exact Hsh|]; by intros te []).
  destruct r as [k rel sub ft vt jt av al er pb pa]. cbn in Hk, Hs. subst k sub. split; try done.
  - destruct Hf as (_ & Hc & _). rewrite Forall_concat, Forall_fmap in Hc. eapply Forall_impl; [exact Hc|]. intros p Hp.
    eapply Forall_impl; [exact Hp|]. by intros te (v & _ & _ & ?).
  - exists (length (concat (relProvAttrs <$> provs))). cbn. rewrite Ho, out_width_all, Ht, length_app; [done|]. rewrite Ht.
    apply Forall_app. split; (eapply Forall_impl; [eassumption || apply Hf|]); by intros te [].
  - intros db Hdb. change (evalRTE _ _ _ _) with (evalQuery op_sem cat db q'). change (evalProvRTE _ _ _ _) with (evalProv op_sem cat db q).
    rewrite (He db Hdb). apply Forall2_fmap_l, Forall_Forall2_diag.
    eapply Forall_impl; [by apply (evalProv_widths op_sem cat db)|]. intros x [Hx1 Hx2]. split; [done|]. eexists. split; [done|].
    unfold row_copied. change (rte_accesses _) with (accesses q). destruct Hf as (Hn & _).
    etrans; [|apply (picks_parts (relProvAttrs <$> provs) (kept ks (cut cat (accesses q) x.2)) x.1)].
    + by rewrite <- list_fmap_compose.
    + by rewrite Hx1, Ho.
    + rewrite kept_lengths by (rewrite Hx2; by apply prov_width_accesses). rewrite <- Hw. by rewrite <- list_fmap_compose.
Qed.

End columns.

Lemma flags_match op_sem cat rtes (inputs : list (option CopyMap)) (os : list (RangeTblEntry * list bool * list RelProv)) :
  Forall2 (λ r o, copied_rte cat op_sem r o.1.1 o.1.2 o.2) rtes os →
  Forall3 (λ r om o, length (mentries om) = length o.2) rtes inputs os →
  Forall3 (λ r om o, length (mentries om) = length o.2 ∧ length o.1.2 = length (rte_accesses r)) rtes inputs os.
Proof.
  intros H. revert inputs. induction H as [|r o rtes os Hc _ IH]; intros inputs H3; inversion H3; subst; [constructor|].
  constructor; [|by apply IH]. split; [done|apply (cr_flags _ _ _ _ _ _ Hc)].
Qed.

(** ** A query over rewritten entries *)

Section node.
Context (op_sem : operators) (cat : syscache) (q : Query) (Hq : spj_query cat q).
Context (Hjr : Forall (λ n, joins_relations cat q n = true) (fromlist q)).
Context (outs : list (RangeTblEntry * list bool * list RelProv)).
Context (Houts : Forall2 (λ r o, copied_rte cat op_sem r o.1.1 o.1.2 o.2) (rtable q) outs).
Context (q2 : Query) (Hrt : rtable q2 = (λ o, o.1.1) <$> outs) (Hfl : fromlist q2 = fromlist q) (Hqu : quals q2 = quals q).

Abbreviation settled2 := (settled op_sem id (λ t _ _, t) (aliases q2)).

Lemma out_fetch i r :
  rt_fetch i (rtable q) = Some r →
  ∃ o, rt_fetch i outs = Some o ∧ rt_fetch i (rtable q2) = Some o.1.1 ∧ copied_rte cat op_sem r o.1.1 o.1.2 o.2.
Proof using Houts Hrt.
  rewrite Hrt. unfold rt_fetch. case_decide; [|done]. intros Hr. destruct (Forall2_lookup_l _ _ _ _ _ Houts Hr) as (o & Ho & Hc).
  exists o. rewrite list_lookup_fmap, Ho. done.
Qed.

Lemma join_kept J : kind_at q J = Some RTE_JOIN → rt_fetch J (rtable q2) = rt_fetch J (rtable q) ∧ aliases q2 J = aliases q J.
Proof using Houts Hrt.
  unfold kind_at, aliases. destruct (rt_fetch J (rtable q)) as [r|] eqn:Er; [|done]. intros [= Hk].
  destruct (out_fetch J r Er) as (o & _ & -> & Hc). by rewrite (cr_join _ _ _ _ _ _ Hc Hk).
Qed.

Lemma found_leaf i n p : findRTindexInJoin i n = Some p → i ∈ leaves n.
Proof using Type.
  revert p. induction n as [j|jt l IHl r IHr c J]; intros p; cbn [findRTindexInJoin leaves].
  - case_decide; [|done]. subst. by left.
  - destruct (findRTindexInJoin i l) eqn:El; [intros _; apply elem_of_app; left; by eapply IHl|].
    destruct (findRTindexInJoin i r) eqn:Er; [intros _; apply elem_of_app; right; by eapply IHr|done].
Qed.

Lemma shown_leaf n i : joins_show cat q n = true → i ∈ leaves n → kind_at q i = Some RTE_RELATION.
Proof using Type.
  induction n as [j|jt l IHl r IHr c J]; cbn [joins_show leaves].
  - intros H ->%list_elem_of_singleton. by apply bool_decide_eq_true_1 in H.
  - rewrite !andb_true_iff. intros [[[H1 H2] _] _] [?|?]%elem_of_app; auto.
Qed.

(** One join outwards. *)
Lemma follow_shown_step J m v found s :
  kind_at q J = Some RTE_JOIN → Forall (λ w, varlevelsup w = 0%Z) (aliases q J) → shows_columns cat q J (root m) = true →
  varno v = root m → (1 ≤ varattno v ≤ Z.of_nat (width cat q (root m)))%Z → varlevelsup v = 0%Z →
  ∃ v', follow_joins [J] (rtable q2) v found s = Ok (v', s) ∧ varno v' = J ∧ (1 ≤ varattno v' ≤ Z.of_nat (width cat q J))%Z ∧
    varlevelsup v' = 0%Z ∧
    ∀ l r e, e J = join_value op_sem id (λ t _ _, t) (aliases q2) l r J e → denotes v' (varno v) (varattno v) e.
Proof using Houts Hrt.
  intros Hk Hlev Hs Hv Ha Hl. destruct (join_kept J Hk) as [EJ Eal]. unfold shows_columns in Hs. rewrite forallb_forall in Hs.
  specialize (Hs (varattno v)). rewrite <- list_elem_of_In, elem_of_seqZ in Hs. specialize (Hs ltac:(lia)).
  apply existsb_exists in Hs as (w & Hw%list_elem_of_In & [Hw1 Hw2]%bool_decide_eq_true_1).
  destruct (alias_position_ok v (aliases q J) 1 found) as (j & u & E & Hu & Hu1 & Hu2).
  { exists w. split_and!; [done|congruence|done]. }
  assert (∃ rJ, rt_fetch J (rtable q) = Some rJ ∧ rtekind rJ = RTE_JOIN ∧ joinaliasvars rJ = aliases q J) as (rJ & ErJ & HkJ & EaJ).
  { unfold kind_at, aliases in *. destruct (rt_fetch J (rtable q)) as [rJ|]; [|done]. exists rJ. injection Hk as ->. done. }
  cbn [follow_joins]. rewrite EJ, ErJ, bind_deref, EaJ, E, bind_deref. eexists. split; [done|]. cbn [varno varattno varlevelsup move_var].
  split; [done|]. pose proof (lookup_lt_Some _ _ _ Hu) as Hj. split; [|split; [done|]].
  { unfold width. rewrite ErJ. unfold rte_width. rewrite HkJ, EaJ. lia. }
  intros l r e HeJ. unfold denotes. cbn [varno varattno move_var]. rewrite HeJ. unfold join_value. rewrite Eal.
  replace (1 + Z.of_nat j)%Z with (Z.of_nat j + 1)%Z by lia. rewrite attr_lookup, list_lookup_fmap, Hu. cbn.
  rewrite decide_True by (by eapply (Forall_lookup_1 _ _ _ _ Hlev Hu)). unfold vals_of. cbn. by rewrite Hu1, Hu2.
Qed.

Lemma follow_shown n i path v found s :
  findRTindexInJoin i n = Some path → node_ok cat q n = true → joins_show cat q n = true →
  varno v = i → (1 ≤ varattno v ≤ Z.of_nat (width cat q i))%Z → varlevelsup v = 0%Z →
  ∃ v', follow_joins path (rtable q2) v found s = Ok (v', s) ∧ varno v' = root n ∧
    (1 ≤ varattno v' ≤ Z.of_nat (width cat q (root n)))%Z ∧ varlevelsup v' = 0%Z ∧ ∀ e, settled2 e n → denotes v' i (varattno v) e.
Proof using Houts Hrt.
  intros Hp Hn Hs Hv Ha Hl. revert path Hp. induction n as [j|jt l IHl r IHr c J]; intros path Hp; cbn [findRTindexInJoin] in Hp.
  { case_decide; [|done]. injection Hp as <-. subst j. exists v. split_and!; try done; cbn [root]; try lia. intros e _. unfold denotes. by rewrite Hv. }
  cbn [node_ok joins_show] in Hn, Hs. repeat rewrite andb_true_iff in Hn. rewrite !andb_true_iff in Hs.
  destruct Hn as ((((Nl & Nr) & Hk%bool_decide_eq_true_1) & _) & Hal%forallb_Forall), Hs as [[[Sl Sr] Cl] Cr].
  assert (Forall (λ w, varlevelsup w = 0%Z) (aliases q J)) as Hlev.
  { eapply Forall_impl; [exact Hal|]. intros w. cbn. rewrite !andb_true_iff. intros [[H _] _]. by apply bool_decide_eq_true_1 in H. }
  assert (∃ m p, path = p ++ [J] ∧ shows_columns cat q J (root m) = true ∧ (∀ e, settled2 e (JoinExpr jt l r c J) → settled2 e m) ∧
    ∃ v', follow_joins p (rtable q2) v found s = Ok (v', s) ∧ varno v' = root m ∧
      (1 ≤ varattno v' ≤ Z.of_nat (width cat q (root m)))%Z ∧ varlevelsup v' = 0%Z ∧ ∀ e, settled2 e m → denotes v' i (varattno v) e)
    as (m & p & -> & Cm & Hm & v1 & E1 & Hn1 & Ha1 & Hl1 & Hd1).
  { destruct (findRTindexInJoin i l) as [p|] eqn:El; [|destruct (findRTindexInJoin i r) as [p|] eqn:Er; [|done]]; injection Hp as <-.
    - exists l, p. split_and!; auto. by intros e (? & _).
    - exists r, p. split_and!; auto. by intros e (_ & ? & _). }
  destruct (follow_joins_app p [J] (rtable q2) v found s v1 E1) as [f E2].
  destruct (follow_shown_step J m v1 f s Hk Hlev Cm Hn1 Ha1 Hl1) as (v2 & E3 & Hn2 & Ha2 & Hl2 & Hd2).
  exists v2. rewrite E2. split_and!; try done; cbn [root]; try lia. intros e He. specialize (Hd1 e (Hm e He)). destruct He as (_ & _ & SJ).
  specialize (Hd2 _ _ e SJ). unfold denotes in *. congruence.
Qed.

(** ** The new target entries *)

(** A column that an entry has: those of relations are numbered as the relation's. *)
Definition has_column (i n : Z) : Prop := kind_at q i = Some RTE_RELATION → (1 ≤ n ≤ Z.of_nat (width cat q i))%Z.

Lemma resolve_copied q3 i n ty tm s :
  rtable q3 = rtable q2 → fromlist q3 = fromlist q → has_column i n →
  ∃ v, getRTindexForProvTE q3 (makeVar i n ty tm 0) s = Ok (v, s) ∧ varlevelsup v = 0%Z ∧
    ∀ e, Forall (settled2 e) (fromlist q) → denotes v i n e.
Proof using Hq Hjr Houts Hrt.
  intros H3 Hf3 Hn. unfold getRTindexForProvTE. rewrite H3, Hf3. cbn [varno makeVar].
  destruct (find_join_spec i (fromlist q)) as [->|(m & Hm & Hp)]; [by eexists|].
  pose proof (spj_from _ _ Hq) as Hfrom. pose proof (fo_nodes _ _ Hfrom) as Hns. pose proof Hjr as Hj. rewrite Forall_forall in Hns, Hj.
  specialize (Hj m Hm). destruct m as [j|jt l r c J].
  { cbn in Hp. case_decide; [|done]. injection Hp as <-. by eexists. }
  change (joins_show cat q (JoinExpr jt l r c J) = true) in Hj.
  destruct (follow_shown (JoinExpr jt l r c J) i _ (makeVar i n ty tm 0) None s Hp (Hns _ Hm) Hj eq_refl) as (v & E & _ & _ & Hl & Hd); [|done|].
  { apply Hn. eapply shown_leaf; [exact Hj|]. by eapply found_leaf. }
  exists v. split; [done|]. split; [done|]. intros e He. apply Hd. rewrite Forall_forall in He. auto.
Qed.

Abbreviation values e tes := ((λ te, eval_expr op_sem (vals_of id e) (expr te)) <$> tes).

Lemma prov_entries_copied q3 i pset k s :
  rtable q3 = rtable q2 → fromlist q3 = fromlist q → Forall (λ te, has_column i (resno te) ∧ is_Some (resname te)) pset →
  ∃ tes, prov_entries q3 i pset k s = Ok (tes, s) ∧ length tes = length pset ∧ fresh_entries k tes ∧
    ∀ e, Forall (settled2 e) (fromlist q) → values e tes = picks pset (e i).
Proof using Hq Hjr Houts Hrt.
  intros H3 Hf3 Hp. revert k. induction Hp as [|te pset [Hte Hname] _ IH]; intros k; cbn [prov_entries].
  { exists []. split_and!; [done..|repeat constructor|done]. }
  destruct (resolve_copied q3 i (resno te) (exprType (expr te)) (exprTypmod (expr te)) s H3 Hf3 Hte) as (v & E & Hl & Hd).
  destruct (IH (k + 1)%Z) as (tes & E' & Hlen & Hfr & Hval). hrun E. hrun E'.
  eexists. split; [done|]. split; [by cbn; rewrite Hlen|]. split.
  - apply fresh_entries_cons; try done. by exists v.
  - intros e He. csimpl. rewrite Hval by done. unfold picks. csimpl. f_equal. rewrite decide_True by done. exact (Hd e He).
Qed.

(** What the new entries of a query are made of. *)
Definition prov_ok (rel child : CopyMapRelEntry) (cp : RelProv) : Prop :=
  (noRewrite rel = true → relProvAttrs cp = []) ∧
  Forall (λ te, has_column (rtindex child) (resno te) ∧ is_Some (resname te)) (relProvAttrs cp).

Lemma add_rel_attrs_copied q3 es ch cps s :
  rtable q3 = rtable q2 → fromlist q3 = fromlist q → Forall3 prov_ok es ch cps →
  ∃ tess : list (list TargetEntry), add_rel_attrs q3 es ch cps s = Ok ((set_targetList (targetList q3 ++ concat tess) q3, tess), s) ∧
    (length <$> tess : list nat) = (attr_length <$> cps : list nat) ∧ fresh_entries (Z.of_nat (length (targetList q3)) + 1) (concat tess) ∧
    ∀ e, Forall (settled2 e) (fromlist q) →
      (λ tes : list TargetEntry, values e tes) <$> tess = zip_with (λ child cp, picks (relProvAttrs cp) (e (rtindex child))) ch cps.
Proof using Hq Hjr Houts Hrt.
  intros H3 Hf3 Hps. revert q3 H3 Hf3. induction Hps as [|rel child cp es ch cps [Hno Hcol] _ IH]; intros q3 H3 Hf3; cbn [add_rel_attrs].
  { exists []. cbn. rewrite app_nil_r. split_and!; [by destruct q3|done|repeat constructor|done]. }
  assert (∃ tes, (if noRewrite rel then ret [] else prov_entries q3 (rtindex child) (relProvAttrs cp) (Z.of_nat (length (targetList q3)) + 1)) s =
    Ok (tes, s) ∧ length tes = attr_length cp ∧ fresh_entries (Z.of_nat (length (targetList q3)) + 1) tes ∧
    ∀ e, Forall (settled2 e) (fromlist q) → values e tes = picks (relProvAttrs cp) (e (rtindex child))) as (tes & E & Hl & Hf & Hv).
  { destruct (noRewrite rel); [|by apply prov_entries_copied]. exists []. unfold attr_length. rewrite Hno by done.
    split_and!; [done..|repeat constructor|done]. }
  hrun E. destruct (IH (set_targetList (targetList q3 ++ tes) q3)) as (tess & E' & Hl' & Hf' & Hv'); [done..|]. hrun E'.
  exists (tes :: tess). cbn [concat targetList set_targetList] in *. split; [by rewrite <- app_assoc|]. csimpl. split; [by rewrite Hl', Hl|].
  split.
  - apply fresh_entries_app; [done|]. rewrite length_app, Nat2Z.inj_add in Hf'. by replace (_ + 1 + _)%Z with
      (Z.of_nat (length (targetList q3)) + Z.of_nat (length tes) + 1)%Z by lia.
  - intros e He. by rewrite Hv, Hv'.
Qed.

(** ** Rows *)

Abbreviation evalR := (evalRTE op_sem cat).
Abbreviation provR := (evalProvRTE op_sem cat).

(** The further columns of a row of an entry. *)
Definition shows_copied (i : Z) (c : tuple) (x : row) : Prop :=
  match rt_fetch i (rtable q), rt_fetch i outs with
  | Some r, Some o => row_copied cat r o.1.2 o.2 c x
  | _, _ => True
  end.

Lemma solve_copied db :
  fits_db cat db →
  Forall2 (λ e1 e2, (env_rel (row_ext cat q fst shows_copied) (scope q) e1 e2 ∧
        e2 ∈ solve_prov op_sem cat (map (provR db) (rtable q)) q) ∧ e1 ∈ solve_plain op_sem cat (map (evalR db) (rtable q2)) q2)
    (solve_plain op_sem cat (map (evalR db) (rtable q2)) q2) (solve_prov op_sem cat (map (provR db) (rtable q)) q).
Proof using Hq Houts Hrt Hfl Hqu.
  intros Hdb. pose proof (spj_from _ _ Hq) as Hfrom. apply Forall2_flip, Forall2_with_r; [|by apply Forall_forall].
  apply Forall2_flip. apply solve_ext; try done.
  - intros i Hk. unfold kind_at in Hk. destruct (rt_fetch i (rtable q)) as [r|] eqn:Er; [|by destruct Hk].
    pose proof (rt_fetch_Forall _ _ _ _ (fo_rtes _ _ Hfrom) Er) as Hr. destruct (out_fetch i r Er) as (o & Eo & E2 & Hc).
    rewrite !rt_fetch_map, Er, E2. unfold row_ext, null_row, null_tuple, shows_copied, width. rewrite Er, Eo, E2. cbn. split.
    + exact (cr_rows _ _ _ _ _ _ Hc db Hdb).
    + split; [apply length_replicate|]. by apply (copied_null cat op_sem).
  - intros J HJ. split; [by apply join_kept|]. intros t l r. unfold shows_copied, kind_at in *.
    destruct (rt_fetch J (rtable q)) as [rJ|] eqn:Er; [|done]. destruct (out_fetch J rJ Er) as (o & -> & _ & Hc). cbn in HJ. injection HJ as HJ.
    unfold row_copied. pose proof (cr_widths _ _ _ _ _ _ Hc) as Hw. assert (rte_accesses rJ = []) as Ea by (destruct rJ; cbn in *; by subst).
    rewrite Ea in *. unfold widths_of in Hw. rewrite zip_with_nil_r in Hw. apply fmap_nil_inv in Hw as ->. cbn.
    unfold kept. by rewrite zip_with_nil_r.
Qed.

(** The entries of the maps of the inputs, the first of which has index [i]. *)
Fixpoint indexed (i : Z) (inputs : list (option CopyMap)) : Prop :=
  match inputs with [] => True | om :: inputs => Forall (λ rel, rtindex rel = i) (mentries om) ∧ indexed (i + 1) inputs end.

Lemma shown_parts (e1 : Z → tuple) (e2 : Z → row) i rtes inputs (os : list (RangeTblEntry * list bool * list RelProv)) :
  Forall (λ r, rte_ok cat r = true) rtes → indexed i inputs →
  Forall3 (λ r om o, length (mentries om) = length o.2 ∧ length o.1.2 = length (rte_accesses r)) rtes inputs os →
  (∀ (k : nat) r o, rtes !! k = Some r → os !! k = Some o → contributes r = true →
    (λ p, picks (relProvAttrs p) (e1 (i + Z.of_nat k)%Z)) <$> o.2 = kept o.1.2 (cut cat (rte_accesses r) (e2 (i + Z.of_nat k)%Z).2) ∧
    length (e2 (i + Z.of_nat k)%Z).2 = rte_prov_width cat r) →
  (∀ (k : nat) r o, rtes !! k = Some r → os !! k = Some o → contributes r = false → o.1.2 = [] ∧ o.2 = []) →
  zip_with (λ child cp, picks (relProvAttrs cp) (e1 (rtindex child))) (children inputs) (concat (snd <$> os)) =
  kept (concat ((λ o, o.1.2) <$> os)) (cut cat (concat (map rte_accesses rtes)) (concat ((λ j, (e2 j).2) <$> contrib_from i rtes))).
Proof using Type.
  intros Hr Hi H3. rewrite children_mentries. revert i Hi Hr. induction H3 as [|r om o rtes inputs os [Hl1 Hl2] _ IH]; intros i Hi Hr Hc Hn; [done|].
  apply Forall_cons in Hr as [Hr Hrs]. destruct Hi as [Hi His]. csimpl. cbn [map concat contrib_from].
  rewrite zip_with_app by done. rewrite (IH (i + 1)%Z His Hrs).
  2:{ intros k r' o' E1 E2. specialize (Hc (S k) r' o' E1 E2). by replace (i + Z.of_nat (S k))%Z with (i + 1 + Z.of_nat k)%Z in Hc by lia. }
  2:{ intros k r' o' E1 E2. exact (Hn (S k) r' o' E1 E2). }
  destruct (contributes r) eqn:Ec.
  - destruct (Hc 0%nat r o eq_refl eq_refl Ec) as [Hp Hw]. rewrite Z.add_0_r in Hp, Hw. csimpl.
    rewrite cut_app by (rewrite Hw; by apply rte_width_accesses). rewrite kept_app by by rewrite length_cut. f_equal. rewrite <- Hp.
    clear -Hi Hl1. revert Hl1 Hi. generalize (mentries om) as l, o.2 as k. induction l as [|x l IHl]; intros [|p k] Hl Hi; try done.
    apply Forall_cons in Hi as [E Hi]. cbn [zip_with]. csimpl. rewrite E. f_equal. apply IHl; [by injection Hl|done].
  - destruct (Hn 0%nat r o eq_refl eq_refl Ec) as [Ek Ep]. rewrite Ep in Hl1 |- *. rewrite Ek in Hl2 |- *. destruct (mentries om); [|done].
    destruct (rte_accesses r); [|done]. done.
Qed.

Lemma scoped_copied n : node_ok cat q n = true → scoped (aliases q2) n.
Proof using Houts Hrt.
  intros Hn. pose proof (scoped_plain cat q n Hn) as Hs. induction n as [i|jt l IHl r IHr c J]; [done|]. cbn [node_ok scoped] in *.
  repeat rewrite andb_true_iff in Hn. destruct Hn as ((((Nl & Nr) & Hk%bool_decide_eq_true_1) & _) & _), Hs as (Sl & Sr & Sa).
  destruct (join_kept J Hk) as [_ ->]. auto.
Qed.

Lemma settled_copied db e :
  e ∈ solve_plain op_sem cat (map (evalR db) (rtable q2)) q2 → Forall (settled2 e) (fromlist q).
Proof using Hq Houts Hrt Hfl.
  intros [He _]%elem_of_filter_bool. rewrite Hfl in He. pose proof (spj_from _ _ Hq) as Hfrom.
  eapply (from_list_settled op_sem id (λ t _ _, t) _ _ (aliases q2)); [apply (fo_scope _ _ Hfrom)| |exact He].
  eapply Forall_impl; [apply (fo_nodes _ _ Hfrom)|]. apply scoped_copied.
Qed.

(** In a row of the FROM clause the inputs show the parts of the witness. *)
Lemma parts_copied db inputs e1 e2 :
  fits_db cat db → indexed 1 inputs → Forall3 (λ r om o, length (mentries om) = length o.2) (rtable q) inputs outs →
  env_rel (row_ext cat q fst shows_copied) (scope q) e1 e2 → e2 ∈ solve_prov op_sem cat (map (provR db) (rtable q)) q →
  zip_with (λ child cp, picks (relProvAttrs cp) (e1 (rtindex child))) (children inputs) (concat (snd <$> outs)) =
  kept (concat ((λ o, o.1.2) <$> outs)) (cut cat (accesses q) (witness q e2)).
Proof using Hq Houts Hrt.
  intros Hdb Hi H3 He He2. pose proof (spj_from _ _ Hq) as Hfrom. pose proof (solve_rows op_sem cat db q e2 Hfrom He2) as Hrows.
  rewrite accesses_unfold. unfold witness. rewrite contributors_from.
  pose proof (fo_rtes _ _ Hfrom) as Hrt0. apply shown_parts; [done|done|..].
  - by apply (flags_match op_sem cat).
  - intros k r o Er Eo Hc. assert (rt_fetch (1 + Z.of_nat k) (rtable q) = Some r ∧ rt_fetch (1 + Z.of_nat k) outs = Some o) as [Fr Fo].
    { unfold rt_fetch. rewrite !decide_True by lia. by replace (Z.to_nat (1 + Z.of_nat k - 1)) with k by lia. }
    assert ((1 + Z.of_nat k)%Z ∈ scope q) as Hs.
    { apply (fo_contributors _ _ Hfrom). rewrite contributors_from. by eapply contributes_in. }
    destruct (He _ Hs) as [_ (c & E & Hx)]. unfold shows_copied in Hx. rewrite Fr, Fo in Hx. split; [by rewrite E|].
    destruct (Hrows k r Er Hc) as [Hin|Hn]; [|rewrite Hn; apply length_replicate].
    eapply (rte_witness_length op_sem cat db Hdb); [|exact Hin]. exact (Forall_lookup_1 _ _ _ _ Hrt0 Er).
  - intros k r o Er Eo Hc. destruct (Forall2_lookup_lr _ _ _ _ _ _ Houts Er Eo) as [_ _ _ Hf Hw _ _ _ _].
    assert (rte_accesses r = []) as Ea by (destruct r as [kk]; by destruct kk). rewrite Ea in Hf, Hw. destruct o.1.2; [|done].
    split; [done|]. by apply fmap_nil_inv in Hw.
Qed.

(** The query with the new target entries. *)
Lemma eval_copied inputs (tess : list (list TargetEntry)) db :
  plain_select q → distinctClause q = [] → plain_select q2 → distinctClause q2 = [] →
  targetList q2 = targetList q ++ concat tess → Forall (λ te, resjunk te = false) (concat tess) →
  fits_db cat db → indexed 1 inputs → Forall3 (λ r om o, length (mentries om) = length o.2) (rtable q) inputs outs →
  (∀ e, Forall (settled2 e) (fromlist q) → (λ tes : list TargetEntry, values e tes) <$> tess =
    zip_with (λ child cp, picks (relProvAttrs cp) (e (rtindex child))) (children inputs) (concat (snd <$> outs))) →
  evalQuery op_sem cat db q2 = (λ x, x.1 ++ concat (kept (concat ((λ o, o.1.2) <$> outs)) (cut cat (accesses q) x.2))) <$> evalProv op_sem cat db q.
Proof using Hq Houts Hrt Hfl Hqu.
  intros Hps Hd Hps2 Hd2 Ht Hj Hdb Hi H3 Hv. pose proof (te_ok_shown _ _ (spj_targets _ _ Hq)) as Hsh.
  assert (Forall (shown q2) (targetList q2)) as Hsh2.
  { rewrite Ht. unfold shown. rewrite Hd2. apply Forall_app. split; (eapply Forall_impl; [eassumption|]); [by intros te []|by intros te ->]. }
  rewrite evalQuery_eq, evalProv_eq by done. unfold dedup_if. rewrite Hd, Hd2. unfold raw_plain, raw_prov.
  rewrite <- list_fmap_compose. pose proof (solve_copied db Hdb) as H2. apply list_eq_Forall2, Forall2_fmap. eapply Forall2_impl; [exact H2|].
  intros e1 e2 [[He Hin2] Hin1]. cbn [Basics.compose fst snd]. unfold targets. rewrite Ht, fmap_app. f_equal.
  - eapply (targets_ext op_sem cat q fst); [exact He|]. eapply Forall_impl; [apply (spj_targets _ _ Hq)|]. intros te. unfold te_ok. intros. by checks.
  - rewrite <- (parts_copied db inputs e1 e2) by done. rewrite <- Hv by by eapply settled_copied. clear.
    induction tess as [|tes tess IH]; [done|]. cbn [concat]. csimpl. by rewrite fmap_app, IH.
Qed.

End node.

End CopyEval.
