(* ===== verification/CopyRun.v ===== *)
(** * The copy rewriter on select-project-join queries

    For the maps that the analysis leaves, the rewriter succeeds: the bit sets can be built, every entry of the range table is
    rewritten as its map says, and the query evaluates to the original rows with the tuples of the relations that contribute. *)

From Stdlib Require Import ZArith Lia.
From stdpp Require Import base strings numbers list sets gmap.
From S2P Require Import Prelude VarBit VarBitFacts AttrName QueryTree SqlSemantics SqlFacts Queries Sublevels RewriteSPJ JoinBuild RewriteLimit.
From S2P Require Import RewriteAggr RewriteSet RewriteNode RewriteFacts RewriteJoins RewriteEval RewriteMain ProvReplay LimitFacts.
From S2P Require Import CopyMap CopyFacts CopySound CopyExact TransInfo TransRewrite TransTree CopyRewrite CopyShape CopyEval.
Import QueryTree SqlSemantics SqlFacts Queries Sublevels RewriteSPJ JoinBuild RewriteLimit RewriteAggr RewriteSet RewriteNode.
Import RewriteFacts RewriteJoins RewriteEval RewriteMain ProvReplay LimitFacts CopyMap CopyFacts CopySound CopyExact TransInfo TransRewrite TransTree.
Import CopyRewrite CopyShape CopyEval.

Module CopyRun.

Section run.
Context {agg : AggSublinks} {helpers : SpjHelpers} {folding : ConstFolding} {comparisons : Comparisons} {setops : CopySetOps}.
Context (op_sem : operators) (cat : syscache) (get_opcode : Z → Z) (opt wl : bool).

(** ** Bit sets *)

Lemma const_ok v st : ∃ c, MAKE_VARBIT_CONST (Some v) st = Ok (c, st).
Proof using Type. by eexists. Qed.

Lemma fixed_set_ok n base incls v S st :
  represents n v S → Forall (λ x, 1 ≤ base + varattno (incl_attr x) ≤ n)%Z incls →
  ∃ v' S', fixed_set n base incls v st = Ok (v', st) ∧ represents n v' S'.
Proof using Type.
  intros Hv Hi. revert v S Hv. induction Hi as [|x incls Hx _ IH]; intros v S Hv; cbn [fixed_set]; [by exists v, S|].
  destruct (represents_single n _ Hx) as (s & E & Hs). rewrite E. unfold lift at 1. rewrite bind_ret.
  destruct (varBitOr_represents n s v _ _ Hs Hv) as (r & Er & Hr). rewrite Er. unfold lift at 1. rewrite bind_ret. by eapply IH.
Qed.

Lemma attr_exprs_ok rel child cp n inAtt attrs condition st :
  (0 ≤ inAtt)%Z → Forall (bits_attr n) attrs →
  ∃ es, attr_exprs cat rel child cp (Z.of_nat n) (Z.of_nat n * (inAtt + Z.of_nat (length attrs))) inAtt attrs condition st = Ok (es, st).
Proof using Type.
  intros Hi Ha. revert inAtt condition Hi. induction Ha as [|a attrs [Hr Hs] _ IH]; intros inAtt condition Hi; cbn [attr_exprs]; [by exists []|].
  set (len := (Z.of_nat n * (inAtt + Z.of_nat (length (a :: attrs))))%Z).
  assert (∀ c, ∃ es, attr_exprs cat rel child cp (Z.of_nat n) len (inAtt + 1) attrs c st = Ok (es, st)) as Hrest.
  { intros c. destruct (IH (inAtt + 1)%Z c ltac:(lia)) as [es E]. exists es. rewrite <- E. f_equal. unfold len. cbn [length]. lia. }
  assert (∃ p, (if isStaticTrue a then
      bitset ← lift (VarBit.generateVarbitSetElem len 0);
      if forallb incl_static (outAttrIncls a) then
        bitset ← fixed_set len (inAtt * Z.of_nat n) (outAttrIncls a) bitset; c ← MAKE_VARBIT_CONST (Some bitset); ret ([c], Some c)
      else if isStaticFalse a then ret ([], condition) else incl_exprs cat rel child cp a len (inAtt * Z.of_nat n) (outAttrIncls a) condition
    else if isStaticFalse a then ret ([], condition) else incl_exprs cat rel child cp a len (inAtt * Z.of_nat n) (outAttrIncls a) condition) st =
      Ok (p, st)) as [[es c] E].
  2:{ hrun E. destruct (Hrest c) as [es' E']. hrun E'. by eexists. }
  destruct Hs as [(-> & Hne & ->)|[-> ->]]; [|by eexists].
  assert (Forall (λ x, 1 ≤ inAtt * Z.of_nat n + varattno (incl_attr x) ≤ len)%Z (outAttrIncls a)) as Hcols.
  { unfold in_range, columns in Hr. apply Forall_fmap in Hr. eapply Forall_impl; [exact Hr|]. intros x Hx. cbn in Hx. unfold len. cbn [length]. nia. }
  assert (1 ≤ 1 ≤ len)%Z as H1.
  { unfold columns in Hne. destruct (outAttrIncls a) as [|x l]; [done|]. apply Forall_cons in Hcols as [Hx _]. lia. }
  change (VarBit.generateVarbitSetElem len 0) with (VarBit.generateVarbitSetElem len 1).
  destruct (represents_single len 1 H1) as (s & -> & Hs). unfold lift at 1. rewrite bind_ret.
  destruct (fixed_set_ok len (inAtt * Z.of_nat n) (outAttrIncls a) s _ st Hs Hcols) as (v' & S' & E & _). hrun E. by eexists.
Qed.

Lemma construction_ok rel child child' cp n st :
  bits_ok n rel child' → ∃ x, generateVarBitConstruction cat rel child cp (Z.of_nat n) st = Ok (x, st).
Proof using Type.
  intros Hb. unfold generateVarBitConstruction.
  destruct (attr_exprs_ok rel child cp n 0 (attrEntries rel) None st ltac:(lia) Hb) as [es E]. rewrite Z.add_0_l in E. hrun E.
  destruct es; [apply const_ok|by eexists].
Qed.

(** No column is added where every relation is decided. *)
Lemma generateCopyMapAttributs_ok q n k i es ch cps st :
  Forall2 (agreed n) es ch → length cps = length ch →
  ∃ infos, generateCopyMapAttributs cat q (Z.of_nat n) k i es ch cps st = Ok ((q, infos), st) ∧ length infos = length es.
Proof using Type.
  intros Ha. revert cps i. induction Ha as [|rel child es ch (_ & Hs & Hb) _ IH]; intros [|cp cps] i Hl; try done; cbn [generateCopyMapAttributs].
  { by exists []. }
  injection Hl as Hl.
  assert (∃ bits, (if noRewrite rel then ret None else e ← generateVarBitConstruction cat rel child cp (Z.of_nat n); ret (Some e)) st = Ok (bits, st)) as [bits E].
  { destruct (noRewrite rel); [by eexists|]. destruct (construction_ok rel child child cp n st Hb) as [x E]. hrun E. by eexists. }
  hrun E. rewrite Hs. destruct (IH cps i Hl) as (infos & E' & Hlen).
  assert (negb (noRewrite rel) && negb (negb (noRewrite rel)) = false) as -> by by destruct (noRewrite rel).
  rewrite bind_ret. hrun E'. eexists. split; [done|]. cbn. by rewrite Hlen.
Qed.

(** ** The range table *)

Definition keeps (es : list CopyMapRelEntry) : list bool := (λ rel, negb (noRewrite rel)) <$> es.

(** [rec] rewrites the query as the map says. *)
Definition rewrites_copy (rec : CopyMap → Query → W (Query * NodeInfo * list RelProv)) (m : CopyMap) (q : Query) : Prop :=
  ∀ st, ∃ q' st' provs, rec m q st = Ok ((q', OwnInfo, provs), st') ∧ copied cat op_sem q q' (keeps (entries m)) provs.

Abbreviation copied_out := (λ r (o : RangeTblEntry * list bool * list RelProv), copied_rte cat op_sem r o.1.1 o.1.2 o.2).

Lemma shape_indexed P i rtes inputs :
  inputs_shape cat P i rtes inputs → indexed i inputs ∧ Forall (λ rel, i ≤ rtindex rel)%Z (children inputs).
Proof using Type.
  rewrite children_mentries. revert i inputs. induction rtes as [|r rtes IH]; intros i inputs Hs; inversion Hs; subst; cbn [indexed mentries mbind list_bind];
    [by split|..]; (destruct (IH _ _ ltac:(eassumption)) as [I1 I2]; split; [split; [try done|done]|]);
    try apply Forall_app; repeat split; try done; try (eapply Forall_impl; [exact I2|]; cbn; lia).
  - by constructor.
  - constructor; [cbn; lia|done].
  - eapply Forall_impl; [eassumption|]. cbn. lia.
Qed.

Lemma base_attrs_numbered r attrs k :
  resno <$> base_prov_attrs r attrs k = cols_from (k + 1) (length attrs) ∧ Forall (λ te, is_Some (resname te)) (base_prov_attrs r attrs k).
Proof using Type.
  revert k. induction attrs as [|a attrs IH]; intros k; [by split|]. cbn [base_prov_attrs]. destruct (IH (k + 1)%Z) as [I1 I2]. split.
  - csimpl. rewrite I1. rewrite (seqZ_cons (k + 1)) by (cbn; lia). f_equal. f_equal; cbn; lia.
  - constructor; [by eexists|done].
Qed.

Lemma existsb_none {A} (f : A → bool) l : Forall (λ x, f x = false) l → existsb f l = false.
Proof using Type. induction 1 as [|x l Hx _ IH]; [done|]. cbn. by rewrite Hx, IH. Qed.

(** The entries of the map of an input decide whether it is rewritten. *)
Lemma should_rewrite i pre es post :
  Forall (λ rel, rtindex rel < i)%Z pre → Forall (λ rel, rtindex rel = i) es → Forall (λ rel, i + 1 ≤ rtindex rel)%Z post →
  existsb (λ e, bool_decide (rtindex e = i) && negb (noRewrite e)) (pre ++ es ++ post) = existsb (λ e, negb (noRewrite e)) es.
Proof using Type.
  intros H1 H2 H3. rewrite !existsb_app, (existsb_none _ pre), (existsb_none _ post), orb_false_r.
  - cbn [orb]. induction H2 as [|e es He _ IH]; [done|]. cbn. by rewrite bool_decide_eq_true_2, IH.
  - eapply Forall_impl; [exact H3|]. intros e He. cbn in He. by rewrite bool_decide_eq_false_2 by lia.
  - eapply Forall_impl; [exact H1|]. intros e He. cbn in He. by rewrite bool_decide_eq_false_2 by lia.
Qed.

Lemma find_base i pre rel post :
  Forall (λ rel, rtindex rel < i)%Z pre → rtindex rel = i → getEntryForBaseRel (pre ++ rel :: post) i = Some rel.
Proof using Type.
  intros H1 H2. unfold getEntryForBaseRel. induction H1 as [|e pre He _ IH]; cbn; [by rewrite bool_decide_eq_true_2|].
  rewrite bool_decide_eq_false_2 by (cbn in He; lia). exact IH.
Qed.

(** A map has an entry for each access to a base relation. *)
Lemma shape_length P q mi : shape cat P q mi → length (entries mi) = length (accesses q).
Proof using Type.
  revert q mi. apply (shape_tree_ind cat P (λ q mi _, length (entries mi) = length (accesses q))
    (λ i rtes inputs _, length (children inputs) = length (concat (map rte_accesses rtes)))).
  - intros q k es inputs He _ IH. cbn [entries]. rewrite accesses_unfold, <- IH. by eapply Forall2_length.
  - done.
  - intros i r rel rtes inputs Hk _ _ _ IH. rewrite children_mentries in *. csimpl. cbn [map concat]. rewrite length_app, IH.
    destruct r; cbn in *; by subst.
  - intros i r q mi rtes inputs Hk Hs _ IHm _ _ IH. rewrite children_mentries in *. csimpl. cbn [map concat]. rewrite !length_app, IH.
    f_equal. etrans; [exact IHm|]. destruct r; cbn in *; by subst.
  - intros i r rtes inputs Hk _ IH. rewrite children_mentries in *. csimpl. cbn [map concat]. rewrite IH. by destruct r; cbn in *; subst.
Qed.

Lemma base_rel_ok r i l rel st :
  getEntryForBaseRel l i = Some rel →
  ∃ st', rewriteCopyBaseRel r i l st = Ok ([mkProv (base_prov_attrs r (attrEntries rel) 0) None], st').
Proof using Type. intros E. unfold rewriteCopyBaseRel. rewrite E, bind_deref, bind_modify. by eexists. Qed.

Section entries.
Context (rec : CopyMap → Query → W (Query * NodeInfo * list RelProv)) (m : CopyMap) (ch : list CopyMapRelEntry).

Lemma none_kept es : existsb (λ e, negb (noRewrite e)) es = false → Forall (λ k, k = false) (keeps es).
Proof using Type.
  intros E. apply Forall_fmap, Forall_forall. intros e He. cbn. destruct (noRewrite e) eqn:En; [done|].
  assert (existsb (λ e, negb (noRewrite e)) es = true) as E'; [|congruence].
  apply existsb_exists. exists e. split; [by apply list_elem_of_In|]. by rewrite En.
Qed.

(** One entry. *)
Lemma rewrite_copy_rte_ok i r om pre post st :
  rte_ok cat r = true → copy_spj_rte cat r = true → inputs_shape cat agreed i [r] [om] → (1 ≤ i)%Z →
  ch = pre ++ mentries om ++ post → Forall (λ rel, rtindex rel < i)%Z pre → Forall (λ rel, i + 1 ≤ rtindex rel)%Z post →
  rteShouldRewrite m i = existsb (λ e, bool_decide (rtindex e = i) && negb (noRewrite e)) ch →
  (∀ s mi, rtekind r = RTE_SUBQUERY → subquery r = Some s → shape cat agreed s mi → rewrites_copy rec mi s) →
  ∃ r' provs st', rewrite_copy_rte rec m ch i r om st = Ok ((r', provs), st') ∧ copied_rte cat op_sem r r' (keeps (mentries om)) provs.
Proof using Type.
  intros Hr Hc Hs Hi Ech Hpre Hpost Hshould Hrec. pose proof (rte_ok_spec cat r Hr) as (Hb & Hp & Hnew & Hold & _).
  assert (length (mentries om) = length (rte_accesses r)) as Hlen.
  { inversion Hs as [|? ? ? ? ? Hk|? ? q' mi ? ? Hk Hq' Hshape|? ? ? ? Hk]; subst; destruct r; cbn in *; subst; [done| |done]. by eapply shape_length. }
  assert (length (keeps (mentries om)) = length (rte_accesses r)) as Hkl by (unfold keeps; by rewrite length_fmap).
  assert (Forall (λ rel, rtindex rel = i) (mentries om)) as Hidx by by destruct (shape_indexed _ _ _ _ Hs) as [[? _] _].
  rewrite Ech, should_rewrite in Hshould by done.
  assert (copied_rte cat op_sem r r (keeps (mentries om)) ((λ _, no_prov) <$> keeps (mentries om)) ∨
    existsb (λ e, negb (noRewrite e)) (mentries om) = true) as Hsame.
  { destruct (existsb _ (mentries om)) eqn:E; [by right|]. left. apply copied_same; [done..|]. by apply none_kept. }
  unfold rewrite_copy_rte. rewrite Hshould.
  destruct (existsb (λ e, negb (noRewrite e)) (mentries om)) eqn:Ex.
  2:{ rewrite decide_False by (intros (_ & _ & _ & ?); done). eexists _, _, st. split; [done|]. destruct Hsame as [Hsame|?]; [|done].
      unfold keeps in Hsame at 2. by rewrite <- list_fmap_compose in Hsame. }
  rewrite decide_True by (split_and!; [done..|unfold ignoreRTE; by rewrite Hp|done]). rewrite Hp.
  inversion Hs as [|? ? rel ? ? Hk Hri Hn _|? ? q' mi ? ? Hk Hq' Hshape _ _|? ? ? ? Hk]; subst; [| |done].
  - rewrite decide_False by congruence. rewrite decide_True by by left. cbn [mentries entries app].
    destruct (base_rel_ok r (rtindex rel) (pre ++ rel :: post) rel st) as [st' E]; [by apply find_base|]. hrun E.
    eexists _, _, st'. split; [done|]. cbn in Ex. rewrite orb_false_r in Ex. unfold keeps. csimpl. rewrite Ex.
    destruct (base_attrs_numbered r (attrEntries rel) 0) as [N1 N2]. rewrite Hn in N1. by apply copied_relation.
  - rewrite decide_True by done. rewrite Hq', bind_deref, bind_deref. destruct (Hrec q' mi Hk Hq' Hshape st) as (q1 & st' & provs & E & Hcp).
    hrun E. eexists _, _, st'. split; [done|]. eapply copied_sub; [done..| |exact Hcp].
    pose proof (rte_ok_spec cat r Hr) as (_ & _ & _ & _ & [(? & _)|[(_ & s & Hs' & Hok)|?]]); [congruence| |congruence].
    rewrite Hq' in Hs'. injection Hs' as <-. apply copy_spj_query; [done|]. destruct r; cbn in *; by subst.
Qed.

Lemma rewrite_copy_rtes_ok rtes i inputs pre st :
  inputs_shape cat agreed i rtes inputs → (1 ≤ i)%Z → ch = pre ++ children inputs → Forall (λ rel, rtindex rel < i)%Z pre →
  (∀ j, (1 ≤ j)%Z → rteShouldRewrite m j = existsb (λ e, bool_decide (rtindex e = j) && negb (noRewrite e)) ch) →
  Forall (λ r, rte_ok cat r = true) rtes → Forall (λ r, copy_spj_rte cat r = true) rtes →
  (∀ r s mi, r ∈ rtes → rtekind r = RTE_SUBQUERY → subquery r = Some s → shape cat agreed s mi → rewrites_copy rec mi s) →
  ∃ outs st', rewrite_copy_rtes rec m ch i rtes inputs st = Ok (((λ o, o.1.1) <$> outs, concat (snd <$> outs)), st') ∧
    Forall2 copied_out rtes outs ∧ Forall2 (λ om o, o.1.2 = keeps (mentries om)) inputs outs.
Proof using Type.
  revert i inputs pre st. induction rtes as [|r rtes IH]; intros i inputs pre st Hs Hi Ech Hpre Hshould Hr Hc Hrec.
  { inversion Hs; subst. exists [], st. split; [done|]. split; constructor. }
  assert (∃ om inputs', inputs = om :: inputs' ∧ inputs_shape cat agreed i [r] [om] ∧ inputs_shape cat agreed (i + 1) rtes inputs')
    as (om & inputs' & -> & Hs1 & Hs2).
  { inversion Hs; subst; eexists _, _; (split; [done|]); (split; [|done]); econstructor; eauto; constructor. }
  rewrite children_mentries in Ech. csimpl in Ech. apply Forall_cons in Hr as [Hr Hrs], Hc as [Hc Hcs].
  pose proof (shape_indexed _ _ _ _ Hs1) as [[Hidx _] _]. pose proof (shape_indexed _ _ _ _ Hs2) as [_ Hpost]. rewrite children_mentries in Hpost.
  destruct (rewrite_copy_rte_ok i r om pre (inputs' ≫= mentries) st Hr Hc Hs1 Hi Ech Hpre Hpost (Hshould i Hi)) as (r' & provs & st1 & E & Hcp).
  { intros s mi. apply Hrec. by left. }
  destruct (IH (i + 1)%Z inputs' (pre ++ mentries om) st1 Hs2 ltac:(lia)) as (outs & st' & E' & H1 & H2); try done.
  { rewrite children_mentries, <- app_assoc. exact Ech. }
  { apply Forall_app. split; [eapply Forall_impl; [exact Hpre|]; cbn; lia|eapply Forall_impl; [exact Hidx|]; cbn; lia]. }
  { intros s q0 mi Hin. apply Hrec. by right. }
  cbn [rewrite_copy_rtes]. hrun E. hrun E'. exists ((r', keeps (mentries om), provs) :: outs), st'. split; [done|]. split; by constructor.
Qed.

End entries.

Lemma alias_copied r r' ks provs st :
  copied_rte cat op_sem r r' ks provs → ∃ r'', correctRTEAlias r' st = Ok (r'', st) ∧ copied_rte cat op_sem r r'' ks provs.
Proof using Type.
  intros Hc. pose proof Hc as [Hk Hj Hs Hf Hw Hco Hn Hwd Hrw]. unfold correctRTEAlias.
  destruct (rtekind r') eqn:E; try (by exists r'). destruct (Hs ltac:(congruence)) as [q Hq]. rewrite Hq, bind_deref. eexists. split; [done|].
  destruct r' as [k rel sub ft vt jt av al er pb pa]. cbn in E, Hq. subst k sub. split; try done. intros Hjk. congruence.
Qed.

Lemma aliases_copied rtes outs st :
  Forall2 copied_out rtes outs →
  ∃ outs', correct_aliases ((λ o, o.1.1) <$> outs) st = Ok ((λ o, o.1.1) <$> outs', st) ∧ Forall2 copied_out rtes outs' ∧
    snd <$> outs' = snd <$> outs ∧ (λ o, o.1.2) <$> outs' = (λ o, o.1.2) <$> outs.
Proof using Type.
  induction 1 as [|r [[r' ks] provs] rtes outs Hc _ (outs' & E & H1 & H2 & H3)]; [by exists []|]. cbn in Hc. csimpl.
  destruct (alias_copied r r' ks provs st Hc) as (r'' & E' & Hc'). cbn [correct_aliases]. hrun E'. hrun E.
  exists ((r'', ks, provs) :: outs'). split; [done|]. split; [by constructor|]. csimpl. by rewrite H2, H3.
Qed.

(** ** Provenance attributes of the inputs *)

Lemma provs_length r r' ks provs : copied_rte cat op_sem r r' ks provs → length provs = length ks.
Proof using Type.
  intros Hc. pose proof (cr_flags _ _ _ _ _ _ Hc) as Hf. pose proof (f_equal length (cr_widths _ _ _ _ _ _ Hc)) as Hw.
  unfold widths_of in Hw. rewrite length_fmap, length_zip_with in Hw. lia.
Qed.

Lemma outs_lengths rtes inputs outs :
  Forall2 copied_out rtes outs → Forall2 (λ om (o : RangeTblEntry * list bool * list RelProv), o.1.2 = keeps (mentries om)) inputs outs →
  Forall3 (λ r om (o : RangeTblEntry * list bool * list RelProv), length (mentries om) = length o.2) rtes inputs outs.
Proof using Type.
  intros H1. revert inputs. induction H1 as [|r o rtes outs Hc _ IH]; intros inputs H2; inversion H2; subst; constructor; [|by apply IH].
  rewrite (provs_length _ _ _ _ Hc). match goal with E : _ = keeps _ |- _ => rewrite E end. unfold keeps. by rewrite length_fmap.
Qed.

Lemma outs_widths rtes inputs outs :
  Forall2 copied_out rtes outs → Forall2 (λ om (o : RangeTblEntry * list bool * list RelProv), o.1.2 = keeps (mentries om)) inputs outs →
  attr_length <$> concat (snd <$> outs) = widths_of cat (keeps (children inputs)) (concat (map rte_accesses rtes)) ∧
  concat ((λ o, o.1.2) <$> outs) = keeps (children inputs).
Proof using Type.
  rewrite children_mentries. intros H1. revert inputs. induction H1 as [|r o rtes outs Hc _ IH]; intros inputs H2; inversion H2 as [|om ? inputs' ? Ek H2']; subst; [done|].
  destruct (IH _ H2') as [I1 I2]. csimpl. cbn [map concat]. unfold keeps in *. rewrite !fmap_app, I1, I2, Ek. split; [|done].
  unfold widths_of. rewrite zip_with_app.
  - f_equal. rewrite <- Ek. apply (cr_widths _ _ _ _ _ _ Hc).
  - rewrite <- Ek. apply (cr_flags _ _ _ _ _ _ Hc).
Qed.

(** The attributes of one input. *)
Lemma entry_provs_ok q i r r' es provs :
  rt_fetch i (rtable q) = Some r → Forall (λ rel, rtindex rel = i) es → copied_rte cat op_sem r r' (keeps es) provs →
  Forall2 (λ child cp, (noRewrite child = true → relProvAttrs cp = []) ∧
    Forall (λ te, has_column cat q (rtindex child) (resno te) ∧ is_Some (resname te)) (relProvAttrs cp)) es provs.
Proof using Type.
  intros Er Hi [_ _ _ Hf Hw Hc Hn _ _].
  assert (Forall (λ p, Forall (λ te, has_column cat q i (resno te) ∧ is_Some (resname te)) (relProvAttrs p)) provs) as Hcol.
  { rewrite Forall_forall in Hn |- *. intros p Hp. specialize (Hn p Hp). rewrite Forall_forall in Hn |- *. intros te Hte. split; [|by apply Hn].
    unfold has_column, kind_at, width. rewrite Er. cbn. intros [= Hk]. specialize (Hc Hk). rewrite Forall_forall in Hc.
    specialize (Hc p Hp). rewrite Forall_forall in Hc. by apply Hc. }
  clear -Hf Hw Hcol Hi. revert provs Hw Hcol Hi Hf. generalize (rte_accesses r) as l. unfold keeps, widths_of.
  induction es as [|e es IH]; intros [|a l] [|p provs] Hw Hcol Hi Hf; try done; csimpl in *.
  injection Hf as Hf. injection Hw as Hw1 Hw. apply Forall_cons in Hcol as [Hc1 Hcol], Hi as [He Hi]. constructor; [|by apply (IH l)].
  split; [|by rewrite He]. intros Hno. rewrite Hno in Hw1. cbn in Hw1. unfold attr_length in Hw1. by destruct (relProvAttrs p).
Qed.

Lemma provs_ok q i rtes inputs outs :
  (∀ (k : nat) r, rtes !! k = Some r → rt_fetch (i + Z.of_nat k) (rtable q) = Some r) → indexed i inputs →
  Forall2 copied_out rtes outs → Forall2 (λ om (o : RangeTblEntry * list bool * list RelProv), o.1.2 = keeps (mentries om)) inputs outs →
  Forall2 (λ child cp, (noRewrite child = true → relProvAttrs cp = []) ∧
    Forall (λ te, has_column cat q (rtindex child) (resno te) ∧ is_Some (resname te)) (relProvAttrs cp)) (children inputs) (concat (snd <$> outs)).
Proof using Type.
  rewrite children_mentries. intros Hk Hi H1. revert i inputs Hk Hi.
  induction H1 as [|r o rtes outs Hc _ IH]; intros i inputs Hk Hi H2; inversion H2 as [|om ? inputs' ? Ek H2']; subst; [constructor|].
  destruct Hi as [Hi His]. csimpl. apply Forall2_app.
  - cbn in Hc. rewrite Ek in Hc. eapply entry_provs_ok; [|done|exact Hc]. specialize (Hk 0%nat r eq_refl). by rewrite Z.add_0_r in Hk.
  - apply (IH (i + 1)%Z); [|done..]. intros k r' Hr'. specialize (Hk (S k) r' Hr'). by replace (i + 1 + Z.of_nat k)%Z with (i + Z.of_nat (S k))%Z by lia.
Qed.

(** ** Query nodes *)

Lemma agreed_keeps n es ch : Forall2 (agreed n) es ch → keeps es = keeps ch.
Proof using Type.
  unfold keeps. induction 1 as [|rel child es ch (Hf & _) _ IH]; [done|]. csimpl. rewrite IH. f_equal. unfold flags in Hf. by injection Hf as _ ->.
Qed.

Lemma prov_ok_all q n es ch cps :
  Forall2 (agreed n) es ch →
  Forall2 (λ child cp, (noRewrite child = true → relProvAttrs cp = []) ∧
    Forall (λ te, has_column cat q (rtindex child) (resno te) ∧ is_Some (resname te)) (relProvAttrs cp)) ch cps →
  Forall3 (prov_ok cat q) es ch cps.
Proof using Type.
  intros H1. revert cps. induction H1 as [|rel child es ch (Hf & _) _ IH]; intros cps H2; inversion H2 as [|? cp ? cps' [Hno Hcol] H2']; subst; constructor; [|by apply IH].
  unfold flags in Hf. injection Hf as _ Hf. split; [by rewrite <- Hf|done].
Qed.

Lemma zip_provs (tess : list (list TargetEntry)) infos :
  length tess = length infos → relProvAttrs <$> zip_with (λ a i, mkProv a (Some i)) tess infos = tess.
Proof using Type. revert infos. induction tess as [|a tess IH]; intros [|i infos] Hl; try done. cbn. f_equal. apply IH. by injection Hl. Qed.

Lemma same_flags (inputs : list (option CopyMap)) (outs outs' : list (RangeTblEntry * list bool * list RelProv)) :
  (λ o, o.1.2) <$> outs' = (λ o, o.1.2) <$> outs →
  Forall2 (λ om (o : RangeTblEntry * list bool * list RelProv), o.1.2 = keeps (mentries om)) inputs outs →
  Forall2 (λ om (o : RangeTblEntry * list bool * list RelProv), o.1.2 = keeps (mentries om)) inputs outs'.
Proof using Type.
  intros E H. revert outs' E. induction H as [|om o inputs outs Ho _ IH]; intros [|o' outs'] E; try done. csimpl in E. injection E as E1 E2.
  constructor; [congruence|by apply IH].
Qed.

Lemma rewriteSPJQueryCopy_ok rec infl k es inputs q st :
  query_ok cat q = true → copy_spj cat q = true → shape cat agreed q (QueryMap k es inputs) →
  (∀ r s mi, r ∈ rtable q → rtekind r = RTE_SUBQUERY → subquery r = Some s → shape cat agreed s mi → rewrites_copy rec mi s) →
  ∃ q' st' provs, rewriteSPJQueryCopy cat rec infl (QueryMap k es inputs) q st = Ok ((q', OwnInfo, provs), st') ∧
    copied cat op_sem q q' (keeps es) provs.
Proof using Type.
  intros Hok Hc Hsh Hrec. pose proof (copy_spj_query _ _ Hok Hc) as Hq. pose proof (copy_spj_spec _ _ Hc) as (_ & Hso & Hd & Hlim & Hjr & Hcr).
  pose proof (shape_length _ _ _ Hsh) as Hlen. inversion Hsh as [? ? ? ? Hag Hin]; subst. pose proof (fo_rtes _ _ (spj_from _ _ Hq)) as Hrt.
  unfold rewriteSPJQueryCopy. rewrite (checkLimit_spec cat q Hok Hq). unfold limit_joins. rewrite Hlim. cbn [andb].
  destruct (rewrite_copy_rtes_ok rec (QueryMap k es inputs) (children inputs) (rtable q) 1 inputs [] st Hin) as (outs & st1 & E1 & Ho1 & Hk1); try done.
  { intros j Hj. unfold rteShouldRewrite, shouldRewriteRTEforMap. by rewrite (bool_decide_eq_false_2 (j = -1)%Z) by lia. }
  hrun E1. destruct (aliases_copied (rtable q) outs st1 Ho1) as (outs' & E2 & Ho & Esnd & Eks).
  assert (correctSubQueryAlias (set_rtable ((λ o, o.1.1) <$> outs) q) st1 = Ok (set_rtable ((λ o, o.1.1) <$> outs') q, st1)) as E3.
  { unfold correctSubQueryAlias. cbn [rtable set_rtable]. by hrun E2. }
  hrun E3. rewrite <- Esnd.
  assert (Forall2 (λ om (o : RangeTblEntry * list bool * list RelProv), o.1.2 = keeps (mentries om)) inputs outs') as Hk.
  { by eapply same_flags. }
  set (q2 := set_rtable ((λ o, o.1.1) <$> outs') q). destruct (shape_indexed _ _ _ _ Hin) as [Hidx _].
  destruct (outs_widths (rtable q) inputs outs' Ho Hk) as [Hw Hks]. rewrite <- (agreed_keeps _ _ _ Hag) in Hw, Hks.
  assert (Forall3 (prov_ok cat q) es (children inputs) (concat (snd <$> outs'))) as Hpok.
  { eapply prov_ok_all; [exact Hag|]. eapply (provs_ok q 1 (rtable q)); [|done..]. intros j r Hj. unfold rt_fetch. rewrite decide_True by lia.
    by replace (Z.to_nat (1 + Z.of_nat j - 1)) with j by lia. }
  destruct (add_rel_attrs_copied op_sem cat q Hq Hjr outs' Ho q2 eq_refl q2 es (children inputs) (concat (snd <$> outs')) st1 eq_refl eq_refl Hpok)
    as (tess & E4 & Hl & Hf & Hv).
  assert (length (concat (snd <$> outs')) = length (children inputs)) as Hlc by (rewrite <- (Forall3_length_lr _ _ _ _ Hpok); by eapply Forall3_length_lm).
  set (q3 := set_targetList (targetList q2 ++ concat tess) q2) in *.
  destruct (generateCopyMapAttributs_ok q3 (length (targetList q2)) k 0 es (children inputs) (concat (snd <$> outs')) st1 Hag Hlc) as (infos & E5 & Hli).
  assert (length tess = length infos) as Hti.
  { apply (f_equal length) in Hl. rewrite !length_fmap in Hl. rewrite Hl, Hlc, Hli. symmetry. by eapply Forall2_length. }
  assert (copyAddProvAttrs cat q2 k es (children inputs) (concat (snd <$> outs')) st1 =
    Ok ((q3, zip_with (λ a i, mkProv a (Some i)) tess infos), st1)) as E6 by (unfold copyAddProvAttrs; hrun E4; by hrun E5).
  hrun E6. eexists q3, st1, _. split.
  - cbn [distinctClause set_targetList set_rtable q2 q3]. by rewrite Hd.
  - split.
    + by rewrite zip_provs.
    + by rewrite zip_provs.
    + unfold keeps. by rewrite length_fmap.
    + rewrite accesses_unfold, <- Hw, <- Hl. rewrite <- (zip_provs tess infos Hti) at 2. by rewrite <- list_fmap_compose.
    + split; [exact (spj_unlimited _ _ Hq Hlim)|done].
    + intros db Hdb. rewrite <- Hks. pose proof (spj_unlimited _ _ Hq Hlim) as Hps.
      eapply (eval_copied op_sem cat q Hq outs' Ho q3 eq_refl eq_refl eq_refl inputs tess db); try done.
      * destruct Hf as (_ & _ & Hj). eapply Forall_impl; [exact Hj|]. by intros te [].
      * by apply outs_lengths.
Qed.

(** One unit of fuel for each level of nested subqueries is enough. *)
Lemma rewriteQueryNodeCopy_ok fuel m q :
  query_ok cat q = true → copy_spj cat q = true → shape cat agreed q m → (nesting q ≤ fuel)%nat →
  rewrites_copy (rewriteQueryNodeCopy cat opt wl fuel) m q.
Proof using Type.
  revert m q. induction fuel as [|fuel IH]; intros m q Hok Hc Hsh Hf.
  { assert (0 < nesting q)%nat by (destruct q; cbn; lia). lia. }
  intros st. cbn [rewriteQueryNodeCopy]. pose proof (copy_spj_spec _ _ Hc) as (Hg & Hso & _ & _ & _ & Hcr).
  assert (hasAggs q = false) as -> by (unfold grouped in Hg; by destruct (hasAggs q)). rewrite Hso.
  inversion Hsh as [? k es inputs]; subst. apply rewriteSPJQueryCopy_ok; [done..|]. intros r s mi Hr Hk Hs Hshs.
  pose proof (query_ok_spec _ _ Hok) as [Hrt _]. rewrite Forall_forall in Hrt, Hcr. specialize (Hrt r Hr). specialize (Hcr r Hr).
  pose proof (nesting_sub q r s Hr Hs) as Hn. apply IH; [| |done|lia].
  - pose proof (rte_ok_spec cat r Hrt) as (_ & _ & _ & _ & [(? & _)|[(_ & s' & Hs' & Hsok)|?]]); congruence.
  - destruct r; cbn in *; by subst.
Qed.

End run.

End CopyRun.
