(* ===== verification/CopyTop.v ===== *)
(** * The top query of a copy rewrite

    At the top the tuples of the relations that contribute are shown, in the order of the accesses, and NULLs for the others. *)

From Stdlib Require Import ZArith Lia.
From stdpp Require Import base strings numbers list sets gmap.
From S2P Require Import Prelude AttrName QueryTree SqlSemantics SqlFacts Queries RewriteSPJ RewriteSet RewriteFacts RewriteEval NodeFacts ProvReplay.
From S2P Require Import CopyMap CopySound CopyRewrite CopyShape CopyEval CopyRun.
Import QueryTree SqlSemantics SqlFacts Queries RewriteSPJ RewriteSet RewriteFacts RewriteEval NodeFacts ProvReplay.
Import CopyMap CopySound CopyRewrite CopyShape CopyEval CopyRun.

Module CopyTop.

(** What matters to the result of a query about a target entry. *)
Definition core (te : TargetEntry) : Expr * bool := (expr te, resjunk te).

Definition slot_core (tl : list TargetEntry) (s : slot) : option (Expr * bool) :=
  match s with Fresh te => Some (core te) | Shared id => core <$> rt_fetch id tl end.

Definition null_cores (rel : CopyMapRelEntry) : list (Expr * bool) :=
  (λ a, (makeNullConst (vartype (baseRelAttr a)) (vartypmod (baseRelAttr a)), false)) <$> attrEntries rel.

Definition rel_cores (rel : CopyMapRelEntry) (prov : RelProv) : list (Expr * bool) :=
  if noRewrite rel then null_cores rel else core <$> relProvAttrs prov.

Lemma slot_core_ext tl tl' s : core <$> tl' = core <$> tl → slot_core tl' s = slot_core tl s.
Proof.
  intros E. destruct s as [te|id]; [done|]. unfold slot_core, rt_fetch. case_decide; [|done].
  by rewrite <- !list_lookup_fmap, E.
Qed.

Lemma null_attrs_cores tl rel pos :
  slot_core tl <$> null_attrs (attrEntries rel) pos = Some <$> null_cores rel.
Proof.
  unfold null_cores. revert pos. induction (attrEntries rel) as [|a l IH]; intros pos; [done|]. cbn [null_attrs]. csimpl. by rewrite IH.
Qed.

Lemma take_attrs_ok attrs pos tl st :
  Forall (λ te, core <$> rt_fetch (resno te) tl = Some (core te)) attrs →
  ∃ tl', take_attrs id attrs pos tl st = Ok (((λ te, Shared (resno te)) <$> attrs, tl'), st) ∧ core <$> tl' = core <$> tl.
Proof.
  revert pos tl. induction attrs as [|te attrs IH]; intros pos tl Ha; cbn [take_attrs]; [by exists tl|].
  apply Forall_cons in Ha as [Hte Ha]. destruct (rt_fetch (resno te) tl) as [u|] eqn:E; [|done].
  set (tl1 := rt_update (resno te) (set_resno (pos + 1) u) tl).
  assert (change_entry (λ te, set_resno (pos + 1) (id te)) (resno te) tl st = Ok (tl1, st)) as E1.
  { unfold change_entry. rewrite E, bind_deref. done. }
  hrun E1. assert (core <$> tl1 = core <$> tl) as Hc1.
  { unfold tl1, rt_update. unfold rt_fetch in E. case_decide; [|done]. apply list_eq. intros k. rewrite !list_lookup_fmap.
    destruct (decide (k = Z.to_nat (resno te - 1))) as [->|Hk]; [|by rewrite list_lookup_insert_ne].
    rewrite list_lookup_insert_eq by by eapply lookup_lt_Some. by rewrite E. }
  destruct (IH (pos + 1)%Z tl1) as (tl' & E2 & Hc2).
  { eapply Forall_impl; [exact Ha|]. intros x Hx. change (slot_core tl1 (Shared (resno x)) = Some (core x)). by rewrite (slot_core_ext tl). }
  hrun E2. exists tl'. split; [done|congruence].
Qed.

Lemma final_slots_ok partial n es provs pos tl st :
  Forall (λ rel, isStatic rel = negb (noRewrite rel)) es → length provs = length es →
  Forall (λ p, Forall (λ te, core <$> rt_fetch (resno te) tl = Some (core te)) (relProvAttrs p)) provs →
  ∃ slots tl', final_slots partial n es provs pos tl st = Ok ((slots, tl'), st) ∧ core <$> tl' = core <$> tl ∧
    slot_core tl <$> slots = Some <$> concat (zip_with rel_cores es provs).
Proof.
  intros Hs. revert provs pos tl. induction Hs as [|rel es Hrel _ IH]; intros [|p provs] pos tl Hl Hp; try done; cbn [final_slots].
  { by exists [], tl. }
  apply Forall_cons in Hp as [Hp1 Hp]. injection Hl as Hl.
  assert (∃ slots tl', (if noRewrite rel then ret (null_attrs (attrEntries rel) pos, tl)
      else if isStatic rel then take_attrs id (relProvAttrs p) pos tl
      else condition ← (if partial then createPartialFinalInclConds rel p n else createCompleteFinalInclConds p n);
           attrs ← nth_attrs (attrEntries rel) (relProvAttrs p);
           take_attrs (λ te, with_expr (makeCaseForProvAttr condition (expr te)) te) attrs pos tl) st = Ok ((slots, tl'), st) ∧
      core <$> tl' = core <$> tl ∧ slot_core tl <$> slots = Some <$> rel_cores rel p) as (slots & tl1 & E & Hc1 & Hs1).
  { rewrite Hrel. unfold rel_cores. destruct (noRewrite rel); cbn [negb].
    - eexists _, tl. split; [done|]. split; [done|apply null_attrs_cores].
    - destruct (take_attrs_ok (relProvAttrs p) pos tl st Hp1) as (tl' & E & Hc). eexists _, tl'. split; [exact E|]. split; [done|].
      rewrite <- !list_fmap_compose. apply list_fmap_ext. intros k te Hte. cbn. rewrite Forall_forall in Hp1. apply Hp1.
      by eapply list_elem_of_lookup_2. }
  hrun E. destruct (IH provs (pos + Z.of_nat (length slots))%Z tl1 Hl) as (rest & tl2 & E2 & Hc2 & Hs2).
  { eapply Forall_impl; [exact Hp|]. intros q Hq. eapply Forall_impl; [exact Hq|]. intros x Hx.
    change (slot_core tl1 (Shared (resno x)) = Some (core x)). by rewrite (slot_core_ext tl). }
  hrun E2. exists (slots ++ rest), tl2. split; [done|]. split; [congruence|]. cbn [zip_with concat]. rewrite !fmap_app, Hs1. f_equal.
  rewrite <- Hs2. apply list_fmap_ext. intros k s _. symmetry. by apply slot_core_ext.
Qed.

Lemma fill_slots_ok tl slots cores st :
  slot_core tl <$> slots = Some <$> cores → ∃ new, fill_slots tl slots st = Ok (new, st) ∧ core <$> new = cores.
Proof.
  revert cores. induction slots as [|s slots IH]; intros [|c cores] E; try done; cbn [fill_slots]; [by exists []|].
  csimpl in E. injection E as E1 E. destruct (IH cores E) as (new & E2 & Hn).
  assert (∃ te, match s with Fresh te => ret te | Shared id => deref (rt_fetch id tl) end st = Ok (te, st) ∧ core te = c) as (te & Et & Hc).
  { destruct s as [te|id]; cbn in E1; [injection E1 as <-; by eexists|]. destruct (rt_fetch id tl); [|done]. injection E1 as <-. by eexists. }
  hrun Et. hrun E2. eexists. split; [done|]. csimpl. by rewrite Hn, Hc.
Qed.

(** ** Evaluation *)

(** What is shown of the tuple of a relation. *)
Definition shown_tuple (cat : syscache) (k : bool) (p : Z * tuple) : tuple := if k then p.2 else nulls (length (rd_att cat p.1)).

Section top.
Context (op_sem : operators) (cat : syscache).

Lemma cut_rels rels w : fst <$> cut cat rels w = rels.
Proof. revert w. induction rels as [|i rels IH]; intros w; cbn; [done|]. by rewrite IH. Qed.

Abbreviation values e tes := ((λ te, eval_expr op_sem (vals_of id e) (expr te)) <$> tes).

(** The target entries with their numbers. *)
Lemma entry_at q q' ks provs te :
  copied cat op_sem q q' ks provs → te ∈ concat (relProvAttrs <$> provs) → rt_fetch (resno te) (targetList q') = Some te.
Proof.
  intros [Ht (Hn & _) _ _ _ _] (k & Hk)%list_elem_of_lookup_1. rewrite Ht.
  assert (resno te = Z.of_nat (length (targetList q)) + 1 + Z.of_nat k)%Z as E.
  { assert (Some (resno te) = resno <$> (concat (relProvAttrs <$> provs) !! k)) as E by by rewrite Hk.
    rewrite <- list_lookup_fmap, Hn in E. symmetry in E. by apply lookup_seqZ in E as [-> _]. }
  unfold rt_fetch. rewrite decide_True by lia. rewrite lookup_app_r by lia. rewrite <- Hk. f_equal. lia.
Qed.

Lemma picks_values e tl attrs :
  Forall (λ te, rt_fetch (resno te) tl = Some te) attrs → picks attrs (values e tl) = values e attrs.
Proof.
  intros Ha. unfold picks. rewrite <- list_fmap_compose. apply list_fmap_ext. intros k te Hte. rewrite Forall_forall in Ha.
  specialize (Ha te ltac:(by eapply list_elem_of_lookup_2)). unfold rt_fetch in Ha. cbn. unfold attr. case_decide; [|done].
  by rewrite list_lookup_fmap, Ha.
Qed.

(** The last step on a row of the rewritten query. *)
Definition finish (n : nat) (es : list CopyMapRelEntry) (provs : list RelProv) (t : tuple) : tuple :=
  take n t ++ concat (zip_with (λ rel p, if noRewrite rel then nulls (attr_count rel) else picks (relProvAttrs p) t) es provs).

Lemma core_values e (tes : list TargetEntry) : values e tes = (λ c : Expr * bool, eval_expr op_sem (vals_of id e) c.1) <$> (core <$> tes).
Proof. by rewrite <- list_fmap_compose. Qed.

Lemma rel_cores_values e tl es provs :
  Forall (λ p, Forall (λ te, rt_fetch (resno te) tl = Some te) (relProvAttrs p)) provs →
  (λ c : Expr * bool, eval_expr op_sem (vals_of id e) c.1) <$> concat (zip_with rel_cores es provs) =
  concat (zip_with (λ rel p, if noRewrite rel then nulls (attr_count rel) else picks (relProvAttrs p) (values e tl)) es provs).
Proof.
  intros Hp. revert es. induction Hp as [|p provs Hp1 _ IH]; intros [|rel es]; try done. cbn [zip_with concat]. rewrite fmap_app, IH. f_equal.
  unfold rel_cores. destruct (noRewrite rel).
  - unfold null_cores, attr_count, nulls. rewrite <- list_fmap_compose. induction (attrEntries rel) as [|a l IHl]; [done|]. csimpl. by rewrite IHl.
  - by rewrite picks_values, core_values.
Qed.

(** A query with other target entries over the same rows. *)
Lemma reselect q' tl (f : tuple → tuple) db :
  plain_select q' → distinctClause q' = [] → Forall (λ te, resjunk te = false) (targetList q') → Forall (λ te, resjunk te = false) tl →
  (∀ e, values e tl = f (values e (targetList q'))) →
  evalQuery op_sem cat db (set_targetList tl q') = f <$> evalQuery op_sem cat db q'.
Proof.
  intros Hps Hd Hj1 Hj2 Hf.
  assert (∀ q l, distinctClause q = [] → Forall (λ te, resjunk te = false) l → Forall (shown q) l) as Hsh.
  { intros q l Hdq Hl. eapply Forall_impl; [exact Hl|]. intros te Hte. split; [done|]. by rewrite Hdq. }
  rewrite !evalQuery_eq by (done || by apply Hsh). unfold dedup_if. cbn [distinctClause set_targetList]. rewrite Hd. unfold raw_plain.
  rewrite <- list_fmap_compose. apply list_fmap_ext. intros k e _. apply Hf.
Qed.

(** The parts of the witness at the end. *)
Lemma finish_parts es (parts : list (Z * tuple)) provs t :
  (λ p, picks (relProvAttrs p) t) <$> provs = kept (keeps es) parts → length parts = length es →
  attr_count <$> es = (λ p, length (rd_att cat p.1)) <$> parts →
  zip_with (λ rel p, if noRewrite rel then nulls (attr_count rel) else picks (relProvAttrs p) t) es provs =
  zip_with (shown_tuple cat) (keeps es) parts.
Proof.
  revert es parts. induction provs as [|p provs IH]; intros [|rel es] [|[i w] parts] H Hl Hc; try done. csimpl in *.
  injection H as H1 H2. injection Hc as C1 C2. injection Hl as Hl. f_equal; [|by apply IH]. cbn. unfold shown_tuple. rewrite H1.
  destruct (noRewrite rel); cbn; [by rewrite C1|done].
Qed.

Lemma addTopCopyInclExpr_ok contr m q q' provs st :
  query_ok cat q = true → spj_query cat q → copied cat op_sem q q' (keeps (entries m)) provs →
  Forall (λ rel, isStatic rel = negb (noRewrite rel)) (entries m) →
  attr_count <$> entries m = (λ i, length (rd_att cat i)) <$> accesses q →
  ∃ q'', addTopCopyInclExpr contr m q' OwnInfo provs (Z.of_nat (length (targetList q))) st = Ok (q'', st) ∧
    ∀ db, fits_db cat db → evalQuery op_sem cat db q'' =
      (λ x, x.1 ++ concat (zip_with (shown_tuple cat) (keeps (entries m)) (cut cat (accesses q) x.2))) <$> evalProv op_sem cat db q.
Proof.
  intros Hok Hq Hc Hs Hcnt. set (n := length (targetList q)).
  assert (Forall (λ p, Forall (λ te, rt_fetch (resno te) (targetList q') = Some te) (relProvAttrs p)) provs) as Hat.
  { apply Forall_forall. intros p Hp. apply Forall_forall. intros te Hte. eapply entry_at; [exact Hc|]. apply elem_of_concat.
    exists (relProvAttrs p). split; [done|by apply list_elem_of_fmap_2]. }
  pose proof Hc as [Ht (Hn & _ & Hj) Hfl Hw [Hps Hd] He].
  assert (length provs = length (entries m)) as Hl.
  { apply (f_equal length) in Hw. unfold widths_of in Hw. rewrite length_fmap, length_zip_with in Hw. unfold keeps in *. rewrite length_fmap in *. lia. }
  unfold addTopCopyInclExpr. rewrite Nat2Z.id.
  destruct (final_slots_ok (info_partial contr OwnInfo) (Z.of_nat n) (entries m) provs (Z.min (Z.of_nat n) (Z.of_nat (length (targetList q')))) (targetList q') st Hs Hl)
    as (slots & tl' & E & Hcore & Hslots).
  { eapply Forall_impl; [exact Hat|]. intros p Hp. eapply Forall_impl; [exact Hp|]. intros te Hte. cbn in Hte. by rewrite Hte. }
  hrun E. destruct (fill_slots_ok tl' slots (concat (zip_with rel_cores (entries m) provs)) st) as (new & E2 & Hnew).
  { rewrite <- Hslots. apply list_fmap_ext. intros k s _. by apply slot_core_ext. }
  hrun E2. eexists. split; [done|]. intros db Hdb.
  pose proof (te_ok_shown _ _ (spj_targets _ _ Hq)) as Hsh.
  assert (core <$> take n tl' = core <$> targetList q) as Htake.
  { rewrite fmap_take, Hcore, <- fmap_take, Ht. unfold n. by rewrite take_app_length. }
  assert (Forall (λ c : Expr * bool, c.2 = false) (core <$> targetList q')) as Hj'.
  { rewrite Ht. apply Forall_fmap, Forall_app. split; (eapply Forall_impl; [eassumption|]); by intros te []. }
  assert (Forall (λ te, resjunk te = false) (take n tl' ++ new)) as Hjn.
  { apply (Forall_fmap core (λ c : Expr * bool, c.2 = false)). rewrite fmap_app, Htake, Hnew. apply Forall_app. split.
    - apply Forall_fmap. eapply Forall_impl; [exact Hsh|]. by intros te [].
    - apply Forall_concat, Forall_forall. intros l Hin%elem_of_lookup_zip_with. destruct Hin as (k & rel & p & -> & _ & Hp).
      unfold rel_cores. destruct (noRewrite rel); [apply Forall_fmap, Forall_forall; by intros a _|]. apply Forall_fmap. rewrite Forall_concat in Hj.
      rewrite Forall_fmap in Hj. apply (Forall_lookup_1 _ _ _ _ Hj) in Hp. eapply Forall_impl; [exact Hp|]. by intros te []. }
  rewrite (reselect q' _ (finish n (entries m) provs)); [|done|done|by apply Forall_fmap in Hj'|done|].
  - rewrite (He db Hdb), <- list_fmap_compose. apply list_fmap_ext. intros k x Hx%list_elem_of_lookup_2. cbn.
    pose proof (evalProv_widths op_sem cat db Hdb q Hok) as Hwd. rewrite Forall_forall in Hwd. destruct (Hwd x Hx) as [Hx1 Hx2].
    assert (length x.1 = n) as Hxn.
    { rewrite Hx1. apply out_width_all. eapply Forall_impl; [exact Hsh|]. by intros te []. }
    unfold finish. rewrite <- Hxn at 1. rewrite take_app_length. f_equal. f_equal. apply finish_parts.
    + etrans; [|apply (picks_parts (relProvAttrs <$> provs) _ x.1)].
      * by rewrite <- list_fmap_compose.
      * by rewrite Hxn.
      * rewrite kept_lengths by (rewrite Hx2; by apply prov_width_accesses). rewrite <- Hw. by rewrite <- list_fmap_compose.
    + rewrite length_cut. unfold keeps in Hfl. by rewrite length_fmap in Hfl.
    + rewrite Hcnt. rewrite <- (cut_rels (accesses q) x.2) at 1. by rewrite <- list_fmap_compose.
  - intros e. unfold finish. rewrite fmap_app. f_equal.
    + rewrite core_values, Htake, <- core_values, Ht, fmap_app. unfold n. by rewrite take_app_length' by by rewrite length_fmap.
    + by rewrite core_values, Hnew, (rel_cores_values e (targetList q')).
Qed.

End top.

End CopyTop.
