(* ===== verification/CopyAnswers.v ===== *)
(** * Properties of the copy rewriter

    What the rewritten query returns under copy contribution semantics; that a LIMIT over rows with several witnesses crashes; and examples of
    queries (subqueries under joins, USING, DISTINCT) for which the rewriter does not return the answer it should. *)

From Stdlib Require Import ZArith Lia.
From stdpp Require Import base strings numbers list sets gmap.
From S2P Require Import Prelude ProvStack AttrName QueryTree SqlSemantics SqlFacts Queries RewriteSPJ RewriteLimit RewriteSet RewriteAggr RewriteNode.
From S2P Require Import RewriteFacts SetFacts LimitFacts NodeFacts ProvReplay RewriteProps CopyMap CopySound CopyExact CopyProps.
From S2P Require Import CopyRewrite CopyShape CopyEval CopyRun CopyTop.
Import QueryTree SqlSemantics SqlFacts Queries RewriteSPJ RewriteLimit RewriteSet RewriteAggr RewriteNode RewriteFacts SetFacts LimitFacts NodeFacts.
Import ProvReplay RewriteProps CopyMap CopySound CopyExact CopyProps CopyRewrite CopyShape CopyEval CopyRun CopyTop.

Module CopyAnswers.

(** C7: the copy rewriter is correct on select-project-join queries.  For every well-formed query of base relations, nested subqueries and joins of
    base relations, without DISTINCT and LIMIT, and both copy semantics without transitivity, the rewriter succeeds with one unit of fuel for
    each level of subqueries.  Over every database the rewritten query returns the rows of the original query, in order, each followed by, for every
    access to a base relation in order, the tuple of the relation in the witness of the row if one (partial copy) or all (complete copy)
    of the relation's attributes always are copied to the result, and NULLs otherwise. *)
Theorem copy_rewrite_correct `{AggSublinks} `{SpjHelpers} `{ConstFolding} `{Comparisons} `{CopySetOps}
    op_sem cat get_opcode opt wl contr q fuel st :
  IS_TRANSC contr = false → query_ok cat q = true → copy_spj cat q = true → (nesting q ≤ fuel)%nat →
  ∃ m s1 q' st', generateCopyMapForQueryNode cat get_opcode contr q 1 st = Ok (m, s1) ∧
    rewriteQueryCopy cat get_opcode opt wl fuel contr q st = Ok (q', st') ∧
    ∀ db, fits cat db → evalQuery op_sem cat db q' =
      (λ x, x.1 ++ concat (zip_with (shown_tuple cat) (contributes_copy contr <$> certain m) (cut cat (accesses q) x.2))) <$>
        evalProv op_sem cat db q.
Proof.
  intros Hc Hok Hs Hf. destruct (generateCopyMaps_shape cat get_opcode contr q st Hc Hok Hs) as (m & m' & s1 & E1 & E2 & Hsh & Hks & Hcnt).
  destruct (rewriteQueryNodeCopy_ok op_sem cat opt wl fuel m' q Hok Hs Hsh Hf s1) as (q1 & st' & provs & E3 & Hcp).
  destruct (addTopCopyInclExpr_ok op_sem cat contr m' q q1 provs st' Hok (copy_spj_query _ _ Hok Hs) Hcp) as (q' & E4 & Hev); [|done|].
  { inversion Hsh as [? ? es inputs Hag]; subst. clear -Hag. cbn. induction Hag as [|rel child es ch (_ & Hst & _) _ IH]; by constructor. }
  exists m, s1, q', st'. split; [done|]. unfold rewriteQueryCopy. hrun E2. hrun E3. split; [exact E4|]. intros db Hdb. rewrite <- Hks. by apply Hev.
Qed.

(** ** Examples *)

(** Columns of the same type, and no set operations. *)
#[local] Instance no_coercions : Comparisons := {| compare_coerced := λ _ _, throw Segv |}.
#[local] Instance no_copy_setops : CopySetOps := {| rewriteCopySetQuery := λ _ _ _, throw Segv |}.

Definition item (v : Var) (n : Z) (name : string) : TargetEntry := mkTE (EVar v) n (Some name) 0 0 0 false.
Definition select0 (rt : list RangeTblEntry) (from : list Node) (w : option Expr) (tl : list TargetEntry) : Query :=
  mkQuery CMD_SELECT false false rt from w tl [] None [] [] None None None false true.
Definition joined0 (jt : JoinType) (vars : list Var) (names : list string) : RangeTblEntry :=
  mkRangeTblEntry RTE_JOIN 0 None TYPEFUNC_OTHER [] jt vars None (mkAlias "j" (Some <$> names)) false [].

(** [SELECT v.b, j.a FROM (SELECT b FROM r) AS v, (r LEFT JOIN s ON r.b = s.a) AS j WHERE v.b = r.b], where [j.a] is [s.a]. *)
Definition inner0 : Query := select0 [rel0 1 "r"] [RangeTblRef 1] None [item (col 1 2) 1 "b"].
Definition copy0 : Query :=
  select0 [subquery0 inner0 "v" ["b"]; rel0 1 "r"; rel0 2 "s"; joined0 JOIN_LEFT [col 2 1; col 2 2; col 3 1; col 3 2] ["a"; "b"; "a"; "b"]]
    [RangeTblRef 1; JoinExpr JOIN_LEFT (RangeTblRef 2) (RangeTblRef 3) (Some (eq0 (col 2 2) (col 3 1))) 4]
    (Some (eq0 (col 1 1) (col 2 2))) [item (col 1 1) 1 "b"; item (col 4 3) 2 "a"].

(** The tuples of [r] inside [v] and of [s] contribute, those of the other [r] do not; a row without match in [s] has NULLs. *)
Lemma copy_rewrite_correct_witness :
  (∃ m s1 q' st', generateCopyMapForQueryNode cat0 id CONTR_COPY_PARTIAL_NONTRANSITIVE copy0 1 start0 = Ok (m, s1) ∧
    rewriteQueryCopy cat0 id true false 2 CONTR_COPY_PARTIAL_NONTRANSITIVE copy0 start0 = Ok (q', st') ∧
    ∀ db, fits cat0 db → evalQuery ops0 cat0 db q' =
      (λ x, x.1 ++ concat (zip_with (shown_tuple cat0) (contributes_copy CONTR_COPY_PARTIAL_NONTRANSITIVE <$> certain m) (cut cat0 (accesses copy0) x.2))) <$>
        evalProv ops0 cat0 db copy0) ∧
  (λ x, x.1 ++ concat (zip_with (shown_tuple cat0)
      (contributes_copy CONTR_COPY_PARTIAL_NONTRANSITIVE <$> certain (map0 CONTR_COPY_PARTIAL_NONTRANSITIVE copy0)) (cut cat0 (accesses copy0) x.2))) <$>
    evalProv ops0 cat0 db0 copy0 =
  [[Some 5; Some 5; Some 1; Some 5; None; None; Some 5; Some 50];
   [Some 5; Some 5; Some 1; Some 5; None; None; Some 5; Some 51];
   [Some 6; None; Some 2; Some 6; None; None; None; None];
   [Some 7; None; Some 1; Some 7; None; None; None; None]]%Z.
Proof.
  split; [|vm_compute; reflexivity].
  apply (copy_rewrite_correct ops0 cat0 id true false CONTR_COPY_PARTIAL_NONTRANSITIVE copy0 2 start0);
    [reflexivity|vm_compute; reflexivity|vm_compute; reflexivity|vm_compute; lia].
Defined.

(** ** Queries that are not answered *)

(** Past the generation of the maps, a LIMIT over rows with several witnesses leads to a query without a map. *)
Lemma limit_without_map `{AggSublinksLaws} `{SpjHelpers} `{ConstFolding} `{Comparisons} `{CopySetOps} cat q fuel m s1 :
  query_ok cat q = true → grouped q = false → setOperations q = None → limit_joins q = true → (need q ≤ fuel)%nat →
  rewriteQueryNodeCopy cat true false fuel m q s1 = Err Segv ∨
  ∃ q' provs st', rewriteQueryNodeCopy cat true false fuel m q s1 = Ok ((q', NoMap, provs), st').
Proof.
  intros Hok Hg Hso Hl Hf. assert (spj_query cat q) as Hq.
  { pose proof (query_ok_spec _ _ Hok) as [_ [Hs|[Hs|[T Hs]]]]; [done|by rewrite (ProvWitness.ProvWitness.agg_grouped _ _ Hs) in Hg|].
    pose proof (set_tree _ _ _ Hs). congruence. }
  rewrite need_unfold in Hf. destruct fuel as [|fuel]; [lia|]. cbn [rewriteQueryNodeCopy].
  pose proof (checkLimit_spec cat q Hok Hq) as Hcl. rewrite Hl in Hcl.
  destruct (rewriteQueryNode_ok (mkOps (λ _ _, None) (λ _ _, None) (λ _ _, None)) cat (λ _, []) ltac:(by intros ? ? ?%elem_of_nil) q (S (S fuel)) Hok
    ltac:(rewrite need_unfold; lia) s1) as (q' & st' & pl & E3 & _).
  rewrite spj_dispatch in E3 by done. cbn [rewriteSPJQuery] in E3. rewrite Hcl in E3.
  assert (hasAggs q = false) as -> by (unfold grouped in Hg; by destruct (hasAggs q)). rewrite Hso.
  destruct m as [rel|k es' inputs']; [by left|right]. cbn [rewriteSPJQueryCopy]. rewrite Hcl.
  exists q', ((λ _, no_prov) <$> es'), st'. by hrun E3.
Qed.

(** C33: LIMIT with several witnesses is not answered under copy semantics.  For every well-formed select-project-join query with a LIMIT in which a row
    can have several witnesses, and all four copy semantics: if the generation of the copy maps ends with an error (which only happens with transitivity), so does
    the rewriter; otherwise the rewriter for LIMIT, which is the one of the influence semantics, returns a query without a copy map, and adding the provenance
    attributes of the top query reads the map through a NULL pointer. *)
Theorem copy_limit_crashes `{AggSublinksLaws} `{SpjHelpers} `{ConstFolding} `{Comparisons} `{CopySetOps} cat get_opcode contr q fuel st :
  query_ok cat q = true → grouped q = false → setOperations q = None → limit_joins q = true → (need q ≤ fuel)%nat →
  rewriteQueryCopy cat get_opcode true false fuel contr q st =
    Err (match generateCopyMaps cat get_opcode contr q st with Ok _ => Segv | Err e => e end) ∧
  (IS_TRANSC contr = false → ∃ m s1, generateCopyMaps cat get_opcode contr q st = Ok (m, s1)).
Proof.
  intros Hok Hg Hso Hl Hf. split.
  - unfold rewriteQueryCopy. destruct (generateCopyMaps cat get_opcode contr q st) as [[m s1]|e] eqn:E; [|by apply bind_err].
    hrun E. destruct (limit_without_map cat q fuel m s1 Hok Hg Hso Hl Hf) as [E1|(q' & provs & st' & E1)]; [by apply bind_err|by hrun E1].
  - intros Hc. destruct (generate_plain cat get_opcode contr Hc q Hok 1 st) as (es & inputs & s1 & E1 & Hp).
    destruct (inferStaticCopy_ok contr 1 es inputs s1 Hp) as (m & E2 & _ & _ & _). exists m, s1. unfold generateCopyMaps. by hrun E1.
Qed.

(** [SELECT DISTINCT a FROM r LIMIT 1] *)
Definition limit0 : Query :=
  mkQuery CMD_SELECT false false [rel0 1 "r"] [RangeTblRef 1] None [mkTE (EVar (col 1 1)) 1 (Some "a") 1 0 0 false] [] None
    [mkSort 1 97 false] [] None (Some (EConst 20 (-1) (Some 1%Z))) None false true.

Lemma copy_limit_crashes_witness :
  rewriteQueryCopy cat0 id true false 3 CONTR_COPY_PARTIAL_NONTRANSITIVE limit0 start0 = Err Segv ∧
  rewriteQueryCopy cat0 id true false 3 CONTR_COPY_COMPLETE_TRANSITIVE limit0 start0 = Err Segv.
Proof.
  split.
  - destruct (copy_limit_crashes cat0 id CONTR_COPY_PARTIAL_NONTRANSITIVE limit0 3 start0) as [-> Hg];
      [vm_compute; reflexivity..|vm_compute; lia|]. by destruct (Hg eq_refl) as (m & s1 & ->).
  - destruct (copy_limit_crashes cat0 id CONTR_COPY_COMPLETE_TRANSITIVE limit0 3 start0) as [-> _];
      [vm_compute; reflexivity..|vm_compute; lia|]. vm_compute. reflexivity.
Defined.

(** [SELECT j.b FROM (SELECT b FROM r) AS v JOIN s ON v.b = s.a], and [SELECT a, j.b FROM r JOIN s USING (a)], where the join has the columns
    [r.a], [r.b] and [s.b]. *)
Definition under0 : Query :=
  select0 [subquery0 inner0 "v" ["b"]; rel0 2 "s"; joined0 JOIN_INNER [col 1 1; col 2 1; col 2 2] ["b"; "a"; "b"]]
    [JoinExpr JOIN_INNER (RangeTblRef 1) (RangeTblRef 2) (Some (eq0 (col 1 1) (col 2 1))) 3] None [item (col 3 1) 1 "b"].
Definition using0 : Query :=
  select0 [rel0 1 "r"; rel0 2 "s"; joined0 JOIN_INNER [col 1 1; col 1 2; col 2 2] ["a"; "b"; "b"]]
    [JoinExpr JOIN_INNER (RangeTblRef 1) (RangeTblRef 2) (Some (eq0 (col 1 1) (col 2 1))) 3] None [item (col 3 1) 1 "a"; item (col 3 3) 2 "b"].

(** Columns that a join does not have are looked up in it.  The copy rewriter does not extend the columns of a join by the provenance attributes of
    its arguments, as the rewriter of the influence semantics does.  For a subquery under a join, and for the column of the right argument of a join
    with USING, the search for the column ends without a match and the position that is used is not initialised.  The other rewriter answers both
    queries. *)
Example copy_join_columns_undefined :
  query_ok cat0 under0 = true ∧ query_ok cat0 using0 = true ∧
  (∀ q, q = under0 ∨ q = using0 →
    rewriteQueryCopy cat0 id true false 2 CONTR_COPY_PARTIAL_NONTRANSITIVE q start0 = Err Segv ∧
    ∃ q' st', rewriteQueryNode cat0 true false (need q) q start0 = Ok (q', st') ∧
      evalQuery ops0 cat0 db0 q' = (λ x, x.1 ++ x.2) <$> evalProv ops0 cat0 db0 q).
Proof.
  split; [vm_compute; reflexivity|]. split; [vm_compute; reflexivity|].
  intros q [->| ->]; (split; [vm_compute; reflexivity|]); eexists _, _; (split; [vm_compute; reflexivity|vm_compute; reflexivity]).
Qed.

(** [SELECT DISTINCT r.a, s.a FROM r, s] *)
Definition distinct0 : Query :=
  mkQuery CMD_SELECT false false [rel0 1 "r"; rel0 2 "s"] [RangeTblRef 1; RangeTblRef 2] None
    [mkTE (EVar (col 1 1)) 1 (Some "a") 1 0 0 false; mkTE (EVar (col 2 1)) 2 (Some "a2") 2 0 0 false] [] None
    [mkSort 1 97 false; mkSort 2 97 false] [] None None None false true.

(** With DISTINCT the provenance columns of a relation appear once for each relation before it and once for itself: the lists of the attributes of
    the relations are concatenated in place, and the list of a relation then runs on into those behind it. *)
Theorem copy_distinct_repeats_columns :
  ∃ q' st', rewriteQueryCopy cat0 id true false 1 CONTR_COPY_PARTIAL_NONTRANSITIVE distinct0 start0 = Ok (q', st') ∧
    resname <$> targetList q' = Some <$> ["a"; "a2"; "prov_public_r_a"; "prov_public_r_b"; "prov_public_s_a"; "prov_public_s_b";
                                           "prov_public_s_a"; "prov_public_s_b"].
Proof. eexists _, _. split; vm_compute; reflexivity. Qed.

(** The relation has two attributes, of which only the second one is copied, to column 2 of two columns. *)
Definition second_copied : CopyMapRelEntry :=
  let attr n incls b := mkEntry (col 1 n) "" incls b (negb b) in
  mkRelEntry 1 0 [attr 1%Z [] false; attr 2%Z [mkIncl (col 1 2) [] true] true] 1 true false.

(** The set of the copies of an attribute starts with the element 0, for which the first bit is set: the set also says that the first
    attribute is copied to column 1. *)
Theorem first_copy_bit_set :
  ∃ x, generateVarBitConstruction cat0 second_copied second_copied no_prov 2 start0 = Ok (x, start0) ∧
    x = ERelabelType (EConst 1560 (-1) (Some (TransRewrite.TransRewrite.varbit_datum (VarBit.VarBit.mkVarBit 4 [144]%Z)))) 1562 (-1) COERCE_EXPLICIT_CAST.
Proof. eexists. split; vm_compute; reflexivity. Qed.

End CopyAnswers.
